(* ===== verification/_CoqProject ===== *)
-Q . S2P
Prelude.v
BufferPool.v
Address.v
Topics.v
TopicStore.v
Wire.v
Directory.v
Discovery.v
Protocol.v
Offers.v
Replication.v
Messaging.v
Client.v
Server.v
Messages.v
SmartMessage.v
CharacterDevice.v
Timers.v
Logging.v
Node.v
EndToEnd.v
Lifecycle.v
Floats.v
FloatExact.v
Rounding.v
Quotients.v
RealValue.v
FloatUtils.v
Scalar.v
IntervalBins.v
Rates.v
Pid.v
PidRounding.v
Devices.v
Polynomial.v
PolynomialRing.v
RealScalars.v
PolynomialReal.v
HornerRounding.v
Angles.v
AngleRounding.v
Geometry.v
Matrices.v
