(* ===== verification/Prelude.v ===== *)
(** * Verification of the a17 general-tools libraries

    The repository's own C++ code is under [src/a17]: [dispatch], a publish/subscribe and
    request/reply layer over ZeroMQ with its own discovery protocol; [utils], a buffer
    pool, queued byte-stream output, timers, control and measurement; and [maths],
    polynomials, angles, quaternions and matrices.  This library models all three and proves
    what makes them correct.

    ** How the parts interact

    A [Node] owns a [BufferPool], a [Directory] and an event loop.  The directory of each
    process broadcasts datagrams that advertise, withdraw and search for topics, and keeps
    what it learns in a [DirectoryTopicStore], whose observers are told of changes.  A
    [Server] binds a ZeroMQ socket and advertises it; a [Client] observes a topic and
    connects to its providers; a [RequestClient] connects to the newest provider.  Messages
    are built by a [SmartCapnpBuilder] in memory of a buffer pool, sent part by part by a
    [Socket], put together again by the receiving [Socket], handed on by a [Listener] or a
    [ReplyServer], and opened by a [SmartCapnpReader], which checks the type.

    ** Files

    - [Prelude]: outcomes of C++ code, machine integers, byte buffers and C strings, ordered
      iteration, text of numbers, little-endian bytes; the shared lemmas and tactics.
    - [BufferPool] (utils/buffer_pool): the ring of free buffers, run by one thread and, as
      a step relation on shared memory, by one allocating and many freeing threads.
    - [Address] (dispatch/address): addresses and the choice of the node's own address.
    - [Topics] (dispatch/defs, topic, socket_types, directory_topic): names and types.
    - [TopicStore] (dispatch/directory, DirectoryTopicStore): the table of topics.
    - [Wire] (dispatch/directory): tokens and type lists in message text.
    - [Directory] (dispatch/directory, Directory): every handler over byte buffers, and the
      same message handling on words; [Discovery]: the invariant of a directory and what
      each handler does under it; [Protocol]: the properties of the protocol; [Offers]: its
      messages as data and what each does to the receiver; [Replication]: two and more
      directories with the network between them.
    - [Messaging] (dispatch/socket, listener, reply_server), [Client] (client, pub_client,
      request_client), [Server] (server, publisher, subscriber, sub_server).
    - [Messages] (message_helpers), [SmartMessage] (smart_capnp_builder, smart_capnp_reader,
      smart_message_reader), [Node] (node), [Lifecycle] (node: its event loop, the client, the
      signals and every thread that runs the loop, as a step relation);
      [EndToEnd]: nodes, sockets and directories put together.
    - [CharacterDevice] (utils/character_device), [Timers] (utils/repeater, watchdog),
      [IntervalBins] (utils/nearest_interval_bin), [Rates] (rate_measure), [Devices] (utils/serial_port,
      udp_socket), [Pid] (utils/pid) on the binary formats of [Floats], with its control law and
      the error of computing it in [PidRounding], [Logging] (utils/spdlog).
    - [FloatUtils] (maths/float_utils) in binary32; [FloatExact]: when floating point is exact;
      [Rounding]: the error of sums and products in binary64, and full turns; [Quotients]:
      the bits of a rounded quotient, in any format; [RealValue]: the real value of a number and
      the error of each operation against it.
      [Scalar] is the class of arithmetics the rest of [maths] is modelled over, with the
      program's binary64 and the integers as instances, and [RealScalars] the real numbers.
    - [Polynomial] (maths/polynomial, polynomial_utils); [PolynomialRing]: what it computes
      over commutative rings and on integers in binary64; [PolynomialReal]: over the reals;
      [HornerRounding]: the rounding error of its evaluation.
    - [Angles] (maths/angle_utils, angle_unroller, constants); [AngleRounding]: wrapping and
      unrolling in binary64; [Geometry] (maths/quaternion_utils,
      rotations, the cross-product matrix), [Matrices] (maths/matrix_utils, the adjugate; on
      MathComp's matrices, apart from the other files).

    Definitions keep the names of the code: a module per class, [t] its state with the
    class's fields, one definition per member function, named helper definitions for loops.
    A call returns an [outcome]: a result, an exception, or undefined behaviour (a read or
    write outside an object, a dangling reference, overflow of a signed integer).
    Effects on the outside are returned in order, as lists of calls made.

    ** What is a parameter

    The Internet address functions of the C library ([Address.Inet]), the system allocator
    (the address it returns is given to each call), Cap'n Proto ([SmartMessage.Capnp] with
    [CapnpLaws]), the Boost.Asio timer ([Timers.Timer] with [TimerLaws]), ZeroMQ (each call
    is given its result) and Asio's delivery of completions (explicit events), Eigen's products,
    inverse and determinant ([Geometry.EigenLaws], hypotheses of [Matrices] and of
    [reverse]), the root finder of [levelSet] and spdlog's level names.  Contents of fresh
    memory are given and arbitrary.

    ** What the theorems show

    - Memory: the pool behaves as a FIFO queue of buffers with a system fallback, also under
      every interleaving of its threads; builders and devices return what they take; no
      datagram, of any content, makes the directory read or write outside its buffers, and
      exactly the datagrams that hand [isprint] a negative [char] are undefined behaviour
      ([directory_safe]); exactly which message texts fit the send buffer and which received messages can be
      opened.
    - Discovery: the store refines a table keyed by topic and node; the in-place tokenizer
      refines a protocol on words; advertisements are understood as sent; a query round
      asks for every missing topic, at intervals that double up to a bound; an observer and
      a provider find each other in one round; over an orderly link a table is a delayed copy
      of the sender's topics, and over any network nothing is on file that was not added;
      an advertisement that makes an observer throw ends the node.
    - Messages: multipart and smart messages are read back as sent; published messages
      reach the typed handlers of subscribers in order; a request gets one reply; request
      and reply alternate.
    - Together: from the registration of a publisher and a subscriber on two nodes to the
      calls of the typed handler, for whichever messages ZeroMQ carries, and from requests to
      the calls of their handlers, with lost messages and late timers; the life of a node.
    - Devices, timers and measurement: bytes leave in the order they were accepted and all
      of them do when writes succeed; a repeater neither stalls nor drifts; a watchdog
      fires exactly when it is not marked; measurements are over the window, with the nearest
      interval bin; the PID
      controller computes its control law up to the precision of its clock.
    - Mathematics: in exact arithmetic polynomials are evaluated, differentiated and reversed
      as documented and up to degree two solved, angles are wrapped, compared and unrolled without jumps, Euler
      angles survive the way through quaternions, gimbal lock included, the change of frame is
      the documented one and the adjugate is the adjugate; in binary64 nothing is undefined
      on well-formed polynomials, evaluation is within the usual error bound of the exact
      value, integer results below [2 ^ 53] are exact, and unrolled angles have no jumps and a
      bounded error.
    - Where the code does not do what it means to, a theorem says what it does instead (for
      instance [write_error_wedges], [request_wedged], [stale_frames_after_error],
      [refused_provider_sticks], [bad_address_ends_node], [exception_ends_silently],
      [unlocked_free_races], [tail_read_races], [failed_sends_leak], [pid_angular_kick],
      [late_timeout_cuts_next], [restart_overlaps], [throwing_operation_stalls],
      [nearest_bin_reads_outside]).

    ** Bounds and fuel

    Loops over buffers and lists are structural.  [Directory.search_loop] counts down the
    buffer size, [CharacterDevice.send_loop] the bytes to send, [IntervalBins.right_loop] the ten
    bins, [Messages.dec_exponent] the 640 decimal exponents of a [double]; running out is
    undefined behaviour in the model, and the theorems that the calls return show that it
    does not happen (the last one is only used for text).  Integers are [Z] with their
    wrap-around or overflow written out where the code can reach it; [size_t] counts of
    elements in memory are [nat].

    The loops that bring an angle into range, of the PID controller and of [WrapToPi], take
    fuel, because in binary64 they need not end ([pid_angular_hangs], [wrap_to_pi_hangs]); up to
    [2 ^ 53] they do, rounding included ([wrap_to_pi_binary64], [pid_angular_returns]), and
    over the real numbers [Angles.wrap_fuel] is enough.

    ** Exact and floating-point arithmetic

    A definition over [Scalar] is the program when the scalar is [binary64]; theorems about
    the real numbers, a ring or a field are about the same definition with exact arithmetic,
    and say nothing about rounding.  [polynomial_well_formed], [polynomial_eval_exact],
    [polynomial_eval_rounding], [wrap_to_pi_binary64], [unroller_binary64], [pid_control_law] and
    everything in [FloatUtils] and [Pid] are about floating point itself.

    ** Not modelled

    The network itself: [Replication] and [EndToEnd] say which network they assume.
    [Replication] has a lossless orderly link for one theorem and a network without any
    promise for the other; ZeroMQ's connections in [EndToEnd] keep the order of messages and
    carry a message with all its parts or not at all, and may drop any message.  A send that
    transmits part of a datagram (which the code would follow by a second datagram with the
    rest) is modelled in [Directory], but excluded in [Offers], as UDP sends whole datagrams.

    Weak memory: steps on shared memory ([BufferPool], [Lifecycle]) are sequentially
    consistent.  Two accesses of the code are data races by the C++ standard, of [tail_] in
    [BufferPool::malloc] and of [signaled_shutdown_] in [Node].  Handlers that block, or that
    start or destroy the node they run on.  Operations of a repeater that throw are
    apart from the histories of the other theorems, in [throwing_operation_stalls].

    Log output, the root finder and the other vendored code, an unused variant of node.cpp
    (node_gemini), the Python dispatch library, Cap'n Proto schemas, build files and tests.
    Rounding errors are bounded for single operations ([RealValue]), for angles
    ([AngleRounding]), the values of polynomials ([HornerRounding]) and the PID controller
    ([PidRounding]), not for the rest of the mathematics. *)

From Stdlib Require Export ZArith Lia Ascii.
From stdpp Require Export base tactics sorting gmap strings option numbers.
From stdpp Require Export list_relations list_numbers list_monad list_basics list_misc list.

#[export] Set Default Goal Selector "!".

Declare Scope a17_scope.
Delimit Scope a17_scope with a17.

(** ** Outcomes of C++ code

    A call returns normally, throws, or has undefined behaviour (a read or
    write outside an object, a dangling reference, a division by zero).  A
    failed [assert] is the exception [assertion_failed], which nothing catches. *)
Inductive exn : Type :=
  | runtime_error (what : string)
  | invalid_argument (what : string)
  | out_of_range (what : string)
  | system_error
  | assertion_failed.

Inductive outcome (A : Type) : Type :=
  | Ret (a : A)
  | Throw (e : exn)
  | Undef.

Arguments Ret {A} a.
Arguments Throw {A} e.
Arguments Undef {A}.

Global Instance exn_eq_dec : EqDecision exn.
Proof. solve_decision. Defined.

Global Instance outcome_eq_dec {A} `{EqDecision A} : EqDecision (outcome A).
Proof. solve_decision. Defined.

Global Instance outcome_ret : MRet outcome := @Ret.

Global Instance outcome_bind : MBind outcome := λ A B f m,
  match m with
  | Ret a => f a
  | Throw e => Throw e
  | Undef => Undef
  end.

(** A check whose failure is undefined behaviour. *)
Definition ub_unless (b : bool) : outcome unit := if b then Ret tt else Undef.

(** The outcome is not undefined behaviour. *)
Definition defined {A} (m : outcome A) : bool :=
  match m with Undef => false | _ => true end.

(** ** Machine integers *)
Definition u8 (z : Z) : Z := z mod 2 ^ 8.
Definition u16 (z : Z) : Z := z mod 2 ^ 16.
Definition u32 (z : Z) : Z := z mod 2 ^ 32.
Definition u64 (z : Z) : Z := z mod 2 ^ 64.
Definition i64 (z : Z) : Z := (z + 2 ^ 63) mod 2 ^ 64 - 2 ^ 63.

(** ** Characters and byte buffers *)
Definition NUL : ascii := "000"%char.
Definition SPC : ascii := " "%char.

(** [isprint] of the C locale. *)
Definition isprint (c : ascii) : bool :=
  (32 <=? Z.of_N (N_of_ascii c))%Z && (Z.of_N (N_of_ascii c) <=? 126)%Z.

(** [isprint(c)] for a plain [char], which is signed: a byte from 128 on is a negative argument, for
    which the function is only defined when it is [EOF] (the byte 255). *)
Definition char_domain (c : ascii) : bool :=
  (Z.of_N (N_of_ascii c) <? 128)%Z || (Z.of_N (N_of_ascii c) =? 255)%Z.

Definition isprint_char (c : ascii) : outcome bool := if char_domain c then Ret (isprint c) else Undef.

Definition chars (s : string) : list ascii := String.list_ascii_of_string s.
Definition str (l : list ascii) : string := String.string_of_list_ascii l.

(** No NUL inside, so [c_str()] and [size()] agree on the text. *)
Definition nul_free (s : string) : bool :=
  forallb (λ c, bool_decide (c ≠ NUL)) (chars s).

Definition rd (buf : list ascii) (i : nat) : outcome ascii :=
  match buf !! i with Some c => Ret c | None => Undef end.

Definition wr (buf : list ascii) (i : nat) (c : ascii) : outcome (list ascii) :=
  if decide (i < length buf) then Ret (<[i := c]> buf) else Undef.

(** The C string that starts at the head of [l]: reading past the end of the
    object is undefined. *)
Fixpoint cstr_list (l : list ascii) : outcome string :=
  match l with
  | [] => Undef
  | c :: l' =>
      if decide (c = NUL) then Ret ""
      else s ← cstr_list l'; Ret (String c s)
  end.

Definition cstr (buf : list ascii) (p : nat) : outcome string :=
  cstr_list (drop p buf).

(** [s.c_str()] seen as a C string: the text before the first NUL. *)
Fixpoint c_str (s : string) : string :=
  match s with
  | EmptyString => EmptyString
  | String c s' => if decide (c = NUL) then "" else String c (c_str s')
  end.

(** ** Iteration order of [std::set<std::string>] and
    [std::map<std::string, V>]: ascending keys *)
Definition set_iter (X : gset string) : list string :=
  merge_sort String.le (elements X).

Definition key_le {V} (p q : string * V) : Prop := String.le p.1 q.1.

Global Instance key_le_dec {V} : RelDecision (@key_le V).
Proof. intros p q. unfold key_le. apply _. Defined.

Definition map_iter {V} (m : gmap string V) : list (string * V) :=
  merge_sort key_le (map_to_list m).

(** ** Decimal text of non-negative integers ([std::to_string]) *)
Definition digit (d : Z) : ascii := ascii_of_N (Z.to_N (48 + d)).

Fixpoint dec_digits (fuel : nat) (n : Z) (acc : list ascii) : list ascii :=
  match fuel with
  | O => acc
  | S fuel' =>
      if (n <? 10)%Z then digit n :: acc
      else dec_digits fuel' (n / 10) (digit (n mod 10) :: acc)
  end.

(** [Z.log2 n + 1] digits are enough in base 2, hence in base 10. *)
Definition to_string (n : Z) : string :=
  str (dec_digits (S (Z.to_nat (Z.log2 n))) n []).

(** ** Lemmas *)

Create HintDb a17.
Create Rewrite HintDb a17.

Ltac inv_outcome H :=
  repeat match type of H with
  | (match ?m with Ret _ => _ | Throw _ => _ | Undef => _ end) = _ =>
      let E := fresh "E" in destruct m eqn:E; try discriminate H
  | (if ?b then _ else _) = _ =>
      let E := fresh "E" in destruct b eqn:E; try discriminate H
  end.

(** Case analysis on the first test of the goal (and only of the goal). *)
Ltac case_goal :=
  match goal with
  | |- context [ @decide ?P ?d ] => destruct (@decide P d)
  | |- context [ @bool_decide ?P ?d ] =>
      let H := fresh "Hb" in destruct (@bool_decide P d) eqn:H;
      [apply bool_decide_eq_true in H|apply bool_decide_eq_false in H]
  end.

Lemma bind_Ret {A B} (f : A → outcome B) a : (Ret a ≫= f) = f a.
Proof. done. Qed.

Lemma bind_Some_eq {A B} (f : A → option B) a : (Some a ≫= f) = f a.
Proof. done. Qed.

Lemma bind_Ret_inv {A B} (m : outcome A) (f : A → outcome B) b :
  (m ≫= f) = Ret b → ∃ a, m = Ret a ∧ f a = Ret b.
Proof. destruct m; simpl; naive_solver. Qed.

Lemma bind_defined {A B} (m : outcome A) (f : A → outcome B) :
  defined m = true → (∀ a, m = Ret a → defined (f a) = true) →
  defined (m ≫= f) = true.
Proof. destruct m; simpl; naive_solver. Qed.

Lemma chars_app s t : chars (s +:+ t) = chars s ++ chars t.
Proof.
  induction s as [|c s IH]; [done|].
  change (c :: chars (s +:+ t) = c :: chars s ++ chars t). by rewrite IH.
Qed.

Lemma str_chars s : str (chars s) = s.
Proof. apply String.string_of_list_ascii_of_string. Qed.

Lemma chars_str l : chars (str l) = l.
Proof. apply String.list_ascii_of_string_of_list_ascii. Qed.

Lemma chars_inj s t : chars s = chars t → s = t.
Proof. intros H. by rewrite <- (str_chars s), <- (str_chars t), H. Qed.

Lemma length_chars s : length (chars s) = String.length s.
Proof. induction s; simpl; [done|]. f_equal. done. Qed.

Lemma nul_free_spec s : nul_free s = true ↔ NUL ∉ chars s.
Proof.
  unfold nul_free. rewrite forallb_forall. split.
  - intros H Hin. apply list_elem_of_In, H in Hin.
    by apply bool_decide_eq_true in Hin.
  - intros H c Hc. apply bool_decide_eq_true. intros ->. apply H.
    by apply list_elem_of_In.
Qed.

Lemma c_str_nul_free s : nul_free s = true → c_str s = s.
Proof.
  rewrite nul_free_spec. induction s as [|c s IH]; simpl; [done|].
  intros H. rewrite decide_False by set_solver. f_equal. set_solver.
Qed.

(** A C string followed by its terminator reads back as the text. *)
Lemma cstr_list_app s rest :
  NUL ∉ chars s → cstr_list (chars s ++ NUL :: rest) = Ret s.
Proof.
  induction s as [|c s IH]; simpl; [done|]. intros H.
  rewrite decide_False by set_solver. rewrite IH by set_solver. done.
Qed.

Lemma cstr_list_inv l s :
  cstr_list l = Ret s → ∃ rest, l = chars s ++ NUL :: rest ∧ NUL ∉ chars s.
Proof.
  revert s. induction l as [|c l IH]; simpl; [done|]. intros s.
  case_decide as Hc; [intros [= <-]; subst; simpl; set_solver|].
  intros (s' & H & [= <-])%bind_Ret_inv. apply IH in H as (rest & -> & Hn).
  exists rest. simpl. set_solver.
Qed.

(** A NUL somewhere in the object makes every C-string read before it safe. *)
Lemma cstr_list_terminated l : NUL ∈ l → ∃ s, cstr_list l = Ret s.
Proof.
  induction l as [|c l IH]; simpl; [set_solver|].
  intros H. case_decide; [by eauto|].
  destruct IH as [s ->]; [set_solver|]. simpl. eauto.
Qed.

Lemma rd_Ret buf i c : rd buf i = Ret c ↔ buf !! i = Some c.
Proof. unfold rd. destruct (buf !! i); naive_solver. Qed.

Lemma rd_lt buf i : i < length buf → ∃ c, rd buf i = Ret c.
Proof.
  intros [c Hc]%lookup_lt_is_Some. exists c. by apply rd_Ret.
Qed.

(** Ordered iteration visits exactly the elements, each once. *)
Lemma set_iter_perm X : set_iter X ≡ₚ elements X.
Proof. apply merge_sort_Permutation. Qed.

Lemma elem_of_set_iter X s : s ∈ set_iter X ↔ s ∈ X.
Proof. rewrite set_iter_perm. apply elem_of_elements. Qed.

Lemma NoDup_set_iter X : NoDup (set_iter X).
Proof. rewrite set_iter_perm. apply NoDup_elements. Qed.

Lemma set_iter_sorted X : StronglySorted String.le (set_iter X).
Proof. apply (StronglySorted_merge_sort _ _). Qed.

Lemma set_iter_empty : set_iter ∅ = [].
Proof. unfold set_iter. by rewrite elements_empty. Qed.

Lemma set_iter_nil X : set_iter X = [] ↔ X = ∅.
Proof.
  split; [|intros ->; apply set_iter_empty]. intros H. apply leibniz_equiv.
  intros s. rewrite <- elem_of_set_iter, H. set_solver.
Qed.

Lemma map_iter_perm {V} (m : gmap string V) : map_iter m ≡ₚ map_to_list m.
Proof. apply merge_sort_Permutation. Qed.

Lemma elem_of_map_iter {V} (m : gmap string V) k v :
  (k, v) ∈ map_iter m ↔ m !! k = Some v.
Proof. rewrite map_iter_perm. apply elem_of_map_to_list. Qed.

Lemma NoDup_fst_map_iter {V} (m : gmap string V) : NoDup (map_iter m).*1.
Proof. rewrite map_iter_perm. apply NoDup_fst_map_to_list. Qed.

Lemma map_iter_empty {V} : map_iter (∅ : gmap string V) = [].
Proof. unfold map_iter. by rewrite map_to_list_empty. Qed.

Lemma map_iter_singleton {V} k (v : V) : map_iter ({[k := v]} : gmap string V) = [(k, v)].
Proof. unfold map_iter. by rewrite map_to_list_singleton. Qed.

Lemma map_iter_nil {V} (m : gmap string V) : map_iter m = [] ↔ m = ∅.
Proof.
  split; [|intros ->; apply map_iter_empty]. intros H. apply map_empty.
  intros k. destruct (m !! k) as [v|] eqn:E; [|done].
  apply elem_of_map_iter in E. rewrite H in E. set_solver.
Qed.

Global Instance key_le_trans {V} : Transitive (@key_le V).
Proof. unfold key_le. intros x y z. apply transitivity. Qed.

Global Instance key_le_total {V} : Total (@key_le V).
Proof. unfold key_le. intros x y. apply total, _. Qed.

Lemma map_iter_sorted {V} (m : gmap string V) : StronglySorted key_le (map_iter m).
Proof. apply (StronglySorted_merge_sort _ _). Qed.

#[export] Hint Resolve NoDup_set_iter NoDup_fst_map_iter : a17.
#[export] Hint Rewrite @bind_Ret chars_app str_chars chars_str : a17.

(** ** Splitting and joining at a separator

    [split_on sep l] are the lines that successive [std::getline(is, raw, sep)]
    calls read from [l] until the stream reports end of file: always at least
    one, and a trailing separator is followed by an empty line. *)
Fixpoint split_on (sep : ascii) (l : list ascii) : list (list ascii) :=
  match l with
  | [] => [[]]
  | c :: l' =>
      if decide (c = sep) then [] :: split_on sep l'
      else
        match split_on sep l' with
        | [] => [[c]]
        | w :: ws => (c :: w) :: ws
        end
  end.

Fixpoint join_with (sep : ascii) (ws : list (list ascii)) : list ascii :=
  match ws with
  | [] => []
  | [w] => w
  | w :: ws' => w ++ sep :: join_with sep ws'
  end.

Lemma split_on_word sep w : sep ∉ w → split_on sep w = [w].
Proof.
  induction w as [|c w IH]; simpl; [done|]. intros Hn.
  rewrite decide_False by set_solver. by rewrite IH by set_solver.
Qed.

Lemma split_on_app sep w l :
  sep ∉ w → split_on sep (w ++ sep :: l) = w :: split_on sep l.
Proof.
  induction w as [|c w IH]; simpl; intros Hn; [by rewrite decide_True|].
  rewrite decide_False by set_solver. by rewrite IH by set_solver.
Qed.

Lemma split_join sep ws :
  ws ≠ [] → Forall (λ w, sep ∉ w) ws → split_on sep (join_with sep ws) = ws.
Proof.
  induction ws as [|w ws IH]; [done|]. intros _ [Hw Hws]%Forall_cons.
  destruct ws as [|w' ws]; simpl; [by apply split_on_word|].
  rewrite split_on_app by done. f_equal. by apply IH.
Qed.

Lemma elem_of_join_with sep ws c :
  c ∈ join_with sep ws → c = sep ∨ ∃ w, w ∈ ws ∧ c ∈ w.
Proof.
  induction ws as [|w ws IH]; simpl; [set_solver|].
  destruct ws as [|w' ws]; [set_solver|]. set_solver.
Qed.

(** ** Decimal digits *)
Definition isdigit (c : ascii) : bool :=
  (48 <=? Z.of_N (N_of_ascii c))%Z && (Z.of_N (N_of_ascii c) <=? 57)%Z.

Definition digit_val (c : ascii) : Z := (Z.of_N (N_of_ascii c) - 48)%Z.

Definition dec_val (l : list ascii) : Z :=
  foldl (λ a c, a * 10 + digit_val c)%Z 0%Z l.

Lemma N_of_digit d : (0 <= d < 10)%Z → Z.of_N (N_of_ascii (digit d)) = (48 + d)%Z.
Proof. intros H. unfold digit. rewrite N_ascii_embedding by lia. lia. Qed.

Lemma digit_isdigit d : (0 <= d < 10)%Z → isdigit (digit d) = true.
Proof. intros H. unfold isdigit. rewrite N_of_digit by done. apply andb_true_intro; lia. Qed.

Lemma digit_val_digit d : (0 <= d < 10)%Z → digit_val (digit d) = d.
Proof. intros H. unfold digit_val. rewrite N_of_digit by done. lia. Qed.

Lemma dec_val_snoc l c : dec_val (l ++ [c]) = (dec_val l * 10 + digit_val c)%Z.
Proof. unfold dec_val. by rewrite foldl_app. Qed.

Lemma dec_digits_spec fuel n acc :
  (0 <= n < 2 ^ Z.of_nat fuel)%Z → (0 < fuel) →
  ∃ D, dec_digits fuel n acc = D ++ acc ∧ Forall (λ c, isdigit c = true) D ∧
       D ≠ [] ∧ dec_val D = n.
Proof.
  revert n acc. induction fuel as [|fuel IH]; [lia|]. intros n acc Hn _. simpl.
  destruct (Z.ltb_spec n 10).
  - exists [digit n]. split_and!; [done| |done|].
    + apply Forall_singleton. apply digit_isdigit. lia.
    + unfold dec_val. simpl. rewrite digit_val_digit; lia.
  - rewrite Nat2Z.inj_succ, Z.pow_succ_r in Hn by lia.
    assert (1 < 2 ^ Z.of_nat fuel)%Z by lia.
    assert (0 < fuel) by (destruct fuel; simpl in *; lia).
    edestruct (IH (n / 10)%Z (digit (n mod 10) :: acc)) as (D & -> & HD & Hne & Hv);
      [split; [apply Z.div_pos; lia|apply Z.div_lt_upper_bound; lia]|done|].
    pose proof (Z.mod_pos_bound n 10).
    exists (D ++ [digit (n mod 10)]). rewrite <- app_assoc. split_and!; [done| | |].
    + apply Forall_app. split; [done|]. apply Forall_singleton, digit_isdigit. lia.
    + by destruct D.
    + rewrite dec_val_snoc, Hv, digit_val_digit by lia. pose proof (Z.div_mod n 10). lia.
Qed.

Lemma to_string_spec n :
  (0 <= n)%Z →
  Forall (λ c, isdigit c = true) (chars (to_string n)) ∧
  chars (to_string n) ≠ [] ∧ dec_val (chars (to_string n)) = n.
Proof.
  intros Hn. unfold to_string. rewrite chars_str.
  edestruct (dec_digits_spec (S (Z.to_nat (Z.log2 n))) n []) as (D & -> & ?); [|lia|].
  - split; [done|]. rewrite Nat2Z.inj_succ, Z2Nat.id by apply Z.log2_nonneg.
    destruct (decide (n = 0%Z)) as [->|]; [done|]. apply Z.log2_spec. lia.
  - by rewrite app_nil_r.
Qed.

Lemma isdigit_not c d : isdigit c = true → isdigit d = false → c ≠ d.
Proof. intros Hc Hd ->. congruence. Qed.

Lemma to_string_no c n : (0 <= n)%Z → isdigit c = false → c ∉ chars (to_string n).
Proof.
  intros Hn Hc Hin. destruct (to_string_spec n Hn) as (HD & _).
  rewrite Forall_forall in HD. apply HD in Hin. congruence.
Qed.

(** ** Little-endian bytes of machine integers *)
Definition byte_of (z : Z) : ascii := ascii_of_N (Z.to_N (Z.land z 255)).
Definition byte_val (c : ascii) : Z := Z.of_N (N_of_ascii c).

Fixpoint le_bytes (k : nat) (z : Z) : list ascii :=
  match k with
  | O => []
  | S k' => byte_of z :: le_bytes k' (Z.shiftr z 8)
  end.

Fixpoint le_val (l : list ascii) : Z :=
  match l with
  | [] => 0
  | c :: l' => byte_val c + 256 * le_val l'
  end.

Lemma byte_val_range c : (0 <= byte_val c < 256)%Z.
Proof. unfold byte_val. pose proof (N_ascii_bounded c). lia. Qed.

Lemma byte_val_of z : byte_val (byte_of z) = (z mod 256)%Z.
Proof.
  unfold byte_val, byte_of. change 255%Z with (Z.ones 8). rewrite Z.land_ones by lia.
  pose proof (Z.mod_pos_bound z (2 ^ 8)). rewrite N_ascii_embedding by lia.
  by rewrite Z2N.id by lia.
Qed.

Lemma length_le_bytes k z : length (le_bytes k z) = k.
Proof. revert z. induction k as [|k IH]; intros z; simpl; [done|]. by rewrite IH. Qed.

Lemma le_val_le_bytes k z : (0 <= z < 2 ^ (8 * Z.of_nat k))%Z → le_val (le_bytes k z) = z.
Proof.
  revert z. induction k as [|k IH]; intros z Hz; simpl; [change (2 ^ (8 * Z.of_nat 0))%Z with 1%Z in Hz; lia|].
  rewrite byte_val_of, Z.shiftr_div_pow2 by lia. change (2 ^ 8)%Z with 256%Z.
  rewrite IH.
  - pose proof (Z.div_mod z 256). lia.
  - replace (8 * Z.of_nat (S k))%Z with (8 + 8 * Z.of_nat k)%Z in Hz by lia.
    rewrite Z.pow_add_r in Hz by lia. change (2 ^ 8)%Z with 256%Z in Hz.
    split; [apply Z.div_pos; lia|apply Z.div_lt_upper_bound; lia].
Qed.

(** ** Arrays of 64-bit words in memory *)
Definition word_bytes (ws : list Z) : list ascii := ws ≫= le_bytes 8.

(** The first [k] words. *)
Fixpoint read_words (k : nat) (l : list ascii) : list Z :=
  match k with
  | O => []
  | S k' => le_val (take 8 l) :: read_words k' (drop 8 l)
  end.

Lemma length_word_bytes ws : length (word_bytes ws) = 8 * length ws.
Proof.
  induction ws as [|w ws IH]; [done|]. unfold word_bytes in *.
  rewrite bind_cons, length_app, length_le_bytes, IH. simpl. lia.
Qed.

Lemma word_bytes_app ws ws' : word_bytes (ws ++ ws') = word_bytes ws ++ word_bytes ws'.
Proof. apply bind_app. Qed.

Lemma read_words_bytes ws rest :
  Forall (λ w, (0 <= w < 2 ^ 64)%Z) ws → read_words (length ws) (word_bytes ws ++ rest) = ws.
Proof.
  induction ws as [|w ws IH]; [done|]. intros [Hw Hws]%Forall_cons.
  unfold word_bytes in *. cbn [length read_words]. rewrite bind_cons, <- app_assoc.
  rewrite take_app_length' by (by rewrite length_le_bytes). rewrite drop_app_length' by (by rewrite length_le_bytes).
  rewrite IH by done. f_equal. by apply le_val_le_bytes.
Qed.
