(* ===== verification/BufferPool.v ===== *)
(** * The buffer pool (src/a17/utils/buffer_pool.h, buffer_pool.cpp)

    [BufferPool] keeps [bufferCount_] equally sized buffers in one block and a
    ring [ptrs_] of [bufferCount_ + 1] slots holding the free ones.  [malloc]
    takes from [head_], [free] puts back at [tail_].

    Pointers are addresses in [Z]; the [uint16_t] fields [head_], [tail_] and
    [bufferCount_] are naturals (a wellformed pool keeps them below [2^16]).
    The operating system's allocator is outside the program: [malloc] receives
    the address [::malloc] would return, [free] reports the address it hands to
    [::free]. *)

From S2P Require Import Prelude.

Module BufferPool.

Definition DEFAULT_POOL_BUFFER_COUNT : nat := 64.
Definition DEFAULT_POOL_BUFFER_SIZE : Z := 64 * 8.

Record t : Type := mk {
  pool_ : Z;
  poolEnd_ : Z;
  poolSize_ : Z;
  bufferSize_ : Z;
  bufferCount_ : nat;
  singleThreaded_ : bool;
  ptrs_ : list Z;
  head_ : nat;
  tail_ : nat
}.

Definition set_head (p : t) (h : nat) : t :=
  mk (pool_ p) (poolEnd_ p) (poolSize_ p) (bufferSize_ p) (bufferCount_ p)
     (singleThreaded_ p) (ptrs_ p) h (tail_ p).

Definition set_tail (p : t) (x : nat) : t :=
  mk (pool_ p) (poolEnd_ p) (poolSize_ p) (bufferSize_ p) (bufferCount_ p)
     (singleThreaded_ p) (ptrs_ p) (head_ p) x.

Definition set_ptrs (p : t) (l : list Z) : t :=
  mk (pool_ p) (poolEnd_ p) (poolSize_ p) (bufferSize_ p) (bufferCount_ p)
     (singleThreaded_ p) l (head_ p) (tail_ p).

(** The constructor; [base] is the address [::malloc(poolSize_)] returned. *)
Definition init (base bufferSize : Z) (bufferCount : nat) (singleThreaded : bool) : t :=
  let poolSize := u64 (Z.of_nat bufferCount * bufferSize) in
  mk base (base + poolSize) poolSize bufferSize bufferCount singleThreaded
     (((λ i, base + u64 (Z.of_nat i * bufferSize))%Z <$> seq 0 bufferCount) ++ [0%Z])
     0 bufferCount.

Definition next (p : t) (pos : nat) : nat := (pos + 1) mod (bufferCount_ p + 1).

Definition empty (p : t) : bool := bool_decide (head_ p = tail_ p).
Definition full (p : t) : bool := bool_decide (next p (tail_ p) = head_ p).

(** [uint16_t remaining() const]: [int] arithmetic, then truncation. *)
Definition remaining (p : t) : Z :=
  let h := Z.of_nat (head_ p) in
  let x := Z.of_nat (tail_ p) in
  u16 (if (h <? x)%Z then (x - h)%Z else (Z.of_nat (bufferCount_ p) - (h - x) + 1)%Z).

(** [void *malloc()]; [sys] is what [::malloc(bufferSize_)] returns. *)
Definition malloc (p : t) (sys : Z) : outcome (t * Z) :=
  if decide (head_ p = tail_ p) then Ret (p, sys)
  else
    match ptrs_ p !! head_ p with
    | None => Undef
    | Some ptr => Ret (set_head p (next p (head_ p)), ptr)
    end.

(** Memory as a byte per address, for the zeroing of [calloc]. *)
Definition memset (m : Z → Z) (ptr v n : Z) : Z → Z :=
  λ a, if (ptr <=? a)%Z && (a <? ptr + n)%Z then v else m a.

Definition calloc (p : t) (sys : Z) (m : Z → Z) : outcome (t * Z * (Z → Z)) :=
  '(p', ptr) ← malloc p sys;
  Ret (p', ptr, if (ptr =? 0)%Z then m else memset m ptr 0 (bufferSize_ p')).

(** [void free(void *ptr)]: the second component is the address handed to
    [::free], if any. *)
Definition free (p : t) (ptr : Z) : outcome (t * option Z) :=
  if (ptr <? pool_ p)%Z || (poolEnd_ p <=? ptr)%Z then Ret (p, Some ptr)
  else
    if decide (tail_ p < length (ptrs_ p))
    then Ret (set_tail (set_ptrs p (<[tail_ p := ptr]> (ptrs_ p))) (next p (tail_ p)), None)
    else Undef.

(** [static void zmqFree(void *ptr, void *hint)]: [hint] is the pool. *)
Definition zmqFree (ptr : Z) (hint : t) : outcome (t * option Z) := free hint ptr.

(** [~BufferPool()]: the address handed to [::free], if any. *)
Definition destroy (p : t) : option Z :=
  if (pool_ p =? 0)%Z then None else Some (pool_ p).

(** ** The ring as a queue of free buffers *)

Definition ring_len (p : t) : nat :=
  if decide (head_ p <= tail_ p) then tail_ p - head_ p
  else bufferCount_ p + 1 - head_ p + tail_ p.

Definition free_list (p : t) : list Z :=
  (λ i, ptrs_ p !!! ((head_ p + i) mod (bufferCount_ p + 1))) <$> seq 0 (ring_len p).

(** Every buffer of the block. *)
Definition buffers (p : t) : list Z :=
  (λ i, pool_ p + Z.of_nat i * bufferSize_ p)%Z <$> seq 0 (bufferCount_ p).

(** The shape of the ring. *)
Definition ring_ok (p : t) : Prop :=
  length (ptrs_ p) = bufferCount_ p + 1 ∧
  head_ p <= bufferCount_ p ∧ tail_ p <= bufferCount_ p ∧ (Z.of_nat (bufferCount_ p) < 2 ^ 16)%Z.

(** The block: non-empty buffers, no wrap-around of addresses. *)
Definition block_ok (p : t) : Prop :=
  (0 < bufferSize_ p)%Z ∧ (0 < pool_ p)%Z ∧
  (poolSize_ p = Z.of_nat (bufferCount_ p) * bufferSize_ p)%Z ∧
  (poolEnd_ p = pool_ p + poolSize_ p)%Z.

(** [out] are the pool's buffers currently in the hands of clients. *)
Definition wf (p : t) (out : list Z) : Prop :=
  ring_ok p ∧ block_ok p ∧ free_list p ++ out ≡ₚ buffers p.

(** ** Ring arithmetic *)

Lemma wrap_mod a b n :
  a < n → b <= n → (a + b) mod n = if decide (a + b < n) then a + b else a + b - n.
Proof.
  intros Ha Hb. case_decide as H.
  - by apply Nat.mod_small.
  - replace (a + b) with ((a + b - n) + 1 * n) at 1 by lia.
    rewrite Nat.Div0.mod_add. apply Nat.mod_small. lia.
Qed.

Lemma next_spec p pos :
  pos <= bufferCount_ p →
  next p pos = if decide (pos = bufferCount_ p) then 0 else pos + 1.
Proof. intros H. unfold next. rewrite wrap_mod by lia. repeat case_decide; lia. Qed.

Lemma length_free_list p : length (free_list p) = ring_len p.
Proof. unfold free_list. by rewrite length_fmap, length_seq. Qed.

Lemma free_list_lookup p i :
  i < ring_len p →
  free_list p !! i = Some (ptrs_ p !!! ((head_ p + i) mod (bufferCount_ p + 1))).
Proof.
  intros H. unfold free_list. rewrite list_lookup_fmap, lookup_seq_lt by done. done.
Qed.

Lemma ring_len_bound p : ring_ok p → ring_len p <= bufferCount_ p.
Proof. intros (_ & ? & ? & _). unfold ring_len. case_decide; lia. Qed.

Lemma empty_ring_len p : ring_ok p → ring_len p = 0 ↔ head_ p = tail_ p.
Proof. intros (_ & ? & ? & _). unfold ring_len. case_decide; lia. Qed.

Ltac ring_arith :=
  unfold ring_len in *; rewrite ?next_spec, ?wrap_mod by lia;
  repeat case_decide; lia.

(** Dequeue and enqueue on the queue view. *)
Lemma malloc_dequeue p x q sys :
  ring_ok p → free_list p = x :: q →
  ∃ p', malloc p sys = Ret (p', x) ∧ free_list p' = q ∧ ring_ok p' ∧
        p' = set_head p (next p (head_ p)).
Proof.
  intros Hok Hfl. pose proof (length_free_list p) as Hlen.
  rewrite Hfl in Hlen. simpl in Hlen. pose proof Hok as (Hl & Hh & Ht & Hc).
  assert (head_ p ≠ tail_ p) as Hne by (rewrite <- empty_ring_len by done; lia).
  unfold malloc. rewrite decide_False by done.
  destruct (lookup_lt_is_Some_2 (ptrs_ p) (head_ p)) as [y Hy]; [lia|].
  rewrite Hy. exists (set_head p (next p (head_ p))).
  assert (y = x) as ->.
  { pose proof (free_list_lookup p 0) as H0. rewrite Hfl in H0.
    specialize (H0 ltac:(lia)). simpl in H0. injection H0 as ->.
    rewrite Nat.add_0_r, Nat.mod_small by lia.
    by rewrite (list_lookup_total_correct _ _ _ Hy). }
  split_and!; [done| |unfold ring_ok; simpl; rewrite next_spec by lia; case_decide; lia|done].
  apply list_eq. intros i.
  assert (ring_len (set_head p (next p (head_ p))) = length q) as Hlen'.
  { unfold ring_len in Hlen |- *. simpl. rewrite next_spec by lia.
    revert Hlen. repeat case_decide; lia. }
  destruct (decide (i < length q)) as [Hi|Hi].
  - rewrite free_list_lookup by lia.
    change (q !! i) with ((x :: q) !! S i). rewrite <- Hfl.
    rewrite free_list_lookup by lia. simpl. do 2 f_equal.
    rewrite next_spec by lia. pose proof (ring_len_bound p Hok).
    rewrite !wrap_mod by (repeat case_decide; lia). repeat case_decide; lia.
  - rewrite !lookup_ge_None_2; [done|lia|rewrite length_free_list; lia].
Qed.

Lemma malloc_empty p sys :
  ring_ok p → free_list p = [] → malloc p sys = Ret (p, sys).
Proof.
  intros Hok Hfl. unfold malloc. rewrite decide_True; [done|].
  apply empty_ring_len; [done|]. by rewrite <- length_free_list, Hfl.
Qed.

Definition enqueue (p : t) (x : Z) : t :=
  set_tail (set_ptrs p (<[tail_ p := x]> (ptrs_ p))) (next p (tail_ p)).

Lemma enqueue_ring_ok p x : ring_ok p → ring_ok (enqueue p x).
Proof.
  intros (Hl & Hh & Ht & Hc). unfold ring_ok, enqueue. simpl.
  rewrite length_insert, next_spec by lia. case_decide; lia.
Qed.

Lemma enqueue_free_list p x :
  ring_ok p → ring_len p < bufferCount_ p →
  free_list (enqueue p x) = free_list p ++ [x].
Proof.
  intros Hok Hlt. pose proof Hok as (Hl & Hh & Ht & Hc).
  assert (ring_len (enqueue p x) = S (ring_len p)) as Hlen'.
  { revert Hlt. unfold ring_len, enqueue. simpl. rewrite next_spec by lia.
    repeat case_decide; lia. }
  apply list_eq. intros i. destruct (decide (i < S (ring_len p))) as [Hi|Hi].
  2:{ rewrite !lookup_ge_None_2; [done| |];
      rewrite ?length_app, length_free_list; simpl; lia. }
  rewrite free_list_lookup by lia. unfold enqueue. simpl.
  destruct (decide (i = ring_len p)) as [->|Hne].
  - rewrite lookup_app_r by (rewrite length_free_list; lia).
    rewrite length_free_list, Nat.sub_diag. simpl. f_equal.
    replace ((head_ p + ring_len p) mod (bufferCount_ p + 1)) with (tail_ p).
    { apply list_lookup_total_insert_eq. lia. }
    rewrite wrap_mod by lia. revert Hlt. unfold ring_len. repeat case_decide; lia.
  - rewrite lookup_app_l by (rewrite length_free_list; lia).
    rewrite free_list_lookup by lia. f_equal.
    apply list_lookup_total_insert_ne. rewrite wrap_mod by lia.
    revert Hlt Hi Hne. unfold ring_len. repeat case_decide; lia.
Qed.

(** ** The block *)

Lemma u64_small z : (0 <= z < 2 ^ 64)%Z → u64 z = z.
Proof. intros H. unfold u64. by apply Z.mod_small. Qed.

Lemma elem_of_buffers p x :
  x ∈ buffers p ↔
  ∃ i, i < bufferCount_ p ∧ x = (pool_ p + Z.of_nat i * bufferSize_ p)%Z.
Proof.
  unfold buffers. rewrite list_elem_of_fmap. setoid_rewrite elem_of_seq.
  split; intros (i & ? & ?); exists i; split; try done; lia.
Qed.

Lemma buffers_in_block p x :
  block_ok p → x ∈ buffers p → (pool_ p <= x < poolEnd_ p)%Z.
Proof.
  intros (? & ? & Hs & He) (i & ? & ->)%elem_of_buffers. rewrite He, Hs. nia.
Qed.

Lemma NoDup_buffers p : block_ok p → NoDup (buffers p).
Proof.
  intros (? & _). unfold buffers. apply NoDup_fmap_2; [|apply NoDup_seq].
  intros i j. nia.
Qed.

Lemma init_free_list base size count single :
  (0 < size)%Z → (Z.of_nat count * size < 2 ^ 64)%Z →
  free_list (init base size count single) = buffers (init base size count single).
Proof.
  intros Hs Hw. unfold free_list, buffers.
  replace (ring_len _) with count by (unfold ring_len; cbn -[decide]; case_decide; lia).
  apply list_fmap_ext. intros i x [-> Hi]%lookup_seq. simpl in *.
  rewrite Nat.mod_small by lia. apply list_lookup_total_correct.
  rewrite lookup_app_l by (rewrite length_fmap, length_seq; lia).
  rewrite list_lookup_fmap, lookup_seq_lt by lia. simpl.
  rewrite u64_small by nia. done.
Qed.

Lemma init_wf base size count single :
  (0 < base)%Z → (0 < size)%Z → (Z.of_nat count < 2 ^ 16)%Z →
  (Z.of_nat count * size < 2 ^ 64)%Z →
  wf (init base size count single) [].
Proof.
  intros Hb Hs Hc Hw. split_and!.
  - unfold ring_ok. simpl. rewrite length_app, length_fmap, length_seq. simpl. lia.
  - unfold block_ok. simpl. rewrite u64_small by nia. lia.
  - by rewrite init_free_list, app_nil_r.
Qed.

Lemma wf_NoDup p out : wf p out → NoDup (free_list p ++ out).
Proof. intros (_ & Hb & ->). by apply NoDup_buffers. Qed.

Lemma wf_ring_len p out : wf p out → ring_len p + length out = bufferCount_ p.
Proof.
  intros (_ & _ & HP). apply Permutation_length in HP. revert HP.
  unfold buffers. rewrite length_app, length_free_list, length_fmap, length_seq. lia.
Qed.

Lemma wf_enqueue p x out : wf p (x :: out) → wf (enqueue p x) out.
Proof.
  intros Hwf. pose proof (wf_ring_len _ _ Hwf) as Hlen. simpl in Hlen.
  destruct Hwf as (Hr & Hb & HP). split_and!; [by apply enqueue_ring_ok|done|].
  rewrite enqueue_free_list by (done || lia). rewrite <- app_assoc. exact HP.
Qed.

Lemma free_enqueue p x out :
  wf p (x :: out) → free p x = Ret (enqueue p x, None).
Proof.
  intros Hwf. pose proof Hwf as ((? & ? & ? & _) & Hb & HP).
  assert (x ∈ buffers p) as Hx by (rewrite <- HP; set_solver).
  apply buffers_in_block in Hx; [|done]. unfold free.
  destruct (Z.ltb_spec x (pool_ p)), (Z.leb_spec (poolEnd_ p) x); try lia. simpl.
  by rewrite decide_True by lia.
Qed.

Lemma free_foreign p x :
  (x < pool_ p ∨ poolEnd_ p <= x)%Z → free p x = Ret (p, Some x).
Proof.
  intros H. unfold free.
  destruct (Z.ltb_spec x (pool_ p)), (Z.leb_spec (poolEnd_ p) x); naive_solver lia.
Qed.

Lemma filter_ne_perm (x : Z) (l : list Z) :
  NoDup l → x ∈ l → l ≡ₚ x :: filter (λ y, y ≠ x) l.
Proof.
  intros Hnd Hx. apply NoDup_Permutation; [done| |].
  - apply NoDup_cons. split; [|by apply NoDup_filter].
    rewrite list_elem_of_filter. naive_solver.
  - intros y. rewrite elem_of_cons, list_elem_of_filter.
    destruct (decide (y = x)); naive_solver.
Qed.

(** ** What clients of the pool rely on *)

(** An address in the block [lo, hi). *)
Definition in_range (lo hi x : Z) : Prop := (lo <= x < hi)%Z.

Global Instance in_range_dec lo hi x : Decision (in_range lo hi x).
Proof. unfold in_range. apply _. Defined.

Lemma wf_perm p l l' : wf p l → l ≡ₚ l' → wf p l'.
Proof. intros (Hr & Hb & HP) Hl. split_and!; [done..|]. by rewrite <- Hl. Qed.

(** Taking a buffer: from the pool, or from the system when none is left. *)
Lemma malloc_wf lo hi p out sys :
  wf p out → pool_ p = lo → poolEnd_ p = hi → ¬ in_range lo hi sys →
  ∃ p' x, malloc p sys = Ret (p', x) ∧
    pool_ p' = lo ∧ poolEnd_ p' = hi ∧
    bufferSize_ p' = bufferSize_ p ∧
    wf p' (filter (in_range lo hi) [x] ++ out) ∧ (¬ in_range lo hi x → x = sys ∧ p' = p).
Proof.
  intros Hwf Hlo Hhi Hsys. pose proof Hwf as (Hr & Hb & HP).
  destruct (free_list p) as [|x q] eqn:Hfl.
  - exists p, sys. rewrite malloc_empty by done.
    rewrite filter_cons_False, filter_nil by done. split_and!; done.
  - destruct (malloc_dequeue p x q sys Hr Hfl) as (p' & Hm & Hq & Hr' & Hp').
    assert (in_range lo hi x) as Hx.
    { unfold in_range. rewrite <- Hlo, <- Hhi. apply buffers_in_block; [done|].
      rewrite <- HP. set_solver. }
    exists p', x. rewrite filter_cons_True, filter_nil by done.
    subst p'. split_and!; try done. split_and!; [done|done|].
    rewrite Hq. simpl. change (buffers (set_head p _)) with (buffers p).
    rewrite <- HP. simpl. by rewrite Permutation_middle.
Qed.

(** Giving a buffer back: to the pool, or to the system when it is not the pool's. *)
Lemma free_wf lo hi p x out :
  wf p (filter (in_range lo hi) [x] ++ out) → pool_ p = lo → poolEnd_ p = hi →
  ∃ p', free p x = Ret (p', if decide (in_range lo hi x) then None else Some x) ∧
        wf p' out ∧ pool_ p' = lo ∧ poolEnd_ p' = hi ∧ bufferSize_ p' = bufferSize_ p.
Proof.
  intros Hwf Hlo Hhi. destruct (decide (in_range lo hi x)) as [Hx|Hx].
  - rewrite filter_cons_True in Hwf by done. exists (enqueue p x).
    rewrite (free_enqueue _ _ _ Hwf). apply wf_enqueue in Hwf. done.
  - rewrite filter_cons_False in Hwf by done. exists p. rewrite free_foreign; [done|].
    unfold in_range in Hx. lia.
Qed.

(** ** Refinement: the pool is a FIFO queue of buffers with a system fallback *)

Inductive op : Type :=
  | OMalloc (sys : Z)
  | OFree (ptr : Z).

(** Running a sequence of calls; the pointers returned by [malloc], in order. *)
Fixpoint run (p : t) (ops : list op) : outcome (t * list Z) :=
  match ops with
  | [] => Ret (p, [])
  | OMalloc sys :: ops' =>
      '(p', ptr) ← malloc p sys; '(p'', rs) ← run p' ops'; Ret (p'', ptr :: rs)
  | OFree ptr :: ops' =>
      '(p', _) ← free p ptr; run p' ops'
  end.

(** The specification: a queue [q] of free buffers and the buffers [out] in use.
    Freeing a buffer that is not in use is a client error ([None]); a pointer
    outside the block goes to the system. *)
Fixpoint spec_run (lo hi : Z) (q out : list Z) (ops : list op)
    : option (list Z * list Z * list Z) :=
  match ops with
  | [] => Some (q, out, [])
  | OMalloc sys :: ops' =>
      match q with
      | [] => '(st, rs) ← spec_run lo hi [] out ops'; Some (st, sys :: rs)
      | x :: q' => '(st, rs) ← spec_run lo hi q' (x :: out) ops'; Some (st, x :: rs)
      end
  | OFree ptr :: ops' =>
      if decide (ptr ∈ out)
      then spec_run lo hi (q ++ [ptr]) (filter (λ y, y ≠ ptr) out) ops'
      else if decide (ptr < lo ∨ hi <= ptr)%Z then spec_run lo hi q out ops'
      else None
  end.

Lemma run_refines p out ops q' out' rs :
  wf p out →
  spec_run (pool_ p) (poolEnd_ p) (free_list p) out ops = Some (q', out', rs) →
  ∃ p', run p ops = Ret (p', rs) ∧ free_list p' = q' ∧ wf p' out'.
Proof.
  revert p out q' out' rs. induction ops as [|[sys|ptr] ops IH]; intros p out q' out' rs Hwf Hs.
  - simpl in *. simplify_eq. eauto.
  - simpl in Hs |- *. pose proof Hwf as (Hr & Hb & HP).
    destruct (free_list p) as [|x q] eqn:Hfl.
    + destruct (spec_run _ _ [] out ops) as [[[q1 out1] rs1]|] eqn:E; simplify_eq/=.
      rewrite malloc_empty by done. simpl. rewrite <- Hfl in E.
      destruct (IH _ _ _ _ _ Hwf E) as (p' & -> & ? & ?). simpl. eauto.
    + destruct (spec_run _ _ q (x :: out) ops) as [[[q1 out1] rs1]|] eqn:E; simplify_eq/=.
      destruct (malloc_dequeue p x q sys Hr Hfl) as (p' & -> & Hfl' & Hr' & ->).
      simpl. rewrite <- Hfl' in E. edestruct IH as (p'' & -> & ? & ?); [|exact E|].
      { split_and!; [done|done|]. rewrite Hfl'. etrans; [|exact HP].
        by rewrite <- Permutation_middle. }
      simpl. eauto.
  - simpl in Hs |- *. case_decide as Hin.
    + pose proof (wf_NoDup _ _ Hwf) as (_ & _ & Hnd)%NoDup_app.
      assert (wf p (ptr :: filter (λ y, y ≠ ptr) out)) as Hwf'.
      { destruct Hwf as (? & ? & HP). split_and!; [done..|].
        by rewrite <- filter_ne_perm. }
      rewrite (free_enqueue _ _ _ Hwf'). simpl.
      eapply (IH (enqueue p ptr)); [by apply wf_enqueue|].
      rewrite enqueue_free_list; [done|apply Hwf|].
      apply wf_ring_len in Hwf'. simpl in Hwf'. lia.
    + case_decide as Hf; [|done]. rewrite free_foreign by done. simpl. eauto.
Qed.

(** ** Threads: one consumer calls [malloc], many producers call [free]

    The steps are the shared-memory accesses of the two functions (the mutex
    [tailMutex_] is only taken by [free], and not by a single-threaded pool),
    interleaved sequentially consistently.  That is an assumption about the compiler and the
    machine: [malloc] reads [tail_] without the mutex under which [free] writes it
    ([tail_read_races]), which the C++ standard calls a data race and leaves undefined. *)

Inductive consumer_pc : Type :=
  | CIdle
  | CChecked                (* head_ == tail_ was false *)
  | CRead (ptr : Z).        (* ptr = ptrs_[head_] *)

Inductive producer_pc : Type :=
  | PIdle
  | PWant (ptr : Z)         (* free(ptr) called, before lock() *)
  | PLocked (ptr : Z)       (* after lock() *)
  | PWritten (ptr : Z)      (* after ptrs_[tail_] = ptr *)
  | PAdvanced.              (* after tail_ = next(tail_), before unlock() *)

Record conc : Type := Conc {
  cpool : t;
  consumer : consumer_pc;
  producers : list producer_pc;
  mutex : option nat;
  in_use : list Z
}.

Definition owned (pc : producer_pc) : option Z :=
  match pc with
  | PIdle | PAdvanced => None
  | PWant x | PLocked x | PWritten x => Some x
  end.

Definition held (c : conc) : list Z := omap owned (producers c).

Inductive cstep : conc → conc → Prop :=
  | malloc_sys p ps m u :
      head_ p = tail_ p →
      cstep (Conc p CIdle ps m u) (Conc p CIdle ps m u)
  | malloc_check p ps m u :
      head_ p ≠ tail_ p →
      cstep (Conc p CIdle ps m u) (Conc p CChecked ps m u)
  | malloc_read p ps m u x :
      ptrs_ p !! head_ p = Some x →
      cstep (Conc p CChecked ps m u) (Conc p (CRead x) ps m u)
  | malloc_advance p ps m u x :
      cstep (Conc p (CRead x) ps m u)
            (Conc (set_head p (next p (head_ p))) CIdle ps m (x :: u))
  | free_call p c ps m u i x :
      ps !! i = Some PIdle → x ∈ u →
      cstep (Conc p c ps m u)
            (Conc p c (<[i := PWant x]> ps) m (filter (λ y, y ≠ x) u))
  | free_lock p c ps u i x :
      ps !! i = Some (PWant x) → singleThreaded_ p = false →
      cstep (Conc p c ps None u) (Conc p c (<[i := PLocked x]> ps) (Some i) u)
  | free_no_lock p c ps m u i x :
      ps !! i = Some (PWant x) → singleThreaded_ p = true →
      cstep (Conc p c ps m u) (Conc p c (<[i := PLocked x]> ps) m u)
  | free_write p c ps m u i x :
      ps !! i = Some (PLocked x) →
      cstep (Conc p c ps m u)
            (Conc (set_ptrs p (<[tail_ p := x]> (ptrs_ p))) c
                  (<[i := PWritten x]> ps) m u)
  | free_advance p c ps m u i x :
      ps !! i = Some (PWritten x) →
      cstep (Conc p c ps m u)
            (Conc (set_tail p (next p (tail_ p))) c (<[i := PAdvanced]> ps) m u)
  | free_unlock p c ps m u i :
      ps !! i = Some PAdvanced →
      cstep (Conc p c ps m u)
            (Conc p c (<[i := PIdle]> ps) (if singleThreaded_ p then m else None) u).

Definition consumer_ok (c : conc) : Prop :=
  match consumer c with
  | CIdle => True
  | CChecked => head_ (cpool c) ≠ tail_ (cpool c)
  | CRead x =>
      head_ (cpool c) ≠ tail_ (cpool c) ∧ ptrs_ (cpool c) !! head_ (cpool c) = Some x
  end.

Definition producer_ok (c : conc) (i : nat) (pc : producer_pc) : Prop :=
  match pc with
  | PIdle | PWant _ => True
  | PLocked _ | PAdvanced => mutex c = Some i
  | PWritten x => mutex c = Some i ∧ ptrs_ (cpool c) !! tail_ (cpool c) = Some x
  end.

Definition conc_inv (c : conc) : Prop :=
  singleThreaded_ (cpool c) = false ∧ wf (cpool c) (in_use c ++ held c) ∧ consumer_ok c ∧
  ∀ i pc, producers c !! i = Some pc → producer_ok c i pc.

Definition conc_init (p : t) (n : nat) : conc :=
  Conc p CIdle (replicate n PIdle) None [].

Lemma held_insert ps i a b :
  ps !! i = Some a →
  option_list (owned a) ++ omap owned (<[i := b]> ps) ≡ₚ
  option_list (owned b) ++ omap owned ps.
Proof.
  intros Hi. pose proof (lookup_lt_Some _ _ _ Hi) as Hlt.
  rewrite <- (take_drop_middle ps i a Hi) at 2.
  rewrite insert_take_drop by done.
  assert (∀ pc l, omap owned (pc :: l) = option_list (owned pc) ++ omap owned l) as Hc.
  { intros [] l; done. }
  rewrite !omap_app, !Hc. solve_Permutation.
Qed.

(** Writing the slot at [tail_] does not touch the queue. *)
Lemma write_tail_free_list p x :
  ring_ok p → free_list (set_ptrs p (<[tail_ p := x]> (ptrs_ p))) = free_list p.
Proof.
  intros Hok. pose proof Hok as (Hl & Hh & Ht & Hc).
  apply list_fmap_ext. intros k i [-> Hk]%lookup_seq. simpl.
  pose proof (ring_len_bound p Hok) as Hb.
  apply list_lookup_total_insert_ne. unfold ring_len in *. simpl in Hk.
  rewrite wrap_mod by lia. revert Hk Hb. repeat case_decide; lia.
Qed.

Lemma malloc_advance_inv p ps m u x :
  conc_inv (Conc p (CRead x) ps m u) →
  conc_inv (Conc (set_head p (next p (head_ p))) CIdle ps m (x :: u)).
Proof.
  intros (Hst & (Hr & Hb & HP) & (Hne & Hx) & Hps). simpl in *.
  destruct (free_list p) as [|y q] eqn:Hfl.
  { exfalso. apply Hne, empty_ring_len; [done|]. by rewrite <- length_free_list, Hfl. }
  destruct (malloc_dequeue p y q 0 Hr Hfl) as (p' & Hm & Hfl' & Hr' & ->).
  unfold malloc in Hm. rewrite decide_False, Hx in Hm by done. injection Hm as <-.
  split_and!; [done| |done|exact Hps]. split_and!; [done|done|]. simpl.
  rewrite Hfl'. etrans; [|exact HP]. simpl. solve_Permutation.
Qed.

Lemma free_call_inv p c ps m u i x :
  ps !! i = Some PIdle → x ∈ u →
  conc_inv (Conc p c ps m u) →
  conc_inv (Conc p c (<[i := PWant x]> ps) m (filter (λ y, y ≠ x) u)).
Proof.
  intros Hi Hx (Hst & Hwf & Hc & Hps). pose proof (wf_NoDup _ _ Hwf) as Hnd. simpl in *.
  split_and!; [exact Hst| |exact Hc|].
  - destruct Hwf as (Hr & Hb & HP). split_and!; [done..|]. etrans; [|exact HP].
    simpl. f_equiv. pose proof (held_insert ps i _ (PWant x) Hi) as Hh. simpl in Hh.
    unfold held. simpl. rewrite Hh.
    rewrite (filter_ne_perm x u) at 2; [solve_Permutation| |done].
    rewrite !NoDup_app in Hnd. tauto.
  - intros j pc Hj. apply list_lookup_insert_Some in Hj as [(-> & <- & _)|[? Hj]]; [done|].
    apply (Hps _ _ Hj).
Qed.

Lemma free_lock_inv p c ps u i x :
  ps !! i = Some (PWant x) →
  conc_inv (Conc p c ps None u) →
  conc_inv (Conc p c (<[i := PLocked x]> ps) (Some i) u).
Proof.
  intros Hi (Hst & Hwf & Hc & Hps). split_and!; [exact Hst| |exact Hc|].
  - destruct Hwf as (Hr & Hb & HP). split_and!; [done..|]. etrans; [|exact HP].
    pose proof (held_insert ps i _ (PLocked x) Hi) as Hh. simpl in Hh.
    apply Permutation_cons_inv in Hh. unfold held. simpl. by rewrite Hh.
  - intros j pc Hj. apply list_lookup_insert_Some in Hj as [(-> & <- & _)|[? Hj]]; [done|].
    apply Hps in Hj. destruct pc; simpl in *; naive_solver.
Qed.

Lemma free_write_inv p c ps m u i x :
  ps !! i = Some (PLocked x) →
  conc_inv (Conc p c ps m u) →
  conc_inv (Conc (set_ptrs p (<[tail_ p := x]> (ptrs_ p))) c (<[i := PWritten x]> ps) m u).
Proof.
  intros Hi (Hst & (Hr & Hb & HP) & Hc & Hps). pose proof Hr as (Hl & Hh & Ht & Hcnt).
  simpl in *. pose proof (Hps _ _ Hi) as Hm. simpl in Hm. subst m.
  split_and!; [done|..].
  - split_and!; [|done|].
    { unfold ring_ok. simpl. by rewrite length_insert. }
    simpl. rewrite write_tail_free_list by done. etrans; [|exact HP].
    pose proof (held_insert ps i _ (PWritten x) Hi) as Hp. simpl in Hp.
    apply Permutation_cons_inv in Hp. unfold held. simpl. by rewrite Hp.
  - unfold consumer_ok in *. destruct c; simpl in *; [done|done|]. destruct Hc as [Hne Hx]. split; [done|].
    by rewrite list_lookup_insert_ne by done.
  - intros j pc Hj. apply list_lookup_insert_Some in Hj as [(-> & <- & _)|[? Hj]].
    { simpl. split; [done|]. apply list_lookup_insert_eq. lia. }
    apply Hps in Hj. destruct pc; simpl in *; naive_solver.
Qed.

Lemma free_advance_inv p c ps m u i x :
  ps !! i = Some (PWritten x) →
  conc_inv (Conc p c ps m u) →
  conc_inv (Conc (set_tail p (next p (tail_ p))) c (<[i := PAdvanced]> ps) m u).
Proof.
  intros Hi (Hst & Hwf & Hc & Hps). destruct (Hps _ _ Hi) as [Hm Hx]. simpl in *. subst m.
  assert (set_tail p (next p (tail_ p)) = enqueue p x) as ->.
  { unfold enqueue. rewrite list_insert_id by done. by destruct p. }
  pose proof (held_insert ps i _ PAdvanced Hi) as Hh. simpl in Hh.
  split_and!; [done|..].
  - apply wf_enqueue. simpl. destruct Hwf as (Hr & Hb & HP). split_and!; [done..|].
    etrans; [|exact HP]. simpl. unfold held. simpl. rewrite <- Hh. solve_Permutation.
  - assert (head_ p ≠ next p (tail_ p)) as Hne.
    { pose proof (wf_ring_len _ _ Hwf) as Hlen. pose proof Hwf as ((? & ? & ? & _) & _).
      simpl in *. unfold held in Hlen. simpl in Hlen. revert Hlen. rewrite <- Hh.
      rewrite length_app. simpl. rewrite next_spec by lia. unfold ring_len.
      repeat case_decide; lia. }
    unfold consumer_ok in *. destruct c; simpl in *; [done|done|]. destruct Hc as [? Hr]. split; [done|].
    by rewrite list_insert_id.
  - intros j pc Hj. apply list_lookup_insert_Some in Hj as [(-> & <- & _)|[? Hj]]; [done|].
    apply Hps in Hj. destruct pc; simpl in *; naive_solver.
Qed.

Lemma free_unlock_inv p c ps m u i :
  ps !! i = Some PAdvanced →
  conc_inv (Conc p c ps m u) →
  conc_inv (Conc p c (<[i := PIdle]> ps) (if singleThreaded_ p then m else None) u).
Proof.
  intros Hi (Hst & Hwf & Hc & Hps). pose proof (Hps _ _ Hi) as Hm. simpl in *. subst m. rewrite Hst.
  split_and!; [done| |exact Hc|].
  - destruct Hwf as (Hr & Hb & HP). split_and!; [done..|]. etrans; [|exact HP].
    pose proof (held_insert ps i _ PIdle Hi) as Hh. simpl in Hh. unfold held. simpl. by rewrite Hh.
  - intros j pc Hj. apply list_lookup_insert_Some in Hj as [(-> & <- & _)|[? Hj]]; [done|].
    apply Hps in Hj. destruct pc; simpl in *; naive_solver.
Qed.

Lemma cstep_inv c c' : cstep c c' → conc_inv c → conc_inv c'.
Proof.
  destruct 1; intros Hinv.
  - done.
  - destruct Hinv as (? & ? & _ & ?). done.
  - destruct Hinv as (? & ? & Hc & ?). split_and!; [done|done|split; [exact Hc|done]|done].
  - by apply malloc_advance_inv.
  - by apply free_call_inv.
  - by apply free_lock_inv.
  - destruct Hinv as [Hst _]. simpl in Hst. congruence.
  - by apply free_write_inv.
  - by eapply free_advance_inv.
  - by apply free_unlock_inv.
Qed.

Lemma conc_init_inv base size count n :
  (0 < base)%Z → (0 < size)%Z → (Z.of_nat count < 2 ^ 16)%Z →
  (Z.of_nat count * size < 2 ^ 64)%Z →
  conc_inv (conc_init (init base size count false) n).
Proof.
  intros. split_and!; [done| |done|].
  - assert (held (conc_init (init base size count false) n) = []) as ->.
    { unfold held. simpl. induction n; [done|]. simpl. done. }
    by apply init_wf.
  - simpl. by intros i pc [-> _]%lookup_replicate.
Qed.

(** The slot about to be returned by [malloc] is the front of the queue. *)
Lemma read_is_front p x :
  ring_ok p → head_ p ≠ tail_ p → ptrs_ p !! head_ p = Some x →
  ∃ q, free_list p = x :: q.
Proof.
  intros Hr Hne Hx. destruct (free_list p) as [|y q] eqn:Hfl.
  { exfalso. apply Hne, empty_ring_len; [done|]. by rewrite <- length_free_list, Hfl. }
  destruct (malloc_dequeue p y q 0 Hr Hfl) as (p' & Hm & _).
  unfold malloc in Hm. rewrite decide_False, Hx in Hm by done. injection Hm as _ <-. eauto.
Qed.

(** ** Properties *)

(** C8. The ring refines a FIFO queue: from a fresh pool, any sequence of
    [malloc] and [free] calls in which clients free only buffers they hold (or
    foreign pointers) runs without undefined behaviour, [malloc] returns exactly
    the pointers the queue specification returns (oldest freed buffer first, the
    system allocator once the pool is exhausted), and the ring holds exactly the
    specified free buffers, so that no buffer is lost or handed out twice. *)
Theorem pool_refines_queue base size count single ops q' out' rs :
  (0 < base)%Z → (0 < size)%Z → (Z.of_nat count < 2 ^ 16)%Z →
  (Z.of_nat count * size < 2 ^ 64)%Z →
  let p := init base size count single in
  spec_run (pool_ p) (poolEnd_ p) (buffers p) [] ops = Some (q', out', rs) →
  ∃ p', run p ops = Ret (p', rs) ∧ free_list p' = q' ∧ wf p' out'.
Proof.
  intros Hb Hs Hc Hw p Hspec. unfold p in *.
  rewrite <- init_free_list in Hspec by done.
  eapply run_refines; [|exact Hspec]. by apply init_wf.
Qed.

Lemma pool_refines_queue_witness :
  ∃ p', run (init 4096 64 2 false)
            [OMalloc 9; OMalloc 9; OMalloc 9; OFree 9; OFree 4160; OFree 4096; OMalloc 9]
        = Ret (p', [4096; 4160; 9; 4160]%Z) ∧ free_list p' = [4096%Z] ∧ wf p' [4160%Z].
Proof. apply pool_refines_queue; [lia|lia|lia|lia|vm_compute; reflexivity]. Defined.

(** C11. Thread safety of the pool: under every interleaving of the memory
    accesses (sequentially consistent, see above) of one [malloc]ing thread and any number of [free]ing threads of a
    pool that is not constructed as single-threaded, no buffer is in use or in the hands of a freeing thread twice, and the pointer
    [malloc] has read and is about to return is a buffer of the pool that nobody
    else owns. *)
Theorem conc_exclusive base size count n c :
  (0 < base)%Z → (0 < size)%Z → (Z.of_nat count < 2 ^ 16)%Z →
  (Z.of_nat count * size < 2 ^ 64)%Z →
  rtc cstep (conc_init (init base size count false) n) c →
  NoDup (in_use c ++ held c) ∧
  (∀ x, x ∈ in_use c ++ held c → x ∈ buffers (cpool c)) ∧
  (∀ x, consumer c = CRead x → x ∈ buffers (cpool c) ∧ x ∉ in_use c ++ held c).
Proof.
  intros Hb Hs Hc Hw Hrtc.
  assert (conc_inv c) as (_ & Hwf & Hco & _).
  { eapply (rtc_ind_r conc_inv); [|intros ????; eapply cstep_inv; done|exact Hrtc].
    by apply conc_init_inv. }
  pose proof (wf_NoDup _ _ Hwf) as Hnd. destruct Hwf as (Hr & Hbl & HP).
  split_and!.
  - apply NoDup_app in Hnd. tauto.
  - intros x Hx. rewrite <- HP. set_solver.
  - intros x Hx. unfold consumer_ok in Hco. rewrite Hx in Hco. destruct Hco as [Hne Hp].
    destruct (read_is_front _ _ Hr Hne Hp) as [q Hq]. rewrite Hq in HP, Hnd.
    split; [rewrite <- HP; set_solver|]. simpl in Hnd. apply NoDup_cons in Hnd. set_solver.
Qed.

Lemma conc_exclusive_witness :
  let p := init 4096 64 2 false in
  let c := Conc p (CRead 4096) [PIdle] None [] in
  NoDup (in_use c ++ held c) ∧
  (∀ x, x ∈ in_use c ++ held c → x ∈ buffers (cpool c)) ∧
  (∀ x, consumer c = CRead x → x ∈ buffers (cpool c) ∧ x ∉ in_use c ++ held c).
Proof.
  intros p c. apply (conc_exclusive 4096 64 2 1 c); [lia..|].
  eapply rtc_l; [apply malloc_check; by vm_compute|].
  apply rtc_once, malloc_read. reflexivity.
Defined.

(** The lock is needed: of a single-threaded pool, two threads that free at the same time can
    write the same slot, so that one buffer is free twice and another never again. *)
Theorem unlocked_free_races :
  ∃ c, rtc cstep (conc_init (init 4096 64 2 true) 2) c ∧ in_use c = [] ∧ held c = [] ∧
       free_list (cpool c) = [4096; 4096]%Z.
Proof.
  eexists. split.
  - do 2 (eapply rtc_l; [apply malloc_check; vm_compute; discriminate|];
          eapply rtc_l; [apply malloc_read; reflexivity|]; eapply rtc_l; [apply malloc_advance|]).
    eapply rtc_l; [apply (free_call _ _ _ _ _ 0 4160%Z); [reflexivity|simpl; set_solver]|].
    eapply rtc_l; [apply (free_call _ _ _ _ _ 1 4096%Z); [reflexivity|vm_compute; set_solver]|].
    eapply rtc_l; [apply (free_no_lock _ _ _ _ _ 0); reflexivity|].
    eapply rtc_l; [apply (free_no_lock _ _ _ _ _ 1); reflexivity|].
    eapply rtc_l; [apply (free_write _ _ _ _ _ 0); reflexivity|].
    eapply rtc_l; [apply (free_write _ _ _ _ _ 1); reflexivity|].
    eapply rtc_l; [apply (free_advance _ _ _ _ _ 0 4160%Z); reflexivity|].
    eapply rtc_l; [apply (free_advance _ _ _ _ _ 1 4096%Z); reflexivity|].
    eapply rtc_l; [apply (free_unlock _ _ _ _ _ 0); reflexivity|].
    apply rtc_once, (free_unlock _ _ _ _ _ 1). reflexivity.
  - split; [|split]; vm_compute; reflexivity.
Qed.

(** The mutex does not order [malloc] and [free]: a thread can be about to write [tail_], holding the
    mutex, while [malloc] is about to read it, so both of these steps are possible next. *)
Theorem tail_read_races :
  ∃ c x p', rtc cstep (conc_init (init 4096 64 2 false) 1) c ∧
    mutex c = Some 0 ∧ producers c = [PWritten x] ∧ consumer c = CIdle ∧
    cstep c (Conc (cpool c) CChecked (producers c) (mutex c) (in_use c)) ∧
    cstep c (Conc p' CIdle (<[0 := PAdvanced]> (producers c)) (mutex c) (in_use c)) ∧ tail_ p' ≠ tail_ (cpool c).
Proof.
  eexists _, 4096%Z, _. split_and!.
  - eapply rtc_l; [apply malloc_check; vm_compute; discriminate|].
    eapply rtc_l; [apply malloc_read; reflexivity|]. eapply rtc_l; [apply malloc_advance|].
    eapply rtc_l; [apply (free_call _ _ _ _ _ 0 4096%Z); [reflexivity|simpl; set_solver]|].
    eapply rtc_l; [apply (free_lock _ _ _ _ 0 4096%Z); reflexivity|].
    apply rtc_once. apply (free_write _ _ _ _ _ 0 4096%Z). reflexivity.
  - reflexivity.
  - reflexivity.
  - reflexivity.
  - apply malloc_check. vm_compute. discriminate.
  - apply (free_advance _ _ _ _ _ 0 4096%Z). reflexivity.
  - vm_compute. discriminate.
Qed.

(** [remaining()] is the number of free buffers, except on the exhausted pool,
    where it answers [bufferCount_ + 1] (truncated to 16 bits) instead of 0. *)
Theorem remaining_spec p :
  ring_ok p →
  remaining p =
  if decide (free_list p = []) then u16 (Z.of_nat (bufferCount_ p) + 1)
  else Z.of_nat (length (free_list p)).
Proof.
  intros Hok. pose proof Hok as (_ & Hh & Ht & Hc). pose proof (empty_ring_len p Hok) as He.
  unfold remaining. case_decide as Hfl.
  - assert (head_ p = tail_ p) as <- by (apply He; by rewrite <- length_free_list, Hfl).
    rewrite Z.ltb_irrefl. f_equal. lia.
  - rewrite length_free_list.
    assert (ring_len p ≠ 0) as Hne.
    { intros H0. apply Hfl, length_zero_iff_nil. by rewrite length_free_list. }
    rewrite He in Hne. unfold u16, ring_len.
    destruct (Z.ltb_spec (Z.of_nat (head_ p)) (Z.of_nat (tail_ p)));
      rewrite Z.mod_small by lia; case_decide; lia.
Qed.

Lemma remaining_spec_witness :
  remaining (set_head (init 4096 64 4 false) 4) = 5%Z.
Proof.
  rewrite remaining_spec; [vm_compute; reflexivity|].
  unfold ring_ok. simpl. lia.
Defined.

(** [calloc] returns what [malloc] returns, with the buffer's [bufferSize_]
    bytes zeroed and every other byte of memory untouched. *)
Theorem calloc_zeroes p sys m p' ptr m' :
  calloc p sys m = Ret (p', ptr, m') →
  malloc p sys = Ret (p', ptr) ∧
  (ptr ≠ 0 → ∀ a, ptr <= a < ptr + bufferSize_ p → m' a = 0)%Z ∧
  (∀ a, ¬ (ptr <= a < ptr + bufferSize_ p)%Z → m' a = m a).
Proof.
  intros ([p1 x] & Hm & H)%bind_Ret_inv. simplify_eq.
  assert (bufferSize_ p' = bufferSize_ p) as Hsz.
  { unfold malloc in Hm. case_decide; [|destruct (ptrs_ p !! head_ p)]; by simplify_eq. }
  rewrite Hsz. split_and!; [done|intros Hn a Ha|intros a Ha].
  - destruct (Z.eqb_spec ptr 0); [done|]. unfold memset.
    destruct (Z.leb_spec ptr a), (Z.ltb_spec a (ptr + bufferSize_ p)); simpl; lia.
  - destruct (Z.eqb_spec ptr 0); [done|]. unfold memset.
    destruct (Z.leb_spec ptr a), (Z.ltb_spec a (ptr + bufferSize_ p)); simpl; lia.
Qed.

Lemma calloc_zeroes_witness :
  let m := λ _ : Z, 7%Z in
  ∃ p' m', calloc (init 4096 64 4 false) 9 m = Ret (p', 4096%Z, m') ∧
           m' 4159%Z = 0%Z ∧ m' 4160%Z = 7%Z.
Proof.
  intros m. eexists _, _. split; [reflexivity|].
  split;
    [apply (proj1 (proj2 (calloc_zeroes (init 4096 64 4 false) 9 m _ 4096 _ eq_refl))); simpl; lia
    |apply (proj2 (proj2 (calloc_zeroes (init 4096 64 4 false) 9 m _ 4096 _ eq_refl))); simpl; lia].
Defined.

End BufferPool.
