(* ===== verification/Address.v ===== *)
(** * Network addresses (src/a17/dispatch/address.h, address.cpp)

    [OwnAddress] chooses the local interface from the environment; [Address] is
    a [protocol://ip:port] triple with its printer and parser.  The resolver
    functions of the C library ([inet_addr], [getnameinfo]) are parameters,
    collected in the class [Inet]; what the code relies on is [InetLaws]. *)

From S2P Require Import Prelude.

(** ** C library pieces the source uses *)

Definition isspace (c : ascii) : bool :=
  bool_decide (c ∈ [" "; "009"; "010"; "011"; "012"; "013"]%char).

Fixpoint drop_while (f : ascii → bool) (l : list ascii) : list ascii :=
  match l with
  | [] => []
  | c :: l' => if f c then drop_while f l' else l
  end.

Fixpoint take_while (f : ascii → bool) (l : list ascii) : list ascii :=
  match l with
  | [] => []
  | c :: l' => if f c then c :: take_while f l' else []
  end.

(** [strtol(s, nullptr, 10)] of a C string, saturating to the range of [long]. *)
Definition strtol (l : list ascii) : Z :=
  let clamp z := Z.max (- 2 ^ 63) (Z.min (2 ^ 63 - 1) z) in
  match drop_while isspace l with
  | "-"%char :: l' => clamp (- dec_val (take_while isdigit l'))%Z
  | "+"%char :: l' => clamp (dec_val (take_while isdigit l'))
  | l' => clamp (dec_val (take_while isdigit l'))
  end.

(** [std::string::find(pat, pos)]. *)
Fixpoint find_from (pat l : list ascii) : option nat :=
  if decide (pat `prefix_of` l) then Some 0
  else match l with [] => None | _ :: l' => S <$> find_from pat l' end.

Definition find (l pat : list ascii) (pos : nat) : option nat :=
  (λ i, pos + i) <$> find_from pat (drop pos l).

(** ** The local interface *)

Record sockaddr : Type := Sockaddr { sa_inet : bool; s_addr : Z }.

Global Instance sockaddr_eq_dec : EqDecision sockaddr.
Proof. solve_decision. Defined.

Record ifaddrs : Type := Ifaddrs {
  ifa_name : string;
  ifa_addr : option sockaddr;
  ifa_dstaddr : option sockaddr;
  ifa_netmask : option sockaddr
}.

Class Inet : Type := {
  inet_addr : string → Z;
  getnameinfo : sockaddr → Z * string
}.

(** Documented behaviour of the C library: [inet_addr] yields a 32-bit value, reads
    the broadcast address as all ones, and reads the numeric text a successful
    [getnameinfo] with [NI_NUMERICHOST] writes (a C string) back as the same
    address. *)
Class InetLaws (I : Inet) : Prop := {
  inet_addr_range s : (0 <= inet_addr s < 2 ^ 32)%Z;
  inet_addr_ones : inet_addr "255.255.255.255" = (2 ^ 32 - 1)%Z;
  inet_addr_getnameinfo a :
    (0 <= s_addr a < 2 ^ 32)%Z → (0 <= (getnameinfo a).1)%Z →
    inet_addr (getnameinfo a).2 = s_addr a;
  getnameinfo_nul_free a : nul_free (getnameinfo a).2 = true
}.

Module OwnAddress.

Record t : Type := mk {
  address_ : string;
  broadcast_ : string;
  netmask_ : string;
  network_ : Z;
  mask_ : Z;
  interface_ : string
}.

Section with_inet.
Context `{Inet}.

(** [getAddressFromSocket]: the status and the new value of [address]. *)
Definition getAddressFromSocket (address : string) (addr : option sockaddr) : Z * string :=
  match addr with
  | None => ((-1)%Z, address)
  | Some a =>
      let '(s, name) := getnameinfo a in
      (s, if (0 <=? s)%Z then name else address)
  end.

Definition default : t :=
  mk "127.0.0.1" "127.0.0.1" "255.255.255.255"
     (inet_addr "127.0.0.1") (inet_addr "255.255.255.255") "".

(** The loop over the interfaces.  The three locals keep their values between
    iterations; [None] when no interface was selected. *)
Fixpoint select (interface : string) (address broadcast netmask : string)
    (l : list ifaddrs) : option t :=
  match l with
  | [] => None
  | ifa :: l' =>
      match ifa_addr ifa with
      | None => select interface address broadcast netmask l'
      | Some a =>
          if negb (sa_inet a) then select interface address broadcast netmask l'
          else if decide (c_str (ifa_name ifa) = c_str interface) then
            let '(s1, address1) := getAddressFromSocket address (ifa_addr ifa) in
            if (s1 <? 0)%Z then select interface address1 broadcast netmask l' else
            let '(s2, broadcast1) := getAddressFromSocket broadcast (ifa_dstaddr ifa) in
            if (s2 <? 0)%Z then select interface address1 broadcast1 netmask l' else
            let '(s3, netmask1) := getAddressFromSocket netmask (ifa_netmask ifa) in
            if (s3 <? 0)%Z then select interface address1 broadcast1 netmask1 l' else
            match ifa_netmask ifa with
            | Some nm =>
                if negb (bool_decide (address1 = "")) && negb (bool_decide (broadcast1 = ""))
                   && negb (bool_decide (netmask1 = ""))
                then Some (mk address1 broadcast1 netmask1
                              (Z.land (s_addr a) (s_addr nm)) (s_addr nm) interface)
                else select interface address1 broadcast1 netmask1 l'
            | None => select interface address1 broadcast1 netmask1 l'
            end
          else select interface address broadcast netmask l'
      end
  end.

(** The constructor: the value of [A17_DISPATCH_INTERFACE] and what
    [getifaddrs] returned ([None] when it failed). *)
Definition init (env : option string) (ifs : option (list ifaddrs)) : t :=
  match env with
  | None => default
  | Some interface =>
      match ifs with
      | None => default
      | Some l =>
          match select interface "" "" "" l with
          | Some own => own
          | None => default
          end
      end
  end.

Definition onNetwork (own : t) (address : string) : bool :=
  (Z.land (inet_addr (c_str address)) (mask_ own) =? network_ own)%Z.

End with_inet.
End OwnAddress.

(** ** Addresses *)
Module Address.

Record t : Type := mk {
  protocol_ : string;
  ip_ : string;
  port_ : Z;
  interface_ : string
}.

(** [Address(uint16_t port = 0)]. *)
Definition of_port (own : OwnAddress.t) (port : Z) : t :=
  mk "tcp" (OwnAddress.address_ own) port (OwnAddress.interface_ own).

(** [Address(ip, port = 0)]. *)
Definition of_ip (ip : string) (port : Z) : t := mk "tcp" ip port "".

(** [Address(protocol, ip, port = 0)]. *)
Definition of_protocol (protocol ip : string) (port : Z) : t := mk protocol ip port "".

(** The copy and move constructors. *)
Definition copy (other : t) : t := mk (protocol_ other) (ip_ other) (port_ other) "".

Definition address (a : t) : string :=
  protocol_ a +:+ "://" +:+ ip_ a +:+ ":" +:+ to_string (port_ a).

Definition isLocalhost (a : t) : bool :=
  bool_decide (ip_ a = "127.0.0.1") || bool_decide (ip_ a = "localhost").

Definition setPort (a : t) (port : Z) : t := mk (protocol_ a) (ip_ a) port (interface_ a).

(** [Address::parse].  The port is a [long] stored into a [uint16_t]. *)
Definition parse (text : string) : t :=
  let l := chars text in
  let '(protocol, pos) :=
    match find l (chars "://") 0 with
    | Some urlPos => (str (take urlPos l), urlPos + 3)
    | None => ("tcp", 0)
    end in
  match find l (chars ":") pos with
  | Some portPos =>
      of_protocol protocol (str (take (portPos - pos) (drop pos l)))
        (u16 (strtol (chars (c_str (str (drop (portPos + 1) l))))))
  | None => of_protocol protocol (str (drop pos l)) 0
  end.

End Address.

(** ** Lemmas *)

Lemma chars_String c s : chars (String c s) = c :: chars s.
Proof. done. Qed.

Lemma chars_empty : chars "" = [].
Proof. done. Qed.

#[export] Hint Rewrite chars_String chars_empty : a17.

Lemma take_while_all f l : Forall (λ c, f c = true) l → take_while f l = l.
Proof. induction 1 as [|c l Hc Hl IH]; simpl; [done|]. by rewrite Hc, IH. Qed.

Lemma drop_while_head f c l : f c = false → drop_while f (c :: l) = c :: l.
Proof. simpl. by intros ->. Qed.

Lemma find_from_app pat c l rest :
  c ∉ l → find_from (c :: pat) (l ++ (c :: pat) ++ rest) = Some (length l).
Proof.
  induction l as [|d l IH]; intros Hn; cbn [app find_from length].
  - rewrite decide_True; [done|]. by exists rest.
  - rewrite decide_False.
    + cbn [app] in IH. by rewrite IH by set_solver.
    + intros [k Hk]. simplify_eq/=. set_solver.
Qed.

Lemma find_from_None c pat l : c ∉ l → find_from (c :: pat) l = None.
Proof.
  induction l as [|d l IH]; intros Hn; cbn [find_from].
  - rewrite decide_False; [done|]. by intros [k Hk].
  - rewrite decide_False; [by rewrite IH by set_solver|].
    intros [k Hk]. simplify_eq/=. set_solver.
Qed.

(** Reading back a decimal text. *)
Lemma strtol_to_string n :
  (0 <= n < 2 ^ 63)%Z → strtol (chars (to_string n)) = n.
Proof.
  intros Hn. destruct (to_string_spec n) as (HD & Hne & Hv); [lia|].
  destruct (chars (to_string n)) as [|c D]; [done|].
  pose proof HD as [Hc _]%Forall_cons. unfold strtol.
  rewrite drop_while_head.
  2:{ unfold isspace. apply bool_decide_eq_false. intros Hin.
      repeat (apply elem_of_cons in Hin as [->|Hin]; [done|]). by apply not_elem_of_nil in Hin. }
  assert (take_while isdigit (c :: D) = c :: D) as Ht by by apply take_while_all.
  destruct (decide (c = "-"%char)) as [->|H1]; [done|].
  destruct (decide (c = "+"%char)) as [->|H2]; [done|].
  assert (Z.max (- 2 ^ 63) (Z.min (2 ^ 63 - 1) (dec_val (take_while isdigit (c :: D)))) = n) as Hr
    by (rewrite Ht, Hv; lia).
  destruct c as [[] [] [] [] [] [] [] []]; first [exact Hr|done].
Qed.

Lemma digits_nul_free n : (0 <= n)%Z → nul_free (to_string n) = true.
Proof. intros Hn. apply nul_free_spec. by apply to_string_no. Qed.

Lemma land_ones_id z : (0 <= z < 2 ^ 32)%Z → Z.land z (2 ^ 32 - 1) = z.
Proof.
  intros Hz. change (2 ^ 32 - 1)%Z with (Z.ones 32).
  rewrite Z.land_ones by lia. by apply Z.mod_small.
Qed.

(** The text after a prefix of known length. *)
Lemma drop_app_add {A} (l1 l2 : list A) n : drop (length l1 + n) (l1 ++ l2) = drop n l2.
Proof. by rewrite <- drop_drop, drop_app_length. Qed.

Lemma parse_full protocol ip port :
  ":"%char ∉ chars protocol → ":"%char ∉ chars ip → (0 <= port < 2 ^ 16)%Z →
  Address.parse (protocol +:+ "://" +:+ ip +:+ ":" +:+ to_string port) =
  Address.of_protocol protocol ip port.
Proof.
  intros Hp Hi Hport. unfold Address.parse, find. rewrite !chars_app.
  change (chars "://") with [":"; "/"; "/"]%char. change (chars ":") with [":"%char].
  set (P := chars protocol) in *. set (I := chars ip) in *. rewrite drop_0.
  rewrite (find_from_app ["/"; "/"]%char) by done. cbn [fmap option_fmap option_map Nat.add].
  rewrite take_app_length, !drop_app_add.
  change (drop 3 ([":"; "/"; "/"]%char ++ ?X)) with X.
  rewrite (find_from_app []) by done. cbn [fmap option_fmap option_map].
  rewrite Nat.add_comm, Nat.add_sub, take_app_length. unfold P, I.
  rewrite !str_chars.
  replace (length (chars ip) + (length (chars protocol) + 3) + 1)
    with (length (chars protocol) + (3 + (length (chars ip) + 1))) by lia.
  rewrite drop_app_add, <- drop_drop.
  change (drop 3 ([":"; "/"; "/"]%char ++ ?X)) with X. rewrite drop_app_add.
  change (drop 1 ([":"]%char ++ ?X)) with X.
  rewrite str_chars, c_str_nul_free by (apply digits_nul_free; lia).
  rewrite strtol_to_string by lia. f_equal. unfold u16. by apply Z.mod_small.
Qed.

Lemma parse_bare ip :
  ":"%char ∉ chars ip → Address.parse ip = Address.of_protocol "tcp" ip 0.
Proof.
  intros Hi. unfold Address.parse, find.
  change (chars "://") with [":"; "/"; "/"]%char. change (chars ":") with [":"%char].
  rewrite drop_0, find_from_None by done. cbn [fmap option_fmap option_map].
  rewrite drop_0, find_from_None by done. cbn [fmap option_fmap option_map].
  by rewrite str_chars.
Qed.

Lemma select_spec `{Inet} interface ad b n l own :
  OwnAddress.select interface ad b n l = Some own →
  ∃ ifa a nm, ifa ∈ l ∧ ifa_addr ifa = Some a ∧ ifa_netmask ifa = Some nm ∧
    (0 <= (getnameinfo a).1)%Z ∧ OwnAddress.address_ own = (getnameinfo a).2 ∧
    OwnAddress.mask_ own = s_addr nm ∧
    OwnAddress.network_ own = Z.land (s_addr a) (s_addr nm).
Proof.
  revert ad b n. induction l as [|ifa l IH]; [done|]. intros ad b n Hs.
  enough ((∃ ad' b' n', OwnAddress.select interface ad' b' n' l = Some own) ∨
          (∃ a nm, ifa_addr ifa = Some a ∧ ifa_netmask ifa = Some nm ∧
             (0 <= (getnameinfo a).1)%Z ∧ OwnAddress.address_ own = (getnameinfo a).2 ∧
             OwnAddress.mask_ own = s_addr nm ∧
             OwnAddress.network_ own = Z.land (s_addr a) (s_addr nm)))
    as [(ad' & b' & n' & Hs')|(a & nm & ?)].
  { apply IH in Hs' as (ifa' & a & nm & ? & ?). exists ifa', a, nm. set_solver. }
  { exists ifa, a, nm. set_solver. }
  cbn [OwnAddress.select] in Hs. destruct (ifa_addr ifa) as [a|] eqn:Ha; [|by eauto].
  destruct (negb (sa_inet a)); [by eauto|]. case_decide; [|by eauto].
  unfold OwnAddress.getAddressFromSocket in Hs at 1.
  destruct (getnameinfo a) as [s1 name] eqn:Hg.
  destruct (Z.ltb_spec s1 0) as [|H1]; [by eauto|].
  destruct (OwnAddress.getAddressFromSocket b _) as [s2 b1].
  destruct (s2 <? 0)%Z; [by eauto|].
  destruct (OwnAddress.getAddressFromSocket n _) as [s3 n1].
  destruct (s3 <? 0)%Z; [by eauto|].
  destruct (ifa_netmask ifa) as [nm|]; [|by eauto].
  destruct (Z.leb_spec 0 s1); [|lia].
  destruct (_ && _ && _); [|by eauto].
  right. exists a, nm. rewrite Hg. by simplify_eq.
Qed.

(** ** A resolver for concrete runs: dotted quads, first octet lowest *)
Definition quad (a : Z) : string :=
  str (join_with "."%char
    ((λ i, chars (to_string ((a / 2 ^ (8 * i)) mod 256)%Z)) <$> [0; 1; 2; 3]%Z)).

Definition unquad (s : string) : Z :=
  match dec_val <$> split_on "."%char (chars s) with
  | [a; b; c; d] =>
      if forallb (λ x, (0 <=? x) && (x <? 256))%Z [a; b; c; d]
      then (a + 256 * b + 65536 * c + 16777216 * d)%Z else (2 ^ 32 - 1)%Z
  | _ => (2 ^ 32 - 1)%Z
  end.

Definition quad_inet : Inet :=
  {| inet_addr := unquad; getnameinfo a := (0%Z, quad (s_addr a)) |}.

Lemma quad_inet_laws : InetLaws quad_inet.
Proof.
  split; simpl.
  - intros s. unfold unquad.
    destruct (dec_val <$> _) as [|a [|b [|c [|d [|]]]]]; try lia.
    destruct (forallb _ _) eqn:E; [|lia]. simpl in E.
    repeat (apply andb_prop in E as [? E]). lia.
  - by vm_compute.
  - intros [f a] Ha _. simpl in *. unfold unquad, quad. rewrite chars_str, split_join.
    2:{ done. }
    2:{ apply Forall_fmap, Forall_forall. intros i _ Hin. simpl in Hin.
        apply to_string_no in Hin; [done| |done]. by apply Z.mod_pos_bound. }
    rewrite <- list_fmap_compose.
    rewrite (list_fmap_ext _ (λ i, (a / 2 ^ (8 * i)) mod 256)%Z).
    2:{ intros i x _. simpl. apply to_string_spec. by apply Z.mod_pos_bound. }
    simpl. pose proof (λ x, Z.mod_pos_bound x 256 ltac:(lia)) as Hb.
    assert (∀ x, (0 <=? x mod 256)%Z && (x mod 256 <? 256)%Z = true) as ->.
    { intros x. specialize (Hb x). apply andb_true_intro. lia. }
    rewrite !andb_true_l. cbn [andb forallb].
    assert (∀ x, (0 <=? x mod 256)%Z && (x mod 256 <? 256)%Z = true) as Hx.
    { intros x. specialize (Hb x). apply andb_true_intro. lia. }
    rewrite ?Hx. simpl. clear Hx Hb.
    change (2 ^ 0)%Z with 1%Z. change (2 ^ 8)%Z with 256%Z.
    change (2 ^ 16)%Z with 65536%Z. change (2 ^ 24)%Z with 16777216%Z.
    change (2 ^ 32)%Z with 4294967296%Z in Ha. Z.to_euclidean_division_equations. lia.
  - intros a. apply nul_free_spec. unfold quad. rewrite chars_str.
    intros [|(w & Hw & Hin)]%elem_of_join_with; [done|].
    apply list_elem_of_fmap in Hw as (i & -> & _).
    apply to_string_no in Hin; [done| |done]. by apply Z.mod_pos_bound.
Qed.

(** ** Properties *)

(** Printing and parsing addresses are inverse: for a protocol and an ip
    without colons and a 16-bit port, [Address::parse] of the printed address
    [protocol://ip:port] restores the three fields (the interface is not part of
    the text, and is empty afterwards). *)
Theorem address_parse_roundtrip a :
  ":"%char ∉ chars (Address.protocol_ a) → ":"%char ∉ chars (Address.ip_ a) →
  (0 <= Address.port_ a < 2 ^ 16)%Z →
  Address.parse (Address.address a) = Address.copy a.
Proof. intros. by apply parse_full. Qed.

Lemma address_parse_roundtrip_witness :
  Address.parse "tcp://127.0.0.1:40404" = Address.mk "tcp" "127.0.0.1" 40404 "".
Proof.
  apply (address_parse_roundtrip (Address.mk "tcp" "127.0.0.1" 40404 "lo"));
    [vm_compute; set_solver|vm_compute; set_solver|simpl; lia].
Defined.

(** The parser is total and its port is always a 16-bit value; without any
    colon the whole text is the ip of a [tcp] address with port 0. *)
Theorem address_parse_total text :
  (0 <= Address.port_ (Address.parse text) < 2 ^ 16)%Z ∧
  (":"%char ∉ chars text → Address.parse text = Address.of_protocol "tcp" text 0).
Proof.
  split; [|apply parse_bare]. unfold Address.parse.
  destruct (find (chars text) (chars "://") 0); case_match; simpl; try lia;
    unfold u16; apply Z.mod_pos_bound; lia.
Qed.

(** The node's own address is on its own network, whatever interfaces the
    machine has: [OwnAddress::onNetwork] accepts the address the constructor
    selected, so a directory never discards its host's own topics. *)
Theorem own_address_on_network `{I : Inet, !InetLaws I} env ifs :
  (∀ l ifa a, ifs = Some l → ifa ∈ l → ifa_addr ifa = Some a → (0 <= s_addr a < 2 ^ 32)%Z) →
  let own := OwnAddress.init env ifs in
  OwnAddress.onNetwork own (OwnAddress.address_ own) = true.
Proof.
  intros Hr own.
  assert (OwnAddress.onNetwork OwnAddress.default (OwnAddress.address_ OwnAddress.default) = true)
    as Hdef.
  { unfold OwnAddress.onNetwork. simpl. apply Z.eqb_eq. rewrite inet_addr_ones.
    apply land_ones_id, inet_addr_range. }
  unfold own, OwnAddress.init. destruct env as [interface|]; [|done].
  destruct ifs as [l|]; [|done].
  destruct (OwnAddress.select _ _ _ _ l) as [o|] eqn:Hs; [|done].
  apply select_spec in Hs as (ifa & a & nm & Hin & Ha & _ & Hg & Had & Hm & Hn).
  unfold OwnAddress.onNetwork. rewrite Had, Hm, Hn, c_str_nul_free by apply getnameinfo_nul_free.
  rewrite inet_addr_getnameinfo by (eauto). apply Z.eqb_refl.
Qed.

Lemma own_address_on_network_witness :
  let ifs := Some [Ifaddrs "eth0" (Some (Sockaddr true 83994816)) (Some (Sockaddr true 4278298816))
                           (Some (Sockaddr true 16777215))] in
  let own := @OwnAddress.init quad_inet (Some "eth0") ifs in
  @OwnAddress.onNetwork quad_inet own (OwnAddress.address_ own) = true ∧
  OwnAddress.address_ own = "192.168.1.5".
Proof.
  intros ifs own. split; [|vm_compute; reflexivity].
  apply (@own_address_on_network quad_inet quad_inet_laws (Some "eth0") ifs).
  intros l ifa a [= <-] Hin Ha.
  apply list_elem_of_singleton in Hin as ->. injection Ha as <-. simpl. lia.
Defined.
