(* ===== verification/Topics.v ===== *)
(** * Topics (src/a17/dispatch/topic.*, socket_types.*, directory_topic.*, defs.cpp)

    Qualified topic names, the table of ZeroMQ socket types, and the directory's
    description of one advertised topic. *)

From S2P Require Import Prelude.

(** [DeviceName()]: the [--device_name] flag, else [A17_DEVICE_NAME], else empty. *)
Definition DeviceName (flag : string) (env : option string) : string :=
  if decide (flag ≠ "") then flag
  else match env with Some d => d | None => "" end.

(** ** [struct Topic] *)
Module Topic.

Record t : Type := mk {
  device_name : string;
  node_name : string;
  topic : string
}.

(** [str.back()], read only when the string is not empty. *)
Definition back (s : string) : option ascii := last (chars s).

(** One component appended: [if (!x.empty()) { if (!str.empty() && str.back() != '/')
    str.append("/"); str.append(x); }]. *)
Definition append_part (s x : string) : string :=
  if decide (x = "") then s
  else
    let s' :=
      if bool_decide (s ≠ "") && bool_decide (back s ≠ Some "/"%char)
      then s +:+ "/" else s in
    s' +:+ x.

Definition to_str (t : t) : string :=
  let s := if decide (device_name t = "") then "" else "" +:+ device_name t in
  append_part (append_part s (node_name t)) (topic t).

End Topic.

(** ** [class SocketTypes] *)
Module SocketTypes.

Definition ZMQ_PAIR : Z := 0.
Definition ZMQ_PUB : Z := 1.
Definition ZMQ_SUB : Z := 2.
Definition ZMQ_REQ : Z := 3.
Definition ZMQ_REP : Z := 4.
Definition ZMQ_DEALER : Z := 5.
Definition ZMQ_ROUTER : Z := 6.
Definition ZMQ_PULL : Z := 7.
Definition ZMQ_PUSH : Z := 8.
Definition ZMQ_XPUB : Z := 9.
Definition ZMQ_XSUB : Z := 10.
Definition ZMQ_STREAM : Z := 11.

Record t : Type := mk {
  types : list string;
  byName : gmap string Z;
  connectable : gmap Z (gset Z)
}.

Definition connect (s : t) (type : Z) (c : gset Z) : t :=
  mk (types s) (byName s) (<[type := c]> (connectable s)).

Definition type_names : list string :=
  ["PAIR"; "PUB"; "SUB"; "REQ"; "REP"; "DEALER";
   "ROUTER"; "PULL"; "PUSH"; "XPUB"; "XSUB"; "STREAM"].

(** The loop [byName[types[i]] = i]. *)
Fixpoint number_names (i : Z) (l : list string) (m : gmap string Z) : gmap string Z :=
  match l with
  | [] => m
  | n :: l' => number_names (i + 1) l' (<[n := i]> m)
  end.

Definition init : t :=
  let s := mk type_names (number_names 0 type_names ∅) ∅ in
  let s := connect s ZMQ_PAIR {[ZMQ_PAIR]} in
  let s := connect s ZMQ_PUB {[ZMQ_SUB]} in
  let s := connect s ZMQ_SUB {[ZMQ_PUB]} in
  let s := connect s ZMQ_REQ {[ZMQ_REP]} in
  let s := connect s ZMQ_REP {[ZMQ_REQ]} in
  let s := connect s ZMQ_DEALER {[ZMQ_ROUTER]} in
  let s := connect s ZMQ_ROUTER {[ZMQ_DEALER]} in
  let s := connect s ZMQ_PULL {[ZMQ_PUSH]} in
  let s := connect s ZMQ_PUSH {[ZMQ_PULL]} in
  let s := connect s ZMQ_XPUB {[ZMQ_XSUB]} in
  let s := connect s ZMQ_XSUB {[ZMQ_XPUB]} in
  connect s ZMQ_STREAM {[ZMQ_STREAM]}.

Definition fromName (name : string) : Z :=
  match byName init !! name with Some i => i | None => (-1)%Z end.

(** [types[type]] of a vector: outside [0 .. 11] undefined. *)
Definition fromType (type : Z) : outcome string :=
  if (type <? 0)%Z then Undef
  else match types init !! Z.to_nat type with Some n => Ret n | None => Undef end.

(** [connectable.at(from)] throws on an unknown type. *)
Definition canConnect (from to : Z) : outcome bool :=
  match connectable init !! from with
  | None => Throw (out_of_range "map::at")
  | Some c => Ret (bool_decide (to ∈ c))
  end.

End SocketTypes.

(** ** [struct DirectoryTopic] *)
Record DirectoryTopic : Type := mkDirectoryTopic {
  dt_name : string;
  dt_timestamp : Z;
  dt_socketType : Z;
  dt_address : string;
  dt_inputTypes : gset string;
  dt_outputTypes : gset string;
  dt_guid : string;
  dt_info : string
}.

Global Instance DirectoryTopic_eq_dec : EqDecision DirectoryTopic.
Proof. solve_decision. Defined.

(** [operator==]. *)
Definition DirectoryTopic_eqb (a b : DirectoryTopic) : bool :=
  bool_decide (dt_name a = dt_name b) && bool_decide (dt_timestamp a = dt_timestamp b) &&
  bool_decide (dt_socketType a = dt_socketType b) &&
  bool_decide (dt_address a = dt_address b) &&
  bool_decide (dt_inputTypes a = dt_inputTypes b) &&
  bool_decide (dt_outputTypes a = dt_outputTypes b) &&
  bool_decide (dt_guid a = dt_guid b) && bool_decide (dt_info a = dt_info b).

(** [operator!=]. *)
Definition DirectoryTopic_neqb (a b : DirectoryTopic) : bool := negb (DirectoryTopic_eqb a b).

(** [std::ostream << long]. *)
Definition show_Z (z : Z) : string :=
  if (z <? 0)%Z then "-" +:+ to_string (- z) else to_string z.

Definition newline : string := String "010"%char "".

Fixpoint show_types (l : list string) : string :=
  match l with
  | [] => ""
  | ty :: l' => "    " +:+ ty +:+ "," +:+ newline +:+ show_types l'
  end.

(** [DirectoryTopic::to_string]. *)
Definition DirectoryTopic_to_string (t : DirectoryTopic) : string :=
  "{" +:+ newline +:+
  "  name: " +:+ dt_name t +:+ "," +:+ newline +:+
  "  timestamp: " +:+ show_Z (dt_timestamp t) +:+ "," +:+ newline +:+
  "  socketType: " +:+ show_Z (dt_socketType t) +:+ "," +:+ newline +:+
  "  inputTypes: [" +:+ newline +:+
  show_types (set_iter (dt_inputTypes t)) +:+
  "  ]," +:+ newline +:+
  "  outputTypes: [" +:+ newline +:+
  show_types (set_iter (dt_outputTypes t)) +:+
  "  ]," +:+ newline +:+
  "  guid: " +:+ dt_guid t +:+ "," +:+ newline +:+
  "  info: " +:+ dt_info t +:+ "," +:+ newline +:+
  "}".

(** ** Lemmas *)

Lemma DirectoryTopic_eqb_spec a b : DirectoryTopic_eqb a b = true ↔ a = b.
Proof.
  unfold DirectoryTopic_eqb. rewrite !andb_true_iff, !bool_decide_eq_true.
  split; [|by intros ->]. destruct a, b; simpl. naive_solver.
Qed.

(** A component as a list: empty components are skipped. *)
Definition nonempty (s : string) : list string := if decide (s = "") then [] else [s].

(** The non-empty components of a topic, in order. *)
Definition topic_parts (t : Topic.t) : list string :=
  nonempty (Topic.device_name t) ++ nonempty (Topic.node_name t) ++ nonempty (Topic.topic t).

Lemma join_with_snoc sep ws w :
  ws ≠ [] → join_with sep (ws ++ [w]) = join_with sep ws ++ sep :: w.
Proof.
  induction ws as [|v ws IH]; [done|]. intros _.
  destruct ws as [|v' ws]; [done|]. simpl in *. rewrite IH by done.
  by rewrite <- app_assoc.
Qed.

Lemma last_join_with sep ws :
  ws ≠ [] → Forall (λ w, w ≠ [] ∧ sep ∉ w) ws →
  join_with sep ws ≠ [] ∧ last (join_with sep ws) ≠ Some sep.
Proof.
  intros Hne Hw. destruct (exists_last Hne) as (ws' & w & ->).
  apply Forall_app in Hw as [_ [Hw Hs]%Forall_singleton].
  assert (∀ l, last (l ++ w) ≠ Some sep) as Hl.
  { intros l. rewrite last_app. destruct (last w) as [c|] eqn:E.
    - intros [= ->]. apply last_Some in E as [w' ->]. set_solver.
    - by apply last_None in E. }
  destruct (decide (ws' = [])) as [->|Hne']; simpl.
  - split; [done|]. apply (Hl []).
  - rewrite join_with_snoc by done. split; [by destruct (join_with sep ws')|].
    specialize (Hl (join_with sep ws' ++ [sep])). by rewrite <- app_assoc in Hl.
Qed.

Lemma append_part_join ws x :
  Forall (λ w, chars w ≠ [] ∧ "/"%char ∉ chars w) ws →
  Topic.append_part (str (join_with "/"%char (chars <$> ws))) x =
  str (join_with "/"%char (chars <$> ws ++ nonempty x)).
Proof.
  intros Hw. unfold Topic.append_part, nonempty. case_decide; [by rewrite app_nil_r|].
  unfold Topic.back. destruct (decide (ws = [])) as [->|Hne].
  { simpl. by rewrite str_chars. }
  destruct (last_join_with "/"%char (chars <$> ws)) as [H1 H2].
  { by destruct ws. }
  { by apply Forall_fmap. }
  rewrite chars_str. rewrite !bool_decide_eq_true_2; [|done|].
  2:{ intros H0. apply H1. by rewrite <- (chars_str (join_with _ _)), H0. }
  cbn [andb]. apply chars_inj. rewrite !chars_app, !chars_str, fmap_app. simpl.
  rewrite join_with_snoc by (by destruct ws). by rewrite <- app_assoc.
Qed.

Lemma nonempty_ok s :
  "/"%char ∉ chars s → Forall (λ w, chars w ≠ [] ∧ "/"%char ∉ chars w) (nonempty s).
Proof.
  intros Hs. unfold nonempty. case_decide as Hne; [done|]. apply Forall_singleton.
  split; [|done]. intros H0. apply Hne. by apply chars_inj.
Qed.

Lemma twelve_cases z :
  (0 <= z < 12)%Z →
  (z = 0 ∨ z = 1 ∨ z = 2 ∨ z = 3 ∨ z = 4 ∨ z = 5 ∨ z = 6 ∨ z = 7 ∨ z = 8 ∨ z = 9 ∨
   z = 10 ∨ z = 11)%Z.
Proof. lia. Qed.

Lemma fromType_in ty :
  (0 <= ty < 12)%Z → ∃ n, SocketTypes.fromType ty = Ret n ∧ SocketTypes.fromName n = ty.
Proof.
  intros Hz%twelve_cases.
  destruct_or! Hz; subst ty; eexists; (split; vm_compute; reflexivity).
Qed.

Lemma fromType_out ty : ¬ (0 <= ty < 12)%Z → SocketTypes.fromType ty = Undef.
Proof.
  intros Hz. unfold SocketTypes.fromType. destruct (Z.ltb_spec ty 0); [done|].
  rewrite lookup_ge_None_2; [done|]. simpl. lia.
Qed.

Lemma fromType_fromName n :
  (0 <= SocketTypes.fromName n)%Z → SocketTypes.fromType (SocketTypes.fromName n) = Ret n.
Proof.
  unfold SocketTypes.fromName.
  destruct (SocketTypes.byName SocketTypes.init !! n) as [i|] eqn:E; [|lia].
  intros _. simpl in E.
  repeat (apply lookup_insert_Some in E as [[<- <-]|[_ E]]; [vm_compute; reflexivity|]).
  done.
Qed.

(** ** Properties *)

(** A qualified topic name is its non-empty components joined by single
    slashes: splitting [Topic::str()] at slashes gives back exactly the
    non-empty components, in order, when no component contains a slash. *)
Theorem topic_str_parts t :
  "/"%char ∉ chars (Topic.device_name t) → "/"%char ∉ chars (Topic.node_name t) →
  "/"%char ∉ chars (Topic.topic t) → topic_parts t ≠ [] →
  split_on "/"%char (chars (Topic.to_str t)) = chars <$> topic_parts t.
Proof.
  intros Hd%nonempty_ok Hn%nonempty_ok Hx%nonempty_ok Hne. unfold Topic.to_str, topic_parts in *.
  replace (if decide (Topic.device_name t = "") then "" else "" +:+ Topic.device_name t)
    with (str (join_with "/"%char (chars <$> nonempty (Topic.device_name t)))).
  2:{ unfold nonempty. case_decide; simpl; [done|]. by rewrite str_chars. }
  rewrite append_part_join by done. rewrite append_part_join by (by apply Forall_app).
  rewrite chars_str, <- app_assoc. apply split_join; [by destruct (nonempty _ ++ _)|].
  apply Forall_fmap. do 2 (apply Forall_app; split; [eapply Forall_impl; naive_solver|]).
  eapply Forall_impl; naive_solver.
Qed.

Lemma topic_str_parts_witness :
  split_on "/"%char (chars (Topic.to_str (Topic.mk "drone" "" "imu"))) =
  [chars "drone"; chars "imu"].
Proof. apply (topic_str_parts (Topic.mk "drone" "" "imu")); vm_compute; set_solver. Defined.

(** Socket type names and numbers correspond: every type number has a
    name that [fromName] maps back to it, every recognised name is the name of
    its number, and [fromType] is undefined (an out-of-range vector access)
    exactly outside the twelve types. *)
Theorem socket_types_roundtrip ty name :
  ((0 <= ty < 12)%Z ↔ ∃ n, SocketTypes.fromType ty = Ret n) ∧
  (SocketTypes.fromType ty = Ret name → SocketTypes.fromName name = ty) ∧
  ((0 <= SocketTypes.fromName name)%Z →
   SocketTypes.fromType (SocketTypes.fromName name) = Ret name) ∧
  (SocketTypes.fromType ty = Undef ↔ ¬ (0 <= ty < 12)%Z).
Proof.
  split_and!; [split|..|split].
  - intros Hz. apply fromType_in in Hz as (n & ? & _). eauto.
  - intros [n Hn]. destruct (decide (0 <= ty < 12)%Z) as [|Ho]; [done|].
    apply fromType_out in Ho. congruence.
  - intros Hn. destruct (decide (0 <= ty < 12)%Z) as [Hz|Ho].
    + apply fromType_in in Hz as (n & H1 & H2). congruence.
    + apply fromType_out in Ho. congruence.
  - apply fromType_fromName.
  - intros Hu Hz. apply fromType_in in Hz as (n & ? & _). congruence.
  - apply fromType_out.
Qed.

(** Connectability is symmetric and single-valued: [canConnect] throws
    exactly on unknown types, and a type that can connect to another is the only
    one that one can connect to. *)
Theorem canConnect_pairing a b c :
  (SocketTypes.canConnect a b = Throw (out_of_range "map::at") ↔ ¬ (0 <= a < 12)%Z) ∧
  (SocketTypes.canConnect a b = Ret true → SocketTypes.canConnect b a = Ret true) ∧
  (SocketTypes.canConnect a b = Ret true → SocketTypes.canConnect a c = Ret true → b = c).
Proof.
  assert (∀ x y, SocketTypes.canConnect x y = Ret true →
     (x, y) ∈ [(0,0);(1,2);(2,1);(3,4);(4,3);(5,6);(6,5);(7,8);(8,7);(9,10);(10,9);(11,11)]%Z) as Hp.
  { intros x y. unfold SocketTypes.canConnect.
    destruct (SocketTypes.connectable SocketTypes.init !! x) as [s|] eqn:E; [|done].
    intros [= Hs%bool_decide_eq_true]. unfold SocketTypes.init in E. simpl in E.
    repeat (apply lookup_insert_Some in E as [[<- <-]|[_ E]];
      [apply elem_of_singleton in Hs as ->; by apply list_elem_of_In; vm_compute; tauto|]).
    done. }
  split_and!.
  - destruct (decide (0 <= a < 12)%Z) as [Hz|Ho].
    + split; [|done]. intros Ht. apply twelve_cases in Hz.
      by destruct_or! Hz; subst a; vm_compute in Ht.
    + split; [done|]. intros _. unfold SocketTypes.canConnect.
      destruct (SocketTypes.connectable SocketTypes.init !! a) as [s|] eqn:E; [|done].
      exfalso. unfold SocketTypes.init in E. simpl in E.
      repeat (apply lookup_insert_Some in E as [[<- <-]|[_ E]]; [vm_compute in Ho; naive_solver|]).
      done.
  - intros H%Hp. repeat (apply elem_of_cons in H as [[= -> ->]|H]; [vm_compute; reflexivity|]).
    by apply not_elem_of_nil in H.
  - intros H1%Hp H2%Hp.
    repeat (apply elem_of_cons in H1 as [[= -> ->]|H1];
      [repeat (apply elem_of_cons in H2 as [H2|H2]; [congruence|]);
       by apply not_elem_of_nil in H2|]).
    by apply not_elem_of_nil in H1.
Qed.
