(* ===== verification/TopicStore.v ===== *)
(** * The directory's topic store (src/a17/dispatch/directory.h,
      directory.cpp, class DirectoryTopicStore)

    The store maps a topic name to the topics advertised under it, one per node
    guid, keeps the node's own topics apart, and calls observers back.

    [std::map] is [gmap] (iterated in key order with [map_iter] where the order
    is visible); the [observers] multimap is the list of its entries in insertion
    order, of which [equal_range] selects those with one key.  A handler is
    identified by a number; the calls an operation makes are returned as a list
    of notifications, in call order, each with the map the handler is shown. *)

From S2P Require Import Prelude Topics.

Module TopicStore.

Abbreviation GuidTopicMap := (gmap string DirectoryTopic).

Record DirectoryObserver : Type := mkObserver { handler : nat; ref : string }.

Record t : Type := mk {
  my_guid_ : string;
  local_topics_ : gmap string DirectoryTopic;
  network_topics_ : gmap string GuidTopicMap;
  observers : list (string * DirectoryObserver)
}.

(** [handler(topic_name, guid_topic_map)]. *)
Record notification : Type := Notify {
  n_handler : nat;
  n_topic : string;
  n_map : GuidTopicMap
}.

Definition init (my_guid : string) : t := mk my_guid ∅ ∅ [].

Definition set_local (s : t) (m : gmap string DirectoryTopic) : t :=
  mk (my_guid_ s) m (network_topics_ s) (observers s).

Definition set_network (s : t) (m : gmap string GuidTopicMap) : t :=
  mk (my_guid_ s) (local_topics_ s) m (observers s).

Definition set_observers (s : t) (l : list (string * DirectoryObserver)) : t :=
  mk (my_guid_ s) (local_topics_ s) (network_topics_ s) l.

(** [observers.equal_range(key)], as the handlers of the range. *)
Definition equal_range (s : t) (key : string) : list nat :=
  (λ e, handler e.2) <$> filter (λ e, e.1 = key) (observers s).

(** Observers of the topic first, then those of every topic (key [""]). *)
Definition callObservers (s : t) (topic_name : string) (m : GuidTopicMap) : list notification :=
  (λ h, Notify h topic_name m) <$> (equal_range s topic_name ++ equal_range s "").

Definition add (s : t) (topic : DirectoryTopic) : outcome (bool * t * list notification) :=
  let added_mine := bool_decide (dt_guid topic = my_guid_ s) in
  s1 ← (if added_mine then
          match local_topics_ s !! dt_name topic with
          | Some _ => Throw (runtime_error ("Duplicate topic: " +:+ dt_name topic))
          | None => Ret (set_local s (<[dt_name topic := topic]> (local_topics_ s)))
          end
        else Ret s);
  match network_topics_ s1 !! dt_name topic with
  | Some gm =>
      let gm' := <[dt_guid topic := topic]> gm in
      let updated :=
        (set_network s1 (<[dt_name topic := gm']> (network_topics_ s1)),
         callObservers s1 (dt_name topic) gm') in
      match gm !! dt_guid topic with
      | None => Ret (added_mine, updated.1, updated.2)
      | Some old =>
          if bool_decide (dt_address old ≠ dt_address topic)
          then Ret (added_mine, updated.1, updated.2)
          else Ret (added_mine, s1, [])
      end
  | None =>
      let gm := {[dt_guid topic := topic]} in
      Ret (added_mine, set_network s1 (<[dt_name topic := gm]> (network_topics_ s1)),
           callObservers s1 (dt_name topic) gm)
  end.

Definition remove (s : t) (guid topic_name : string) : bool * t * list notification :=
  let mine := bool_decide (guid = my_guid_ s) in
  let removed_mine := mine && bool_decide (is_Some (local_topics_ s !! topic_name)) in
  let s1 := if mine then set_local s (delete topic_name (local_topics_ s)) else s in
  match network_topics_ s1 !! topic_name with
  | Some gm =>
      let gm' := delete guid gm in
      let calls := if bool_decide (is_Some (gm !! guid)) then callObservers s1 topic_name gm' else [] in
      let net :=
        if bool_decide (gm' = ∅) then delete topic_name (network_topics_ s1)
        else <[topic_name := gm']> (network_topics_ s1) in
      (removed_mine, set_network s1 net, calls)
  | None => (removed_mine, s1, [])
  end.

(** One iteration of the loop of [evict], at the entry [(topic_name, gm)]. *)
Definition evict_entry (s : t) (guid : string)
    (acc : gmap string GuidTopicMap * list notification)
    (entry : string * GuidTopicMap) : gmap string GuidTopicMap * list notification :=
  let '(net, calls) := acc in
  let '(topic_name, gm) := entry in
  let gm' := delete guid gm in
  let calls' :=
    if bool_decide (is_Some (gm !! guid)) then calls ++ callObservers s topic_name gm' else calls in
  (if bool_decide (gm' = ∅) then delete topic_name net else <[topic_name := gm']> net, calls').

Definition evict (s : t) (guid : string) : t * list notification :=
  let '(net, calls) :=
    foldl (evict_entry s guid) (network_topics_ s, []) (map_iter (network_topics_ s)) in
  (set_network s net, calls).

(** [observe]; [uuid] is what [GenerateUuid()] returned. *)
Definition observe (s : t) (topic_name : string) (h : nat) (uuid : string) : t * string :=
  (set_observers s (observers s ++ [(topic_name, mkObserver h uuid)]), uuid).

Definition callImmediate (s : t) (topic_name : string) (h : nat) : list notification :=
  match network_topics_ s !! topic_name with
  | Some gm => [Notify h topic_name gm]
  | None => []
  end.

Definition unobserve (s : t) (topic_name uuid : string) : t :=
  set_observers s
    (filter (λ e, ¬ (e.1 = topic_name ∧ ref e.2 = uuid)) (observers s)).

Definition size (s : t) : nat := base.size (network_topics_ s).
Definition hasTopic (s : t) (topic_name : string) : bool :=
  bool_decide (is_Some (network_topics_ s !! topic_name)).

(** The loop over [observers] of [getMissing]. *)
Definition getMissing (s : t) : gset string :=
  foldl (λ topics e,
           if bool_decide (network_topics_ s !! e.1 = None) then topics ∪ {[e.1]} else topics)
        ∅ (observers s).

Definition localSize (s : t) : nat := base.size (local_topics_ s).
Definition findLocal (s : t) (topic_name : string) : option DirectoryTopic :=
  local_topics_ s !! topic_name.
(** [beginLocal() .. endLocal()]. *)
Definition locals (s : t) : list DirectoryTopic := (map_iter (local_topics_ s)).*2.

(** ** The store as a table indexed by topic name and guid *)

(** What is advertised under a name. *)
Definition view (s : t) (n : string) : GuidTopicMap := default ∅ (network_topics_ s !! n).

Definition table (s : t) : gmap (string * string) DirectoryTopic :=
  map_uncurry (M1 := gmap string) (M2 := gmap string) (M12 := gmap (string * string))
    (network_topics_ s).

Definition spec_add (m : gmap (string * string) DirectoryTopic) (topic : DirectoryTopic)
    : gmap (string * string) DirectoryTopic :=
  match m !! (dt_name topic, dt_guid topic) with
  | Some old =>
      if decide (dt_address old = dt_address topic) then m
      else <[(dt_name topic, dt_guid topic) := topic]> m
  | None => <[(dt_name topic, dt_guid topic) := topic]> m
  end.

Definition spec_evict (m : gmap (string * string) DirectoryTopic) (guid : string)
    : gmap (string * string) DirectoryTopic := filter (λ e, e.1.2 ≠ guid) m.

(** ** The invariant *)
Record wf (s : t) : Prop := {
  wf_nonempty : ∀ n gm, network_topics_ s !! n = Some gm → gm ≠ ∅;
  wf_keys : ∀ n g x, view s n !! g = Some x → dt_name x = n ∧ dt_guid x = g;
  wf_local : ∀ n, local_topics_ s !! n = view s n !! my_guid_ s
}.

(** An operation that turns [s] into [s'] notifies exactly the observers of the
    topics whose advertised set changed, with the new set. *)
Definition exact (s s' : t) (ns : list notification) : Prop :=
  ∀ n, filter (λ x, n_topic x = n) ns =
       if decide (view s n = view s' n) then [] else callObservers s n (view s' n).

(** The calls that the loop of [evict] makes at one entry. *)
Definition evict_calls (s : t) (guid : string) (entry : string * GuidTopicMap) : list notification :=
  if bool_decide (is_Some (entry.2 !! guid))
  then callObservers s entry.1 (delete guid entry.2) else [].

(** ** Histories of the store *)
Inductive op : Type :=
  | OAdd (topic : DirectoryTopic)
  | ORemove (guid topic_name : string)
  | OEvict (guid : string)
  | OObserve (topic_name : string) (h : nat) (uuid : string)
  | OUnobserve (topic_name uuid : string).

(** The directory evicts other nodes only. *)
Definition allowed (s : t) (o : op) : Prop :=
  match o with OEvict guid => guid ≠ my_guid_ s | _ => True end.

Definition step (s : t) (o : op) : outcome (bool * t * list notification) :=
  match o with
  | OAdd topic => add s topic
  | ORemove guid n => Ret (remove s guid n)
  | OEvict guid => let '(s', ns) := evict s guid in Ret (false, s', ns)
  | OObserve n h u => Ret (false, (observe s n h u).1, [])
  | OUnobserve n u => Ret (false, unobserve s n u, [])
  end.

Inductive reach (g : string) : t → Prop :=
  | reach_init : reach g (init g)
  | reach_step s o b s' ns :
      reach g s → allowed s o → step s o = Ret (b, s', ns) → reach g s'.

(** The same operations on the table. *)
Definition spec_step (g : string) (m : gmap (string * string) DirectoryTopic) (o : op)
    : outcome (bool * gmap (string * string) DirectoryTopic) :=
  match o with
  | OAdd topic =>
      if bool_decide (dt_guid topic = g) then
        if bool_decide (is_Some (m !! (dt_name topic, g)))
        then Throw (runtime_error ("Duplicate topic: " +:+ dt_name topic))
        else Ret (true, spec_add m topic)
      else Ret (false, spec_add m topic)
  | ORemove guid n =>
      Ret (bool_decide (guid = g) && bool_decide (is_Some (m !! (n, guid))), delete (n, guid) m)
  | OEvict guid => Ret (false, spec_evict m guid)
  | OObserve _ _ _ | OUnobserve _ _ => Ret (false, m)
  end.

(** ** Lemmas *)

Lemma view_init g n : view (init g) n = ∅.
Proof. done. Qed.

Lemma table_lookup s n g : table s !! (n, g) = view s n !! g.
Proof.
  unfold table, view. rewrite lookup_map_uncurry.
  destruct (network_topics_ s !! n); simpl; [done|]. by rewrite lookup_empty.
Qed.

Lemma filter_callObservers_eq s n gm :
  filter (λ x, n_topic x = n) (callObservers s n gm) = callObservers s n gm.
Proof.
  unfold callObservers. induction (equal_range s n ++ equal_range s "") as [|h l IH]; [done|].
  simpl. rewrite filter_cons_True by done. by f_equal.
Qed.

Lemma filter_callObservers_ne s n n' gm :
  n ≠ n' → filter (λ x, n_topic x = n) (callObservers s n' gm) = [].
Proof.
  intros Hne. unfold callObservers.
  induction (equal_range s n' ++ equal_range s "") as [|h l IH]; [done|].
  simpl. by rewrite filter_cons_False.
Qed.

(** A change confined to one topic name, notified once, is exact. *)
Lemma exact_single s s' n0 gm :
  (∀ n, n ≠ n0 → view s' n = view s n) → view s' n0 = gm → view s n0 ≠ gm →
  exact s s' (callObservers s n0 gm).
Proof.
  intros Hne Hn Hch n. destruct (decide (n = n0)) as [->|Hx].
  - rewrite decide_False by congruence. by rewrite filter_callObservers_eq, Hn.
  - rewrite decide_True by (symmetry; auto). by apply filter_callObservers_ne.
Qed.

Lemma exact_same s s' : (∀ n, view s' n = view s n) → exact s s' [].
Proof. intros Hv n. by rewrite decide_True. Qed.

Lemma view_insert s net n0 gm n :
  view (set_network s (<[n0 := gm]> net)) n =
  if decide (n = n0) then gm else default ∅ (net !! n).
Proof.
  unfold view. simpl. case_decide as Hn; [subst; by rewrite lookup_insert_eq|].
  by rewrite lookup_insert_ne.
Qed.

Lemma view_delete s net n0 n :
  view (set_network s (delete n0 net)) n =
  if decide (n = n0) then ∅ else default ∅ (net !! n).
Proof.
  unfold view. simpl. case_decide as Hn; [subst; by rewrite lookup_delete_eq|].
  by rewrite lookup_delete_ne.
Qed.

(** The three ways [add] ends, with their effect on the advertised sets. *)
Lemma add_cases s topic b s' ns :
  add s topic = Ret (b, s', ns) →
  b = bool_decide (dt_guid topic = my_guid_ s) ∧
  (b = true → local_topics_ s !! dt_name topic = None) ∧
  my_guid_ s' = my_guid_ s ∧ observers s' = observers s ∧
  local_topics_ s' = (if b then <[dt_name topic := topic]> (local_topics_ s) else local_topics_ s) ∧
  ((∃ old, view s (dt_name topic) !! dt_guid topic = Some old ∧
      dt_address old = dt_address topic ∧ network_topics_ s' = network_topics_ s ∧ ns = []) ∨
   (let gm := <[dt_guid topic := topic]> (view s (dt_name topic)) in
    (∀ old, view s (dt_name topic) !! dt_guid topic = Some old →
            dt_address old ≠ dt_address topic) ∧
    network_topics_ s' = <[dt_name topic := gm]> (network_topics_ s) ∧
    ns = callObservers s (dt_name topic) gm)).
Proof.
  unfold add. intros (s1 & Hs1 & Hadd)%bind_Ret_inv.
  assert (network_topics_ s1 = network_topics_ s ∧ my_guid_ s1 = my_guid_ s ∧
          observers s1 = observers s ∧
          (bool_decide (dt_guid topic = my_guid_ s) = true → local_topics_ s !! dt_name topic = None) ∧
          local_topics_ s1 =
            (if bool_decide (dt_guid topic = my_guid_ s)
             then <[dt_name topic := topic]> (local_topics_ s) else local_topics_ s))
    as (Hn & Hg & Ho & Hd & Hl).
  { destruct (bool_decide (dt_guid topic = my_guid_ s)) eqn:E.
    - destruct (local_topics_ s !! dt_name topic) eqn:El; [done|]. by simplify_eq/=.
    - by simplify_eq/=. }
  assert (∀ n m, callObservers s1 n m = callObservers s n m) as Hco.
  { intros. unfold callObservers, equal_range. by rewrite Ho. }
  clear Hs1. revert Hadd Hd Hl.
  generalize (bool_decide (dt_guid topic = my_guid_ s)) as mine. intros mine Hadd Hd Hl.
  rewrite Hn in Hadd. unfold view.
  destruct (network_topics_ s !! dt_name topic) as [gm|] eqn:E; simpl in Hadd |- *.
  - destruct (gm !! dt_guid topic) as [old|] eqn:Eg.
    + case_bool_decide as Ha; simplify_eq/=; rewrite ?Hn, ?Hco; split_and!; try done.
      * right. split_and!; [|done..]. naive_solver.
      * left. exists old. by split_and!.
    + simplify_eq/=. rewrite ?Hn, ?Hco. split_and!; try done. right. naive_solver.
  - simplify_eq/=. rewrite ?Hn, ?Hco. split_and!; try done.
    right. rewrite insert_empty, lookup_empty. naive_solver.
Qed.

Lemma add_view s topic b s' ns n :
  add s topic = Ret (b, s', ns) →
  view s' n =
  if decide (n = dt_name topic) then
    match view s n !! dt_guid topic with
    | Some old => if decide (dt_address old = dt_address topic) then view s n
                  else <[dt_guid topic := topic]> (view s n)
    | None => <[dt_guid topic := topic]> (view s n)
    end
  else view s n.
Proof.
  intros (_ & _ & _ & _ & _ & [(old & Hv & Ha & Hnet & _)|(Hd & Hnet & _)])%add_cases.
  - unfold view at 1. rewrite Hnet. fold (view s n). case_decide; [subst|done].
    by rewrite Hv, decide_True.
  - unfold view at 1. rewrite Hnet. case_decide as Hn.
    + subst n. rewrite lookup_insert_eq. simpl.
      destruct (view s (dt_name topic) !! dt_guid topic) eqn:E; [|done].
      by rewrite decide_False by auto.
    + rewrite lookup_insert_ne by done. done.
Qed.

Lemma add_exact s topic b s' ns : add s topic = Ret (b, s', ns) → exact s s' ns.
Proof.
  intros Hadd. pose proof (λ n, add_view s topic b s' ns n Hadd) as Hv.
  apply add_cases in Hadd as (_ & _ & _ & _ & _ & [(old & Hold & Ha & Hnet & ->)|(Hd & Hnet & ->)]).
  - apply exact_same. intros n. unfold view. by rewrite Hnet.
  - apply exact_single.
    + intros n Hn. by rewrite Hv, decide_False.
    + unfold view at 1. by rewrite Hnet, lookup_insert_eq.
    + intros Heq. pose proof (lookup_insert_eq (view s (dt_name topic)) (dt_guid topic) topic) as Hl.
      rewrite <- Heq in Hl. by apply Hd in Hl.
Qed.

Lemma remove_view s guid topic_name n :
  view (remove s guid topic_name).1.2 n =
  if decide (n = topic_name) then delete guid (view s n) else view s n.
Proof.
  unfold remove. set (s1 := if bool_decide (guid = my_guid_ s) then _ else s).
  assert (network_topics_ s1 = network_topics_ s) as Hn by (unfold s1; by case_bool_decide).
  assert (view s1 n = view s n) as Hv by (unfold view; by rewrite Hn).
  rewrite Hn. destruct (network_topics_ s !! topic_name) as [gm|] eqn:E; simpl.
  - assert (view s topic_name = gm) as Hgm by (unfold view; by rewrite E).
    case_bool_decide as Hem; rewrite ?view_delete, ?view_insert;
      case_decide; subst; rewrite ?Hgm; done.
  - rewrite Hv. case_decide; [subst|done]. unfold view. rewrite E. simpl.
    by rewrite delete_empty.
Qed.

Lemma remove_exact s guid topic_name :
  exact s (remove s guid topic_name).1.2 (remove s guid topic_name).2.
Proof.
  pose proof (remove_view s guid topic_name) as Hv. revert Hv. unfold remove.
  set (s1 := if bool_decide (guid = my_guid_ s) then _ else s).
  assert (network_topics_ s1 = network_topics_ s) as Hn by (unfold s1; by case_bool_decide).
  assert (∀ n m, callObservers s1 n m = callObservers s n m) as Hco.
  { intros. unfold callObservers, equal_range, s1. by case_bool_decide. }
  rewrite Hn. destruct (network_topics_ s !! topic_name) as [gm|] eqn:E; simpl; intros Hv.
  - assert (view s topic_name = gm) as Hgm by (unfold view; by rewrite E).
    rewrite Hco. destruct (gm !! guid) as [x|] eqn:Eg.
    + rewrite (bool_decide_eq_true_2 (is_Some (Some x))) by eauto. apply exact_single.
      * intros n Hne. by rewrite Hv, decide_False.
      * by rewrite Hv, decide_True, Hgm.
      * rewrite Hgm. intros Heq. rewrite Heq, lookup_delete_eq in Eg. done.
    + rewrite (bool_decide_eq_false_2 (is_Some None)) by (by intros []). apply exact_same.
      intros n. rewrite Hv. destruct (decide (n = topic_name)) as [->|]; [|done]. rewrite Hgm. by apply delete_id.
  - apply exact_same. intros n. unfold view. by rewrite Hn.
Qed.

Lemma evict_fold_lookup s guid l net calls n :
  NoDup l.*1 →
  (foldl (evict_entry s guid) (net, calls) l).1 !! n =
  match list_find (λ e, e.1 = n) l with
  | Some (_, (_, gm)) =>
      if bool_decide (delete guid gm = ∅) then None else Some (delete guid gm)
  | None => net !! n
  end.
Proof.
  revert net calls. induction l as [|[k gm] l IH]; intros net calls; [done|].
  cbn [fmap list_fmap foldl evict_entry fst]. intros [Hk Hl]%NoDup_cons.
  rewrite IH by done. cbn [list_find fst].
  destruct (decide (k = n)) as [->|Hkn].
  - assert (list_find (λ e : string * GuidTopicMap, e.1 = n) l = None) as ->.
    { apply list_find_None, Forall_forall. intros [k' m'] He Hk'. simpl in Hk'. subst k'.
      apply Hk, list_elem_of_fmap. by exists (n, m'). }
    cbn. case_bool_decide; [by rewrite lookup_delete_eq|by rewrite lookup_insert_eq].
  - destruct (list_find (λ e : string * GuidTopicMap, e.1 = n) l) as [[i [k' m']]|]; [done|].
    cbn. case_bool_decide; [by rewrite lookup_delete_ne|by rewrite lookup_insert_ne].
Qed.

Lemma evict_fold_calls s guid l net calls :
  (foldl (evict_entry s guid) (net, calls) l).2 = calls ++ (l ≫= evict_calls s guid).
Proof.
  revert net calls. induction l as [|[k gm] l IH]; intros net calls; simpl; [by rewrite app_nil_r|].
  rewrite IH. unfold evict_calls at 2. simpl.
  case_bool_decide; simpl; [by rewrite <- app_assoc|done].
Qed.

Lemma filter_evict_calls s guid e n :
  filter (λ x, n_topic x = n) (evict_calls s guid e) =
  if decide (e.1 = n) then evict_calls s guid e else [].
Proof.
  unfold evict_calls. case_bool_decide; case_decide as Hn; try done; [subst|].
  - apply filter_callObservers_eq.
  - by apply filter_callObservers_ne.
Qed.

Lemma filter_evict_fold s guid l n :
  NoDup l.*1 →
  filter (λ x, n_topic x = n) (l ≫= evict_calls s guid) =
  match list_find (λ e, e.1 = n) l with
  | Some (_, e) => evict_calls s guid e
  | None => []
  end.
Proof.
  induction l as [|[k gm] l IH]; [done|]. intros [Hk Hl]%NoDup_cons.
  cbn [mbind list_bind list_find fst]. rewrite filter_app, filter_evict_calls, IH by done.
  cbn [fst]. destruct (decide (k = n)) as [->|Hkn].
  - assert (list_find (λ e : string * GuidTopicMap, e.1 = n) l = None) as ->.
    { apply list_find_None, Forall_forall. intros [k' m'] He Hk'. simpl in Hk'. subst k'.
      apply Hk, list_elem_of_fmap. by exists (n, m'). }
    by rewrite app_nil_r.
  - by destruct (list_find (λ e : string * GuidTopicMap, e.1 = n) l) as [[i e]|].
Qed.

(** Looking a key up in the ordered iteration. *)
Lemma list_find_map_iter {V} (m : gmap string V) n :
  match list_find (λ e, e.1 = n) (map_iter m) with
  | Some (_, e) => e.1 = n ∧ m !! n = Some e.2
  | None => m !! n = None
  end.
Proof.
  destruct (list_find _ _) as [[i [k v]]|] eqn:E.
  - apply list_find_Some in E as (He & Hk & _). simpl in *. subst k. split; [done|].
    apply elem_of_map_iter. by eapply list_elem_of_lookup_2.
  - apply list_find_None in E. destruct (m !! n) as [v|] eqn:Em; [|done].
    apply elem_of_map_iter in Em. rewrite Forall_forall in E. by apply E in Em.
Qed.

Lemma evict_net s guid :
  network_topics_ (evict s guid).1 =
    (foldl (evict_entry s guid) (network_topics_ s, []) (map_iter (network_topics_ s))).1 ∧
  (evict s guid).2 = map_iter (network_topics_ s) ≫= evict_calls s guid ∧
  my_guid_ (evict s guid).1 = my_guid_ s ∧ local_topics_ (evict s guid).1 = local_topics_ s ∧
  observers (evict s guid).1 = observers s.
Proof.
  unfold evict.
  pose proof (evict_fold_calls s guid (map_iter (network_topics_ s)) (network_topics_ s) []) as Hc.
  destruct (foldl _ _ _) as [net calls]. by simpl in *.
Qed.

Lemma evict_view s guid n : view (evict s guid).1 n = delete guid (view s n).
Proof.
  destruct (evict_net s guid) as (Hnet & _). unfold view. rewrite Hnet.
  rewrite evict_fold_lookup by auto with a17.
  pose proof (list_find_map_iter (network_topics_ s) n) as Hf.
  destruct (list_find _ _) as [[i [k gm]]|]; simpl in Hf.
  - destruct Hf as [-> ->]. case_bool_decide as Hd; simpl; [by rewrite Hd|done].
  - rewrite Hf. simpl. by rewrite delete_empty.
Qed.

Lemma evict_exact s guid : exact s (evict s guid).1 (evict s guid).2.
Proof.
  intros n. destruct (evict_net s guid) as (_ & -> & _). rewrite evict_view.
  rewrite filter_evict_fold by auto with a17.
  pose proof (list_find_map_iter (network_topics_ s) n) as Hf.
  unfold view. destruct (list_find _ _) as [[i [k gm]]|]; simpl in Hf.
  - destruct Hf as [-> ->]. unfold evict_calls. simpl.
    destruct (gm !! guid) as [x|] eqn:Eg.
    + rewrite bool_decide_eq_true_2 by eauto. rewrite decide_False; [done|].
      intros Heq. rewrite Heq, lookup_delete_eq in Eg. done.
    + rewrite bool_decide_eq_false_2 by (by intros []).
      by rewrite decide_True by (by rewrite delete_id).
  - rewrite Hf. simpl. by rewrite decide_True by (by rewrite delete_empty).
Qed.


Lemma table_ext s m : (∀ n g, view s n !! g = m !! (n, g)) → table s = m.
Proof. intros H. apply map_eq. intros [n g]. by rewrite table_lookup. Qed.

Lemma add_table s topic b s' ns :
  add s topic = Ret (b, s', ns) → table s' = spec_add (table s) topic.
Proof.
  intros Hadd. apply table_ext. intros n g. rewrite (add_view _ _ _ _ _ n Hadd).
  unfold spec_add. rewrite table_lookup.
  destruct (decide (n = dt_name topic)) as [->|Hn].
  - destruct (view s (dt_name topic) !! dt_guid topic) as [old|] eqn:E;
      [case_decide; [by rewrite table_lookup|]|];
      (destruct (decide (g = dt_guid topic)) as [->|Hg];
       [by rewrite !lookup_insert_eq|rewrite !lookup_insert_ne by congruence; by rewrite table_lookup]).
  - destruct (view s (dt_name topic) !! dt_guid topic); [case_decide|];
      rewrite ?lookup_insert_ne by congruence; by rewrite table_lookup.
Qed.

Lemma remove_table s guid n : table (remove s guid n).1.2 = delete (n, guid) (table s).
Proof.
  apply table_ext. intros n' g. rewrite remove_view. case_decide as Hn.
  - subst. destruct (decide (g = guid)) as [->|]; [by rewrite !lookup_delete_eq|].
    rewrite !lookup_delete_ne by congruence. by rewrite table_lookup.
  - rewrite lookup_delete_ne by congruence. by rewrite table_lookup.
Qed.

Lemma evict_table s guid : table (evict s guid).1 = spec_evict (table s) guid.
Proof.
  apply table_ext. intros n g. rewrite evict_view. unfold spec_evict.
  destruct (decide (g = guid)) as [->|Hg].
  - rewrite lookup_delete_eq. symmetry. apply map_lookup_filter_None. naive_solver.
  - rewrite lookup_delete_ne by done. rewrite map_lookup_filter, table_lookup.
    destruct (view s n !! g); simpl; [|done]. by rewrite option_guard_True.
Qed.

Lemma wf_init g : wf (init g).
Proof. split; simpl; intros; [done|done|]. by rewrite view_init, lookup_empty. Qed.

Lemma add_Ret s topic :
  dt_guid topic ≠ my_guid_ s ∨ local_topics_ s !! dt_name topic = None →
  ∃ b s' ns, add s topic = Ret (b, s', ns).
Proof.
  intros H. unfold add.
  assert (∃ s1, (if bool_decide (dt_guid topic = my_guid_ s) then
     match local_topics_ s !! dt_name topic with
     | Some _ => Throw (runtime_error ("Duplicate topic: " +:+ dt_name topic))
     | None => Ret (set_local s (<[dt_name topic:=topic]> (local_topics_ s)))
     end else Ret s) = Ret s1) as [s1 ->].
  { case_bool_decide; [|eauto]. destruct H as [|H]; [done|]. rewrite H. eauto. }
  simpl. destruct (network_topics_ s1 !! dt_name topic) as [gm|]; [|eauto].
  destruct (gm !! dt_guid topic); [case_bool_decide|]; eauto.
Qed.

Lemma add_wf s topic b s' ns : wf s → add s topic = Ret (b, s', ns) → wf s'.
Proof.
  intros [Hne Hk Hl] Hadd. pose proof (λ n, add_view _ _ _ _ _ n Hadd) as Hv.
  apply add_cases in Hadd as (-> & Hdup & Hg & _ & Hloc & Hnet).
  split.
  - intros n gm. destruct Hnet as [(? & _ & _ & -> & _)|(_ & -> & _)]; [apply Hne|].
    rewrite lookup_insert_Some. intros [[<- <-]|[_ Hn]]; [|by eapply Hne].
    apply insert_non_empty.
  - intros n g x. rewrite Hv. destruct (decide (n = dt_name topic)) as [->|Hn]; [|apply Hk].
    destruct (view s (dt_name topic) !! dt_guid topic) as [old|];
      [destruct (decide (dt_address old = dt_address topic)); [apply Hk|]|];
      (rewrite lookup_insert_Some; intros [[<- <-]|[_ Hx]]; [done|by apply Hk]).
  - intros n. rewrite Hv, Hg, Hloc.
    destruct (decide (dt_guid topic = my_guid_ s)) as [Hm|Hm].
    + rewrite bool_decide_eq_true_2 in * by done.
      specialize (Hdup eq_refl). pose proof Hdup as Hd'. rewrite Hl, <- Hm in Hd'.
      destruct (decide (n = dt_name topic)) as [->|Hn].
      * rewrite Hd', <- Hm. by rewrite !lookup_insert_eq.
      * by rewrite lookup_insert_ne by done.
    + rewrite bool_decide_eq_false_2 by done.
      destruct (decide (n = dt_name topic)) as [->|Hn]; [|done].
      destruct (view s (dt_name topic) !! dt_guid topic) as [old|];
        [destruct (decide (dt_address old = dt_address topic)); [done|]|];
        by rewrite lookup_insert_ne by done.
Qed.

Lemma remove_wf s guid n : wf s → wf (remove s guid n).1.2.
Proof.
  intros [Hne Hk Hl]. pose proof (remove_view s guid n) as Hv.
  assert (my_guid_ (remove s guid n).1.2 = my_guid_ s ∧
          local_topics_ (remove s guid n).1.2 =
            (if bool_decide (guid = my_guid_ s) then delete n (local_topics_ s) else local_topics_ s))
    as [Hg Hloc].
  { unfold remove. by destruct (bool_decide (guid = my_guid_ s)); simpl;
      destruct (network_topics_ s !! n). }
  split.
  - clear Hv. unfold remove. set (s1 := if bool_decide (guid = my_guid_ s) then _ else s).
    assert (network_topics_ s1 = network_topics_ s) as Hn by (unfold s1; by case_bool_decide).
    rewrite Hn. destruct (network_topics_ s !! n) as [gm|] eqn:E; simpl; [|rewrite Hn; apply Hne].
    case_goal; intros n' gm'.
    + rewrite lookup_delete_Some. intros [_ ?]. by eapply Hne.
    + rewrite lookup_insert_Some. intros [[<- <-]|[_ ?]]; [done|by eapply Hne].
  - intros n' g x. rewrite Hv. destruct (decide (n' = n)); [|apply Hk].
    rewrite lookup_delete_Some. intros [_ ?]. by apply Hk.
  - intros n'. rewrite Hv, Hg, Hloc.
    destruct (decide (guid = my_guid_ s)) as [Hm|Hm];
      [rewrite bool_decide_eq_true_2 by done|rewrite bool_decide_eq_false_2 by done];
      destruct (decide (n' = n)) as [->|Hn]; rewrite ?Hm, ?lookup_delete_eq,
        ?lookup_delete_ne by done; done || apply Hl.
Qed.

Lemma evict_wf s guid : wf s → guid ≠ my_guid_ s → wf (evict s guid).1.
Proof.
  intros [Hne Hk Hl] Hmine. pose proof (evict_view s guid) as Hv.
  destruct (evict_net s guid) as (Hnet & _ & Hg & Hloc & _). split.
  - intros n gm. rewrite Hnet, evict_fold_lookup by auto with a17.
    pose proof (list_find_map_iter (network_topics_ s) n) as Hf.
    destruct (list_find _ _) as [[i [k m]]|]; simpl in Hf; [|by rewrite Hf].
    case_bool_decide; [done|]. by intros [= <-].
  - intros n g x. rewrite Hv, lookup_delete_Some. intros [_ ?]. by apply Hk.
  - intros n. rewrite Hv, Hg, Hloc, lookup_delete_ne by done. apply Hl.
Qed.

Lemma wf_set_observers s l : wf s → wf (set_observers s l).
Proof. intros [Hne Hk Hl]. by split. Qed.

#[local] Hint Resolve wf_init add_wf remove_wf evict_wf wf_set_observers : a17.

Lemma step_wf s o b s' ns : wf s → allowed s o → step s o = Ret (b, s', ns) → wf s'.
Proof.
  intros Hwf Ha. destruct o; simpl in *; intros Hs.
  - by eapply add_wf.
  - pose proof (remove_wf s guid topic_name Hwf) as Hr. injection Hs as Hs. by rewrite Hs in Hr.
  - pose proof (evict_wf s guid Hwf Ha). destruct (evict s guid). by simplify_eq/=.
  - simplify_eq/=. by apply wf_set_observers.
  - simplify_eq/=. by apply wf_set_observers.
Qed.

Lemma reach_wf g s : reach g s → wf s ∧ my_guid_ s = g.
Proof.
  induction 1 as [|s o b s' ns Hr [IH Hg] Ha Hs]; [split; [apply wf_init|done]|].
  split; [by eapply step_wf|]. rewrite <- Hg. destruct o; simpl in *.
  - by apply add_cases in Hs as (_ & _ & -> & _).
  - unfold remove in Hs. destruct (bool_decide _); simpl in Hs;
      destruct (network_topics_ s !! topic_name); by simplify_eq/=.
  - pose proof (evict_net s guid) as (_ & _ & Hm & _). destruct (evict s guid). by simplify_eq/=.
  - by simplify_eq/=.
  - by simplify_eq/=.
Qed.

Lemma removed_flag s guid n :
  wf s →
  (remove s guid n).1.1 = bool_decide (guid = my_guid_ s) && bool_decide (is_Some (table s !! (n, guid))).
Proof.
  intros [_ _ Hl]. rewrite table_lookup. unfold remove. rewrite Hl.
  case_bool_decide as Hm; simpl; [subst|]; by destruct (network_topics_ s !! n).
Qed.

Lemma observe_exact s l : exact s (set_observers s l) [].
Proof. by apply exact_same. Qed.

Lemma elem_of_getMissing s n :
  n ∈ getMissing s ↔ (∃ o, (n, o) ∈ observers s) ∧ network_topics_ s !! n = None.
Proof.
  unfold getMissing.
  assert (∀ l (X : gset string), n ∈ foldl (λ topics e,
             if bool_decide (network_topics_ s !! e.1 = None) then topics ∪ {[e.1]} else topics) X l ↔
           n ∈ X ∨ (∃ o : DirectoryObserver, (n, o) ∈ l) ∧ network_topics_ s !! n = None) as H.
  { induction l as [|[k o] l IH]; intros X; simpl; [set_solver|].
    rewrite IH. case_bool_decide; set_solver. }
  rewrite H. set_solver.
Qed.


(** One operation on a well-formed store against the same operation on the table. *)
Lemma step_refines s o :
  wf s → allowed s o →
  match step s o with
  | Ret (b, s', ns) =>
      spec_step (my_guid_ s) (table s) o = Ret (b, table s') ∧ exact s s' ns
  | Throw e => spec_step (my_guid_ s) (table s) o = Throw e
  | Undef => False
  end.
Proof.
  intros Hwf Ha. pose proof (wf_local s Hwf) as Hl. destruct o; simpl in *.
  - rewrite table_lookup, <- Hl. destruct (decide (dt_guid topic = my_guid_ s)) as [Hm|Hm].
    + destruct (local_topics_ s !! dt_name topic) as [x|] eqn:El.
      * unfold add. by rewrite !bool_decide_eq_true_2, El by eauto.
      * destruct (add_Ret s topic) as (b & s' & ns & Hadd); [by right|]. rewrite Hadd.
        rewrite (add_table _ _ _ _ _ Hadd). split; [|by eapply add_exact].
        apply add_cases in Hadd as (-> & _). rewrite bool_decide_eq_true_2 by done.
        by rewrite bool_decide_eq_false_2 by (by intros []).
    + destruct (add_Ret s topic) as (b & s' & ns & Hadd); [by left|]. rewrite Hadd.
      rewrite (add_table _ _ _ _ _ Hadd). split; [|by eapply add_exact].
      apply add_cases in Hadd as (-> & _). by rewrite bool_decide_eq_false_2.
  - pose proof (remove_table s guid topic_name) as Ht. pose proof (removed_flag s guid topic_name Hwf) as Hf.
    pose proof (remove_exact s guid topic_name) as He.
    destruct (remove s guid topic_name) as [[b s'] ns]. simpl in *. by rewrite Ht, Hf.
  - pose proof (evict_table s guid) as Ht. pose proof (evict_exact s guid) as He.
    destruct (evict s guid) as [s' ns]. simpl in *. by rewrite Ht.
  - split; [done|apply observe_exact].
  - split; [done|apply observe_exact].
Qed.

(** ** Properties *)

(** C10. The store refines a table keyed by (topic name, node guid): in every state the
    directory can reach, [add], [remove] and [evict] act on the table as one keyed insertion
    (skipped when the address is unchanged), one keyed deletion and the deletion of a
    node's rows; a second local topic of the same name is refused with an exception;
    and the observers called are exactly those of the topics whose set of providers
    changed, each shown the new set. *)
Theorem store_refines_table g s o :
  reach g s → allowed s o →
  match step s o with
  | Ret (b, s', ns) => spec_step g (table s) o = Ret (b, table s') ∧ exact s s' ns
  | Throw e => spec_step g (table s) o = Throw e
  | Undef => False
  end.
Proof. intros [Hwf <-]%reach_wf Ha. by apply step_refines. Qed.

(** C30. Store invariant: along every history, no topic name is kept without a provider,
    every entry is filed under its own name and guid, and the local topics are exactly
    the node's own rows of the network table. *)
Theorem store_invariant g s : reach g s → wf s.
Proof. intros Hr. by apply (reach_wf g). Qed.

(** What the directory searches for: the observed names (the empty name of
    catch-all observers included) that no node provides; removing the observers of a
    name removes it from the search. *)
Theorem getMissing_spec g s n :
  reach g s →
  (n ∈ getMissing s ↔ (∃ o, (n, o) ∈ observers s) ∧ ∀ guid, table s !! (n, guid) = None).
Proof.
  intros [Hwf _]%reach_wf. rewrite elem_of_getMissing. f_equiv.
  setoid_rewrite table_lookup. unfold view.
  destruct (network_topics_ s !! n) as [gm|] eqn:E; simpl.
  - split; [done|]. intros H. exfalso. apply (wf_nonempty s Hwf n gm E).
    by apply map_empty.
  - split; [|done]. intros _ guid. by rewrite lookup_empty.
Qed.

(** ** Witnesses *)
Definition demo_topic (n g a : string) : DirectoryTopic :=
  mkDirectoryTopic n 0 1 a ∅ ∅ g "".

Definition demo_observed : t :=
  (observe (observe (init "me") "t" 7 "u").1 "" 8 "v").1.

Definition demo_entry : DirectoryTopic := demo_topic "t" "a" "tcp://10.0.0.2:5000".

Definition demo_store : t :=
  set_network demo_observed {["t" := {["a" := demo_entry]}]}.

Lemma demo_store_reach : reach "me" demo_store.
Proof.
  apply (reach_step "me" demo_observed (OAdd demo_entry) false demo_store
           [Notify 7 "t" {["a" := demo_entry]}; Notify 8 "t" {["a" := demo_entry]}]);
    [|done|vm_compute; reflexivity].
  apply (reach_step "me" (observe (init "me") "t" 7 "u").1 (OObserve "" 8 "v") false _ []);
    [|done|done].
  apply (reach_step "me" (init "me") (OObserve "t" 7 "u") false _ []); [|done|done].
  apply reach_init.
Qed.

Lemma store_refines_table_witness :
  (evict demo_store "a").2 = [Notify 7 "t" ∅; Notify 8 "t" ∅] ∧
  exact demo_store (evict demo_store "a").1 (evict demo_store "a").2.
Proof.
  split; [vm_compute; reflexivity|].
  assert (Ha : allowed demo_store (OEvict "a")) by done.
  pose proof (store_refines_table "me" demo_store (OEvict "a") demo_store_reach Ha) as H.
  cbn [step] in H. destruct (evict demo_store "a"). apply H.
Defined.

Lemma store_invariant_witness : view demo_store "t" ≠ ∅.
Proof.
  apply (wf_nonempty demo_store (store_invariant "me" demo_store demo_store_reach) "t").
  vm_compute. reflexivity.
Defined.

Lemma getMissing_spec_witness : "" ∈ getMissing demo_store ∧ "t" ∉ getMissing demo_store.
Proof.
  split.
  - apply (getMissing_spec "me" demo_store "" demo_store_reach). split.
    + exists (mkObserver 8 "v"). apply list_elem_of_lookup. by exists 1.
    + intros guid. rewrite table_lookup. vm_compute. by destruct guid.
  - rewrite (getMissing_spec "me" demo_store "t" demo_store_reach).
    intros [_ H]. specialize (H "a"). by vm_compute in H.
Defined.

End TopicStore.
