(* ===== verification/Wire.v ===== *)
(** * Text of directory messages (src/a17/dispatch/directory.cpp)

    The parts of [Directory] that read and write message text: [nextToken] over
    the receive buffer, [buildTopicInfo], [writeTypes] and [parseTypes].

    A [char] array is a [list ascii]; a pointer into it is an offset, and a read
    or write outside the array is [Undef].  [std::ostringstream] is the text
    written so far. *)

From S2P Require Import Prelude Topics.

Definition EVENT_BUFFER_SIZE : nat := 1500.
Definition DISPATCH : string := "DISPATCH ".
Definition NO_TYPES : string := ".".
Definition SEP : ascii := "|"%char.

Definition DISCOVERY_EXIT : ascii := "X"%char.
Definition DISCOVERY_AVAILABLE : ascii := "A"%char.
Definition DISCOVERY_REMOVE : ascii := "R"%char.
Definition DISCOVERY_SEARCH : ascii := "S"%char.

(** ** [nextToken(event, start)] with [event = &buf[base]] *)

(** The loop: the index where it stops.  [n] bounds the iterations left before
    [end] reaches [EVENT_BUFFER_SIZE]. *)
Fixpoint token_end (buf : list ascii) (base end_ n : nat) : outcome nat :=
  match n with
  | O => Ret end_
  | S n' =>
      c ← rd buf (base + end_);
      if decide (c = SPC) then Ret end_
      else if decide (c = NUL) then Ret end_
      else token_end buf base (S end_) n'
  end.

Definition nextToken (buf : list ascii) (base start : nat) : outcome (list ascii * nat) :=
  if decide (EVENT_BUFFER_SIZE <= start) then Ret (buf, start)
  else
    end_ ← token_end buf base start (EVENT_BUFFER_SIZE - start);
    if decide (end_ = EVENT_BUFFER_SIZE) then Ret (buf, end_)
    else
      c ← rd buf (base + end_);
      if decide (c = NUL) then Ret (buf, end_)
      else
        buf' ← wr buf (base + end_) NUL;
        Ret (buf', S end_).

(** [strncmp(&buf[p], s, n) == 0] for a text [s] of [n] characters without NUL. *)
Fixpoint starts_with (buf : list ascii) (p : nat) (s : string) : outcome bool :=
  match s with
  | EmptyString => Ret true
  | String c s' =>
      b ← rd buf p;
      if decide (b = c) then starts_with buf (S p) s' else Ret false
  end.

(** ** Types of a topic *)

(** The inner loop of [writeTypes]: [sprintf(buf, "%c", id); os << buf]. *)
Fixpoint write_type (os : list ascii) (buf0 : ascii) (type : list ascii) : list ascii * ascii :=
  match type with
  | [] => (os, buf0)
  | id :: type' => write_type (if decide (id = NUL) then os else os ++ [id]) id type'
  end.

(** The outer loop; [buf0] is [*buf]. *)
Fixpoint write_types (os : list ascii) (buf0 : ascii) (types : list string) : list ascii :=
  match types with
  | [] => os
  | type :: types' =>
      let os1 := if decide (buf0 = NUL) then os else os ++ [SEP] in
      let '(os2, buf1) := write_type os1 buf0 (chars type) in
      write_types os2 buf1 types'
  end.

Definition writeTypes (os : list ascii) (types : gset string) : list ascii :=
  if decide (types = ∅) then os ++ chars NO_TYPES
  else write_types os NUL (set_iter types).

Definition parseTypes (types : gset string) (s : string) : gset string :=
  if decide (s = "" ∨ s = NO_TYPES) then types
  else foldl (λ X raw, X ∪ {[str raw]}) types (split_on SEP (chars s)).

Definition buildTopicInfo (name : string) (socketType : Z) (address : string)
    (inputTypes outputTypes : gset string) : outcome string :=
  type ← SocketTypes.fromType socketType;
  let os := chars (name +:+ " " +:+ type +:+ " " +:+ address +:+ " ") in
  let os := writeTypes os inputTypes in
  let os := os ++ [SPC] in
  let os := writeTypes os outputTypes in
  Ret (str os).

(** ** Words: what the tokenizer computes *)

(** A text with a terminator inside an array. *)
Definition text_at (buf : list ascii) (p : nat) (l : list ascii) : Prop :=
  (NUL ∉ l) ∧ ∃ rest, drop p buf = l ++ NUL :: rest.

(** A token: no separator and no terminator inside. *)
Definition word (w : list ascii) : Prop := (SPC ∉ w) ∧ (NUL ∉ w).

(** The first word of a text and what follows its separator. *)
Fixpoint break (l : list ascii) : list ascii * option (list ascii) :=
  match l with
  | [] => ([], None)
  | c :: l' =>
      if decide (c = SPC) then ([], Some l')
      else let '(w, r) := break l' in (c :: w, r)
  end.

(** Type names the wire format can carry. *)
Definition type_ok (ty : string) : Prop :=
  ty ≠ "" ∧ (NUL ∉ chars ty) ∧ (SPC ∉ chars ty) ∧ (SEP ∉ chars ty).

Definition types_ok (types : gset string) : Prop :=
  set_Forall type_ok types ∧ types ≠ {[NO_TYPES]}.

(** ** Lemmas *)

Lemma text_at_rd buf p l i c :
  text_at buf p l → l !! i = Some c → rd buf (p + i) = Ret c ∧ c ≠ NUL.
Proof.
  intros (Hn & rest & Hd) Hi. split.
  - apply rd_Ret. rewrite <- lookup_drop, Hd. by apply lookup_app_l_Some.
  - intros ->. apply Hn. by eapply list_elem_of_lookup_2.
Qed.

Lemma text_at_end buf p l : text_at buf p l → rd buf (p + length l) = Ret NUL.
Proof.
  intros (Hn & rest & Hd). apply rd_Ret. rewrite <- lookup_drop, Hd.
  by rewrite lookup_app_r, Nat.sub_diag by lia.
Qed.

Lemma text_at_length buf p l : text_at buf p l → p + length l < length buf.
Proof.
  intros (Hn & rest & Hd). apply (f_equal length) in Hd. revert Hd.
  rewrite length_drop, length_app. simpl. lia.
Qed.

Lemma text_at_skip buf p l1 l2 : text_at buf p (l1 ++ l2) → text_at buf (p + length l1) l2.
Proof.
  intros (Hn & rest & Hd). split; [set_solver|]. exists rest.
  rewrite <- drop_drop, Hd, <- app_assoc. by rewrite drop_app_length.
Qed.

Lemma text_at_cstr buf p l : text_at buf p l → cstr buf p = Ret (str l).
Proof.
  intros (Hn & rest & Hd). unfold cstr. rewrite Hd.
  rewrite <- (chars_str l) at 1. apply cstr_list_app. by rewrite chars_str.
Qed.

(** Overwriting the separator after a word terminates the word and keeps the rest. *)
Lemma text_at_cut buf p w l :
  text_at buf p (w ++ SPC :: l) →
  text_at (<[p + length w := NUL]> buf) p w ∧
  text_at (<[p + length w := NUL]> buf) (p + S (length w)) l.
Proof.
  intros Ht. pose proof (text_at_length _ _ _ Ht) as Hlen.
  destruct Ht as (Hn & rest & Hd). rewrite length_app in Hlen. simpl in Hlen.
  assert (drop p (<[p + length w := NUL]> buf) = w ++ NUL :: l ++ NUL :: rest) as Hd'.
  { rewrite drop_insert_ge by lia. replace (p + length w - p) with (length w) by lia.
    rewrite Hd, <- app_assoc, <- (Nat.add_0_r (length w)), insert_app_r. done. }
  split; (split; [set_solver|]).
  - by exists (l ++ NUL :: rest).
  - exists rest. rewrite <- drop_drop, Hd'. replace (S (length w)) with (length (w ++ [NUL])) by
      (rewrite length_app; simpl; lia).
    replace (w ++ NUL :: l ++ NUL :: rest) with ((w ++ [NUL]) ++ l ++ NUL :: rest)
      by (by rewrite <- app_assoc).
    by rewrite drop_app_length.
Qed.

(** Text before the written index is untouched. *)
Lemma text_at_before buf p l q :
  text_at buf p l → p + length l < q → text_at (<[q := NUL]> buf) p l.
Proof.
  intros (Hn & rest & Hd) Hq. split; [done|].
  destruct (decide (q < length buf)) as [Hlt|]; [|exists rest; by rewrite list_insert_ge by lia].
  destruct (Nat.le_exists_sub (S (p + length l)) q) as (k & -> & _); [lia|].
  exists (<[k := NUL]> rest). rewrite drop_insert_ge by lia. rewrite Hd.
  replace (k + S (p + length l) - p) with (length l + S k) by lia.
  by rewrite insert_app_r.
Qed.

Lemma token_end_spec buf base start w n :
  word w → (∀ i d, w !! i = Some d → rd buf (base + (start + i)) = Ret d) →
  (length w < n → ∃ c, rd buf (base + (start + length w)) = Ret c ∧ (c = SPC ∨ c = NUL)) →
  length w ≤ n →
  token_end buf base start n = Ret (start + length w).
Proof.
  intros [Hs Hn]. revert start n. induction w as [|d w IH]; intros start n Hr Hc Hlt.
  - destruct n as [|n]; simpl in *; [by rewrite Nat.add_0_r|].
    destruct Hc as (c & Hc & Hsn); [lia|]. rewrite Nat.add_0_r in Hc |- *. rewrite Hc. simpl.
    destruct Hsn as [->| ->]; by repeat case_decide.
  - destruct n as [|n]; [simpl in Hlt; lia|]. simpl.
    pose proof (Hr 0 d eq_refl) as H0. rewrite Nat.add_0_r in H0. rewrite H0. simpl.
    rewrite decide_False by set_solver. rewrite decide_False by set_solver.
    rewrite IH; [f_equal; lia|set_solver|set_solver| | |simpl in Hlt; lia].
    + intros i e Hi. rewrite Nat.add_succ_comm. by apply Hr.
    + intros Hl. rewrite Nat.add_succ_comm. apply Hc. simpl. lia.
Qed.

Lemma nextToken_sep buf base start w l :
  word w → text_at buf (base + start) (w ++ SPC :: l) → start + length w < EVENT_BUFFER_SIZE →
  nextToken buf base start = Ret (<[base + start + length w := NUL]> buf, S (start + length w)).
Proof.
  intros Hw Ht Hlt. unfold nextToken. rewrite decide_False by lia.
  assert (∀ i d, (w ++ SPC :: l) !! i = Some d → rd buf (base + (start + i)) = Ret d) as Hr.
  { intros i d Hi. rewrite Nat.add_assoc. by eapply text_at_rd. }
  assert (rd buf (base + (start + length w)) = Ret SPC) as He.
  { apply Hr. by rewrite lookup_app_r, Nat.sub_diag by lia. }
  rewrite (token_end_spec _ _ _ w); [|done| | |lia].
  - rewrite bind_Ret. rewrite decide_False by lia. rewrite He, bind_Ret, decide_False by done.
    pose proof (text_at_length _ _ _ Ht) as Hlen. rewrite length_app in Hlen. simpl in Hlen.
    unfold wr. rewrite decide_True by lia. rewrite bind_Ret. by rewrite Nat.add_assoc.
  - intros i d Hi. apply Hr. by apply lookup_app_l_Some.
  - eauto.
Qed.

Lemma nextToken_last buf base start w :
  word w → text_at buf (base + start) w → start + length w <= EVENT_BUFFER_SIZE →
  nextToken buf base start = Ret (buf, start + length w).
Proof.
  intros Hw Ht Hle. unfold nextToken. case_decide as Hge; [do 2 f_equal; lia|].
  assert (rd buf (base + (start + length w)) = Ret NUL) as He.
  { rewrite Nat.add_assoc. by apply text_at_end. }
  rewrite (token_end_spec _ _ _ w); [|done| |eauto|lia].
  - rewrite bind_Ret. case_decide as Heq; [done|].
    rewrite He, bind_Ret. by rewrite decide_True.
  - intros i d Hi. rewrite Nat.add_assoc. by eapply text_at_rd.
Qed.

Lemma break_spec l :
  (SPC ∉ (break l).1) ∧
  match (break l).2 with
  | None => l = (break l).1
  | Some l' => l = (break l).1 ++ SPC :: l'
  end.
Proof.
  induction l as [|c l IH]; cbn [break]; [split; [set_solver|done]|].
  destruct (decide (c = SPC)) as [->|Hc]; [split; [set_solver|done]|].
  destruct (break l) as [w [l'|]]; cbn in *; (split; [set_solver|]);
    destruct IH as [_ ->]; done.
Qed.

Lemma split_on_break l :
  split_on SPC l =
  (break l).1 :: match (break l).2 with None => [] | Some l' => split_on SPC l' end.
Proof.
  destruct (break_spec l) as [Hs Hl]. destruct (break l) as [w [l'|]]; simpl in *; rewrite Hl.
  - by apply split_on_app.
  - by apply split_on_word.
Qed.

(** [nextToken] reads one word: the word becomes a C string in place, the index
    moves past its separator (or to the terminator), and C strings that lie before
    the word are untouched. *)
Lemma nextToken_break buf base start l :
  text_at buf (base + start) l → start + length l <= EVENT_BUFFER_SIZE →
  ∃ buf' next,
    nextToken buf base start = Ret (buf', next) ∧ length buf' = length buf ∧
    text_at buf' (base + start) (break l).1 ∧ next = start + length l - length (default [] (break l).2) ∧
    text_at buf' (base + next) (default [] (break l).2) ∧
    (next = start ↔ l = []) ∧
    (∀ p k, text_at buf p k → p + length k < base + start → text_at buf' p k).
Proof.
  intros Ht Hle. destruct (break_spec l) as [Hs Hl].
  assert (NUL ∉ l) as Hn by apply Ht.
  destruct (break l) as [w [l'|]]; simpl in *; subst l.
  - assert (word w) by (split; set_solver). rewrite length_app in *. simpl in *.
    exists (<[base + start + length w := NUL]> buf), (S (start + length w)).
    split; [apply (nextToken_sep _ _ _ _ l'); [done..|lia]|].
    split; [by rewrite length_insert|]. destruct (text_at_cut _ _ _ _ Ht) as [Hw Hl'].
    split; [done|]. split; [lia|].
    split; [by replace (base + S (start + length w)) with (base + start + S (length w)) by lia|].
    split; [split; [lia|by destruct w]|].
    intros p k Hp Hlt. apply text_at_before; [done|lia].
  - assert (word w) by (split; set_solver).
    exists buf, (start + length w). split; [by apply nextToken_last|].
    split; [done|]. split; [done|]. split; [lia|]. split; [|split; [|done]].
    + split; [set_solver|]. destruct Ht as (_ & rest & Hd). exists rest.
      rewrite Nat.add_assoc, <- drop_drop, Hd. by rewrite drop_app_length.
    + destruct w; simpl; split; (done || lia).
Qed.

(** ** The text of a set of types *)

Lemma write_type_spec os b ty :
  (NUL ∉ ty) → write_type os b ty = (os ++ ty, default b (last ty)).
Proof.
  revert os b. induction ty as [|c ty IH]; intros os b Hn; cbn [write_type]; [by rewrite app_nil_r|].
  rewrite decide_False by set_solver. rewrite IH by set_solver. rewrite <- app_assoc.
  f_equal. rewrite last_cons. by destruct (last ty).
Qed.

Lemma write_types_app os b types : write_types os b types = os ++ write_types [] b types.
Proof.
  assert (∀ l os b, write_type os b l = (os ++ (write_type [] b l).1, (write_type [] b l).2)) as Hw.
  { induction l as [|c l IH]; intros os' b'; simpl; [by rewrite app_nil_r|].
    rewrite IH, (IH (if decide (c = NUL) then [] else [c])). simpl.
    case_decide; simpl; [done|]. by rewrite <- app_assoc. }
  revert os b. induction types as [|ty types IH]; intros os b; simpl; [by rewrite app_nil_r|].
  rewrite Hw, (Hw _ (if decide (b = NUL) then [] else [SEP])). rewrite IH, (IH (_ ++ _)).
  case_decide; simpl; by rewrite <- ?app_assoc.
Qed.

Lemma writeTypes_app os types : writeTypes os types = os ++ writeTypes [] types.
Proof. unfold writeTypes. case_decide; [done|]. apply write_types_app. Qed.

Lemma last_type_char b ty : type_ok ty → default b (last (chars ty)) ≠ NUL.
Proof.
  intros (Hne & Hn & _). destruct (last (chars ty)) as [c|] eqn:E; simpl.
  - intros ->. apply last_Some in E as [l El]. rewrite El in Hn. set_solver.
  - apply last_None in E. exfalso. apply Hne, chars_inj. by rewrite E.
Qed.

Lemma write_types_tail os b types :
  b ≠ NUL → Forall type_ok types →
  write_types os b types = os ++ concat ((λ ty, SEP :: chars ty) <$> types).
Proof.
  intros Hb Hok. revert os b Hb. induction Hok as [|ty types Hty Hok IH]; intros os b Hb.
  - simpl. by rewrite app_nil_r.
  - cbn [write_types]. rewrite decide_False by done. rewrite write_type_spec by apply Hty.
    rewrite IH by (by apply last_type_char). simpl. by rewrite <- !app_assoc.
Qed.

Lemma join_with_cons sep w ws :
  join_with sep (w :: ws) = w ++ concat ((λ v, sep :: v) <$> ws).
Proof.
  revert w. induction ws as [|v ws IH]; intros w; [simpl; by rewrite app_nil_r|].
  change (join_with sep (w :: v :: ws)) with (w ++ sep :: join_with sep (v :: ws)).
  by rewrite IH.
Qed.

Lemma write_types_join types :
  Forall type_ok types → write_types [] NUL types = join_with SEP (chars <$> types).
Proof.
  destruct 1 as [|ty types Hty Hok]; [done|].
  cbn [write_types]. rewrite decide_True by done. rewrite write_type_spec by apply Hty.
  rewrite write_types_tail by (done || by apply last_type_char).
  cbn [fmap list_fmap]. rewrite join_with_cons. f_equal. f_equal.
  by rewrite <- list_fmap_compose.
Qed.

Lemma type_ok_set_iter types : set_Forall type_ok types → Forall type_ok (set_iter types).
Proof. intros H. apply Forall_forall. intros ty Hty. apply H. by apply elem_of_set_iter. Qed.

Lemma foldl_union_list (l : list (list ascii)) (X : gset string) :
  foldl (λ Y raw, Y ∪ {[str raw]}) X l = X ∪ list_to_set (str <$> l).
Proof.
  revert X. induction l as [|w l IH]; intros X; simpl; [set_solver|]. rewrite IH. set_solver.
Qed.

(** What [writeTypes] appends, and that [parseTypes] reads it back. *)
Lemma types_text_spec types :
  types_ok types →
  word (writeTypes [] types) ∧ writeTypes [] types ≠ [] ∧
  parseTypes ∅ (str (writeTypes [] types)) = types.
Proof.
  intros [Hok Hdot]. unfold writeTypes. case_decide as He; [subst|].
  { split_and!; [split; set_solver|done|]. unfold parseTypes. by rewrite decide_True by auto. }
  pose proof (type_ok_set_iter _ Hok) as Hf. rewrite write_types_join by done.
  assert (set_iter types ≠ []) as Hne by (by rewrite set_iter_nil).
  assert (Forall (λ w : list ascii, SEP ∉ w) (chars <$> set_iter types)) as Hsep.
  { apply Forall_fmap. eapply Forall_impl; [exact Hf|]. by intros ty (_ & _ & _ & ?). }
  assert (join_with SEP (chars <$> set_iter types) ≠ []) as Hjne.
  { destruct Hf as [|ty l (Hty & _) _]; [done|]. cbn [fmap list_fmap]. rewrite join_with_cons.
    intros [Ht _]%app_eq_nil. apply Hty, chars_inj. by rewrite Ht. }
  split_and!; [|done|].
  - split; intros [Hc|(w & (ty & -> & Hty)%list_elem_of_fmap & Hc)]%elem_of_join_with; try done;
      apply elem_of_set_iter, Hok in Hty; destruct Hty as (_ & Hn & Hs & _); done.
  - unfold parseTypes. rewrite decide_False.
    + rewrite chars_str, split_join by (done || by destruct (set_iter types)).
      rewrite foldl_union_list, <- list_fmap_compose.
      apply set_eq. intros x. rewrite elem_of_union, elem_of_list_to_set, list_elem_of_fmap.
      setoid_rewrite elem_of_set_iter. simpl. setoid_rewrite str_chars. set_solver.
    + intros [Hx|Hx]; apply (f_equal chars) in Hx; rewrite chars_str in Hx; [done|].
      assert (chars <$> set_iter types = [chars NO_TYPES]) as Hone.
      { rewrite <- (split_join SEP (chars <$> set_iter types)), Hx by (done || by destruct (set_iter types)).
        done. }
      apply Hdot. apply set_eq. intros x. rewrite <- elem_of_set_iter.
      destruct (set_iter types) as [|y [|]]; [done| |done].
      injection Hone as Hy. apply (chars_inj y NO_TYPES) in Hy. rewrite Hy. set_solver.
Qed.

Lemma fromType_word ty n :
  SocketTypes.fromType ty = Ret n → word (chars n) ∧ n ≠ "" ∧ (0 <= ty)%Z.
Proof.
  unfold SocketTypes.fromType. destruct (Z.ltb_spec ty 0); [done|].
  destruct (_ !! _) as [m|] eqn:E; [|done]. intros [= ->].
  assert (n ∈ SocketTypes.type_names) as Hin by (by eapply list_elem_of_lookup_2).
  assert (Forall (λ m, (SPC ∉ chars m) ∧ (NUL ∉ chars m) ∧ m ≠ "") SocketTypes.type_names) as Hall
    by (apply (bool_decide_unpack _); vm_compute; exact I).
  rewrite Forall_forall in Hall. unfold word. apply Hall in Hin as (? & ? & ?). done.
Qed.

(** ** Properties *)

(** The wire format of a type list loses nothing: for every set of non-empty type names
    without separators (and other than the lone placeholder), [parseTypes] of what
    [writeTypes] wrote is the set. *)
Theorem types_roundtrip types :
  types_ok types → parseTypes ∅ (str (writeTypes [] types)) = types.
Proof. intros H. by apply types_text_spec. Qed.

(** An empty type name is lost on the way. *)
Theorem empty_type_dropped :
  writeTypes [] {[""; "a"]} = chars "a" ∧ parseTypes ∅ (str (writeTypes [] {[""; "a"]})) = {["a"]}.
Proof. split; vm_compute; reflexivity. Qed.

(** ** Witnesses *)
Lemma types_roundtrip_witness :
  writeTypes [] {["b1"; "a"]} = chars "a|b1" ∧
  parseTypes ∅ (str (writeTypes [] {["b1"; "a"]})) = {["b1"; "a"]}.
Proof.
  split; [vm_compute; reflexivity|]. apply types_roundtrip.
  split; [|intros H; assert ("b1" ∈ ({[NO_TYPES]} : gset string)) by (rewrite <- H; set_solver);
           set_solver].
  intros ty [->%elem_of_singleton| ->%elem_of_singleton]%elem_of_union;
    split_and!; [done|..]; apply (bool_decide_unpack _); vm_compute; exact I.
Defined.
