(* ===== verification/Directory.v ===== *)
(** * The directory (src/a17/dispatch/directory.h, directory.cpp, class Directory)

    A directory advertises the topics of its node, collects those of other nodes
    and searches for observed topics nobody has advertised yet.

    The state is the object's members; [mem] holds the contents of the buffers of
    [sendPool_], [blocks] the buffers the exhausted pool took from [::malloc] and not
    yet released, [sending] the captures
    of the completion handlers of pending [async_send_to] calls.  Calls to Boost.Asio
    and to observers are recorded in [calls], oldest first.  Logging is left out.
    Durations are in milliseconds.

    Outside the program, hence parameters: the address [::malloc] returns when the
    pool is exhausted (as a function of the blocks in use, [sys]), the bytes of a buffer never written ([fresh]), the
    resolver ([Inet]), the chosen interface ([own]), the clock ([now]) and the
    generated uuids. *)

From S2P Require Import Prelude BufferPool Address Topics TopicStore Wire.

Module Directory.

Definition QUERY_INTERVAL : Z := 1000.
Definition QUERY_INTERVAL_MAX : Z := 16000.
Definition QUERY_ZERO : Z := 50.
Definition QUERY_INTERVAL_MULT : Z := 2.

Inductive effect : Type :=
  | AsyncReceive
  | AsyncSend (buf : Z) (pos len : nat) (data : list ascii)
  | SendNow (data : list ascii)
  | TimerCancel
  | TimerExpires (ms : Z)
  | TimerWait
  | Post (topic_name : string) (h : nat)
  | Handler (n : TopicStore.notification).

Record t : Type := mk {
  my_guid_ : string;
  topics_ : TopicStore.t;
  sendPool_ : BufferPool.t;
  mem : gmap Z (list ascii);
  blocks : gset Z;
  sending : list (Z * nat * nat);
  receiveBuffer_ : list ascii;
  queryTimerActive_ : bool;
  queryInterval_ : Z;
  nextServerPort_ : Z;
  calls : list effect
}.

Definition set_topics (s : t) (x : TopicStore.t) : t :=
  mk (my_guid_ s) x (sendPool_ s) (mem s) (blocks s) (sending s) (receiveBuffer_ s)
     (queryTimerActive_ s) (queryInterval_ s) (nextServerPort_ s) (calls s).
Definition set_heap (s : t) (p : BufferPool.t) (m : gmap Z (list ascii)) (k : gset Z) : t :=
  mk (my_guid_ s) (topics_ s) p m k (sending s) (receiveBuffer_ s)
     (queryTimerActive_ s) (queryInterval_ s) (nextServerPort_ s) (calls s).
Definition set_sending (s : t) (l : list (Z * nat * nat)) : t :=
  mk (my_guid_ s) (topics_ s) (sendPool_ s) (mem s) (blocks s) l (receiveBuffer_ s)
     (queryTimerActive_ s) (queryInterval_ s) (nextServerPort_ s) (calls s).
Definition set_receive (s : t) (b : list ascii) : t :=
  mk (my_guid_ s) (topics_ s) (sendPool_ s) (mem s) (blocks s) (sending s) b
     (queryTimerActive_ s) (queryInterval_ s) (nextServerPort_ s) (calls s).
Definition set_query (s : t) (active : bool) (interval : Z) : t :=
  mk (my_guid_ s) (topics_ s) (sendPool_ s) (mem s) (blocks s) (sending s) (receiveBuffer_ s)
     active interval (nextServerPort_ s) (calls s).
Definition set_port (s : t) (p : Z) : t :=
  mk (my_guid_ s) (topics_ s) (sendPool_ s) (mem s) (blocks s) (sending s) (receiveBuffer_ s)
     (queryTimerActive_ s) (queryInterval_ s) p (calls s).
Definition emit (s : t) (l : list effect) : t :=
  mk (my_guid_ s) (topics_ s) (sendPool_ s) (mem s) (blocks s) (sending s) (receiveBuffer_ s)
     (queryTimerActive_ s) (queryInterval_ s) (nextServerPort_ s) (calls s ++ l).

(** [inline uint16_t nextServerPort()]. *)
Definition nextServerPort (s : t) : Z * t :=
  if (nextServerPort_ s =? 0)%Z then (0%Z, s)
  else (nextServerPort_ s, set_port s (u16 (nextServerPort_ s + 1))).

Section with_env.
Context `{Inet} (own : OwnAddress.t) (sys : gset Z → Z) (fresh : list ascii).

(** *** Buffers of the send pool *)
Definition content (s : t) (ptr : Z) : list ascii := default fresh (mem s !! ptr).

Definition pool_malloc (s : t) : outcome (t * Z) :=
  '(p, ptr) ← BufferPool.malloc (sendPool_ s) (sys (blocks s));
  Ret (set_heap s p (mem s)
         (if BufferPool.empty (sendPool_ s) then {[ptr]} ∪ blocks s else blocks s), ptr).

Definition pool_free (s : t) (ptr : Z) : outcome t :=
  '(p, released) ← BufferPool.free (sendPool_ s) ptr;
  Ret (set_heap s p (mem s)
         (match released with Some q => blocks s ∖ {[q]} | None => blocks s end)).

(** Writing a text and its terminator at [ptr + pos]. *)
Definition put (s : t) (ptr : Z) (pos : nat) (text : list ascii) : outcome t :=
  let b := content s ptr in
  if bool_decide (ptr ≠ 0%Z) && bool_decide (pos + length text < length b) then
    Ret (set_heap s (sendPool_ s)
           (<[ptr := take pos b ++ text ++ NUL :: drop (S (pos + length text)) b]> (mem s))
           (blocks s))
  else Undef.

(** [buf[pos] = c]. *)
Definition put_char (s : t) (ptr : Z) (pos : nat) (c : ascii) : outcome t :=
  b ← (if bool_decide (ptr ≠ 0%Z) then wr (content s ptr) pos c else Undef);
  Ret (set_heap s (sendPool_ s) (<[ptr := b]> (mem s)) (blocks s)).

(** *** I/O *)
Definition receive (s : t) : t := emit s [AsyncReceive].

Definition _send (s : t) (buf : Z) (pos len : nat) : t :=
  set_sending (emit s [AsyncSend buf pos len (take len (drop pos (content s buf)))])
              (sending s ++ [(buf, pos, len)]).

(** The completion handler of [_send]; [ec] when the send failed. *)
Definition sent (s : t) (buf : Z) (pos len : nat) (ec : bool) (bytes : nat) : outcome t :=
  let s := set_sending s (list_difference (sending s) [(buf, pos, len)]) in
  if ec then Ret s
  else if decide (bytes < len) then Ret (_send s buf (pos + bytes) (len - bytes))
  else pool_free s buf.

(** The text [send] formats with [sprintf]. *)
Definition message (guid : string) (command : ascii) (args : string) : list ascii :=
  chars DISPATCH ++ chars (c_str guid) ++ [SPC; command] ++
  (if decide (args = "") then [] else SPC :: chars (c_str args)).

Definition send (s : t) (command : ascii) (args : string) : outcome t :=
  '(s, buf) ← pool_malloc s;
  let text := message (my_guid_ s) command args in
  s ← put s buf 0 text;
  Ret (_send s buf 0 (length text)).

Definition broadcast (s : t) (command : ascii) (args : string) : outcome t := send s command args.
Definition reply (s : t) (command : ascii) (args : string) : outcome t := broadcast s command args.

(** *** Query timer *)
Definition startQueryTimer (s : t) : t :=
  let s := if queryTimerActive_ s then emit s [TimerCancel] else s in
  emit (set_query s true QUERY_INTERVAL) [TimerExpires QUERY_ZERO; TimerWait].

(** The loop of [queryMissingTopics] over the missing names. *)
Fixpoint query_loop (s : t) (buf : option Z) (pos count start : nat) (requests : list string)
    : outcome (t * option Z * nat * nat) :=
  match requests with
  | [] => Ret (s, buf, pos, start)
  | topic_name :: requests' =>
      let startLen := String.length DISPATCH + String.length (my_guid_ s) + 2 in
      let full := bool_decide (EVENT_BUFFER_SIZE <= pos + 1 + String.length topic_name)
                  || bool_decide (4 <= count) in
      '(s, b, pos, count, start) ←
        match buf with
        | Some b =>
            if full then
              let s := _send s b 0 pos in
              '(s, b) ← pool_malloc s;
              s ← put s b 0 (message (my_guid_ s) DISCOVERY_SEARCH "");
              Ret (s, b, startLen, 0, startLen)
            else Ret (s, b, pos, count, start)
        | None =>
            '(s, b) ← pool_malloc s;
            s ← put s b 0 (message (my_guid_ s) DISCOVERY_SEARCH "");
            Ret (s, b, startLen, 0, startLen)
        end;
      s ← put_char s b pos SPC;
      s ← put s b (S pos) (chars (c_str topic_name));
      query_loop s (Some b) (S pos + String.length topic_name) (S count) start requests'
  end.

Definition queryMissingTopics (s : t) (ec : bool) : outcome t :=
  if ec then Ret s
  else
    let requests := TopicStore.getMissing (topics_ s) in
    if decide (requests = ∅) then Ret (set_query s false (queryInterval_ s))
    else
      let s := emit s [TimerExpires (queryInterval_ s); TimerWait] in
      let i1 := if (queryInterval_ s <? QUERY_INTERVAL_MAX)%Z
                then (queryInterval_ s * QUERY_INTERVAL_MULT)%Z else queryInterval_ s in
      let i2 := if (QUERY_INTERVAL_MAX <? i1)%Z then QUERY_INTERVAL_MAX else i1 in
      let s := set_query s (queryTimerActive_ s) i2 in
      '(s, buf, pos, start) ← query_loop s None 0 0 0 (set_iter requests);
      if decide (start < pos) then
        match buf with Some b => Ret (_send s b 0 pos) | None => Undef end
      else Ret s.

(** *** Topics *)
Definition store_calls (s : t) (st : TopicStore.t) (ns : list TopicStore.notification) : t :=
  emit (set_topics s st) (Handler <$> ns).

Definition add (s : t) (now : Z) (topic_name : string) (socketType : Z) (address : string)
    (inputTypes outputTypes : gset string) (guid : string) : outcome (bool * t) :=
  info ← buildTopicInfo topic_name socketType address inputTypes outputTypes;
  let topic := mkDirectoryTopic topic_name now socketType address inputTypes outputTypes guid info in
  '(mine, st, ns) ← TopicStore.add (topics_ s) topic;
  let s := store_calls s st ns in
  if (mine : bool) then
    _ ← ub_unless (bool_decide (TopicStore.locals (topics_ s) ≠ []));
    s ← broadcast s DISCOVERY_AVAILABLE (dt_info topic);
    Ret (true, s)
  else Ret (false, s).

Definition remove (s : t) (topic_name : string) : outcome t :=
  let '(mine, st, ns) := TopicStore.remove (topics_ s) (my_guid_ s) topic_name in
  let s := store_calls s st ns in
  if (mine : bool) then broadcast s DISCOVERY_REMOVE topic_name else Ret s.

Definition observe (s : t) (topic_name : string) (h : nat) (uuid : string) : string * t :=
  let '(st, ref) := TopicStore.observe (topics_ s) topic_name h uuid in
  let s := emit (set_topics s st) [Post topic_name h] in
  (ref, startQueryTimer s).

(** The lambda that [observe] posts. *)
Definition posted (s : t) (topic_name : string) (h : nat) : t :=
  emit s (Handler <$> TopicStore.callImmediate (topics_ s) topic_name h).

Definition unobserve (s : t) (topic_name ref : string) : t :=
  startQueryTimer (set_topics s (TopicStore.unobserve (topics_ s) topic_name ref)).

(** *** Received messages: [data] is the offset of the arguments in the buffer *)

(** One argument of [discoveryAvailable]: [None] where the code returns. *)
Definition argument (buf : list ascii) (data pos : nat) (required : bool)
    : outcome (list ascii * option nat) :=
  '(buf, next) ← nextToken buf data pos;
  if decide (next = pos) then Ret (buf, None)
  else if required then
    c ← rd buf (data + pos);
    Ret (buf, if decide (c = NUL) then None else Some next)
  else Ret (buf, Some next).

Definition discoveryAvailable (s : t) (now : Z) (buf : list ascii) (guid data : nat)
    : outcome (t * list ascii) :=
  '(buf, r) ← argument buf data 0 true;
  match r with None => Ret (s, buf) | Some type =>
  '(buf, r) ← argument buf data type true;
  match r with None => Ret (s, buf) | Some address =>
  '(buf, r) ← argument buf data address true;
  match r with None => Ret (s, buf) | Some ins =>
  '(buf, r) ← argument buf data ins false;
  match r with None => Ret (s, buf) | Some outs =>
  '(buf, r) ← argument buf data outs false;
  match r with None => Ret (s, buf) | Some _ =>
    address_s ← cstr buf (data + address);
    let addressParts := Address.parse address_s in
    if negb (OwnAddress.onNetwork own (Address.ip_ addressParts)) then Ret (s, buf)
    else
      type_s ← cstr buf (data + type);
      let socketType := SocketTypes.fromName type_s in
      if (socketType <? 0)%Z then Ret (s, buf)
      else
        ins_s ← cstr buf (data + ins);
        let inputTypes := parseTypes ∅ ins_s in
        outs_s ← cstr buf (data + outs);
        let outputTypes := parseTypes ∅ outs_s in
        name_s ← cstr buf data;
        guid_s ← cstr buf guid;
        '(_, s) ← add s now name_s socketType address_s inputTypes outputTypes guid_s;
        Ret (s, buf)
  end end end end end.

Definition discoveryRemove (s : t) (buf : list ascii) (guid data : nat) : outcome (t * list ascii) :=
  '(buf, _) ← nextToken buf data 0;
  name ← cstr buf data;
  guid_s ← cstr buf guid;
  let '(_, st, ns) := TopicStore.remove (topics_ s) guid_s name in
  Ret (startQueryTimer (store_calls s st ns), buf).

Definition discoveryExit (s : t) (buf : list ascii) (guid data : nat) : outcome (t * list ascii) :=
  guid_s ← cstr buf guid;
  let '(st, ns) := TopicStore.evict (topics_ s) guid_s in
  Ret (startQueryTimer (store_calls s st ns), buf).

(** The replies to a list of topics. *)
Fixpoint reply_all (s : t) (l : list DirectoryTopic) : outcome t :=
  match l with
  | [] => Ret s
  | x :: l' => s ← reply s DISCOVERY_AVAILABLE (dt_info x); reply_all s l'
  end.

(** What [discoverySearch] does with one name. *)
Definition search_name (s : t) (name : string) : outcome t :=
  if decide (name = "*") then reply_all s (TopicStore.locals (topics_ s))
  else
    match TopicStore.findLocal (topics_ s) name with
    | Some x => reply s DISCOVERY_AVAILABLE (dt_info x)
    | None => Ret s
    end.

(** The loop of [discoverySearch]; every iteration but the last moves [pos]
    forward, so the length of the buffer bounds them. *)
Fixpoint search_loop (fuel : nat) (s : t) (buf : list ascii) (data pos : nat)
    : outcome (t * list ascii) :=
  match fuel with
  | O => Undef
  | S fuel' =>
      c ← rd buf (data + pos);
      if decide (c = NUL) then Ret (s, buf)
      else
        '(buf, next) ← nextToken buf data pos;
        name ← cstr buf (data + pos);
        s ← (if decide (name = "") then Ret s else search_name s name);
        search_loop fuel' s buf data next
  end.

Definition discoverySearch (s : t) (buf : list ascii) (data : nat) : outcome (t * list ascii) :=
  search_loop (S (length buf)) s buf data 0.

Definition handleEvent (s : t) (now : Z) (buf : list ascii) : outcome (t * list ascii) :=
  tagged ← starts_with buf 0 DISPATCH;
  if negb tagged then Ret (s, buf)
  else
    let guid := String.length DISPATCH in
    '(buf, pos) ← nextToken buf 0 guid;
    guid_s ← cstr buf guid;
    if decide (guid_s = c_str (my_guid_ s)) then Ret (s, buf)
    else
      '(buf, data) ← nextToken buf 0 pos;
      c ← rd buf pos;
      if decide (c = DISCOVERY_AVAILABLE) then discoveryAvailable s now buf guid data
      else if decide (c = DISCOVERY_SEARCH) then discoverySearch s buf data
      else if decide (c = DISCOVERY_EXIT) then discoveryExit s buf guid data
      else if decide (c = DISCOVERY_REMOVE) then discoveryRemove s buf guid data
      else Ret (s, buf).

(** The loop over the received characters: whether all are printable; it breaks at the first that is
    not. *)
Fixpoint printable (l : list ascii) : outcome bool :=
  match l with
  | [] => Ret true
  | c :: l' => b ← isprint_char c; if (b : bool) then printable l' else Ret false
  end.

(** [event(ec, bytes)] after the socket wrote [datagram] ([bytes] characters) to the
    front of the receive buffer. *)
Definition event (s : t) (now : Z) (ec : bool) (datagram : list ascii) : outcome t :=
  let s := set_receive s (datagram ++ drop (length datagram) (receiveBuffer_ s)) in
  if ec then Ret (receive s)
  else
    ok ← printable datagram;
    if (ok : bool) then
    buf ← wr (receiveBuffer_ s) (length datagram) NUL;
    '(s, buf) ← handleEvent s now buf;
    Ret (receive (set_receive s buf))
  else Ret (receive s).

(** *** Construction and destruction *)

(** The constructor.  [garbage] is the initial receive buffer; the flags say whether the
    address parsed, the socket opened and the group was joined; the result carries the
    new value of the process-wide [next_directory_port]. *)
Definition init (name uuid : string) (base : Z) (garbage : list ascii)
    (address_ok open_ok join_ok : bool) (next_directory_port : option Z) : outcome (t * option Z) :=
  let guid := name +:+ "_" +:+ OwnAddress.address_ own +:+ "_" +:+ uuid in
  if negb address_ok then Throw system_error
  else if negb open_ok then Throw (runtime_error "Could not open multicast socket")
  else if negb join_ok then Throw (runtime_error "Error joining multicast group")
  else
    let pool := BufferPool.init base (Z.of_nat EVENT_BUFFER_SIZE)
                  BufferPool.DEFAULT_POOL_BUFFER_COUNT true in
    let s := mk guid (TopicStore.init guid) pool ∅ ∅ [] garbage false 0 0 [] in
    match next_directory_port with
    | Some p => Ret (receive (set_port s p), Some (u16 (p + 50)))
    | None => Ret (receive s, None)
    end.

(** [~Directory()]: a synchronous farewell. *)
Definition destroy (s : t) : t :=
  emit s [SendNow (chars DISPATCH ++ chars (my_guid_ s) ++ [SPC; DISCOVERY_EXIT])].

(** ** The same message handling on words *)

Definition spec_available (s : t) (now : Z) (guid : list ascii) (args : list (list ascii))
    : outcome t :=
  match args with
  | name :: type :: address :: ins :: outs :: more =>
      if decide (name = [] ∨ type = [] ∨ address = [] ∨ (outs = [] ∧ more = [])) then Ret s
      else if negb (OwnAddress.onNetwork own (Address.ip_ (Address.parse (str address)))) then Ret s
      else
        let socketType := SocketTypes.fromName (str type) in
        if (socketType <? 0)%Z then Ret s
        else
          '(_, s) ← add s now (str name) socketType (str address)
                      (parseTypes ∅ (str ins)) (parseTypes ∅ (str outs)) (str guid);
          Ret s
  | _ => Ret s
  end.

Definition spec_remove (s : t) (guid name : list ascii) : outcome t :=
  let '(_, st, ns) := TopicStore.remove (topics_ s) (str guid) (str name) in
  Ret (startQueryTimer (store_calls s st ns)).

Definition spec_exit (s : t) (guid : list ascii) : outcome t :=
  let '(st, ns) := TopicStore.evict (topics_ s) (str guid) in
  Ret (startQueryTimer (store_calls s st ns)).

Fixpoint spec_search (s : t) (names : list (list ascii)) : outcome t :=
  match names with
  | [] => Ret s
  | n :: names' =>
      s ← (if decide (n = []) then Ret s else search_name s (str n));
      spec_search s names'
  end.

(** The words after the tag: sender, command (its first character), arguments. *)
Definition spec_words (s : t) (now : Z) (words : list (list ascii)) : outcome t :=
  match words with
  | guid :: (c :: _) :: args =>
      let args := match args with [] => [[]] | _ => args end in
      if decide (str guid = c_str (my_guid_ s)) then Ret s
      else if decide (c = DISCOVERY_AVAILABLE) then spec_available s now guid args
      else if decide (c = DISCOVERY_SEARCH) then spec_search s args
      else if decide (c = DISCOVERY_EXIT) then spec_exit s guid
      else if decide (c = DISCOVERY_REMOVE) then spec_remove s guid (default [] (head args))
      else Ret s
  | _ => Ret s
  end.

Definition spec_handle (s : t) (now : Z) (text : list ascii) : outcome t :=
  if decide (chars DISPATCH `prefix_of` text)
  then spec_words s now (split_on SPC (drop (String.length DISPATCH) text))
  else Ret s.

End with_env.

(** ** Lemmas *)

Lemma starts_with_spec buf p s l :
  (NUL ∉ chars s) → text_at buf p l →
  starts_with buf p s = Ret (bool_decide (chars s `prefix_of` l)).
Proof.
  revert p l. induction s as [|c s IH]; intros p l Hn Ht.
  - cbn. by rewrite bool_decide_eq_true_2 by apply prefix_nil.
  - cbn [starts_with]. destruct l as [|d l].
    + pose proof (text_at_end _ _ _ Ht) as He. rewrite Nat.add_0_r in He. rewrite He, bind_Ret.
      rewrite decide_False by (intros <-; cbn in Hn; set_solver).
      rewrite bool_decide_eq_false_2; [done|]. apply prefix_nil_not.
    + destruct (text_at_rd _ _ _ 0 d Ht eq_refl) as [Hr _]. rewrite Nat.add_0_r in Hr.
      rewrite Hr, bind_Ret. pose proof (text_at_skip buf p [d] l Ht) as Ht'.
      simpl in Ht'. rewrite Nat.add_1_r in Ht'. cbn in Hn.
      case_decide as Hc.
      * subst d. rewrite (IH (S p) l) by (done || set_solver). f_equal.
        apply bool_decide_ext. cbn. split; [apply prefix_cons|apply prefix_cons_inv_2].
      * rewrite bool_decide_eq_false_2; [done|]. cbn. by intros <-%prefix_cons_inv_1.
Qed.

(** The rest of the buffer text after its first word. *)
Lemma argument_spec buf data pos req l :
  text_at buf (data + pos) l → pos + length l <= EVENT_BUFFER_SIZE →
  ∃ buf',
    argument buf data pos req =
      Ret (buf', if decide (l = [] ∨ (req = true ∧ (break l).1 = [])) then None
                 else Some (pos + length l - length (default [] (break l).2))) ∧
    length buf' = length buf ∧
    text_at buf' (data + pos) (break l).1 ∧
    text_at buf' (data + (pos + length l - length (default [] (break l).2))) (default [] (break l).2) ∧
    (∀ p k, text_at buf p k → p + length k < data + pos → text_at buf' p k).
Proof.
  intros Ht Hle. destruct (nextToken_break _ _ _ _ Ht Hle)
    as (buf' & next & Hnt & Hlen & Hw & Hnext & Hrest & Hpos & Hfr).
  exists buf'. subst next. split; [|done]. unfold argument. rewrite Hnt, bind_Ret.
  destruct (decide (l = [])) as [->|Hl].
  { rewrite decide_True by (by apply Hpos). by rewrite decide_True by auto. }
  rewrite decide_False by (rewrite Hpos; done). destruct req.
  - destruct (break l).1 as [|c w] eqn:Eb.
    + pose proof (text_at_end _ _ _ Hw) as He. simpl in He. rewrite Nat.add_0_r in He.
      rewrite He, bind_Ret, decide_True by done. by rewrite decide_True by auto.
    + destruct (text_at_rd _ _ _ 0 c Hw eq_refl) as [Hr Hc]. rewrite Nat.add_0_r in Hr.
      rewrite Hr, bind_Ret, decide_False by done. by rewrite decide_False by naive_solver.
  - by rewrite decide_False by naive_solver.
Qed.

Lemma length_break l : length (default [] (break l).2) <= length l.
Proof.
  destruct (break_spec l) as [_ Hl]. destruct (break l).2; simpl; [|lia].
  apply (f_equal length) in Hl. rewrite length_app in Hl. simpl in Hl. lia.
Qed.

Lemma break_len l :
  default [] (break l).2 ≠ [] →
  length l = S (length (break l).1 + length (default [] (break l).2)).
Proof.
  destruct (break_spec l) as [_ Hl]. destruct (break l).2; simpl; [|done].
  intros _. apply (f_equal length) in Hl. rewrite length_app in Hl. simpl in Hl. lia.
Qed.

(** One argument on the text itself: the word and the text after it. *)
Definition take_arg (l : list ascii) (req : bool) : option (list ascii * list ascii) :=
  if decide (l = [] ∨ (req = true ∧ (break l).1 = [])) then None
  else Some ((break l).1, default [] (break l).2).

Definition take_args (l : list ascii)
    : option (list ascii * list ascii * list ascii * list ascii * list ascii) :=
  '(name, l) ← take_arg l true;
  '(type, l) ← take_arg l true;
  '(address, l) ← take_arg l true;
  '(ins, l) ← take_arg l false;
  '(outs, _) ← take_arg l false;
  Some (name, type, address, ins, outs).

(** The same on the list of words. *)
Definition word_arg (ws : list (list ascii)) (req : bool) : option (list ascii * list (list ascii)) :=
  match ws with
  | [] => None
  | w :: ws' => if decide (w = [] ∧ (req = true ∨ ws' = [])) then None else Some (w, ws')
  end.

Definition words_of (l : list ascii) (ws : list (list ascii)) : Prop :=
  ws = split_on SPC l ∨ (l = [] ∧ ws = []).

Lemma word_arg_spec l ws req :
  words_of l ws →
  (take_arg l req = None ∧ word_arg ws req = None) ∨
  (∃ w l' ws', take_arg l req = Some (w, l') ∧ word_arg ws req = Some (w, ws') ∧ words_of l' ws').
Proof.
  intros [->|[-> ->]]; [|by left]. rewrite split_on_break. unfold take_arg, word_arg.
  destruct (break_spec l) as [_ Hl]. destruct (break l) as [w [l'|]]; simpl in *; subst l.
  - assert (split_on SPC l' ≠ []) as Hne by (by rewrite split_on_break).
    destruct (decide (w = [])) as [->|Hw].
    + destruct req; [left; by rewrite !decide_True by auto|right].
      rewrite !decide_False by naive_solver. exists [], l', (split_on SPC l'). by split_and!; [..|left].
    + right. rewrite !decide_False by (destruct w; naive_solver).
      exists w, l', (split_on SPC l'). by split_and!; [..|left].
  - destruct (decide (w = [])) as [->|Hw]; [left; by rewrite !decide_True by auto|right].
    rewrite !decide_False by naive_solver. exists w, [], []. by split_and!; [..|right].
Qed.

Lemma take_args_split l :
  take_args l =
  match split_on SPC l with
  | name :: type :: address :: ins :: outs :: more =>
      if decide (name = [] ∨ type = [] ∨ address = [] ∨ (outs = [] ∧ more = [])) then None
      else Some (name, type, address, ins, outs)
  | _ => None
  end.
Proof.
  transitivity ('(name, ws) ← word_arg (split_on SPC l) true;
    '(type, ws) ← word_arg ws true; '(address, ws) ← word_arg ws true;
    '(ins, ws) ← word_arg ws false; '(outs, _) ← word_arg ws false;
    Some (name, type, address, ins, outs)).
  - assert (words_of l (split_on SPC l)) as Hw by (by left). unfold take_args.
    do 4 (match goal with Hw : words_of ?l ?ws |- context [take_arg ?l ?req] =>
       destruct (word_arg_spec l ws req Hw) as [[-> ->]|(?w & ?l' & ?ws' & -> & -> & ?Hw)];
       [done|clear Hw; simpl] end).
    match goal with Hw : words_of ?l ?ws |- context [take_arg ?l ?req] =>
       by destruct (word_arg_spec l ws req Hw) as [[-> ->]|(?w & ?l' & ?ws' & -> & -> & _)] end.
  - destruct (split_on SPC l) as [|n [|ty [|a [|i [|o more]]]]]; simpl;
      repeat (case_goal; simpl; try done); naive_solver.
Qed.

Section refinement.
Context `{Inet} (own : OwnAddress.t) (sys : gset Z → Z) (fresh : list ascii).

Lemma search_loop_spec fuel s buf data pos l :
  text_at buf (data + pos) l → pos + length l <= EVENT_BUFFER_SIZE → length l < fuel →
  ∃ buf', length buf' = length buf ∧
    search_loop sys fresh fuel s buf data pos =
    (s' ← spec_search sys fresh s (split_on SPC l); Ret (s', buf')).
Proof.
  revert s buf pos l. induction fuel as [|fuel IH]; intros s buf pos l Ht Hle Hf; [lia|].
  cbn [search_loop]. destruct l as [|c l].
  { exists buf. split; [done|]. pose proof (text_at_end _ _ _ Ht) as He. simpl in He.
    rewrite Nat.add_0_r in He. by rewrite He, bind_Ret, decide_True by done. }
  destruct (text_at_rd _ _ _ 0 c Ht eq_refl) as [Hr Hc]. rewrite Nat.add_0_r in Hr.
  rewrite Hr, bind_Ret, decide_False by done.
  destruct (nextToken_break _ _ _ _ Ht Hle) as (b1 & next & Hnt & Hlen & Hw & Hn & Hrest & Hp & _).
  rewrite Hnt, bind_Ret. rewrite (text_at_cstr _ _ _ Hw), bind_Ret.
  rewrite split_on_break. cbn [spec_search].
  set (w := (break (c :: l)).1). set (r := (break (c :: l)).2).
  assert ((if decide (str w = "") then Ret s else search_name sys fresh s (str w)) =
          (if decide (w = []) then Ret s else search_name sys fresh s (str w))) as ->.
  { destruct (decide (w = [])) as [->|Hw']; [done|]. rewrite decide_False; [done|].
    intros Hs. apply Hw'. rewrite <- (chars_str w), Hs. done. }
  assert (length (default [] r) < length (c :: l)) as Hlr.
  { pose proof (length_break (c :: l)) as Hb. fold r in Hb.
    destruct (decide (next = pos)) as [Heq|]; [apply Hp in Heq; done|]. fold r in Hn. lia. }
  fold r in Hn, Hrest.
  assert (pos + length (c :: l) - length (default [] r) = next) as Hn' by (by rewrite Hn).
  destruct (if decide (w = []) then Ret s else search_name sys fresh s (str w)) as [s1|e|];
    cbn [mbind outcome_bind]; [|by exists b1|by exists b1].
  destruct (IH s1 b1 next (default [] r)) as (b2 & Hl2 & Heq); [done|lia|lia|].
  exists b2. split; [lia|]. rewrite Heq. destruct r; done.
Qed.

(** [argument] against [take_arg]. *)
Lemma argument_take buf data pos req l :
  text_at buf (data + pos) l → pos + length l <= EVENT_BUFFER_SIZE →
  ∃ buf', length buf' = length buf ∧
    (∀ p k, text_at buf p k → p + length k < data + pos → text_at buf' p k) ∧
    match take_arg l req with
    | None => argument buf data pos req = Ret (buf', None)
    | Some (w, l') =>
        ∃ next, argument buf data pos req = Ret (buf', Some next) ∧
          next + length l' = pos + length l ∧ text_at buf' (data + pos) w ∧
          text_at buf' (data + next) l' ∧ (l' ≠ [] → pos + length w < next)
    end.
Proof.
  intros Ht Hle. destruct (argument_spec _ _ _ req _ Ht Hle) as (b & Heq & Hlen & Hw & Hr & Hfr).
  exists b. split_and!; [done|done|]. unfold take_arg. pose proof (length_break l).
  destruct (decide (l = [] ∨ (req = true ∧ (break l).1 = []))); [done|].
  eexists. split_and!; [done|lia|done|done|]. intros Hne%break_len. lia.
Qed.

Lemma take_arg_ne l req x : take_arg l req = Some x → l ≠ [].
Proof. unfold take_arg. case_decide; naive_solver. Qed.

(** What [discoveryAvailable] does with the five arguments. *)
Definition use_args (s : t) (now : Z) (g : list ascii)
    (args : option (list ascii * list ascii * list ascii * list ascii * list ascii)) : outcome t :=
  match args with
  | None => Ret s
  | Some (name, type, address, ins, outs) =>
      if negb (OwnAddress.onNetwork own (Address.ip_ (Address.parse (str address)))) then Ret s
      else if (SocketTypes.fromName (str type) <? 0)%Z then Ret s
      else '(_, s) ← add sys fresh s now (str name) (SocketTypes.fromName (str type)) (str address)
             (parseTypes ∅ (str ins)) (parseTypes ∅ (str outs)) (str g); Ret s
  end.

Lemma spec_available_args s now g l :
  spec_available own sys fresh s now g (split_on SPC l) = use_args s now g (take_args l).
Proof.
  rewrite take_args_split. unfold spec_available, use_args.
  destruct (split_on SPC l) as [|n [|ty [|a [|i [|o more]]]]]; try done. by case_decide.
Qed.

(** The five arguments are read in place, and the sender's text stays readable. *)
Lemma discoveryAvailable_spec s now buf guid data g l :
  text_at buf guid g → guid + length g < data →
  text_at buf data l → length l <= EVENT_BUFFER_SIZE →
  ∃ buf', length buf' = length buf ∧
    discoveryAvailable own sys fresh s now buf guid data =
    (s' ← spec_available own sys fresh s now g (split_on SPC l); Ret (s', buf')).
Proof.
  intros Hg Hgd Ht Hle.
  rewrite spec_available_args.
  unfold discoveryAvailable, take_args. rewrite <- (Nat.add_0_r data) in Ht.
  destruct (argument_take _ _ _ true _ Ht) as (b1 & L1 & F1 & T1); [lia|].
  apply F1 in Hg; [|lia].
  destruct (take_arg l true) as [[w1 l1]|] eqn:E1; [|rewrite T1; by exists b1].
  destruct T1 as (p1 & -> & N1 & W1 & R1 & G1). rewrite bind_Ret, bind_Some_eq.
  destruct (argument_take _ _ _ true _ R1) as (b2 & L2 & F2 & T2); [lia|].
  destruct (take_arg l1 true) as [[w2 l2]|] eqn:E2; [|rewrite T2; exists b2; split; [lia|done]].
  specialize (G1 (take_arg_ne _ _ _ E2)). apply F2 in Hg, W1; [|lia..].
  destruct T2 as (p2 & -> & N2 & W2 & R2 & G2). rewrite bind_Ret, bind_Some_eq.
  destruct (argument_take _ _ _ true _ R2) as (b3 & L3 & F3 & T3); [lia|].
  destruct (take_arg l2 true) as [[w3 l3]|] eqn:E3; [|rewrite T3; exists b3; split; [lia|done]].
  specialize (G2 (take_arg_ne _ _ _ E3)). apply F3 in Hg, W1, W2; [|lia..].
  destruct T3 as (p3 & -> & N3 & W3 & R3 & G3). rewrite bind_Ret, bind_Some_eq.
  destruct (argument_take _ _ _ false _ R3) as (b4 & L4 & F4 & T4); [lia|].
  destruct (take_arg l3 false) as [[w4 l4]|] eqn:E4; [|rewrite T4; exists b4; split; [lia|done]].
  specialize (G3 (take_arg_ne _ _ _ E4)). apply F4 in Hg, W1, W2, W3; [|lia..].
  destruct T4 as (p4 & -> & N4 & W4 & R4 & G4). rewrite bind_Ret, bind_Some_eq.
  destruct (argument_take _ _ _ false _ R4) as (b5 & L5 & F5 & T5); [lia|].
  destruct (take_arg l4 false) as [[w5 l5]|] eqn:E5; [|rewrite T5; exists b5; split; [lia|done]].
  specialize (G4 (take_arg_ne _ _ _ E5)). apply F5 in Hg, W1, W2, W3, W4; [|lia..].
  destruct T5 as (p5 & -> & N5 & W5 & R5 & G5). rewrite bind_Ret, bind_Some_eq.
  exists b5. split; [lia|]. rewrite Nat.add_0_r in W1.
  rewrite (text_at_cstr _ _ _ Hg), (text_at_cstr _ _ _ W1), (text_at_cstr _ _ _ W2),
    (text_at_cstr _ _ _ W3), (text_at_cstr _ _ _ W4), (text_at_cstr _ _ _ W5).
  rewrite !bind_Ret. unfold use_args. destruct (negb _); [done|]. destruct (_ <? 0)%Z; [done|].
  by destruct (add _ _ _ _ _ _ _ _ _ _) as [[? ?]|e|].
Qed.

Lemma discoveryRemove_spec s buf guid data g l :
  text_at buf guid g → guid + length g < data →
  text_at buf data l → length l <= EVENT_BUFFER_SIZE →
  ∃ buf', length buf' = length buf ∧
    discoveryRemove s buf guid data =
    (s' ← spec_remove s g (default [] (head (split_on SPC l))); Ret (s', buf')).
Proof.
  intros Hg Hgd Ht Hle. rewrite <- (Nat.add_0_r data) in Ht.
  destruct (nextToken_break _ _ _ _ Ht) as (b & next & Hnt & Hlen & Hw & _ & _ & _ & Hfr); [lia|].
  exists b. split; [done|]. unfold discoveryRemove. rewrite Hnt, bind_Ret.
  rewrite Nat.add_0_r in Hw. apply Hfr in Hg; [|lia].
  rewrite (text_at_cstr _ _ _ Hw), (text_at_cstr _ _ _ Hg), !bind_Ret.
  rewrite split_on_break. unfold spec_remove. simpl.
  by destruct (TopicStore.remove _ _ _) as [[? ?] ?].
Qed.

Lemma handleEvent_spec s now buf l :
  text_at buf 0 l → length l <= EVENT_BUFFER_SIZE → length buf = S EVENT_BUFFER_SIZE →
  ∃ buf', length buf' = length buf ∧
    handleEvent own sys fresh s now buf =
    (s' ← spec_handle own sys fresh s now l; Ret (s', buf')).
Proof.
  intros Ht Hle Hbuf. unfold handleEvent, spec_handle.
  rewrite (starts_with_spec _ _ _ _ (ltac:(by apply (bool_decide_unpack _)) : NUL ∉ chars DISPATCH) Ht).
  rewrite bind_Ret. case_decide as Hp.
  2:{ rewrite bool_decide_eq_false_2 by done. by exists buf. }
  rewrite bool_decide_eq_true_2 by done. destruct Hp as [k ->].
  apply (text_at_skip _ _ (chars DISPATCH)) in Ht. rewrite length_app in Hle.
  change (length (chars DISPATCH)) with 9 in *. change (String.length DISPATCH) with 9.
  replace (drop 9 (chars DISPATCH ++ k)) with k by done. cbn [negb].
  destruct (nextToken_break _ _ _ _ Ht) as (b1 & p1 & H1 & L1 & W1 & N1 & R1 & _ & F1); [lia|].
  rewrite Nat.add_0_l in W1, R1. rewrite H1, bind_Ret, (text_at_cstr _ _ _ W1), bind_Ret.
  rewrite split_on_break. unfold spec_words.
  pose proof (length_break k) as Hlk.
  destruct (nextToken_break b1 0 p1 _ R1) as (b2 & p2 & H2 & L2 & W2 & N2 & R2 & _ & F2); [lia|].
  rewrite H2, bind_Ret. rewrite !Nat.add_0_l in *.
  destruct (decide (str (break k).1 = c_str (my_guid_ s))) as [Hme|Hother].
  { exists b1. split; [done|]. destruct (break k).2 as [k'|]; [|done].
    rewrite split_on_break. by destruct (break k').1. }
  destruct (break k).2 as [k'|] eqn:Ek; cbn [from_option id] in *.
  2:{ exists b2. split; [lia|]. pose proof (text_at_end _ _ _ W2) as He.
      simpl in He. rewrite Nat.add_0_r in He. by rewrite He. }
  rewrite split_on_break. destruct (break k').1 as [|c w] eqn:Ec.
  { exists b2. split; [lia|]. pose proof (text_at_end _ _ _ W2) as He.
    simpl in He. rewrite Nat.add_0_r in He. by rewrite He. }
  destruct (text_at_rd _ _ _ 0 c W2 eq_refl) as [Hr _]. rewrite Nat.add_0_r in Hr.
  rewrite Hr, bind_Ret.
  assert (length k = S (length (break k).1 + length k')) as Hk.
  { pose proof (break_spec k) as [_ Hb]. rewrite Ek in Hb. apply (f_equal length) in Hb.
    rewrite length_app in Hb. simpl in Hb. lia. }
  assert (text_at b2 9 (break k).1) as Hg by (apply F2; [done|lia]).
  pose proof (length_break k') as Hlk'.
  set (rest := default [] (break k').2) in *.
  change (p2 = p1 + length k' - length rest) in N2. change (text_at b2 p2 rest) in R2.
  assert (match match (break k').2 with Some l' => split_on SPC l' | None => [] end with
          | [] => [[]]
          | _ => match (break k').2 with Some l' => split_on SPC l' | None => [] end end =
          split_on SPC rest) as ->.
  { unfold rest. destruct (break k').2 as [l'|]; [|done]. simpl. by rewrite split_on_break. }
  assert (9 + length (break k).1 < p2) as Hgp by lia.
  rewrite <- L1, <- L2. repeat case_goal; try done.
  - apply discoveryAvailable_spec; [done..|lia].
  - unfold discoverySearch. rewrite <- (Nat.add_0_r p2) in R2.
    pose proof (text_at_length _ _ _ R2). apply search_loop_spec; [done|lia|lia].
  - exists b2. split; [done|]. unfold discoveryExit, spec_exit.
    rewrite (text_at_cstr _ _ _ Hg), bind_Ret. by destruct (TopicStore.evict _ _).
  - apply discoveryRemove_spec; [done..|lia].
  - by exists b2.
Qed.

(** Printable characters are in the domain of [isprint], and where the loop is defined it says whether
    all characters are printable. *)
Lemma isprint_domain c : isprint c = true → char_domain c = true.
Proof. unfold isprint, char_domain. intros [H1%Z.leb_le H2%Z.leb_le]%andb_true_iff. apply orb_true_iff. left. lia. Qed.

Lemma printable_true l : forallb isprint l = true → printable l = Ret true.
Proof.
  induction l as [|c l IH]; [done|]. cbn [forallb printable]. intros [Hc Hl]%andb_true_iff.
  unfold isprint_char. rewrite isprint_domain, bind_Ret, Hc by done. by apply IH.
Qed.

Lemma printable_Ret l b : printable l = Ret b → b = forallb isprint l.
Proof.
  revert b. induction l as [|c l IH]; cbn [forallb printable]; intros b; [by intros [= <-]|].
  unfold isprint_char. destruct (char_domain c); [|done]. rewrite bind_Ret.
  destruct (isprint c); [by intros ->%IH|by intros [= <-]].
Qed.

Lemma printable_domain l : forallb char_domain l = true → printable l = Ret (forallb isprint l).
Proof.
  induction l as [|c l IH]; [done|]. cbn [forallb printable]. intros [Hc Hl]%andb_true_iff.
  unfold isprint_char. rewrite Hc, bind_Ret. destruct (isprint c); [by apply IH|done].
Qed.

Lemma printable_not_Throw l e : printable l ≠ Throw e.
Proof.
  induction l as [|c l IH]; cbn [printable]; [done|]. unfold isprint_char.
  destruct (char_domain c); [|done]. rewrite bind_Ret. by destruct (isprint c).
Qed.

Lemma printable_defined l : defined (printable l) = true → printable l = Ret (forallb isprint l).
Proof.
  intros Hd. destruct (printable l) as [b| |] eqn:E; [by rewrite (printable_Ret _ _ E)|by apply printable_not_Throw in E|done].
Qed.

(** What the loop is undefined on: a [char] that is negative and not [EOF], after printable ones. *)
Definition negative_char (l : list ascii) : Prop :=
  ∃ l1 c l2, l = l1 ++ c :: l2 ∧ forallb isprint l1 = true ∧ (128 <= Z.of_N (N_of_ascii c))%Z ∧
             Z.of_N (N_of_ascii c) ≠ 255%Z.

Lemma printable_Undef l : printable l = Undef ↔ negative_char l.
Proof.
  split.
  - induction l as [|c l IH]; cbn [printable]; [done|]. unfold isprint_char. destruct (char_domain c) eqn:Hc.
    + rewrite bind_Ret. destruct (isprint c) eqn:Hp; [|done]. intros (l1 & d & l2 & -> & H1 & H2)%IH.
      exists (c :: l1), d, l2. split; [done|]. split; [|done]. cbn. by rewrite Hp.
    + intros _. exists [], c, l. apply orb_false_iff in Hc as [H1%Z.ltb_ge H2%Z.eqb_neq]. by split_and!.
  - intros (l1 & c & l2 & -> & H1 & H2 & H3). induction l1 as [|d l1 IH]; cbn [printable app].
    + unfold isprint_char, char_domain. rewrite (proj2 (Z.ltb_ge _ _)), (proj2 (Z.eqb_neq _ _)) by done. done.
    + cbn [forallb] in H1. apply andb_true_iff in H1 as [Hd H1]. unfold isprint_char.
      rewrite isprint_domain, bind_Ret, Hd by done. by apply IH.
Qed.

Lemma printable_readable l : ¬ negative_char l → printable l = Ret (forallb isprint l).
Proof.
  intros Hn. apply printable_defined. destruct (printable l) eqn:E; [done..|].
  exfalso. by apply Hn, printable_Undef.
Qed.

Lemma event_negative s now l : negative_char l → event own sys fresh s now false l = Undef.
Proof. intros Hl%printable_Undef. unfold event. by rewrite Hl. Qed.

Lemma event_readable s now l s' : event own sys fresh s now false l = Ret s' → ¬ negative_char l.
Proof. intros He Hn. by rewrite event_negative in He. Qed.

(** A printable datagram has no terminator inside. *)
Lemma isprint_no_nul l : forallb isprint l = true → NUL ∉ l.
Proof.
  rewrite forallb_forall. intros Hf Hin. apply list_elem_of_In, Hf in Hin. done.
Qed.

Lemma event_spec s now l :
  length l <= EVENT_BUFFER_SIZE → length (receiveBuffer_ s) = S EVENT_BUFFER_SIZE →
  ∃ buf, length buf = S EVENT_BUFFER_SIZE ∧
    event own sys fresh s now false l =
    (ok ← printable l;
     if (ok : bool) then
       s' ← spec_handle own sys fresh
              (set_receive s (l ++ drop (length l) (receiveBuffer_ s))) now l;
       Ret (receive (set_receive s' buf))
     else Ret (receive (set_receive s buf))).
Proof.
  intros Hl Hb. unfold event. cbn [receiveBuffer_ set_receive].
  set (b0 := l ++ drop (length l) (receiveBuffer_ s)).
  assert (length b0 = S EVENT_BUFFER_SIZE) as Hb0
    by (unfold b0; rewrite length_app, length_drop; lia).
  destruct (printable l) as [[]| |] eqn:Hp; [|by exists b0..].
  apply printable_Ret in Hp. rewrite bind_Ret. unfold wr. rewrite decide_True by lia. rewrite bind_Ret.
  assert (text_at (<[length l := NUL]> b0) 0 l) as Ht.
  { split; [by apply isprint_no_nul|]. rewrite drop_0. unfold b0.
    destruct (drop (length l) (receiveBuffer_ s)) as [|c rest] eqn:Ed.
    - apply (f_equal length) in Ed. rewrite length_drop in Ed. simpl in Ed. lia.
    - exists rest. rewrite <- (Nat.add_0_r (length l)). by rewrite insert_app_r. }
  destruct (handleEvent_spec (set_receive s b0) now _ _ Ht Hl) as (buf & Hlen & Heq);
    [by rewrite length_insert|].
  exists buf. split; [by rewrite Hlen, length_insert|]. rewrite Heq.
  by destruct (spec_handle _ _ _ _ _ _).
Qed.

End refinement.
End Directory.
