(* ===== verification/Discovery.v ===== *)
(** * Discovery between directories: what a directory sends and keeps

    Theorems about src/a17/dispatch/directory.cpp on top of the model of
    [Directory]: its buffers (shared with pending sends) are never reused early, no
    operation has undefined behaviour while the advertised texts fit a buffer, the
    search for missing topics is complete and bounded, and advertisements and
    searches written by one node are read back by another. *)

From S2P Require Import Prelude BufferPool Address Topics TopicStore Wire Directory.

Module Discovery.
Import Directory.

(** ** The heap of a directory *)

Definition in_block (p : BufferPool.t) (x : Z) : Prop :=
  (BufferPool.pool_ p <= x < BufferPool.poolEnd_ p)%Z.

Global Instance in_block_dec p : ∀ x, Decision (in_block p x).
Proof. intros x. unfold in_block. apply _. Defined.

(** Buffers of pending sends. *)
Definition ptrs (s : t) : list Z := (λ e, e.1.1) <$> sending s.

(** What the C library guarantees of [::malloc] (that it has memory included): a block
    in use is not handed out again, and the pool's block is in use. *)
Definition malloc_fresh (sys : gset Z → Z) (lo hi : Z) : Prop :=
  ∀ X, (sys X ∉ X) ∧ sys X ≠ 0%Z ∧ ¬ (lo <= sys X < hi)%Z.

(** [live] are the buffers some code still refers to. *)
Record heap_ok (lo hi : Z) (s : t) (live : list Z) : Prop := {
  heap_nodup : NoDup live;
  heap_pool : BufferPool.wf (sendPool_ s) (filter (in_block (sendPool_ s)) live);
  heap_live : ∀ x, x ∈ live → in_block (sendPool_ s) x ∨ x ∈ blocks s;
  heap_lo : BufferPool.pool_ (sendPool_ s) = lo;
  heap_hi : BufferPool.poolEnd_ (sendPool_ s) = hi;
  heap_size : ∀ x b, mem s !! x = Some b → length b = EVENT_BUFFER_SIZE
}.

(** [s'] is [s] after sending [msgs], one datagram each, in order: pending buffers keep
    their contents. *)
Record sends (fresh : list ascii) (s s' : t) (msgs : list (list ascii)) : Prop := {
  sends_guid : my_guid_ s' = my_guid_ s;
  sends_topics : topics_ s' = topics_ s;
  sends_receive : receiveBuffer_ s' = receiveBuffer_ s;
  sends_active : queryTimerActive_ s' = queryTimerActive_ s;
  sends_interval : queryInterval_ s' = queryInterval_ s;
  sends_port : nextServerPort_ s' = nextServerPort_ s;
  sends_calls : ∃ bs, length bs = length msgs ∧
    calls s' = calls s ++ zip_with (λ b m, AsyncSend b 0 (length m) m) bs msgs;
  sends_ptrs : ∃ l, ptrs s' = ptrs s ++ l;
  sends_stable : ∀ x, x ∈ ptrs s → content fresh s' x = content fresh s x
}.

(** ** How the missing names are grouped into datagrams *)

Definition pos_of (startLen : nat) (cur : list string) : nat :=
  startLen + sum_list ((λ n, S (String.length n)) <$> cur).

Fixpoint group (startLen : nat) (cur : list string) (names : list string) : list (list string) :=
  match names with
  | [] => [cur]
  | n :: names' =>
      if bool_decide (EVENT_BUFFER_SIZE <= pos_of startLen cur + 1 + String.length n)
         || bool_decide (4 <= length cur)
      then cur :: group startLen [n] names'
      else group startLen (cur ++ [n]) names'
  end.

Definition batches (startLen : nat) (names : list string) : list (list string) :=
  match names with [] => [] | n :: names' => group startLen [n] names' end.

Definition search_msg (guid : string) (batch : list string) : list ascii :=
  message guid DISCOVERY_SEARCH "" ++ concat ((λ n, SPC :: chars n) <$> batch).

Definition start_len (guid : string) : nat := String.length DISPATCH + String.length guid + 2.

(** Names and guids that a datagram can carry. *)
Definition name_fits (guid n : string) : Prop :=
  nul_free n = true ∧ start_len guid + 1 + String.length n < EVENT_BUFFER_SIZE.

(** ** Everything that can happen to a directory *)

Inductive op : Type :=
  | Add (now : Z) (topic_name : string) (socketType : Z) (address : string)
        (inputTypes outputTypes : gset string)
  | Remove (topic_name : string)
  | Observe (topic_name : string) (h : nat) (uuid : string)
  | Unobserve (topic_name ref : string)
  | Posted (topic_name : string) (h : nat)
  | Timer (ec : bool)
  | Event (now : Z) (ec : bool) (datagram : list ascii)
  | Sent (buf : Z) (pos len : nat) (ec : bool) (bytes : nat).

(** Topics are added under the directory's own guid, as its clients do. *)
Definition step `{Inet} (own : OwnAddress.t) (sys : gset Z → Z) (fresh : list ascii) (s : t) (o : op)
    : outcome t :=
  match o with
  | Add now n ty a ins outs =>
      '(_, s) ← add sys fresh s now n ty a ins outs (my_guid_ s); Ret s
  | Remove n => remove sys fresh s n
  | Observe n h u => Ret (observe s n h u).2
  | Unobserve n r => Ret (unobserve s n r)
  | Posted n h => Ret (posted s n h)
  | Timer ec => queryMissingTopics sys fresh s ec
  | Event now ec l => event own sys fresh s now ec l
  | Sent b pos len ec bytes => sent fresh s b pos len ec bytes
  end.

Definition fits (guid : string) (c : ascii) (args : string) : Prop :=
  length (message guid c args) < EVENT_BUFFER_SIZE.

(** A datagram whose characters [isprint] is defined on, as far as the loop looks at them. *)
Definition checkable (ec : bool) (l : list ascii) : Prop := ec = true ∨ defined (printable l) = true.

(** What the environment does: the local clients keep names and descriptions within a
    datagram and use a known socket type; the socket delivers at most a full buffer and
    completes sends that are pending.  Nothing is asked of the bytes received. *)
Definition admissible (s : t) (o : op) : Prop :=
  match o with
  | Add _ n ty a ins outs =>
      ∃ info, buildTopicInfo n ty a ins outs = Ret info ∧
        fits (my_guid_ s) DISCOVERY_AVAILABLE info ∧ fits (my_guid_ s) DISCOVERY_REMOVE n
  | Observe n _ _ => name_fits (my_guid_ s) n
  | Event _ ec l => length l <= EVENT_BUFFER_SIZE
  | Sent b pos len _ bytes => (b, pos, len) ∈ sending s ∧ bytes <= len
  | _ => True
  end.

Definition interval_ok (i : Z) : Prop := i ∈ [1000; 2000; 4000; 8000; 16000]%Z.

(** A topic of the node itself: its description is what is on record, and fits. *)
Definition local_ok (guid n : string) (x : DirectoryTopic) : Prop :=
  fits guid DISCOVERY_AVAILABLE (dt_info x) ∧ fits guid DISCOVERY_REMOVE n ∧
  buildTopicInfo n (dt_socketType x) (dt_address x) (dt_inputTypes x) (dt_outputTypes x)
    = Ret (dt_info x).

Record inv (lo hi : Z) (s : t) : Prop := {
  inv_store : TopicStore.reach (my_guid_ s) (topics_ s);
  inv_heap : ∃ leaked, heap_ok lo hi s (ptrs s ++ leaked);
  inv_receive : length (receiveBuffer_ s) = S EVENT_BUFFER_SIZE;
  inv_guid : nul_free (my_guid_ s) = true;
  inv_locals : ∀ n x, TopicStore.local_topics_ (topics_ s) !! n = Some x → local_ok (my_guid_ s) n x;
  inv_observers : ∀ n o, (n, o) ∈ TopicStore.observers (topics_ s) → name_fits (my_guid_ s) n;
  inv_interval : queryTimerActive_ s = true → interval_ok (queryInterval_ s)
}.

(** Buffers of sends that stay pending keep their bytes. *)
Definition stable (fresh : list ascii) (s s' : t) : Prop :=
  ∀ x, x ∈ ptrs s → content fresh s' x = content fresh s x.

(** ** Lemmas *)

Lemma pos_of_snoc startLen cur n : pos_of startLen (cur ++ [n]) = pos_of startLen cur + S (String.length n).
Proof. unfold pos_of. rewrite fmap_app, sum_list_with_app. simpl. lia. Qed.

Lemma length_message_search guid :
  nul_free guid = true → length (message guid DISCOVERY_SEARCH "") = start_len guid.
Proof.
  intros Hg. unfold message, start_len. rewrite c_str_nul_free by done.
  rewrite decide_True by done. rewrite !length_app, !length_chars. simpl. lia.
Qed.

Lemma length_search_msg guid cur :
  nul_free guid = true → length (search_msg guid cur) = pos_of (start_len guid) cur.
Proof.
  intros Hg. unfold search_msg, pos_of. rewrite length_app, length_message_search by done. f_equal.
  induction cur as [|n cur IH]; [done|]. cbn [fmap list_fmap concat].
  rewrite length_app, IH. simpl. rewrite length_chars. lia.
Qed.

Lemma search_msg_snoc guid cur n :
  search_msg guid (cur ++ [n]) = search_msg guid cur ++ SPC :: chars n.
Proof.
  unfold search_msg. rewrite fmap_app, concat_app, <- !app_assoc. simpl. by rewrite app_nil_r.
Qed.

Lemma pos_of_nil startLen : pos_of startLen [] = startLen.
Proof. unfold pos_of. simpl. lia. Qed.

Lemma pos_of_lt startLen cur : cur ≠ [] → startLen < pos_of startLen cur.
Proof. destruct cur; [done|]. unfold pos_of. simpl. lia. Qed.

Lemma pos_of_one startLen n : pos_of startLen [n] = startLen + S (String.length n).
Proof. unfold pos_of. simpl. lia. Qed.

(** Grouping keeps the names, in order, at most four to a batch, none empty, and
    every datagram within the buffer. *)
Lemma group_spec startLen cur names :
  cur ≠ [] → length cur <= 4 → pos_of startLen cur < EVENT_BUFFER_SIZE →
  Forall (λ n, startLen + 1 + String.length n < EVENT_BUFFER_SIZE) names →
  concat (group startLen cur names) = cur ++ names ∧
  Forall (λ batch, batch ≠ [] ∧ length batch <= 4 ∧ pos_of startLen batch < EVENT_BUFFER_SIZE)
    (group startLen cur names).
Proof.
  intros Hne Hlen Hpos Hn. revert cur Hne Hlen Hpos.
  induction Hn as [|n names Hx Hn IH]; intros cur Hne Hlen Hpos; cbn [group].
  - simpl. split; [done|]. by apply Forall_singleton.
  - destruct (_ || _) eqn:Hfull.
    + destruct (IH [n]) as [IH1 IH2]; [done|simpl; lia|rewrite pos_of_one; lia|].
      simpl. rewrite IH1. split; [done|]. by apply Forall_cons.
    + apply orb_false_iff in Hfull as [Hp%bool_decide_eq_false Hc%bool_decide_eq_false].
      destruct (IH (cur ++ [n])) as [IH1 IH2];
        [by destruct cur|rewrite length_app; simpl; lia|rewrite pos_of_snoc; lia|].
      rewrite IH1, <- app_assoc. done.
Qed.

Lemma batches_spec startLen names :
  Forall (λ n, startLen + 1 + String.length n < EVENT_BUFFER_SIZE) names →
  concat (batches startLen names) = names ∧
  Forall (λ batch, batch ≠ [] ∧ length batch <= 4 ∧ pos_of startLen batch < EVENT_BUFFER_SIZE)
    (batches startLen names).
Proof.
  destruct 1 as [|n names Hx Hn]; [by split|]. simpl.
  apply (group_spec _ [n]); [done|simpl; lia|rewrite pos_of_one; lia|done].
Qed.

(** The back-off of the query interval. *)
Definition next_interval (i : Z) : Z :=
  let i1 := if (i <? QUERY_INTERVAL_MAX)%Z then (i * QUERY_INTERVAL_MULT)%Z else i in
  if (QUERY_INTERVAL_MAX <? i1)%Z then QUERY_INTERVAL_MAX else i1.

Lemma next_interval_ok i : interval_ok i → interval_ok (next_interval i).
Proof.
  unfold interval_ok. rewrite !elem_of_cons, elem_of_nil. intros Hi.
  destruct_or! Hi; subst; vm_compute; tauto.
Qed.

Section heap.
Context (sys : gset Z → Z) (fresh : list ascii) (lo hi : Z).
Context (Hsys : malloc_fresh sys lo hi) (Hfresh : length fresh = EVENT_BUFFER_SIZE).

Lemma pool_malloc_ok s live :
  heap_ok lo hi s live →
  ∃ p ptr k, pool_malloc sys s = Ret (set_heap s p (mem s) k, ptr) ∧
    heap_ok lo hi (set_heap s p (mem s) k) (ptr :: live) ∧ ptr ≠ 0%Z.
Proof.
  intros [Hnd Hwf Hlive Hlo Hhi Hsz]. unfold pool_malloc. pose proof Hwf as (Hr & Hb & HP).
  pose proof Hb as (Hb1 & Hb2 & Hb3 & Hb4).
  destruct (BufferPool.free_list (sendPool_ s)) as [|x q] eqn:Hfl.
  - rewrite (BufferPool.malloc_empty _ _ Hr Hfl), bind_Ret.
    assert (BufferPool.empty (sendPool_ s) = true) as ->.
    { apply bool_decide_eq_true, BufferPool.empty_ring_len; [done|].
      by rewrite <- BufferPool.length_free_list, Hfl. }
    destruct (Hsys (blocks s)) as (Hs1 & Hs2 & Hs3).
    do 3 eexists. split; [done|]. split; [|done].
    assert (¬ in_block (sendPool_ s) (sys (blocks s))) as Hnb by (unfold in_block; by rewrite Hlo, Hhi).
    split; simpl; [|..|done|done|done].
    + apply NoDup_cons. split; [|done]. intros [|]%Hlive; done.
    + by rewrite filter_cons_False.
    + intros y [->|Hy]%elem_of_cons; [set_solver|]. apply Hlive in Hy. set_solver.
  - destruct (BufferPool.malloc_dequeue _ x q (sys (blocks s)) Hr Hfl) as (p' & -> & Hfl' & Hr' & Hp').
    rewrite bind_Ret. do 3 eexists. split; [done|].
    assert (x ∈ BufferPool.buffers (sendPool_ s)) as Hx by (rewrite <- HP; set_solver).
    pose proof (BufferPool.buffers_in_block _ _ Hb Hx) as Hxb.
    assert (BufferPool.empty (sendPool_ s) = false) as ->.
    { apply bool_decide_eq_false. rewrite <- BufferPool.empty_ring_len by done.
      rewrite <- BufferPool.length_free_list, Hfl. done. }
    assert (∀ y, in_block p' y ↔ in_block (sendPool_ s) y) as Hin by (by rewrite Hp').
    assert (filter (in_block p') live = filter (in_block (sendPool_ s)) live) as Hf
      by (apply list_filter_iff; auto).
    split; [|lia]. split; simpl; [|..|by rewrite Hp'|by rewrite Hp'|done].
    + apply NoDup_cons. split; [|done]. intros Hxl.
      pose proof (BufferPool.wf_NoDup _ _ Hwf) as Hnd'. rewrite Hfl in Hnd'.
      apply NoDup_cons in Hnd' as [Hnx _]. apply Hnx, elem_of_app. right.
      by apply list_elem_of_filter.
    + rewrite filter_cons_True by (by rewrite Hin). rewrite Hf.
      split_and!; [done|by rewrite Hp'|]. rewrite Hfl'.
      replace (BufferPool.buffers p') with (BufferPool.buffers (sendPool_ s)) by (by rewrite Hp').
      rewrite <- HP. by rewrite <- Permutation_middle.
    + intros y [->|Hy]%elem_of_cons; [by left; rewrite Hin|]. rewrite Hin. by apply Hlive.
Qed.

Lemma heap_ok_mono s live live' :
  heap_ok lo hi s live → live ≡ₚ live' → heap_ok lo hi s live'.
Proof.
  intros [Hnd Hwf Hlive Hlo Hhi Hsz] HP. split; try done.
  - by rewrite <- HP.
  - destruct Hwf as (? & ? & Hw). split_and!; [done..|]. by rewrite <- HP.
  - intros x. rewrite <- HP. apply Hlive.
Qed.

Lemma length_content s live x : heap_ok lo hi s live → length (content fresh s x) = EVENT_BUFFER_SIZE.
Proof.
  intros Hh. unfold content. destruct (mem s !! x) as [b|] eqn:E; simpl; [|done].
  by eapply heap_size.
Qed.

(** Only the heap of a directory differs. *)
Definition with_mem (s : t) (m : gmap Z (list ascii)) : t := set_heap s (sendPool_ s) m (blocks s).

Lemma with_mem_ok s live ptr b :
  heap_ok lo hi s live → length b = EVENT_BUFFER_SIZE →
  heap_ok lo hi (with_mem s (<[ptr := b]> (mem s))) live.
Proof.
  intros [Hnd Hwf Hlive Hlo Hhi Hsz] Hb. split; try done. intros x c. simpl.
  rewrite lookup_insert_Some. intros [[_ <-]|[_ ?]]; [done|by eapply Hsz].
Qed.

Lemma put_ok s live ptr pos text :
  heap_ok lo hi s live → ptr ≠ 0%Z → pos + length text < EVENT_BUFFER_SIZE →
  ∃ b, put fresh s ptr pos text = Ret (with_mem s (<[ptr := b]> (mem s))) ∧
    length b = EVENT_BUFFER_SIZE ∧
    take (pos + length text) b = take pos (content fresh s ptr) ++ text.
Proof.
  intros Hh Hp Hlt. pose proof (length_content _ _ ptr Hh) as Hlen.
  unfold put. rewrite Hlen, bool_decide_eq_true_2 by done. rewrite bool_decide_eq_true_2 by done.
  simpl. eexists. split; [done|]. split.
  - rewrite !length_app, length_take, length_cons, length_drop. lia.
  - rewrite app_assoc. rewrite take_app_length'; [done|].
    rewrite length_app, length_take. lia.
Qed.

Lemma put_char_ok s live ptr pos c :
  heap_ok lo hi s live → ptr ≠ 0%Z → pos < EVENT_BUFFER_SIZE →
  ∃ b, put_char fresh s ptr pos c = Ret (with_mem s (<[ptr := b]> (mem s))) ∧
    length b = EVENT_BUFFER_SIZE ∧ take (S pos) b = take pos (content fresh s ptr) ++ [c].
Proof.
  intros Hh Hp Hlt. pose proof (length_content _ _ ptr Hh) as Hlen.
  unfold put_char. rewrite bool_decide_eq_true_2 by done.
  unfold wr. rewrite decide_True by lia. rewrite bind_Ret.
  eexists. split; [done|]. split; [by rewrite length_insert|].
  rewrite insert_take_drop by lia. rewrite take_app_ge by (rewrite length_take; lia).
  rewrite length_take, Nat.min_l by lia. by replace (S pos - pos) with 1 by lia.
Qed.

Lemma content_with_mem s ptr b : content fresh (with_mem s (<[ptr := b]> (mem s))) ptr = b.
Proof. unfold content. simpl. by rewrite lookup_insert_eq. Qed.

Lemma content_with_mem_ne s ptr b x :
  x ≠ ptr → content fresh (with_mem s (<[ptr := b]> (mem s))) x = content fresh s x.
Proof. intros Hx. unfold content. simpl. by rewrite lookup_insert_ne. Qed.

Lemma ptrs_send s b pos len : ptrs (_send fresh s b pos len) = ptrs s ++ [b].
Proof. unfold ptrs. simpl. by rewrite fmap_app. Qed.

Lemma heap_ok_send s b pos len leaked :
  heap_ok lo hi s (b :: ptrs s ++ leaked) →
  heap_ok lo hi (_send fresh s b pos len) (ptrs (_send fresh s b pos len) ++ leaked).
Proof.
  intros Hh. rewrite ptrs_send, <- app_assoc. simpl. eapply heap_ok_mono in Hh.
  - destruct Hh as [H1 H2 H3 H4 H5 H6]. by split; [apply H1|apply H2|..].
  - by rewrite Permutation_middle.
Qed.

(** No buffer is in use by the code, [leaked] are those of failed sends. *)
Definition idle (s : t) (leaked : list Z) : Prop := heap_ok lo hi s (ptrs s ++ leaked).

Lemma sends_nil s : sends fresh s s [].
Proof.
  split; try done; [exists []; simpl; by rewrite app_nil_r|exists []; by rewrite app_nil_r].
Qed.

Lemma sends_app s1 s2 s3 m1 m2 :
  sends fresh s1 s2 m1 → sends fresh s2 s3 m2 → sends fresh s1 s3 (m1 ++ m2).
Proof.
  intros [A1 A2 A3 A4 A5 A6 (b1 & L1 & C1) (l1 & P1) S1] [B1 B2 B3 B4 B5 B6 (b2 & L2 & C2) (l2 & P2) S2].
  split; try congruence.
  - exists (b1 ++ b2). rewrite !length_app. split; [lia|].
    rewrite C2, C1, <- app_assoc. f_equal. by rewrite zip_with_app by done.
  - exists (l1 ++ l2). by rewrite P2, P1, app_assoc.
  - intros x Hx. rewrite S2; [by apply S1|]. rewrite P1. set_solver.
Qed.

Lemma sends_flush s b m :
  take (length m) (content fresh s b) = m → sends fresh s (_send fresh s b 0 (length m)) [m].
Proof.
  intros Hm. split; try done.
  - exists [b]. split; [done|]. cbn [_send set_sending emit calls zip_with].
    by rewrite drop_0, Hm.
  - exists [b]. by rewrite ptrs_send.
Qed.

(** A message is written to a buffer of its own and its sending started. *)
Lemma send_starts s leaked c args :
  idle s leaked → length (message (my_guid_ s) c args) < EVENT_BUFFER_SIZE →
  let m := message (my_guid_ s) c args in
  ∃ s2 b, send sys fresh s c args = Ret (_send fresh s2 b 0 (length m)) ∧
    heap_ok lo hi s2 (b :: ptrs s ++ leaked) ∧ take (length m) (content fresh s2 b) = m ∧
    sending s2 = sending s ∧ sends fresh s s2 [].
Proof.
  intros Hok Hfit m. unfold send.
  destruct (pool_malloc_ok _ _ Hok) as (p & b & k & -> & Hok1 & Hb). rewrite bind_Ret.
  set (s1 := set_heap s p (mem s) k) in *. change (my_guid_ s1) with (my_guid_ s). fold m.
  destruct (put_ok s1 _ b 0 m Hok1 Hb) as (bb & -> & Hlen & Htake); [unfold m; lia|]. rewrite bind_Ret.
  rewrite Nat.add_0_l, take_0, app_nil_l in Htake. set (s2 := with_mem s1 (<[b := bb]> (mem s1))).
  assert (heap_ok lo hi s2 (b :: ptrs s ++ leaked)) as Hok2 by (by apply with_mem_ok).
  exists s2, b. split_and!; [done|done|unfold s2; by rewrite content_with_mem|done|].
  assert (b ∉ ptrs s) as Hnb.
  { apply heap_nodup in Hok2. apply NoDup_cons in Hok2. set_solver. }
  split; try done; [exists []; simpl; by rewrite app_nil_r|exists []; by rewrite app_nil_r|].
  intros x Hx. unfold s2. rewrite content_with_mem_ne by set_solver. done.
Qed.

Lemma send_ok s leaked c args :
  idle s leaked → length (message (my_guid_ s) c args) < EVENT_BUFFER_SIZE →
  ∃ s', send sys fresh s c args = Ret s' ∧ idle s' leaked ∧
        sends fresh s s' [message (my_guid_ s) c args].
Proof.
  intros Hok Hfit. destruct (send_starts s leaked c args Hok Hfit) as (s2 & b & -> & Hok2 & Htake & Hse & Hs).
  eexists. split; [done|]. assert (ptrs s2 = ptrs s) as Hp by (unfold ptrs; by rewrite Hse). rewrite <-Hp in Hok2.
  split; [by apply heap_ok_send|]. eapply (sends_app _ s2 _ [] [_]); [exact Hs|]. by apply sends_flush.
Qed.

(** Every text in [l] fits an [AVAILABLE] message. *)
Definition infos_fit (guid : string) (l : list DirectoryTopic) : Prop :=
  Forall (λ x, length (message guid DISCOVERY_AVAILABLE (dt_info x)) < EVENT_BUFFER_SIZE) l.

Definition available (guid : string) (x : DirectoryTopic) : list ascii :=
  message guid DISCOVERY_AVAILABLE (dt_info x).

Lemma reply_all_ok s leaked l :
  idle s leaked → infos_fit (my_guid_ s) l →
  ∃ s', reply_all sys fresh s l = Ret s' ∧ idle s' leaked ∧
        sends fresh s s' (available (my_guid_ s) <$> l).
Proof.
  intros Hok Hl. revert s Hok Hl. induction l as [|x l IH]; intros s Hok Hl.
  - exists s. split; [done|]. split; [done|]. apply sends_nil.
  - apply Forall_cons in Hl as [Hx Hl]. cbn [reply_all]. unfold reply, broadcast.
    destruct (send_ok s leaked _ _ Hok Hx) as (s1 & -> & Hok1 & Hs1). rewrite bind_Ret.
    pose proof (sends_guid _ _ _ _ Hs1) as Hg. rewrite <- Hg in Hl.
    destruct (IH s1 Hok1 Hl) as (s2 & -> & Hok2 & Hs2). exists s2. split; [done|].
    split; [done|]. rewrite Hg in Hs2. by apply (sends_app _ _ _ _ _ Hs1 Hs2).
Qed.

(** The topics a search for [n] asks this node for. *)
Definition answers (st : TopicStore.t) (n : string) : list DirectoryTopic :=
  if decide (n = "*") then TopicStore.locals st
  else match TopicStore.findLocal st n with Some x => [x] | None => [] end.

Lemma elem_of_locals st x : x ∈ TopicStore.locals st ↔ ∃ n, TopicStore.local_topics_ st !! n = Some x.
Proof.
  unfold TopicStore.locals. rewrite list_elem_of_fmap. split.
  - intros ([n y] & -> & Hn%elem_of_map_iter). by exists n.
  - intros [n Hn]. exists (n, x). split; [done|]. by apply elem_of_map_iter.
Qed.

Lemma answers_fit st guid n :
  infos_fit guid (TopicStore.locals st) → infos_fit guid (answers st n).
Proof.
  unfold answers, infos_fit. intros Hl. case_decide; [done|].
  destruct (TopicStore.findLocal st n) as [x|] eqn:E; [|by constructor].
  apply Forall_singleton. rewrite Forall_forall in Hl. apply Hl, elem_of_locals. eauto.
Qed.

Lemma search_name_reply s n :
  search_name sys fresh s n = reply_all sys fresh s (answers (topics_ s) n).
Proof.
  unfold search_name, answers. case_decide; [done|].
  destruct (TopicStore.findLocal _ _) as [x|]; [|done]. simpl.
  by destruct (reply _ _ _ _ _).
Qed.

Lemma spec_search_ok s leaked names :
  idle s leaked → infos_fit (my_guid_ s) (TopicStore.locals (topics_ s)) →
  ∃ s', spec_search sys fresh s names = Ret s' ∧ idle s' leaked ∧
    sends fresh s s' (available (my_guid_ s) <$>
      (filter (λ w, w ≠ []) names ≫= λ w, answers (topics_ s) (str w))).
Proof.
  revert s. induction names as [|w names IH]; intros s Hok Hl.
  - exists s. split; [done|]. split; [done|]. apply sends_nil.
  - cbn [spec_search]. destruct (decide (w = [])) as [->|Hw].
    + rewrite bind_Ret. rewrite filter_cons_False by naive_solver. by apply IH.
    + rewrite search_name_reply, filter_cons_True by done.
      destruct (reply_all_ok s leaked _ Hok (answers_fit _ _ (str w) Hl)) as (s1 & -> & Hok1 & Hs1).
      rewrite bind_Ret. cbn [mbind list_bind]. rewrite fmap_app.
      pose proof (sends_guid _ _ _ _ Hs1) as Hg. pose proof (sends_topics _ _ _ _ Hs1) as Ht.
      destruct (IH s1 Hok1) as (s2 & -> & Hok2 & Hs2); [by rewrite Hg, Ht|].
      rewrite Hg, Ht in Hs2. exists s2. split; [done|]. split; [done|].
      by apply (sends_app _ _ _ _ _ Hs1 Hs2).
Qed.

Lemma sends_pool s p k : sends fresh s (set_heap s p (mem s) k) [].
Proof.
  split; try done; [exists []; simpl; by rewrite app_nil_r|exists []; by rewrite app_nil_r].
Qed.

Lemma sends_mem s b bb : (b ∉ ptrs s) → sends fresh s (with_mem s (<[b := bb]> (mem s))) [].
Proof.
  intros Hb. split; try done;
    [exists []; simpl; by rewrite app_nil_r|exists []; by rewrite app_nil_r|].
  intros x Hx. apply content_with_mem_ne. set_solver.
Qed.

(** A buffer being filled with the names [cur]. *)
Definition filling (s : t) (leaked : list Z) (b : Z) (cur : list string) : Prop :=
  heap_ok lo hi s (b :: ptrs s ++ leaked) ∧ b ≠ 0%Z ∧
  take (pos_of (start_len (my_guid_ s)) cur) (content fresh s b) = search_msg (my_guid_ s) cur.

Lemma filling_not_sent s leaked b cur : filling s leaked b cur → b ∉ ptrs s.
Proof. intros (Hh & _). apply heap_nodup, NoDup_cons in Hh. set_solver. Qed.

(** A new buffer with the head of the message. *)
Lemma query_open s leaked :
  idle s leaked → nul_free (my_guid_ s) = true →
  start_len (my_guid_ s) < EVENT_BUFFER_SIZE →
  ∃ s1 s2 b, pool_malloc sys s = Ret (s1, b) ∧ my_guid_ s1 = my_guid_ s ∧
    put fresh s1 b 0 (message (my_guid_ s) DISCOVERY_SEARCH "") = Ret s2 ∧
    filling s2 leaked b [] ∧ sends fresh s s2 [].
Proof.
  intros Hok Hg Hlt. destruct (pool_malloc_ok _ _ Hok) as (p & b & k & -> & Hok1 & Hb).
  set (s1 := set_heap s p (mem s) k) in *. pose proof (length_message_search _ Hg) as Hm.
  destruct (put_ok s1 _ b 0 (message (my_guid_ s) DISCOVERY_SEARCH "") Hok1 Hb)
    as (bb & Hput & Hlen & Htake); [lia|].
  rewrite Nat.add_0_l, take_0, app_nil_l, Hm in Htake.
  do 3 eexists. split_and!; [done|done|exact Hput| |].
  - split_and!; [by apply with_mem_ok|done|]. rewrite content_with_mem. unfold pos_of.
    cbn [my_guid_ with_mem set_heap s1]. simpl sum_list. rewrite Nat.add_0_r, Htake.
    unfold search_msg. simpl concat. by rewrite app_nil_r.
  - eapply (sends_app _ s1 _ [] []); [apply sends_pool|]. apply sends_mem.
    apply heap_nodup, NoDup_cons in Hok1. set_solver.
Qed.

(** Appending a name. *)
Lemma query_append s leaked b cur n :
  filling s leaked b cur → nul_free n = true →
  pos_of (start_len (my_guid_ s)) cur + 1 + String.length n < EVENT_BUFFER_SIZE →
  ∃ s1 s2, put_char fresh s b (pos_of (start_len (my_guid_ s)) cur) SPC = Ret s1 ∧
    put fresh s1 b (S (pos_of (start_len (my_guid_ s)) cur)) (chars (c_str n)) = Ret s2 ∧
    filling s2 leaked b (cur ++ [n]) ∧ sends fresh s s2 [].
Proof.
  intros Hfill Hn Hlt. pose proof (filling_not_sent _ _ _ _ Hfill) as Hnb.
  destruct Hfill as (Hh & Hb & Htake). set (pos := pos_of _ cur) in *.
  destruct (put_char_ok s _ b pos SPC Hh Hb) as (b1 & Hputc & L1 & T1); [lia|].
  set (s1 := with_mem s (<[b := b1]> (mem s))).
  assert (heap_ok lo hi s1 (b :: ptrs s ++ leaked)) as Hh1 by (by apply with_mem_ok).
  rewrite (c_str_nul_free n) by done.
  destruct (put_ok s1 _ b (S pos) (chars n) Hh1 Hb) as (b2 & Hput & L2 & T2);
    [rewrite length_chars; lia|].
  do 2 eexists. split_and!; [exact Hputc|exact Hput| |].
  - split_and!; [by apply with_mem_ok|done|].
    rewrite content_with_mem. change (my_guid_ (with_mem _ _)) with (my_guid_ s).
    rewrite pos_of_snoc. fold pos. rewrite length_chars in T2.
    replace (pos + S (String.length n)) with (S pos + String.length n) by lia.
    rewrite T2. unfold s1. rewrite content_with_mem, T1, Htake, search_msg_snoc.
    by rewrite <- app_assoc.
  - eapply (sends_app _ s1 _ [] []); [by apply sends_mem|]. by apply sends_mem.
Qed.

(** Sending the buffer being filled. *)
Lemma query_flush s leaked b cur :
  filling s leaked b cur → nul_free (my_guid_ s) = true →
  let s' := _send fresh s b 0 (pos_of (start_len (my_guid_ s)) cur) in
  idle s' leaked ∧ sends fresh s s' [search_msg (my_guid_ s) cur].
Proof.
  intros (Hh & Hb & Htake) Hg. rewrite <- length_search_msg in * by done.
  split; [by apply heap_ok_send|by apply sends_flush].
Qed.

Lemma query_loop_ok names s leaked b cur :
  filling s leaked b cur → nul_free (my_guid_ s) = true →
  Forall (name_fits (my_guid_ s)) names →
  ∃ front last_ s' b',
    group (start_len (my_guid_ s)) cur names = front ++ [last_] ∧
    query_loop sys fresh s (Some b) (pos_of (start_len (my_guid_ s)) cur) (length cur)
      (start_len (my_guid_ s)) names =
    Ret (s', Some b', pos_of (start_len (my_guid_ s)) last_, start_len (my_guid_ s)) ∧
    filling s' leaked b' last_ ∧ sends fresh s s' (search_msg (my_guid_ s) <$> front).
Proof.
  revert s b cur. induction names as [|n names IH]; intros s b cur Hfill Hg Hnames.
  { exists [], cur, s, b. split_and!; [done|done|done|apply sends_nil]. }
  apply Forall_cons in Hnames as [[Hn Hnf] Hnames]. cbn [query_loop group].
  change (String.length DISPATCH + String.length (my_guid_ s) + 2) with (start_len (my_guid_ s)).
  set (g := my_guid_ s) in *. set (sl := start_len g) in *.
  destruct (bool_decide (EVENT_BUFFER_SIZE <= pos_of sl cur + 1 + String.length n)
            || bool_decide (4 <= length cur)) eqn:Hfull.
  - destruct (query_flush _ _ _ _ Hfill Hg) as [Hok1 Hs1]. fold g sl in Hok1, Hs1.
    set (s1 := _send fresh s b 0 (pos_of sl cur)) in *.
    destruct (query_open s1 leaked Hok1) as (s2 & s3 & b3 & -> & Hg2 & Hput & Hf3 & Hs3);
      [done|change (my_guid_ s1) with g; fold sl; lia|].
    change (my_guid_ s1) with g in *. rewrite bind_Ret, Hg2, Hput, !bind_Ret.
    pose proof (sends_guid _ _ _ _ Hs3) as Hg3. change (my_guid_ s1) with g in Hg3.
    destruct (query_append _ _ _ _ n Hf3 Hn) as (s4 & s5 & Hp4 & Hp5 & Hf5 & Hs5);
      [rewrite Hg3, pos_of_nil; fold sl; lia|].
    rewrite Hg3, pos_of_nil in Hp4, Hp5. fold sl in Hp4, Hp5.
    rewrite Hp4, bind_Ret, Hp5, bind_Ret.
    pose proof (sends_guid _ _ _ _ Hs5) as Hg5. rewrite Hg3 in Hg5.
    destruct (IH s5 b3 [n] Hf5) as (front & last_ & s' & b' & Hgr & Hq & Hf' & Hs');
      [by rewrite Hg5|by rewrite Hg5|].
    rewrite Hg5 in Hgr, Hq, Hs'. fold sl in Hgr, Hq.
    exists (cur :: front), last_, s', b'. split_and!; [by rewrite Hgr| |done|].
    + replace (S sl + String.length n) with (pos_of sl [n]) by (rewrite pos_of_one; lia). exact Hq.
    + cbn [fmap list_fmap]. apply (sends_app _ _ _ [_] _ Hs1).
      apply (sends_app _ _ _ [] _ Hs3), (sends_app _ _ _ [] _ Hs5 Hs').
  - rewrite bind_Ret. apply orb_false_iff in Hfull as [Hpos Hcnt].
    apply bool_decide_eq_false in Hpos.
    destruct (query_append _ _ _ _ n Hfill Hn) as (s4 & s5 & Hp4 & Hp5 & Hf5 & Hs5);
      [fold g sl; lia|]. fold g sl in Hp4, Hp5. rewrite Hp4, bind_Ret, Hp5, bind_Ret.
    pose proof (sends_guid _ _ _ _ Hs5) as Hg5. fold g in Hg5.
    destruct (IH s5 b (cur ++ [n]) Hf5) as (front & last_ & s' & b' & Hgr & Hq & Hf' & Hs');
      [by rewrite Hg5|by rewrite Hg5|].
    rewrite Hg5 in Hgr, Hq, Hs'. fold sl in Hgr, Hq.
    exists front, last_, s', b'. split_and!; [done| |done|].
    + rewrite pos_of_snoc, length_app, Nat.add_1_r, Nat.add_succ_r in Hq. exact Hq.
    + apply (sends_app _ _ _ [] _ Hs5 Hs').
Qed.

Lemma queryMissingTopics_ok s leaked :
  idle s leaked → nul_free (my_guid_ s) = true →
  Forall (name_fits (my_guid_ s)) (set_iter (TopicStore.getMissing (topics_ s))) →
  TopicStore.getMissing (topics_ s) ≠ ∅ →
  ∃ s', queryMissingTopics sys fresh s false = Ret s' ∧ idle s' leaked ∧
    sends fresh (set_query (emit s [TimerExpires (queryInterval_ s); TimerWait])
                   (queryTimerActive_ s) (next_interval (queryInterval_ s))) s'
      (search_msg (my_guid_ s) <$>
         batches (start_len (my_guid_ s)) (set_iter (TopicStore.getMissing (topics_ s)))).
Proof.
  intros Hok Hg Hnames Hne. unfold queryMissingTopics.
  rewrite decide_False by done. rewrite <- set_iter_nil in Hne.
  set (s0 := set_query _ _ _).
  change (set_query (emit s [TimerExpires (queryInterval_ s); TimerWait]) (queryTimerActive_ s)
            (next_interval (queryInterval_ s))) with s0.
  assert (idle s0 leaked) as Hok0 by (by destruct Hok; split).
  destruct (set_iter (TopicStore.getMissing (topics_ s))) as [|n names]; [done|].
  apply Forall_cons in Hnames as [[Hn Hnf] Hnames]. cbn [query_loop batches].
  change (String.length DISPATCH + String.length (my_guid_ s0) + 2) with (start_len (my_guid_ s0)).
  change (my_guid_ s) with (my_guid_ s0) in *. set (g := my_guid_ s0) in *. set (sl := start_len g) in *.
  destruct (query_open s0 leaked Hok0) as (s2 & s3 & b3 & -> & Hg2 & Hput & Hf3 & Hs3); [done|fold g sl; lia|].
  fold g in Hg2, Hput. rewrite bind_Ret, Hg2, Hput, !bind_Ret.
  pose proof (sends_guid _ _ _ _ Hs3) as Hg3. fold g in Hg3.
  destruct (query_append _ _ _ _ n Hf3 Hn) as (s4 & s5 & Hp4 & Hp5 & Hf5 & Hs5);
    [rewrite Hg3, pos_of_nil; fold sl; lia|].
  rewrite Hg3, pos_of_nil in Hp4, Hp5. fold sl in Hp4, Hp5.
  rewrite Hp4, bind_Ret, Hp5, bind_Ret.
  pose proof (sends_guid _ _ _ _ Hs5) as Hg5. rewrite Hg3 in Hg5.
  destruct (query_loop_ok names s5 leaked b3 [n] Hf5) as (front & last_ & s' & b' & Hgr & Hq & Hf' & Hs');
    [by rewrite Hg5|by rewrite Hg5|].
  rewrite Hg5 in Hgr, Hq, Hs'. fold sl in Hgr, Hq.
  replace (S sl + String.length n) with (pos_of sl [n]) by (rewrite pos_of_one; lia).
  change (length [n]) with 1 in Hq. rewrite Hq, bind_Ret.
  assert (last_ ≠ []) as Hlast.
  { destruct (group_spec sl [n] names) as [_ Hall]; [done|simpl; lia|rewrite pos_of_one; lia| |].
    - eapply Forall_impl; [exact Hnames|]. by intros m [_ Hm].
    - rewrite Hgr in Hall. apply Forall_app in Hall as [_ [Hl _]%Forall_singleton]. done. }
  rewrite decide_True by (by apply pos_of_lt).
  pose proof (sends_guid _ _ _ _ Hs') as Hg'. rewrite Hg5 in Hg'.
  destruct (query_flush _ _ _ _ Hf') as [Hok' Hfl]; [by rewrite Hg'|]. rewrite Hg' in Hok', Hfl.
  fold sl in Hok', Hfl. eexists. split; [done|]. split; [done|].
  rewrite Hgr, fmap_app. apply (sends_app _ s' _ _ [_]); [|done].
  apply (sends_app _ s3 _ [] _ Hs3), (sends_app _ s5 _ [] _ Hs5 Hs').
Qed.

(** *** The invariant *)

Lemma heap_ok_ext s s' live :
  sendPool_ s' = sendPool_ s → mem s' = mem s → blocks s' = blocks s →
  heap_ok lo hi s live → heap_ok lo hi s' live.
Proof. intros Hp Hm Hb [? ? ? ? ? ?]. split; rewrite ?Hp, ?Hm, ?Hb; done. Qed.

Lemma inv_sends s s' leaked msgs :
  inv lo hi s → sends fresh s s' msgs → idle s' leaked → inv lo hi s'.
Proof.
  intros [H1 H2 H3 H4 H5 H6 H7] [G1 G2 G3 G4 G5 G6 _ _ _] Hok.
  split; rewrite ?G1, ?G2, ?G3, ?G4, ?G5; eauto.
Qed.

(** A change of the store, with its notifications. *)
Lemma inv_store_change s st es :
  inv lo hi s → TopicStore.reach (my_guid_ s) st →
  (∀ n x, TopicStore.local_topics_ st !! n = Some x → local_ok (my_guid_ s) n x) →
  (∀ n o, (n, o) ∈ TopicStore.observers st → name_fits (my_guid_ s) n) →
  inv lo hi (emit (set_topics s st) es).
Proof.
  intros [H1 [l H2] H3 H4 H5 H6 H7] Hr Hl Ho. split; try done.
  exists l. by eapply heap_ok_ext; [..|exact H2].
Qed.

Lemma inv_emit s es : inv lo hi s → inv lo hi (emit s es).
Proof.
  intros [H1 [l H2] H3 H4 H5 H6 H7]. split; try done.
  exists l. by eapply heap_ok_ext; [..|exact H2].
Qed.

Lemma inv_set_query s b i :
  inv lo hi s → (b = true → interval_ok i) → inv lo hi (set_query s b i).
Proof.
  intros [H1 [l H2] H3 H4 H5 H6 H7] Hi. split; try done.
  exists l. by eapply heap_ok_ext; [..|exact H2].
Qed.

Lemma inv_set_receive s b :
  inv lo hi s → length b = S EVENT_BUFFER_SIZE → inv lo hi (set_receive s b).
Proof.
  intros [H1 [l H2] H3 H4 H5 H6 H7] Hb. split; try done.
  exists l. by eapply heap_ok_ext; [..|exact H2].
Qed.

Lemma inv_startQueryTimer s : inv lo hi s → inv lo hi (startQueryTimer s).
Proof.
  intros Hi. unfold startQueryTimer. apply inv_emit, inv_set_query; [|intros _; by constructor].
  destruct (queryTimerActive_ s); [by apply inv_emit|done].
Qed.

Lemma stable_refl s s' : mem s' = mem s → stable fresh s s'.
Proof. intros Hm x _. unfold content. by rewrite Hm. Qed.

Lemma stable_startQueryTimer s s' : mem s' = mem s → stable fresh s (startQueryTimer s').
Proof.
  intros Hm. apply stable_refl. rewrite <- Hm. unfold startQueryTimer.
  by destruct (queryTimerActive_ s').
Qed.

(** The store operations keep what the invariant says of local topics and observers. *)
Lemma store_remove_frame st guid n :
  TopicStore.observers (TopicStore.remove st guid n).1.2 = TopicStore.observers st ∧
  (∀ m x, TopicStore.local_topics_ (TopicStore.remove st guid n).1.2 !! m = Some x →
          TopicStore.local_topics_ st !! m = Some x).
Proof.
  unfold TopicStore.remove. destruct (bool_decide (guid = _)); simpl;
    destruct (TopicStore.network_topics_ st !! n); simpl; (split; [done|]);
    intros m x; rewrite ?lookup_delete_Some; naive_solver.
Qed.

Lemma inv_remove_store s guid n :
  inv lo hi s →
  let '(_, st, ns) := TopicStore.remove (topics_ s) guid n in
  inv lo hi (store_calls s st ns).
Proof.
  intros Hi. pose proof (store_remove_frame (topics_ s) guid n) as [Ho Hl].
  destruct (TopicStore.remove (topics_ s) guid n) as [[b st] ns] eqn:E. simpl in *.
  apply inv_store_change; [done| | |].
  - eapply TopicStore.reach_step with (o := TopicStore.ORemove guid n);
      [apply Hi|done|simpl; by rewrite E].
  - intros m x Hx. eapply inv_locals; [done|]. by apply Hl.
  - intros m o. rewrite Ho. by eapply inv_observers.
Qed.

Lemma inv_evict_store s guid :
  inv lo hi s → guid ≠ my_guid_ s →
  let '(st, ns) := TopicStore.evict (topics_ s) guid in inv lo hi (store_calls s st ns).
Proof.
  intros Hi Hg. pose proof (TopicStore.evict_net (topics_ s) guid) as (_ & _ & _ & Hl & Ho).
  destruct (TopicStore.evict (topics_ s) guid) as [st ns] eqn:E. simpl in *.
  pose proof (TopicStore.reach_wf _ _ (inv_store _ _ _ Hi)) as [_ Hm].
  apply inv_store_change; [done| | |].
  - eapply TopicStore.reach_step with (o := TopicStore.OEvict guid);
      [apply Hi|simpl; by rewrite Hm|simpl; by rewrite E].
  - intros m x. rewrite Hl. by eapply inv_locals.
  - intros m o. rewrite Ho. by eapply inv_observers.
Qed.

Lemma pool_free_ok s b live :
  heap_ok lo hi s (b :: live) →
  ∃ p k, pool_free s b = Ret (set_heap s p (mem s) k) ∧ heap_ok lo hi (set_heap s p (mem s) k) live.
Proof.
  intros [[Hnb Hnd]%NoDup_cons Hwf Hlive Hlo Hhi Hsz]. unfold pool_free.
  destruct (decide (in_block (sendPool_ s) b)) as [Hin|Hin].
  - rewrite filter_cons_True in Hwf by done. rewrite (BufferPool.free_enqueue _ _ _ Hwf), bind_Ret.
    do 2 eexists. split; [done|]. split; try done.
    + cbn [sendPool_ set_heap].
      change (filter (in_block (BufferPool.enqueue (sendPool_ s) b)) live)
        with (filter (in_block (sendPool_ s)) live). by apply BufferPool.wf_enqueue.
    + intros x Hx. apply Hlive. set_solver.
  - rewrite filter_cons_False in Hwf by done.
    rewrite BufferPool.free_foreign by (unfold in_block in Hin; lia). rewrite bind_Ret.
    do 2 eexists. split; [done|]. split; try done.
    intros x Hx. simpl. destruct (Hlive x) as [|Hb]; [set_solver|by left|]. right. set_solver.
Qed.

(** A pending send leaves the list exactly once. *)
Lemma sending_split s b pos len leaked :
  heap_ok lo hi s (ptrs s ++ leaked) → (b, pos, len) ∈ sending s →
  ptrs s ≡ₚ b :: ptrs (set_sending s (list_difference (sending s) [(b, pos, len)])).
Proof.
  intros Hh Hin. apply heap_nodup, NoDup_app in Hh as [Hnd _]. unfold ptrs in *. simpl.
  revert Hnd Hin. generalize (sending s) as l. intros l Hnd Hin.
  apply NoDup_fmap_1 in Hnd.
  change (b :: ((λ e, e.1.1) <$> list_difference l [(b, pos, len)]))
    with ((λ e : Z * nat * nat, e.1.1) <$> (b, pos, len) :: list_difference l [(b, pos, len)]).
  apply fmap_Permutation, NoDup_Permutation; [done| |].
  - apply NoDup_cons. split; [|by apply NoDup_list_difference].
    rewrite list_elem_of_difference. set_solver.
  - intros e. rewrite elem_of_cons, list_elem_of_difference, list_elem_of_singleton.
    destruct (decide (e = (b, pos, len))); naive_solver.
Qed.

Lemma sent_ok s b pos len ec bytes :
  inv lo hi s → (b, pos, len) ∈ sending s →
  ∃ s', sent fresh s b pos len ec bytes = Ret s' ∧ inv lo hi s' ∧ stable fresh s s'.
Proof.
  intros [H1 [leaked H2] H3 H4 H5 H6 H7] Hin. unfold sent.
  pose proof (sending_split _ _ _ _ _ H2 Hin) as HP.
  set (s1 := set_sending s (list_difference (sending s) [(b, pos, len)])) in *.
  assert (heap_ok lo hi s1 (b :: ptrs s1 ++ leaked)) as Hh.
  { eapply heap_ok_mono; [eapply heap_ok_ext; [..|exact H2]; done|]. by rewrite HP. }
  destruct ec; [|case_decide].
  - exists s1. split; [done|]. split; [|by apply stable_refl]. split; try done.
    exists (b :: leaked). eapply heap_ok_mono; [exact Hh|]. by rewrite Permutation_middle.
  - eexists. split; [done|]. split; [|by apply stable_refl]. split; try done.
    exists leaked. by apply heap_ok_send.
  - destruct (pool_free_ok _ _ _ Hh) as (p & k & -> & Hh'). eexists. split; [done|].
    split; [|by apply stable_refl]. split; try done. by exists leaked.
Qed.

(** *** Failed sends *)

(** [n] messages are sent and each send fails. *)
Fixpoint failing_sends (n : nat) (s : t) (command : ascii) (args : string) : outcome t :=
  match n with
  | O => Ret s
  | S n' =>
      s ← send sys fresh s command args;
      match last (sending s) with
      | Some (buf, pos, len) => s ← sent fresh s buf pos len true 0; failing_sends n' s command args
      | None => Undef
      end
  end.

Lemma failing_sends_ok n s leaked c args :
  idle s leaked → length (message (my_guid_ s) c args) < EVENT_BUFFER_SIZE →
  ∃ s' bs, failing_sends n s c args = Ret s' ∧ length bs = n ∧ idle s' (bs ++ leaked) ∧ ptrs s' ≡ₚ ptrs s.
Proof.
  revert s leaked. induction n as [|n IH]; intros s leaked Hok Hfit; [by exists s, []|]. cbn [failing_sends].
  destruct (send_starts s leaked c args Hok Hfit) as (s2 & b & -> & Hok2 & _ & Hse & Hs). rewrite bind_Ret.
  set (m := message (my_guid_ s) c args) in *. set (s3 := _send fresh s2 b 0 (length m)).
  assert (sending s3 = sending s ++ [(b, 0, length m)]) as Hse3 by (unfold s3; by rewrite <-Hse).
  assert (heap_ok lo hi s3 (ptrs s3 ++ leaked)) as Hok3.
  { apply heap_ok_send. unfold ptrs. by rewrite Hse. }
  rewrite Hse3, last_snoc. unfold sent. rewrite bind_Ret.
  pose proof (sending_split s3 b 0 (length m) leaked Hok3 ltac:(rewrite Hse3; set_solver)) as HP.
  set (s4 := set_sending s3 (list_difference (sending s3) [(b, 0, length m)])) in *.
  destruct (IH s4 (b :: leaked)) as (s' & bs & Hr & Hl & Hi & Hp).
  - unfold idle. eapply heap_ok_mono; [eapply (heap_ok_ext s3); [..|exact Hok3]; done|]. rewrite HP. simpl. by rewrite Permutation_middle.
  - change (my_guid_ s4) with (my_guid_ s2). by rewrite (sends_guid _ _ _ _ Hs).
  - exists s', (bs ++ [b]). split_and!; [done|rewrite length_app; simpl; lia|by rewrite <-app_assoc|].
    rewrite Hp. apply (Permutation_cons_inv (a := b)). rewrite <-HP. unfold ptrs. rewrite Hse3, fmap_app. simpl.
    by rewrite Permutation_app_comm.
Qed.

(** Every failed send loses its buffer: after [n] of them [n] different buffers are allocated that
    no pending send refers to and that are not free either, those of the pool first, memory
    of [::malloc] when it is empty, without end. *)
Theorem failed_sends_leak n s leaked c args :
  idle s leaked → length (message (my_guid_ s) c args) < EVENT_BUFFER_SIZE →
  ∃ s' bs, failing_sends n s c args = Ret s' ∧ length bs = n ∧ NoDup bs ∧ idle s' (bs ++ leaked) ∧
    ptrs s' ≡ₚ ptrs s ∧
    Forall (λ b, (b ∉ ptrs s') ∧ (b ∉ BufferPool.free_list (sendPool_ s')) ∧
                 (in_block (sendPool_ s') b ∨ b ∈ blocks s')) bs.
Proof.
  intros Hok Hfit. destruct (failing_sends_ok n s leaked c args Hok Hfit) as (s' & bs & Hr & Hl & Hi & Hp).
  exists s', bs. pose proof Hi as [Hnd Hwf Hlive _ _ _]. split_and!; try done.
  - apply NoDup_app in Hnd as (_ & _ & Hnd). by apply NoDup_app in Hnd as [? _].
  - apply Forall_forall. intros b Hb. apply NoDup_app in Hnd as (_ & Hnd & _). split_and!.
    + intros Hin. apply (Hnd b Hin). set_solver.
    + intros Hf. destruct Hwf as (_ & Hbl & HP). pose proof (BufferPool.NoDup_buffers _ Hbl) as HN. rewrite <-HP in HN.
      apply NoDup_app in HN as (_ & HN & _). apply (HN b Hf), list_elem_of_filter. split; [|set_solver].
      apply BufferPool.buffers_in_block; [done|]. rewrite <-HP. set_solver.
    + apply Hlive. set_solver.
Qed.

(** *** Topics *)

Lemma buildTopicInfo_Ret n ty a ins outs :
  (∃ nm, SocketTypes.fromType ty = Ret nm) → ∃ info, buildTopicInfo n ty a ins outs = Ret info.
Proof. intros [nm Hn]. unfold buildTopicInfo. rewrite Hn, bind_Ret. eauto. Qed.

Lemma store_add_frame st topic b st' ns :
  TopicStore.add st topic = Ret (b, st', ns) →
  TopicStore.observers st' = TopicStore.observers st ∧
  TopicStore.local_topics_ st' =
    (if bool_decide (dt_guid topic = TopicStore.my_guid_ st)
     then <[dt_name topic := topic]> (TopicStore.local_topics_ st)
     else TopicStore.local_topics_ st) ∧
  b = bool_decide (dt_guid topic = TopicStore.my_guid_ st).
Proof. by intros (-> & _ & _ & ? & ? & _)%TopicStore.add_cases. Qed.

Lemma store_guid s : inv lo hi s → TopicStore.my_guid_ (topics_ s) = my_guid_ s.
Proof. intros Hi. by apply (TopicStore.reach_wf _ _ (inv_store _ _ _ Hi)). Qed.

(** A topic of another node: filed, its observers called, nothing sent. *)
Lemma add_foreign_ok s now n ty a ins outs guid :
  inv lo hi s → guid ≠ my_guid_ s → (∃ nm, SocketTypes.fromType ty = Ret nm) →
  ∃ info st ns,
    buildTopicInfo n ty a ins outs = Ret info ∧
    TopicStore.add (topics_ s) (mkDirectoryTopic n now ty a ins outs guid info) = Ret (false, st, ns) ∧
    add sys fresh s now n ty a ins outs guid = Ret (false, store_calls s st ns) ∧
    inv lo hi (store_calls s st ns).
Proof.
  intros Hi Hg Hty. destruct (buildTopicInfo_Ret n ty a ins outs Hty) as [info Hinfo].
  set (topic := mkDirectoryTopic n now ty a ins outs guid info).
  pose proof (store_guid _ Hi) as Hm.
  destruct (TopicStore.add_Ret (topics_ s) topic) as (b & st & ns & Hadd); [left; by rewrite Hm|].
  pose proof (store_add_frame _ _ _ _ _ Hadd) as (Ho & Hl & Hb).
  rewrite bool_decide_eq_false_2 in Hl, Hb by (by rewrite Hm). subst b.
  exists info, st, ns. split; [done|]. split; [done|]. split.
  - unfold add. rewrite Hinfo, bind_Ret. fold topic. by rewrite Hadd.
  - apply inv_store_change; [done| | |].
    + by eapply TopicStore.reach_step with (o := TopicStore.OAdd topic); [apply Hi|done|].
    + intros m x. rewrite Hl. by eapply inv_locals.
    + intros m o. rewrite Ho. by eapply inv_observers.
Qed.

(** A topic of this node: refused if the name is taken, otherwise filed and announced. *)
Lemma add_own_ok s now n ty a ins outs info :
  inv lo hi s → buildTopicInfo n ty a ins outs = Ret info →
  fits (my_guid_ s) DISCOVERY_AVAILABLE info → fits (my_guid_ s) DISCOVERY_REMOVE n →
  match TopicStore.local_topics_ (topics_ s) !! n with
  | Some _ => add sys fresh s now n ty a ins outs (my_guid_ s)
              = Throw (runtime_error ("Duplicate topic: " +:+ n))
  | None =>
      ∃ st ns s',
        TopicStore.add (topics_ s) (mkDirectoryTopic n now ty a ins outs (my_guid_ s) info)
          = Ret (true, st, ns) ∧
        add sys fresh s now n ty a ins outs (my_guid_ s) = Ret (true, s') ∧
        inv lo hi s' ∧ stable fresh s s' ∧
        sends fresh (store_calls s st ns) s' [message (my_guid_ s) DISCOVERY_AVAILABLE info]
  end.
Proof.
  intros Hi Hinfo Hf1 Hf2. set (topic := mkDirectoryTopic n now ty a ins outs (my_guid_ s) info).
  pose proof (store_guid _ Hi) as Hm. unfold add. rewrite Hinfo, bind_Ret. fold topic.
  destruct (TopicStore.local_topics_ (topics_ s) !! n) as [x|] eqn:El.
  - unfold TopicStore.add. rewrite Hm, bool_decide_eq_true_2 by done.
    by rewrite (eq_refl : dt_name topic = n), El.
  - destruct (TopicStore.add_Ret (topics_ s) topic) as (b & st & ns & Hadd); [by right|].
    pose proof (store_add_frame _ _ _ _ _ Hadd) as (Ho & Hl & Hb).
    rewrite bool_decide_eq_true_2 in Hl, Hb by (by rewrite Hm). subst b.
    assert (inv lo hi (store_calls s st ns)) as Hi1.
    { apply inv_store_change; [done| | |].
      + by eapply TopicStore.reach_step with (o := TopicStore.OAdd topic); [apply Hi|done|].
      + intros m x. rewrite Hl, lookup_insert_Some. intros [[<- <-]|[_ Hx]]; [done|].
        by eapply inv_locals.
      + intros m o. rewrite Ho. by eapply inv_observers. }
    destruct (inv_heap _ _ _ Hi1) as [leaked Hok].
    destruct (send_ok (store_calls s st ns) leaked DISCOVERY_AVAILABLE info Hok Hf1)
      as (s' & Hsend & Hok' & Hs).
    exists st, ns, s'. split; [done|]. split_and!.
    + rewrite Hadd, bind_Ret. cbn [topics_ store_calls emit set_topics].
      assert (topic ∈ TopicStore.locals st) as Hin.
      { apply elem_of_locals. exists n. rewrite Hl. apply lookup_insert_eq. }
      rewrite bool_decide_eq_true_2 by (intros Hn; rewrite Hn in Hin; by apply not_elem_of_nil in Hin).
      unfold ub_unless. rewrite bind_Ret. unfold broadcast.
      change (dt_info topic) with info. by rewrite Hsend.
    + by eapply inv_sends.
    + intros y Hy. by rewrite (sends_stable _ _ _ _ Hs).
    + done.
Qed.

Lemma remove_own_ok s n :
  inv lo hi s →
  ∃ s', remove sys fresh s n = Ret s' ∧ inv lo hi s' ∧ stable fresh s s' ∧
    let '(mine, st, ns) := TopicStore.remove (topics_ s) (my_guid_ s) n in
    sends fresh (store_calls s st ns) s'
      (if (mine : bool) then [message (my_guid_ s) DISCOVERY_REMOVE n] else []).
Proof.
  intros Hi. pose proof (inv_remove_store s (my_guid_ s) n Hi) as Hi1. unfold remove.
  assert ((TopicStore.remove (topics_ s) (my_guid_ s) n).1.1 = true →
          fits (my_guid_ s) DISCOVERY_REMOVE n) as Hfit.
  { pose proof (store_guid _ Hi) as Hm. unfold TopicStore.remove. rewrite Hm.
    intros Hb. assert (is_Some (TopicStore.local_topics_ (topics_ s) !! n)) as [x Hx].
    { revert Hb. rewrite bool_decide_eq_true_2 by done. simpl.
      destruct (TopicStore.network_topics_ (topics_ s) !! n); simpl; by rewrite bool_decide_eq_true. }
    by apply (inv_locals _ _ _ Hi) in Hx as (_ & ? & _). }
  destruct (TopicStore.remove (topics_ s) (my_guid_ s) n) as [[mine st] ns]. simpl in Hfit.
  destruct mine.
  - destruct (inv_heap _ _ _ Hi1) as [leaked Hok].
    destruct (send_ok _ leaked DISCOVERY_REMOVE n Hok (Hfit eq_refl)) as (s' & Hsend & Hok' & Hs).
    exists s'. split; [done|]. split; [by eapply inv_sends|]. split; [|done].
    intros y Hy. by rewrite (sends_stable _ _ _ _ Hs).
  - exists (store_calls s st ns). split; [done|]. split; [done|].
    split; [by apply stable_refl|apply sends_nil].
Qed.

Lemma missing_fit s :
  inv lo hi s → Forall (name_fits (my_guid_ s)) (set_iter (TopicStore.getMissing (topics_ s))).
Proof.
  intros Hi. apply Forall_forall. intros n Hn.
  apply elem_of_set_iter, TopicStore.elem_of_getMissing in Hn as [[o Ho] _].
  by eapply inv_observers.
Qed.

Lemma timer_ok s ec :
  inv lo hi s →
  ∃ s', queryMissingTopics sys fresh s ec = Ret s' ∧ inv lo hi s' ∧ stable fresh s s'.
Proof.
  intros Hi. destruct ec; [exists s; split; [done|]; split; [done|by apply stable_refl]|].
  destruct (decide (TopicStore.getMissing (topics_ s) = ∅)) as [He|Hne].
  - unfold queryMissingTopics. rewrite decide_True by done. eexists. split; [done|].
    split; [by apply inv_set_query|by apply stable_refl].
  - destruct (inv_heap _ _ _ Hi) as [leaked Hok].
    destruct (queryMissingTopics_ok s leaked Hok (inv_guid _ _ _ Hi) (missing_fit _ Hi) Hne)
      as (s' & Hq & Hok' & Hs).
    exists s'. split; [done|]. split.
    + eapply inv_sends; [|exact Hs|exact Hok']. apply inv_set_query; [by apply inv_emit|].
      intros Ha. by eapply next_interval_ok, inv_interval.
    + intros x Hx. by rewrite (sends_stable _ _ _ _ Hs).
Qed.

(** *** Received messages *)
Context `{Inet} (own : OwnAddress.t).

Definition safe (s : t) (r : outcome t) : Prop :=
  ∃ s', r = Ret s' ∧ inv lo hi s' ∧ stable fresh s s'.

Lemma safe_refl s : inv lo hi s → safe s (Ret s).
Proof. intros Hi. exists s. split; [done|]. split; [done|by apply stable_refl]. Qed.

Lemma spec_available_ok s now guid args :
  inv lo hi s → str guid ≠ my_guid_ s →
  safe s (spec_available own sys fresh s now guid args).
Proof.
  intros Hi Hg. unfold spec_available.
  destruct args as [|n [|ty [|a [|i [|o more]]]]]; try by apply safe_refl.
  case_decide; [by apply safe_refl|]. destruct (negb _); [by apply safe_refl|].
  destruct (Z.ltb_spec (SocketTypes.fromName (str ty)) 0); [by apply safe_refl|].
  destruct (add_foreign_ok s now (str n) (SocketTypes.fromName (str ty)) (str a)
              (parseTypes ∅ (str i)) (parseTypes ∅ (str o)) (str guid) Hi Hg)
    as (info & st & ns & _ & _ & -> & Hi'); [eexists; by apply fromType_fromName|].
  rewrite bind_Ret. eexists. split; [done|]. split; [done|by apply stable_refl].
Qed.

Lemma spec_words_ok s now words :
  inv lo hi s → safe s (spec_words own sys fresh s now words).
Proof.
  intros Hi. unfold spec_words. destruct words as [|guid [|[|c w] args]]; try by apply safe_refl.
  rewrite c_str_nul_free by apply Hi. case_decide as Hg; [by apply safe_refl|].
  case_decide; [by apply spec_available_ok|].
  case_decide.
  { destruct (inv_heap _ _ _ Hi) as [leaked Hok].
    destruct (spec_search_ok s leaked (match args with [] => [[]] | _ => args end) Hok)
      as (s' & -> & Hok' & Hs).
    - apply Forall_forall. intros x [n Hn]%elem_of_locals. by apply (inv_locals _ _ _ Hi) in Hn as [? _].
    - exists s'. split; [done|]. split; [by eapply inv_sends|].
      intros x Hx. by apply (sends_stable _ _ _ _ Hs). }
  case_decide.
  { unfold spec_exit. pose proof (inv_evict_store s (str guid) Hi Hg) as He.
    destruct (TopicStore.evict _ _) as [st ns]. eexists. split; [done|].
    split; [by apply inv_startQueryTimer|by apply stable_startQueryTimer]. }
  case_decide; [|by apply safe_refl].
  unfold spec_remove. pose proof (inv_remove_store s (str guid)
    (str (default [] (head (match args with [] => [[]] | _ => args end)))) Hi) as Hr.
  destruct (TopicStore.remove _ _ _) as [[b st] ns]. eexists. split; [done|].
  split; [by apply inv_startQueryTimer|by apply stable_startQueryTimer].
Qed.

Lemma event_ok s now ec l :
  inv lo hi s → length l <= EVENT_BUFFER_SIZE → checkable ec l → safe s (event own sys fresh s now ec l).
Proof.
  intros Hi Hl Hc. pose proof (inv_receive _ _ _ Hi) as Hr.
  set (b0 := l ++ drop (length l) (receiveBuffer_ s)).
  assert (length b0 = S EVENT_BUFFER_SIZE) as Hb0
    by (unfold b0; rewrite length_app, length_drop; lia).
  destruct ec.
  { eexists. split; [done|]. split; [|by apply stable_refl].
    by apply inv_emit, inv_set_receive. }
  destruct (event_spec own sys fresh s now l Hl Hr) as (buf & Hb & ->). fold b0.
  destruct Hc as [|Hc]; [done|]. rewrite (printable_defined _ Hc), bind_Ret.
  destruct (forallb isprint l).
  - unfold spec_handle. case_decide.
    + destruct (spec_words_ok (set_receive s b0) now
                  (split_on SPC (drop (String.length DISPATCH) l))) as (s' & -> & Hi' & Hs').
      { by apply inv_set_receive. }
      rewrite bind_Ret. eexists. split; [done|]. split; [by apply inv_emit, inv_set_receive|].
      intros x Hx. by apply Hs'.
    + rewrite bind_Ret. eexists. split; [done|]. split; [|by apply stable_refl].
      by apply inv_emit, inv_set_receive, Hb; apply inv_set_receive.
  - eexists. split; [done|]. split; [|by apply stable_refl].
    by apply inv_emit, inv_set_receive.
Qed.

(** One step: a result that keeps the invariant and the pending buffers, the exception for a
    duplicate local topic, or undefined behaviour on a negative character. *)
Lemma step_ok s o :
  inv lo hi s → admissible s o →
  safe s (step own sys fresh s o) ∨
  (∃ n, is_Some (TopicStore.local_topics_ (topics_ s) !! n) ∧
       step own sys fresh s o = Throw (runtime_error ("Duplicate topic: " +:+ n))) ∨
  ∃ now l, o = Event now false l ∧ negative_char l ∧ step own sys fresh s o = Undef.
Proof.
  intros Hi Ha. destruct o; cbn [step admissible] in *.
  - destruct Ha as (info & Hinfo & Hf1 & Hf2).
    pose proof (add_own_ok s now _ _ _ _ _ _ Hi Hinfo Hf1 Hf2) as Hadd.
    destruct (_ !! topic_name) as [x|] eqn:El.
    + right. left. exists topic_name. rewrite Hadd. by rewrite El.
    + left. destruct Hadd as (st & ns & s' & _ & -> & Hi' & Hs' & _). by exists s'.
  - left. destruct (remove_own_ok s topic_name Hi) as (s' & -> & Hi' & Hs' & _). by exists s'.
  - left. eexists. split; [done|]. split; [|by apply stable_startQueryTimer].
    apply inv_startQueryTimer, inv_store_change; [done| | |].
    + eapply TopicStore.reach_step with (o := TopicStore.OObserve topic_name h uuid);
        [apply Hi|done|done].
    + by apply Hi.
    + intros n o. simpl. rewrite elem_of_app, list_elem_of_singleton.
      intros [Ho|Heq]; [by eapply inv_observers|]. by simplify_eq.
  - left. eexists. split; [done|]. split; [|by apply stable_startQueryTimer].
    unfold unobserve.
    pose proof (inv_store_change s (TopicStore.unobserve (topics_ s) topic_name ref) [] Hi) as Hc.
    apply inv_startQueryTimer. unfold emit in Hc. simpl in Hc. rewrite app_nil_r in Hc. apply Hc.
    + eapply TopicStore.reach_step with (o := TopicStore.OUnobserve topic_name ref);
        [apply Hi|done|done].
    + by apply Hi.
    + intros n o. rewrite list_elem_of_filter. intros [_ Ho]. by eapply inv_observers.
  - left. eexists. split; [done|]. split; [by apply inv_emit|by apply stable_refl].
  - left. by apply timer_ok.
  - destruct (decide (checkable ec datagram)) as [Hc|Hc]; [left; by apply event_ok|right; right].
    destruct ec; [destruct Hc; by left|]. destruct (printable datagram) eqn:Hp; [|by apply printable_not_Throw in Hp|].
    { destruct Hc. right. by rewrite Hp. }
    exists now, datagram. split; [done|]. split; [by apply printable_Undef|]. unfold event. by rewrite Hp.
  - left. apply sent_ok; [done|apply Ha].
Qed.
End heap.

(** ** Initial states and histories *)

Section histories.
Context `{Inet} (own : OwnAddress.t) (sys : gset Z → Z) (fresh : list ascii).

Inductive reach (s0 : t) : t → Prop :=
  | reach_refl : reach s0 s0
  | reach_step s o s' :
      reach s0 s → admissible s o → step own sys fresh s o = Ret s' → reach s0 s'.

(** The end of the pool's block. *)
Definition pool_end (base : Z) : Z :=
  (base + Z.of_nat BufferPool.DEFAULT_POOL_BUFFER_COUNT * Z.of_nat EVENT_BUFFER_SIZE)%Z.

Lemma nul_free_app a b : nul_free (a +:+ b) = nul_free a && nul_free b.
Proof. unfold nul_free. by rewrite chars_app, forallb_app. Qed.

Lemma init_inv name uuid base garbage port s0 port' :
  (0 < base)%Z → length garbage = S EVENT_BUFFER_SIZE →
  nul_free name = true → nul_free uuid = true → nul_free (OwnAddress.address_ own) = true →
  init own name uuid base garbage true true true port = Ret (s0, port') →
  inv base (pool_end base) s0.
Proof.
  intros Hb Hg Hn Hu Ha Hinit.
  assert (∀ guid p, nul_free guid = true → inv base (pool_end base)
    (receive (mk guid (TopicStore.init guid)
       (BufferPool.init base (Z.of_nat EVENT_BUFFER_SIZE) BufferPool.DEFAULT_POOL_BUFFER_COUNT true)
       ∅ ∅ [] garbage false 0 p []))) as Hinv.
  { intros guid p Hguid. split; try done.
    - apply TopicStore.reach_init.
    - exists []. split; try done; [constructor| |by intros x ?%not_elem_of_nil].
      by apply BufferPool.init_wf.
    - by intros n o ?%not_elem_of_nil. }
  unfold init in Hinit. cbn [negb] in Hinit.
  assert (nul_free (name +:+ "_" +:+ OwnAddress.address_ own +:+ "_" +:+ uuid) = true) as Hgu
    by (by rewrite !nul_free_app, Hn, Hu, Ha).
  destruct port; injection Hinit as <- <-; by apply Hinv.
Qed.

Lemma reach_inv lo hi s0 s :
  malloc_fresh sys lo hi → length fresh = EVENT_BUFFER_SIZE →
  inv lo hi s0 → reach s0 s → inv lo hi s.
Proof.
  intros Hsys Hfresh Hi. induction 1 as [|s o s' _ IH Ha Hs]; [done|].
  destruct (step_ok sys fresh lo hi Hsys Hfresh own s o IH Ha) as [(s2 & Hr & Hi' & _)|[(n & _ & Hr)|(now & l & _ & _ & Hr)]];
    rewrite Hs in Hr; by simplify_eq.
Qed.
End histories.

(** ** Messages as read by the other node *)

(** A text that travels as one word. *)
Definition wire_word (s : string) : Prop :=
  s ≠ "" ∧ forallb isprint (chars s) = true ∧ SPC ∉ chars s.

Lemma wire_word_nul s : wire_word s → nul_free s = true.
Proof. intros (_ & Hp & _). by apply nul_free_spec, isprint_no_nul. Qed.

Lemma wire_word_chars s : wire_word s → chars s ≠ [].
Proof. intros (Hne & _) He. apply Hne, chars_inj. by rewrite He. Qed.

Lemma split_on_concat w ws :
  Forall (λ v, SPC ∉ v) (w :: ws) → split_on SPC (w ++ concat ((λ v, SPC :: v) <$> ws)) = w :: ws.
Proof. intros Hw. rewrite <- join_with_cons. by apply split_join. Qed.

(** The words of a message. *)
Lemma message_words guid c args :
  nul_free guid = true → nul_free args = true → args ≠ "" →
  (SPC ∉ chars guid) → c ≠ SPC →
  split_on SPC (drop (String.length DISPATCH) (message guid c args)) =
  chars guid :: [c] :: split_on SPC (chars args).
Proof.
  intros Hg Ha Hne Hs Hc. unfold message. rewrite !c_str_nul_free, decide_False by done.
  change (drop (String.length DISPATCH) (chars DISPATCH ++ ?X)) with X.
  change ([SPC; c] ++ SPC :: chars args) with (SPC :: [c] ++ SPC :: chars args).
  rewrite !split_on_app by set_solver. done.
Qed.

Lemma search_words guid batch :
  nul_free guid = true → (SPC ∉ chars guid) → batch ≠ [] → Forall wire_word batch →
  split_on SPC (drop (String.length DISPATCH) (search_msg guid batch)) =
  chars guid :: [DISCOVERY_SEARCH] :: (chars <$> batch).
Proof.
  intros Hg Hs Hne Hw. unfold search_msg, message. rewrite c_str_nul_free, decide_True by done.
  rewrite <- !app_assoc. change (drop (String.length DISPATCH) (chars DISPATCH ++ ?X)) with X.
  change ([SPC; DISCOVERY_SEARCH] ++ [] ++ ?X) with (SPC :: ([DISCOVERY_SEARCH] ++ X)).
  rewrite split_on_app by done. f_equal.
  replace ((λ n, SPC :: chars n) <$> batch) with ((λ v, SPC :: v) <$> (chars <$> batch))
    by (by rewrite <- list_fmap_compose).
  apply split_on_concat. apply Forall_cons. split; [set_solver|].
  apply Forall_fmap. eapply Forall_impl; [exact Hw|]. by intros n (_ & _ & ?).
Qed.

Lemma prefix_message guid c args rest : chars DISPATCH `prefix_of` message guid c args ++ rest.
Proof. unfold message. rewrite <- app_assoc. by eexists. Qed.

(** The datagrams among the calls a directory made. *)
Definition datagrams (es : list effect) : list (list ascii) :=
  omap (λ e, match e with AsyncSend _ _ _ d => Some d | _ => None end) es.

Lemma datagrams_app l1 l2 : datagrams (l1 ++ l2) = datagrams l1 ++ datagrams l2.
Proof. unfold datagrams. apply omap_app. Qed.

Lemma datagrams_handlers ns : datagrams (Handler <$> ns) = [].
Proof. induction ns as [|x ns IH]; [done|]. exact IH. Qed.

Definition sent_between (s s' : t) (msgs : list (list ascii)) : Prop :=
  ∃ es, calls s' = calls s ++ es ∧ datagrams es = msgs.

Lemma datagrams_zip bs msgs :
  length bs = length msgs →
  datagrams (zip_with (λ b m, AsyncSend b 0 (length m) m) bs msgs) = msgs.
Proof.
  revert msgs. induction bs as [|b bs IH]; intros [|m msgs] Hl; try done.
  cbn. f_equal. apply IH. simpl in Hl. lia.
Qed.

Lemma sends_between fresh s s' msgs : sends fresh s s' msgs → sent_between s s' msgs.
Proof.
  intros Hs. destruct (sends_calls _ _ _ _ Hs) as (bs & Hl & Hc).
  eexists. split; [exact Hc|by apply datagrams_zip].
Qed.

(** A topic that an [AVAILABLE] message can describe. *)
Record describable (n : string) (ty : Z) (a : string) (ins outs : gset string) : Prop := {
  desc_name : wire_word n;
  desc_address : wire_word a;
  desc_type : ∃ nm, SocketTypes.fromType ty = Ret nm;
  desc_ins : types_ok ins ∧ set_Forall (λ x, forallb isprint (chars x) = true) ins;
  desc_outs : types_ok outs ∧ set_Forall (λ x, forallb isprint (chars x) = true) outs
}.

Lemma fromType_printable ty nm :
  SocketTypes.fromType ty = Ret nm → forallb isprint (chars nm) = true.
Proof.
  unfold SocketTypes.fromType. destruct (_ <? _)%Z; [done|].
  destruct (_ !! _) as [m|] eqn:E; [|done]. intros [= ->].
  apply list_elem_of_lookup_2 in E.
  assert (Forall (λ m, forallb isprint (chars m) = true) SocketTypes.type_names) as Hall
    by (apply (bool_decide_unpack _); vm_compute; exact I).
  rewrite Forall_forall in Hall. by apply Hall.
Qed.

Lemma printable_app l1 l2 :
  forallb isprint l1 = true → forallb isprint l2 = true → forallb isprint (l1 ++ l2) = true.
Proof. intros H1 H2. by rewrite forallb_app, H1, H2. Qed.

Lemma printable_types types :
  types_ok types → set_Forall (λ x, forallb isprint (chars x) = true) types →
  forallb isprint (writeTypes [] types) = true.
Proof.
  intros [Hok _] Hp. unfold writeTypes. case_decide; [done|].
  rewrite write_types_join by (by apply type_ok_set_iter).
  apply forallb_forall. intros c Hc%list_elem_of_In.
  apply elem_of_join_with in Hc as [->|(w & (ty & -> & Hty)%list_elem_of_fmap & Hc)]; [done|].
  apply elem_of_set_iter, Hp in Hty. rewrite forallb_forall in Hty.
  by apply Hty, list_elem_of_In.
Qed.

(** The description of a topic: five words, printable. *)
Lemma info_words n ty a ins outs info nm :
  describable n ty a ins outs → SocketTypes.fromType ty = Ret nm →
  buildTopicInfo n ty a ins outs = Ret info →
  split_on SPC (chars info) =
    [chars n; chars nm; chars a; writeTypes [] ins; writeTypes [] outs] ∧
  forallb isprint (chars info) = true ∧ info ≠ "".
Proof.
  intros [Hn Ha _ [Hi Hip] [Ho Hop]] Hnm Hinfo.
  assert (chars info = join_with SPC
            [chars n; chars nm; chars a; writeTypes [] ins; writeTypes [] outs]) as Hc.
  { revert Hinfo. unfold buildTopicInfo. rewrite Hnm, bind_Ret. intros [= <-].
    rewrite writeTypes_app, (writeTypes_app (chars _)), chars_str, !chars_app.
    cbn [join_with]. by rewrite !(eq_refl : chars " " = [SPC]), <- !app_assoc. }
  destruct (types_text_spec ins Hi) as ([Hsi _] & _ & _).
  destruct (types_text_spec outs Ho) as ([Hso _] & _ & _).
  destruct (fromType_word _ _ Hnm) as ([Hst _] & _ & _).
  pose proof (wire_word_chars _ Hn) as Hne.
  destruct Hn as (_ & Hnp & Hns), Ha as (_ & Hap & Has). split_and!.
  - rewrite Hc. apply split_join; [done|]. by repeat constructor.
  - rewrite Hc. apply forallb_forall. intros c Hin%list_elem_of_In.
    apply elem_of_join_with in Hin as [->|(w & Hw & Hcw)]; [done|].
    assert (forallb isprint w = true) as Hwp.
    { rewrite !elem_of_cons, elem_of_nil in Hw. destruct_or? Hw; subst; try done.
      - by apply (fromType_printable ty).
      - by apply printable_types.
      - by apply printable_types. }
    rewrite forallb_forall in Hwp. by apply Hwp, list_elem_of_In.
  - intros ->. destruct (chars n); [done|]. done.
Qed.

Lemma printable_message guid c args :
  nul_free guid = true → nul_free args = true →
  forallb isprint (chars guid) = true → isprint c = true → forallb isprint (chars args) = true →
  forallb isprint (message guid c args) = true.
Proof.
  intros Hg Ha Hgp Hc Hap. unfold message. rewrite !c_str_nul_free by done.
  repeat apply printable_app; [done|done|simpl; by rewrite Hc|]. by case_decide.
Qed.

Lemma printable_search guid batch :
  nul_free guid = true → forallb isprint (chars guid) = true → Forall wire_word batch →
  forallb isprint (search_msg guid batch) = true.
Proof.
  intros Hg Hgp Hb. unfold search_msg. apply printable_app; [by apply printable_message|].
  induction Hb as [|n batch (_ & Hn & _) _ IH]; [done|].
  change (forallb isprint ((SPC :: chars n) ++ concat ((λ m, SPC :: chars m) <$> batch)) = true).
  by apply printable_app.
Qed.

Section received.
Context `{Inet} (own : OwnAddress.t) (sys : gset Z → Z) (fresh : list ascii) (lo hi : Z).
Context (Hsys : malloc_fresh sys lo hi) (Hfresh : length fresh = EVENT_BUFFER_SIZE).

(** A tagged printable datagram is handled by its words. *)
Lemma event_tagged s now l :
  inv lo hi s → length l <= EVENT_BUFFER_SIZE → forallb isprint l = true →
  chars DISPATCH `prefix_of` l →
  ∃ s0 buf, inv lo hi s0 ∧ my_guid_ s0 = my_guid_ s ∧ topics_ s0 = topics_ s ∧
    calls s0 = calls s ∧ length buf = S EVENT_BUFFER_SIZE ∧
    event own sys fresh s now false l =
    (s' ← spec_words own sys fresh s0 now (split_on SPC (drop (String.length DISPATCH) l));
     Ret (receive (set_receive s' buf))).
Proof.
  intros Hi Hl Hp Hd. pose proof (inv_receive _ _ _ Hi) as Hr.
  destruct (event_spec own sys fresh s now l Hl Hr) as (buf & Hb & Heq).
  rewrite (printable_true _ Hp), bind_Ret in Heq. unfold spec_handle in Heq. rewrite decide_True in Heq by done.
  do 2 eexists. split_and!; [..|exact Heq]; try done.
  apply inv_set_receive; [done|]. rewrite length_app, length_drop. lia.
Qed.

(** A search is answered with the descriptions of the node's matching topics, in order. *)
Lemma search_received s now guid batch :
  inv lo hi s → wire_word guid → guid ≠ my_guid_ s → batch ≠ [] → Forall wire_word batch →
  length (search_msg guid batch) <= EVENT_BUFFER_SIZE →
  ∃ s', event own sys fresh s now false (search_msg guid batch) = Ret s' ∧ inv lo hi s' ∧
    topics_ s' = topics_ s ∧
    sent_between s s' (available (my_guid_ s) <$> (batch ≫= answers (topics_ s))).
Proof.
  intros Hi Hgw Hg Hne Hb Hl. pose proof (wire_word_nul _ Hgw) as Hgn.
  destruct Hgw as (_ & Hgp & Hgs).
  destruct (event_tagged s now _ Hi Hl) as (s0 & buf & Hi0 & G0 & T0 & C0 & Hlen & ->).
  { by apply printable_search. } { apply prefix_message. }
  rewrite search_words by done. unfold spec_words.
  rewrite str_chars, G0, c_str_nul_free, decide_False by (done || apply Hi).
  rewrite decide_False by done. rewrite decide_True by done.
  assert (match chars <$> batch with [] => [[]] | _ => chars <$> batch end = chars <$> batch) as ->
    by (by destruct batch).
  destruct (inv_heap _ _ _ Hi0) as [leaked Hok].
  destruct (spec_search_ok sys fresh lo hi Hsys Hfresh s0 leaked (chars <$> batch) Hok)
    as (s' & -> & Hok' & Hs).
  { apply Forall_forall. intros x [n Hn]%elem_of_locals. by apply (inv_locals _ _ _ Hi0) in Hn as [? _]. }
  rewrite bind_Ret. eexists. split; [done|]. split_and!.
  - apply inv_emit, inv_set_receive; [by eapply inv_sends|done].
  - cbn [topics_ receive emit set_receive]. by rewrite (sends_topics _ _ _ _ Hs).
  - destruct (sends_between _ _ _ _ Hs) as (es & Hc & Hd). exists (es ++ [AsyncReceive]).
    cbn [calls receive emit set_receive]. rewrite Hc, C0, <- app_assoc. split; [done|].
    unfold datagrams in *. rewrite omap_app, Hd. simpl. rewrite app_nil_r, G0, T0. f_equal.
    clear -Hb. induction Hb as [|n batch Hn _ IH]; [done|]. cbn [fmap list_fmap].
    rewrite filter_cons_True by (by apply wire_word_chars). cbn [mbind list_bind].
    by rewrite str_chars, IH.
Qed.

(** An advertisement is read as its sender wrote it, and ignored if its address is not on the
    receiver's network. *)
Lemma available_read s now guid n ty a ins outs info :
  inv lo hi s → wire_word guid → guid ≠ my_guid_ s → describable n ty a ins outs →
  buildTopicInfo n ty a ins outs = Ret info →
  length (message guid DISCOVERY_AVAILABLE info) <= EVENT_BUFFER_SIZE →
  ∃ s0 buf, inv lo hi s0 ∧ my_guid_ s0 = my_guid_ s ∧ topics_ s0 = topics_ s ∧
    calls s0 = calls s ∧ length buf = S EVENT_BUFFER_SIZE ∧
    event own sys fresh s now false (message guid DISCOVERY_AVAILABLE info) =
    (s' ← (if OwnAddress.onNetwork own (Address.ip_ (Address.parse a))
           then '(_, s') ← add sys fresh s0 now n ty a ins outs guid; Ret s' else Ret s0);
     Ret (receive (set_receive s' buf))).
Proof.
  intros Hi Hgw Hg Hdesc Hinfo Hl. pose proof (wire_word_nul _ Hgw) as Hgn.
  destruct (desc_type _ _ _ _ _ Hdesc) as [nm Hnm].
  destruct (info_words _ _ _ _ _ _ _ Hdesc Hnm Hinfo) as (Hw & Hip & Hine).
  assert (nul_free info = true) as Hin by (by apply nul_free_spec, isprint_no_nul).
  destruct Hgw as (_ & Hgp & Hgs).
  destruct (event_tagged s now _ Hi Hl) as (s0 & buf & Hi0 & G0 & T0 & C0 & Hlen & ->).
  { by apply printable_message. } { rewrite <- (app_nil_r (message _ _ _)). apply prefix_message. }
  exists s0, buf. split_and!; try done. f_equal.
  rewrite message_words, Hw by done. unfold spec_words.
  rewrite str_chars, G0, c_str_nul_free, decide_False by (done || apply Hi).
  rewrite decide_True by done. cbn [spec_available].
  destruct (types_text_spec ins) as (_ & Hie & Hir); [apply Hdesc|].
  destruct (types_text_spec outs) as (_ & Hoe & Hor); [apply Hdesc|].
  destruct (fromType_word _ _ Hnm) as (_ & Hnme & Hty).
  rewrite decide_False.
  2:{ intros [Hx|[Hx|[Hx|[Hx _]]]]; [..|done].
      - by apply (wire_word_chars n) in Hx; [|apply Hdesc].
      - apply Hnme, chars_inj. by rewrite Hx.
      - by apply (wire_word_chars a) in Hx; [|apply Hdesc]. }
  rewrite !str_chars.
  assert (SocketTypes.fromName nm = ty) as ->.
  { destruct (decide (0 <= ty < 12)%Z) as [Hr|Hr].
    - apply fromType_in in Hr as (m & Hm & Hf). congruence.
    - apply fromType_out in Hr. congruence. }
  destruct (OwnAddress.onNetwork _ _); [|done]. cbn [negb].
  destruct (Z.ltb_spec ty 0); [lia|]. by rewrite Hir, Hor.
Qed.

(** An advertisement is filed as the topic its sender described. *)
Lemma available_received s now guid n ty a ins outs info :
  inv lo hi s → wire_word guid → guid ≠ my_guid_ s → describable n ty a ins outs →
  buildTopicInfo n ty a ins outs = Ret info →
  OwnAddress.onNetwork own (Address.ip_ (Address.parse a)) = true →
  length (message guid DISCOVERY_AVAILABLE info) <= EVENT_BUFFER_SIZE →
  ∃ s' st ns, event own sys fresh s now false (message guid DISCOVERY_AVAILABLE info) = Ret s' ∧
    inv lo hi s' ∧
    TopicStore.add (topics_ s) (mkDirectoryTopic n now ty a ins outs guid info) = Ret (false, st, ns) ∧
    topics_ s' = st ∧ calls s' = calls s ++ (Handler <$> ns) ++ [AsyncReceive].
Proof.
  intros Hi Hgw Hg Hdesc Hinfo Hnet Hl. destruct (desc_type _ _ _ _ _ Hdesc) as [nm Hnm].
  destruct (available_read s now guid n ty a ins outs info Hi Hgw Hg Hdesc Hinfo Hl)
    as (s0 & buf & Hi0 & G0 & T0 & C0 & Hlen & ->). rewrite Hnet.
  destruct (add_foreign_ok sys fresh lo hi s0 now n ty a ins outs guid Hi0)
    as (info' & st & ns & Hinfo' & Hadd & -> & Hi'); [by rewrite G0|by eexists|].
  rewrite Hinfo in Hinfo'. injection Hinfo' as <-. rewrite T0 in Hadd. rewrite !bind_Ret.
  do 3 eexists. split; [done|]. split_and!; [by apply inv_emit, inv_set_receive|done|done|].
  cbn. by rewrite C0, <- app_assoc.
Qed.
End received.

(** ** Rounds of the query timer *)

(** The handler of the query timer, [k] times without an error. *)
Fixpoint fire (sys : gset Z → Z) (fresh : list ascii) (k : nat) (s : t) : outcome t :=
  match k with
  | O => Ret s
  | S k' => s ← queryMissingTopics sys fresh s false; fire sys fresh k' s
  end.

(** The delays a timer was armed with. *)
Definition delays (es : list effect) : list Z :=
  omap (λ e, match e with TimerExpires ms => Some ms | _ => None end) es.

Lemma delays_zip bs msgs :
  delays (zip_with (λ b m, AsyncSend b 0 (length m) m) bs msgs) = [].
Proof. revert msgs. induction bs as [|b bs IH]; intros [|m msgs]; try done. cbn. apply IH. Qed.

Lemma next_interval_min i :
  (0 <= i)%Z → next_interval (Z.min QUERY_INTERVAL_MAX i) = Z.min QUERY_INTERVAL_MAX (2 * i).
Proof.
  intros Hi. unfold next_interval, QUERY_INTERVAL_MAX, QUERY_INTERVAL_MULT.
  destruct (Z.ltb_spec (Z.min 16000 i) 16000);
    match goal with |- context [(?a <? ?b)%Z] => destruct (Z.ltb_spec a b) end; lia.
Qed.

Definition backoff (k : nat) : Z := Z.min QUERY_INTERVAL_MAX (QUERY_INTERVAL * 2 ^ Z.of_nat k).

Lemma backoff_next k : next_interval (backoff k) = backoff (S k).
Proof.
  unfold backoff. rewrite next_interval_min by (unfold QUERY_INTERVAL; nia).
  rewrite Nat2Z.inj_succ, Z.pow_succ_r by lia. f_equal. lia.
Qed.

Section rounds.
Context (sys : gset Z → Z) (fresh : list ascii) (lo hi : Z).
Context (Hsys : malloc_fresh sys lo hi) (Hfresh : length fresh = EVENT_BUFFER_SIZE).

(** One round with something missing. *)
Lemma query_round s :
  inv lo hi s → TopicStore.getMissing (topics_ s) ≠ ∅ →
  ∃ s', queryMissingTopics sys fresh s false = Ret s' ∧ inv lo hi s' ∧
    topics_ s' = topics_ s ∧ my_guid_ s' = my_guid_ s ∧ queryTimerActive_ s' = queryTimerActive_ s ∧
    queryInterval_ s' = next_interval (queryInterval_ s) ∧
    ∃ es, calls s' = calls s ++ [TimerExpires (queryInterval_ s); TimerWait] ++ es ∧ delays es = [] ∧
      datagrams es = search_msg (my_guid_ s) <$>
        batches (start_len (my_guid_ s)) (set_iter (TopicStore.getMissing (topics_ s))).
Proof.
  intros Hi Hne. destruct (inv_heap _ _ _ Hi) as [leaked Hok].
  destruct (queryMissingTopics_ok sys fresh lo hi Hsys Hfresh s leaked Hok (inv_guid _ _ _ Hi)
              (missing_fit _ _ _ Hi) Hne) as (s' & Hq & Hok' & Hs).
  exists s'. split; [done|]. split_and!.
  - eapply inv_sends; [|exact Hs|exact Hok']. apply inv_set_query; [by apply inv_emit|].
    intros Ha. by eapply next_interval_ok, inv_interval.
  - apply (sends_topics _ _ _ _ Hs).
  - apply (sends_guid _ _ _ _ Hs).
  - apply (sends_active _ _ _ _ Hs).
  - apply (sends_interval _ _ _ _ Hs).
  - destruct (sends_calls _ _ _ _ Hs) as (bs & Hl & Hc). eexists.
    split; [rewrite Hc; cbn [calls emit set_query]; by rewrite <- app_assoc|].
    split; [apply delays_zip|by apply datagrams_zip].
Qed.

Lemma fire_backoff k j s :
  inv lo hi s → TopicStore.getMissing (topics_ s) ≠ ∅ → queryInterval_ s = backoff j →
  ∃ s' es, fire sys fresh k s = Ret s' ∧ queryInterval_ s' = backoff (j + k) ∧
    calls s' = calls s ++ es ∧ delays es = backoff <$> seq j k ∧
    queryTimerActive_ s' = queryTimerActive_ s.
Proof.
  revert j s. induction k as [|k IH]; intros j s Hi Hne Hj; cbn [fire].
  { exists s, []. split; [done|]. by rewrite Nat.add_0_r, app_nil_r. }
  destruct (query_round s Hi Hne) as (s1 & -> & Hi1 & Ht & _ & Ha & Hint & es & Hc & Hd & _).
  rewrite bind_Ret. rewrite Hj, backoff_next in Hint.
  destruct (IH (S j) s1 Hi1) as (s' & es' & -> & Hq & Hc' & Hd' & Ha'); [by rewrite Ht|done|].
  exists s'. eexists. split; [done|]. split; [by rewrite <- Nat.add_succ_comm|].
  split; [by rewrite Hc', Hc, <- !app_assoc|]. rewrite Ha', Ha. split; [|done].
  unfold delays in *. cbn [app omap list_omap]. rewrite omap_app, Hd, Hd', Hj. done.
Qed.
End rounds.
End Discovery.
