(* ===== verification/Protocol.v ===== *)
(** * The discovery protocol: properties

    The theorems about the directory as a whole, proved from the lemmas of [Directory]
    and [Discovery], and their concrete instances. *)

From S2P Require Import Prelude BufferPool Address Topics TopicStore Wire Directory Discovery.

Module Protocol.
Import Directory Discovery.

(** ** A concrete environment *)

(** An allocator: one past the largest address in use. *)
Definition demo_sys (hi : Z) (X : gset Z) : Z := (foldr Z.max hi (elements X) + 1)%Z.

Lemma demo_sys_fresh lo hi : (0 < hi)%Z → malloc_fresh (demo_sys hi) lo hi.
Proof.
  intros Hhi X. unfold demo_sys.
  assert (∀ l, (hi <= foldr Z.max hi l)%Z ∧ ∀ x, x ∈ l → (x <= foldr Z.max hi l)%Z) as Hmax.
  { induction l as [|y l [IH1 IH2]]; simpl; [split; [lia|set_solver]|]. split; [lia|].
    intros x [->|Hx]%elem_of_cons; [lia|]. apply IH2 in Hx. lia. }
  destruct (Hmax (elements X)) as [H1 H2]. split_and!; [|lia|lia].
  intros Hin%elem_of_elements%H2. lia.
Qed.

Definition demo_base : Z := 4096.
Definition demo_fresh : list ascii := replicate EVENT_BUFFER_SIZE NUL.
Definition demo_garbage : list ascii := replicate (S EVENT_BUFFER_SIZE) NUL.
Definition demo_malloc : gset Z → Z := demo_sys (pool_end demo_base).
#[local] Existing Instance quad_inet.

Definition demo_own : OwnAddress.t := OwnAddress.default.

Lemma demo_malloc_fresh : malloc_fresh demo_malloc demo_base (pool_end demo_base).
Proof. by apply demo_sys_fresh. Qed.

Lemma demo_fresh_length : length demo_fresh = EVENT_BUFFER_SIZE.
Proof. apply length_replicate. Qed.

Definition demo_node (name uuid : string) : t :=
  match init demo_own name uuid demo_base demo_garbage true true true None with
  | Ret (s, _) => s
  | _ => mk "" (TopicStore.init "") (BufferPool.init 0 0 0 true) ∅ ∅ [] [] false 0 0 []
  end.

Lemma demo_node_inv name uuid :
  nul_free name = true → nul_free uuid = true →
  inv demo_base (pool_end demo_base) (demo_node name uuid).
Proof.
  intros Hn Hu. eapply (init_inv demo_own name uuid demo_base demo_garbage None _ None);
    [done|apply length_replicate|done|done|done|done].
Qed.

(** ** Lemmas *)

(** The first provider of a topic: its observers are shown exactly that provider. *)
Lemma add_first st topic b st' ns :
  TopicStore.add st topic = Ret (b, st', ns) →
  TopicStore.network_topics_ st !! dt_name topic = None →
  TopicStore.view st' (dt_name topic) = {[dt_guid topic := topic]} ∧
  ∀ o, (dt_name topic, o) ∈ TopicStore.observers st →
    TopicStore.Notify (TopicStore.handler o) (dt_name topic) {[dt_guid topic := topic]} ∈ ns.
Proof.
  intros Hadd Hnone. assert (TopicStore.view st (dt_name topic) = ∅) as Hv
    by (unfold TopicStore.view; by rewrite Hnone).
  apply TopicStore.add_cases in Hadd as (_ & _ & _ & _ & _ & [(old & Ho & _)|(_ & Hnet & ->)]).
  { by rewrite Hv, lookup_empty in Ho. }
  rewrite Hv, insert_empty in *. split.
  - unfold TopicStore.view. by rewrite Hnet, lookup_insert_eq.
  - intros o Ho. unfold TopicStore.callObservers. apply list_elem_of_fmap.
    exists (TopicStore.handler o). split; [done|]. apply elem_of_app. left.
    unfold TopicStore.equal_range. apply list_elem_of_fmap. exists (dt_name topic, o).
    split; [done|]. by apply list_elem_of_filter.
Qed.

(** Every missing name is in one of the datagrams of a round. *)
Lemma query_datagram sys fresh lo hi :
  malloc_fresh sys lo hi → length fresh = EVENT_BUFFER_SIZE → ∀ s n,
  inv lo hi s → Forall wire_word (set_iter (TopicStore.getMissing (topics_ s))) →
  n ∈ TopicStore.getMissing (topics_ s) →
  ∃ s' qs batch, queryMissingTopics sys fresh s false = Ret s' ∧ sent_between s s' qs ∧
    search_msg (my_guid_ s) batch ∈ qs ∧ batch ≠ [] ∧ Forall wire_word batch ∧ n ∈ batch ∧
    length (search_msg (my_guid_ s) batch) < EVENT_BUFFER_SIZE ∧
    inv lo hi s' ∧ topics_ s' = topics_ s ∧ my_guid_ s' = my_guid_ s.
Proof.
  intros Hsys Hfr s n Hi Hw Hn. assert (TopicStore.getMissing (topics_ s) ≠ ∅) as Hne by set_solver.
  destruct (query_round sys fresh lo hi Hsys Hfr s Hi Hne)
    as (s' & Hq & Hi' & Ht & Hg & _ & _ & es & Hc & _ & Hd).
  destruct (batches_spec (start_len (my_guid_ s)) (set_iter (TopicStore.getMissing (topics_ s))))
    as [Hcat Hall].
  { eapply Forall_impl; [apply (missing_fit _ _ _ Hi)|]. by intros m [_ ?]. }
  set (bs := batches _ _) in *. rewrite <- Hcat in Hw.
  assert (∃ batch, batch ∈ bs ∧ n ∈ batch) as (batch & Hb & Hnb).
  { rewrite <- elem_of_set_iter, <- Hcat in Hn. apply list_elem_of_In, in_concat in Hn as (b & ? & ?).
    exists b. by rewrite !list_elem_of_In. }
  rewrite Forall_forall in Hall. destruct (Hall batch Hb) as (Hbne & _ & Hlen).
  exists s', (search_msg (my_guid_ s) <$> bs), batch. split_and!; try done.
  - exists ([TimerExpires (queryInterval_ s); TimerWait] ++ es). split; [exact Hc|exact Hd].
  - apply list_elem_of_fmap. by exists batch.
  - rewrite Forall_forall in Hw |- *. intros m Hm. apply Hw, list_elem_of_In, in_concat.
    exists batch. by rewrite <- !list_elem_of_In.
  - by rewrite length_search_msg by apply Hi.
Qed.

(** ** Properties *)

(** C6. Memory safety and invariant of the directory: started by its constructor, and as long
    as local clients keep descriptions and names within one datagram, no sequence of
    calls, timer events, send completions and received datagrams has undefined behaviour,
    with one exception: a datagram in which a byte from 128 to 254 follows printable
    characters only, as its [char] is a negative argument of [isprint]; nothing is read or
    written outside a buffer.  The only C++ exception is the
    refusal of a duplicate local topic; the invariant (store, buffer pool, limits, back-off interval) is kept, and no
    buffer handed to the socket changes while its send is pending. *)
Theorem directory_safe `{Inet} own sys fresh name uuid base garbage port port' s0 s o :
  (0 < base)%Z → malloc_fresh sys base (pool_end base) → length fresh = EVENT_BUFFER_SIZE →
  length garbage = S EVENT_BUFFER_SIZE →
  nul_free name = true → nul_free uuid = true → nul_free (OwnAddress.address_ own) = true →
  init own name uuid base garbage true true true port = Ret (s0, port') →
  reach own sys fresh s0 s → admissible s o →
  match step own sys fresh s o with
  | Ret s' => inv base (pool_end base) s' ∧ stable fresh s s'
  | Throw e => ∃ n, is_Some (TopicStore.local_topics_ (topics_ s) !! n) ∧
                    e = runtime_error ("Duplicate topic: " +:+ n)
  | Undef => ∃ now l, o = Event now false l ∧ negative_char l
  end ∧
  (∀ now l, o = Event now false l → negative_char l → step own sys fresh s o = Undef).
Proof.
  intros Hb Hsys Hfr Hg Hn Hu Ha Hinit Hr Hadm.
  pose proof (init_inv _ _ _ _ _ _ _ _ Hb Hg Hn Hu Ha Hinit) as Hi0.
  pose proof (reach_inv _ _ _ _ _ _ _ Hsys Hfr Hi0 Hr) as Hi.
  destruct (step_ok sys fresh _ _ Hsys Hfr own s o Hi Hadm) as [(s' & Hs & ? & ?)|[(n & Hn' & Hs)|(now & l & -> & Hl & ->)]].
  - split; [by rewrite Hs|]. intros now l -> Hl. by apply event_negative.
  - split; [rewrite Hs; by exists n|]. intros now l -> Hl. by apply event_negative.
  - split; [by exists now, l|done].
Qed.

(** C9. Refinement of message handling: whatever the datagram, the in-place tokenizer over
    the receive buffer computes exactly what the word-level description of the
    protocol computes, reading and writing inside the buffer only; a datagram with a
    non-printable character is ignored, unless the check itself is undefined on it. *)
Theorem event_refines_words `{Inet} own sys fresh s now l :
  length l <= EVENT_BUFFER_SIZE → length (receiveBuffer_ s) = S EVENT_BUFFER_SIZE →
  ∃ buf, length buf = S EVENT_BUFFER_SIZE ∧
    event own sys fresh s now false l =
    (ok ← printable l;
     if (ok : bool) then
       s' ← spec_handle own sys fresh
              (set_receive s (l ++ drop (length l) (receiveBuffer_ s))) now l;
       Ret (receive (set_receive s' buf))
     else Ret (receive (set_receive s buf))).
Proof. apply event_spec. Qed.

(** C19. The search is complete and bounded: a round of the query timer re-arms the timer with
    the current interval, and its datagrams carry every missing name exactly once, in
    order, at most four to a datagram and each datagram within the buffer; with
    nothing missing the round stops the timer and sends nothing. *)
Theorem query_complete sys fresh lo hi s :
  malloc_fresh sys lo hi → length fresh = EVENT_BUFFER_SIZE → inv lo hi s →
  ∃ s', queryMissingTopics sys fresh s false = Ret s' ∧ topics_ s' = topics_ s ∧
    if decide (TopicStore.getMissing (topics_ s) = ∅)
    then queryTimerActive_ s' = false ∧ calls s' = calls s
    else queryTimerActive_ s' = queryTimerActive_ s ∧
      ∃ es bs, calls s' = calls s ++ [TimerExpires (queryInterval_ s); TimerWait] ++ es ∧
        delays es = [] ∧ datagrams es = search_msg (my_guid_ s) <$> bs ∧
        concat bs = set_iter (TopicStore.getMissing (topics_ s)) ∧
        Forall (λ b, b ≠ [] ∧ length b <= 4 ∧
                     length (search_msg (my_guid_ s) b) < EVENT_BUFFER_SIZE) bs.
Proof.
  intros Hsys Hfr Hi. destruct (decide (TopicStore.getMissing (topics_ s) = ∅)) as [He|Hne].
  - unfold queryMissingTopics. rewrite decide_True by done. by eexists.
  - destruct (query_round sys fresh lo hi Hsys Hfr s Hi Hne)
      as (s' & -> & _ & Ht & _ & Ha & _ & es & Hc & Hd & Hm).
    eexists. split; [done|]. split; [done|]. split; [done|]. do 2 eexists. split; [exact Hc|].
    split; [done|]. split; [exact Hm|].
    destruct (batches_spec (start_len (my_guid_ s)) (set_iter (TopicStore.getMissing (topics_ s))))
      as [Hcat Hall].
    { eapply Forall_impl; [apply (missing_fit _ _ _ Hi)|]. by intros n [_ ?]. }
    split; [done|]. eapply Forall_impl; [exact Hall|].
    intros b (? & ? & ?). by rewrite length_search_msg by apply Hi.
Qed.

(** Back-off: while a topic stays missing, the rounds after [startQueryTimer] are 1, 2, 4, 8
    and then always 16 seconds apart, and the timer stays active. *)
Theorem query_backoff sys fresh lo hi s k :
  malloc_fresh sys lo hi → length fresh = EVENT_BUFFER_SIZE → inv lo hi s →
  TopicStore.getMissing (topics_ s) ≠ ∅ →
  ∃ s' es, fire sys fresh k (startQueryTimer s) = Ret s' ∧
    calls s' = calls (startQueryTimer s) ++ es ∧
    delays es = (λ i, Z.min 16000 (1000 * 2 ^ Z.of_nat i)) <$> seq 0 k ∧
    queryTimerActive_ s' = true.
Proof.
  intros Hsys Hfr Hi Hne.
  destruct (fire_backoff sys fresh lo hi Hsys Hfr k 0 (startQueryTimer s))
    as (s' & es & Hf & _ & Hc & Hd & Ha); [by apply inv_startQueryTimer|..].
  - unfold startQueryTimer. by destruct (queryTimerActive_ s).
  - done.
  - exists s', es. split; [done|]. split; [done|]. split; [exact Hd|]. rewrite Ha.
    by unfold startQueryTimer.
Qed.

(** C31. Formatting a message into a pool buffer is safe exactly when the text with its
    terminator fits: a longer description or name overflows the buffer. *)
Theorem send_safe_iff sys fresh lo hi s c args :
  malloc_fresh sys lo hi → length fresh = EVENT_BUFFER_SIZE → inv lo hi s →
  (defined (send sys fresh s c args) = true ↔ length (message (my_guid_ s) c args) < EVENT_BUFFER_SIZE).
Proof.
  intros Hsys Hfr Hi. destruct (inv_heap _ _ _ Hi) as [leaked Hok]. split.
  - intros Hd. destruct (decide (length (message (my_guid_ s) c args) < EVENT_BUFFER_SIZE)) as [|Hn]; [done|].
    exfalso. revert Hd. unfold send.
    destruct (pool_malloc_ok sys fresh lo hi Hsys Hfr _ _ Hok) as (p & b & k & -> & Hok1 & _).
    rewrite bind_Ret. unfold put.
    rewrite (length_content fresh lo hi Hfr _ _ _ Hok1).
    rewrite (bool_decide_eq_false_2 (0 + _ < _)) by done. by rewrite andb_false_r.
  - intros Hf. by destruct (send_ok sys fresh lo hi Hsys Hfr s leaked c args Hok Hf) as (s' & -> & _).
Qed.

(** An advertisement arrives as sent: when a node adds a topic, the datagram it broadcasts
    makes any other node on the network file that topic, with the same name, socket type,
    address and message types, under the sender's guid. *)
Theorem advertisement_roundtrip `{Inet} own_a sys_a lo_a hi_a own_b sys_b lo_b hi_b fresh
    A B now_b now_a n ty a ins outs :
  malloc_fresh sys_a lo_a hi_a → malloc_fresh sys_b lo_b hi_b → length fresh = EVENT_BUFFER_SIZE →
  inv lo_a hi_a A → inv lo_b hi_b B →
  wire_word (my_guid_ B) → my_guid_ B ≠ my_guid_ A →
  describable n ty a ins outs →
  OwnAddress.onNetwork own_a (Address.ip_ (Address.parse a)) = true →
  TopicStore.local_topics_ (topics_ B) !! n = None →
  admissible B (Add now_b n ty a ins outs) →
  ∃ B' m A' x,
    step own_b sys_b fresh B (Add now_b n ty a ins outs) = Ret B' ∧ sent_between B B' [m] ∧
    event own_a sys_a fresh A now_a false m = Ret A' ∧
    TopicStore.table (topics_ A') = TopicStore.spec_add (TopicStore.table (topics_ A)) x ∧
    dt_name x = n ∧ dt_socketType x = ty ∧ dt_address x = a ∧ dt_inputTypes x = ins ∧
    dt_outputTypes x = outs ∧ dt_guid x = my_guid_ B.
Proof.
  intros HsA HsB Hfr HiA HiB Hw Hne Hdesc Hnet Hloc (info & Hinfo & Hf1 & Hf2).
  pose proof (add_own_ok sys_b fresh _ _ HsB Hfr B now_b n ty a ins outs info HiB Hinfo Hf1 Hf2) as Hadd.
  rewrite Hloc in Hadd. destruct Hadd as (st & ns & B' & _ & HaddB & _ & _ & Hs).
  destruct (available_received own_a sys_a fresh lo_a hi_a Hfr A now_a (my_guid_ B) n ty a ins outs info)
    as (A' & st' & ns' & Hev & _ & HaddA & HtA & _); try done; [unfold fits in Hf1; lia|].
  exists B', (message (my_guid_ B) DISCOVERY_AVAILABLE info), A'. eexists.
  split; [cbn [step]; by rewrite HaddB|]. split_and!; [|exact Hev|..].
  - destruct (sends_between _ _ _ _ Hs) as (es & Hc & Hd).
    exists ((Handler <$> ns) ++ es). cbn in Hc. rewrite Hc, <- app_assoc. split; [done|].
    by rewrite datagrams_app, datagrams_handlers, Hd.
  - rewrite HtA. by apply (TopicStore.add_table _ _ _ _ _ HaddA).
  - done. - done. - done. - done. - done. - done.
Qed.

(** C7. Discovery works end to end: if node A observes a topic nobody has advertised to it and
    node B provides it, then one round of A's query timer sends a datagram which, delivered
    to B, makes B send a datagram which, delivered to A, files B's topic at A, calls A's
    observers of the topic with it, and ends the search for it. *)
Theorem discovery_converges `{Inet} own_a sys_a lo_a hi_a own_b sys_b lo_b hi_b fresh
    A B now_b now_a n x :
  malloc_fresh sys_a lo_a hi_a → malloc_fresh sys_b lo_b hi_b → length fresh = EVENT_BUFFER_SIZE →
  inv lo_a hi_a A → inv lo_b hi_b B →
  wire_word (my_guid_ A) → wire_word (my_guid_ B) → my_guid_ B ≠ my_guid_ A →
  Forall wire_word (set_iter (TopicStore.getMissing (topics_ A))) →
  n ∈ TopicStore.getMissing (topics_ A) →
  TopicStore.findLocal (topics_ B) n = Some x →
  describable n (dt_socketType x) (dt_address x) (dt_inputTypes x) (dt_outputTypes x) →
  OwnAddress.onNetwork own_a (Address.ip_ (Address.parse (dt_address x))) = true →
  ∃ A1 qs q B1 rs r A2 y,
    queryMissingTopics sys_a fresh A false = Ret A1 ∧ sent_between A A1 qs ∧ q ∈ qs ∧
    event own_b sys_b fresh B now_b false q = Ret B1 ∧ sent_between B B1 rs ∧ r ∈ rs ∧
    event own_a sys_a fresh A1 now_a false r = Ret A2 ∧
    TopicStore.table (topics_ A2) !! (n, my_guid_ B) = Some y ∧
    dt_address y = dt_address x ∧ dt_socketType y = dt_socketType x ∧
    dt_inputTypes y = dt_inputTypes x ∧ dt_outputTypes y = dt_outputTypes x ∧
    (∀ o, (n, o) ∈ TopicStore.observers (topics_ A) →
       Handler (TopicStore.Notify (TopicStore.handler o) n {[my_guid_ B := y]}) ∈ calls A2) ∧
    n ∉ TopicStore.getMissing (topics_ A2).
Proof.
  intros HsA HsB Hfr HiA HiB HwA HwB Hne Hmiss Hn Hx Hdesc Hnet.
  destruct (query_datagram sys_a fresh _ _ HsA Hfr A n HiA Hmiss Hn)
    as (A1 & qs & batch & HA1 & Hsent & Hq & Hbne & Hbw & Hnb & Hlen & HiA1 & HtA1 & HgA1).
  destruct (search_received own_b sys_b fresh _ _ HsB Hfr B now_b (my_guid_ A) batch)
    as (B1 & HB1 & _ & _ & HsentB); try done; [lia|].
  assert (x ∈ batch ≫= answers (topics_ B)) as Hans.
  { apply list_elem_of_bind. exists n. split; [|done]. unfold answers.
    case_decide; [apply elem_of_locals; by exists n|]. rewrite Hx. set_solver. }
  pose proof (inv_locals _ _ _ HiB n x Hx) as (Hfit & _ & Hinfo).
  destruct (available_received own_a sys_a fresh lo_a hi_a Hfr A1 now_a (my_guid_ B) n (dt_socketType x)
              (dt_address x) (dt_inputTypes x) (dt_outputTypes x) (dt_info x))
    as (A2 & st & ns & HA2 & _ & Hadd & HtA2 & HcA2); try done; [by rewrite HgA1|unfold fits in Hfit; lia|].
  rewrite HtA1 in Hadd. apply TopicStore.elem_of_getMissing in Hn as [_ Hnone].
  destruct (add_first _ _ _ _ _ Hadd Hnone) as (Hview & Hcalls). cbn [dt_name dt_guid] in Hview, Hcalls.
  do 8 eexists. split; [exact HA1|]. split; [exact Hsent|]. split; [exact Hq|].
  split; [exact HB1|]. split; [exact HsentB|].
  split; [apply list_elem_of_fmap; by exists x|]. split; [exact HA2|].
  rewrite HtA2. split; [rewrite TopicStore.table_lookup, Hview; apply lookup_singleton_eq|].
  do 4 (split; [done|]). split.
  - intros o Ho. rewrite HcA2. apply elem_of_app. right. apply elem_of_app. left.
    apply list_elem_of_fmap. eexists. split; [done|]. by apply Hcalls.
  - rewrite TopicStore.elem_of_getMissing. intros [_ Hnet2]. unfold TopicStore.view in Hview.
    rewrite Hnet2 in Hview. simpl in Hview. symmetry in Hview. by apply map_non_empty_singleton in Hview.
Qed.

(** ** Witnesses *)

Ltac decide_now := apply (bool_decide_unpack _); vm_compute; exact I.

Lemma inv_step_demo s o s' :
  inv demo_base (pool_end demo_base) s → admissible s o →
  step demo_own demo_malloc demo_fresh s o = Ret s' → inv demo_base (pool_end demo_base) s'.
Proof.
  intros Hi Ha Hs.
  destruct (step_ok demo_malloc demo_fresh _ _ demo_malloc_fresh demo_fresh_length demo_own s o Hi Ha)
    as [(s2 & Hr & Hi' & _)|[(n & _ & Hr)|(now & l & _ & _ & Hr)]]; rewrite Hs in Hr; by simplify_eq.
Qed.

Definition demo_step (s : t) (o : op) : t :=
  match step demo_own demo_malloc demo_fresh s o with Ret s' => s' | _ => s end.

Definition node_a : t := demo_node "a" "1".
Definition node_b : t := demo_node "b" "2".
Definition observe_t : op := Observe "t" 7 "u".
Definition add_t : op := Add 5 "t" 1 "tcp://127.0.0.1:5000" ∅ {["imu"]}.
Definition observer_a : t := demo_step node_a observe_t.
Definition provider_b : t := demo_step node_b add_t.
Definition info_t : string := "t PUB tcp://127.0.0.1:5000 . imu".

Lemma node_a_inv : inv demo_base (pool_end demo_base) node_a.
Proof. by apply demo_node_inv. Qed.

Lemma node_b_inv : inv demo_base (pool_end demo_base) node_b.
Proof. by apply demo_node_inv. Qed.

Lemma observe_t_admissible : admissible node_a observe_t.
Proof. split; [done|]. apply Nat.ltb_lt. vm_compute. reflexivity. Qed.

Lemma add_t_admissible s : my_guid_ s = my_guid_ node_b → admissible s add_t.
Proof.
  intros Hg. exists info_t. unfold fits. rewrite Hg. split; [vm_compute; reflexivity|].
  split; apply Nat.ltb_lt; vm_compute; reflexivity.
Qed.

Lemma observer_a_inv : inv demo_base (pool_end demo_base) observer_a.
Proof.
  eapply inv_step_demo; [apply node_a_inv|apply observe_t_admissible|].
  vm_compute. reflexivity.
Qed.

Lemma provider_b_inv : inv demo_base (pool_end demo_base) provider_b.
Proof.
  eapply inv_step_demo; [apply node_b_inv|by apply add_t_admissible|].
  vm_compute. reflexivity.
Qed.

Lemma observer_a_guid : my_guid_ observer_a = "a_127.0.0.1_1".
Proof. vm_compute. reflexivity. Qed.

Lemma provider_b_guid : my_guid_ provider_b = "b_127.0.0.1_2".
Proof. vm_compute. reflexivity. Qed.

Lemma type_text_ok ty :
  bool_decide (ty ≠ "" ∧ (NUL ∉ chars ty) ∧ (SPC ∉ chars ty) ∧ (SEP ∉ chars ty)) = true → type_ok ty.
Proof. by intros ?%bool_decide_eq_true. Qed.

Lemma no_types_ok : types_ok ∅ ∧ set_Forall (λ x, forallb isprint (chars x) = true) (∅ : gset string).
Proof.
  split; [split|]; [by intros ? ?%not_elem_of_empty| |by intros ? ?%not_elem_of_empty].
  intros He. assert (NO_TYPES ∈ (∅ : gset string)) by (rewrite He; set_solver). set_solver.
Qed.

Lemma one_type_ok ty :
  bool_decide (ty ≠ "" ∧ (NUL ∉ chars ty) ∧ (SPC ∉ chars ty) ∧ (SEP ∉ chars ty)) = true →
  ty ≠ NO_TYPES → forallb isprint (chars ty) = true →
  types_ok {[ty]} ∧ set_Forall (λ x, forallb isprint (chars x) = true) ({[ty]} : gset string).
Proof.
  intros Hty Hne Hp. split; [split|by intros ? ->%elem_of_singleton].
  - intros ? ->%elem_of_singleton. by apply type_text_ok.
  - intros He. assert (ty ∈ ({[NO_TYPES]} : gset string)) by (rewrite <- He; set_solver). set_solver.
Qed.

Lemma demo_describable : describable "t" 1 "tcp://127.0.0.1:5000" ∅ {["imu"]}.
Proof.
  split; [split_and!; [done|done|decide_now]|split_and!; [done|done|decide_now]|by exists "PUB"|..].
  - apply no_types_ok.
  - by apply one_type_ok.
Qed.

Lemma directory_safe_witness :
  (defined (step demo_own demo_malloc demo_fresh node_a (Event 0 false (chars "DISPATCH x A  | |"))) = true) ∧
  step demo_own demo_malloc demo_fresh node_a (Event 0 false [ascii_of_N 200]) = Undef.
Proof.
  pose proof (λ l, directory_safe demo_own demo_malloc demo_fresh "a" "1" demo_base demo_garbage None None
    node_a node_a (Event 0 false l) eq_refl demo_malloc_fresh demo_fresh_length (length_replicate _ _)
    eq_refl eq_refl eq_refl eq_refl (reach_refl _ _ _ _)) as H.
  split.
  - specialize (H (chars "DISPATCH x A  | |")). destruct H as [H _]; [apply Nat.leb_le; vm_compute; reflexivity|].
    destruct (step _ _ _ _ _); [reflexivity|reflexivity|]. destruct H as (now & l & [= <- <-] & Hl%printable_Undef).
    vm_compute in Hl. discriminate.
  - apply (H [ascii_of_N 200]) with (now := 0%Z) (l := [ascii_of_N 200]); [apply Nat.leb_le; reflexivity|reflexivity|].
    apply printable_Undef. vm_compute. reflexivity.
Defined.

Lemma event_refines_words_witness :
  ∃ buf, event demo_own demo_malloc demo_fresh node_a 0 false [NUL] =
         Ret (receive (set_receive node_a buf)).
Proof.
  destruct (event_refines_words demo_own demo_malloc demo_fresh node_a 0 [NUL]) as (buf & _ & H).
  - apply Nat.leb_le. vm_compute. reflexivity.
  - apply length_replicate.
  - exists buf. exact H.
Defined.

Lemma query_complete_witness :
  ∃ s', queryMissingTopics demo_malloc demo_fresh observer_a false = Ret s' ∧
        topics_ s' = topics_ observer_a.
Proof.
  destruct (query_complete demo_malloc demo_fresh demo_base (pool_end demo_base) observer_a
              demo_malloc_fresh demo_fresh_length observer_a_inv) as (s' & H1 & H2 & _).
  exists s'. split; [exact H1|exact H2].
Defined.

Lemma query_backoff_witness :
  ∃ s' es, fire demo_malloc demo_fresh 6 (startQueryTimer observer_a) = Ret s' ∧
    calls s' = calls (startQueryTimer observer_a) ++ es ∧
    delays es = [1000; 2000; 4000; 8000; 16000; 16000]%Z.
Proof.
  destruct (query_backoff demo_malloc demo_fresh demo_base (pool_end demo_base) observer_a 6
              demo_malloc_fresh demo_fresh_length observer_a_inv) as (s' & es & H1 & H2 & H3 & _).
  - intros He. assert ("t" ∈ (∅ : gset string)) as Hin; [|by apply not_elem_of_empty in Hin].
    rewrite <- He. decide_now.
  - exists s', es. split; [exact H1|]. split; [exact H2|exact H3].
Defined.

Lemma send_safe_iff_witness :
  defined (send demo_malloc demo_fresh node_a DISCOVERY_REMOVE "t") = true.
Proof.
  apply (send_safe_iff demo_malloc demo_fresh demo_base (pool_end demo_base) node_a
           DISCOVERY_REMOVE "t" demo_malloc_fresh demo_fresh_length node_a_inv).
  apply Nat.ltb_lt. vm_compute. reflexivity.
Defined.

Lemma advertisement_roundtrip_witness :
  ∃ B' m A' x, step demo_own demo_malloc demo_fresh node_b add_t = Ret B' ∧ sent_between node_b B' [m] ∧
    event demo_own demo_malloc demo_fresh node_a 9 false m = Ret A' ∧
    TopicStore.table (topics_ A') = TopicStore.spec_add (TopicStore.table (topics_ node_a)) x.
Proof.
  destruct (advertisement_roundtrip demo_own demo_malloc demo_base (pool_end demo_base)
              demo_own demo_malloc demo_base (pool_end demo_base) demo_fresh node_a node_b 5 9
              "t" 1 "tcp://127.0.0.1:5000" ∅ {["imu"]} demo_malloc_fresh demo_malloc_fresh
              demo_fresh_length node_a_inv node_b_inv) as (B' & m & A' & x & H1 & H2 & H3 & H4 & _).
  - split_and!; [done|done|decide_now].
  - vm_compute. discriminate.
  - apply demo_describable.
  - vm_compute. reflexivity.
  - vm_compute. reflexivity.
  - apply add_t_admissible. reflexivity.
  - exists B', m, A', x. split; [exact H1|]. split; [exact H2|]. split; [exact H3|exact H4].
Defined.

Lemma discovery_converges_witness :
  ∃ A2 y, TopicStore.table (topics_ A2) !! ("t", my_guid_ provider_b) = Some y ∧
          dt_address y = "tcp://127.0.0.1:5000".
Proof.
  destruct (discovery_converges demo_own demo_malloc demo_base (pool_end demo_base)
              demo_own demo_malloc demo_base (pool_end demo_base) demo_fresh observer_a provider_b 5 9
              "t" (mkDirectoryTopic "t" 5 1 "tcp://127.0.0.1:5000" ∅ {["imu"]} (my_guid_ node_b) info_t)
              demo_malloc_fresh demo_malloc_fresh
              demo_fresh_length observer_a_inv provider_b_inv)
    as (_ & _ & _ & _ & _ & _ & A2 & y & _ & _ & _ & _ & _ & _ & _ & Ht & Ha & _).
  - rewrite observer_a_guid. split_and!; [done|done|decide_now].
  - rewrite provider_b_guid. split_and!; [done|done|decide_now].
  - rewrite observer_a_guid, provider_b_guid. discriminate.
  - replace (set_iter (TopicStore.getMissing (topics_ observer_a))) with ["t"] by (vm_compute; reflexivity).
    apply Forall_singleton. split_and!; [done|done|decide_now].
  - decide_now.
  - vm_compute. reflexivity.
  - apply demo_describable.
  - vm_compute. reflexivity.
  - exists A2, y. split; [exact Ht|exact Ha].
Defined.

End Protocol.
