(* ===== verification/Offers.v ===== *)
(** * What directories tell each other (src/a17/dispatch/directory.cpp)

    The messages of the discovery protocol as data, what each does to the rows a receiver
    keeps for its sender, and the proof that the directory of [Directory] implements
    them: every datagram it sends is the text of such a message, the messages of one
    operation account for the change of the sender's own topics, and a received
    datagram changes the sender's rows as its message says and no other rows. *)

From S2P Require Import Prelude BufferPool Address Topics TopicStore Wire Directory Discovery.

Module Offers.
Import Directory Discovery.

(** ** Offers and messages *)

(** What is advertised about a topic. *)
Record offer : Type := Offer {
  o_type : Z;
  o_address : string;
  o_ins : gset string;
  o_outs : gset string
}.

Definition offer_of (x : DirectoryTopic) : offer :=
  Offer (dt_socketType x) (dt_address x) (dt_inputTypes x) (dt_outputTypes x).

(** The rows kept for one node, by topic name. *)
Definition offers_by (st : TopicStore.t) (g : string) : gmap string offer :=
  omap (λ gm, offer_of <$> gm !! g) (TopicStore.network_topics_ st).

(** A new row replaces an old one only if the address differs. *)
Definition put_offer (n : string) (o : offer) (D : gmap string offer) : gmap string offer :=
  match D !! n with
  | Some old => if decide (o_address old = o_address o) then D else <[n := o]> D
  | None => <[n := o]> D
  end.

Inductive msg : Type :=
  | Available (n : string) (o : offer)
  | Search (names : list string)
  | Withdraw (n : string)
  | Exit.

(** The datagram of a message of the node [g]. *)
Definition encode (g : string) (m : msg) : list ascii :=
  match m with
  | Available n o =>
      match buildTopicInfo n (o_type o) (o_address o) (o_ins o) (o_outs o) with
      | Ret info => message g DISCOVERY_AVAILABLE info
      | _ => []
      end
  | Search names => search_msg g names
  | Withdraw n => message g DISCOVERY_REMOVE n
  | Exit => chars DISPATCH ++ chars g ++ [SPC; DISCOVERY_EXIT]
  end.

Definition reachable_at `{Inet} (own : OwnAddress.t) (o : offer) : bool :=
  OwnAddress.onNetwork own (Address.ip_ (Address.parse (o_address o))).

(** What a message does to the rows of its sender. *)
Definition apply_msg `{Inet} (own : OwnAddress.t) (D : gmap string offer) (m : msg) : gmap string offer :=
  match m with
  | Available n o => if reachable_at own o then put_offer n o D else D
  | Search _ => D
  | Withdraw n => delete n D
  | Exit => ∅
  end.

Definition describable_offer (n : string) (o : offer) : Prop :=
  describable n (o_type o) (o_address o) (o_ins o) (o_outs o).

(** Messages that fit a datagram and whose names travel as words. *)
Definition carried (g : string) (m : msg) : Prop :=
  length (encode g m) <= EVENT_BUFFER_SIZE ∧
  match m with
  | Available n o => describable_offer n o
  | Withdraw n => wire_word n
  | _ => True
  end.

(** The offers a receiver on network [own] takes up. *)
Definition visible `{Inet} (own : OwnAddress.t) (D : gmap string offer) : gmap string offer :=
  filter (λ e, reachable_at own e.2 = true) D.

(** ** The rows of a node under the store's operations *)

Lemma lookup_offers st g n : offers_by st g !! n = offer_of <$> TopicStore.view st n !! g.
Proof.
  unfold offers_by, TopicStore.view. rewrite lookup_omap.
  destruct (TopicStore.network_topics_ st !! n); simpl; [done|by rewrite lookup_empty].
Qed.

Lemma offers_init g g' : offers_by (TopicStore.init g) g' = ∅.
Proof. apply map_eq. intros n. by rewrite lookup_offers, lookup_empty. Qed.

Lemma add_offers st x b st' ns g :
  TopicStore.add st x = Ret (b, st', ns) →
  offers_by st' g =
  if decide (g = dt_guid x) then put_offer (dt_name x) (offer_of x) (offers_by st g)
  else offers_by st g.
Proof.
  intros Hadd. apply map_eq. intros n. rewrite lookup_offers, (TopicStore.add_view _ _ _ _ _ n Hadd).
  case_decide as Hn; [subst n|]; case_decide as Hg; try subst g.
  - unfold put_offer. rewrite lookup_offers.
    destruct (TopicStore.view st (dt_name x) !! dt_guid x) as [old|] eqn:E; simpl.
    + case_decide as Ha; [by rewrite lookup_offers|by rewrite !lookup_insert_eq].
    + by rewrite !lookup_insert_eq.
  - rewrite lookup_offers. destruct (TopicStore.view st (dt_name x) !! dt_guid x); [case_decide|];
      rewrite ?lookup_insert_ne by done; done.
  - unfold put_offer. destruct (offers_by st (dt_guid x) !! dt_name x); [case_decide|];
      rewrite ?lookup_insert_ne by done; by rewrite lookup_offers.
  - by rewrite lookup_offers.
Qed.

Lemma remove_offers st guid n g :
  offers_by (TopicStore.remove st guid n).1.2 g =
  if decide (g = guid) then delete n (offers_by st g) else offers_by st g.
Proof.
  apply map_eq. intros n'. rewrite lookup_offers, TopicStore.remove_view.
  case_decide as Hn; [subst n'|]; case_decide as Hg; try subst g;
    rewrite ?lookup_delete_eq, ?lookup_delete_ne, ?lookup_offers by done; done.
Qed.

Lemma evict_offers st guid g :
  offers_by (TopicStore.evict st guid).1 g = if decide (g = guid) then ∅ else offers_by st g.
Proof.
  apply map_eq. intros n. rewrite lookup_offers, TopicStore.evict_view.
  case_decide as Hg; [subst g|]; rewrite ?lookup_delete_eq, ?lookup_delete_ne, ?lookup_offers, ?lookup_empty by done;
    done.
Qed.

Lemma lookup_local_offers lo hi s n :
  inv lo hi s →
  offers_by (topics_ s) (my_guid_ s) !! n = offer_of <$> TopicStore.local_topics_ (topics_ s) !! n.
Proof.
  intros Hi. destruct (TopicStore.reach_wf _ _ (inv_store _ _ _ Hi)) as [Hwf Hg].
  by rewrite lookup_offers, (TopicStore.wf_local _ Hwf), Hg.
Qed.

(** ** What is visible of an offer set *)
Section visible.
Context `{Inet} (own : OwnAddress.t).

Lemma visible_insert n o D :
  D !! n = None →
  visible own (<[n := o]> D) = if reachable_at own o then <[n := o]> (visible own D) else visible own D.
Proof.
  intros Hn. unfold visible. destruct (reachable_at own o) eqn:E.
  - by rewrite map_filter_insert_True.
  - rewrite map_filter_insert_False by (simpl; congruence). by rewrite delete_id.
Qed.

Lemma visible_delete n D : visible own (delete n D) = delete n (visible own D).
Proof. apply map_filter_delete. Qed.

(** Announcing a new offer, or repeating one. *)
Lemma apply_new n o D :
  D !! n = None → apply_msg own (visible own D) (Available n o) = visible own (<[n := o]> D).
Proof.
  intros Hn. rewrite visible_insert by done. simpl. destruct (reachable_at own o); [|done].
  unfold put_offer. assert (visible own D !! n = None) as ->; [|done].
  apply map_lookup_filter_None. by left.
Qed.

Lemma apply_known n o D :
  D !! n = Some o → apply_msg own (visible own D) (Available n o) = visible own D.
Proof.
  intros Hn. simpl. destruct (reachable_at own o) eqn:E; [|done].
  unfold put_offer. assert (visible own D !! n = Some o) as ->; [|by rewrite decide_True].
  apply map_lookup_filter_Some. done.
Qed.

Lemma apply_all_known ms D :
  Forall (λ m, match m with Available n o => D !! n = Some o | Search _ => True | _ => False end) ms →
  foldl (apply_msg own) (visible own D) ms = visible own D.
Proof.
  induction 1 as [|m ms Hm _ IH]; [done|]. cbn [foldl]. destruct m; try done.
  by rewrite apply_known.
Qed.
End visible.

(** ** How a directory reacts to one datagram *)

(** The sender named in a tagged datagram. *)
Definition sender (l : list ascii) : string :=
  str (default [] (head (split_on SPC (drop (String.length DISPATCH) l)))).

Inductive reaction (s : t) (g : string) (s' : t) : Prop :=
  | re_answer xs :
      topics_ s' = topics_ s →
      Forall (λ x, x ∈ TopicStore.locals (topics_ s)) xs →
      sent_between s s' (available (my_guid_ s) <$> xs) → reaction s g s'
  | re_filed x ns :
      g ≠ my_guid_ s → dt_guid x = g →
      TopicStore.add (topics_ s) x = Ret (false, topics_ s', ns) →
      sent_between s s' [] → reaction s g s'
  | re_removed n :
      g ≠ my_guid_ s → topics_ s' = (TopicStore.remove (topics_ s) g n).1.2 →
      sent_between s s' [] → reaction s g s'
  | re_evicted :
      g ≠ my_guid_ s → topics_ s' = (TopicStore.evict (topics_ s) g).1 →
      sent_between s s' [] → reaction s g s'.

Lemma sent_nothing s s' : calls s' = calls s → sent_between s s' [].
Proof. intros Hc. exists []. by rewrite app_nil_r. Qed.

Lemma reaction_none s g s' : topics_ s' = topics_ s → calls s' = calls s → reaction s g s'.
Proof. intros Ht Hc. apply (re_answer _ _ _ []); [done|constructor|by apply sent_nothing]. Qed.

Lemma sent_between_ext s s' es msgs s2 s2' :
  calls s2 = calls s → calls s2' = calls s' ++ es → datagrams es = [] →
  sent_between s s' msgs → sent_between s2 s2' msgs.
Proof.
  intros H1 H2 He (es' & Hc & Hd). exists (es' ++ es). rewrite H1, H2, Hc, app_assoc. split; [done|].
  by rewrite datagrams_app, He, Hd, app_nil_r.
Qed.

(** The frame around a reaction: the calls made before and after it send nothing. *)
Lemma reaction_ext s g s' es s2 s2' :
  topics_ s2 = topics_ s → my_guid_ s2 = my_guid_ s → calls s2 = calls s →
  topics_ s2' = topics_ s' → calls s2' = calls s' ++ es → datagrams es = [] →
  reaction s g s' → reaction s2 g s2'.
Proof.
  intros T G C T' C' He Hr. pose proof (λ m, sent_between_ext s s' es m s2 s2' C C' He) as Hs.
  destruct Hr as [xs H1 H2 H3|x ns H1 H2 H3 H4|n H1 H2 H3|H1 H2 H3]; rewrite <- ?T, <- ?G in *.
  - apply (re_answer _ _ _ xs); [by rewrite T'|done|by apply Hs].
  - apply (re_filed _ _ _ x ns); [done..|by rewrite T'|by apply Hs].
  - apply (re_removed _ _ _ n); [done|by rewrite T'|by apply Hs].
  - apply re_evicted; [done|by rewrite T'|by apply Hs].
Qed.

Lemma datagrams_notify ns es : datagrams es = [] → datagrams ((Handler <$> ns) ++ es) = [].
Proof. intros He. by rewrite datagrams_app, datagrams_handlers. Qed.

Lemma calls_startQueryTimer s :
  ∃ es, calls (startQueryTimer s) = calls s ++ es ∧ datagrams es = [].
Proof.
  unfold startQueryTimer. destruct (queryTimerActive_ s); simpl; [|by eexists].
  rewrite <- app_assoc. by eexists.
Qed.

Lemma topics_startQueryTimer s : topics_ (startQueryTimer s) = topics_ s.
Proof. unfold startQueryTimer. by destruct (queryTimerActive_ s). Qed.

Lemma guid_startQueryTimer s : my_guid_ (startQueryTimer s) = my_guid_ s.
Proof. unfold startQueryTimer. by destruct (queryTimerActive_ s). Qed.

(** A change of the store that only calls observers and restarts the query timer. *)
Lemma sent_store_calls s st ns : sent_between s (startQueryTimer (store_calls s st ns)) [].
Proof.
  destruct (calls_startQueryTimer (store_calls s st ns)) as (es & Hc & Hd).
  exists ((Handler <$> ns) ++ es). rewrite Hc. cbn. rewrite <- app_assoc. split; [done|].
  by apply datagrams_notify.
Qed.

Section node.
Context `{Inet} (own : OwnAddress.t) (sys : gset Z → Z) (fresh : list ascii) (lo hi : Z).
Context (Hsys : malloc_fresh sys lo hi) (Hfresh : length fresh = EVENT_BUFFER_SIZE).

Lemma spec_available_reaction s now guid args s' :
  inv lo hi s → str guid ≠ my_guid_ s →
  spec_available own sys fresh s now guid args = Ret s' → reaction s (str guid) s'.
Proof.
  intros Hi Hg. unfold spec_available.
  destruct args as [|n [|ty [|a [|i [|o more]]]]]; try (intros [= <-]; by apply reaction_none).
  case_decide; [intros [= <-]; by apply reaction_none|].
  destruct (negb _); [intros [= <-]; by apply reaction_none|].
  destruct (Z.ltb_spec (SocketTypes.fromName (str ty)) 0); [intros [= <-]; by apply reaction_none|].
  destruct (add_foreign_ok sys fresh lo hi s now (str n) (SocketTypes.fromName (str ty)) (str a)
              (parseTypes ∅ (str i)) (parseTypes ∅ (str o)) (str guid) Hi Hg)
    as (info & st & ns & _ & Hadd & -> & _); [eexists; by apply fromType_fromName|].
  rewrite bind_Ret. intros [= <-]. eapply re_filed; [done| |exact Hadd|]; [done|].
  exists (Handler <$> ns). split; [done|]. rewrite <- (app_nil_r (Handler <$> ns)).
  by apply datagrams_notify.
Qed.

Lemma spec_search_answer s args s' :
  inv lo hi s → spec_search sys fresh s args = Ret s' →
  topics_ s' = topics_ s ∧
  ∃ xs, Forall (λ x, x ∈ TopicStore.locals (topics_ s)) xs ∧
        sent_between s s' (available (my_guid_ s) <$> xs).
Proof.
  intros Hi Hs. destruct (inv_heap _ _ _ Hi) as [leaked Hok].
  destruct (spec_search_ok sys fresh lo hi Hsys Hfresh s leaked args Hok) as (s2 & Hs2 & _ & Hsend).
  { apply Forall_forall. intros x [n Hn]%elem_of_locals. by apply (inv_locals _ _ _ Hi) in Hn as [? _]. }
  rewrite Hs in Hs2. injection Hs2 as <-. split; [by apply (sends_topics _ _ _ _ Hsend)|].
  eexists. split; [|by eapply sends_between].
  apply Forall_forall. intros x (w & Hx & _)%list_elem_of_bind. unfold answers in Hx. case_decide; [done|].
  unfold TopicStore.findLocal in Hx. destruct (_ !! _) as [y|] eqn:E; [|set_solver].
  apply list_elem_of_singleton in Hx as ->. apply elem_of_locals. eauto.
Qed.

Lemma spec_words_reaction s now words s' :
  inv lo hi s → spec_words own sys fresh s now words = Ret s' →
  reaction s (str (default [] (head words))) s'.
Proof.
  intros Hi. unfold spec_words.
  destruct words as [|guid [|[|c w] args]]; try (intros [= <-]; by apply reaction_none).
  cbn [head default from_option id]. rewrite c_str_nul_free by apply Hi.
  case_decide as Hg; [intros [= <-]; by apply reaction_none|].
  case_decide; [by apply spec_available_reaction|].
  case_decide; [intros (Ht & xs & Hx & Hsent)%spec_search_answer; [|done]; by eapply re_answer|].
  case_decide.
  { unfold spec_exit. pose proof (sent_store_calls s) as Hc.
    destruct (TopicStore.evict _ _) as [st ns] eqn:E. intros [= <-].
    apply re_evicted; [done| |done]. by rewrite topics_startQueryTimer, E. }
  case_decide; [|intros [= <-]; by apply reaction_none].
  unfold spec_remove. set (n := str (default _ _)). pose proof (sent_store_calls s) as Hc.
  destruct (TopicStore.remove _ _ _) as [[b st] ns] eqn:E. intros [= <-].
  apply (re_removed _ _ _ n); [done| |done]. by rewrite topics_startQueryTimer, E.
Qed.

(** Whatever the datagram, the reaction is to the node it names as its sender. *)
Lemma event_reaction s now ec l s' :
  inv lo hi s → length l <= EVENT_BUFFER_SIZE →
  event own sys fresh s now ec l = Ret s' → reaction s (sender l) s'.
Proof.
  intros Hi Hl. destruct ec.
  { intros [= <-]. apply (re_answer _ _ _ []); [done|constructor|]. by exists [AsyncReceive]. }
  pose proof (inv_receive _ _ _ Hi) as Hr.
  destruct (event_spec own sys fresh s now l Hl Hr) as (buf & Hb & ->).
  assert (∀ s2, topics_ s2 = topics_ s → calls s2 = calls s ++ [AsyncReceive] →
            reaction s (sender l) s2) as Hnone.
  { intros s2 Ht Hc. apply (re_answer _ _ _ []); [done|constructor|]. by exists [AsyncReceive]. }
  intros ([] & _ & He)%bind_Ret_inv; [|by injection He as <-; apply Hnone]. revert He.
  unfold spec_handle. case_decide; [|rewrite bind_Ret; intros [= <-]; by apply Hnone].
  set (s0 := set_receive _ _). intros (s1 & Hw & [= <-])%bind_Ret_inv.
  assert (inv lo hi s0) as Hi0.
  { apply inv_set_receive; [done|]. rewrite length_app, length_drop. lia. }
  apply spec_words_reaction in Hw; [|done].
  by eapply (reaction_ext s0 _ s1 [AsyncReceive]).
Qed.

Lemma event_checkable s now ec l s' : event own sys fresh s now ec l = Ret s' → checkable ec l.
Proof.
  unfold event. destruct ec; [by left|]. intros (b & Hb & _)%bind_Ret_inv. right. by rewrite Hb.
Qed.

Lemma event_inv s now ec l s' :
  inv lo hi s → length l <= EVENT_BUFFER_SIZE →
  event own sys fresh s now ec l = Ret s' → inv lo hi s'.
Proof.
  intros Hi Hl He. destruct (event_ok sys fresh lo hi Hsys Hfresh own s now ec l Hi Hl) as (s2 & Hs & ? & _);
    [by eapply event_checkable|]. rewrite He in Hs. by injection Hs as <-.
Qed.

(** A reaction leaves the rows of all other nodes alone, the node's own included. *)
Lemma reaction_offers s g s' g' :
  reaction s g s' → g' ≠ g ∨ g' = my_guid_ s → offers_by (topics_ s') g' = offers_by (topics_ s) g'.
Proof.
  intros Hr Hg. destruct Hr as [xs -> _ _|x ns Hm Hx Hadd _|n Hm -> _|Hm -> _]; [done|..].
  - rewrite (add_offers _ _ _ _ _ _ Hadd), decide_False; [done|]. naive_solver.
  - rewrite remove_offers, decide_False; [done|]. naive_solver.
  - rewrite evict_offers, decide_False; [done|]. naive_solver.
Qed.

Lemma reaction_guid s g s' :
  inv lo hi s → inv lo hi s' → reaction s g s' → my_guid_ s' = my_guid_ s.
Proof.
  intros Hi Hi' Hr. rewrite <- (store_guid _ _ _ Hi), <- (store_guid _ _ _ Hi').
  destruct Hr as [xs -> _ _|x ns _ _ Hadd _|n _ -> _|_ -> _]; [done|..].
  - by apply TopicStore.add_cases in Hadd as (_ & _ & -> & _).
  - unfold TopicStore.remove. by destruct (bool_decide _); simpl; destruct (_ !! n).
  - by destruct (TopicStore.evict_net (topics_ s) g) as (_ & _ & -> & _).
Qed.

(** ** Reading a message *)

Definition command (m : msg) : ascii :=
  match m with
  | Available _ _ => DISCOVERY_AVAILABLE
  | Search _ => DISCOVERY_SEARCH
  | Withdraw _ => DISCOVERY_REMOVE
  | Exit => DISCOVERY_EXIT
  end.

Lemma encode_available g n o :
  describable_offer n o →
  ∃ info, buildTopicInfo n (o_type o) (o_address o) (o_ins o) (o_outs o) = Ret info ∧
    encode g (Available n o) = message g DISCOVERY_AVAILABLE info.
Proof.
  intros Hd. destruct (buildTopicInfo_Ret n (o_type o) (o_address o) (o_ins o) (o_outs o)) as [info Hi];
    [apply Hd|]. exists info. simpl. by rewrite Hi.
Qed.

(** Every message is the tag, its sender, its command and possibly more words. *)
Lemma encode_shape g m :
  wire_word g → carried g m →
  ∃ rest, encode g m = chars DISPATCH ++ chars g ++ SPC :: command m :: rest ∧
          (rest = [] ∨ ∃ r, rest = SPC :: r).
Proof.
  intros Hg%wire_word_nul [_ Hm]. destruct m as [n o|names|n|].
  - destruct (encode_available g n o Hm) as (info & _ & ->). unfold message. rewrite c_str_nul_free by done.
    eexists. split; [done|]. case_decide; [by left|right; by eexists].
  - simpl. unfold search_msg, message. rewrite c_str_nul_free, decide_True by done.
    eexists. rewrite app_nil_r, <- !app_assoc. split; [done|].
    destruct names as [|n names]; [by left|right; by eexists].
  - simpl. unfold message. rewrite c_str_nul_free by done.
    eexists. split; [done|]. case_decide; [by left|right; by eexists].
  - by exists []; split; [|left].
Qed.

Lemma encode_words g m :
  wire_word g → carried g m →
  ∃ args, split_on SPC (drop (String.length DISPATCH) (encode g m)) = chars g :: [command m] :: args.
Proof.
  intros Hg Hm. destruct (encode_shape g m Hg Hm) as (rest & -> & Hr). destruct Hg as (_ & _ & Hs).
  change (drop (String.length DISPATCH) (chars DISPATCH ++ ?X)) with X. rewrite split_on_app by done.
  assert (SPC ∉ [command m]) as Hc by (destruct m; by apply (bool_decide_unpack _)).
  destruct Hr as [->|[r ->]].
  - exists []. by rewrite split_on_word.
  - exists (split_on SPC r). change (command m :: SPC :: r) with ([command m] ++ SPC :: r).
    by rewrite split_on_app.
Qed.

Lemma sender_encode g m : wire_word g → carried g m → sender (encode g m) = g.
Proof.
  intros Hg Hm. unfold sender. destruct (encode_words g m Hg Hm) as [args ->]. apply str_chars.
Qed.

Lemma encode_prefix g m : wire_word g → carried g m → chars DISPATCH `prefix_of` encode g m.
Proof. intros Hg Hm. destruct (encode_shape g m Hg Hm) as (rest & -> & _). by eexists. Qed.

(** What one message does to the rows of its sender. *)
Definition reads_as (s : t) (g : string) (m : msg) (s' : t) : Prop :=
  offers_by (topics_ s') g = apply_msg own (offers_by (topics_ s) g) m.

Lemma receive_available s now g n o :
  inv lo hi s → wire_word g → g ≠ my_guid_ s → carried g (Available n o) →
  ∃ s', event own sys fresh s now false (encode g (Available n o)) = Ret s' ∧
        reads_as s g (Available n o) s'.
Proof.
  intros Hi Hg Hne [Hl Hd]. destruct (encode_available g n o Hd) as (info & Hinfo & He). rewrite He in *.
  destruct (available_read own sys fresh lo hi Hfresh s now g n _ _ _ _ info Hi Hg Hne Hd Hinfo Hl)
    as (s0 & buf & Hi0 & G0 & T0 & _ & _ & ->).
  unfold reads_as. simpl. unfold reachable_at. destruct (OwnAddress.onNetwork _ _).
  - destruct (add_foreign_ok sys fresh lo hi s0 now n (o_type o) (o_address o) (o_ins o) (o_outs o) g Hi0)
      as (info' & st & ns & _ & Hadd & -> & _); [by rewrite G0|apply Hd|]. rewrite !bind_Ret. eexists. split; [done|].
    simpl. by rewrite (add_offers _ _ _ _ _ g Hadd), T0, decide_True; [destruct o|].
  - rewrite bind_Ret. eexists. split; [done|]. simpl. by rewrite T0.
Qed.

(** The other messages are read word by word. *)
Lemma receive_words s now g m (P : t → Prop) :
  inv lo hi s → wire_word g → g ≠ my_guid_ s → carried g m → ¬ negative_char (encode g m) →
  (forallb isprint (encode g m) = false → ∀ s', topics_ s' = topics_ s → P s') →
  (∀ s0 s1 args, topics_ s0 = topics_ s → inv lo hi s0 → my_guid_ s0 = my_guid_ s →
     split_on SPC (drop (String.length DISPATCH) (encode g m)) = chars g :: [command m] :: args →
     spec_words own sys fresh s0 now (chars g :: [command m] :: args) = Ret s1 →
     ∀ s', topics_ s' = topics_ s1 → P s') →
  ∃ s', event own sys fresh s now false (encode g m) = Ret s' ∧ P s'.
Proof.
  intros Hi Hg Hne Hm Hneg Hun Hw. pose proof Hm as [Hl _].
  destruct (forallb isprint (encode g m)) eqn:Hp.
  - destruct (event_tagged own sys fresh lo hi Hfresh s now _ Hi Hl Hp (encode_prefix g m Hg Hm))
      as (s0 & buf & Hi0 & G0 & T0 & _ & _ & ->).
    destruct (encode_words g m Hg Hm) as [args Ha]. rewrite Ha.
    destruct (spec_words_ok sys fresh lo hi Hsys Hfresh own s0 now (chars g :: [command m] :: args) Hi0)
      as (s1 & Hs1 & _ & _). rewrite Hs1, bind_Ret. eexists. split; [done|]. by eapply Hw.
  - destruct (event_spec own sys fresh s now _ Hl (inv_receive _ _ _ Hi)) as (buf & _ & ->).
    rewrite printable_readable, Hp by done. eexists. split; [done|]. by apply Hun.
Qed.

Lemma receive_other s now g m :
  inv lo hi s → wire_word g → g ≠ my_guid_ s → carried g m → ¬ negative_char (encode g m) →
  match m with Available _ _ => False | _ => True end →
  ∃ s', event own sys fresh s now false (encode g m) = Ret s' ∧ reads_as s g m s'.
Proof.
  intros Hi Hg Hne Hm Hneg Hk. apply receive_words; [done..| |].
  - intros Hp s' Ht. unfold reads_as. rewrite Ht. destruct m as [n o|names|n|]; [done|done|..]; exfalso;
      pose proof (wire_word_nul _ Hg); destruct Hg as (_ & Hgp & _).
    + destruct Hm as [_ Hn]. pose proof (wire_word_nul _ Hn). destruct Hn as (_ & Hnp & _).
      cbn [encode] in Hp. by rewrite printable_message in Hp.
    + cbn [encode] in Hp. by rewrite printable_app in Hp; [|done|apply printable_app].
  - intros s0 s1 args T0 Hi0 G0 Ha Hs s' Ht. unfold reads_as. rewrite Ht. revert Hs.
    unfold spec_words. rewrite str_chars, c_str_nul_free, G0, decide_False by (done || apply Hi0).
    destruct m as [n o|names|n|]; [done|..]; cbn [command].
    + rewrite decide_False, decide_True by done. intros [Hs _]%spec_search_answer; [|done]. simpl. by rewrite Hs, T0.
    + rewrite !decide_False, decide_True by done. unfold spec_remove. rewrite str_chars, T0.
      destruct Hm as [_ Hn]. cbn [encode command] in Ha. rewrite (message_words g DISCOVERY_REMOVE n) in Ha by
        (apply Hg || apply Hn || (by apply wire_word_nul) || done).
      injection Ha as <-. destruct Hn as (_ & _ & Hns). rewrite split_on_word by done. cbn [head default from_option id].
      rewrite str_chars. pose proof (remove_offers (topics_ s) g n g) as Hr.
      destruct (TopicStore.remove _ _ _) as [[b st] ns]. intros [= <-].
      rewrite topics_startQueryTimer. simpl in *. by rewrite Hr, decide_True.
    + rewrite !decide_False, decide_True by done. unfold spec_exit. rewrite str_chars, T0.
      pose proof (evict_offers (topics_ s) g g) as Hr. destruct (TopicStore.evict _ _) as [st ns]. intros [= <-].
      rewrite topics_startQueryTimer. simpl in *. by rewrite Hr, decide_True.
Qed.

(** A message of another node is read as it was meant: the receiver updates the sender's rows
    accordingly, no other rows, and stays in order. *)
Lemma receive_message s now g m :
  inv lo hi s → wire_word g → g ≠ my_guid_ s → carried g m → ¬ negative_char (encode g m) →
  ∃ s', event own sys fresh s now false (encode g m) = Ret s' ∧ inv lo hi s' ∧
    my_guid_ s' = my_guid_ s ∧ reaction s g s' ∧
    ∀ g', offers_by (topics_ s') g' =
          if decide (g' = g) then apply_msg own (offers_by (topics_ s) g) m else offers_by (topics_ s) g'.
Proof.
  intros Hi Hg Hne Hm Hneg. pose proof Hm as [Hl _].
  assert (∃ s', event own sys fresh s now false (encode g m) = Ret s' ∧ reads_as s g m s') as (s' & He & Hr).
  { destruct m; [by apply receive_available|by apply receive_other..]. }
  pose proof (event_inv _ _ _ _ _ Hi Hl He) as Hi'.
  pose proof (event_reaction _ _ _ _ _ Hi Hl He) as Hre. rewrite sender_encode in Hre by done.
  exists s'. split; [done|]. split; [done|]. split; [by eapply reaction_guid|]. split; [done|].
  intros g'. case_decide; [subst; exact Hr|]. eapply reaction_offers; [done|by left].
Qed.

(** ** What a directory sends *)

(** Operations as the program's clients and a datagram network perform them: topics whose
    descriptions travel, and datagrams sent whole or not at all. *)
Definition polite (s : t) (o : op) : Prop :=
  admissible s o ∧
  match o with
  | Add _ n ty a ins outs => describable n ty a ins outs
  | Sent _ _ len ec bytes => ec = true ∨ bytes = len
  | _ => True
  end.

Definition own_offers (s : t) : gmap string offer := offers_by (topics_ s) (my_guid_ s).

(** [s'] is [s] after sending [ms], which account for the change of the node's own rows. *)
Record emits (s s' : t) (ms : list msg) : Prop := {
  em_sent : sent_between s s' (encode (my_guid_ s) <$> ms);
  em_carried : Forall (carried (my_guid_ s)) ms;
  em_offered : Forall (λ m, match m with Available n o => own_offers s' !! n = Some o | _ => True end) ms;
  em_rows : ∀ own', foldl (apply_msg own') (visible own' (own_offers s)) ms = visible own' (own_offers s')
}.

(** The invariant with names that travel. *)
Record ready (s : t) : Prop := {
  ready_inv : inv lo hi s;
  ready_guid : wire_word (my_guid_ s);
  ready_offers : map_Forall describable_offer (own_offers s)
}.

Lemma emits_nothing s s' :
  sent_between s s' [] → own_offers s' = own_offers s → emits s s' [].
Proof. intros Hs Ho. split; [exact Hs|constructor|constructor|]. intros own'. by rewrite Ho. Qed.

Lemma ready_same s s' :
  ready s → inv lo hi s' → my_guid_ s' = my_guid_ s → own_offers s' = own_offers s → ready s'.
Proof. intros [Hi Hg Ho] Hi' G O. split; [done|by rewrite G|by rewrite O]. Qed.

Lemma own_offers_local s n x :
  inv lo hi s → TopicStore.local_topics_ (topics_ s) !! n = Some x →
  own_offers s !! n = Some (offer_of x) ∧ dt_name x = n ∧
  encode (my_guid_ s) (Available n (offer_of x)) = available (my_guid_ s) x ∧
  length (available (my_guid_ s) x) < EVENT_BUFFER_SIZE.
Proof.
  intros Hi Hx. destruct (inv_locals _ _ _ Hi n x Hx) as (Hf & _ & Hinfo).
  destruct (TopicStore.reach_wf _ _ (inv_store _ _ _ Hi)) as [Hwf Hg].
  pose proof Hx as Hv. rewrite (TopicStore.wf_local _ Hwf) in Hv.
  destruct (TopicStore.wf_keys _ Hwf _ _ _ Hv) as [Hn _]. unfold own_offers.
  rewrite (lookup_local_offers lo hi), Hx by done. split; [done|]. split; [done|].
  split; [|exact Hf]. simpl. by rewrite Hinfo.
Qed.

(** Announcing known topics, as answers to a search do. *)
Lemma emits_known s s' xs :
  ready s → topics_ s' = topics_ s → my_guid_ s' = my_guid_ s →
  Forall (λ x, x ∈ TopicStore.locals (topics_ s)) xs →
  sent_between s s' (available (my_guid_ s) <$> xs) → ∃ ms, emits s s' ms.
Proof.
  intros [Hi Hg Ho] T G Hx Hsent. exists ((λ x, Available (dt_name x) (offer_of x)) <$> xs).
  assert (Forall (λ x, own_offers s !! dt_name x = Some (offer_of x) ∧
            encode (my_guid_ s) (Available (dt_name x) (offer_of x)) = available (my_guid_ s) x ∧
            carried (my_guid_ s) (Available (dt_name x) (offer_of x))) xs) as Hk.
  { eapply Forall_impl; [exact Hx|]. intros x [n Hn]%elem_of_locals.
    destruct (own_offers_local s n x Hi Hn) as (H1 & H2 & H3 & H4). rewrite H2.
    split; [done|]. split; [done|]. split; [rewrite H3; lia|]. by apply Ho. }
  assert (own_offers s' = own_offers s) as Hs by (unfold own_offers; by rewrite T, G).
  split.
  - rewrite <- list_fmap_compose. erewrite list_fmap_ext; [exact Hsent|].
    intros i x Hix. rewrite Forall_forall in Hk. apply Hk. by eapply list_elem_of_lookup_2.
  - apply Forall_fmap. eapply Forall_impl; [exact Hk|]. by intros x (_ & _ & ?).
  - apply Forall_fmap. eapply Forall_impl; [exact Hk|]. intros x (? & _). simpl. by rewrite Hs.
  - intros own'. rewrite Hs, apply_all_known; [done|].
    apply Forall_fmap. eapply Forall_impl; [exact Hk|]. by intros x (? & _).
Qed.

(** The offers an operation makes. *)
Definition news (o : op) : list (string * offer) :=
  match o with Add _ n ty a ins outs => [(n, Offer ty a ins outs)] | _ => [] end.

(** What an operation of a ready directory comes to: it stays ready, what it sends accounts
    for its own rows, no other rows change, and its own rows grow by [new] at most. *)
Definition progresses (new : list (string * offer)) (s s' : t) : Prop :=
  (∃ ms, emits s s' ms) ∧ ready s' ∧ my_guid_ s' = my_guid_ s ∧
  (∀ g, offers_by (topics_ s') g = offers_by (topics_ s) g ∨ g = my_guid_ s) ∧
  (∀ n o, own_offers s' !! n = Some o → own_offers s !! n = Some o ∨ (n, o) ∈ new).

Lemma progress_quiet s s' :
  ready s → inv lo hi s' → my_guid_ s' = my_guid_ s → calls s' = calls s ∨ sent_between s s' [] →
  (∀ g, offers_by (topics_ s') g = offers_by (topics_ s) g) → progresses [] s s'.
Proof.
  intros Hr Hi' G Hs Ho. assert (own_offers s' = own_offers s) as O by (unfold own_offers; by rewrite G).
  split_and!; [|by eapply ready_same|done|intros g; by left|intros n o; rewrite O; by left].
  exists []. apply emits_nothing; [|done]. destruct Hs; [by apply sent_nothing|done].
Qed.

Lemma sends_through s st ns s' msgs :
  sends fresh (store_calls s st ns) s' msgs → sent_between s s' msgs.
Proof.
  intros (es & Hc & Hd)%sends_between. exists ((Handler <$> ns) ++ es). cbn in Hc.
  rewrite Hc, <- app_assoc. split; [done|].
  by rewrite datagrams_app, datagrams_handlers, Hd.
Qed.

Lemma add_emits s now n ty a ins outs s' :
  ready s → polite s (Add now n ty a ins outs) →
  step own sys fresh s (Add now n ty a ins outs) = Ret s' →
  progresses [(n, Offer ty a ins outs)] s s'.
Proof.
  intros Hr [(info & Hinfo & Hf1 & Hf2) Hd] Hs. pose proof Hr as [Hi Hg Ho]. cbn [step] in Hs.
  pose proof (add_own_ok sys fresh lo hi Hsys Hfresh s now n ty a ins outs info Hi Hinfo Hf1 Hf2) as Hadd.
  destruct (_ !! n) as [x|] eqn:El; [by rewrite Hadd in Hs|].
  destruct Hadd as (st & ns & s2 & Hst & Had & Hi' & _ & Hsend). rewrite Had in Hs. injection Hs as ->.
  pose proof (sends_topics _ _ _ _ Hsend) as T. pose proof (sends_guid _ _ _ _ Hsend) as G. cbn in T, G.
  pose proof (λ g, add_offers _ _ _ _ _ g Hst) as Hoff. rewrite <- T in Hoff. cbn [dt_guid dt_name] in Hoff.
  assert (own_offers s !! n = None) as Hnone.
  { unfold own_offers. by rewrite (lookup_local_offers lo hi), El. }
  assert (own_offers s' = <[n := Offer ty a ins outs]> (own_offers s)) as Hown.
  { unfold own_offers at 1. rewrite G, Hoff, decide_True by done. unfold put_offer.
    by change (offers_by (topics_ s) (my_guid_ s)) with (own_offers s); rewrite Hnone. }
  assert (encode (my_guid_ s) (Available n (Offer ty a ins outs)) = message (my_guid_ s) DISCOVERY_AVAILABLE info)
    as Henc by (simpl; by rewrite Hinfo).
  split_and!; [exists [Available n (Offer ty a ins outs)]; split| |done|..].
  - cbn [fmap list_fmap]. rewrite Henc. by eapply sends_through.
  - apply Forall_singleton. split; [rewrite Henc; unfold fits in Hf1; lia|exact Hd].
  - apply Forall_singleton. rewrite Hown. apply lookup_insert_eq.
  - intros own'. cbn [foldl]. by rewrite apply_new, Hown.
  - split; [done|by rewrite G|]. rewrite Hown. by apply map_Forall_insert_2.
  - intros g. destruct (decide (g = my_guid_ s)) as [|Hne]; [by right|left]. by rewrite Hoff, decide_False.
  - intros m o. rewrite Hown, lookup_insert_Some. intros [[<- <-]|[_ ?]]; [right; by left|by left].
Qed.

Lemma remove_emits s n s' :
  ready s → step own sys fresh s (Remove n) = Ret s' → progresses [] s s'.
Proof.
  intros Hr Hs. pose proof Hr as [Hi Hg Ho]. cbn [step] in Hs.
  destruct (remove_own_ok sys fresh lo hi Hsys Hfresh s n Hi) as (s2 & Hrm & Hi' & _ & Hsend).
  rewrite Hrm in Hs. injection Hs as ->.
  destruct (TopicStore.reach_wf _ _ (inv_store _ _ _ Hi)) as [Hwf Hm].
  pose proof (TopicStore.removed_flag (topics_ s) (my_guid_ s) n Hwf) as Hflag.
  pose proof (remove_offers (topics_ s) (my_guid_ s) n) as Hoff.
  destruct (TopicStore.remove _ _ _) as [[mine st] ns]. cbn [fst snd] in *.
  pose proof (sends_topics _ _ _ _ Hsend) as T. pose proof (sends_guid _ _ _ _ Hsend) as G. cbn in T, G.
  rewrite <- T in Hoff.
  assert (own_offers s' = delete n (own_offers s)) as Hown.
  { unfold own_offers at 1. by rewrite G, Hoff, decide_True. }
  rewrite Hm, bool_decide_eq_true_2, TopicStore.table_lookup in Hflag by done. cbn [andb] in Hflag.
  assert (own_offers s !! n = offer_of <$> TopicStore.view (topics_ s) n !! my_guid_ s) as Hl
    by apply lookup_offers.
  split_and!; [| |done|..].
  - destruct (TopicStore.view (topics_ s) n !! my_guid_ s) as [x|]; simpl in Hl.
    + rewrite bool_decide_eq_true_2 in Hflag by eauto. subst mine. exists [Withdraw n].
      assert (describable_offer n (offer_of x)) as Hd by (by apply Ho).
      split; [by eapply sends_through| | |].
      * apply Forall_singleton. split; [|apply Hd].
        assert (∃ y, TopicStore.local_topics_ (topics_ s) !! n = Some y) as [y Hy].
        { pose proof (lookup_local_offers lo hi s n Hi) as Hll. change (offers_by _ _) with (own_offers s) in Hll.
          rewrite Hl in Hll. destruct (TopicStore.local_topics_ _ !! n); [by eexists|done]. }
        apply (inv_locals _ _ _ Hi) in Hy as (_ & Hf & _). unfold fits in Hf. cbn [encode]. lia.
      * by apply Forall_singleton.
      * intros own'. cbn [foldl apply_msg]. by rewrite Hown, visible_delete.
    + rewrite bool_decide_eq_false_2 in Hflag by (by intros []). subst mine. exists [].
      apply emits_nothing; [by eapply sends_through|]. rewrite Hown. by apply delete_id.
  - split; [done|by rewrite G|]. rewrite Hown. by apply map_Forall_delete.
  - intros g. destruct (decide (g = my_guid_ s)) as [|Hne]; [by right|left]. by rewrite Hoff, decide_False.
  - intros m o. rewrite Hown, lookup_delete_Some. intros [_ ?]. by left.
Qed.

Lemma timer_emits s ec s' :
  ready s → step own sys fresh s (Timer ec) = Ret s' → progresses [] s s'.
Proof.
  intros Hr. pose proof Hr as [Hi _ _]. cbn [step]. destruct ec.
  { intros [= <-]. apply progress_quiet; [done..|by left|done]. }
  destruct (decide (TopicStore.getMissing (topics_ s) = ∅)) as [He|Hne].
  { unfold queryMissingTopics. rewrite decide_True by done. intros [= <-].
    apply progress_quiet; [done|by apply inv_set_query|done|by left|done]. }
  destruct (query_round sys fresh lo hi Hsys Hfresh s Hi Hne)
    as (s2 & -> & Hi' & T & G & _ & _ & es & Hc & _ & Hd). intros [= <-].
  assert (own_offers s2 = own_offers s) as O by (unfold own_offers; by rewrite T, G).
  split_and!; [|by eapply ready_same|done|intros g; left; by rewrite T|intros n o; rewrite O; by left].
  destruct (batches_spec (start_len (my_guid_ s)) (set_iter (TopicStore.getMissing (topics_ s))))
    as [_ Hall].
  { eapply Forall_impl; [by apply (missing_fit lo hi)|]. by intros n [_ ?]. }
  set (bs := batches _ _) in *. exists (Search <$> bs). split.
  - exists ([TimerExpires (queryInterval_ s); TimerWait] ++ es). split; [exact Hc|].
    rewrite datagrams_app, Hd, <- list_fmap_compose. done.
  - apply Forall_fmap. eapply Forall_impl; [exact Hall|]. intros b (_ & _ & Hl). split; [|done].
    cbn [encode]. rewrite length_search_msg by apply Hi. lia.
  - apply Forall_fmap. by apply Forall_true.
  - intros own'. rewrite O, apply_all_known; [done|]. apply Forall_fmap. by apply Forall_true.
Qed.

Lemma event_emits s now ec l s' :
  ready s → length l <= EVENT_BUFFER_SIZE → event own sys fresh s now ec l = Ret s' →
  (∃ ms, emits s s' ms) ∧ ready s' ∧ my_guid_ s' = my_guid_ s ∧ reaction s (sender l) s'.
Proof.
  intros Hr Hl He. pose proof Hr as [Hi _ _].
  pose proof (event_inv _ _ _ _ _ Hi Hl He) as Hi'.
  pose proof (event_reaction _ _ _ _ _ Hi Hl He) as Hre.
  pose proof (reaction_guid _ _ _ Hi Hi' Hre) as G.
  assert (own_offers s' = own_offers s) as O.
  { unfold own_offers. rewrite G. eapply reaction_offers; [done|by right]. }
  split; [|split; [by eapply ready_same|done]].
  destruct Hre as [xs T Hx Hsent|x ns _ _ _ Hsent|n _ _ Hsent|_ _ Hsent]; [by eapply emits_known|..];
    exists []; by apply emits_nothing.
Qed.

Lemma sent_emits s b pos len ec bytes s' :
  ready s → polite s (Sent b pos len ec bytes) →
  step own sys fresh s (Sent b pos len ec bytes) = Ret s' → progresses [] s s'.
Proof.
  intros Hr [[Hin _] Hw] Hs. pose proof Hr as [Hi _ _].
  destruct (sent_ok sys fresh lo hi Hsys Hfresh s b pos len ec bytes Hi Hin) as (s2 & Hs2 & Hi' & _).
  cbn [step] in Hs. rewrite Hs2 in Hs. injection Hs as ->.
  assert (topics_ s' = topics_ s ∧ my_guid_ s' = my_guid_ s ∧ calls s' = calls s) as (T & G & C).
  { revert Hs2. unfold sent. destruct ec; [by intros [= <-]|].
    destruct Hw as [ | -> ]; [done|]. rewrite decide_False by lia. unfold pool_free.
    intros ([p k] & _ & [= <-])%bind_Ret_inv. done. }
  apply progress_quiet; [done..|by left|intros g; by rewrite T].
Qed.

(** Every operation but a received datagram changes at most the node's own rows, and what it
    sends accounts for that change. *)
Lemma step_progresses s o s' :
  ready s → polite s o → step own sys fresh s o = Ret s' →
  match o with Event _ _ _ => True | _ => progresses (news o) s s' end.
Proof.
  intros Hr Hp Hs. pose proof Hr as [Hi _ _].
  assert (inv lo hi s') as Hi'.
  { destruct (step_ok sys fresh lo hi Hsys Hfresh own s o Hi (proj1 Hp)) as [(s2 & H2 & H3 & _)|[(n & _ & H2)|(now & l & _ & _ & H2)]];
      rewrite Hs in H2; by simplify_eq. }
  destruct o; try done.
  - by eapply add_emits.
  - by eapply remove_emits.
  - injection Hs as <-.
    match goal with |- progresses _ s (startQueryTimer ?x) => set (s1 := x) in * end.
    apply progress_quiet; [done|done|by rewrite guid_startQueryTimer| |].
    + right. destruct (calls_startQueryTimer s1) as (es & Hc & Hd).
      exists ([Post topic_name h] ++ es). rewrite Hc. cbn. rewrite <- app_assoc. by split.
    + intros g. by rewrite topics_startQueryTimer.
  - injection Hs as <-. unfold unobserve in *.
    match goal with |- progresses _ s (startQueryTimer ?x) => set (s1 := x) in * end.
    apply progress_quiet; [done|done|by rewrite guid_startQueryTimer| |].
    + right. destruct (calls_startQueryTimer s1) as (es & Hc & Hd). by exists es.
    + intros g. by rewrite topics_startQueryTimer.
  - injection Hs as <-. apply progress_quiet; [done..| |done].
    right. exists (Handler <$> TopicStore.callImmediate (topics_ s) topic_name h).
    split; [done|apply datagrams_handlers].
  - by eapply timer_emits.
  - by eapply sent_emits.
Qed.

End node.
End Offers.
