(* ===== verification/Replication.v ===== *)
(** * Directories on a network (src/a17/dispatch/directory.cpp)

    Directories composed with the network between them.  On a link that keeps the order
    and loses nothing, a receiver's table is a delayed copy of the sender's own topics;
    on a network that loses, repeats, delays and reorders datagrams as it likes, every
    topic anybody has on file was added by the node it is filed under.  Both are
    invariants by rule induction, on the messages of [Offers]. *)

From S2P Require Import Prelude BufferPool Address Topics TopicStore Wire Directory Discovery Protocol Offers.

Module Replication.
Import Directory Discovery Offers.

Lemma init_topics `{Inet} own name uuid base garbage port s port' :
  init own name uuid base garbage true true true port = Ret (s, port') →
  topics_ s = TopicStore.init (my_guid_ s).
Proof. unfold init. cbn [negb]. by destruct port; intros [= <- _]. Qed.

(** A datagram as the receive handler gets it, with the time of its arrival. *)
Fixpoint deliver_all `{Inet} (own : OwnAddress.t) (sys : gset Z → Z) (fresh : list ascii)
    (s : t) (l : list (Z * list ascii)) : outcome t :=
  match l with
  | [] => Ret s
  | (now, d) :: l' => s ← event own sys fresh s now false d; deliver_all own sys fresh s l'
  end.

(** The farewell of the destructor. *)
Definition farewell (s : t) : list (list ascii) :=
  omap (λ e, match e with SendNow d => Some d | _ => None end) (drop (length (calls s)) (calls (destroy s))).

Lemma farewell_spec s : farewell s = [encode (my_guid_ s) Exit].
Proof. unfold farewell. cbn [destroy calls emit]. by rewrite drop_app_length. Qed.

Lemma sent_between_inj s s' m1 m2 : sent_between s s' m1 → sent_between s s' m2 → m1 = m2.
Proof. intros (e1 & H1 & <-) (e2 & H2 & <-). rewrite H1 in H2. by apply app_inv_head in H2 as ->. Qed.

Lemma length_exit g : length (encode g Exit) = start_len g.
Proof. unfold encode, start_len. rewrite !length_app, !length_chars. simpl. lia. Qed.

(** ** One sender, one receiver, an orderly link *)
Section pair.
Context `{Inet} (own_a own_b : OwnAddress.t) (sys_a sys_b : gset Z → Z) (fresh : list ascii).

(** The receiver, the sender, whether the sender still exists, and what it sent that has
    not arrived. *)
Record pair : Type := Pair {
  node_a : t;
  node_b : t;
  up_b : bool;
  wire : list (list ascii)
}.

(** What the receiver does on its own account; it hears other nodes too. *)
Definition aside (g : string) (o : op) : Prop :=
  match o with Event _ _ l => sender l ≠ g | _ => True end.

Inductive pair_step : pair → pair → Prop :=
  | pair_sender a b b' w o ds :
      polite b o → step own_b sys_b fresh b o = Ret b' → sent_between b b' ds →
      pair_step (Pair a b true w) (Pair a b' true (w ++ ds))
  | pair_exit a b w :
      pair_step (Pair a b true w) (Pair a (destroy b) false (w ++ farewell b))
  | pair_receiver a a' b u w o :
      polite a o → aside (my_guid_ b) o → step own_a sys_a fresh a o = Ret a' →
      pair_step (Pair a b u w) (Pair a' b u w)
  | pair_deliver a a' b u w now d :
      event own_a sys_a fresh a now false d = Ret a' →
      pair_step (Pair a b u (d :: w)) (Pair a' b u w).

(** What the receiver should have on file for the sender. *)
Definition wanted (p : pair) : gmap string offer :=
  if up_b p then visible own_a (own_offers (node_b p)) else ∅.

Context (lo_a hi_a lo_b hi_b : Z).
Context (HsA : malloc_fresh sys_a lo_a hi_a) (HsB : malloc_fresh sys_b lo_b hi_b).
Context (Hfr : length fresh = EVENT_BUFFER_SIZE).

(** A state of the pair: the wire holds messages of the sender which turn what the receiver
    has into what it should have. *)
Record in_step (p : pair) : Prop := {
  is_a : ready lo_a hi_a (node_a p);
  is_b : up_b p = true → ready lo_b hi_b (node_b p);
  is_guid : wire_word (my_guid_ (node_b p));
  is_distinct : my_guid_ (node_b p) ≠ my_guid_ (node_a p);
  is_short : start_len (my_guid_ (node_b p)) <= EVENT_BUFFER_SIZE;
  is_wire : ∃ ms, wire p = encode (my_guid_ (node_b p)) <$> ms ∧
    Forall (carried (my_guid_ (node_b p))) ms ∧
    foldl (apply_msg own_a) (offers_by (topics_ (node_a p)) (my_guid_ (node_b p))) ms = wanted p
}.

Lemma sender_in_step a b b' w o ds :
  in_step (Pair a b true w) → polite b o → step own_b sys_b fresh b o = Ret b' →
  sent_between b b' ds → in_step (Pair a b' true (w ++ ds)).
Proof.
  intros [Ha Hb Hg Hd Hl (ms & Hw & Hc & Hf)] Hp Hs Hds. simpl in *. specialize (Hb eq_refl).
  assert ((∃ ms, emits b b' ms) ∧ ready lo_b hi_b b' ∧ my_guid_ b' = my_guid_ b) as ([ms' Hem] & Hb' & G).
  { pose proof (step_progresses own_b sys_b fresh lo_b hi_b HsB Hfr b o b' Hb Hp Hs) as Hpr.
    destruct o; try (destruct Hpr as (? & ? & ? & _ & _); done).
    destruct (event_emits own_b sys_b fresh lo_b hi_b HsB Hfr b now ec datagram b' Hb (proj1 Hp) Hs)
      as (? & ? & ? & _). done. }
  assert (ds = encode (my_guid_ b) <$> ms') as -> by (eapply sent_between_inj; [exact Hds|apply Hem]).
  split; simpl; rewrite ?G; try done.
  exists (ms ++ ms'). rewrite Hw, fmap_app. split; [done|]. split; [apply Forall_app; split; [done|apply Hem]|].
  rewrite foldl_app, Hf. apply (em_rows _ _ _ Hem).
Qed.

Lemma exit_in_step a b w :
  in_step (Pair a b true w) → in_step (Pair a (destroy b) false (w ++ farewell b)).
Proof.
  intros [Ha Hb Hg Hd Hl (ms & Hw & Hc & Hf)]. simpl in *. split; try done. simpl.
  exists (ms ++ [Exit]). rewrite Hw, fmap_app, farewell_spec. split; [done|]. split.
  - apply Forall_app. split; [done|]. apply Forall_singleton. split; [|done]. by rewrite length_exit.
  - by rewrite foldl_app.
Qed.

Lemma receiver_in_step a a' b u w o :
  in_step (Pair a b u w) → polite a o → aside (my_guid_ b) o → step own_a sys_a fresh a o = Ret a' →
  in_step (Pair a' b u w).
Proof.
  intros [Ha Hb Hg Hd Hl (ms & Hw & Hc & Hf)] Hp Has Hs. simpl in *.
  assert (ready lo_a hi_a a' ∧ my_guid_ a' = my_guid_ a ∧
          offers_by (topics_ a') (my_guid_ b) = offers_by (topics_ a) (my_guid_ b)) as (Ha' & G & Ho).
  { pose proof (step_progresses own_a sys_a fresh lo_a hi_a HsA Hfr a o a' Ha Hp Hs) as Hpr.
    destruct o; try (destruct Hpr as (_ & ? & ? & Hrow & _); destruct (Hrow (my_guid_ b)); done).
    destruct (event_emits own_a sys_a fresh lo_a hi_a HsA Hfr a now ec datagram a' Ha (proj1 Hp) Hs)
      as (_ & ? & ? & Hre). split; [done|]. split; [done|]. eapply reaction_offers; [done|].
    left. intros Heq. by apply Has. }
  split; simpl; rewrite ?G; try done. exists ms. by rewrite Ho.
Qed.

(** The next datagram can be delivered, and is read as its message. *)
Lemma deliver_in_step a b u d w now :
  in_step (Pair a b u (d :: w)) → ¬ negative_char d →
  ∃ a', event own_a sys_a fresh a now false d = Ret a' ∧ in_step (Pair a' b u w).
Proof.
  intros [Ha Hb Hg Hd Hl (ms & Hw & Hc & Hf)] Hneg. simpl in *.
  destruct ms as [|m ms]; [done|]. injection Hw as -> ->. apply Forall_cons in Hc as [Hm Hc].
  pose proof (ready_inv _ _ _ Ha) as Hia.
  destruct (receive_message own_a sys_a fresh lo_a hi_a HsA Hfr a now (my_guid_ b) m Hia Hg Hd Hm Hneg)
    as (a' & He & Hi' & G & Hre & Ho). exists a'. split; [done|].
  assert (own_offers a' = own_offers a) as Hown.
  { unfold own_offers. rewrite G, Ho, decide_False; [done|]. congruence. }
  split; simpl; rewrite ?G; try done.
  - by eapply ready_same.
  - exists ms. split; [done|]. split; [done|]. rewrite Ho, decide_True by done. exact Hf.
Qed.

Lemma pair_step_in_step p p' : in_step p → pair_step p p' → in_step p'.
Proof.
  intros Hi Hs. destruct Hs as [a b b' w o ds Hp Hs Hd|a b w|a a' b u w o Hp Has Hs|a a' b u w now d He].
  - by eapply sender_in_step.
  - by apply exit_in_step.
  - by eapply receiver_in_step.
  - destruct (deliver_in_step _ _ _ _ _ now Hi) as (a2 & He2 & Hi2); [by eapply event_readable|]. rewrite He in He2. by injection He2 as ->.
Qed.

Lemma deliver_all_in_step l : ∀ a b u,
  in_step (Pair a b u l.*2) → Forall (λ d, ¬ negative_char d) l.*2 →
  ∃ a', deliver_all own_a sys_a fresh a l = Ret a' ∧ in_step (Pair a' b u []).
Proof.
  induction l as [|[now d] l IH]; intros a b u Hi; [by exists a|]. intros [Hd Hneg]%Forall_cons.
  destruct (deliver_in_step _ _ _ _ _ now Hi Hd) as (a1 & He & Hi1).
  destruct (IH _ _ _ Hi1 Hneg) as (a2 & Hd2 & Hi2). exists a2. cbn [deliver_all]. cbn [snd] in He. by rewrite He, bind_Ret.
Qed.
End pair.

(** ** Any number of nodes, a network that promises nothing *)

(** The environment of each node. *)
Record host : Type := Host {
  h_own : OwnAddress.t;
  h_sys : gset Z → Z;
  h_lo : Z;
  h_hi : Z
}.

Section net.
Context `{Inet} (hosts : nat → host) (fresh : list ascii).

(** The nodes, every datagram ever sent, and every topic ever added with the guid of the node
    that added it. *)
Record net : Type := Net {
  nodes : gmap nat t;
  soup : list (list ascii);
  ledger : list (string * string * offer)
}.

(** A datagram that arrives is one that was sent. *)
Definition heard (S : list (list ascii)) (o : op) : Prop :=
  match o with Event _ _ l => l ∈ S | _ => True end.

Definition added (s : t) (o : op) : list (string * string * offer) :=
  (λ e, (my_guid_ s, e.1, e.2)) <$> news o.

Inductive net_step : net → net → Prop :=
  | net_join i s N S L name uuid base garbage port port' :
      N !! i = None →
      init (h_own (hosts i)) name uuid base garbage true true true port = Ret (s, port') →
      ready (h_lo (hosts i)) (h_hi (hosts i)) s →
      start_len (my_guid_ s) <= EVENT_BUFFER_SIZE →
      net_step (Net N S L) (Net (<[i := s]> N) S L)
  | net_op i s s' o ds N S L :
      N !! i = Some s → polite s o → heard S o →
      step (h_own (hosts i)) (h_sys (hosts i)) fresh s o = Ret s' → sent_between s s' ds →
      net_step (Net N S L) (Net (<[i := s']> N) (S ++ ds) (L ++ added s o))
  | net_exit i s N S L :
      N !! i = Some s →
      net_step (Net N S L) (Net (delete i N) (S ++ farewell s) L).

Inductive net_reach : net → Prop :=
  | net_start : net_reach (Net ∅ [] [])
  | net_next w w' : net_reach w → net_step w w' → net_reach w'.

Definition malloc_ok : Prop :=
  ∀ i, malloc_fresh (h_sys (hosts i)) (h_lo (hosts i)) (h_hi (hosts i)).

Context (Hmalloc : malloc_ok) (Hfr : length fresh = EVENT_BUFFER_SIZE).

(** What a node has on file, and what a datagram offers, is in the ledger. *)
Definition on_record (L : list (string * string * offer)) (s : t) : Prop :=
  ∀ g n o, offers_by (topics_ s) g !! n = Some o → (g, n, o) ∈ L.

Definition genuine (L : list (string * string * offer)) (d : list ascii) : Prop :=
  ∃ g m, d = encode g m ∧ wire_word g ∧ carried g m ∧
    match m with Available n o => (g, n, o) ∈ L | _ => True end.

Record net_ok (w : net) : Prop := {
  net_nodes : ∀ i s, nodes w !! i = Some s →
    ready (h_lo (hosts i)) (h_hi (hosts i)) s ∧ on_record (ledger w) s ∧
    start_len (my_guid_ s) <= EVENT_BUFFER_SIZE;
  net_soup : ∀ d, d ∈ soup w → genuine (ledger w) d
}.

Lemma on_record_mono L L' s : on_record L s → on_record (L ++ L') s.
Proof. intros Hr g n o Hl. apply elem_of_app. left. by apply Hr. Qed.

Lemma genuine_mono L L' d : genuine L d → genuine (L ++ L') d.
Proof.
  intros (g & m & -> & Hg & Hc & Hm). exists g, m. split_and!; try done. destruct m; [|done..].
  apply elem_of_app. by left.
Qed.

Lemma apply_msg_lookup own D m n o :
  apply_msg own D m !! n = Some o → D !! n = Some o ∨ m = Available n o.
Proof.
  destruct m as [n' o'|ns|n'|]; simpl; [|by left| |by rewrite lookup_empty].
  - destruct (reachable_at own o'); [|by left]. unfold put_offer.
    destruct (D !! n'); [case_decide; [by left|]|];
      (rewrite lookup_insert_Some; intros [[<- <-]|[_ ?]]; [by right|by left]).
  - rewrite lookup_delete_Some. intros [_ ?]. by left.
Qed.

(** Receiving anything genuine keeps the files in the ledger. *)
Lemma hear_on_record i s now ec d s' L :
  ready (h_lo (hosts i)) (h_hi (hosts i)) s → on_record L s → genuine L d →
  event (h_own (hosts i)) (h_sys (hosts i)) fresh s now ec d = Ret s' → on_record L s'.
Proof.
  intros Hr Hrec (g & m & -> & Hg & Hc & Hm) He. pose proof (ready_inv _ _ _ Hr) as Hi.
  destruct ec; [injection He as <-; exact Hrec|].
  pose proof (Hmalloc i) as Hsys. destruct (decide (g = my_guid_ s)) as [->|Hne].
  - intros g' n o. erewrite (reaction_offers _ (my_guid_ s) s' g').
    + apply Hrec.
    + rewrite <- (sender_encode (my_guid_ s) m Hg Hc).
      eapply event_reaction; [exact Hsys|done|exact Hi|apply Hc|exact He].
    + destruct (decide (g' = my_guid_ s)); [by right|by left].
  - destruct (receive_message (h_own (hosts i)) _ fresh _ _ Hsys Hfr s now g m Hi Hg Hne Hc (event_readable _ _ _ _ _ _ _ He))
      as (s2 & He2 & _ & _ & _ & Ho).
    rewrite He in He2. injection He2 as <-. intros g' n o. rewrite Ho. case_decide as Hg'; [|apply Hrec].
    subst g'. intros [Hl| ->]%apply_msg_lookup; [by apply Hrec|done].
Qed.

Lemma emits_genuine s s' ms ds L :
  wire_word (my_guid_ s) → emits s s' ms → sent_between s s' ds → on_record L s' →
  my_guid_ s' = my_guid_ s → ∀ d, d ∈ ds → genuine L d.
Proof.
  intros Hg Hem Hs Hrec G d. assert (ds = encode (my_guid_ s) <$> ms) as ->.
  { eapply sent_between_inj; [exact Hs|apply Hem]. }
  intros (m & -> & Hin)%list_elem_of_fmap. exists (my_guid_ s), m. split; [done|]. split; [done|].
  pose proof (em_carried _ _ _ Hem) as Hc. pose proof (em_offered _ _ _ Hem) as Ho.
  rewrite Forall_forall in Hc, Ho. split; [by apply Hc|].
  specialize (Ho m Hin). destruct m; [|done..]. apply Hrec. by rewrite <- G.
Qed.

Lemma op_on_record i s o s' L S :
  ready (h_lo (hosts i)) (h_hi (hosts i)) s → on_record L s →
  (∀ d, d ∈ S → genuine L d) → polite s o → heard S o →
  step (h_own (hosts i)) (h_sys (hosts i)) fresh s o = Ret s' →
  (∃ ms, emits s s' ms) ∧ ready (h_lo (hosts i)) (h_hi (hosts i)) s' ∧ my_guid_ s' = my_guid_ s ∧
  on_record (L ++ added s o) s'.
Proof.
  intros Hr Hrec HS Hp Hh Hs. pose proof (Hmalloc i) as Hsys.
  pose proof (step_progresses _ _ fresh _ _ Hsys Hfr s o s' Hr Hp Hs) as Hpr.
  assert (progresses (h_lo (hosts i)) (h_hi (hosts i)) (news o) s s' → (∃ ms, emits s s' ms) ∧
    ready (h_lo (hosts i)) (h_hi (hosts i)) s' ∧ my_guid_ s' = my_guid_ s ∧ on_record (L ++ added s o) s') as Hok.
  { intros (Hem & Hr' & G & Hrow & Hnew). split_and!; [done..|]. intros g n x Hx. apply elem_of_app.
    destruct (Hrow g) as [Hg| ->]; [left; apply Hrec; by rewrite <- Hg|].
    destruct (Hnew n x) as [Ho|Ho]; [unfold own_offers; by rewrite G|left; by apply Hrec|right].
    apply list_elem_of_fmap. by exists (n, x). }
  destruct o; try (by apply Hok). cbn [step heard added news fmap list_fmap] in *. rewrite app_nil_r.
  destruct (event_emits _ _ fresh _ _ Hsys Hfr s now ec datagram s' Hr (proj1 Hp) Hs) as (? & ? & ? & _).
  split_and!; [done..|]. eapply hear_on_record; [exact Hr|exact Hrec|by apply HS|exact Hs].
Qed.

Lemma net_step_ok w w' : net_ok w → net_step w w' → net_ok w'.
Proof.
  intros [HN HS] Hst. destruct Hst as [i s N S L name uuid base garbage port port' Hi Hinit Hr Hlen
                                      |i s s' o ds N S L Hi Hp Hh Hs Hd|i s N S L Hi]; simpl in *.
  - split; [|done]. simpl. intros j x [[<- <-]|[_ Hj]]%lookup_insert_Some; [|by apply HN].
    split; [done|]. split; [|done]. intros g n o.
    by rewrite (init_topics _ _ _ _ _ _ _ _ Hinit), offers_init, lookup_empty.
  - destruct (HN i s Hi) as (Hr & Hrec & Hlen).
    destruct (op_on_record i s o s' L S Hr Hrec HS Hp Hh Hs) as ([ms Hem] & Hr' & G & Hrec').
    split; simpl.
    + intros j x [[<- <-]|[_ Hj]]%lookup_insert_Some; [by rewrite G|].
      destruct (HN j x Hj) as (? & ? & ?). split_and!; try done. by apply on_record_mono.
    + intros d [Hin|Hin]%elem_of_app; [by apply genuine_mono, HS|].
      eapply emits_genuine; [by apply Hr|done..].
  - destruct (HN i s Hi) as (Hr & _ & Hlen). split; simpl.
    + intros j x [_ Hj]%lookup_delete_Some. by apply HN.
    + intros d [Hin|Hin]%elem_of_app; [by apply HS|]. rewrite farewell_spec in Hin.
      apply list_elem_of_singleton in Hin as ->. exists (my_guid_ s), Exit. split; [done|].
      split; [apply Hr|]. split; [|done]. split; [by rewrite length_exit|done].
Qed.

Lemma net_reach_ok w : net_reach w → net_ok w.
Proof.
  induction 1 as [|w w' _ IH Hs]; [|by eapply net_step_ok]. split; simpl.
  - intros i s. by rewrite lookup_empty.
  - intros d ?%not_elem_of_nil. done.
Qed.
End net.

(** ** Properties *)

(** C2. A directory's table is a delayed copy: over a link that keeps the order of datagrams and
    loses none, whatever the two nodes do and hear from others meanwhile, delivering what
    is in flight (and is not undefined behaviour of the receiver, see [negative_char]: only a
    search for a name with a byte from 128 to 254 can be) leaves the receiver with exactly the sender's current topics (those with
    an address on its network) on file under the sender's guid, with their types and
    addresses, and with none once the sender is gone. *)
Theorem replication_converges `{Inet} own_a own_b sys_a sys_b fresh lo_a hi_a lo_b hi_b a b p l :
  malloc_fresh sys_a lo_a hi_a → malloc_fresh sys_b lo_b hi_b → length fresh = EVENT_BUFFER_SIZE →
  ready lo_a hi_a a → ready lo_b hi_b b → my_guid_ b ≠ my_guid_ a →
  start_len (my_guid_ b) <= EVENT_BUFFER_SIZE →
  offers_by (topics_ a) (my_guid_ b) = ∅ → own_offers b = ∅ →
  rtc (pair_step own_a own_b sys_a sys_b fresh) (Pair a b true []) p →
  l.*2 = wire p → Forall (λ d, ¬ negative_char d) (wire p) →
  ∃ a', deliver_all own_a sys_a fresh (node_a p) l = Ret a' ∧
    offers_by (topics_ a') (my_guid_ (node_b p)) =
      if up_b p then visible own_a (own_offers (node_b p)) else ∅.
Proof.
  intros HsA HsB Hfr Ha Hb Hne Hlen Hoff Hown Hrtc Hl Hneg.
  assert (in_step own_a lo_a hi_a lo_b hi_b (Pair a b true [])) as Hi0.
  { split; simpl; try done; [apply Hb|]. exists []. split; [done|]. split; [constructor|].
    unfold wanted. simpl. by rewrite Hoff, Hown. }
  assert (in_step own_a lo_a hi_a lo_b hi_b p) as Hi.
  { clear -HsA HsB Hfr Hi0 Hrtc. induction Hrtc as [|p p' p'' Hs _ IH]; [done|].
    apply IH. eapply pair_step_in_step; [exact HsA|exact HsB|exact Hfr|exact Hi0|exact Hs]. }
  destruct p as [pa pb u w]. simpl in *. rewrite <- Hl in Hi, Hneg.
  destruct (deliver_all_in_step own_a sys_a fresh lo_a hi_a lo_b hi_b HsA Hfr l pa pb u Hi Hneg) as (a' & Hd & Hi').
  exists a'. split; [done|]. destruct Hi' as [_ _ _ _ _ (ms & Hw & _ & Hf)]. simpl in *.
  symmetry in Hw. apply fmap_nil_inv in Hw as ->. exact Hf.
Qed.

(** C4. No forged topics: on a network that loses, repeats, delays and reorders datagrams as it
    likes, and with nodes joining and leaving, every topic a node has on file was added by
    the node it is filed under, under that name and with that type, address and message
    types; and every datagram ever sent is handled
    by every node, whenever it arrives, except that a datagram with a negative character is
    undefined behaviour of the node that gets it. *)
Theorem no_forged_topics `{Inet} hosts fresh w i s :
  malloc_ok hosts → length fresh = EVENT_BUFFER_SIZE →
  net_reach hosts fresh w → nodes w !! i = Some s →
  (∀ g n o, offers_by (topics_ s) g !! n = Some o → (g, n, o) ∈ ledger w) ∧
  (∀ now d, d ∈ soup w →
     let r := event (h_own (hosts i)) (h_sys (hosts i)) fresh s now false d in
     (¬ negative_char d → ∃ s', r = Ret s') ∧ (negative_char d → r = Undef)).
Proof.
  intros Hm Hfr Hr Hs. destruct (net_reach_ok hosts fresh Hm Hfr w Hr) as [HN HS].
  destruct (HN i s Hs) as (Hrd & Hrec & _). split; [exact Hrec|].
  intros now d (g & m & -> & Hg & [Hl _] & _)%HS. cbv zeta. split; [|by apply event_negative].
  intros Hneg.
  destruct (event_ok (h_sys (hosts i)) fresh _ _ (Hm i) Hfr (h_own (hosts i)) s now false
              (encode g m) (ready_inv _ _ _ Hrd) Hl) as (s' & He & _);
    [right; by rewrite printable_readable|]. by exists s'.
Qed.

(** ** Witnesses *)
Import Protocol.
#[local] Existing Instance quad_inet.

Definition demo_offer : offer := Offer 1 "tcp://127.0.0.1:5000" ∅ {["imu"]}.
Definition demo_advert : list ascii := message "b_127.0.0.1_2" DISCOVERY_AVAILABLE info_t.
Definition demo_host : host := Host demo_own demo_malloc demo_base (pool_end demo_base).

Lemma demo_node_topics name uuid :
  topics_ (demo_node name uuid) = TopicStore.init (my_guid_ (demo_node name uuid)).
Proof. done. Qed.

Lemma demo_node_ready name uuid :
  inv demo_base (pool_end demo_base) (demo_node name uuid) → wire_word (my_guid_ (demo_node name uuid)) →
  ready demo_base (pool_end demo_base) (demo_node name uuid).
Proof.
  intros Hi Hg. split; [done|done|]. unfold own_offers. rewrite demo_node_topics, offers_init.
  apply map_Forall_empty.
Qed.

Lemma node_a_ready : ready demo_base (pool_end demo_base) node_a.
Proof. apply demo_node_ready; [apply node_a_inv|]. split_and!; [done|done|decide_now]. Qed.

Lemma node_b_ready : ready demo_base (pool_end demo_base) node_b.
Proof. apply demo_node_ready; [apply node_b_inv|]. split_and!; [done|done|decide_now]. Qed.

Lemma add_t_polite : polite node_b add_t.
Proof. split; [by apply add_t_admissible|apply demo_describable]. Qed.

Lemma add_t_step : step demo_own demo_malloc demo_fresh node_b add_t = Ret provider_b.
Proof. vm_compute. reflexivity. Qed.

Lemma add_t_sent : sent_between node_b provider_b [demo_advert].
Proof. exists (drop (length (calls node_b)) (calls provider_b)). split; vm_compute; reflexivity. Qed.

Lemma guid_fits s : my_guid_ s = "b_127.0.0.1_2" → start_len (my_guid_ s) <= EVENT_BUFFER_SIZE.
Proof. intros ->. apply Nat.leb_le. vm_compute. reflexivity. Qed.

Lemma replication_converges_witness :
  ∃ a', deliver_all demo_own demo_malloc demo_fresh node_a [(9%Z, demo_advert)] = Ret a' ∧
        offers_by (topics_ a') "b_127.0.0.1_2" = {["t" := demo_offer]}.
Proof.
  destruct (replication_converges demo_own demo_own demo_malloc demo_malloc demo_fresh
              demo_base (pool_end demo_base) demo_base (pool_end demo_base) node_a node_b
              (Pair node_a provider_b true [demo_advert]) [(9%Z, demo_advert)]
              demo_malloc_fresh demo_malloc_fresh demo_fresh_length node_a_ready node_b_ready)
    as (a' & Hd & Ho).
  - vm_compute. discriminate.
  - by apply guid_fits.
  - vm_compute. reflexivity.
  - vm_compute. reflexivity.
  - apply rtc_once. apply (pair_sender _ _ _ _ _ node_a node_b provider_b [] add_t [demo_advert]);
      [apply add_t_polite|apply add_t_step|apply add_t_sent].
  - reflexivity.
  - apply Forall_singleton. intros Hneg%printable_Undef. vm_compute in Hneg. discriminate.
  - exists a'. split; [exact Hd|]. rewrite <- provider_b_guid. etransitivity; [exact Ho|]. vm_compute. reflexivity.
Defined.

Lemma demo_net_reach :
  net_reach (λ _, demo_host) demo_fresh
    (Net {[1 := provider_b]} [demo_advert] [("b_127.0.0.1_2", "t", demo_offer)]).
Proof.
  eapply net_next; [eapply net_next; [apply net_start|]|].
  - apply (net_join _ _ 1 node_b ∅ [] [] "b" "2" demo_base demo_garbage None None);
      [done|done|apply node_b_ready|by apply guid_fits].
  - replace ({[1 := provider_b]} : gmap nat t) with (<[1 := provider_b]> (<[1 := node_b]> ∅ : gmap nat t))
      by apply insert_insert_eq.
    apply (net_op _ _ 1 node_b provider_b add_t [demo_advert] _ [] []);
      [done|apply add_t_polite|done|apply add_t_step|apply add_t_sent].
Qed.

Lemma no_forged_topics_witness :
  offers_by (topics_ provider_b) "b_127.0.0.1_2" !! "t" = Some demo_offer ∧
  ("b_127.0.0.1_2", "t", demo_offer) ∈ [("b_127.0.0.1_2", "t", demo_offer)].
Proof.
  assert (offers_by (topics_ provider_b) "b_127.0.0.1_2" !! "t" = Some demo_offer) as Ho
    by (vm_compute; reflexivity).
  split; [exact Ho|].
  destruct (no_forged_topics (λ _, demo_host) demo_fresh
              (Net {[1 := provider_b]} [demo_advert] [("b_127.0.0.1_2", "t", demo_offer)]) 1 provider_b)
    as [H _].
  - intros i. apply demo_malloc_fresh.
  - apply demo_fresh_length.
  - apply demo_net_reach.
  - reflexivity.
  - exact (H _ _ _ Ho).
Defined.

End Replication.
