(* ===== verification/Messaging.v ===== *)
(** * Sockets and listeners (src/a17/dispatch/socket.h, socket.cpp, listener.h,
      listener.cpp, reply_server.h, reply_server.cpp)

    A [Socket] sends and receives multipart messages over a ZeroMQ socket.  The ZeroMQ
    socket itself is outside the program: each [azmqsocket_.send] call consumes one
    result from a list of results ([Some n]: [n] bytes sent, [None]: an error), and each
    completed [async_receive] is a call of [onReceive] with a frame.  Calls the code
    makes are returned as effects, in order.  A frame is its bytes; a handler is
    identified by a number, an empty [std::function] is [None]. *)

From S2P Require Import Prelude.

Abbreviation frame := (list ascii).
Abbreviation message_vector := (list (list ascii)).

(** A frame on the wire, with its [ZMQ_SNDMORE] flag. *)
Record wire_frame : Type := WireFrame { wf_data : frame; wf_more : bool }.

Global Instance wire_frame_eq_dec : EqDecision wire_frame.
Proof. solve_decision. Defined.

Inductive sock_effect : Type :=
  | AsyncReceive
  | ZSend (f : wire_frame)
  | CallHandler (h : nat) (m : message_vector)
  | CallError (h : nat).

Global Instance sock_effect_eq_dec : EqDecision sock_effect.
Proof. solve_decision. Defined.

(** ** [class Socket] *)
Module Socket.

Record t : Type := mk {
  received_message_ : message_vector;
  smart_message_handler_ : option nat;
  error_handler_ : option nat;
  log_name_ : string;
  snd_hwm : Z
}.

Definition init (class_name : string) : t := mk [] None None class_name 10.

(** The move constructor: the new socket, and what is left of the old one.  The error handler
    stays behind. *)
Definition move (s : t) : t * t :=
  (mk (received_message_ s) (smart_message_handler_ s) None (log_name_ s) (snd_hwm s),
   mk [] (smart_message_handler_ s) (error_handler_ s) "" (snd_hwm s)).

Definition sendHighWaterMark (s : t) (hwm : Z) : t :=
  mk (received_message_ s) (smart_message_handler_ s) (error_handler_ s) (log_name_ s) hwm.

Definition set_received (s : t) (m : message_vector) : t :=
  mk m (smart_message_handler_ s) (error_handler_ s) (log_name_ s) (snd_hwm s).

Definition receive (s : t) (handler error_handler : option nat) : t * list sock_effect :=
  (mk (received_message_ s) handler error_handler (log_name_ s) (snd_hwm s), [AsyncReceive]).

(** What calling the message handler does to the socket ([run]) is given: the handler may
    call [receive] again.  Calling an empty handler throws. *)
Definition onReceive (run : t → message_vector → outcome (t * list sock_effect))
    (s : t) (ec : bool) (msg : frame) (more : bool) : outcome (t * list sock_effect) :=
  if ec then Ret (s, match error_handler_ s with Some h => [CallError h] | None => [] end)
  else
    let s := if decide (0 < length msg)
             then set_received s (received_message_ s ++ [msg]) else s in
    if more then Ret (s, [AsyncReceive])
    else
      '(s, es) ← run s (received_message_ s);
      Ret (set_received s [], es).

(** A handler that only looks at the message. *)
Definition call_handler (s : t) (m : message_vector) : outcome (t * list sock_effect) :=
  match smart_message_handler_ s with
  | Some h => Ret (s, [CallHandler h m])
  | None => Throw (runtime_error "bad_function_call")
  end.

(** The loop over all frames but the last: frames handed to ZeroMQ, bytes counted, the
    remaining results, and whether an error was reported. *)
Fixpoint send_parts (parts : message_vector) (results : list (option nat)) (size : nat)
    : list sock_effect * nat * list (option nat) * bool :=
  match parts with
  | [] => ([], size, results, false)
  | p :: parts' =>
      match results with
      | Some n :: results' =>
          let '(es, size', rest, ec) := send_parts parts' results' (size + n) in
          (ZSend (WireFrame p true) :: es, size', rest, ec)
      | None :: results' => ([ZSend (WireFrame p true)], size, results', true)
      | [] => ([], size, [], true)
      end
  end.

(** One call of [azmqsocket_.send] without [ZMQ_SNDMORE]. *)
Definition send_last (p : frame) (results : list (option nat)) : list sock_effect * nat * bool :=
  match results with
  | Some n :: _ => ([ZSend (WireFrame p false)], n, false)
  | None :: _ => ([ZSend (WireFrame p false)], 0, true)
  | [] => ([], 0, true)
  end.

(** [send(message_vector, ec)] with [ec] clear on entry: the calls, the size, the error. *)
Definition send (m : message_vector) (results : list (option nat)) : list sock_effect * nat * bool :=
  match m with
  | [] => send_last [] results
  | _ =>
      let '(es, size, rest, ec) := send_parts (removelast m) results 0 in
      if ec then (es, size, true)
      else
        let '(es', n, ec') := send_last (List.last m []) rest in
        (es ++ es', size + n, ec')
  end.

End Socket.

(** ** [class Listener] *)
Module Listener.

Record t : Type := mk {
  wrapped_handler_ : nat;
  error_handler_ : option nat;
  listener_handler_ : nat
}.

(** The constructor starts receiving on the socket. *)
Definition init (s : Socket.t) (handler : nat) (error : option nat) (self : nat)
    : t * (Socket.t * list sock_effect) :=
  (mk handler error self, Socket.receive s (Some self) error).

(** [onMessage]: the wrapped handler, then the next receive. *)
Definition onMessage (l : t) (s : Socket.t) (m : message_vector) : outcome (Socket.t * list sock_effect) :=
  let '(s, es) := Socket.receive s (Some (listener_handler_ l)) (error_handler_ l) in
  Ret (s, CallHandler (wrapped_handler_ l) m :: es).

Definition setMessageHandler (l : t) (handler : nat) : t :=
  mk handler (error_handler_ l) (listener_handler_ l).

(** [Listener::all(handlers)] applied to a message. *)
Definition all (handlers : list nat) (m : message_vector) : list sock_effect :=
  (λ h, CallHandler h m) <$> handlers.

(** Frames arriving at a listening socket, one event after the other. *)
Fixpoint listen (l : t) (s : Socket.t) (fs : list wire_frame) : outcome (Socket.t * list sock_effect) :=
  match fs with
  | [] => Ret (s, [])
  | f :: fs' =>
      '(s, es) ← Socket.onReceive (onMessage l) s false (wf_data f) (wf_more f);
      '(s, es') ← listen l s fs';
      Ret (s, es ++ es')
  end.

End Listener.

(** ** [class ReplyServer] *)
Module ReplyServer.

Record t : Type := mk {
  request_handler_ : nat;
  reply_handler_ : nat;
  error_handler_ : option nat
}.

(** What the application's handler does: it calls the reply sender with these replies and
    then returns or throws. *)
Record behaviour : Type := Behaviour { replies : list message_vector; throws : bool }.

Definition init (s : Socket.t) (self handler : nat) (error : option nat)
    : t * (Socket.t * list sock_effect) :=
  (mk self handler error, Socket.receive s (Some self) error).

Definition setReplyHandler (r : t) (handler : nat) : t := mk (request_handler_ r) handler (error_handler_ r).

(** [sendReply]: an error of the send is only logged. *)
Definition sendReply (r : t) (s : Socket.t) (reply : message_vector) (results : list (option nat))
    : Socket.t * list sock_effect :=
  let '(es, _, _) := Socket.send reply results in
  let '(s, es') := Socket.receive s (Some (request_handler_ r)) (error_handler_ r) in
  (s, es ++ es').

Fixpoint send_replies (r : t) (s : Socket.t) (ms : list message_vector)
    (results : list (list (option nat))) : Socket.t * list sock_effect :=
  match ms with
  | [] => (s, [])
  | m :: ms' =>
      let '(s, es) := sendReply r s m (default [] (head results)) in
      let '(s, es') := send_replies r s ms' (tail results) in
      (s, es ++ es')
  end.

(** [onRequest]: an exception of the handler is answered with an empty message. *)
Definition onRequest (r : t) (b : behaviour) (results : list (list (option nat)))
    (s : Socket.t) (m : message_vector) : outcome (Socket.t * list sock_effect) :=
  let '(s, es) := send_replies r s (replies b) results in
  if throws b then
    let '(es', _, _) := Socket.send [] (default [] (head (drop (length (replies b)) results))) in
    let '(s, es'') := Socket.receive s (Some (request_handler_ r)) (error_handler_ r) in
    Ret (s, CallHandler (reply_handler_ r) m :: es ++ es' ++ es'')
  else Ret (s, CallHandler (reply_handler_ r) m :: es).

End ReplyServer.

(** ** What a listener's clients see *)

(** The messages passed to handlers, and the frames handed to ZeroMQ. *)
Definition delivered (es : list sock_effect) : list message_vector :=
  omap (λ e, match e with CallHandler _ m => Some m | _ => None end) es.

Definition transmitted (es : list sock_effect) : list wire_frame :=
  omap (λ e, match e with ZSend f => Some f | _ => None end) es.

Definition armed (es : list sock_effect) : nat :=
  length (filter (λ e, e = AsyncReceive) es).

(** The frames of a message as ZeroMQ sends them. *)
Definition frames_of (m : message_vector) : list wire_frame :=
  match m with
  | [] => [WireFrame [] false]
  | _ => ((λ p, WireFrame p true) <$> removelast m) ++ [WireFrame (List.last m []) false]
  end.

Definition nonempty_frames (m : message_vector) : message_vector := filter (λ p, 0 < length p) m.

(** Successful calls before the first error. *)
Fixpoint leading (results : list (option nat)) : nat :=
  match results with Some _ :: results' => S (leading results') | _ => 0 end.

(** ** Lemmas *)

Lemma transmitted_app l1 l2 : transmitted (l1 ++ l2) = transmitted l1 ++ transmitted l2.
Proof. apply omap_app. Qed.

Lemma delivered_app l1 l2 : delivered (l1 ++ l2) = delivered l1 ++ delivered l2.
Proof. apply omap_app. Qed.

Lemma armed_app l1 l2 : armed (l1 ++ l2) = armed l1 + armed l2.
Proof. unfold armed. by rewrite filter_app, length_app. Qed.

Lemma armed_replicate k : armed (replicate k AsyncReceive) = k.
Proof.
  unfold armed. induction k as [|k IH]; [done|]. cbn [replicate].
  rewrite filter_cons_True by done. cbn [length]. by rewrite IH.
Qed.

Lemma send_parts_spec parts results size es size' rest ec :
  length parts < length results →
  Socket.send_parts parts results size = (es, size', rest, ec) →
  transmitted es = take (S (leading results)) ((λ p, WireFrame p true) <$> parts) ∧
  (ec = true ↔ leading results < length parts) ∧
  (ec = false → rest = drop (length parts) results ∧ leading results = length parts + leading rest).
Proof.
  revert results size es size' rest ec.
  induction parts as [|p parts IH]; intros results size es size' rest ec Hl; simpl.
  - intros [= <- <- <- <-]. rewrite drop_0. split; [done|]. split; [lia|done].
  - destruct results as [|[n|] results]; [simpl in Hl; lia|..]; simpl in *.
    + destruct (Socket.send_parts parts results (size + n)) as [[[es1 size1] rest1] ec1] eqn:E.
      intros [= <- <- <- <-]. apply IH in E as (Ht & He & Hr); [|lia].
      split; [cbn; f_equal; exact Ht|]. split; [rewrite He; lia|].
      intros [-> ->]%Hr. split; [done|]. lia.
    + intros [= <- <- <- <-]. split; [done|]. split; [split; [lia|done]|done].
Qed.

(** Frames are handed to ZeroMQ in order, up to and including the first that fails. *)
Lemma send_spec m results :
  length m < length results →
  let '(es, _, ec) := Socket.send m results in
  transmitted es = take (S (leading results)) (frames_of m) ∧
  (ec = true ↔ leading results < length (frames_of m)).
Proof.
  intros Hl. unfold Socket.send, frames_of. destruct m as [|p0 m0].
  - destruct results as [|[n|] results]; simpl in *; [lia|..].
    + split; [done|]. split; [done|lia].
    + split; [done|]. split; [lia|done].
  - remember (p0 :: m0) as m eqn:Hm.
    assert (length (removelast m) = length m - 1) as Hrl.
    { rewrite removelast_firstn_len. rewrite length_take. subst m. simpl. lia. }
    assert (0 < length m) as Hpos by (subst; simpl; lia).
    destruct (Socket.send_parts (removelast m) results 0) as [[[es size] rest] ec] eqn:E.
    apply send_parts_spec in E as (Ht & He & Hr); [|lia].
    rewrite length_app, length_fmap. simpl. destruct ec.
    + assert (leading results < length (removelast m)) as Hlt by (by apply He).
      split; [rewrite Ht, take_app_le by (rewrite length_fmap; lia); done|]. split; [lia|done].
    + destruct Hr as [-> Hlead]; [done|].
      set (rest := drop (length (removelast m)) results) in *.
      assert (0 < length rest) as Hrest by (unfold rest; rewrite length_drop; lia).
      assert (transmitted es = (λ p, WireFrame p true) <$> removelast m) as Htr.
      { rewrite Ht. apply take_ge. rewrite length_fmap. lia. }
      destruct rest as [|[n|] rest']; simpl in Hrest, Hlead |- *; [lia|..];
        rewrite transmitted_app, Htr, (take_ge (_ ++ _))
          by (rewrite length_app, length_fmap; simpl; lia);
        (split; [done|]); (split; [try done; lia|try done; lia]).
Qed.

(** A socket that listens with nothing received yet. *)
Definition listening (l : Listener.t) (s : Socket.t) (r : message_vector) : Socket.t :=
  Socket.mk r (Some (Listener.listener_handler_ l)) (Listener.error_handler_ l)
    (Socket.log_name_ s) (Socket.snd_hwm s).

Lemma nonempty_cons p m :
  nonempty_frames (p :: m) = (if decide (0 < length p) then [p] else []) ++ nonempty_frames m.
Proof. unfold nonempty_frames. rewrite filter_cons. by case_decide. Qed.

Lemma listen_parts l s r parts fs :
  Listener.listen l (listening l s r) (((λ p, WireFrame p true) <$> parts) ++ fs) =
  ('(s', es) ← Listener.listen l (listening l s (r ++ nonempty_frames parts)) fs;
   Ret (s', replicate (length parts) AsyncReceive ++ es)).
Proof.
  revert r. induction parts as [|p parts IH]; intros r.
  - simpl. rewrite app_nil_r. by destruct (Listener.listen _ _ fs) as [[? ?]|e|].
  - cbn [fmap list_fmap app Listener.listen wf_data wf_more]. unfold Socket.onReceive at 1.
    rewrite nonempty_cons, bind_Ret.
    assert ((if decide (0 < length p)
             then Socket.set_received (listening l s r) (Socket.received_message_ (listening l s r) ++ [p])
             else listening l s r) =
            listening l s (r ++ (if decide (0 < length p) then [p] else []))) as ->.
    { case_decide; [done|]. by rewrite app_nil_r. }
    rewrite IH, app_assoc. by destruct (Listener.listen _ _ fs) as [[? ?]|e|].
Qed.

Lemma listen_last l s r p fs :
  Listener.listen l (listening l s r) (WireFrame p false :: fs) =
  ('(s', es) ← Listener.listen l (listening l s []) fs;
   Ret (s', [CallHandler (Listener.wrapped_handler_ l) (r ++ nonempty_frames [p]); AsyncReceive] ++ es)).
Proof.
  cbn [Listener.listen wf_data wf_more]. unfold Socket.onReceive at 1. rewrite nonempty_cons.
  assert ((if decide (0 < length p)
           then Socket.set_received (listening l s r) (Socket.received_message_ (listening l s r) ++ [p])
           else listening l s r) =
          listening l s (r ++ (if decide (0 < length p) then [p] else []) ++ nonempty_frames [])) as ->.
  { case_decide; simpl; by rewrite ?app_nil_r. }
  reflexivity.
Qed.

(** The frames of one message, after the frames [r] of an unfinished one. *)
Lemma listen_message l s r m fs :
  ∃ pre, Listener.listen l (listening l s r) (frames_of m ++ fs) =
    ('(s', es) ← Listener.listen l (listening l s []) fs; Ret (s', pre ++ es)) ∧
    delivered pre = [r ++ nonempty_frames m] ∧ armed pre = length (frames_of m) ∧
    transmitted pre = [].
Proof.
  destruct m as [|p0 m0].
  { cbn [frames_of app]. rewrite listen_last. eexists. split; [done|]. done. }
  remember (p0 :: m0) as m eqn:Hm. assert (m ≠ []) as Hne by (by subst).
  assert (frames_of m = ((λ p, WireFrame p true) <$> removelast m) ++ [WireFrame (List.last m []) false])
    as -> by (by subst).
  rewrite <- app_assoc, listen_parts. cbn [app]. rewrite listen_last.
  exists (replicate (length (removelast m)) AsyncReceive ++
          [CallHandler (Listener.wrapped_handler_ l)
             ((r ++ nonempty_frames (removelast m)) ++ nonempty_frames [List.last m []]); AsyncReceive]).
  split; [|split_and!].
  - destruct (Listener.listen _ _ fs) as [[? ?]|e|]; [|done..]. rewrite !bind_Ret.
    by rewrite <- (app_assoc (replicate _ _)).
  - rewrite delivered_app.
    assert (delivered (replicate (length (removelast m)) AsyncReceive) = []) as ->
      by (induction (length (removelast m)); done).
    change ([(r ++ nonempty_frames (removelast m)) ++ nonempty_frames [List.last m []]] =
            [r ++ nonempty_frames m]).
    rewrite <- app_assoc. unfold nonempty_frames at 1 2. rewrite <- filter_app.
    by rewrite <- (app_removelast_last [] Hne).
  - rewrite armed_app, length_app, length_fmap. f_equal.
    apply armed_replicate.
  - rewrite transmitted_app. assert (transmitted (replicate (length (removelast m)) AsyncReceive) = []) as ->
      by (induction (length (removelast m)); done). done.
Qed.

(** Messages one after the other. *)
Lemma listen_messages l s ms :
  ∃ es, Listener.listen l (listening l s []) (ms ≫= frames_of) = Ret (listening l s [], es) ∧
    delivered es = nonempty_frames <$> ms ∧ armed es = length (ms ≫= frames_of).
Proof.
  induction ms as [|m ms (es & Hl & Hd & Ha)]; [by exists []|]. cbn [mbind list_bind].
  destruct (listen_message l s [] m (ms ≫= frames_of)) as (pre & -> & Hpd & Hpa & _).
  rewrite Hl, bind_Ret. eexists. split; [done|]. rewrite delivered_app, armed_app, Hpd, Hd, Hpa, Ha.
  rewrite length_app. done.
Qed.

(** *** Frames at any socket *)

(** Frames arriving one event after the other at a socket whose handler is [run]. *)
Fixpoint receive_all (run : Socket.t → message_vector → outcome (Socket.t * list sock_effect))
    (s : Socket.t) (fs : list wire_frame) : outcome (Socket.t * list sock_effect) :=
  match fs with
  | [] => Ret (s, [])
  | f :: fs' =>
      '(s, es) ← Socket.onReceive run s false (wf_data f) (wf_more f);
      '(s, es') ← receive_all run s fs';
      Ret (s, es ++ es')
  end.

Lemma receive_part run s p more :
  Socket.onReceive run s false p more =
  (let s' := Socket.set_received s (Socket.received_message_ s ++ nonempty_frames [p]) in
   if more then Ret (s', [AsyncReceive])
   else '(s2, es) ← run s' (Socket.received_message_ s'); Ret (Socket.set_received s2 [], es)).
Proof.
  unfold Socket.onReceive. rewrite nonempty_cons. change (nonempty_frames []) with ([] : message_vector).
  rewrite app_nil_r. case_decide; [done|]. rewrite app_nil_r. by destruct s.
Qed.

(** The frames of a message call the handler once, with its non-empty parts. *)
Lemma receive_frames run s m :
  receive_all run s (frames_of m) =
  (let s' := Socket.set_received s (Socket.received_message_ s ++ nonempty_frames m) in
   '(s2, es) ← run s' (Socket.received_message_ s');
   Ret (Socket.set_received s2 [], replicate (length (removelast m)) AsyncReceive ++ es)).
Proof.
  assert (∀ parts p s0, receive_all run s0 (((λ p, WireFrame p true) <$> parts) ++ [WireFrame p false]) =
    (let s' := Socket.set_received s0 (Socket.received_message_ s0 ++ nonempty_frames (parts ++ [p])) in
     '(s2, es) ← run s' (Socket.received_message_ s');
     Ret (Socket.set_received s2 [], replicate (length parts) AsyncReceive ++ es))) as H.
  { induction parts as [|q parts IH]; intros p s0; cbn [fmap list_fmap app receive_all wf_data wf_more length replicate];
      rewrite receive_part; cbv zeta iota.
    - destruct (run _ _) as [[s2 es]|e|]; [|done..]. rewrite !bind_Ret. by rewrite app_nil_r.
    - rewrite bind_Ret, IH. cbn [Socket.received_message_ Socket.set_received].
      rewrite (nonempty_cons q (parts ++ [p])), nonempty_cons. change (nonempty_frames []) with ([] : message_vector).
      rewrite app_nil_r, <- app_assoc. by destruct (run _ _) as [[s2 es]|e|]. }
  destruct m as [|p0 m0]; [apply (H [])|].
  transitivity (receive_all run s (((λ p, WireFrame p true) <$> removelast (p0 :: m0)) ++
                                   [WireFrame (List.last (p0 :: m0) []) false])); [done|].
  rewrite H. by rewrite <- app_removelast_last.
Qed.

Lemma send_all_ok m sizes :
  length m < length sizes →
  let '(es, _, ec) := Socket.send m (Some <$> sizes) in
  transmitted es = frames_of m ∧ ec = false.
Proof.
  intros Hl. assert (leading (Some <$> sizes) = length sizes) as Hlead.
  { clear Hl. induction sizes; simpl; [done|]. by f_equal. }
  pose proof (send_spec m (Some <$> sizes)) as Hs. rewrite length_fmap in Hs. specialize (Hs Hl).
  destruct (Socket.send m (Some <$> sizes)) as [[es n] ec]. rewrite Hlead in Hs.
  assert (length (frames_of m) <= S (length m)) as Hf.
  { destruct m as [|p0 m0]; [done|]. cbn [frames_of]. rewrite length_app, length_fmap.
    rewrite removelast_firstn_len, length_take. simpl. lia. }
  destruct Hs as [Ht He]. rewrite take_ge in Ht by lia. split; [done|].
  destruct ec; [|done]. assert (length sizes < length (frames_of m)) by (by apply He). lia.
Qed.

(** Enough successful calls for one message. *)
Definition send_succeeds (m : message_vector) (r : list (option nat)) : Prop :=
  ∃ sizes, r = Some <$> sizes ∧ length m < length sizes.

Lemma send_parts_armed parts results size :
  armed (Socket.send_parts parts results size).1.1.1 = 0 ∧
  delivered (Socket.send_parts parts results size).1.1.1 = [].
Proof.
  revert results size. induction parts as [|p parts IH]; intros [|[n|] results] size; try done.
  cbn [Socket.send_parts]. specialize (IH results (size + n)).
  destruct (Socket.send_parts parts results (size + n)) as [[[es ?] ?] ?]. done.
Qed.

Lemma send_last_armed p results :
  armed (Socket.send_last p results).1.1 = 0 ∧ delivered (Socket.send_last p results).1.1 = [].
Proof. by destruct results as [|[n|] results]. Qed.

Lemma send_armed m results :
  armed (Socket.send m results).1.1 = 0 ∧ delivered (Socket.send m results).1.1 = [].
Proof.
  unfold Socket.send. destruct m as [|p0 m0]; [apply send_last_armed|].
  pose proof (send_parts_armed (removelast (p0 :: m0)) results 0) as [Ha Hd].
  destruct (Socket.send_parts _ _ _) as [[[es size] rest] ec]. simpl in Ha, Hd.
  destruct ec; [done|]. pose proof (send_last_armed (List.last (p0 :: m0) []) rest) as [Ha' Hd'].
  destruct (Socket.send_last _ _) as [[es' n] ec']. simpl in *.
  by rewrite armed_app, delivered_app, Ha, Ha', Hd, Hd'.
Qed.

Lemma send_succeeds_spec m r :
  send_succeeds m r → transmitted (Socket.send m r).1.1 = frames_of m.
Proof.
  intros (sizes & -> & Hl). pose proof (send_all_ok m sizes Hl) as Hs.
  destruct (Socket.send m (Some <$> sizes)) as [[es n] ec]. apply Hs.
Qed.

Lemma send_replies_spec r s ms results :
  Forall2 send_succeeds ms (take (length ms) results) →
  let '(s', es) := ReplyServer.send_replies r s ms results in
  transmitted es = (ms ≫= frames_of) ∧ armed es = length ms ∧ delivered es = [] ∧
  Socket.received_message_ s' = Socket.received_message_ s.
Proof.
  revert s results. induction ms as [|m ms IH]; intros s results Hf; [done|].
  destruct results as [|r0 results]; [by inversion Hf|].
  apply Forall2_cons in Hf as [H0 Hf]. cbn [ReplyServer.send_replies head default tail].
  unfold ReplyServer.sendReply. cbn [from_option id].
  pose proof (send_succeeds_spec m r0 H0) as Ht. pose proof (send_armed m r0) as [Ha Hd].
  destruct (Socket.send m r0) as [[es n] ec]. simpl in Ht, Ha, Hd. cbn [Socket.receive].
  specialize (IH (Socket.receive s (Some (ReplyServer.request_handler_ r)) (ReplyServer.error_handler_ r)).1
                 results Hf).
  cbn [Socket.receive fst] in IH. destruct (ReplyServer.send_replies _ _ _ _) as [s' es'].
  destruct IH as (IH1 & IH2 & IH3 & IH4).
  cbn [mbind list_bind]. rewrite !transmitted_app, !armed_app, !delivered_app, Ht, Ha, Hd, IH1, IH2, IH3, app_nil_r.
  done.
Qed.

Lemma onRequest_spec r b results s m :
  Forall2 send_succeeds (ReplyServer.replies b ++ (if ReplyServer.throws b then [[]] else [])) results →
  ∃ s' es, ReplyServer.onRequest r b results s m = Ret (s', es) ∧
    transmitted es = ((ReplyServer.replies b ++ (if ReplyServer.throws b then [[]] else [])) ≫= frames_of) ∧
    armed es = length (ReplyServer.replies b) + (if ReplyServer.throws b then 1 else 0) ∧
    delivered es = [m].
Proof.
  intros Hf. unfold ReplyServer.onRequest. destruct b as [ms th]. cbn [ReplyServer.replies ReplyServer.throws] in *.
  assert (Forall2 send_succeeds ms (take (length ms) results)) as Hms.
  { apply Forall2_app_inv_l in Hf as (k1 & k2 & H1 & _ & ->).
    rewrite (Forall2_length _ _ _ H1), take_app_length. done. }
  pose proof (send_replies_spec r s ms results Hms) as Hs.
  destruct (ReplyServer.send_replies r s ms results) as [s1 es]. destruct Hs as (Ht & Ha & Hd & _).
  destruct th.
  - assert (∃ r0, head (drop (length ms) results) = Some r0 ∧ send_succeeds [] r0) as (r0 & -> & H0).
    { apply Forall2_app_inv_l in Hf as (k1 & k2 & H1 & H2 & ->).
      rewrite (Forall2_length _ _ _ H1), drop_app_length. inversion H2; subst. eauto. }
    cbn [default]. pose proof (send_succeeds_spec [] r0 H0) as Ht0. pose proof (send_armed [] r0) as [Ha0 Hd0].
    cbn [from_option id]. destruct (Socket.send [] r0) as [[es0 n0] ec0]. simpl in Ht0, Ha0, Hd0.
    cbn [Socket.receive]. do 2 eexists. split; [done|].
    change (CallHandler (ReplyServer.reply_handler_ r) m :: es ++ es0 ++ [AsyncReceive])
      with ([CallHandler (ReplyServer.reply_handler_ r) m] ++ es ++ es0 ++ [AsyncReceive]).
    rewrite !transmitted_app, !armed_app, !delivered_app, Ht, Ha, Hd, Ht0, Ha0, Hd0, bind_app.
    split; [done|]. split; [change (armed [AsyncReceive]) with 1; change (armed [_]) with 0; lia|done].
  - do 2 eexists. split; [done|].
    change (CallHandler (ReplyServer.reply_handler_ r) m :: es)
      with ([CallHandler (ReplyServer.reply_handler_ r) m] ++ es).
    rewrite !transmitted_app, !armed_app, !delivered_app, Ht, Ha, Hd, app_nil_r.
    split; [done|]. split; [change (armed [_]) with 0; lia|done].
Qed.

(** ** Properties *)

(** C12. Multipart messages survive the transport: if every ZeroMQ call succeeds, a listener fed
    with the frames of any sequence of sent messages hands its handler exactly those
    messages, in order, once each (zero-length frames excepted), and is listening again
    with nothing left over. *)
Theorem multipart_roundtrip l s ms results :
  (∀ m, send_succeeds m (results m)) →
  ∃ es, Listener.listen l (listening l s [])
          (ms ≫= λ m, transmitted (Socket.send m (results m)).1.1) = Ret (listening l s [], es) ∧
    delivered es = nonempty_frames <$> ms ∧
    armed es = length (ms ≫= frames_of) ∧
    (Forall (Forall (λ p, p ≠ [])) ms → delivered es = ms).
Proof.
  intros Hr.
  assert ((ms ≫= λ m, transmitted (Socket.send m (results m)).1.1) = ms ≫= frames_of) as ->.
  { induction ms as [|m ms IH]; [done|]. cbn [mbind list_bind].
    rewrite send_succeeds_spec by done. f_equal. exact IH. }
  destruct (listen_messages l s ms) as (es & Hl & Hd & Ha). exists es. split_and!; [done..|].
  intros Hne. rewrite Hd. clear -Hne. induction Hne as [|m ms Hm _ IH]; [done|].
  cbn [fmap list_fmap]. f_equal; [|exact IH]. clear -Hm.
  induction Hm as [|p m Hp _ IH]; [done|]. rewrite nonempty_cons, IH.
  rewrite decide_True by (destruct p; [done|simpl; lia]). done.
Qed.

(** C40. A failed send never completes a truncated message: frames are handed to ZeroMQ in order up
    to the first that fails, the error is reported exactly when one fails, and a frame
    without the more-follows flag is only ever the last one of the message. *)
Theorem send_error_prefix m results :
  length m < length results →
  let '(es, _, ec) := Socket.send m results in
  transmitted es = take (S (leading results)) (frames_of m) ∧
  (ec = true ↔ leading results < length (frames_of m)) ∧
  (∀ i f, transmitted es !! i = Some f → wf_more f = false → S i = length (frames_of m)).
Proof.
  intros Hl. pose proof (send_spec m results Hl) as Hs.
  destruct (Socket.send m results) as [[es n] ec]. destruct Hs as [Ht He].
  split_and!; [done..|]. rewrite Ht. intros i f Hi Hm.
  apply lookup_take_Some in Hi as [Hi _]. unfold frames_of in *.
  destruct m as [|p0 m0]; [destruct i; [done|by destruct i]|].
  rewrite length_app, length_fmap. apply lookup_app_Some in Hi as [Hi|[Hge Hi]].
  - rewrite list_lookup_fmap in Hi. apply fmap_Some in Hi as (p & _ & ->). done.
  - apply lookup_lt_Some in Hi. rewrite length_fmap in *. cbn [length] in *. lia.
Qed.

(** A receive error in the middle of a message leaves its first frames in the socket: the next
    message is handed over with the stale frames in front of it. *)
Theorem stale_frames_after_error l s r frm more m :
  Socket.onReceive (Listener.onMessage l) (listening l s r) true frm more
    = Ret (listening l s r, match Listener.error_handler_ l with Some h => [CallError h] | None => [] end) ∧
  ∃ es, Listener.listen l (listening l s r) (frames_of m) = Ret (listening l s [], es) ∧
        delivered es = [r ++ nonempty_frames m].
Proof.
  split; [done|]. destruct (listen_message l s r m []) as (pre & Hl & Hd & _).
  rewrite app_nil_r in Hl. cbn [Listener.listen] in Hl. rewrite bind_Ret, app_nil_r in Hl. eauto.
Qed.

(** A reply server answers and goes on: for every request the replies the handler sends, and an
    empty reply if the handler throws, are transmitted in order, and the socket is re-armed
    once for each of them. *)
Theorem reply_server_replies r b results s m :
  Forall2 send_succeeds (ReplyServer.replies b ++ (if ReplyServer.throws b then [[]] else [])) results →
  ∃ s' es, ReplyServer.onRequest r b results s m = Ret (s', es) ∧
    transmitted es = ((ReplyServer.replies b ++ (if ReplyServer.throws b then [[]] else [])) ≫= frames_of) ∧
    armed es = length (ReplyServer.replies b) + (if ReplyServer.throws b then 1 else 0) ∧
    delivered es = [m].
Proof. apply onRequest_spec. Qed.

(** ** Witnesses *)

Lemma multipart_roundtrip_witness :
  ∃ es, delivered es = [[chars "a"; chars "bc"]; [chars "d"]].
Proof.
  destruct (multipart_roundtrip (Listener.mk 1 None 0) (Socket.init "Subscriber")
              [[chars "a"; chars "bc"]; [chars "d"]]
              (λ m, Some <$> replicate (S (length m)) 1)) as (es & _ & _ & _ & H).
  - intros m. exists (replicate (S (length m)) 1). split; [reflexivity|].
    rewrite length_replicate. lia.
  - exists es. apply H. repeat constructor; discriminate.
Defined.

Lemma send_error_prefix_witness :
  transmitted (Socket.send [chars "a"; chars "b"; chars "c"] [Some 1; None; Some 1; Some 1]).1.1 =
  [WireFrame (chars "a") true; WireFrame (chars "b") true].
Proof.
  pose proof (send_error_prefix [chars "a"; chars "b"; chars "c"] [Some 1; None; Some 1; Some 1]) as H.
  specialize (H ltac:(simpl; lia)).
  destruct (Socket.send [chars "a"; chars "b"; chars "c"] [Some 1; None; Some 1; Some 1]) as [[es n] ec].
  apply H.
Defined.

Lemma reply_server_replies_witness :
  ∃ s' es, ReplyServer.onRequest (ReplyServer.mk 0 1 None) (ReplyServer.Behaviour [] true)
             [[Some 0]] (Socket.init "ReplyServer") [chars "q"] = Ret (s', es) ∧
    transmitted es = [WireFrame [] false].
Proof.
  destruct (reply_server_replies (ReplyServer.mk 0 1 None) (ReplyServer.Behaviour [] true)
              [[Some 0]] (Socket.init "ReplyServer") [chars "q"]) as (s' & es & H1 & H2 & _).
  - constructor; [exists [0]; split; [reflexivity|simpl; lia]|constructor].
  - exists s', es. split; [exact H1|exact H2].
Defined.
