(* ===== verification/Client.v ===== *)
(** * Client sockets (src/a17/dispatch/client.h, client.cpp, request_client.h,
      request_client.cpp, pub_client.h)

    A [Client] connects its ZeroMQ socket to every address the directory lists for its
    topic; a [RequestClient] connects to the newest one and sends it one request at a
    time.  Calls to ZeroMQ, to the timer, to the directory and to user handlers are
    returned as effects, in order.  Whether ZeroMQ accepts an address ([zok]) and whether
    a send succeeds are decided outside. *)

From S2P Require Import Prelude Topics TopicStore Messaging.

Inductive client_effect : Type :=
  | ZConnect (address : string)
  | ZDisconnect (address : string)
  | OnConnect (h : nat) (topic : string)
  | OnDisconnect (h : nat) (topic : string)
  | DirObserve (topic : string)
  | DirUnobserve (topic ref : string).

(** ** [class Client] *)
Module Client.

Record t : Type := mk {
  addresses_ : gset string;
  on_connect_ : option nat;
  on_disconnect_ : option nat;
  topic_name_ : string;
  class_name_ : string;
  log_name_ : string;
  monitor_ref_ : string;
  on_destroy_ : bool
}.

Definition set_addresses (s : t) (a : gset string) (log : string) : t :=
  mk a (on_connect_ s) (on_disconnect_ s) (topic_name_ s) (class_name_ s) log
     (monitor_ref_ s) (on_destroy_ s).

(** A call that may throw: the state it leaves, its calls, and the exception. *)
Definition result : Type := t * list client_effect * option exn.

Section with_zmq.
Context (zok : string → bool).

Definition connect (s : t) (address : string) : result :=
  if decide (address ∈ addresses_ s) then (s, [], None)
  else
    let s1 := set_addresses s (addresses_ s ∪ {[address]}) (log_name_ s) in
    if negb (zok address) then (s1, [ZConnect address], Some system_error)
    else
      let log := if decide (log_name_ s1 = class_name_ s1)
                 then log_name_ s1 +:+ "(" +:+ address +:+ ")" else log_name_ s1 in
      (set_addresses s1 (addresses_ s1) log,
       ZConnect address :: match on_connect_ s1 with
                           | Some h => [OnConnect h (topic_name_ s1)] | None => [] end,
       None).

(** [disconnect(address)].  [inside] says that the argument refers to the element of
    [addresses_] itself: erasing the element ends its lifetime, and the reference is used
    afterwards. *)
Definition disconnect (s : t) (address : string) (inside : bool) : outcome result :=
  if decide (address ∈ addresses_ s) then
    let s1 := set_addresses s (addresses_ s ∖ {[address]}) (log_name_ s) in
    if inside then Undef
    else if negb (zok address) then Ret (s1, [ZDisconnect address], Some system_error)
    else
      Ret (s1, ZDisconnect address :: match on_disconnect_ s1 with
                                      | Some h => [OnDisconnect h (topic_name_ s1)] | None => [] end,
           None)
  else Ret (s, [], None).

(** The loop that connects to new addresses. *)
Fixpoint connect_all (s : t) (l : list string) : result :=
  match l with
  | [] => (s, [], None)
  | a :: l' =>
      if decide (a ∈ addresses_ s) then connect_all s l'
      else
        match connect s a with
        | (s1, es, Some e) => (s1, es, Some e)
        | (s1, es, None) => let '(s2, es', x) := connect_all s1 l' in (s2, es ++ es', x)
        end
  end.

(** The loop over [addresses_] that disconnects from addresses no longer listed.  It holds
    references to the elements of the set it iterates. *)
Fixpoint disconnect_all (s : t) (news : list string) (l : list string) : outcome result :=
  match l with
  | [] => Ret (s, [], None)
  | a :: l' =>
      if decide (a ∈ news) then disconnect_all s news l'
      else
        '(s1, es, x) ← disconnect s a true;
        match x with
        | Some e => Ret (s1, es, Some e)
        | None => '(s2, es', x') ← disconnect_all s1 news l'; Ret (s2, es ++ es', x')
        end
  end.

Definition onDirectoryTopicsChanged (s : t) (m : gmap string DirectoryTopic) : outcome result :=
  let new_addresses := (λ e, dt_address e.2) <$> map_iter m in
  match connect_all s new_addresses with
  | (s1, es, Some e) => Ret (s1, es, Some e)
  | (s1, es, None) =>
      '(s2, es', x) ← disconnect_all s1 new_addresses (set_iter (addresses_ s1));
      Ret (s2, es ++ es', x)
  end.

(** [Client(ios, socketType, class_name, directory, topic_name, ...)]; [ref] is what
    [directory.observe] returned. *)
Definition of_directory (class_name topic_name : string) (on_connect on_disconnect : option nat)
    (ref : string) : result :=
  (mk ∅ on_connect on_disconnect topic_name class_name
      (class_name +:+ " [" +:+ topic_name +:+ "]") ref true, [DirObserve topic_name], None).

Definition of_address (class_name address : string) : result :=
  let s := mk ∅ None None "" class_name class_name "" false in
  if decide (address = "") then (s, [], None) else connect s address.

(** The loop of the constructor that takes a set of addresses. *)
Fixpoint connect_each (s : t) (l : list string) : result :=
  match l with
  | [] => (s, [], None)
  | a :: l' =>
      match connect s a with
      | (s1, es, Some e) => (s1, es, Some e)
      | (s1, es, None) => let '(s2, es', x) := connect_each s1 l' in (s2, es ++ es', x)
      end
  end.

Definition of_addresses (class_name : string) (addresses : gset string) : result :=
  let s := mk ∅ None None "" class_name class_name "" false in
  if decide (addresses = ∅) then (s, [], Some (runtime_error "No addresses to connect to"))
  else
    match connect_each s (set_iter addresses) with
    | (s1, es, Some e) => (s1, es, Some e)
    | (s1, es, None) =>
        (set_addresses s1 (addresses_ s1)
           (class_name +:+ " (" +:+ default "" (head (set_iter (addresses_ s1))) +:+ "+)"), es, None)
    end.

Definition destroy (s : t) : list client_effect :=
  if on_destroy_ s then [DirUnobserve (topic_name_ s) (monitor_ref_ s)] else [].

(** The move constructor: the new client, and what is left of the old one, which still has the
    observer and withdraws it when destroyed. *)
Definition move (s : t) : t * t :=
  (mk (addresses_ s) None None "" "" (log_name_ s) "" false,
   mk ∅ (on_connect_ s) (on_disconnect_ s) (topic_name_ s) (class_name_ s) "" (monitor_ref_ s) (on_destroy_ s)).

Definition isConnected (s : t) (count : nat) : bool := bool_decide (count <= size (addresses_ s)).

Definition setConnectionHandlers (s : t) (on_connect on_disconnect : option nat) : t :=
  mk (addresses_ s) on_connect on_disconnect (topic_name_ s) (class_name_ s) (log_name_ s)
     (monitor_ref_ s) (on_destroy_ s).

(** [PubClient] (ZMQ_PUB as the client): its two constructors. *)
Definition pub_client (topic_name : string) (on_connect on_disconnect : option nat) (ref : string) : result :=
  of_directory "PubClient" topic_name on_connect on_disconnect ref.
Definition pub_client_at (address : string) : result := of_address "PubClient" address.

End with_zmq.

(** ** What is advertised, and what a client does about it *)

Definition advertised (m : gmap string DirectoryTopic) : gset string :=
  list_to_set ((λ e, dt_address e.2) <$> map_iter m).

Definition connected (es : list client_effect) : list string :=
  omap (λ e, match e with ZConnect a => Some a | _ => None end) es.

(** ** Lemmas *)

Lemma elem_of_advertised m a : a ∈ advertised m ↔ ∃ g x, m !! g = Some x ∧ dt_address x = a.
Proof.
  unfold advertised. rewrite elem_of_list_to_set, list_elem_of_fmap. split.
  - intros ([g x] & -> & Hg%elem_of_map_iter). eauto.
  - intros (g & x & Hg & <-). exists (g, x). split; [done|]. by apply elem_of_map_iter.
Qed.

Lemma connect_all_ok zok s l :
  (∀ a, a ∈ l → zok a = true) →
  ∃ s' es, connect_all zok s l = (s', es, None) ∧
    addresses_ s' = addresses_ s ∪ list_to_set l ∧
    NoDup (connected es) ∧ (∀ a, a ∈ connected es ↔ a ∈ l ∧ a ∉ addresses_ s).
Proof.
  revert s. induction l as [|a l IH]; intros s Hok; cbn [connect_all].
  { exists s, []. split; [done|]. split; [set_solver|]. split; [constructor|]. set_solver. }
  case_decide as Ha.
  - destruct (IH s) as (s' & es & -> & Had & Hnd & Hc); [set_solver|].
    exists s', es. split; [done|]. rewrite Had. split; [set_solver|]. split; [done|].
    intros b. rewrite Hc. set_solver.
  - unfold connect. rewrite decide_False by done. rewrite Hok by set_solver. cbn [negb].
    match goal with |- context [connect_all zok ?x l] => set (s1 := x) end.
    destruct (IH s1) as (s' & es & -> & Had & Hnd & Hc); [set_solver|].
    do 2 eexists. split; [done|].
    assert (addresses_ s1 = addresses_ s ∪ {[a]}) as Hs1 by done.
    rewrite Hs1 in Had, Hc. split; [rewrite Had; set_solver|].
    assert (∀ k, connected (ZConnect a :: match on_connect_ k with Some h => [OnConnect h (topic_name_ k)]
                                          | None => [] end ++ es) = a :: connected es) as Hce.
    { intros k. by destruct (on_connect_ k). }
    cbn [app]. rewrite Hce. split.
    + apply NoDup_cons. split; [|done]. rewrite Hc. set_solver.
    + intros b. rewrite elem_of_cons, Hc. destruct (decide (b = a)); set_solver.
Qed.

Lemma disconnect_all_spec zok s news l :
  (∀ a, a ∈ l → a ∈ addresses_ s) →
  disconnect_all zok s news l =
  if decide (Forall (λ a, a ∈ news) l) then Ret (s, [], None) else Undef.
Proof.
  induction l as [|a l IH]; intros Hl; cbn [disconnect_all]; [by rewrite decide_True by constructor|].
  destruct (decide (a ∈ news)) as [Ha|Ha].
  - rewrite IH by set_solver. destruct (decide (Forall (λ a, a ∈ news) l)) as [Hf|Hf].
    + by rewrite decide_True by (by constructor).
    + rewrite decide_False; [done|]. by intros [_ ?]%Forall_cons.
  - unfold disconnect. rewrite decide_True by set_solver. rewrite decide_False; [done|].
    by intros [? _]%Forall_cons.
Qed.

(** ** Properties *)

(** C24. A client follows the directory as far as the code allows: a change of the topic's
    providers is handled without undefined behaviour exactly when every address the client
    is connected to is still listed; then it connects, once each, to the listed addresses it
    was not connected to and ends up connected to exactly the listed ones.  When an
    address disappears the loop disconnects through a reference into the set it erases
    from. *)
Theorem client_tracks_directory zok s m :
  (∀ a, a ∈ advertised m → zok a = true) →
  (defined (onDirectoryTopicsChanged zok s m) = true ↔ addresses_ s ⊆ advertised m) ∧
  (addresses_ s ⊆ advertised m →
   ∃ s' es, onDirectoryTopicsChanged zok s m = Ret (s', es, None) ∧
     addresses_ s' = advertised m ∧ NoDup (connected es) ∧
     ∀ a, a ∈ connected es ↔ a ∈ advertised m ∧ a ∉ addresses_ s).
Proof.
  intros Hok. unfold onDirectoryTopicsChanged. set (news := (λ e, dt_address e.2) <$> map_iter m).
  assert (∀ a, a ∈ news ↔ a ∈ advertised m) as Hn by (intros a; unfold advertised; by rewrite elem_of_list_to_set).
  destruct (connect_all_ok zok s news) as (s1 & es & -> & Had & Hnd & Hc); [naive_solver|].
  rewrite disconnect_all_spec by (intros a; by rewrite elem_of_set_iter).
  assert (Forall (λ a, a ∈ news) (set_iter (addresses_ s1)) ↔ addresses_ s ⊆ advertised m) as Hiff.
  { rewrite Forall_forall. setoid_rewrite elem_of_set_iter. rewrite Had.
    setoid_rewrite elem_of_union. setoid_rewrite elem_of_list_to_set. split.
    - intros Hf a Ha. apply Hn. apply Hf. by left.
    - intros Hs a [Ha|Ha]; [|done]. apply Hn. by apply Hs. }
  split.
  - destruct (decide (Forall (λ a, a ∈ news) (set_iter (addresses_ s1)))) as [Hf|Hf];
      simpl; [by rewrite <- Hiff|].
    split; [done|]. intros Hs. exfalso. by apply Hf, Hiff.
  - intros Hs. rewrite decide_True by (by apply Hiff). rewrite bind_Ret. do 2 eexists. split; [done|].
    rewrite app_nil_r, Had. split; [|split; [done|]].
    + apply set_eq. intros a. rewrite elem_of_union, elem_of_list_to_set, Hn. set_solver.
    + intros a. rewrite Hc, Hn. done.
Qed.

(** A failed connect is remembered as a connection: when ZeroMQ rejects an address, the
    exception leaves the address in the client's set, so later calls for it do nothing. *)
Theorem connect_failure_sticks zok s a :
  zok a = false → (a ∉ addresses_ s) →
  ∃ s', connect zok s a = (s', [ZConnect a], Some system_error) ∧ a ∈ addresses_ s' ∧
        connect zok s' a = (s', [], None).
Proof.
  intros Hz Ha. unfold connect at 1. rewrite decide_False by done. rewrite Hz. cbn [negb].
  eexists. split; [done|]. split; [simpl; set_solver|]. unfold connect.
  by rewrite decide_True by (simpl; set_solver).
Qed.

(** ** Witnesses *)
Definition demo_client : t := mk ∅ (Some 3) None "t" "Subscriber" "Subscriber [t]" "u" true.

Lemma client_tracks_directory_witness :
  ∃ s' es, onDirectoryTopicsChanged (λ _, true) demo_client
             {["g" := mkDirectoryTopic "t" 0 1 "tcp://10.0.0.1:1" ∅ ∅ "g" ""]} = Ret (s', es, None).
Proof.
  destruct (client_tracks_directory (λ _, true) demo_client
              {["g" := mkDirectoryTopic "t" 0 1 "tcp://10.0.0.1:1" ∅ ∅ "g" ""]}) as [_ H].
  - reflexivity.
  - destruct H as (s' & es & H & _); [apply empty_subseteq|]. exists s', es. exact H.
Defined.

Lemma connect_failure_sticks_witness :
  ∃ s', connect (λ _, false) demo_client "bad" = (s', [ZConnect "bad"], Some system_error).
Proof.
  destruct (connect_failure_sticks (λ _, false) demo_client "bad") as (s' & H & _).
  - reflexivity.
  - apply not_elem_of_empty.
  - exists s'. exact H.
Defined.

End Client.

(** ** [class RequestClient] *)
Module RequestClient.

Inductive error_code : Type :=
  | success
  | connection_already_in_progress
  | not_connected
  | send_error
  | timed_out.

Inductive req_effect : Type :=
  | RObserve (topic : string)
  | RUnobserve (topic ref : string)
  | ROpen
  | RConnect (address : string)
  | RDisconnect (address : string)
  | RClose
  | RSend (m : message_vector)
  | RReceive (error_handler : option nat)
  | RTimerExpires (seconds : Z)
  | RTimerWait (error_handler : option nat)
  | RTimerCancel
  | RReply (h : nat) (m : message_vector)
  | RError (h : nat) (e : error_code).

(** [socket_] says whether there is a socket. *)
Record t : Type := mk {
  topic_name_ : string;
  on_connect_ : option nat;
  on_disconnect_ : option nat;
  socket_ : bool;
  reply_handler_ : option nat;
  waiting_for_receive_ : bool;
  connected_topic_ : DirectoryTopic;
  topic_observer_ref_ : string
}.

Definition set_socket (s : t) (b : bool) (x : DirectoryTopic) : t :=
  mk (topic_name_ s) (on_connect_ s) (on_disconnect_ s) b (reply_handler_ s) (waiting_for_receive_ s) x
     (topic_observer_ref_ s).
Definition set_waiting (s : t) (b : bool) : t :=
  mk (topic_name_ s) (on_connect_ s) (on_disconnect_ s) (socket_ s) (reply_handler_ s) b (connected_topic_ s)
     (topic_observer_ref_ s).
Definition set_reply (s : t) (h : option nat) : t :=
  mk (topic_name_ s) (on_connect_ s) (on_disconnect_ s) (socket_ s) h (waiting_for_receive_ s)
     (connected_topic_ s) (topic_observer_ref_ s).

Definition no_topic : DirectoryTopic := mkDirectoryTopic "" 0 0 "" ∅ ∅ "" "".

(** A call that may throw: the state it leaves, its calls, and the exception; and one call after
    another, the second only if the first returns. *)
Definition result : Type := t * list req_effect * option exn.

Definition andthen (r : result) (k : t → result) : result :=
  match r with
  | (s, es, Some e) => (s, es, Some e)
  | (s, es, None) => let '(s', es', x) := k s in (s', es ++ es', x)
  end.

(** Calling a handler; an empty one throws. *)
Definition call (h : option nat) (f : nat → req_effect) (s : t) : result :=
  match h with
  | Some h => (s, [f h], None)
  | None => (s, [], Some (runtime_error "bad_function_call"))
  end.

(** The constructor; [ref] is what [directory.observe] returned. *)
Definition init (topic_name : string) (connect_handler disconnect_handler : option nat) (ref : string) : result :=
  (mk topic_name connect_handler disconnect_handler false None false no_topic ref, [RObserve topic_name], None).

Definition destroy (s : t) : list req_effect := [RUnobserve (topic_name_ s) (topic_observer_ref_ s)].

(** [NewestTopic]: the loop keeps the first topic with the largest timestamp. *)
Definition NewestTopic (m : gmap string DirectoryTopic) : outcome DirectoryTopic :=
  match map_iter m with
  | [] => Throw (runtime_error "Empty guid_topic_map")
  | first :: _ =>
      Ret (foldl (λ newest e, if (dt_timestamp newest <? dt_timestamp e.2)%Z then e.2 else newest)
                 first.2 (map_iter m))
  end.

Definition isConnected (s : t) : bool := socket_ s.

Definition cleanupRequest (s : t) : result := (set_waiting s false, [RTimerCancel], None).

(** [request].  [timeout] is the time-out in milliseconds (it is truncated to whole seconds),
    [sent] whether the send succeeded. *)
Definition request (s : t) (m : message_vector) (reply_handler : nat) (error_handler : option nat)
    (timeout : Z) (sent : bool) : t * list req_effect * error_code :=
  let s := set_reply s (Some reply_handler) in
  if waiting_for_receive_ s then (s, [], connection_already_in_progress)
  else if negb (isConnected s) then (s, [], not_connected)
  else if negb sent then (s, [RSend m], send_error)
  else
    let s := set_waiting s true in
    (s, [RSend m; RReceive error_handler] ++
        (if (0 <? timeout)%Z then [RTimerExpires (timeout / 1000); RTimerWait error_handler] else []),
     success).

Definition sendReplyToHandler (s : t) (m : message_vector) : result :=
  andthen (cleanupRequest s) (λ s, call (reply_handler_ s) (λ h, RReply h m) s).

Section with_zmq.
Context (zok : string → bool).

(** [disconnect]: ZeroMQ refuses to disconnect from what it did not connect to. *)
Definition disconnect (s : t) : result :=
  if negb (isConnected s) then (s, [], None)
  else
    let a := dt_address (connected_topic_ s) in
    if negb (zok a) then (s, [RDisconnect a], Some system_error)
    else (set_socket s false (connected_topic_ s), [RDisconnect a; RClose], None).

Definition connect (s : t) (topic : DirectoryTopic) : result :=
  if isConnected s && DirectoryTopic_eqb topic (connected_topic_ s) then (s, [], None)
  else
    andthen (if isConnected s then disconnect s else (s, [], None)) (λ s,
      (set_socket s true topic, [ROpen; RConnect (dt_address topic)],
       if zok (dt_address topic) then None else Some system_error)).

Definition reconnect (s : t) : result :=
  if negb (isConnected s) then (s, [], None)
  else
    let topic := connected_topic_ s in
    andthen (disconnect s) (λ s, connect s topic).

(** The handler of the time-out timer. *)
Definition timeout (s : t) (aborted : bool) (error_handler : option nat) : result :=
  if aborted then (s, [], None)
  else andthen (cleanupRequest s) (λ s, andthen (reconnect s) (λ s, call error_handler (λ h, RError h timed_out) s)).

Definition onDirectoryTopicsChanged (s : t) (m : gmap string DirectoryTopic) : outcome result :=
  if decide (m = ∅) then Ret (disconnect s)
  else x ← NewestTopic m; Ret (connect s x).

(** ** Histories *)

(** The client with what its environment holds for it: a receive pending on the current
    socket, a pending wait of the timer, and the waits that have completed but whose handlers
    have not run, which no [cancel] reaches any more. *)
Record sys : Type := Sys { client : t; rx : bool; tm : bool; late : nat }.

(** How calls change what is pending: a new socket has no receive pending, [cancel] and a new
    expiry end a wait. *)
Definition pend (p : bool * bool) (e : req_effect) : bool * bool :=
  let '(rx, tm) := p in
  match e with
  | ROpen | RClose => (false, tm)
  | RReceive _ => (true, tm)
  | RTimerExpires _ | RTimerCancel => (rx, false)
  | RTimerWait _ => (rx, true)
  | _ => (rx, tm)
  end.

Definition sys_after (y : sys) {A} (r : t * list req_effect * A) : sys :=
  let '(rx', tm') := foldl pend (rx y, tm y) r.1.2 in Sys r.1.1 rx' tm' (late y).

Inductive ev : Type :=
  | ERequest (m : message_vector) (h : nat) (eh : option nat) (timeout : Z) (sent : bool)
  | EReply (m : message_vector)
  | EExpiry
  | ETimer (aborted : bool) (eh : option nat)
  | ETopics (m : gmap string DirectoryTopic).

(** ZeroMQ sends a request only over a connection it accepted; a reply needs a pending receive
    (which it consumes); a wait completes when its time is up, and its handler runs any time
    after. *)
Inductive step : sys → ev → sys → Prop :=
  | step_request y m h eh d b :
      (b = true → zok (dt_address (connected_topic_ (client y))) = true) →
      step y (ERequest m h eh d b) (sys_after y (request (client y) m h eh d b))
  | step_reply y m :
      rx y = true →
      step y (EReply m) (sys_after (Sys (client y) false (tm y) (late y)) (sendReplyToHandler (client y) m))
  | step_expiry y : tm y = true → step y EExpiry (Sys (client y) (rx y) false (S (late y)))
  | step_timer y n eh :
      late y = S n →
      step y (ETimer false eh) (sys_after (Sys (client y) (rx y) (tm y) n) (timeout (client y) false eh))
  | step_aborted y eh : step y (ETimer true eh) y
  | step_topics y m r :
      onDirectoryTopicsChanged (client y) m = Ret r → step y (ETopics m) (sys_after y r).

Inductive reach (topic : string) : sys → Prop :=
  | reach_init ch dh ref : reach topic (Sys (init topic ch dh ref).1.1 false false 0)
  | reach_step y e y' : reach topic y → step y e y' → reach topic y'.

(** A pending receive belongs to an unanswered request on a connected socket. *)
Definition ok (y : sys) : Prop :=
  rx y = true → waiting_for_receive_ (client y) = true ∧ socket_ (client y) = true ∧
    zok (dt_address (connected_topic_ (client y))) = true.

(** Connected to an address that ZeroMQ refused. *)
Definition refused (s : t) : Prop := socket_ s = true ∧ zok (dt_address (connected_topic_ s)) = false.

(** Nothing that could end the wait is left. *)
Definition stuck (y : sys) : Prop :=
  waiting_for_receive_ (client y) = true ∧ rx y = false ∧ tm y = false ∧ late y = 0.

(** ** Lemmas *)

Lemma newest_fold l x :
  let r := foldl (λ newest (e : string * DirectoryTopic),
             if (dt_timestamp newest <? dt_timestamp e.2)%Z then e.2 else newest) x l in
  (r = x ∨ r ∈ l.*2) ∧ (dt_timestamp x <= dt_timestamp r)%Z ∧
  (∀ e, e ∈ l → (dt_timestamp e.2 <= dt_timestamp r)%Z).
Proof.
  revert x. induction l as [|e l IH]; intros x; simpl; [split; [by left|]; split; [lia|set_solver]|].
  destruct (IH (if (dt_timestamp x <? dt_timestamp e.2)%Z then e.2 else x)) as (H1 & H2 & H3).
  destruct (Z.ltb_spec (dt_timestamp x) (dt_timestamp e.2)).
  - split; [set_solver|]. split; [lia|]. intros e' [->|He']%elem_of_cons; [lia|auto].
  - split; [set_solver|]. split; [lia|]. intros e' [->|He']%elem_of_cons; [lia|auto].
Qed.

Lemma sys_after_andthen y s es k :
  sys_after y (andthen (s, es, None) k) = sys_after (sys_after y (s, es, @None exn)) (k s).
Proof.
  unfold sys_after. simpl. destruct (k s) as [[s' es'] x]. simpl. rewrite foldl_app.
  by destruct (foldl pend (rx y, tm y) es) as [rx' tm'].
Qed.

Lemma late_after y {A} (r : t * list req_effect * A) : late (sys_after y r) = late y.
Proof. unfold sys_after. by destruct (foldl pend _ _). Qed.

Lemma request_ok_inv y m h eh d b :
  ok y → (b = true → zok (dt_address (connected_topic_ (client y))) = true) →
  ok (sys_after y (request (client y) m h eh d b)).
Proof.
  destruct y as [[tn oc od so rh wt ct rf] r t' lt]. unfold ok, request, sys_after, isConnected. simpl.
  destruct wt, so, b, (0 <? d)%Z; simpl; naive_solver.
Qed.

(** The socket a client had is gone, or nothing happened. *)
Lemma disconnect_after y :
  sys_after y (disconnect (client y)) = y ∨
  sys_after y (disconnect (client y)) = Sys (set_socket (client y) false (connected_topic_ (client y))) false (tm y) (late y).
Proof.
  unfold disconnect, isConnected, sys_after. destruct y as [[tn oc od so rh wt ct rf] r t' lt]. simpl.
  destruct so; simpl; [|by left]. destruct (zok (dt_address ct)); simpl; [by right|by left].
Qed.

(** There is a new socket, or nothing happened. *)
Lemma connect_after y x :
  sys_after y (connect (client y) x) = y ∨
  sys_after y (connect (client y) x) = Sys (set_socket (client y) true x) false (tm y) (late y).
Proof.
  unfold connect, disconnect, isConnected, sys_after. destruct y as [[tn oc od so rh wt ct rf] r t' lt]. simpl.
  destruct so; simpl; [|by right]. destruct (DirectoryTopic_eqb x ct); simpl; [by left|].
  destruct (zok (dt_address ct)); simpl; [by right|by left].
Qed.

Lemma topics_after y m r :
  onDirectoryTopicsChanged (client y) m = Ret r →
  sys_after y r = y ∨ ∃ b x, sys_after y r = Sys (set_socket (client y) b x) false (tm y) (late y).
Proof.
  unfold onDirectoryTopicsChanged. case_decide.
  - intros [= <-]. destruct (disconnect_after y) as [->| ->]; [by left|right; by do 2 eexists].
  - intros (x & _ & [= <-])%bind_Ret_inv. destruct (connect_after y x) as [->| ->]; [by left|right; by do 2 eexists].
Qed.

(** After a time-out nothing is pending. *)
Lemma timeout_after y n eh :
  ok y → rx (sys_after (Sys (client y) (rx y) (tm y) n) (timeout (client y) false eh)) = false.
Proof.
  unfold ok, timeout, cleanupRequest, reconnect, connect, disconnect, call, isConnected, sys_after.
  destruct y as [[tn oc od so rh wt ct rf] r t' lt]. simpl.
  destruct so, r, (zok (dt_address ct)) eqn:E, eh; simpl; rewrite ?E; simpl; naive_solver.
Qed.

Lemma req_step_ok y e y' : ok y → step y e y' → ok y'.
Proof.
  intros Hok Hst. revert Hok. destruct Hst as [y0 m h eh d b Hb|y0 m Hr|y0 Ht|y0 n eh Ht|y0 eh|y0 m r Hs]; intros Hok.
  - by apply request_ok_inv.
  - unfold sendReplyToHandler, cleanupRequest, call, ok, sys_after. simpl.
    by destruct (reply_handler_ (client y0)).
  - exact Hok.
  - intros Hrx. by rewrite timeout_after in Hrx.
  - done.
  - by destruct (topics_after _ _ _ Hs) as [->|(b & x & ->)].
Qed.

Lemma reach_ok topic y : reach topic y → ok y.
Proof. induction 1 as [|y e y' _ IH Hs]; [done|]. by eapply req_step_ok. Qed.

Lemma stuck_step y e y' : stuck y → step y e y' → stuck y'.
Proof.
  intros (Hw & Hr & Ht & Hl) Hs. destruct Hs as [y0 m h eh d b _|y0 m Hr'|y0 Ht'|y0 n eh Ht'|y0 eh|y0 m r Hs].
  - unfold stuck, request, sys_after. simpl. rewrite Hw. simpl. by rewrite Hr, Ht.
  - congruence.
  - congruence.
  - congruence.
  - done.
  - destruct (topics_after _ _ _ Hs) as [->|(b & x & ->)]; [done|]. unfold stuck. simpl. by rewrite Hw, Ht, Hl.
Qed.

(** Nothing a refused client does gives up its socket. *)
Lemma refused_step y e y' :
  refused (client y) → step y e y' →
  refused (client y') ∧ connected_topic_ (client y') = connected_topic_ (client y).
Proof.
  intros [Hso Hz] Hs. destruct Hs as [y0 m h eh d b _|y0 m Hr'|y0 Ht'|y0 n eh Ht'|y0 eh|y0 m r Hs].
  - destruct y0 as [[tn oc od so rh wt ct rf] r t' lt]. revert Hso Hz. unfold refused, request, sys_after, isConnected.
    simpl. destruct wt, so, b, (0 <? d)%Z; simpl; naive_solver.
  - unfold sendReplyToHandler, cleanupRequest, call, refused, sys_after. simpl.
    by destruct (reply_handler_ (client y0)).
  - done.
  - unfold timeout, cleanupRequest, reconnect, disconnect, isConnected, refused, sys_after. simpl.
    rewrite Hso. simpl. by rewrite Hz.
  - done.
  - revert Hs. unfold onDirectoryTopicsChanged, connect, disconnect, isConnected. rewrite Hso, Hz. simpl.
    case_decide; [by intros [= <-]|]. intros (x & _ & [= <-])%bind_Ret_inv. by destruct (DirectoryTopic_eqb _ _).
Qed.

(** ** Properties *)

(** The newest provider is chosen: [NewestTopic] returns an entry of a non-empty map whose
    timestamp is largest, and throws exactly on the empty map. *)
Theorem NewestTopic_spec m :
  match NewestTopic m with
  | Ret x => (∃ g, m !! g = Some x) ∧ ∀ g y, m !! g = Some y → (dt_timestamp y <= dt_timestamp x)%Z
  | Throw _ => m = ∅
  | Undef => False
  end.
Proof.
  unfold NewestTopic. destruct (map_iter m) as [|[g0 x0] l] eqn:E; [by apply map_iter_nil|].
  rewrite <- E. cbn [snd].
  destruct (newest_fold (map_iter m) x0) as (H1 & _ & H3). split.
  - destruct H1 as [->|H1].
    + exists g0. apply elem_of_map_iter. rewrite E. set_solver.
    + apply list_elem_of_fmap in H1 as ([g x] & Hx & Hg). exists g. simpl in Hx. rewrite Hx.
      by apply elem_of_map_iter.
  - intros g y Hg. apply elem_of_map_iter in Hg. by apply (H3 (g, y)).
Qed.

(** C25. Strict alternation on the request socket: in every history a request is handed to ZeroMQ only
    when no reply is outstanding on that socket; a request while one is outstanding is refused
    with [connection_already_in_progress]. *)
Theorem request_alternates topic y m h eh d b :
  reach topic y →
  (rx y = true → (request (client y) m h eh d b).2 = connection_already_in_progress) ∧
  (RSend m ∈ (request (client y) m h eh d b).1.2 → rx y = false).
Proof.
  intros Hr%reach_ok. unfold request. simpl. split.
  - intros [Hw _]%Hr. by rewrite Hw.
  - intros Hin. destruct (rx y) eqn:E; [|done]. destruct (Hr E) as [Hw _].
    rewrite Hw in Hin. by apply not_elem_of_nil in Hin.
Qed.

(** A late time-out cuts the next request: the timer's wait has completed when the reply is handled,
    and the reply's handler makes the next request.  The time-out's handler then tears that
    request down: nothing is pending for it any more, so neither of its handlers is ever
    called, and only the error handler of the answered request is, with [timed_out]. *)
Theorem late_timeout_cuts_next y n m m' h eh eh' d :
  rx y = true → late y = S n → is_Some (reply_handler_ (client y)) → socket_ (client y) = true →
  zok (dt_address (connected_topic_ (client y))) = true →
  let y1 := sys_after (Sys (client y) false (tm y) (late y)) (sendReplyToHandler (client y) m) in
  let next := request (client y1) m' h (Some eh') d true in
  let y2 := sys_after y1 next in
  let fired := timeout (client y2) false (Some eh) in
  step y (EReply m) y1 ∧ step y1 (ERequest m' h (Some eh') d true) y2 ∧
  next.2 = success ∧ rx y2 = true ∧
  step y2 (ETimer false (Some eh)) (Sys fired.1.1 false false n) ∧
  waiting_for_receive_ fired.1.1 = false ∧
  fired.1.2 = [RTimerCancel; RDisconnect (dt_address (connected_topic_ (client y))); RClose; ROpen;
               RConnect (dt_address (connected_topic_ (client y))); RError eh timed_out].
Proof.
  intros Hrx Hl Hrh Hso Hz. cbv zeta.
  set (y1 := sys_after (Sys (client y) false (tm y) (late y)) (sendReplyToHandler (client y) m)).
  set (next := request (client y1) m' h (Some eh') d true). set (y2 := sys_after y1 next).
  assert (step y (EReply m) y1) as H1 by (by apply step_reply).
  assert (step y1 (ERequest m' h (Some eh') d true) y2) as H2.
  { apply step_request. intros _. unfold y1, sendReplyToHandler, cleanupRequest, call.
    destruct y as [[tn oc od so rh wt ct rf] r t' lt]. simpl in *. by destruct rh. }
  assert (late y2 = S n) as H3 by (unfold y2, y1; by rewrite !late_after).
  split; [exact H1|]. split; [exact H2|].
  pose proof (step_timer y2 n (Some eh) H3) as H4. revert H4. clear H1 H2 H3.
  unfold y2, next, y1. destruct y as [[tn oc od so rh wt ct rf] r t' lt]. simpl in *.
  destruct rh as [g|]; [|by destruct Hrh]. subst so.
  unfold sendReplyToHandler, cleanupRequest, call, request, isConnected, timeout, reconnect, connect, disconnect, sys_after.
  destruct (0 <? d)%Z; cbn; rewrite Hz; cbn; intros H4; by split_and!.
Qed.

(** Losing the server during a request without time-out wedges the client: once waiting with
    neither a receive nor a timer pending, every later request is refused, whatever happens. *)
Theorem request_wedged y y' m h eh d b :
  rtc (λ a c, ∃ e, step a e c) y y' → stuck y →
  (request (client y') m h eh d b).2 = connection_already_in_progress.
Proof.
  intros Hrtc Hs. assert (stuck y') as (Hw & _).
  { induction Hrtc as [|a c z [e Hac] _ IH]; [done|]. apply IH. by eapply stuck_step. }
  unfold request. simpl. by rewrite Hw.
Qed.

(** A refused request steals the reply: [request] stores its reply handler before it checks for an
    outstanding request, so the outstanding reply goes to the handler of the refused one. *)
Theorem refused_request_steals_reply s m h eh d b m' :
  waiting_for_receive_ s = true →
  (request s m h eh d b).2 = connection_already_in_progress ∧
  (sendReplyToHandler (request s m h eh d b).1.1 m').1.2 = [RTimerCancel; RReply h m'].
Proof. intros Hw. unfold request. simpl. by rewrite Hw. Qed.

(** A time-out below a second, in whole seconds, is none: the timer expires at once. *)
Theorem short_timeout_expires_at_once s m h eh timeout :
  waiting_for_receive_ s = false → isConnected s = true → (0 < timeout < 1000)%Z →
  (request s m h eh timeout true).1.2 = [RSend m; RReceive eh; RTimerExpires 0; RTimerWait eh].
Proof.
  intros Hw Hc Ht. unfold request. simpl. rewrite Hw. unfold isConnected in Hc. simpl. rewrite Hc. simpl.
  rewrite (proj2 (Z.ltb_lt _ _)) by lia. by rewrite Z.div_small by lia.
Qed.

(** A provider whose address ZeroMQ refuses is held on to for ever: [connect] makes the socket
    before it throws, and giving it up throws too, so whatever happens, no other provider is
    connected to, and each change of the topics to one throws. *)
Theorem refused_provider_sticks y y' m r :
  refused (client y) → rtc (λ a c, ∃ e, step a e c) y y' → onDirectoryTopicsChanged (client y') m = Ret r →
  (ROpen ∉ r.1.2) ∧ connected_topic_ r.1.1 = connected_topic_ (client y) ∧
  (r.2 = Some system_error ∨ NewestTopic m = Ret (connected_topic_ (client y))).
Proof.
  intros Hy Hrtc. assert (refused (client y') ∧ connected_topic_ (client y') = connected_topic_ (client y))
    as [[Hso Hz] <-].
  { induction Hrtc as [|a c z [e Hac] _ IH]; [done|]. destruct (refused_step _ _ _ Hy Hac) as [Hc Hct].
    destruct (IH Hc) as [Hz Hzt]. by rewrite Hzt, Hct. }
  unfold onDirectoryTopicsChanged, connect, disconnect, isConnected. rewrite Hso, Hz. simpl.
  case_decide; [intros [= <-]; split; [set_solver|auto]|]. intros (x & Hx & [= <-])%bind_Ret_inv.
  destruct (DirectoryTopic_eqb x _) eqn:E; simpl; (split; [set_solver|]); (split; [done|]); [right|by left].
  apply DirectoryTopic_eqb_spec in E. by rewrite Hx, E.
Qed.

End with_zmq.

(** ** Witnesses *)
Definition demo_topic : DirectoryTopic := mkDirectoryTopic "s" 1 4 "tcp://10.0.0.9:1" ∅ ∅ "g" "".
Definition demo_at (x : DirectoryTopic) (socket waiting : bool) : t :=
  mk "s" None None socket (if waiting then Some 1 else None) waiting x "u".

Definition demo_up : sys := Sys (demo_at demo_topic true false) false false 0.
Definition demo_waiting : sys := Sys (demo_at demo_topic true true) true false 0.
Definition demo_lost : sys := Sys (demo_at demo_topic false true) false false 0.
Definition demo_all (_ : string) : bool := true.

Lemma demo_reach : reach demo_all "s" demo_waiting.
Proof.
  apply (reach_step _ _ demo_up (ERequest [] 1 None 0 true)).
  - apply (reach_step _ _ (Sys (init "s" None None "u").1.1 false false 0) (ETopics {["g" := demo_topic]}));
      [apply reach_init|].
    apply (step_topics demo_all (Sys (init "s" None None "u").1.1 false false 0) {["g" := demo_topic]}
             (demo_at demo_topic true false, [ROpen; RConnect "tcp://10.0.0.9:1"], None)).
    vm_compute. reflexivity.
  - by apply (step_request demo_all demo_up [] 1 None 0 true).
Qed.

Lemma request_alternates_witness :
  (request (client demo_waiting) [] 2 None 0 true).2 = connection_already_in_progress.
Proof.
  destruct (request_alternates demo_all "s" demo_waiting [] 2 None 0 true demo_reach) as [H _].
  apply H. reflexivity.
Defined.

Lemma request_wedged_witness :
  step demo_all demo_waiting (ETopics ∅) demo_lost ∧
  (request (client demo_lost) [] 2 None 0 true).2 = connection_already_in_progress.
Proof.
  split.
  - apply (step_topics demo_all demo_waiting ∅
             (demo_at demo_topic false true, [RDisconnect "tcp://10.0.0.9:1"; RClose], None)).
    vm_compute. reflexivity.
  - apply (request_wedged demo_all demo_lost demo_lost); [apply rtc_refl|].
    split_and!; reflexivity.
Defined.

Lemma refused_request_steals_reply_witness :
  (sendReplyToHandler (request (client demo_waiting) [] 2 None 0 true).1.1 []).1.2 = [RTimerCancel; RReply 2 []].
Proof.
  destruct (refused_request_steals_reply (client demo_waiting) [] 2 None 0 true []) as [_ H];
    [reflexivity|exact H].
Defined.

Lemma late_timeout_cuts_next_witness :
  ∃ y2 s', rx y2 = true ∧ step demo_all y2 (ETimer false (Some 9)) s' ∧ rx s' = false ∧ tm s' = false.
Proof.
  destruct (late_timeout_cuts_next demo_all (Sys (demo_at demo_topic true true) true true 1) 0 [] [] 2 9 8 2000)
    as (_ & _ & _ & Hrx & Hs & _); [reflexivity|reflexivity|by eexists|reflexivity|reflexivity|].
  do 2 eexists. split; [exact Hrx|]. split; [exact Hs|]. split; reflexivity.
Defined.

Lemma refused_provider_sticks_witness :
  ∃ s' es, onDirectoryTopicsChanged (λ a, bool_decide (a ≠ "bad")) (demo_at (mkDirectoryTopic "s" 1 4 "bad" ∅ ∅ "g" "") true false)
             {["g" := demo_topic]} = Ret (s', es, Some system_error) ∧ ROpen ∉ es.
Proof.
  destruct (refused_provider_sticks (λ a, bool_decide (a ≠ "bad"))
              (Sys (demo_at (mkDirectoryTopic "s" 1 4 "bad" ∅ ∅ "g" "") true false) false false 0)
              (Sys (demo_at (mkDirectoryTopic "s" 1 4 "bad" ∅ ∅ "g" "") true false) false false 0)
              {["g" := demo_topic]}
              (demo_at (mkDirectoryTopic "s" 1 4 "bad" ∅ ∅ "g" "") true false, [RDisconnect "bad"], Some system_error))
    as (H & _).
  - split; reflexivity.
  - apply rtc_refl.
  - vm_compute. reflexivity.
  - do 2 eexists. split; [vm_compute; reflexivity|exact H].
Defined.

End RequestClient.
