(* ===== verification/Server.v ===== *)
(** * Server sockets and subscriptions (src/a17/dispatch/server.h, server.cpp,
      publisher.h, subscriber.h, subscriber.cpp, sub_server.h, sub_server.cpp)

    A [Server] binds its ZeroMQ socket and advertises it through the directory until it is
    destroyed.  The ZeroMQ socket is outside the program: [zbind a] is [None] when binding
    to [a] throws, otherwise the last endpoint reported afterwards ([None] when that query
    fails, which leaves the local buffer unset).  The subscriptions a subscriber sets are
    returned as the list of prefixes. *)

From S2P Require Import Prelude BufferPool Address Topics TopicStore Wire Directory Discovery Protocol.
From S2P Require Import Messaging Client.

Module Server.
Import Discovery(malloc_fresh).

Record t : Type := mk {
  topic_name_ : string;
  address_ : string;
  on_destroy_ : bool;
  log_name_ : string
}.

Section with_zmq.
Context (zbind : string → option (option string)) (sys : gset Z → Z) (fresh : list ascii).

Definition bind (s : t) (address : string) : outcome t :=
  match zbind address with
  | None => Throw system_error
  | Some None => Undef
  | Some (Some addr) =>
      Ret (mk (topic_name_ s) (if decide (addr ≠ address) then addr else address)
              (on_destroy_ s) (log_name_ s))
  end.

(** [unbind]: the address handed to ZeroMQ, if any. *)
Definition unbind (s : t) : option string := if decide (address_ s = "") then None else Some (address_ s).

(** The move constructor: the new server, and what is left of the old one. *)
Definition move (s : t) : t * t :=
  (mk "" (address_ s) false (log_name_ s), mk (topic_name_ s) "" (on_destroy_ s) "").

(** The constructor that advertises through a directory. *)
Definition of_directory (className : string) (d : Directory.t) (now : Z) (topicName : string)
    (socketType : Z) (inputTypes outputTypes : gset string) (address : Address.t)
    : outcome (t * Directory.t) :=
  let s := mk topicName "" false (className +:+ " [" +:+ topicName +:+ "]") in
  let '(port, d) := Directory.nextServerPort d in
  let address := if (port =? 0)%Z then address else Address.setPort address port in
  s ← match bind s (Address.address address) with
      | Throw system_error =>
          if (port =? 0)%Z then Throw system_error
          else bind s (Address.address (Address.setPort address 0))
      | r => r
      end;
  '(_, d) ← Directory.add sys fresh d now topicName socketType (address_ s) inputTypes outputTypes
              (Directory.my_guid_ d);
  Ret (mk (topic_name_ s) (address_ s) true (log_name_ s), d).

(** The constructor that only binds. *)
Definition of_address (className address : string) : outcome t :=
  s ← bind (mk "" "" false className) address;
  Ret (mk (topic_name_ s) (address_ s) (on_destroy_ s) (log_name_ s +:+ "(" +:+ address_ s +:+ ")")).

Definition destroy (s : t) (d : Directory.t) : outcome Directory.t :=
  if on_destroy_ s then Directory.remove sys fresh d (topic_name_ s) else Ret d.

Definition isBound (s : t) : bool := bool_decide (address_ s ≠ "").

(** [Publisher]: its two constructors. *)
Definition publisher (d : Directory.t) (now : Z) (topic : string) (outputTypes : gset string)
    (address : Address.t) : outcome (t * Directory.t) :=
  of_directory "Publisher" d now topic SocketTypes.ZMQ_PUB ∅ outputTypes address.
Definition publisher_at (address : string) : outcome t := of_address "Publisher" address.

(** [ReplyServer]: its two constructors; [handler] is the application's request handler and
    [self] the server's own. *)
Definition reply_server (d : Directory.t) (now : Z) (topic : string) (inputTypes outputTypes : gset string)
    (self handler : nat) (error : option nat) (address : Address.t)
    : outcome (t * Directory.t * (ReplyServer.t * (Socket.t * list sock_effect))) :=
  '(s, d) ← of_directory "ReplyServer" d now topic SocketTypes.ZMQ_REP inputTypes outputTypes address;
  Ret (s, d, ReplyServer.init (Socket.init "ReplyServer") self handler error).
Definition reply_server_at (address : string) (self handler : nat) (error : option nat)
    : outcome (t * (ReplyServer.t * (Socket.t * list sock_effect))) :=
  s ← of_address "ReplyServer" address;
  Ret (s, ReplyServer.init (Socket.init "ReplyServer") self handler error).

(** [SubServer]: its two constructors, before the listener and the filters. *)
Definition sub_server (d : Directory.t) (now : Z) (topic : string) (inputTypes : gset string)
    (address : Address.t) : outcome (t * Directory.t) :=
  of_directory "SubServer" d now topic SocketTypes.ZMQ_SUB inputTypes ∅ address.
Definition sub_server_at (address : string) : outcome t := of_address "SubServer" address.

End with_zmq.

(** ** Subscriptions *)

(** [std::stoull(text, 0, 0)]: white space, an optional sign, then hexadecimal after [0x],
    octal after [0], decimal otherwise. *)
Definition hex_val (c : ascii) : option Z :=
  let n := Z.of_N (N_of_ascii c) in
  if (48 <=? n)%Z && (n <=? 57)%Z then Some (n - 48)%Z
  else if (97 <=? n)%Z && (n <=? 102)%Z then Some (n - 87)%Z
  else if (65 <=? n)%Z && (n <=? 70)%Z then Some (n - 55)%Z
  else None.

Definition digit_in (base : Z) (c : ascii) : option Z :=
  match hex_val c with Some d => if (d <? base)%Z then Some d else None | None => None end.

(** The longest run of digits: its value, and whether there was a digit. *)
Fixpoint digits (base acc : Z) (any : bool) (l : list ascii) : Z * bool :=
  match l with
  | [] => (acc, any)
  | c :: l' =>
      match digit_in base c with
      | Some d => digits base (acc * base + d)%Z true l'
      | None => (acc, any)
      end
  end.

Definition unsigned_text (l : list ascii) : Z * bool :=
  match l with
  | "0"%char :: x :: c :: l' =>
      if bool_decide (x = "x"%char ∨ x = "X"%char) && bool_decide (is_Some (digit_in 16 c))
      then digits 16 0 false (c :: l')
      else digits 8 0 false l
  | "0"%char :: _ => digits 8 0 false l
  | _ => digits 10 0 false l
  end.

Definition stoull (text : string) : outcome Z :=
  let l := drop_while isspace (chars (c_str text)) in
  let '(neg, l) := match l with
                   | "-"%char :: l' => (true, l')
                   | "+"%char :: l' => (false, l')
                   | _ => (false, l)
                   end in
  let '(v, any) := unsigned_text l in
  if negb any then Throw (invalid_argument "stoull")
  else if (2 ^ 64 <=? v)%Z then Throw (out_of_range "stoull")
  else Ret (if neg : bool then u64 (- v) else v).

(** [Subscriber::applyFilters]: the prefixes subscribed (an id as its eight bytes in memory,
    little endian), until an exception. *)
Fixpoint subscriber_filters (filters : list string) : outcome (list (list ascii)) :=
  match filters with
  | [] => Ret []
  | f :: filters' =>
      p ← (if decide (f ≠ "") then id ← stoull f; Ret (le_bytes 8 id) else Ret []);
      rest ← subscriber_filters filters';
      Ret (p :: rest)
  end.

Definition Subscriber_applyFilters (filters_ : gset string) : outcome (list (list ascii)) :=
  subscriber_filters (set_iter filters_).

(** [Subscriber]: the client, the listener and the subscriptions its two constructors set up;
    [ref] is what observing the topic returned. *)
Definition subscriber (publisherTopic ref : string) (handler self : nat) (error : option nat)
    (filters : gset string)
    : outcome (Client.result * (Listener.t * (Socket.t * list sock_effect)) * list (list ascii)) :=
  subscriptions ← Subscriber_applyFilters filters;
  Ret (Client.of_directory "Subscriber" publisherTopic None None ref,
       Listener.init (Socket.init "Subscriber") handler error self, subscriptions).

Definition subscriber_at (zok : string → bool) (publisherAddress : string) (handler self : nat)
    (error : option nat) (filters : gset string)
    : outcome (Client.result * (Listener.t * (Socket.t * list sock_effect)) * list (list ascii)) :=
  let '(c, es, x) := Client.of_address zok "Subscriber" publisherAddress in
  match x with
  | Some e => Throw e
  | None =>
      subscriptions ← Subscriber_applyFilters filters;
      Ret ((c, es, x), Listener.init (Socket.init "Subscriber") handler error self, subscriptions)
  end.

(** [SubServer::applyFilters]: the text itself. *)
Definition SubServer_applyFilters (filters_ : gset string) : list (list ascii) :=
  chars <$> set_iter filters_.

(** ** Lemmas *)

Lemma digits_dec l acc any :
  Forall (λ c, isdigit c = true) l →
  digits 10 acc any l = (foldl (λ a c, a * 10 + digit_val c)%Z acc l, any || negb (bool_decide (l = []))).
Proof.
  intros Hl. revert acc any. induction Hl as [|c l Hc Hl IH]; intros acc any; [by rewrite orb_false_r|].
  cbn [digits foldl]. unfold isdigit in Hc. apply andb_true_iff in Hc as [H1 H2].
  assert (digit_in 10 c = Some (digit_val c)) as ->.
  { unfold digit_in, hex_val, digit_val. rewrite H1, H2. simpl.
    destruct (Z.ltb_spec (Z.of_N (N_of_ascii c) - 48) 10); [done|]. lia. }
  rewrite IH. simpl. by rewrite orb_true_r.
Qed.

Lemma to_string_head n : (0 < n)%Z → head (chars (to_string n)) ≠ Some "0"%char.
Proof.
  intros Hn. unfold to_string. rewrite chars_str.
  assert (∀ fuel m acc, (0 < m)%Z → (0 < fuel) → (m < 2 ^ Z.of_nat fuel)%Z →
            head (dec_digits fuel m acc) ≠ Some "0"%char) as Hd.
  { induction fuel as [|fuel IH]; [lia|]. intros m acc Hm _ Hlt. cbn [dec_digits].
    destruct (Z.ltb_spec m 10).
    - simpl. intros [= Hz]. apply (f_equal (λ c, Z.of_N (N_of_ascii c))) in Hz.
      rewrite N_of_digit in Hz by lia. vm_compute (Z.of_N (N_of_ascii "0")) in Hz. lia.
    - rewrite Nat2Z.inj_succ, Z.pow_succ_r in Hlt by lia.
      assert (0 < fuel) by (destruct fuel; [simpl in Hlt; lia|lia]).
      apply IH; [|done|apply Z.div_lt_upper_bound; lia]. apply Z.div_str_pos. lia. }
  apply Hd; [done|lia|]. rewrite Nat2Z.inj_succ, Z2Nat.id by apply Z.log2_nonneg.
  apply Z.log2_spec. done.
Qed.

Lemma unsigned_text_to_string n :
  (0 <= n)%Z → unsigned_text (chars (to_string n)) = (n, true).
Proof.
  intros Hn. destruct (decide (n = 0)%Z) as [->|Hne]; [vm_compute; reflexivity|].
  destruct (to_string_spec n Hn) as (Hd & Hnil & Hv). pose proof (to_string_head n ltac:(lia)) as Hh.
  assert (unsigned_text (chars (to_string n)) = digits 10 0 false (chars (to_string n))) as ->.
  { destruct (chars (to_string n)) as [|c l]; [done|]. simpl in Hh.
    unfold unsigned_text. destruct c as [[] [] [] [] [] [] [] []]; try done. }
  rewrite digits_dec by done. rewrite bool_decide_eq_false_2 by done. by rewrite <- Hv at 2.
Qed.

(** The endpoint a server ends up bound to: the directory's next port if it has one, a
    port of the system's choice if that fails. *)
Definition endpoint (zbind : string → option (option string)) (d : Directory.t) (a : Address.t)
    : option (option string) :=
  if (Directory.nextServerPort_ d =? 0)%Z then zbind (Address.address a)
  else
    match zbind (Address.address (Address.setPort a (Directory.nextServerPort_ d))) with
    | None => zbind (Address.address (Address.setPort a 0))
    | r => r
    end.

Lemma bind_endpoint zbind s a ep :
  zbind a = Some (Some ep) → bind zbind s a = Ret (mk (topic_name_ s) ep (on_destroy_ s) (log_name_ s)).
Proof. intros H. unfold bind. rewrite H. destruct (decide (ep ≠ a)) as [|Hd]; [done|]. by apply dec_stable in Hd as ->. Qed.

Lemma inv_nextServerPort lo hi d :
  Discovery.inv lo hi d → Discovery.inv lo hi (Directory.nextServerPort d).2.
Proof.
  intros [H1 [l H2] H3 H4 H5 H6 H7]. unfold Directory.nextServerPort.
  destruct (_ =? _)%Z; split; try done; [by exists l|].
  exists l. by eapply Discovery.heap_ok_ext; [..|exact H2].
Qed.

Lemma nextServerPort_frame d :
  Directory.topics_ (Directory.nextServerPort d).2 = Directory.topics_ d ∧
  Directory.my_guid_ (Directory.nextServerPort d).2 = Directory.my_guid_ d ∧
  Directory.calls (Directory.nextServerPort d).2 = Directory.calls d.
Proof. unfold Directory.nextServerPort. by destruct (_ =? _)%Z. Qed.

(** The constructor once the endpoint is known. *)
Lemma of_directory_bound zbind sys fresh c d now n ty ins outs a ep :
  endpoint zbind d a = Some (Some ep) →
  of_directory zbind sys fresh c d now n ty ins outs a =
  ('(_, d') ← Directory.add sys fresh (Directory.nextServerPort d).2 now n ty ep ins outs
               (Directory.my_guid_ d);
   Ret (mk n ep true (c +:+ " [" +:+ n +:+ "]"), d')).
Proof.
  unfold endpoint, of_directory. destruct (nextServerPort_frame d) as (_ & Hg & _).
  unfold Directory.nextServerPort in *. destruct (Z.eqb_spec (Directory.nextServerPort_ d) 0) as [Hp|Hp].
  - intros He. cbn [Z.eqb]. rewrite (bind_endpoint _ _ _ _ He). done.
  - destruct (Z.eqb_spec (Directory.nextServerPort_ d) 0); [done|].
    destruct (zbind (Address.address (Address.setPort a (Directory.nextServerPort_ d)))) as [r|] eqn:E1.
    + intros [= ->]. rewrite (bind_endpoint _ _ _ _ E1). done.
    + intros He. unfold bind at 1. rewrite E1.
      assert (Address.setPort (Address.setPort a (Directory.nextServerPort_ d)) 0 = Address.setPort a 0) as -> by done.
      rewrite (bind_endpoint _ _ _ _ He). done.
Qed.

(** The constructor advertises the server at the endpoint it is bound to. *)
Lemma of_directory_ok zbind sys fresh lo hi c d now n ty ins outs a ep :
  malloc_fresh sys lo hi → length fresh = EVENT_BUFFER_SIZE → Discovery.inv lo hi d →
  endpoint zbind d a = Some (Some ep) →
  Discovery.admissible d (Discovery.Add now n ty ep ins outs) →
  TopicStore.local_topics_ (Directory.topics_ d) !! n = None →
  ∃ d1 info ns,
    of_directory zbind sys fresh c d now n ty ins outs a = Ret (mk n ep true (c +:+ " [" +:+ n +:+ "]"), d1) ∧
    buildTopicInfo n ty ep ins outs = Ret info ∧
    length (Directory.message (Directory.my_guid_ d) DISCOVERY_AVAILABLE info) < EVENT_BUFFER_SIZE ∧
    TopicStore.add (Directory.topics_ d) (mkDirectoryTopic n now ty ep ins outs (Directory.my_guid_ d) info)
      = Ret (true, Directory.topics_ d1, ns) ∧
    Discovery.inv lo hi d1 ∧ Directory.my_guid_ d1 = Directory.my_guid_ d ∧
    Discovery.sent_between d d1 [Directory.message (Directory.my_guid_ d) DISCOVERY_AVAILABLE info].
Proof.
  intros Hsys Hfr Hi He (info & Hinfo & Hf1 & Hf2) Hloc.
  rewrite (of_directory_bound _ _ _ _ _ _ _ _ _ _ _ _ He).
  pose proof (inv_nextServerPort _ _ _ Hi) as Hi0.
  destruct (nextServerPort_frame d) as (Ht & Hg & Hc). set (d0 := (Directory.nextServerPort d).2) in *.
  pose proof (Discovery.add_own_ok sys fresh lo hi Hsys Hfr d0 now n ty ep ins outs info Hi0 Hinfo) as Hadd.
  rewrite Hg, Ht, Hloc in Hadd.
  destruct (Hadd Hf1 Hf2) as (st & ns & d1 & Hst & Had & Hi1 & _ & Hs1). clear Hadd.
  pose proof (Discovery.sends_guid _ _ _ _ Hs1) as Hg1. pose proof (Discovery.sends_topics _ _ _ _ Hs1) as Ht1.
  cbn in Hg1, Ht1. exists d1, info, ns. rewrite Had, bind_Ret, Ht1, Hg1. split_and!; try done.
  destruct (Discovery.sends_between _ _ _ _ Hs1) as (es & Hce & Hd). cbn in Hce.
  exists ((Directory.Handler <$> ns) ++ es). rewrite Hce, Hc, <- app_assoc. split; [done|].
  by rewrite Discovery.datagrams_app, Discovery.datagrams_handlers, Hd.
Qed.

(** Removing a topic that was just added restores the table. *)
Lemma add_remove_table lo hi d x st ns :
  Discovery.inv lo hi d → dt_guid x = Directory.my_guid_ d →
  TopicStore.local_topics_ (Directory.topics_ d) !! dt_name x = None →
  TopicStore.add (Directory.topics_ d) x = Ret (true, st, ns) →
  TopicStore.findLocal st (dt_name x) = Some x ∧
  TopicStore.table (TopicStore.remove st (dt_guid x) (dt_name x)).1.2 = TopicStore.table (Directory.topics_ d) ∧
  TopicStore.table st !! (dt_name x, dt_guid x) = Some x.
Proof.
  intros Hi Hg Hloc Hst. pose proof (TopicStore.reach_wf _ _ (Discovery.inv_store _ _ _ Hi)) as [Hwf Hm].
  pose proof (Discovery.store_add_frame _ _ _ _ _ Hst) as (_ & Hl & Hb). rewrite <- Hb in Hl.
  assert (TopicStore.table (Directory.topics_ d) !! (dt_name x, dt_guid x) = None) as Hnone.
  { by rewrite TopicStore.table_lookup, Hg, <- Hm, <- (TopicStore.wf_local _ Hwf). }
  assert (TopicStore.table st = <[(dt_name x, dt_guid x) := x]> (TopicStore.table (Directory.topics_ d))) as Htab.
  { rewrite (TopicStore.add_table _ _ _ _ _ Hst). unfold TopicStore.spec_add. by rewrite Hnone. }
  split; [unfold TopicStore.findLocal; rewrite Hl; apply lookup_insert_eq|].
  rewrite TopicStore.remove_table, Htab. split; [by apply delete_insert_id|apply lookup_insert_eq].
Qed.

Lemma filter_cases f :
  f ≠ "" →
  (∃ p, subscriber_filters (merge_sort String.le (elements ({[f]} : gset string))) = Ret [p] ∧ length p = 8) ∨
  (∃ e, subscriber_filters (merge_sort String.le (elements ({[f]} : gset string))) = Throw e).
Proof.
  intros Hf. rewrite elements_singleton. change (merge_sort String.le [f]) with [f].
  cbn [subscriber_filters]. rewrite decide_True by done.
  destruct (stoull f) as [id|e|] eqn:E; [left|right|].
  - exists (le_bytes 8 id). split; [done|apply length_le_bytes].
  - by exists e.
  - exfalso. revert E. unfold stoull. destruct (match drop_while _ _ with [] => _ | _ => _ end) as [neg l].
    destruct (unsigned_text l) as [v any]. destruct any; [|done]. simpl. by destruct (Z.leb _ _).
Qed.

(** ** Properties *)

(** C20. The life of a server: constructed, it is bound (to the directory's next port, or, when
    that port is taken, to one the system picks) and advertised under its topic with the
    endpoint it is bound to; destroyed, the directory is as before, and the network has been
    told of both. *)
Theorem server_lifecycle zbind sys fresh lo hi c d now n ty ins outs a ep :
  malloc_fresh sys lo hi → length fresh = EVENT_BUFFER_SIZE → Discovery.inv lo hi d →
  endpoint zbind d a = Some (Some ep) →
  Discovery.admissible d (Discovery.Add now n ty ep ins outs) →
  TopicStore.local_topics_ (Directory.topics_ d) !! n = None →
  ∃ s d1 d2 x info,
    of_directory zbind sys fresh c d now n ty ins outs a = Ret (s, d1) ∧ address_ s = ep ∧
    TopicStore.findLocal (Directory.topics_ d1) n = Some x ∧ dt_address x = ep ∧ dt_info x = info ∧
    destroy sys fresh s d1 = Ret d2 ∧
    TopicStore.table (Directory.topics_ d2) = TopicStore.table (Directory.topics_ d) ∧
    Discovery.sent_between d d2
      [Directory.message (Directory.my_guid_ d) DISCOVERY_AVAILABLE info;
       Directory.message (Directory.my_guid_ d) DISCOVERY_REMOVE n].
Proof.
  intros Hsys Hfr Hi He Hadm Hloc.
  destruct (of_directory_ok zbind sys fresh lo hi c d now n ty ins outs a ep Hsys Hfr Hi He Hadm Hloc)
    as (d1 & info & ns & -> & Hinfo & _ & Hst & Hi1 & Hg1 & es1 & Hc1 & Hd1).
  set (x := mkDirectoryTopic n now ty ep ins outs (Directory.my_guid_ d) info) in *.
  destruct (add_remove_table _ _ _ x _ _ Hi eq_refl Hloc Hst) as (Hfind & Htab & Hrow). cbn [dt_name dt_guid x] in *.
  destruct (Discovery.remove_own_ok sys fresh lo hi Hsys Hfr d1 n Hi1) as (d2 & Hrm & Hi2 & _ & Hs2).
  pose proof (TopicStore.reach_wf _ _ (Discovery.inv_store _ _ _ Hi1)) as [Hwf1 Hm1].
  pose proof (TopicStore.removed_flag (Directory.topics_ d1) (Directory.my_guid_ d) n Hwf1) as Hflag.
  rewrite Hm1, Hg1, Hrow, !bool_decide_eq_true_2 in Hflag by eauto.
  rewrite Hg1 in Hs2. destruct (TopicStore.remove (Directory.topics_ d1) (Directory.my_guid_ d) n) as [[mine st2] ns2].
  simpl in Htab, Hflag. subst mine. pose proof (Discovery.sends_topics _ _ _ _ Hs2) as Ht2. cbn in Ht2.
  exists (mk n ep true (c +:+ " [" +:+ n +:+ "]")), d1, d2, x, info. split_and!; try done; [by rewrite Ht2|].
  destruct (Discovery.sends_between _ _ _ _ Hs2) as (es2 & Hc2 & Hd2). cbn in Hc2.
  exists (es1 ++ (Directory.Handler <$> ns2) ++ es2). split; [by rewrite Hc2, Hc1, <- !app_assoc|].
  by rewrite !Discovery.datagrams_app, Discovery.datagrams_handlers, Hd1, Hd2.
Qed.

(** A moved server is withdrawn by the wrong object: destroying what is left of the old server
    removes the topic while the new server is still bound, and destroying the new one does
    not remove it. *)
Theorem moved_server_withdrawn sys fresh s d :
  on_destroy_ s = true →
  address_ (move s).1 = address_ s ∧ destroy sys fresh (move s).1 d = Ret d ∧
  destroy sys fresh (move s).2 d = Directory.remove sys fresh d (topic_name_ s).
Proof. intros Hd. unfold destroy, move. cbn. by rewrite Hd. Qed.

(** A subscription filter written as the decimal text of a message id subscribes to exactly the
    eight bytes that id has at the front of a message; any other non-empty filter subscribes
    to some eight-byte prefix or is refused with an exception, never to everything. *)
Theorem filter_subscribes_id n :
  (0 <= n < 2 ^ 64)%Z →
  Subscriber_applyFilters {[to_string n]} = Ret [le_bytes 8 n] ∧
  (∀ f, f ≠ "" → (∃ p, Subscriber_applyFilters {[f]} = Ret [p] ∧ length p = 8) ∨
                 (∃ e, Subscriber_applyFilters {[f]} = Throw e)).
Proof.
  intros Hn. unfold Subscriber_applyFilters, set_iter. split; [|apply filter_cases].
  rewrite elements_singleton. change (merge_sort String.le [to_string n]) with [to_string n].
  destruct (to_string_spec n ltac:(lia)) as (Hd & Hnil & Hv).
  cbn [subscriber_filters]. rewrite decide_True by (intros Hx; by rewrite Hx in Hnil).
  assert (stoull (to_string n) = Ret n) as ->; [|done].
  unfold stoull. rewrite c_str_nul_free by (apply nul_free_spec, to_string_no; [lia|done]).
  destruct (chars (to_string n)) as [|c l] eqn:Ec; [done|]. apply Forall_cons in Hd as [Hc _].
  assert (drop_while isspace (c :: l) = c :: l) as ->.
  { apply drop_while_head. unfold isdigit in Hc. apply andb_true_iff in Hc as [H1 H2].
    by destruct c as [[] [] [] [] [] [] [] []]. }
  assert ((match c :: l with "-"%char :: l' => (true, l') | "+"%char :: l' => (false, l')
           | _ => (false, c :: l) end) = (false, c :: l)) as ->.
  { by destruct c as [[] [] [] [] [] [] [] []]. }
  rewrite <- Ec, unsigned_text_to_string by lia. cbn [negb].
  destruct (Z.leb_spec (2 ^ 64) n); [lia|done].
Qed.

(** ** Witnesses *)
Lemma server_lifecycle_witness :
  ∃ s d1, of_directory (λ _, Some (Some "tcp://127.0.0.1:5000")) Protocol.demo_malloc Protocol.demo_fresh
            "Publisher" Protocol.node_b 5 "t" 1 ∅ {["imu"]} (Address.of_ip "127.0.0.1" 0) = Ret (s, d1) ∧
          address_ s = "tcp://127.0.0.1:5000".
Proof.
  destruct (server_lifecycle (λ _, Some (Some "tcp://127.0.0.1:5000")) Protocol.demo_malloc
              Protocol.demo_fresh Protocol.demo_base (Discovery.pool_end Protocol.demo_base) "Publisher"
              Protocol.node_b 5 "t" 1 ∅ {["imu"]} (Address.of_ip "127.0.0.1" 0) "tcp://127.0.0.1:5000"
              Protocol.demo_malloc_fresh Protocol.demo_fresh_length Protocol.node_b_inv)
    as (s & d1 & _ & _ & _ & H1 & H2 & _).
  - vm_compute. reflexivity.
  - apply (Protocol.add_t_admissible Protocol.node_b). reflexivity.
  - vm_compute. reflexivity.
  - exists s, d1. split; [exact H1|exact H2].
Defined.

Lemma filter_subscribes_id_witness :
  Subscriber_applyFilters {[to_string 258]} = Ret [["002"; "001"; "000"; "000"; "000"; "000"; "000"; "000"]%char].
Proof. destruct (filter_subscribes_id 258) as [H _]; [lia|]. rewrite H. vm_compute. reflexivity. Defined.

End Server.
