(* ===== verification/Messages.v ===== *)
(** * Messages (src/a17/dispatch/message_helpers.h, message_helpers.cpp)

    The text of messages for the log, comparison of multipart messages and the type
    identifier in front of a smart message.  A buffer is the list of its bytes; reading
    outside it is undefined.  The host is little endian.  Values of
    [capnp::DynamicValue::Reader] belong to Cap'n Proto; [DynValue] is what the printer
    sees of them: the type tag, the value read by [as<>], for a list its elements, for a
    struct its schema's fields in order, each with its value when [has] holds. *)

From Stdlib Require Import SpecFloat.
From S2P Require Import Prelude Messaging.

(** ** The type identifier *)

(** [getMicros]; [now] is the system clock in nanoseconds since its epoch. *)
Definition getMicros (now : Z) : Z := Z.quot now 1000.

Definition idFromSmartMessage (msg_vec : message_vector) : outcome Z :=
  match msg_vec with
  | [] => Undef
  | f :: _ => if decide (8 <= length f) then Ret (le_val (take 8 f)) else Undef
  end.

(** ** Text of numbers on a stream *)

Definition show_int (z : Z) : string :=
  if (z <? 0)%Z then "-" +:+ to_string (- z) else to_string z.

Definition hex_digit (d : Z) : ascii :=
  if (d <? 10)%Z then digit d else ascii_of_N (Z.to_N (97 + (d - 10))).

(** [sprintf(hex, "%02x", b)] of a byte. *)
Definition hex2 (c : ascii) : list ascii := [hex_digit (byte_val c / 16); hex_digit (byte_val c mod 16)].

(** [num / den] rounded to the nearest integer, ties to even. *)
Definition round_half_even (num den : Z) : Z :=
  let q := (num / den)%Z in
  let r := (2 * (num mod den))%Z in
  if (r <? den)%Z || ((r =? den)%Z && Z.even q) then q else (q + 1)%Z.

(** The largest [x <= top] with [10^x <= num / den], looking at [fuel] values. *)
Fixpoint dec_exponent (fuel : nat) (top num den : Z) : Z :=
  match fuel with
  | O => top
  | S fuel' =>
      if (if (0 <=? top)%Z then (10 ^ top * den <=? num)%Z else (den <=? num * 10 ^ (- top))%Z)
      then top else dec_exponent fuel' (top - 1) num den
  end.

Fixpoint strip_zeros_rev (l : list ascii) : list ascii :=
  match l with
  | "0"%char :: l' => strip_zeros_rev l'
  | _ => l
  end.

(** The fraction digits [ds] without trailing zeros, with the point in front if any remain. *)
Definition fraction (ds : list ascii) : list ascii :=
  match reverse (strip_zeros_rev (reverse ds)) with
  | [] => []
  | l => "."%char :: l
  end.

(** [os << d] for a [double] ([%g] with six significant digits). *)
Definition show_finite (m : positive) (e : Z) : list ascii :=
  let num := (if (0 <=? e)%Z then Z.pos m * 2 ^ e else Z.pos m)%Z in
  let den := (if (0 <=? e)%Z then 1 else 2 ^ (- e))%Z in
  let x := dec_exponent 640 309 num den in
  let q := (if (x <=? 5)%Z then round_half_even (num * 10 ^ (5 - x)) den
            else round_half_even num (den * 10 ^ (x - 5))) in
  let '(q, x) := if (q =? 1000000)%Z then (100000%Z, (x + 1)%Z) else (q, x) in
  let ds := chars (to_string q) in
  if (-4 <=? x)%Z && (x <? 6)%Z then
    if (0 <=? x)%Z
    then take (Z.to_nat x + 1) ds ++ fraction (drop (Z.to_nat x + 1) ds)
    else "0"%char :: fraction (replicate (Z.to_nat (- x - 1)) "0"%char ++ ds)
  else
    take 1 ds ++ fraction (drop 1 ds) ++ "e"%char ::
    (if (x <? 0)%Z then "-"%char else "+"%char) ::
    (if (Z.abs x <? 10)%Z then ["0"%char] else []) ++ chars (to_string (Z.abs x)).

Definition show_double (d : spec_float) : string :=
  match d with
  | S754_zero s => if s then "-0" else "0"
  | S754_infinity s => if s then "-inf" else "inf"
  | S754_nan => "nan"
  | S754_finite s m e => (if s then "-" else "") +:+ str (show_finite m e)
  end.

(** ** The printer of dynamic values *)

#[warnings="-register-all"]
Inductive DynValue : Type :=
  | VOID
  | BOOL (b : bool)
  | INT (z : Z)
  | UINT (z : Z)
  | FLOAT (d : spec_float)
  | TEXT (s : string)
  | LIST (l : list DynValue)
  | ENUM (enumerant : option string) (raw : Z)
  | STRUCT (fields : list (string * option DynValue))
  | OTHER.

Definition QUOTE : string := String "034"%char EmptyString.

(** [operator<<(std::ostream &, capnp::DynamicValue::Reader)]: the text appended. *)
Fixpoint show_dynamic (v : DynValue) : string :=
  match v with
  | VOID => ""
  | BOOL b => if b then "True" else "False"
  | INT z => show_int z
  | UINT z => to_string z
  | FLOAT d => show_double d
  | TEXT s => QUOTE +:+ c_str s +:+ QUOTE
  | LIST l =>
      "[" +:+
      (fix loop (first : bool) (l : list DynValue) : string :=
         match l with
         | [] => ""
         | x :: l' => (if first then "" else ", ") +:+ show_dynamic x +:+ loop false l'
         end) true l +:+ "]"
  | ENUM (Some name) _ => c_str name
  | ENUM None raw => to_string raw
  | STRUCT fields =>
      "(" +:+
      (fix loop (first : bool) (l : list (string * option DynValue)) : string :=
         match l with
         | [] => ""
         | (_, None) :: l' => loop first l'
         | (name, Some x) :: l' =>
             (if first then "" else " ") +:+ c_str name +:+ "=" +:+ show_dynamic x +:+ loop false l'
         end) true fields +:+ ")"
  | OTHER => "?"
  end.

(** ** Text of raw messages *)

(** The first index from [i] on, below [i + n], whose byte is not printable; [i + n] if none. *)
Fixpoint scan_printable (buffer : list ascii) (i n : nat) : outcome nat :=
  match n with
  | O => Ret i
  | S n' =>
      c ← rd buffer i;
      if isprint c then scan_printable buffer (i + 1) n' else Ret i
  end.

Fixpoint hex_loop (buffer : list ascii) (i n : nat) : outcome (list ascii) :=
  match n with
  | O => Ret []
  | S n' =>
      c ← rd buffer i;
      rest ← hex_loop buffer (i + 1) n';
      Ret ((if decide (0 < i ∧ i mod 8 = 0) then "|"%char else " "%char) :: hex2 c ++ rest)
  end.

Fixpoint text_loop (buffer : list ascii) (i n : nat) : outcome (list ascii) :=
  match n with
  | O => Ret []
  | S n' =>
      c ← rd buffer i;
      rest ← text_loop buffer (i + 1) n';
      Ret (c :: rest)
  end.

Definition streamMessage (buffer : list ascii) (size : nat) : outcome (list ascii) :=
  let capSize := if decide (size < 255) then size else 255 in
  i ← scan_printable buffer 0 capSize;
  body ← (if decide (i < size)
          then dump ← hex_loop buffer 0 capSize;
               Ret (chars (to_string (Z.of_nat size)) ++ chars " bytes:" ++ dump)
          else text_loop buffer 0 capSize);
  let more := if decide (capSize < size)
              then chars " (" ++ chars (to_string (Z.of_nat (size - capSize))) ++ chars " more)"
              else [] in
  Ret ("["%char :: body ++ more ++ ["]"%char]).

(** [operator<<(std::ostream &, const azmq::message &)] *)
Definition show_message (m : frame) : outcome (list ascii) := streamMessage m (length m).

(** [operator<<(std::ostream &, const azmq::message_vector &)]: [show_ptr i] is the text of the
    address of element [i], which is what the loop writes. *)
Fixpoint show_addresses (show_ptr : nat → list ascii) (i n : nat) : list ascii :=
  match n with
  | O => []
  | S n' => (if decide (0 < i) then [" "%char] else []) ++ show_ptr i ++ show_addresses show_ptr (i + 1) n'
  end.

Definition show_message_vector (show_ptr : nat → list ascii) (m : message_vector) : list ascii :=
  show_addresses show_ptr 0 (length m).

(** ** Comparison of multipart messages *)

Fixpoint eq_loop (msg1 msg2 : message_vector) (i n : nat) : outcome bool :=
  match n with
  | O => Ret true
  | S n' =>
      match msg1 !! i, msg2 !! i with
      | Some buf1, Some buf2 =>
          if decide (length buf1 ≠ length buf2) then Ret false
          else if decide (buf1 ≠ buf2) then Ret false
          else eq_loop msg1 msg2 (i + 1) n'
      | _, _ => Undef
      end
  end.

Definition message_vector_eqb (msg1 msg2 : message_vector) : outcome bool :=
  if decide (length msg1 ≠ length msg2) then Ret false
  else eq_loop msg1 msg2 0 (length msg1).

Definition message_vector_neqb (msg1 msg2 : message_vector) : outcome bool :=
  b ← message_vector_eqb msg1 msg2; Ret (negb b).

(** ** What the loops write *)

(** The hexadecimal dump of bytes whose first one has index [i]. *)
Fixpoint dump (i : nat) (l : list ascii) : list ascii :=
  match l with
  | [] => []
  | c :: l' => (if decide (0 < i ∧ i mod 8 = 0) then "|"%char else " "%char) :: hex2 c ++ dump (i + 1) l'
  end.

Definition unhex (c : ascii) : Z := if isdigit c then digit_val c else (byte_val c - 87)%Z.

(** Reading a dump back. *)
Fixpoint undump (l : list ascii) : list ascii :=
  match l with
  | _ :: a :: b :: l' => byte_of (unhex a * 16 + unhex b) :: undump l'
  | _ => []
  end.

Lemma rd_drop buffer i n : i + S n <= length buffer →
  ∃ c, rd buffer i = Ret c ∧ drop i buffer = c :: drop (i + 1) buffer.
Proof.
  intros H. destruct (lookup_lt_is_Some_2 buffer i) as [c Hc]; [lia|]. exists c.
  rewrite rd_Ret. split; [done|]. rewrite Nat.add_1_r. by apply drop_S.
Qed.

Lemma text_loop_spec buffer i n :
  i + n <= length buffer → text_loop buffer i n = Ret (take n (drop i buffer)).
Proof.
  revert i. induction n as [|n IH]; intros i H; simpl; [done|].
  destruct (rd_drop buffer i n H) as (c & -> & ->).
  rewrite bind_Ret, IH by lia. done.
Qed.

Lemma hex_loop_spec buffer i n :
  i + n <= length buffer → hex_loop buffer i n = Ret (dump i (take n (drop i buffer))).
Proof.
  revert i. induction n as [|n IH]; intros i H; simpl; [done|].
  destruct (rd_drop buffer i n H) as (c & -> & ->).
  rewrite bind_Ret, IH by lia. done.
Qed.

Lemma scan_printable_spec buffer i n :
  i + n <= length buffer →
  ∃ j, scan_printable buffer i n = Ret j ∧ i <= j <= i + n ∧
       (j = i + n ↔ forallb isprint (take n (drop i buffer)) = true).
Proof.
  revert i. induction n as [|n IH]; intros i H; simpl.
  { exists i. split_and!; [done|lia|lia|]. split; [done|lia]. }
  destruct (rd_drop buffer i n H) as (c & -> & ->). rewrite bind_Ret. simpl.
  destruct (isprint c); simpl.
  - destruct (IH (i + 1)) as (j & -> & Hj & Hiff); [lia|]. exists j.
    split_and!; [done|lia|lia|]. rewrite <- Hiff. lia.
  - exists i. split_and!; [done|lia|lia|]. split; [lia|done].
Qed.

Lemma isdigit_hex d : (0 <= d < 16)%Z → unhex (hex_digit d) = d.
Proof.
  intros Hd. unfold hex_digit. destruct (Z.ltb_spec d 10).
  - unfold unhex. rewrite digit_isdigit by lia. apply digit_val_digit. lia.
  - assert (byte_val (ascii_of_N (Z.to_N (97 + (d - 10)))) = (87 + d)%Z) as Hv.
    { unfold byte_val. rewrite N_ascii_embedding by lia. lia. }
    unfold unhex, isdigit. unfold byte_val in *. rewrite Hv.
    destruct (Z.leb_spec (87 + d) 57); [lia|]. rewrite andb_false_r. lia.
Qed.

Lemma byte_of_val c : byte_of (byte_val c) = c.
Proof.
  unfold byte_of, byte_val. pose proof (N_ascii_bounded c).
  change 255%Z with (Z.ones 8). rewrite Z.land_ones, Z.mod_small by lia.
  rewrite N2Z.id. apply ascii_N_embedding.
Qed.

Lemma unhex_hex2 c : byte_of (unhex (hex_digit (byte_val c / 16)) * 16 + unhex (hex_digit (byte_val c mod 16))) = c.
Proof.
  pose proof (byte_val_range c) as Hc.
  rewrite !isdigit_hex.
  - rewrite <- (byte_of_val c) at 3. f_equal. pose proof (Z.div_mod (byte_val c) 16). lia.
  - apply Z.mod_pos_bound. lia.
  - split; [apply Z.div_pos; lia|apply Z.div_lt_upper_bound; lia].
Qed.

Lemma undump_dump i l : undump (dump i l) = l.
Proof.
  revert i. induction l as [|c l IH]; intros i; simpl; [done|]. by rewrite unhex_hex2, IH.
Qed.

Lemma eq_loop_spec msg1 msg2 i n :
  length msg1 = length msg2 → i + n = length msg1 →
  eq_loop msg1 msg2 i n = Ret (bool_decide (drop i msg1 = drop i msg2)).
Proof.
  intros Hl. revert i. induction n as [|n IH]; intros i Hi; simpl.
  { rewrite !drop_ge by lia. done. }
  destruct (lookup_lt_is_Some_2 msg1 i) as [x Hx]; [lia|].
  destruct (lookup_lt_is_Some_2 msg2 i) as [y Hy]; [lia|].
  rewrite Hx, Hy, (drop_S _ _ _ Hx), (drop_S _ _ _ Hy).
  destruct (decide (length x ≠ length y)).
  { f_equal. symmetry. apply bool_decide_eq_false. naive_solver. }
  destruct (decide (x ≠ y)) as [|E%dec_stable].
  { f_equal. symmetry. apply bool_decide_eq_false. naive_solver. }
  rewrite IH, Nat.add_1_r by lia. f_equal. subst y. apply bool_decide_ext.
  split; [by intros ->|by intros [= ->]].
Qed.

(** Pieces separated by [sep]. *)
Fixpoint intercalate (sep : string) (l : list string) : string :=
  match l with
  | [] => ""
  | [x] => x
  | x :: l' => x +:+ sep +:+ intercalate sep l'
  end.

Definition show_field (f : string * option DynValue) : option string :=
  match f with
  | (name, Some x) => Some (c_str name +:+ "=" +:+ show_dynamic x)
  | (_, None) => None
  end.

Lemma str_app_nil s : s +:+ "" = s.
Proof. apply chars_inj. by rewrite chars_app, app_nil_r. Qed.

Lemma str_app_assoc s t u : s +:+ (t +:+ u) = (s +:+ t) +:+ u.
Proof. apply chars_inj. by rewrite !chars_app, app_assoc. Qed.

Lemma intercalate_cons sep x l :
  intercalate sep (x :: l) = x +:+ match l with [] => "" | _ => sep +:+ intercalate sep l end.
Proof. destruct l; simpl; [|done]. symmetry. apply str_app_nil. Qed.

(** ** Properties *)

(** A logged message shows its content: reading nothing outside the buffer, [streamMessage]
    writes the text itself when the message is printable and at most 255 bytes long, and
    otherwise its size and a dump from which the first 255 bytes can be read back, followed
    by the number of bytes left out. *)
Theorem streamMessage_shows buffer size :
  size <= length buffer →
  let shown := take 255 (take size buffer) in
  if decide (size <= 255 ∧ forallb isprint shown = true)
  then streamMessage buffer size = Ret ("["%char :: shown ++ ["]"%char])
  else ∃ d, undump d = shown ∧
    streamMessage buffer size =
      Ret ("["%char :: chars (to_string (Z.of_nat size)) ++ chars " bytes:" ++ d ++
           (if decide (255 < size)
            then chars " (" ++ chars (to_string (Z.of_nat (size - 255))) ++ chars " more)" else []) ++
           ["]"%char]).
Proof.
  intros Hsz shown. unfold streamMessage.
  set (capSize := if decide (size < 255) then size else 255).
  assert (capSize = size `min` 255) as Hcap by (unfold capSize; case_goal; lia). clearbody capSize.
  assert (take capSize (drop 0 buffer) = shown) as Hsh.
  { unfold shown. rewrite drop_0, take_take, Hcap. f_equal. lia. }
  destruct (scan_printable_spec buffer 0 capSize) as (j & -> & Hj & Hiff); [lia|].
  rewrite bind_Ret, hex_loop_spec, text_loop_spec, !Hsh by lia. rewrite Hsh in Hiff.
  destruct (decide (size <= 255 ∧ _)) as [[H1 H2]|Hn].
  - apply Hiff in H2. rewrite !decide_False by lia. done.
  - exists (dump 0 shown). split; [apply undump_dump|].
    rewrite (decide_True (P := j < size)) by (destruct (decide (j = 0 + capSize)) as [E|]; [|lia];
      apply Hiff in E; destruct (decide (size <= 255)); [tauto|lia]).
    rewrite !bind_Ret. destruct (decide (255 < size)) as [Hb|Hb].
    + assert (capSize = 255) as -> by lia. rewrite decide_True by lia. by rewrite <- !app_assoc.
    + rewrite decide_False by lia. by rewrite <- !app_assoc.
Qed.

(** Messages are compared by content: the loop over the parts decides equality of the two
    multipart messages without reading outside either. *)
Theorem message_vector_eqb_spec msg1 msg2 :
  message_vector_eqb msg1 msg2 = Ret (bool_decide (msg1 = msg2)) ∧
  message_vector_neqb msg1 msg2 = Ret (bool_decide (msg1 ≠ msg2)).
Proof.
  assert (message_vector_eqb msg1 msg2 = Ret (bool_decide (msg1 = msg2))) as Heq.
  { unfold message_vector_eqb. destruct (decide (length msg1 ≠ length msg2)) as [|E%dec_stable].
    - f_equal. symmetry. apply bool_decide_eq_false. naive_solver.
    - by rewrite eq_loop_spec. }
  split; [done|]. unfold message_vector_neqb. rewrite Heq, bind_Ret.
  by rewrite bool_decide_not.
Qed.

(** Dynamic values print as a comma-separated list in brackets and as a space-separated
    list of [name=value] in parentheses, absent fields left out. *)
Theorem show_dynamic_shape l fields :
  show_dynamic (LIST l) = "[" +:+ intercalate ", " (show_dynamic <$> l) +:+ "]" ∧
  show_dynamic (STRUCT fields) = "(" +:+ intercalate " " (omap show_field fields) +:+ ")".
Proof.
  split; simpl.
  - do 2 f_equal.
    assert (∀ first l, (fix loop (first : bool) (l : list DynValue) : string :=
         match l with
         | [] => ""
         | x :: l' => (if first then "" else ", ") +:+ show_dynamic x +:+ loop false l'
         end) first l = match l with [] => "" | _ => (if first then "" else ", ") +:+ intercalate ", " (show_dynamic <$> l) end) as H.
    { clear. intros first l. revert first. induction l as [|x l IH]; intros first; [done|].
      rewrite IH, fmap_cons, intercalate_cons. by destruct l. }
    rewrite H. by destruct l.
  - do 2 f_equal.
    assert (∀ first l, (fix loop (first : bool) (l : list (string * option DynValue)) : string :=
         match l with
         | [] => ""
         | (_, None) :: l' => loop first l'
         | (name, Some x) :: l' =>
             (if first then "" else " ") +:+ c_str name +:+ "=" +:+ show_dynamic x +:+ loop false l'
         end) first l = match omap show_field l with [] => "" | l' => (if first then "" else " ") +:+ intercalate " " l' end) as H.
    { clear. intros first l. revert first. induction l as [|[n [x|]] l IH]; intros first; [done| |].
      - change (omap show_field ((n, Some x) :: l)) with ((c_str n +:+ "=" +:+ show_dynamic x) :: omap show_field l).
        rewrite IH, intercalate_cons. destruct (omap show_field l); by rewrite <- ?str_app_assoc.
      - by rewrite IH. }
    rewrite H. by destruct (omap show_field fields).
Qed.

(** ** Witnesses *)

Lemma streamMessage_shows_witness :
  ∃ d, undump d = ["001"%char; "065"%char] ∧
    streamMessage ["001"%char; "065"%char; "066"%char] 2 =
    Ret ("["%char :: chars (to_string 2) ++ chars " bytes:" ++ d ++ [] ++ ["]"%char]).
Proof.
  apply (streamMessage_shows ["001"%char; "065"%char; "066"%char] 2). simpl. lia.
Defined.
