(* ===== verification/SmartMessage.v ===== *)
(** * Smart messages (src/a17/dispatch/smart_capnp_builder.h, smart_capnp_builder.cpp,
      smart_capnp_reader.h, smart_capnp_reader.cpp, smart_message_reader.h,
      smart_message_reader.cpp)

    A smart message is a multipart message: the type identifier, a serialized Cap'n Proto
    message, then raw buffers.  [SmartCapnpBuilder] supplies memory for Cap'n Proto's
    segments from a buffer pool and serializes them; the readers take a message apart.

    Cap'n Proto is outside the program.  What the code uses of it is the class [Capnp]:
    the serialized size it computes, and its reader of a flat array of words.  A segment is
    the list of its 64-bit words.  Pointers are addresses; what [::malloc] and [::calloc]
    return is given to each call. *)

From S2P Require Import Prelude BufferPool Messaging Messages.

(** The parts of Cap'n Proto the code calls: [size] is [computeSerializedSizeInWords],
    [open] constructs a [FlatArrayMessageReader] over the bytes of an array of words,
    [root] is its [getRoot] for the struct type with the given identifier. *)
Class Capnp : Type := {
  reader : Type;
  value : Type;
  size : list (list Z) → outcome nat;
  open : list ascii → outcome reader;
  root : reader → Z → outcome value
}.

(** The documented stream framing: a table of 32-bit counts padded to a word, then the
    segments. *)
Class CapnpLaws (C : Capnp) : Prop :=
  size_spec : ∀ segs, segs ≠ [] → size segs = Ret (length segs / 2 + 1 + length (mjoin segs)).

(** A zmq message: its bytes, and the address of the pool buffer that holds them, which the
    message's destructor gives back with [BufferPool::zmqFree]. *)
Record azmq_message : Type := AzmqMessage { msg_data : frame; msg_buffer : option Z }.

(** ** [class SmartCapnpBuilder] *)
Module SmartCapnpBuilder.

Record t : Type := mk {
  id_ : Z;
  next_size_ : Z;
  own_first_segment_ : bool;
  returned_first_segment_ : bool;
  first_segment_ : Z;
  is_first_segment_pooled_ : bool;
  invalidated_ : bool;
  more_segments_ : option (list Z * list bool)
}.

(** The pool is a constructor argument by reference, so [pool] is never null; its state is
    passed along.  [is_first_segment_pooled_] is not initialised, and not read before
    [allocateSegment] sets it. *)
Definition init (pool : BufferPool.t) : t :=
  mk 0 (u32 (BufferPool.bufferSize_ pool / 8)) true false 0 false false None.

(** The move constructor: the new builder, and what is left of the old one. *)
Definition move (b : t) : t * t :=
  (mk (id_ b) (next_size_ b) (own_first_segment_ b) (returned_first_segment_ b) (first_segment_ b)
      (is_first_segment_pooled_ b) true (more_segments_ b),
   mk (id_ b) (next_size_ b) (own_first_segment_ b) (returned_first_segment_ b) (first_segment_ b)
      (is_first_segment_pooled_ b) (invalidated_ b) None).

(** [initRoot], [setRoot]: the identifier of the root type. *)
Definition set_id (b : t) (id : Z) : t :=
  mk id (next_size_ b) (own_first_segment_ b) (returned_first_segment_ b) (first_segment_ b)
     (is_first_segment_pooled_ b) (invalidated_ b) (more_segments_ b).

Definition set_own (b : t) (v : bool) : t :=
  mk (id_ b) (next_size_ b) v (returned_first_segment_ b) (first_segment_ b)
     (is_first_segment_pooled_ b) (invalidated_ b) (more_segments_ b).

Definition set_returned (b : t) : t :=
  mk (id_ b) (next_size_ b) (own_first_segment_ b) true (first_segment_ b)
     (is_first_segment_pooled_ b) (invalidated_ b) (more_segments_ b).

Definition set_first (b : t) (ptr : Z) (pooled : bool) : t :=
  mk (id_ b) (next_size_ b) (own_first_segment_ b) true ptr pooled (invalidated_ b) (more_segments_ b).

Definition push_segment (b : t) (ptr : Z) (pooled : bool) : t :=
  let '(segs, flags) := match more_segments_ b with Some s => s | None => ([], []) end in
  mk (id_ b) (next_size_ b) (own_first_segment_ b) (returned_first_segment_ b) (first_segment_ b)
     (is_first_segment_pooled_ b) (invalidated_ b) (Some (segs ++ [ptr], flags ++ [pooled])).

(** The segments freed by the loop of the destructor: the pool, and the addresses handed to
    [::free]. *)
Fixpoint free_segments (pool : BufferPool.t) (segs : list Z) (flags : list bool)
    : outcome (BufferPool.t * list Z) :=
  match segs with
  | [] => Ret (pool, [])
  | ptr :: segs' =>
      match flags with
      | [] => Undef
      | pooled :: flags' =>
          '(pool, f) ← (if pooled : bool then BufferPool.free pool ptr else Ret (pool, Some ptr));
          '(pool, fs) ← free_segments pool segs' flags';
          Ret (pool, option_list f ++ fs)
      end
  end.

Definition destroy (b : t) (pool : BufferPool.t) : outcome (BufferPool.t * list Z) :=
  if negb (invalidated_ b) && returned_first_segment_ b then
    '(pool, fs) ← (if own_first_segment_ b
                   then free_segments pool [first_segment_ b] [is_first_segment_pooled_ b]
                   else Ret (pool, []));
    match more_segments_ b with
    | None => Ret (pool, fs)
    | Some (segs, flags) =>
        '(pool, fs') ← free_segments pool segs flags;
        Ret (pool, fs ++ fs')
    end
  else Ret (pool, []).

(** [allocateSegment(minimumSize)]: [sys] is what [::malloc] returns to the pool, [csys] what
    [::calloc] returns, [m] the memory.  The result is the segment's address and its size
    in words. *)
Definition allocateSegment (b : t) (pool : BufferPool.t) (m : Z → Z) (sys csys minimumSize : Z)
    : outcome (t * BufferPool.t * (Z → Z) * (Z * Z)) :=
  if negb (returned_first_segment_ b) && negb (own_first_segment_ b) && (minimumSize <=? next_size_ b)%Z
  then Ret (set_returned b, pool, m, (first_segment_ b, next_size_ b))
  else
    let b := if negb (returned_first_segment_ b) && negb (own_first_segment_ b) then set_own b true else b in
    let size := Z.max minimumSize (next_size_ b) in
    let usePool := (size * 8 <=? BufferPool.bufferSize_ pool)%Z in
    '(pool, result, m) ← (if usePool then BufferPool.calloc pool sys m else Ret (pool, 0%Z, m));
    '(result, m) ← (if (result =? 0)%Z
                    then if (csys =? 0)%Z then Throw (runtime_error "calloc failed")
                         else Ret (csys, BufferPool.memset m csys 0 (size * 8))
                    else Ret (result, m));
    let b := if negb (returned_first_segment_ b) then set_first b result usePool
             else push_segment b result usePool in
    Ret (b, pool, m, (result, size)).

(** [table[i] = v] and [memcpy(dst, src, n)] on the bytes of the message. *)
Definition write (buf : list ascii) (off : nat) (bs : list ascii) : outcome (list ascii) :=
  if decide (off + length bs <= length buf)
  then Ret (take off buf ++ bs ++ drop (off + length bs) buf) else Undef.

Definition set_table (buf : list ascii) (i : nat) (v : Z) : outcome (list ascii) :=
  write buf (4 * i) (le_bytes 4 v).

Fixpoint table_loop (buf : list ascii) (i : nat) (segs : list (list Z)) : outcome (list ascii) :=
  match segs with
  | [] => Ret buf
  | s :: segs' =>
      buf ← set_table buf (i + 1) (u32 (Z.of_nat (length s)));
      table_loop buf (i + 1) segs'
  end.

(** [dst] counts words. *)
Fixpoint copy_loop (buf : list ascii) (dst : nat) (segs : list (list Z)) : outcome (list ascii) :=
  match segs with
  | [] => Ret buf
  | s :: segs' =>
      buf ← write buf (8 * dst) (word_bytes s);
      copy_loop buf (dst + length s) segs'
  end.

Definition buildSmartMessage (buf : list ascii) (segments : list (list Z)) : outcome (list ascii) :=
  let n := length segments in
  buf ← set_table buf 0 (u32 (Z.of_nat n - 1));
  buf ← table_loop buf 0 segments;
  buf ← (if decide (n mod 2 = 0) then set_table buf (n + 1) 0 else Ret buf);
  copy_loop buf (n / 2 + 1) segments.

(** [build()]: [segments] is what [getSegmentsForOutput] returns, [sys] what [::malloc] returns
    to the pool, [garbage] what the message's memory holds before it is written. *)
Definition build `{Capnp} (pool : BufferPool.t) (segments : list (list Z)) (sys : Z)
    (garbage : nat → list ascii) : outcome (BufferPool.t * azmq_message) :=
  words ← size segments;
  let messageSize := 8 * words in
  if (Z.of_nat messageSize <=? BufferPool.bufferSize_ pool)%Z then
    '(pool, buf) ← BufferPool.malloc pool sys;
    data ← buildSmartMessage (garbage messageSize) segments;
    Ret (pool, AzmqMessage data (if (buf =? 0)%Z then None else Some buf))
  else
    data ← buildSmartMessage (garbage messageSize) segments;
    Ret (pool, AzmqMessage data None).

(** [getSmartMessage()] and the conversion to [azmq::message_vector]. *)
Definition getSmartMessage `{Capnp} (b : t) (pool : BufferPool.t) (segments : list (list Z)) (sys : Z)
    (garbage : nat → list ascii) : outcome (BufferPool.t * list azmq_message) :=
  '(pool, m) ← build pool segments sys garbage;
  Ret (pool, [AzmqMessage (le_bytes 8 (id_ b)) None; m]).

End SmartCapnpBuilder.

(** ** [class SmartCapnpReader] *)
Module SmartCapnpReader.

Record t `{Capnp} : Type := mk { id_ : Z; buffer_ : list ascii; reader_ : reader }.

(** The words of the message: a trailing part shorter than a word is not copied. *)
Definition CapnpBufferFromAzmqMessage (message : frame) : list ascii :=
  take (8 * (length message / 8)) message.

Definition of_message `{Capnp} (message : frame) (id : Z) : outcome t :=
  let buffer := CapnpBufferFromAzmqMessage message in
  r ← open buffer;
  Ret (mk _ id buffer r).

Definition of_vector `{Capnp} (message_vector : message_vector) : outcome t :=
  id ← idFromSmartMessage message_vector;
  match message_vector !! 1 with
  | None => Undef
  | Some m => of_message m id
  end.

(** [getRoot<RootType>()]: [requestedId] is [idOf<RootType>()]. *)
Definition getRoot `{Capnp} (r : t) (requestedId : Z) : outcome value :=
  if (id_ r =? requestedId)%Z then root (reader_ r) requestedId
  else Throw (runtime_error ("Type in getRoot<> (" +:+ to_string requestedId +:+
                             ") doesn't match id in message (" +:+ to_string (id_ r) +:+ ")")).

End SmartCapnpReader.

(** ** [class SmartMessageReader] *)
Module SmartMessageReader.

Record t `{Capnp} : Type := mk {
  message_vector_ : message_vector;
  reader_ : option SmartCapnpReader.t;
  id_ : Z
}.

Definition init `{Capnp} (message_vector : message_vector) : outcome t :=
  r ← SmartCapnpReader.of_vector message_vector;
  id ← idFromSmartMessage message_vector;
  Ret (mk _ message_vector (Some r) id).

(** [size_t] arithmetic. *)
Definition size `{Capnp} (r : t) : Z := u64 (Z.of_nat (length (message_vector_ r)) - 1).

Definition getRoot `{Capnp} (r : t) (requestedId : Z) : outcome value :=
  if (id_ r =? requestedId)%Z then
    match reader_ r with
    | None => Throw (runtime_error "SmartMessageReader.getRoot<>, reader pointer is null!")
    | Some c => SmartCapnpReader.getRoot c requestedId
    end
  else Throw (runtime_error ("Requested message type in SmartMessageReader.getRoot<> (" +:+
                to_string requestedId +:+ ") doesn't match received message type (" +:+
                to_string (id_ r) +:+ ")")).

(** [bufferAt(pos, size)]: the bytes at the returned pointer, whose number is [size]. *)
Definition bufferAt `{Capnp} (r : t) (pos : Z) : outcome frame :=
  match message_vector_ r !! Z.to_nat (u64 (pos + 1)) with
  | None => Undef
  | Some f => Ret f
  end.

End SmartMessageReader.

(** ** Serialization *)
Module Framing.
Import SmartCapnpBuilder.

(** The framing Cap'n Proto documents for a stream of segments. *)
Definition frame_of (segs : list (list Z)) : list ascii :=
  le_bytes 4 (Z.of_nat (length segs) - 1) ++
  (segs ≫= λ s, le_bytes 4 (Z.of_nat (length s))) ++
  (if decide (length segs mod 2 = 0) then le_bytes 4 0 else []) ++
  word_bytes (mjoin segs).

(** Reading it back. *)
Fixpoint read_segments (sizes : list nat) (l : list ascii) : list (list Z) :=
  match sizes with
  | [] => []
  | k :: sizes' => read_words k l :: read_segments sizes' (drop (8 * k) l)
  end.

Fixpoint read_sizes (n : nat) (l : list ascii) : list nat :=
  match n with
  | O => []
  | S n' => Z.to_nat (le_val (take 4 l)) :: read_sizes n' (drop 4 l)
  end.

Definition parse (l : list ascii) : list (list Z) :=
  let n := Z.to_nat (le_val (take 4 l)) + 1 in
  read_segments (read_sizes n (drop 4 l)) (drop (8 * (n / 2 + 1)) l).

(** What a 32-bit table and 64-bit words can hold. *)
Definition representable (segs : list (list Z)) : Prop :=
  (Z.of_nat (length segs) <= 2 ^ 32)%Z ∧
  Forall (λ s, (Z.of_nat (length s) < 2 ^ 32)%Z ∧ Forall (λ w, (0 <= w < 2 ^ 64)%Z) s) segs.

Lemma le_bytes_mod k z : le_bytes k (z mod 2 ^ (8 * Z.of_nat k)) = le_bytes k z.
Proof.
  revert z. induction k as [|k IH]; intros z; [done|].
  replace (8 * Z.of_nat (S k))%Z with (8 + 8 * Z.of_nat k)%Z by lia.
  cbn [le_bytes]. f_equal.
  - unfold byte_of. do 2 f_equal. change 255%Z with (Z.ones 8).
    rewrite !Z.land_ones by lia. rewrite Z.pow_add_r by lia.
    rewrite Z.rem_mul_r by (try apply Z.pow_nonzero; lia).
    rewrite (Z.mul_comm (2 ^ 8)), Z.mod_add by lia. apply Z.mod_mod. lia.
  - rewrite <- (IH (Z.shiftr z 8)). f_equal. rewrite !Z.shiftr_div_pow2 by lia.
    rewrite Z.pow_add_r, Z.rem_mul_r by (try apply Z.pow_nonzero; lia).
    rewrite (Z.mul_comm (2 ^ 8)), Z.div_add by lia.
    rewrite (Z.div_small (z mod 2 ^ 8)) by (apply Z.mod_pos_bound; lia). lia.
Qed.

Lemma le_bytes_u32 z : le_bytes 4 (u32 z) = le_bytes 4 z.
Proof. apply (le_bytes_mod 4). Qed.

Lemma write_at pre rest off bs :
  length pre = off → length bs <= length rest →
  write (pre ++ rest) off bs = Ret (pre ++ bs ++ drop (length bs) rest).
Proof.
  intros <- Hl. unfold write. rewrite decide_True by (rewrite length_app; lia).
  rewrite take_app_length, drop_app_add. done.
Qed.

Lemma mjoin_cons (s : list Z) segs : mjoin (s :: segs) = s ++ mjoin segs.
Proof. done. Qed.

Lemma length_table (l : list (list Z)) :
  length (l ≫= λ s, le_bytes 4 (Z.of_nat (length s))) = 4 * length l.
Proof. induction l as [|x l IH]; [done|]. rewrite bind_cons, length_app, length_le_bytes, IH. simpl. lia. Qed.

Lemma table_loop_spec pre rest i segs :
  length pre = 4 * (i + 1) → 4 * length segs <= length rest →
  table_loop (pre ++ rest) i segs =
  Ret (pre ++ (segs ≫= λ s, le_bytes 4 (Z.of_nat (length s))) ++ drop (4 * length segs) rest).
Proof.
  revert pre rest i. induction segs as [|s segs IH]; intros pre rest i Hp Hr; [done|].
  cbn [length] in Hr. cbn [table_loop]. unfold set_table. rewrite le_bytes_u32.
  rewrite write_at, bind_Ret by (rewrite ?length_le_bytes; lia).
  rewrite app_assoc, IH.
  - rewrite bind_cons, <- !app_assoc, drop_drop, length_le_bytes.
    by replace (4 * length (s :: segs)) with (4 + 4 * length segs) by (simpl; lia).
  - rewrite length_app, length_le_bytes. lia.
  - rewrite length_drop, length_le_bytes. lia.
Qed.

Lemma copy_loop_spec pre rest dst segs :
  length pre = 8 * dst → 8 * length (mjoin segs) <= length rest →
  copy_loop (pre ++ rest) dst segs =
  Ret (pre ++ word_bytes (mjoin segs) ++ drop (8 * length (mjoin segs)) rest).
Proof.
  revert pre rest dst. induction segs as [|s segs IH]; intros pre rest dst Hp Hr; [done|].
  rewrite mjoin_cons, length_app in *. cbn [copy_loop].
  rewrite write_at, bind_Ret by (rewrite ?length_word_bytes; lia).
  rewrite app_assoc, IH.
  - rewrite word_bytes_app, <- !app_assoc, drop_drop, length_word_bytes.
    by rewrite Nat.mul_add_distr_l.
  - rewrite length_app, length_word_bytes. lia.
  - rewrite length_drop, length_word_bytes. lia.
Qed.

Lemma buildSmartMessage_frame buf segs :
  segs ≠ [] → length buf = 8 * (length segs / 2 + 1 + length (mjoin segs)) →
  buildSmartMessage buf segs = Ret (frame_of segs).
Proof.
  intros Hne Hl. unfold buildSmartMessage, frame_of.
  set (n := length segs) in *. set (w := length (mjoin segs)) in *.
  assert (n = 2 * (n / 2) + n mod 2) as Hn by apply Nat.div_mod_eq.
  pose proof (Nat.mod_upper_bound n 2 ltac:(lia)) as Hm.
  unfold set_table. rewrite le_bytes_u32. change buf with ([] ++ buf).
  rewrite (write_at [] buf 0), bind_Ret by (rewrite ?length_le_bytes; simpl; lia).
  rewrite app_nil_l, length_le_bytes.
  rewrite (table_loop_spec _ _ 0), bind_Ret
    by (rewrite ?length_le_bytes, ?length_drop; fold n; simpl; lia).
  fold n. rewrite drop_drop, app_assoc.
  set (pre := le_bytes 4 (Z.of_nat n - 1) ++ _).
  assert (length pre = 4 * (n + 1)) as Hp.
  { unfold pre. rewrite length_app, length_le_bytes, length_table. fold n. lia. }
  assert (∀ pre' rest, length pre' = 8 * (n / 2 + 1) → length rest = 8 * w →
            copy_loop (pre' ++ rest) (n / 2 + 1) segs = Ret (pre' ++ word_bytes (mjoin segs))) as Hcopy.
  { intros pre' rest H1 H2. rewrite copy_loop_spec by (fold w; lia). fold w.
    by rewrite drop_ge, app_nil_r by lia. }
  destruct (decide (n mod 2 = 0)) as [E|E].
  - rewrite write_at, bind_Ret
      by (rewrite ?length_le_bytes, ?length_drop; lia).
    rewrite app_assoc, Hcopy; [unfold pre; by rewrite <- !app_assoc| |].
    + rewrite length_app, length_le_bytes. lia.
    + rewrite !length_drop, length_le_bytes. lia.
  - rewrite bind_Ret, Hcopy; [unfold pre; by rewrite <- !app_assoc|lia|]. rewrite length_drop. lia.
Qed.

Lemma read_segments_bytes segs rest :
  Forall (λ s, (Z.of_nat (length s) < 2 ^ 32)%Z ∧ Forall (λ w, (0 <= w < 2 ^ 64)%Z) s) segs →
  read_segments (length <$> segs) (word_bytes (mjoin segs) ++ rest) = segs.
Proof.
  induction segs as [|s segs IH]; [done|]. intros [[_ Hs] Hss]%Forall_cons.
  rewrite mjoin_cons. cbn [fmap list_fmap read_segments].
  rewrite word_bytes_app, <- app_assoc, read_words_bytes by done.
  rewrite drop_app_length' by (by rewrite length_word_bytes). f_equal. by apply IH.
Qed.

Lemma read_sizes_bytes segs rest :
  Forall (λ s, (Z.of_nat (length s) < 2 ^ 32)%Z ∧ Forall (λ w, (0 <= w < 2 ^ 64)%Z) s) segs →
  read_sizes (length segs) ((segs ≫= λ s, le_bytes 4 (Z.of_nat (length s))) ++ rest) = length <$> segs.
Proof.
  induction segs as [|s segs IH]; [done|]. intros [[Hl _] Hss]%Forall_cons.
  cbn [length fmap list_fmap read_sizes]. rewrite bind_cons, <- app_assoc.
  rewrite take_app_length' by (by rewrite length_le_bytes). rewrite drop_app_length' by (by rewrite length_le_bytes).
  rewrite IH by done. f_equal. rewrite le_val_le_bytes by (simpl; lia). lia.
Qed.

Lemma parse_frame_of segs : segs ≠ [] → representable segs → parse (frame_of segs) = segs.
Proof.
  intros Hne (Hn & Hs). unfold parse, frame_of.
  assert (0 < length segs) by (destruct segs; simpl; [done|lia]).
  rewrite take_app_length', drop_app_length' by (by rewrite length_le_bytes).
  rewrite le_val_le_bytes by (simpl; lia).
  replace (Z.to_nat (Z.of_nat (length segs) - 1) + 1) with (length segs) by lia.
  rewrite read_sizes_bytes by done.
  rewrite !app_assoc. rewrite <- (app_nil_r (word_bytes _)) at 1.
  rewrite drop_app_length'; [by apply read_segments_bytes|].
  rewrite !length_app, length_table, length_le_bytes.
  pose proof (Nat.div_mod_eq (length segs) 2). pose proof (Nat.mod_upper_bound (length segs) 2 ltac:(lia)).
  case_goal; rewrite ?length_le_bytes; cbn [length]; lia.
Qed.

End Framing.

(** ** Memory of the builder *)
Module Segments.
Import SmartCapnpBuilder.

Section block.
(** The pool's block of memory. *)
Context (lo hi : Z).

#[local] Abbreviation in_block := (BufferPool.in_range lo hi).

(** The builder's segments, with the flag that they are to be given back to the pool. *)
Definition segments (b : t) : list (Z * bool) :=
  if returned_first_segment_ b
  then (first_segment_ b, is_first_segment_pooled_ b) ::
       match more_segments_ b with Some (s, f) => zip s f | None => [] end
  else [].

(** A builder whose segments come from the pool [p] or the system, where [out] are the
    pool's buffers in other hands. *)
Definition owns (b : t) (p : BufferPool.t) (out : list Z) : Prop :=
  own_first_segment_ b = true ∧ invalidated_ b = false ∧
  (returned_first_segment_ b = false → more_segments_ b = None) ∧
  (∀ s f, more_segments_ b = Some (s, f) → length s = length f) ∧
  (∀ x, (x, false) ∈ segments b → ¬ in_block x) ∧
  BufferPool.pool_ p = lo ∧ BufferPool.poolEnd_ p = hi ∧
  BufferPool.wf p (filter in_block (segments b).*1 ++ out).

Lemma free_segments_wf l p out :
  BufferPool.pool_ p = lo → BufferPool.poolEnd_ p = hi →
  (∀ x, (x, false) ∈ l → ¬ in_block x) →
  BufferPool.wf p (filter in_block l.*1 ++ out) →
  ∃ p', free_segments p l.*1 l.*2 = Ret (p', filter (λ x, ¬ in_block x) l.*1) ∧
        BufferPool.wf p' out ∧ BufferPool.pool_ p' = lo ∧ BufferPool.poolEnd_ p' = hi.
Proof.
  revert p. induction l as [|[x pooled] l IH]; intros p Hlo Hhi Hfl Hwf; [by exists p|].
  assert (∀ y, (y, false) ∈ l → ¬ in_block y) as Hfl' by set_solver.
  rewrite !fmap_cons in *. cbn [fst snd free_segments] in *.
  destruct (decide (in_block x)) as [Hx|Hx].
  - rewrite filter_cons_True in Hwf by done.
    rewrite (filter_cons_False (λ x, ¬ in_block x)) by tauto.
    assert (pooled = true) as -> by (destruct pooled; [done|]; exfalso; by apply (Hfl x); [left|]).
    rewrite (BufferPool.free_enqueue _ _ _ Hwf), bind_Ret.
    apply BufferPool.wf_enqueue in Hwf.
    destruct (IH (BufferPool.enqueue p x)) as (p' & -> & ?); try done. by exists p'.
  - rewrite filter_cons_False in Hwf by done.
    rewrite (filter_cons_True (λ x, ¬ in_block x)) by tauto.
    assert ((if pooled then BufferPool.free p x else Ret (p, Some x)) = Ret (p, Some x)) as ->.
    { destruct pooled; [|done]. apply BufferPool.free_foreign. unfold BufferPool.in_range in Hx. lia. }
    destruct (IH p) as (p' & H & ?); try done. rewrite bind_Ret, H. by exists p'.
Qed.

Definition record_segment (b : t) (ptr : Z) (pooled : bool) : t :=
  if negb (returned_first_segment_ b) then set_first b ptr pooled else push_segment b ptr pooled.

Lemma record_segment_owns b p p' out ptr pooled :
  owns b p out → BufferPool.pool_ p' = lo → BufferPool.poolEnd_ p' = hi →
  BufferPool.wf p' (filter in_block [ptr] ++ filter in_block (segments b).*1 ++ out) →
  (pooled = false → ¬ in_block ptr) →
  segments (record_segment b ptr pooled) = segments b ++ [(ptr, pooled)] ∧
  owns (record_segment b ptr pooled) p' out.
Proof.
  intros (Hown & Hinv & Hret & Hlen & Hfl & _) Hlo Hhi Hwf Hp.
  assert (segments (record_segment b ptr pooled) = segments b ++ [(ptr, pooled)]) as Hseg.
  { unfold record_segment, segments. destruct (returned_first_segment_ b) eqn:E; simpl.
    - unfold push_segment. destruct (more_segments_ b) as [[s f]|] eqn:Em; simpl; rewrite ?E; [|done].
      by rewrite zip_with_app by (by apply Hlen).
    - by rewrite Hret. }
  split; [done|]. unfold owns. rewrite Hseg. split_and!; try done.
  - unfold record_segment, push_segment.
    destruct (more_segments_ b) as [[? ?]|]; by destruct (returned_first_segment_ b).
  - unfold record_segment, push_segment.
    destruct (more_segments_ b) as [[? ?]|]; by destruct (returned_first_segment_ b).
  - unfold record_segment, push_segment.
    destruct (returned_first_segment_ b) eqn:E; simpl; [|done].
    destruct (more_segments_ b) as [[s f]|]; simpl; rewrite ?E; done.
  - intros s f. unfold record_segment, push_segment.
    destruct (returned_first_segment_ b) eqn:E; simpl; [|by rewrite Hret].
    destruct (more_segments_ b) as [[s' f']|] eqn:Em; simpl; intros [= <- <-]; [|done].
    rewrite !length_app. f_equal. by apply Hlen.
  - intros x [?|[= -> <-]%list_elem_of_singleton]%elem_of_app; [by apply Hfl|by apply Hp].
  - eapply BufferPool.wf_perm; [done|]. rewrite fmap_app, filter_app. simpl.
    rewrite app_assoc. apply Permutation_app_tail, Permutation_app_comm.
Qed.

Lemma memset_zero m ptr n a : (ptr <= a < ptr + n)%Z → BufferPool.memset m ptr 0 n a = 0%Z.
Proof.
  intros H. unfold BufferPool.memset.
  destruct (Z.leb_spec ptr a), (Z.ltb_spec a (ptr + n)); simpl; lia.
Qed.

(** A new segment: large enough, zeroed, recorded with the right flag. *)
Lemma allocateSegment_owns b p out m sys csys n :
  owns b p out → ¬ in_block sys → ¬ in_block csys → csys ≠ 0%Z →
  ∃ b' p' m' ptr sz pooled,
    allocateSegment b p m sys csys n = Ret (b', p', m', (ptr, sz)) ∧
    segments b' = segments b ++ [(ptr, pooled)] ∧ owns b' p' out ∧ (n <= sz)%Z ∧
    (∀ a, (ptr <= a < ptr + sz * 8)%Z → m' a = 0%Z) ∧ (¬ in_block ptr → ptr = sys ∨ ptr = csys).
Proof.
  intros Ho Hs Hc Hcn. pose proof Ho as (Hown & _ & _ & _ & _ & Hlo & Hhi & Hwf).
  unfold allocateSegment. rewrite Hown. simpl. rewrite andb_false_r. simpl.
  set (size := Z.max n (next_size_ b)).
  assert (∃ b' ptr pooled, csys = ptr ∧ pooled = (size * 8 <=? BufferPool.bufferSize_ p)%Z ∧
            b' = record_segment b ptr pooled ∧ segments b' = segments b ++ [(ptr, pooled)] ∧ owns b' p out)
    as (b1 & ptr1 & pooled1 & <- & Hpo & Hb1 & Hseg1 & Ho1).
  { eexists _, _, _. split_and!; [done..| |];
      apply (record_segment_owns b p p out csys _ Ho Hlo Hhi); try done;
      by rewrite (filter_cons_False in_block) by done. }
  rewrite <- Hpo. destruct pooled1; symmetry in Hpo.
  - destruct (BufferPool.malloc_wf lo hi p _ sys Hwf Hlo Hhi Hs) as (p' & x & Hm & Hlo' & Hhi' & Hbs & Hwf' & Hx).
    unfold BufferPool.calloc. rewrite Hm, !bind_Ret. destruct (Z.eqb_spec x 0) as [->|Hx0].
    + assert (p' = p) as ->.
      { apply Hx. unfold BufferPool.in_range. destruct Hwf as (_ & (_ & ? & _) & _). lia. }
      rewrite (proj2 (Z.eqb_neq csys 0)) by done. rewrite bind_Ret.
      exists b1, p, (BufferPool.memset m csys 0 (size * 8)), csys, size, true.
      split_and!; [by rewrite Hb1|done|done|lia|intros a; apply memset_zero|by right].
    + destruct (record_segment_owns b p p' out x true Ho Hlo' Hhi' Hwf') as [Hseg Ho2]; [done|].
      eexists _, p', _, x, size, true. split_and!; [done|done|done|lia| |intros; left; naive_solver].
      intros a Ha. apply memset_zero. rewrite Hbs. apply Z.leb_le in Hpo. lia.
  - rewrite bind_Ret. simpl. rewrite (proj2 (Z.eqb_neq csys 0)) by done. rewrite bind_Ret.
    exists b1, p, (BufferPool.memset m csys 0 (size * 8)), csys, size, false.
    split_and!; [by rewrite Hb1|done|done|lia|intros a; apply memset_zero|by right].
Qed.

Lemma destroy_owns b p out :
  owns b p out →
  ∃ p', destroy b p = Ret (p', filter (λ x, ¬ in_block x) (segments b).*1) ∧ BufferPool.wf p' out.
Proof.
  intros (Hown & Hinv & Hret & Hlen & Hfl & Hlo & Hhi & Hwf). unfold destroy, segments in *.
  rewrite Hinv, Hown. simpl. destruct (returned_first_segment_ b); [|by exists p].
  set (more := match more_segments_ b with Some (s, f) => zip s f | None => [] end) in *.
  destruct (free_segments_wf [(first_segment_ b, is_first_segment_pooled_ b)] p
              (filter in_block more.*1 ++ out)) as (p1 & H1 & Hwf1 & Hlo1 & Hhi1); try done.
  { intros x Hx%list_elem_of_singleton. apply Hfl. rewrite Hx. by left. }
  { rewrite fmap_cons in Hwf. cbn [fst] in *. change (?a :: ?l) with ([a] ++ l) in Hwf.
    by rewrite filter_app, <- app_assoc in Hwf. }
  simpl in H1. rewrite H1, bind_Ret.
  destruct (free_segments_wf more p1 out) as (p2 & H2 & Hwf2 & _); [done|done| |done|].
  { intros x Hx. apply Hfl. by right. }
  rewrite fmap_cons. cbn [fst]. change (first_segment_ b :: more.*1) with ([first_segment_ b] ++ more.*1).
  rewrite filter_app.
  destruct (more_segments_ b) as [[s f]|] eqn:Em; unfold more in *.
  - rewrite fst_zip, snd_zip in * by (rewrite (Hlen s f) by done; lia). rewrite H2, bind_Ret. by exists p2.
  - exists p1. rewrite app_nil_r. done.
Qed.

(** A builder's allocations, one after another: the requested sizes with what the system's
    allocators return. *)
Fixpoint allocate_all (b : t) (p : BufferPool.t) (m : Z → Z) (reqs : list (Z * Z * Z))
    : outcome (t * BufferPool.t * list (Z * Z)) :=
  match reqs with
  | [] => Ret (b, p, [])
  | (n, sys, csys) :: reqs' =>
      '(b, p, m, seg) ← allocateSegment b p m sys csys n;
      '(b, p, segs) ← allocate_all b p m reqs';
      Ret (b, p, seg :: segs)
  end.

End block.
End Segments.

(** ** Lemmas on whole messages *)

Lemma init_owns p out :
  BufferPool.wf p out →
  Segments.owns (BufferPool.pool_ p) (BufferPool.poolEnd_ p) (SmartCapnpBuilder.init p) p out.
Proof. intros Hwf. unfold Segments.owns. simpl. split_and!; try done. intros x. set_solver. Qed.

Lemma allocate_all_owns lo hi b p out m reqs :
  Segments.owns lo hi b p out →
  Forall (λ '(n, sys, csys), ¬ BufferPool.in_range lo hi sys ∧ ¬ BufferPool.in_range lo hi csys ∧ csys ≠ 0%Z) reqs →
  ∃ b' p' segs, Segments.allocate_all b p m reqs = Ret (b', p', segs) ∧
    Segments.owns lo hi b' p' out ∧
    (Segments.segments b').*1 = (Segments.segments b).*1 ++ segs.*1 ∧
    Forall2 (λ '(n, _, _) '(_, sz), (n <= sz)%Z) reqs segs.
Proof.
  intros Ho Hf. revert b p m Ho. induction Hf as [|[[n sys] csys] reqs (Hs & Hc & Hn) _ IH]; intros b p m Ho.
  { exists b, p, []. rewrite app_nil_r. by split_and!. }
  destruct (Segments.allocateSegment_owns lo hi b p out m sys csys n Ho Hs Hc Hn)
    as (b1 & p1 & m1 & ptr & sz & pooled & Ha & Hseg & Ho1 & Hsz & _).
  destruct (IH b1 p1 m1 Ho1) as (b2 & p2 & segs & Hall & Ho2 & Hsegs & HF).
  exists b2, p2, ((ptr, sz) :: segs). simpl. rewrite Ha, bind_Ret, Hall.
  split_and!; [done|done| |by constructor].
  rewrite Hsegs, Hseg, fmap_app, <- app_assoc. done.
Qed.

Lemma length_frame_of segs :
  length (Framing.frame_of segs) = 8 * (length segs / 2 + 1 + length (mjoin segs)).
Proof.
  unfold Framing.frame_of.
  rewrite !length_app, Framing.length_table, length_le_bytes, length_word_bytes.
  pose proof (Nat.div_mod_eq (length segs) 2). pose proof (Nat.mod_upper_bound (length segs) 2 ltac:(lia)).
  case_goal; rewrite ?length_le_bytes; cbn [length]; lia.
Qed.

Lemma build_spec `{CapnpLaws} pool out segs sys garbage :
  BufferPool.wf pool out → (∀ n, length (garbage n) = n) → segs ≠ [] →
  ∃ pool' buf, SmartCapnpBuilder.build pool segs sys garbage
                 = Ret (pool', AzmqMessage (Framing.frame_of segs) buf).
Proof.
  intros Hwf Hg Hne. unfold SmartCapnpBuilder.build. rewrite (size_spec segs Hne), bind_Ret.
  assert (∀ n, n = 8 * (length segs / 2 + 1 + length (mjoin segs)) →
            SmartCapnpBuilder.buildSmartMessage (garbage n) segs = Ret (Framing.frame_of segs)) as Hb.
  { intros n Hn. apply Framing.buildSmartMessage_frame; [done|]. by rewrite Hg. }
  rewrite Hb by done. destruct (Z.leb _ _); [|by eauto].
  destruct Hwf as (Hr & _). destruct (BufferPool.free_list pool) as [|x q] eqn:Hfl.
  - rewrite BufferPool.malloc_empty by done. rewrite !bind_Ret. eauto.
  - destruct (BufferPool.malloc_dequeue pool x q sys Hr Hfl) as (p' & -> & _). rewrite !bind_Ret. eauto.
Qed.

(** ** Properties *)

(** C23. Serialization is in bounds and exact: a message buffer of the size Cap'n Proto asks for is
    filled completely with the documented stream framing, whatever it held before: the number
    of segments less one, the size of each in words, four zero bytes when that makes an odd
    number of 32-bit entries, and the words of the segments, which can be read back. *)
Theorem serialization_framing buf segs :
  segs ≠ [] → Framing.representable segs →
  length buf = 8 * (length segs / 2 + 1 + length (mjoin segs)) →
  ∃ table out, SmartCapnpBuilder.buildSmartMessage buf segs = Ret out ∧ length out = length buf ∧
    out = table ++ word_bytes (mjoin segs) ∧ length table = 8 * (length segs / 2 + 1) ∧
    table = le_bytes 4 (Z.of_nat (length segs) - 1) ++ (segs ≫= λ s, le_bytes 4 (Z.of_nat (length s))) ++
            (if decide (length segs mod 2 = 0) then replicate 4 NUL else []) ∧
    Framing.parse out = segs.
Proof.
  intros Hne Hrep Hl. eexists _, (Framing.frame_of segs). split; [by apply Framing.buildSmartMessage_frame|].
  split; [by rewrite length_frame_of|].
  assert (Framing.frame_of segs = (le_bytes 4 (Z.of_nat (length segs) - 1) ++
            (segs ≫= λ s, le_bytes 4 (Z.of_nat (length s))) ++
            (if decide (length segs mod 2 = 0) then replicate 4 NUL else [])) ++ word_bytes (mjoin segs)) as Hf
    by (unfold Framing.frame_of; by rewrite <- !app_assoc).
  split; [exact Hf|]. split; [|split; [done|by apply Framing.parse_frame_of]].
  apply (f_equal length) in Hf. rewrite length_frame_of, (length_app _ (word_bytes _)), length_word_bytes in Hf. lia.
Qed.

(** C13. A smart message is read back as built: the reader finds the builder's identifier and
    segments, hands out the root for that type and refuses every other type with an
    exception, and gives raw buffers appended to the message by position. *)
Theorem smart_message_roundtrip `{CapnpLaws} b pool out segs sys garbage r extra :
  BufferPool.wf pool out → (∀ n, length (garbage n) = n) → segs ≠ [] → Framing.representable segs →
  (0 <= SmartCapnpBuilder.id_ b < 2 ^ 64)%Z → (Z.of_nat (length extra) < 2 ^ 32)%Z →
  open (Framing.frame_of segs) = Ret r →
  ∃ pool' m0 m1 sr,
    SmartCapnpBuilder.getSmartMessage b pool segs sys garbage = Ret (pool', [m0; m1]) ∧
    SmartMessageReader.init (msg_data m0 :: msg_data m1 :: extra) = Ret sr ∧
    SmartMessageReader.id_ sr = SmartCapnpBuilder.id_ b ∧
    Framing.parse (msg_data m1) = segs ∧
    SmartMessageReader.getRoot sr (SmartCapnpBuilder.id_ b) = root r (SmartCapnpBuilder.id_ b) ∧
    (∀ id, id ≠ SmartCapnpBuilder.id_ b → ∃ e, SmartMessageReader.getRoot sr id = Throw (runtime_error e)) ∧
    SmartMessageReader.size sr = Z.of_nat (1 + length extra) ∧
    SmartMessageReader.bufferAt sr 0 = Ret (msg_data m1) ∧
    (∀ k f, extra !! k = Some f → SmartMessageReader.bufferAt sr (Z.of_nat k + 1) = Ret f).
Proof.
  intros Hwf Hg Hne Hrep Hid Hex Hopen.
  destruct (build_spec pool out segs sys garbage Hwf Hg Hne) as (pool' & buf & Hb).
  exists pool', (AzmqMessage (le_bytes 8 (SmartCapnpBuilder.id_ b)) None), (AzmqMessage (Framing.frame_of segs) buf).
  set (fs := le_bytes 8 (SmartCapnpBuilder.id_ b) :: Framing.frame_of segs :: extra).
  assert (idFromSmartMessage fs = Ret (SmartCapnpBuilder.id_ b)) as Hi.
  { unfold idFromSmartMessage, fs. rewrite decide_True by (by rewrite length_le_bytes).
    rewrite take_ge by (by rewrite length_le_bytes). f_equal. by apply le_val_le_bytes. }
  assert (SmartCapnpReader.CapnpBufferFromAzmqMessage (Framing.frame_of segs) = Framing.frame_of segs) as Hc.
  { unfold SmartCapnpReader.CapnpBufferFromAzmqMessage. rewrite length_frame_of.
    apply take_ge. rewrite length_frame_of, Nat.mul_comm, Nat.div_mul by lia. lia. }
  exists (SmartMessageReader.mk _ fs (Some (SmartCapnpReader.mk _ (SmartCapnpBuilder.id_ b) (Framing.frame_of segs) r)) (SmartCapnpBuilder.id_ b)).
  split_and!.
  - unfold SmartCapnpBuilder.getSmartMessage. by rewrite Hb.
  - change (SmartMessageReader.init _) with (SmartMessageReader.init fs). unfold SmartMessageReader.init, SmartCapnpReader.of_vector.
    rewrite Hi, !bind_Ret. change (fs !! 1) with (Some (Framing.frame_of segs)). cbv iota.
    unfold SmartCapnpReader.of_message. by rewrite Hc, Hopen.
  - done.
  - by apply Framing.parse_frame_of.
  - unfold SmartMessageReader.getRoot, SmartCapnpReader.getRoot. simpl. by rewrite Z.eqb_refl.
  - intros id Hn. unfold SmartMessageReader.getRoot. simpl.
    rewrite (proj2 (Z.eqb_neq _ _)) by done. eauto.
  - unfold SmartMessageReader.size, u64. simpl length. rewrite Z.mod_small by lia. lia.
  - done.
  - intros k f Hk. unfold SmartMessageReader.bufferAt, u64. cbn [SmartMessageReader.message_vector_].
    pose proof (lookup_lt_Some _ _ _ Hk). rewrite Z.mod_small by lia.
    replace (Z.to_nat _) with (S (S k)) by lia. simpl. by rewrite Hk.
Qed.

(** Exactly the messages with an eight-byte first part and a second part can be opened: on
    every other message, which a peer is free to send, the reader's constructor reads
    outside the message. *)
Theorem reader_defined_iff `{Capnp} m :
  (∀ bs, defined (open bs) = true) →
  defined (SmartMessageReader.init m) = true ↔ ∃ f g rest, m = f :: g :: rest ∧ 8 <= length f.
Proof.
  intros Hop. unfold SmartMessageReader.init, SmartCapnpReader.of_vector, idFromSmartMessage.
  destruct m as [|f [|g rest]]; simpl.
  - naive_solver.
  - case_goal; naive_solver.
  - case_goal; simpl; [|naive_solver]. split; [naive_solver|]. intros _.
    unfold SmartCapnpReader.of_message. specialize (Hop (SmartCapnpReader.CapnpBufferFromAzmqMessage g)).
    by destruct (open _).
Qed.

(** C22. A builder returns what it took: every segment allocated for Cap'n Proto is at least as
    large as asked, and the destructor gives each one back exactly once, pool buffers to
    the pool, which ends up with all its buffers again, and system memory to [free]. *)
Theorem builder_releases_segments p out m reqs :
  BufferPool.wf p out →
  Forall (λ '(n, sys, csys),
    ¬ BufferPool.in_range (BufferPool.pool_ p) (BufferPool.poolEnd_ p) sys ∧
    ¬ BufferPool.in_range (BufferPool.pool_ p) (BufferPool.poolEnd_ p) csys ∧ csys ≠ 0%Z) reqs →
  ∃ b p1 segs p2,
    Segments.allocate_all (SmartCapnpBuilder.init p) p m reqs = Ret (b, p1, segs) ∧
    Forall2 (λ '(n, _, _) '(_, sz), (n <= sz)%Z) reqs segs ∧
    SmartCapnpBuilder.destroy b p1
      = Ret (p2, filter (λ x, ¬ BufferPool.in_range (BufferPool.pool_ p) (BufferPool.poolEnd_ p) x) segs.*1) ∧
    NoDup (filter (BufferPool.in_range (BufferPool.pool_ p) (BufferPool.poolEnd_ p)) segs.*1 ++ out) ∧
    BufferPool.wf p2 out.
Proof.
  intros Hwf Hf.
  destruct (allocate_all_owns _ _ _ _ _ m reqs (init_owns p out Hwf) Hf) as (b & p1 & segs & Hall & Ho & Hsegs & HF).
  destruct (Segments.destroy_owns _ _ _ _ _ Ho) as (p2 & Hd & Hwf2).
  exists b, p1, segs, p2. change ((Segments.segments (SmartCapnpBuilder.init p)).*1) with (@nil Z) in Hsegs.
  rewrite app_nil_l in Hsegs. rewrite <- Hsegs. split_and!; try done.
  destruct Ho as (_ & _ & _ & _ & _ & _ & _ & Hwf1). apply BufferPool.wf_NoDup in Hwf1.
  by apply NoDup_app in Hwf1 as (_ & _ & ?).
Qed.

(** Segments are fresh, zeroed memory: [allocateSegment] returns at least the requested number
    of words, all zero, in a buffer no other part of the program holds. *)
Theorem allocateSegment_zeroed lo hi b p out m sys csys n :
  Segments.owns lo hi b p out →
  ¬ BufferPool.in_range lo hi sys → ¬ BufferPool.in_range lo hi csys → csys ≠ 0%Z →
  ∃ b' p' m' ptr sz,
    SmartCapnpBuilder.allocateSegment b p m sys csys n = Ret (b', p', m', (ptr, sz)) ∧
    (n <= sz)%Z ∧ (∀ a, (ptr <= a < ptr + sz * 8)%Z → m' a = 0%Z) ∧
    (ptr = sys ∨ ptr = csys ∨
     ptr ∈ BufferPool.buffers p' ∧ (ptr ∉ (Segments.segments b).*1) ∧ (ptr ∉ out)).
Proof.
  intros Ho Hs Hc Hn.
  destruct (Segments.allocateSegment_owns lo hi b p out m sys csys n Ho Hs Hc Hn)
    as (b' & p' & m' & ptr & sz & pooled & Ha & Hseg & Ho' & Hsz & Hz & Hfor).
  exists b', p', m', ptr, sz. split_and!; try done.
  destruct (decide (BufferPool.in_range lo hi ptr)) as [Hin|]; [do 2 right|naive_solver].
  destruct Ho' as (_ & _ & _ & _ & _ & _ & _ & Hwf).
  rewrite Hseg, fmap_app, filter_app in Hwf. cbn [fmap list_fmap fst] in Hwf.
  rewrite (filter_cons_True (BufferPool.in_range lo hi)), filter_nil, <- app_assoc in Hwf by done.
  pose proof (BufferPool.wf_NoDup _ _ Hwf) as Hnd. destruct Hwf as (_ & _ & HP).
  apply NoDup_app in Hnd as (_ & _ & Hnd). split_and!.
  - rewrite <- HP. set_solver.
  - intros Hold. apply NoDup_app in Hnd as (_ & Hdis & _). apply (Hdis ptr); [|set_solver].
    by apply list_elem_of_filter.
  - apply NoDup_app in Hnd as (_ & _ & Hnd). apply NoDup_cons in Hnd. naive_solver.
Qed.

(** Moving a builder breaks it: the constructor marks the new builder as invalidated, so its
    destructor frees nothing, while the old builder's destructor frees the first segment the
    new one goes on using; further segments are never freed. *)
Theorem moved_builder_dangles lo hi b p out :
  Segments.owns lo hi b p out → Segments.segments b ≠ [] →
  let '(new, old) := SmartCapnpBuilder.move b in
  SmartCapnpBuilder.destroy new p = Ret (p, []) ∧
  ∃ p', SmartCapnpBuilder.destroy old p
          = Ret (p', filter (λ x, ¬ BufferPool.in_range lo hi x) [SmartCapnpBuilder.first_segment_ new]) ∧
        BufferPool.wf p' (filter (BufferPool.in_range lo hi) (drop 1 (Segments.segments new).*1) ++ out).
Proof.
  intros (Hown & Hinv & Hret & Hlen & Hfl & Hlo & Hhi & Hwf) Hne.
  unfold SmartCapnpBuilder.move. split; [done|].
  unfold SmartCapnpBuilder.destroy, Segments.segments in *. simpl. rewrite Hinv, Hown.
  destruct (SmartCapnpBuilder.returned_first_segment_ b); [|done]. simpl.
  set (first := SmartCapnpBuilder.first_segment_ b) in *.
  set (more := match SmartCapnpBuilder.more_segments_ b with Some (s, f) => zip s f | None => [] end) in *.
  destruct (Segments.free_segments_wf lo hi [(first, SmartCapnpBuilder.is_first_segment_pooled_ b)] p
              (filter (BufferPool.in_range lo hi) more.*1 ++ out)) as (p' & H1 & Hwf' & _); try done.
  { intros x Hx%list_elem_of_singleton. apply Hfl. rewrite Hx. by left. }
  { rewrite fmap_cons in Hwf. cbn [fst] in *. change (?a :: ?l) with ([a] ++ l) in Hwf.
    by rewrite filter_app, <- app_assoc in Hwf. }
  exists p'. simpl in H1. rewrite H1. split; [done|]. by rewrite drop_0.
Qed.

(** ** Witnesses *)

Definition demo_capnp : Capnp := {|
  reader := list ascii;
  value := list ascii;
  size segs := match segs with
               | [] => Throw (runtime_error "uninitialized")
               | _ => Ret (length segs / 2 + 1 + length (mjoin segs))
               end;
  open bs := Ret bs;
  root r _ := Ret r
|}.

Lemma demo_laws : CapnpLaws demo_capnp.
Proof. intros [|s segs] H; [done|]. reflexivity. Defined.

Definition demo_pool : BufferPool.t := BufferPool.init 4096 64 2 true.
Definition demo_segs : list (list Z) := [[1; 2]; [7]]%Z.
Definition demo_builder : SmartCapnpBuilder.t := SmartCapnpBuilder.set_id (SmartCapnpBuilder.init demo_pool) 77.

Lemma demo_pool_wf : BufferPool.wf demo_pool [].
Proof. apply BufferPool.init_wf; lia. Qed.

Lemma demo_representable : Framing.representable demo_segs.
Proof. split; [simpl; lia|]. repeat constructor; simpl; lia. Qed.

Lemma serialization_framing_witness :
  ∃ table out, SmartCapnpBuilder.buildSmartMessage (replicate 40 "x"%char) demo_segs = Ret out ∧
    length out = 40 ∧ drop 12 table = replicate 4 NUL ∧ Framing.parse out = demo_segs.
Proof.
  destruct (serialization_framing (replicate 40 "x"%char) demo_segs) as (table & out & H1 & H2 & _ & _ & H3 & H4);
    [discriminate|apply demo_representable|reflexivity|].
  exists table, out. split; [exact H1|]. split; [exact H2|]. split; [rewrite H3; reflexivity|exact H4].
Defined.

Lemma smart_message_roundtrip_witness :
  ∃ pool' m0 m1 sr,
    SmartCapnpBuilder.getSmartMessage (H := demo_capnp) demo_builder demo_pool demo_segs 0
      (λ n, replicate n "x"%char) = Ret (pool', [m0; m1]) ∧
    SmartMessageReader.init (H := demo_capnp) (msg_data m0 :: msg_data m1 :: [["a"%char]]) = Ret sr ∧
    SmartMessageReader.id_ sr = 77%Z ∧ SmartMessageReader.bufferAt sr 1 = Ret ["a"%char].
Proof.
  destruct (smart_message_roundtrip (C := demo_capnp) (H := demo_laws) demo_builder demo_pool [] demo_segs 0
              (λ n, replicate n "x"%char) (Framing.frame_of demo_segs) [["a"%char]])
    as (pool' & m0 & m1 & sr & H1 & H2 & H3 & _ & _ & _ & _ & _ & H4).
  - apply demo_pool_wf.
  - intros n. apply length_replicate.
  - discriminate.
  - apply demo_representable.
  - simpl. lia.
  - simpl. lia.
  - reflexivity.
  - exists pool', m0, m1, sr. split_and!; [exact H1|exact H2|exact H3|].
    apply (H4 0). reflexivity.
Defined.

Lemma reader_defined_iff_witness :
  defined (SmartMessageReader.init (H := demo_capnp) [["a"%char]]) = true ↔
  ∃ f g rest, [["a"%char]] = f :: g :: rest ∧ 8 <= length f.
Proof. apply reader_defined_iff. reflexivity. Defined.

Lemma builder_releases_segments_witness :
  ∃ b p1 segs p2,
    Segments.allocate_all (SmartCapnpBuilder.init demo_pool) demo_pool (λ _, 1%Z)
      [(3, 0, 9000); (20, 0, 9100)]%Z = Ret (b, p1, segs) ∧
    SmartCapnpBuilder.destroy b p1
      = Ret (p2, filter (λ x, ¬ BufferPool.in_range (BufferPool.pool_ demo_pool) (BufferPool.poolEnd_ demo_pool) x) segs.*1) ∧
    BufferPool.wf p2 [].
Proof.
  destruct (builder_releases_segments demo_pool [] (λ _, 1%Z) [(3, 0, 9000); (20, 0, 9100)]%Z)
    as (b & p1 & segs & p2 & H1 & _ & H2 & _ & H3).
  - apply demo_pool_wf.
  - repeat constructor; vm_compute; intuition congruence.
  - exists b, p1, segs, p2. split_and!; [exact H1|exact H2|exact H3].
Defined.

Lemma allocateSegment_zeroed_witness :
  ∃ b' p' m' ptr sz,
    SmartCapnpBuilder.allocateSegment (SmartCapnpBuilder.init demo_pool) demo_pool (λ _, 1%Z) 0 9000 3
      = Ret (b', p', m', (ptr, sz)) ∧ (3 <= sz)%Z ∧ m' ptr = 0%Z.
Proof.
  destruct (allocateSegment_zeroed 4096 (4096 + 128) (SmartCapnpBuilder.init demo_pool) demo_pool [] (λ _, 1%Z) 0 9000 3)
    as (b' & p' & m' & ptr & sz & H1 & H2 & H3 & _).
  - apply (init_owns demo_pool), demo_pool_wf.
  - vm_compute. intuition congruence.
  - vm_compute. intuition congruence.
  - discriminate.
  - exists b', p', m', ptr, sz. split_and!; [exact H1|exact H2|apply H3; lia].
Defined.

Definition demo_owner : SmartCapnpBuilder.t :=
  SmartCapnpBuilder.set_first (SmartCapnpBuilder.init demo_pool) 9000 false.

Lemma moved_builder_dangles_witness :
  SmartCapnpBuilder.destroy (SmartCapnpBuilder.move demo_owner).1 demo_pool = Ret (demo_pool, []) ∧
  ∃ p', SmartCapnpBuilder.destroy (SmartCapnpBuilder.move demo_owner).2 demo_pool
          = Ret (p', filter (λ x, ¬ BufferPool.in_range 4096 4224 x) [9000%Z]) ∧
        BufferPool.wf p' [].
Proof.
  apply (moved_builder_dangles 4096 4224 demo_owner demo_pool []); [|discriminate].
  unfold Segments.owns. split_and!; try reflexivity; try discriminate.
  - intros x [= ->]%list_elem_of_singleton. vm_compute. intuition congruence.
  - apply demo_pool_wf.
Defined.
