(* ===== verification/CharacterDevice.v ===== *)
(** * Byte-stream devices (src/a17/utils/character_device.h, character_device.cpp)

    [CharacterDevice] queues data to send in buffers of a pool and hands them one at a time
    to an asynchronous write, which may accept only part of a buffer.  The write and read
    operations belong to the derived class; here a call of [asyncSend] or [asyncReceive] is
    an effect, and the completion handlers [onSend] and [onReceive] are operations.  The
    bytes of a buffer are kept beside its address.  Sizes are naturals: [size_t] does not
    wrap, since a write never reports more bytes than it was given. *)

From S2P Require Import Prelude BufferPool.

Inductive dev_effect : Type :=
  | AsyncSend (bytes : list ascii)
  | AsyncReceive
  | CallReceive (handler : nat) (bytes : list ascii)
  | CallError (handler : nat)
  | SysFree (ptr : Z).

(** ** [class SendBuffer] *)
Module SendBuffer.

(** [pooled_]: [free_] gives the buffer back to the pool, not to [::free]. *)
Record t : Type := mk {
  buffer_ : Z;
  bytes_ : list ascii;
  maxSize_ : nat;
  size_ : nat;
  pos_ : nat;
  pooled_ : bool
}.

(** The constructors; [garbage n] is what [n] fresh bytes hold. *)
Definition of_size (sys : Z) (garbage : nat → list ascii) (maxSize : nat) : t :=
  mk sys (garbage maxSize) maxSize 0 0 false.

Definition of_pool (pool : BufferPool.t) (sys : Z) (garbage : nat → list ascii)
    : outcome (BufferPool.t * t) :=
  '(pool, ptr) ← BufferPool.malloc pool sys;
  let max := Z.to_nat (BufferPool.bufferSize_ pool) in
  Ret (pool, mk ptr (garbage max) max 0 0 true).

(** The move constructor: the new buffer, and the old one, which no longer owns memory. *)
Definition move (b : t) : t * t :=
  (b, mk 0 (bytes_ b) (maxSize_ b) (size_ b) (pos_ b) (pooled_ b)).

(** The destructor. *)
Definition destroy (b : t) (pool : BufferPool.t) : outcome (BufferPool.t * list dev_effect) :=
  if (buffer_ b =? 0)%Z then Ret (pool, [])
  else if pooled_ b then
    '(pool, f) ← BufferPool.free pool (buffer_ b);
    Ret (pool, match f with Some ptr => [SysFree ptr] | None => [] end)
  else Ret (pool, [SysFree (buffer_ b)]).

Definition reset (b : t) (size : nat) : t := mk (buffer_ b) (bytes_ b) (maxSize_ b) size 0 (pooled_ b).

Definition isSent (b : t) : bool := bool_decide (size_ b <= pos_ b).

Definition advance (b : t) (bytes : nat) : t * bool :=
  let b := mk (buffer_ b) (bytes_ b) (maxSize_ b) (size_ b) (pos_ b + bytes) (pooled_ b) in
  (b, isSent b).

(** [data()[i]], [operator[]]. *)
Definition at_ (b : t) (pos : nat) : outcome ascii := rd (bytes_ b) pos.

(** [cbuffer()]: the bytes still to be sent; they must lie in the buffer. *)
Definition cbuffer (b : t) : outcome (list ascii) :=
  if decide (pos_ b <= size_ b <= length (bytes_ b))
  then Ret (drop (pos_ b) (take (size_ b) (bytes_ b))) else Undef.

End SendBuffer.

(** ** [class CharacterDevice] *)
Module CharacterDevice.

Definition kHighWaterMark : Z := 1024.

Record t : Type := mk {
  pool_ : BufferPool.t;
  receiveHandler_ : option nat;
  errorHandler_ : option nat;
  sendBuffers_ : list SendBuffer.t;
  receiveBuffer_ : list ascii;
  highWaterMark_ : Z;
  logName_ : string
}.

Definition set_queue (d : t) (pool : BufferPool.t) (q : list SendBuffer.t) : t :=
  mk pool (receiveHandler_ d) (errorHandler_ d) q (receiveBuffer_ d) (highWaterMark_ d) (logName_ d).

(** [base] is the address of the memory of the default constructed pool. *)
Definition init (base : Z) (receiveBuffer : list ascii) (logName : string) (handler error : option nat) : t :=
  mk (BufferPool.init base BufferPool.DEFAULT_POOL_BUFFER_SIZE BufferPool.DEFAULT_POOL_BUFFER_COUNT false)
     handler error [] receiveBuffer kHighWaterMark logName.

(** The move constructor: handlers and mark are taken over, the queue is not. *)
Definition move (d : t) (base : Z) (receiveBuffer : list ascii) : t :=
  mk (BufferPool.init base BufferPool.DEFAULT_POOL_BUFFER_SIZE BufferPool.DEFAULT_POOL_BUFFER_COUNT false)
     (receiveHandler_ d) (errorHandler_ d) [] receiveBuffer (highWaterMark_ d) "".

Definition setReceiveHandler (d : t) (h : option nat) : t :=
  mk (pool_ d) h (errorHandler_ d) (sendBuffers_ d) (receiveBuffer_ d) (highWaterMark_ d) (logName_ d).

Definition sendHighWaterMark (d : t) (hwm : Z) : t :=
  mk (pool_ d) (receiveHandler_ d) (errorHandler_ d) (sendBuffers_ d) (receiveBuffer_ d) (u32 hwm) (logName_ d).

Definition exceededHighWaterMark (d : t) : bool :=
  (highWaterMark_ d <=? Z.of_nat (length (sendBuffers_ d)))%Z.

(** [onReceive]: the receive buffer holds what the read put there. *)
Definition onReceive (d : t) (ec : bool) (bytes : nat) : t * list dev_effect :=
  (d, (if ec then match errorHandler_ d with Some h => [CallError h] | None => [] end
       else match receiveHandler_ d with
            | Some h => [CallReceive h (take bytes (receiveBuffer_ d))]
            | None => []
            end) ++ [AsyncReceive]).

(** [send(copy)]: the caller's function writes to the buffer and returns a size. *)
Definition send_copy (d : t) (sys : Z) (garbage : nat → list ascii)
    (copy : list ascii → nat → outcome (list ascii * nat)) : outcome (t * list dev_effect) :=
  if exceededHighWaterMark d then Ret (d, [])
  else
    '(pool, buffer) ← SendBuffer.of_pool (pool_ d) sys garbage;
    _ ← ub_unless (negb (SendBuffer.buffer_ buffer =? 0)%Z);
    '(bytes, size) ← copy (SendBuffer.bytes_ buffer) (SendBuffer.maxSize_ buffer);
    let buffer := SendBuffer.reset
      (SendBuffer.mk (SendBuffer.buffer_ buffer) bytes (SendBuffer.maxSize_ buffer)
         (SendBuffer.size_ buffer) (SendBuffer.pos_ buffer) (SendBuffer.pooled_ buffer)) size in
    let wasEmpty := bool_decide (sendBuffers_ d = []) in
    let d := set_queue d pool (sendBuffers_ d ++ [(SendBuffer.move buffer).1]) in
    if wasEmpty
    then match sendBuffers_ d with
         | b :: _ => bs ← SendBuffer.cbuffer b; Ret (d, [AsyncSend bs])
         | [] => Undef
         end
    else Ret (d, []).

(** The lambda of [send(buffer, bytes)] at offset [i]: [memcpy] into the pool buffer. *)
Definition copy_chunk (buffer : list ascii) (bytes i : nat) (buf : list ascii) (max : nat)
    : outcome (list ascii * nat) :=
  let remain := bytes - i in
  let current := if decide (max < remain) then max else remain in
  if decide (current <= length buf ∧ i + current <= length buffer)
  then Ret (take current (drop i buffer) ++ drop current buf, current) else Undef.

(** The loop of [send(buffer, bytes)]; [sys i] is what [::malloc] returns at offset [i].
    [fuel] bounds the iterations: running out of it would be a loop that does not end. *)
Fixpoint send_loop (fuel : nat) (d : t) (sys : nat → Z) (garbage : nat → list ascii)
    (buffer : list ascii) (bytes i : nat) : outcome (t * list dev_effect) :=
  if decide (i < bytes) then
    match fuel with
    | O => Undef
    | S fuel' =>
        '(d, es) ← send_copy d (sys i) garbage (copy_chunk buffer bytes i);
        '(d, es') ← send_loop fuel' d sys garbage buffer bytes
                      (i + Z.to_nat (BufferPool.bufferSize_ (pool_ d)));
        Ret (d, es ++ es')
    end
  else Ret (d, []).

Definition send (d : t) (sys : nat → Z) (garbage : nat → list ascii) (buffer : list ascii) (bytes : nat)
    : outcome (t * list dev_effect) :=
  if exceededHighWaterMark d then Ret (d, [])
  else send_loop bytes d sys garbage buffer bytes 0.

(** [onSend]: [front()] of an empty queue is undefined; popping destroys the buffer. *)
Definition onSend (d : t) (ec : bool) (bytes : nat) : outcome (t * list dev_effect) :=
  if ec then Ret (d, [])
  else
    match sendBuffers_ d with
    | [] => Undef
    | b :: q =>
        let '(b, sent) := SendBuffer.advance b bytes in
        '(d, es) ← (if sent : bool
                    then '(pool, es) ← SendBuffer.destroy b (pool_ d); Ret (set_queue d pool q, es)
                    else Ret (set_queue d (pool_ d) (b :: q), []));
        match sendBuffers_ d with
        | [] => Ret (d, es)
        | b :: _ => bs ← SendBuffer.cbuffer b; Ret (d, es ++ [AsyncSend bs])
        end
    end.

End CharacterDevice.

(** ** The queue as a stream of bytes *)
Module Stream.
Import CharacterDevice.

(** The bytes of a buffer not yet sent. *)
Definition unsent (b : SendBuffer.t) : list ascii :=
  drop (SendBuffer.pos_ b) (take (SendBuffer.size_ b) (SendBuffer.bytes_ b)).

Definition queued (d : t) : list ascii := mjoin (unsent <$> sendBuffers_ d).

Definition buffer_size (d : t) : nat := Z.to_nat (BufferPool.bufferSize_ (pool_ d)).

(** Buffers that fit below the high-water mark. *)
Definition room (d : t) : nat := Z.to_nat (highWaterMark_ d) - length (sendBuffers_ d).

(** What [send] takes of a message: whole buffers while there is room. *)
Definition accepts (d : t) (m : list ascii) : list ascii := take (room d * buffer_size d) m.

(** The write the queue asks for. *)
Definition wanted (q : list SendBuffer.t) : list (list ascii) :=
  match q with [] => [] | b :: _ => [unsent b] end.

Definition writes (es : list dev_effect) : list (list ascii) :=
  omap (λ e, match e with AsyncSend bs => Some bs | _ => None end) es.

Definition buffer_ok (b : SendBuffer.t) : Prop :=
  SendBuffer.buffer_ b ≠ 0%Z ∧ SendBuffer.pooled_ b = true ∧
  SendBuffer.pos_ b <= SendBuffer.size_ b <= length (SendBuffer.bytes_ b).

(** The device owns its queue's buffers. *)
Definition inv (lo hi : Z) (d : t) : Prop :=
  BufferPool.pool_ (pool_ d) = lo ∧ BufferPool.poolEnd_ (pool_ d) = hi ∧
  BufferPool.wf (pool_ d) (filter (BufferPool.in_range lo hi) (SendBuffer.buffer_ <$> sendBuffers_ d)) ∧
  Forall buffer_ok (sendBuffers_ d) ∧ (0 <= highWaterMark_ d)%Z.

Lemma cbuffer_unsent b : buffer_ok b → SendBuffer.cbuffer b = Ret (unsent b).
Proof. intros (_ & _ & H). unfold SendBuffer.cbuffer. by rewrite decide_True by lia. Qed.

Lemma exceeded_room d : (0 <= highWaterMark_ d)%Z → exceededHighWaterMark d = bool_decide (room d = 0).
Proof.
  intros H. unfold exceededHighWaterMark, room.
  destruct (Z.leb_spec (highWaterMark_ d) (Z.of_nat (length (sendBuffers_ d)))); symmetry;
    [apply bool_decide_eq_true|apply bool_decide_eq_false]; lia.
Qed.

Section block.
Context (lo hi : Z) (garbage : nat → list ascii) (Hgarbage : ∀ n, length (garbage n) = n).

(** One buffer's worth of data. *)
Lemma send_copy_spec d sys copy bs n :
  inv lo hi d → ¬ BufferPool.in_range lo hi sys → sys ≠ 0%Z → room d ≠ 0 →
  copy (garbage (buffer_size d)) (buffer_size d) = Ret (bs, n) → n <= length bs →
  ∃ d' b, send_copy d sys garbage copy = Ret (d', if decide (sendBuffers_ d = []) then [AsyncSend (take n bs)] else []) ∧
    inv lo hi d' ∧ sendBuffers_ d' = sendBuffers_ d ++ [b] ∧ unsent b = take n bs ∧
    highWaterMark_ d' = highWaterMark_ d ∧ buffer_size d' = buffer_size d.
Proof.
  intros (Hlo & Hhi & Hwf & Hok & Hh) Hs Hs0 Hroom Hcopy Hn.
  destruct (BufferPool.malloc_wf lo hi (pool_ d) _ sys Hwf Hlo Hhi Hs)
    as (p' & x & Hm & Hlo' & Hhi' & Hbs & Hwf' & Hx).
  unfold send_copy. rewrite exceeded_room by done. rewrite bool_decide_eq_false_2 by done.
  unfold SendBuffer.of_pool. rewrite Hm, !bind_Ret. cbn [SendBuffer.buffer_ SendBuffer.bytes_ SendBuffer.maxSize_].
  assert (x ≠ 0%Z) as Hx0.
  { destruct (decide (BufferPool.in_range lo hi x)) as [Hin|Hout]; [|apply Hx in Hout as [-> _]; done].
    unfold BufferPool.in_range in Hin. destruct Hwf as (_ & (_ & ? & _) & _). lia. }
  rewrite (proj2 (Z.eqb_neq x 0)) by done. cbn [negb ub_unless]. rewrite bind_Ret.
  unfold buffer_size in Hcopy. rewrite Hbs, Hcopy, bind_Ret.
  set (b := (SendBuffer.move _).1).
  assert (buffer_ok b) as Hb by (repeat split; simpl; try done; lia).
  set (d' := set_queue d p' (sendBuffers_ d ++ [b])). exists d', b.
  assert (inv lo hi d') as Hinv.
  { split_and!; [done|done| |by apply Forall_app; split; [|by apply Forall_singleton]|done].
    eapply BufferPool.wf_perm; [exact Hwf'|]. simpl. rewrite fmap_app, filter_app.
    apply Permutation_app_comm. }
  split_and!; [|done|done|done|done|unfold buffer_size; simpl; by rewrite Hbs].
  destruct (sendBuffers_ d) as [|b0 q] eqn:Eq.
  - rewrite bool_decide_eq_true_2, decide_True by done. cbn [sendBuffers_ set_queue d' app].
    rewrite cbuffer_unsent by done. done.
  - rewrite bool_decide_eq_false_2, decide_False by done. done.
Qed.

Lemma send_copy_full d sys copy :
  (0 <= highWaterMark_ d)%Z → room d = 0 → send_copy d sys garbage copy = Ret (d, []).
Proof. intros Hh Hr. unfold send_copy. by rewrite exceeded_room, bool_decide_eq_true_2. Qed.

Lemma copy_chunk_spec buffer bytes i buf max :
  bytes <= length buffer → i < bytes → length buf = max →
  ∃ bs n, copy_chunk buffer bytes i buf max = Ret (bs, n) ∧ n <= length bs ∧
          take n bs = take max (drop i (take bytes buffer)).
Proof.
  intros Hb Hi Hbuf. unfold copy_chunk.
  set (current := if decide (max < bytes - i) then max else bytes - i).
  assert (current = max `min` (bytes - i)) as Hc by (unfold current; case_goal; lia).
  rewrite decide_True by lia. eexists _, _. split; [done|].
  assert (length (take current (drop i buffer)) = current) as Hl.
  { rewrite length_take, length_drop. lia. }
  split; [rewrite length_app; lia|].
  rewrite take_app_length' by done. rewrite skipn_firstn_comm, take_take. by rewrite Hc.
Qed.

Lemma send_loop_spec fuel d sys buffer bytes i :
  inv lo hi d → (∀ k, ¬ BufferPool.in_range lo hi (sys k) ∧ sys k ≠ 0%Z) → 0 < buffer_size d →
  bytes <= length buffer → bytes - i <= fuel →
  ∃ d' q es, send_loop fuel d sys garbage buffer bytes i = Ret (d', es) ∧ inv lo hi d' ∧
    sendBuffers_ d' = sendBuffers_ d ++ q ∧
    mjoin (unsent <$> q) = take (room d * buffer_size d) (drop i (take bytes buffer)) ∧
    length q <= room d ∧ highWaterMark_ d' = highWaterMark_ d ∧ buffer_size d' = buffer_size d ∧
    writes es = if decide (sendBuffers_ d = []) then wanted q else [].
Proof.
  intros Hinv Hsys. revert d i Hinv. induction fuel as [|fuel IH]; intros d i Hinv Hk Hb Hf.
  { exists d, [], []. cbn [send_loop]. rewrite decide_False by lia.
    rewrite (drop_ge (take _ _)) by (rewrite length_take; lia). rewrite take_nil, app_nil_r.
    split_and!; try done; [simpl; lia|by case_goal]. }
  cbn [send_loop]. destruct (decide (i < bytes)) as [Hi|Hi].
  2:{ exists d, [], []. rewrite (drop_ge (take _ _)) by (rewrite length_take; lia).
      rewrite take_nil, app_nil_r. split_and!; try done; [simpl; lia|by case_goal]. }
  pose proof Hinv as (_ & _ & _ & _ & Hh). destruct (decide (room d = 0)) as [Hr|Hr].
  - rewrite send_copy_full, bind_Ret by done. fold (buffer_size d).
    destruct (IH d (i + buffer_size d)) as (d' & q & es & -> & Hi' & Hq & _ & Hl & H1 & H2 & Hw); [done|done|done|lia|].
    exists d', q, es. destruct q; [|simpl in Hl; lia].
    rewrite bind_Ret, Hr, take_0. split_and!; try done; simpl; lia.
  - destruct (copy_chunk_spec buffer bytes i (garbage (buffer_size d)) (buffer_size d)) as (bs & n & Hc & Hn & Hbs);
      [done|done|apply Hgarbage|].
    destruct (Hsys i) as [Hs1 Hs2].
    destruct (send_copy_spec d (sys i) _ bs n Hinv Hs1 Hs2 Hr Hc Hn)
      as (d1 & b & -> & Hinv1 & Hq1 & Hu1 & Hh1 & Hz1).
    rewrite bind_Ret. fold (buffer_size d1). rewrite Hz1.
    destruct (IH d1 (i + buffer_size d)) as (d' & q & es & -> & Hi' & Hq & Hj & Hl & H1 & H2 & Hw);
      [done|lia|done|lia|].
    assert (room d1 = room d - 1) as Hr1.
    { unfold room in *. rewrite Hh1, Hq1, length_app. simpl. lia. }
    eexists d', (b :: q), _. rewrite bind_Ret. split; [done|]. split_and!.
    + done.
    + by rewrite Hq, Hq1, <- app_assoc.
    + rewrite fmap_cons. change (mjoin (?x :: ?l)) with (x ++ mjoin l).
      rewrite Hj, Hu1, Hbs, Hr1, Hz1, <- drop_drop, take_take_drop. f_equal. nia.
    + simpl. lia.
    + congruence.
    + congruence.
    + rewrite Hq1 in Hw. rewrite decide_False in Hw by (by destruct (sendBuffers_ d)).
      unfold writes in *. rewrite omap_app, Hw, app_nil_r. case_goal; [|done]. simpl. by rewrite Hu1.
Qed.

Lemma length_unsent b : buffer_ok b → length (unsent b) = SendBuffer.size_ b - SendBuffer.pos_ b.
Proof. intros (_ & _ & H). unfold unsent. rewrite length_drop, length_take. lia. Qed.

Lemma cbuffer_front d es :
  Forall buffer_ok (sendBuffers_ d) → writes es = [] →
  ∃ es', (match sendBuffers_ d with
          | [] => Ret (d, es)
          | b :: _ => bs ← SendBuffer.cbuffer b; Ret (d, es ++ [AsyncSend bs])
          end) = Ret (d, es') ∧ writes es' = wanted (sendBuffers_ d).
Proof.
  intros Hok Hes. destruct (sendBuffers_ d) as [|b q]; [by exists es|].
  apply Forall_cons in Hok as [Hb _]. rewrite cbuffer_unsent, bind_Ret by done.
  eexists. split; [done|]. unfold writes in *. by rewrite omap_app, Hes.
Qed.

(** A completed write of [n] bytes. *)
Lemma onSend_spec d b q n :
  inv lo hi d → sendBuffers_ d = b :: q → n <= length (unsent b) →
  ∃ d' es, onSend d false n = Ret (d', es) ∧ inv lo hi d' ∧ queued d' = drop n (queued d) ∧
    writes es = wanted (sendBuffers_ d') ∧ highWaterMark_ d' = highWaterMark_ d ∧
    buffer_size d' = buffer_size d ∧ (n = length (unsent b) → sendBuffers_ d' = q) ∧
    length (sendBuffers_ d') <= length (sendBuffers_ d).
Proof.
  intros (Hlo & Hhi & Hwf & Hok & Hh) Hq Hn. rewrite Hq in *.
  apply Forall_cons in Hok as [Hb Hok]. rewrite length_unsent in * by done.
  pose proof Hb as (Hb0 & Hp & Hsz). unfold onSend. rewrite Hq. unfold SendBuffer.advance.
  set (b' := SendBuffer.mk _ _ _ _ _ _).
  assert (unsent b' = drop n (unsent b)) as Hu by (unfold unsent, b'; simpl; by rewrite drop_drop).
  assert (queued d = unsent b ++ mjoin (unsent <$> q)) as Hqd by (unfold queued; by rewrite Hq).
  unfold SendBuffer.isSent. destruct (decide (SendBuffer.size_ b' <= SendBuffer.pos_ b')) as [Hd|Hd];
    [rewrite bool_decide_eq_true_2 by done|rewrite bool_decide_eq_false_2 by done]; simpl in Hd.
  - rewrite fmap_cons in Hwf. change (?a :: ?l) with ([a] ++ l) in Hwf. rewrite filter_app in Hwf.
    destruct (BufferPool.free_wf lo hi (pool_ d) (SendBuffer.buffer_ b) _ Hwf Hlo Hhi) as (p' & Hf & Hwf' & Hlo' & Hhi' & Hbs).
    unfold SendBuffer.destroy. simpl. rewrite (proj2 (Z.eqb_neq _ _)), Hp, Hf by done. rewrite !bind_Ret.
    set (d' := set_queue d p' q).
    edestruct (cbuffer_front d' (match (if decide (BufferPool.in_range lo hi (SendBuffer.buffer_ b)) then None
                                  else Some (SendBuffer.buffer_ b)) with Some ptr => [SysFree ptr] | None => [] end))
      as (es & He & Hw); [done|by case_goal|].
    exists d', es. split_and!; [exact He|by split_and!| |done|done|unfold buffer_size; simpl; by rewrite Hbs|done|simpl; lia].
    rewrite Hqd, drop_app, (drop_ge (unsent b)) by (rewrite length_unsent by done; lia).
    rewrite length_unsent by done. replace (n - _) with 0 by lia. done.
  - rewrite bind_Ret. set (d' := set_queue d (pool_ d) (b' :: q)).
    assert (Forall buffer_ok (sendBuffers_ d')) as Hok'.
    { constructor; [|done]. unfold buffer_ok. simpl. split_and!; [done|done|lia|lia]. }
    edestruct (cbuffer_front d' []) as (es & He & Hw); [done|done|].
    exists d', es. split_and!; [exact He|by split_and!| |done|done|done|simpl; lia|done].
    unfold queued. simpl. change (mjoin (?x :: ?l)) with (x ++ mjoin l). rewrite Hu.
    fold (queued d). rewrite Hqd, drop_app_le by (rewrite length_unsent by done; lia). done.
Qed.

End block.

(** ** Histories *)

(** The device with the writes in progress, the bytes the system took, and the bytes that
    were accepted; [failed] after a write has failed. *)
Record sys : Type := Sys {
  dev : t;
  pending : list (list ascii);
  sent : list ascii;
  accepted : list ascii;
  failed : bool
}.

Inductive event : Type :=
  | EvSend (m : list ascii) (alloc : nat → Z)
  | EvSent (n : nat)
  | EvError
  | EvReceive (ec : bool) (n : nat).

(** A completion concerns the oldest write in progress, which takes at most its bytes. *)
Definition exec (garbage : nat → list ascii) (y : sys) (e : event) : outcome sys :=
  match e with
  | EvSend m alloc =>
      '(d, es) ← send (dev y) alloc garbage m (length m);
      Ret (Sys d (pending y ++ writes es) (sent y) (accepted y ++ accepts (dev y) m) (failed y))
  | EvSent n =>
      match pending y with
      | [] => Ret y
      | bs :: rest =>
          let n := n `min` length bs in
          '(d, es) ← onSend (dev y) false n;
          Ret (Sys d (rest ++ writes es) (sent y ++ take n bs) (accepted y) (failed y))
      end
  | EvError =>
      match pending y with
      | [] => Ret y
      | _ :: rest =>
          '(d, es) ← onSend (dev y) true 0;
          Ret (Sys d (rest ++ writes es) (sent y) (accepted y) true)
      end
  | EvReceive ec n => Ret (Sys (onReceive (dev y) ec n).1 (pending y) (sent y) (accepted y) (failed y))
  end.

Fixpoint run (garbage : nat → list ascii) (y : sys) (evs : list event) : outcome sys :=
  match evs with
  | [] => Ret y
  | e :: evs' => y ← exec garbage y e; run garbage y evs'
  end.

(** System memory is not the pool's, and the system has some. *)
Definition admissible (lo hi : Z) (e : event) : Prop :=
  match e with
  | EvSend _ alloc => ∀ k, ¬ BufferPool.in_range lo hi (alloc k) ∧ alloc k ≠ 0%Z
  | _ => True
  end.

Definition sys_inv (lo hi : Z) (y : sys) : Prop :=
  inv lo hi (dev y) ∧ 0 < buffer_size (dev y) ∧ sent y ++ queued (dev y) = accepted y ∧
  length (sendBuffers_ (dev y)) <= Z.to_nat (highWaterMark_ (dev y)) ∧
  if failed y then pending y = [] ∧ sendBuffers_ (dev y) ≠ []
  else pending y = wanted (sendBuffers_ (dev y)).

Lemma dev_send_spec lo hi garbage d alloc m :
  (∀ n, length (garbage n) = n) → inv lo hi d → 0 < buffer_size d →
  (∀ k, ¬ BufferPool.in_range lo hi (alloc k) ∧ alloc k ≠ 0%Z) →
  ∃ d' q es, send d alloc garbage m (length m) = Ret (d', es) ∧ inv lo hi d' ∧
    sendBuffers_ d' = sendBuffers_ d ++ q ∧ queued d' = queued d ++ accepts d m ∧
    length q <= room d ∧ highWaterMark_ d' = highWaterMark_ d ∧ buffer_size d' = buffer_size d ∧
    writes es = if decide (sendBuffers_ d = []) then wanted q else [].
Proof.
  intros Hg Hinv Hk Ha. unfold send, accepts. pose proof Hinv as (_ & _ & _ & _ & Hh).
  rewrite exceeded_room by done. destruct (decide (room d = 0)) as [Hr|Hr].
  - rewrite bool_decide_eq_true_2 by done. exists d, [], []. rewrite Hr, !app_nil_r.
    split_and!; try done. by case_goal.
  - rewrite bool_decide_eq_false_2 by done.
    destruct (send_loop_spec lo hi garbage Hg (length m) d alloc m (length m) 0)
      as (d' & q & es & H & Hi & Hq & Hj & H1 & H2 & H3 & H4); try done; [lia|].
    exists d', q, es. split_and!; try done. unfold queued. rewrite Hq, fmap_app, join_app, Hj.
    by rewrite drop_0, firstn_all.
Qed.

Lemma exec_inv lo hi garbage y e :
  (∀ n, length (garbage n) = n) → admissible lo hi e → sys_inv lo hi y →
  ∃ y', exec garbage y e = Ret y' ∧ sys_inv lo hi y' ∧
        highWaterMark_ (dev y') = highWaterMark_ (dev y) ∧ (e ≠ EvError → failed y' = failed y).
Proof.
  intros Hg Ha (Hinv & Hk & Hs & Hb & Hp). destruct e as [m alloc|n| |ec n]; cbn [exec].
  - destruct (dev_send_spec lo hi garbage (dev y) alloc m Hg Hinv Hk Ha)
      as (d' & q & es & -> & Hi & Hq & Hqd & Hl & H1 & H2 & Hw).
    rewrite bind_Ret. eexists. split; [done|]. split; [|done]. split_and!; simpl; [done|lia| | |].
    + by rewrite Hqd, app_assoc, Hs.
    + rewrite Hq, length_app, H1. unfold room in Hl. lia.
    + rewrite Hw, Hq. destruct (failed y).
      * destruct Hp as [-> Hne]. rewrite decide_False by done. by destruct (sendBuffers_ (dev y)).
      * rewrite Hp. destruct (sendBuffers_ (dev y)); [by rewrite decide_True|by rewrite decide_False, app_nil_r].
  - destruct (pending y) as [|bs rest] eqn:Epend.
    { exists y. split; [done|]. split; [|done]. unfold sys_inv. by rewrite Epend. }
    destruct (failed y); [by destruct Hp|]. destruct (sendBuffers_ (dev y)) as [|b q] eqn:Eq; [done|].
    injection Hp as -> ->.
    destruct (onSend_spec lo hi (dev y) b q (n `min` length (unsent b)) Hinv Eq ltac:(lia))
      as (d' & es & -> & Hi & Hqd & Hw & H1 & H2 & _ & H3).
    rewrite bind_Ret. eexists. split; [done|]. split; [|done]. split_and!; simpl; [done|lia| |rewrite H1, Eq in *; lia|done].
    rewrite Hqd, <- app_assoc, <- Hs. f_equal.
    rewrite <- (take_drop (n `min` length (unsent b)) (queued (dev y))) at 2. f_equal.
    unfold queued. rewrite Eq, fmap_cons. change (mjoin (?x :: ?l)) with (x ++ mjoin l).
    by rewrite take_app_le by lia.
  - destruct (pending y) as [|bs rest] eqn:Epend.
    { exists y. split; [done|]. split; [|done]. unfold sys_inv. by rewrite Epend. }
    destruct (failed y); [by destruct Hp|]. destruct (sendBuffers_ (dev y)) as [|b q] eqn:Eq; [done|].
    injection Hp as -> ->. eexists. split; [done|]. split; [|done]. split_and!; simpl; try done; by rewrite Eq.
  - eexists. split; [done|]. done.
Qed.

Lemma run_inv lo hi garbage y evs :
  (∀ n, length (garbage n) = n) → Forall (admissible lo hi) evs → sys_inv lo hi y →
  ∃ y', run garbage y evs = Ret y' ∧ sys_inv lo hi y' ∧
        highWaterMark_ (dev y') = highWaterMark_ (dev y) ∧ (EvError ∉ evs → failed y' = failed y).
Proof.
  intros Hg Hf. revert y. induction Hf as [|e evs He _ IH]; intros y Hy; [by exists y|]. simpl.
  destruct (exec_inv lo hi garbage y e Hg He Hy) as (y1 & -> & Hy1 & Hh1 & Hf1).
  destruct (IH y1 Hy1) as (y2 & H2 & Hy2 & Hh2 & Hf2). rewrite bind_Ret. exists y2.
  split_and!; [done|done|congruence|]. intros Hn. rewrite Hf2 by set_solver. apply Hf1. set_solver.
Qed.

(** Completing every write in full empties the queue. *)
Lemma drain lo hi garbage y n :
  (∀ n, length (garbage n) = n) → sys_inv lo hi y → failed y = false →
  length (queued (dev y)) <= n →
  ∃ y', run garbage y (replicate (length (sendBuffers_ (dev y))) (EvSent n)) = Ret y' ∧
        sys_inv lo hi y' ∧ sendBuffers_ (dev y') = [] ∧ accepted y' = accepted y.
Proof.
  intros Hg. remember (length (sendBuffers_ (dev y))) as k eqn:Hk. revert y Hk.
  induction k as [|k IH]; intros y Hk Hy Hf Hn.
  { exists y. split_and!; try done. by destruct (sendBuffers_ (dev y)). }
  destruct (sendBuffers_ (dev y)) as [|b q] eqn:Eq; [done|]. simpl in Hk.
  pose proof Hy as (Hinv & Hz & Hs & Hb & Hp). rewrite Hf, Eq in Hp. simpl in Hp.
  assert (length (unsent b) <= n) as Hub.
  { revert Hn. unfold queued. rewrite Eq, fmap_cons. change (mjoin (?x :: ?l)) with (x ++ mjoin l).
    rewrite length_app. lia. }
  destruct (onSend_spec lo hi (dev y) b q (length (unsent b)) Hinv Eq ltac:(lia))
    as (d' & es & Ho & Hi & Hqd & Hw & H1 & H2 & H3 & _).
  destruct (exec_inv lo hi garbage y (EvSent n) Hg I Hy) as (y1 & He & Hy1 & _ & Hf1).
  rewrite Hf in Hf1. specialize (Hf1 ltac:(done)). cbn [replicate run]. rewrite He, bind_Ret.
  cbn [exec] in He. rewrite Hp in He. replace (n `min` length (unsent b)) with (length (unsent b)) in He by lia.
  rewrite Ho, bind_Ret in He. injection He as <-. simpl in Hf1.
  edestruct IH as (y2 & Hr & Hy2 & Hq2 & Ha2); [|exact Hy1|exact Hf1| |].
  - simpl. rewrite H3 by done. lia.
  - simpl. rewrite Hqd, length_drop. lia.
  - by exists y2.
Qed.

Definition start (base hwm : Z) (receiveBuffer : list ascii) (handler error : option nat) : sys :=
  Sys (sendHighWaterMark (init base receiveBuffer "device" handler error) hwm) [] [] [] false.

Definition pool_end (base : Z) : Z := (base + 64 * 512)%Z.

Lemma start_inv base hwm rb h eh :
  (0 < base)%Z → sys_inv base (pool_end base) (start base hwm rb h eh).
Proof.
  intros Hb.
  assert (0 <= u32 hwm)%Z as Hh by (unfold u32; apply Z.mod_pos_bound; lia).
  split_and!; simpl; try done; [|change (0 < Z.to_nat 512); lia|lia].
  unfold inv. cbn [pool_ sendBuffers_ highWaterMark_ start sendHighWaterMark init dev].
  split_and!; [done|done| |done|done].
  apply BufferPool.init_wf; [done|unfold BufferPool.DEFAULT_POOL_BUFFER_SIZE; lia|done|done].
Qed.

End Stream.

(** ** Properties *)

(** C14. Bytes leave a device in the order they were accepted: through any sequence of sends, partial
    and complete writes, write errors and receptions, what the system took followed by what
    is queued is exactly what was accepted; at most one write is in progress; and the
    queue stays within the high-water mark. *)
Theorem device_fifo base hwm rb h eh garbage evs :
  (0 < base)%Z → (∀ n, length (garbage n) = n) →
  Forall (Stream.admissible base (Stream.pool_end base)) evs →
  ∃ y, Stream.run garbage (Stream.start base hwm rb h eh) evs = Ret y ∧
    Stream.sent y ++ Stream.queued (Stream.dev y) = Stream.accepted y ∧
    length (Stream.pending y) <= 1 ∧
    (Z.of_nat (length (CharacterDevice.sendBuffers_ (Stream.dev y))) <= u32 hwm)%Z.
Proof.
  intros Hb Hg Hf.
  destruct (Stream.run_inv _ _ garbage _ evs Hg Hf (Stream.start_inv base hwm rb h eh Hb))
    as (y & Hr & (_ & _ & Hs & Hl & Hp) & Hh & _).
  exists y. split_and!; [done|done| |].
  - destruct (Stream.failed y); [destruct Hp as [-> _]; simpl; lia|]. rewrite Hp.
    destruct (CharacterDevice.sendBuffers_ (Stream.dev y)); simpl; lia.
  - rewrite Hh in Hl. change (CharacterDevice.highWaterMark_ _) with (u32 hwm) in Hl.
    assert (0 <= u32 hwm)%Z by (unfold u32; apply Z.mod_pos_bound; lia). lia.
Qed.

(** C15. Everything accepted is sent: after any history without write errors, completing the
    writes in progress empties the queue, the system has taken exactly the accepted bytes,
    and every pool buffer is free again. *)
Theorem device_drains base hwm rb h eh garbage evs :
  (0 < base)%Z → (∀ n, length (garbage n) = n) →
  Forall (Stream.admissible base (Stream.pool_end base)) evs → Stream.EvError ∉ evs →
  ∃ y n k y', Stream.run garbage (Stream.start base hwm rb h eh) evs = Ret y ∧
    Stream.run garbage y (replicate k (Stream.EvSent n)) = Ret y' ∧
    Stream.sent y' = Stream.accepted y ∧ CharacterDevice.sendBuffers_ (Stream.dev y') = [] ∧
    BufferPool.wf (CharacterDevice.pool_ (Stream.dev y')) [].
Proof.
  intros Hb Hg Hf Hne.
  destruct (Stream.run_inv _ _ garbage _ evs Hg Hf (Stream.start_inv base hwm rb h eh Hb))
    as (y & Hr & Hy & _ & Hfail).
  destruct (Stream.drain _ _ garbage y _ Hg Hy (Hfail Hne) (le_n _)) as (y' & Hd & Hy' & Hq & Ha).
  eexists y, _, _, y'. split_and!; [done|exact Hd| |done|].
  - destruct Hy' as (_ & _ & Hs & _). unfold Stream.queued in Hs. rewrite Hq in Hs.
    by rewrite app_nil_r, Ha in Hs.
  - destruct Hy' as ((_ & _ & Hwf & _) & _). by rewrite Hq in Hwf.
Qed.

(** A failed write stops a device for good: the completion handler leaves the buffer at the
    front of the queue and starts no new write, and a later [send] starts one only on an
    empty queue, so no byte is ever sent again. *)
Theorem write_error_wedges base hwm rb h eh garbage evs y evs' :
  (0 < base)%Z → (∀ n, length (garbage n) = n) →
  Forall (Stream.admissible base (Stream.pool_end base)) evs →
  Stream.run garbage (Stream.start base hwm rb h eh) evs = Ret y → Stream.failed y = true →
  Forall (Stream.admissible base (Stream.pool_end base)) evs' →
  ∃ y', Stream.run garbage y evs' = Ret y' ∧ Stream.pending y' = [] ∧ Stream.sent y' = Stream.sent y.
Proof.
  intros Hb Hg Hf Hr Hfail Hf'.
  destruct (Stream.run_inv _ _ garbage _ evs Hg Hf (Stream.start_inv base hwm rb h eh Hb))
    as (y0 & Hr0 & Hy & _). rewrite Hr in Hr0. injection Hr0 as <-.
  clear Hr. revert y Hfail Hy. induction Hf' as [|e evs' He _ IH]; intros y Hfail Hy.
  { exists y. split_and!; [done| |done]. destruct Hy as (_ & _ & _ & _ & Hp). rewrite Hfail in Hp. by destruct Hp. }
  destruct (Stream.exec_inv _ _ garbage y e Hg He Hy) as (y1 & H1 & Hy1 & _ & Hf1).
  assert (Stream.failed y1 = true ∧ Stream.sent y1 = Stream.sent y) as [Hfail1 Hs1].
  { destruct Hy as (_ & _ & _ & _ & Hp). rewrite Hfail in Hp. destruct Hp as [Hp _].
    destruct e; cbn [Stream.exec] in H1; rewrite ?Hp in H1; try (injection H1 as <-; done).
    apply bind_Ret_inv in H1 as ([d es] & _ & [= <-]). done. }
  destruct (IH y1 Hfail1 Hy1) as (y' & H2 & H3 & H4). exists y'. cbn [Stream.run].
  rewrite H1, bind_Ret. split_and!; [done|done|congruence].
Qed.

(** At the high-water mark a message is cut, not refused: [send] queues the whole buffers
    that still fit and drops the rest of the message. *)
Theorem send_truncates lo hi garbage d alloc m :
  (∀ n, length (garbage n) = n) → Stream.inv lo hi d → 0 < Stream.buffer_size d →
  (∀ k, ¬ BufferPool.in_range lo hi (alloc k) ∧ alloc k ≠ 0%Z) →
  ∃ d' es, CharacterDevice.send d alloc garbage m (length m) = Ret (d', es) ∧
    Stream.queued d' = Stream.queued d ++ take (Stream.room d * Stream.buffer_size d) m.
Proof.
  intros Hg Hinv Hk Ha.
  destruct (Stream.dev_send_spec lo hi garbage d alloc m Hg Hinv Hk Ha) as (d' & q & es & H & _ & _ & Hq & _).
  by exists d', es.
Qed.

(** ** Witnesses *)

Definition demo_garbage (n : nat) : list ascii := replicate n NUL.
Definition demo_alloc (k : nat) : Z := (1000000 + 512 * Z.of_nat k)%Z.
Definition demo_message : list ascii := replicate 700 "a"%char.
Definition demo_history : list Stream.event :=
  [Stream.EvSend demo_message demo_alloc; Stream.EvSent 100; Stream.EvReceive false 3; Stream.EvSent 500].

Lemma demo_admissible : Forall (Stream.admissible 4096 (Stream.pool_end 4096)) demo_history.
Proof.
  repeat constructor; simpl; [|unfold demo_alloc; lia].
  unfold BufferPool.in_range, Stream.pool_end, demo_alloc. lia.
Qed.

Lemma device_fifo_witness :
  ∃ y, Stream.run demo_garbage (Stream.start 4096 8 [] (Some 1) None) demo_history = Ret y ∧
    Stream.sent y ++ Stream.queued (Stream.dev y) = Stream.accepted y ∧
    length (Stream.pending y) <= 1 ∧
    (Z.of_nat (length (CharacterDevice.sendBuffers_ (Stream.dev y))) <= u32 8)%Z.
Proof.
  apply (device_fifo 4096 8 [] (Some 1) None demo_garbage demo_history);
    [lia|intros n; apply length_replicate|apply demo_admissible].
Defined.

Lemma device_drains_witness :
  ∃ y n k y', Stream.run demo_garbage (Stream.start 4096 8 [] (Some 1) None) demo_history = Ret y ∧
    Stream.run demo_garbage y (replicate k (Stream.EvSent n)) = Ret y' ∧
    Stream.sent y' = Stream.accepted y ∧ CharacterDevice.sendBuffers_ (Stream.dev y') = [] ∧
    BufferPool.wf (CharacterDevice.pool_ (Stream.dev y')) [].
Proof.
  apply (device_drains 4096 8 [] (Some 1) None demo_garbage demo_history);
    [lia|intros n; apply length_replicate|apply demo_admissible|].
  unfold demo_history. rewrite !elem_of_cons, elem_of_nil. intuition discriminate.
Defined.

Lemma write_error_wedges_witness :
  ∃ y y', Stream.run demo_garbage (Stream.start 4096 8 [] (Some 1) None) (demo_history ++ [Stream.EvError]) = Ret y ∧
    Stream.run demo_garbage y [Stream.EvSend demo_message demo_alloc] = Ret y' ∧
    Stream.pending y' = [] ∧ Stream.sent y' = Stream.sent y.
Proof.
  destruct (Stream.run demo_garbage (Stream.start 4096 8 [] (Some 1) None) (demo_history ++ [Stream.EvError]))
    as [y| |] eqn:E; [|vm_compute in E; discriminate E..].
  destruct (write_error_wedges 4096 8 [] (Some 1) None demo_garbage (demo_history ++ [Stream.EvError]) y
              [Stream.EvSend demo_message demo_alloc]) as (y' & H1 & H2 & H3).
  - lia.
  - intros n. apply length_replicate.
  - apply Forall_app. split; [apply demo_admissible|]. by repeat constructor.
  - exact E.
  - revert E. vm_compute. intros [= <-]. reflexivity.
  - pose proof demo_admissible as Hd. apply Forall_cons in Hd as [Hd _]. by constructor.
  - exists y, y'. split_and!; [reflexivity|exact H1|exact H2|exact H3].
Defined.

Lemma send_truncates_witness :
  ∃ d' es, CharacterDevice.send (Stream.dev (Stream.start 4096 1 [] None None)) demo_alloc demo_garbage
             demo_message (length demo_message) = Ret (d', es) ∧
    Stream.queued d' = [] ++ take (1 * 512) demo_message.
Proof.
  apply (send_truncates 4096 (Stream.pool_end 4096) demo_garbage (Stream.dev (Stream.start 4096 1 [] None None))
           demo_alloc demo_message).
  - intros n. apply length_replicate.
  - apply (Stream.start_inv 4096 1 [] None None). lia.
  - vm_compute. lia.
  - pose proof demo_admissible as Hd. apply Forall_cons in Hd as [Hd _]. exact Hd.
Defined.
