(* ===== verification/Timers.v ===== *)
(** * Timers (src/a17/utils/repeater.h, repeater.cpp, watchdog.h, watchdog.cpp)

    [Repeater] calls an operation on a fixed interval; [Watchdog] calls a function when it
    has not been marked for some time.  Both are built on a Boost.Asio waitable timer,
    which is outside the program: [Timer] is its interface, [TimerLaws] what Boost
    documents of it (setting the expiry or cancelling completes the waits in progress with
    [operation_aborted]; a wait that has completed can no longer be cancelled).  Times and
    durations are in ticks of the timer's clock. *)

From S2P Require Import Prelude.

Class Timer : Type := {
  timer : Type;
  expiry : timer → Z;
  waiting : timer → nat;
  expires_at : timer → Z → timer;
  async_wait : timer → timer;
  cancel : timer → timer;
  complete : timer → timer
}.

Class TimerLaws (T : Timer) : Prop := {
  expiry_expires_at t e : expiry (expires_at t e) = e;
  expiry_async_wait t : expiry (async_wait t) = expiry t;
  expiry_cancel t : expiry (cancel t) = expiry t;
  expiry_complete t : expiry (complete t) = expiry t;
  waiting_expires_at t e : waiting (expires_at t e) = 0;
  waiting_async_wait t : waiting (async_wait t) = S (waiting t);
  waiting_cancel t : waiting (cancel t) = 0;
  waiting_complete t : waiting (complete t) = 0
}.

Create Rewrite HintDb timer.
#[export] Hint Rewrite @expiry_expires_at @expiry_async_wait @expiry_cancel @expiry_complete
  @waiting_expires_at @waiting_async_wait @waiting_cancel @waiting_complete using done : timer.

(** ** [class Repeater] *)
Module Repeater.

Section with_timer.
Context `{TimerLaws}.

Record t : Type := mk { is_running_ : bool; timer_ : timer; interval_ : Z }.

(** [start()] at time [now]. *)
Definition start (r : t) (now : Z) : t :=
  if is_running_ r then r
  else mk true (async_wait (expires_at (timer_ r) (now + interval_ r))) (interval_ r).

Definition stop (r : t) : t := mk false (cancel (timer_ r)) (interval_ r).

Definition setInterval (r : t) (now interval : Z) : t :=
  let r := mk (is_running_ r) (timer_ r) interval in
  if is_running_ r then start (stop r) now else r.

Definition setIntervalMillis (r : t) (now millis : Z) : t := setInterval r now (millis * 1000000).

(** The constructors; [fresh] is a new timer. *)
Definition init (fresh : timer) (now interval : Z) (auto_start : bool) : t :=
  let r := mk false (expires_at fresh (now + interval)) interval in
  if auto_start then start r now else r.

Definition init_millis (fresh : timer) (now millis : Z) (auto_start : bool) : t :=
  init fresh now (millis * 1000000) auto_start.

(** The operation may call the repeater it runs in; [calls] are those calls, made at the
    given times, before it returns [again]. *)
Inductive call : Type :=
  | CallStart (now : Z)
  | CallStop
  | CallSetInterval (now interval : Z).

Definition do_call (r : t) (c : call) : t :=
  match c with
  | CallStart now => start r now
  | CallStop => stop r
  | CallSetInterval now interval => setInterval r now interval
  end.

(** [repeat(ec)] at time [now]; the second component is whether the operation was called. *)
Definition repeat (r : t) (ec : bool) (now : Z) (calls : list call) (again : bool) : t * bool :=
  if negb ec && is_running_ r then
    let r := foldl do_call r calls in
    if again then
      let expired := expiry (timer_ r) in
      let diff := (now - expired)%Z in
      let bump := (Z.quot (interval_ r) 2 <? diff)%Z in
      let from := if bump then now else expired in
      (mk (is_running_ r) (async_wait (expires_at (timer_ r) (from + interval_ r))) (interval_ r), true)
    else (mk false (timer_ r) (interval_ r), true)
  else (r, false).

(** [repeat(ec)] when the operation throws after its calls: the exception leaves the handler, and the
    event loop. *)
Definition repeat_throws (r : t) (ec : bool) (calls : list call) : t * bool :=
  if negb ec && is_running_ r then (foldl do_call r calls, true) else (r, false).

(** ** Histories *)

(** [due] completed waits whose handlers are still to run; [ops] operations called. *)
Record sys : Type := Sys { rep : t; due : nat; ops : nat }.

Inductive event : Type :=
  | EvCall (c : call)
  | EvExpire
  | EvAborted
  | EvFire (now : Z) (calls : list call) (again : bool).

Definition exec (y : sys) (e : event) : sys :=
  match e with
  | EvCall c => Sys (do_call (rep y) c) (due y) (ops y)
  | EvExpire => Sys (mk (is_running_ (rep y)) (complete (timer_ (rep y))) (interval_ (rep y)))
                    (due y + waiting (timer_ (rep y))) (ops y)
  | EvAborted => Sys (repeat (rep y) true 0 [] false).1 (due y) (ops y)
  | EvFire now calls again =>
      match due y with
      | O => y
      | S k =>
          let '(r, called) := repeat (rep y) false now calls again in
          Sys r k (if called : bool then S (ops y) else ops y)
      end
  end.

(** A running repeater has a wake-up coming, and never two waits in progress. *)
Definition ok (r : t) (k : nat) : Prop :=
  waiting (timer_ r) <= 1 ∧ (is_running_ r = true → 0 < waiting (timer_ r) + k).

Lemma do_call_ok r k c : ok r k → ok (do_call r c) k.
Proof.
  intros [H1 H2]. unfold ok. destruct c; simpl; unfold setInterval, stop, start; simpl;
    destruct (is_running_ r) eqn:E; simpl; autorewrite with timer; rewrite ?E; split; auto; lia.
Qed.

Lemma foldl_call_wait r calls : waiting (timer_ r) <= 1 → waiting (timer_ (foldl do_call r calls)) <= 1.
Proof.
  revert r. induction calls as [|c calls IH]; intros r Hr; [done|]. apply IH.
  destruct c; simpl; unfold setInterval, stop, start; simpl; destruct (is_running_ r); simpl;
    autorewrite with timer; lia.
Qed.

Lemma exec_ok y e : ok (rep y) (due y) → ok (rep (exec y e)) (due (exec y e)).
Proof.
  intros Hok. destruct e as [c| | |now calls again]; simpl; [by apply do_call_ok| |done|].
  - destruct Hok as [H1 H2]. split; simpl; autorewrite with timer; [lia|]. intros Hr. apply H2 in Hr. lia.
  - destruct (due y) as [|k] eqn:Ed; [by rewrite Ed|]. unfold repeat. simpl.
    destruct (is_running_ (rep y)) eqn:Er; simpl.
    + destruct Hok as [H1 _]. apply (foldl_call_wait _ calls) in H1.
      destruct again; split; simpl; autorewrite with timer; try done; lia.
    + destruct Hok as [H1 H2]. split; [done|]. by rewrite Er.
Qed.

Lemma run_ok y es : ok (rep y) (due y) → ok (rep (foldl exec y es)) (due (foldl exec y es)).
Proof. revert y. induction es as [|e es IH]; intros y Hy; [done|]. by apply IH, exec_ok. Qed.

Definition boot (fresh : timer) (now interval : Z) (auto_start : bool) : sys :=
  Sys (init fresh now interval auto_start) 0 0.

Lemma boot_ok fresh now interval auto_start :
  ok (rep (boot fresh now interval auto_start)) (due (boot fresh now interval auto_start)).
Proof. unfold ok, boot, init, start. destruct auto_start; simpl; autorewrite with timer; split; try done; lia. Qed.

(** Ticks handled no later than half an interval after their expiry, with an operation that
    leaves the repeater alone. *)
Fixpoint ticks (r : t) (lateness : list Z) : t :=
  match lateness with
  | [] => r
  | l :: ls => ticks (repeat r false (expiry (timer_ r) + l) [] true).1 ls
  end.

Lemma tick_expiry r l :
  is_running_ r = true → (l <= Z.quot (interval_ r) 2)%Z →
  let r' := (repeat r false (expiry (timer_ r) + l) [] true).1 in
  expiry (timer_ r') = (expiry (timer_ r) + interval_ r)%Z ∧ is_running_ r' = true ∧ interval_ r' = interval_ r.
Proof.
  intros Hr Hl. unfold repeat. rewrite Hr. simpl. autorewrite with timer.
  destruct (Z.ltb_spec (Z.quot (interval_ r) 2) (expiry (timer_ r) + l - expiry (timer_ r))); [lia|]. done.
Qed.

End with_timer.
End Repeater.

(** ** [class Watchdog] *)
Module Watchdog.

Section with_timer.
Context `{TimerLaws}.

Record t : Type := mk { timer_ : timer; timeout_ : Z }.

(** The constructor sets the expiry but starts no wait. *)
Definition init (fresh : timer) (now timeout : Z) : t := mk (expires_at fresh (now + timeout)) timeout.

Definition mark (w : t) (now : Z) : t :=
  mk (async_wait (expires_at (timer_ w) (now + timeout_ w))) (timeout_ w).

(** The handler of [mark]: whether the callback is called. *)
Definition handler (aborted : bool) : bool := negb aborted.

(** Histories, at the times given: [due] are the completed waits whose handler is still to
    run, each with the time of the mark that started it. *)
Record sys : Type := Sys { dog : t; due : nat; last_mark : option Z; callbacks : nat }.

Inductive event : Type :=
  | EvMark (now : Z)
  | EvExpire (now : Z)
  | EvAborted
  | EvRun.

(** A wait completes once the expiry has passed. *)
Definition exec (y : sys) (e : event) : sys :=
  match e with
  | EvMark now => Sys (mark (dog y) now) (due y) (Some now) (callbacks y)
  | EvExpire now =>
      if (expiry (timer_ (dog y)) <=? now)%Z
      then Sys (mk (complete (timer_ (dog y))) (timeout_ (dog y)))
               (due y + waiting (timer_ (dog y))) (last_mark y) (callbacks y)
      else y
  | EvAborted => Sys (dog y) (due y) (last_mark y) (if handler true then S (callbacks y) else callbacks y)
  | EvRun => match due y with
             | O => y
             | S k => Sys (dog y) k (last_mark y) (if handler false then S (callbacks y) else callbacks y)
             end
  end.

Definition boot (fresh : timer) (now timeout : Z) : sys := Sys (init fresh now timeout) 0 None 0.

Definition is_mark (e : event) : bool := match e with EvMark _ => true | _ => false end.
Definition marks (es : list event) : nat := length (filter (λ e, is_mark e = true) es).

(** Never marked: nothing is waiting.  Marked: the timer expires a time-out after the last mark. *)
Definition armed (y : sys) : Prop :=
  match last_mark y with
  | None => waiting (timer_ (dog y)) = 0
  | Some m => waiting (timer_ (dog y)) <= 1 ∧ expiry (timer_ (dog y)) = (m + timeout_ (dog y))%Z
  end.

Lemma exec_armed y e : armed y → armed (exec y e) ∧ timeout_ (dog (exec y e)) = timeout_ (dog y).
Proof.
  unfold armed. intros Hy. destruct e; simpl.
  - autorewrite with timer. split; [split; [lia|done]|done].
  - destruct (Z.leb_spec (expiry (timer_ (dog y))) now); [|done]. simpl. autorewrite with timer.
    split; [|done]. destruct (last_mark y); [|done]. split; [lia|]. apply Hy.
  - done.
  - by destruct (due y).
Qed.

(** Every callback stands for a mark. *)
Lemma exec_budget y e :
  armed y →
  callbacks (exec y e) + due (exec y e) + waiting (timer_ (dog (exec y e)))
  <= callbacks y + due y + waiting (timer_ (dog y)) + (if is_mark e then 1 else 0).
Proof.
  intros Hy. destruct e; simpl.
  - autorewrite with timer. lia.
  - destruct (Z.leb_spec (expiry (timer_ (dog y))) now); [|lia]. simpl. autorewrite with timer. lia.
  - lia.
  - destruct (due y) eqn:E; simpl; lia.
Qed.

Lemma run_budget y es :
  armed y →
  armed (foldl exec y es) ∧
  callbacks (foldl exec y es) + due (foldl exec y es) + waiting (timer_ (dog (foldl exec y es)))
  <= callbacks y + due y + waiting (timer_ (dog y)) + marks es.
Proof.
  revert y. induction es as [|e es IH]; intros y Hy; [split; [done|unfold marks; simpl; lia]|].
  destruct (exec_armed y e Hy) as [Hy' _]. destruct (IH _ Hy') as [H1 H2]. split; [done|].
  pose proof (exec_budget y e Hy). simpl in *. revert H2. unfold marks. rewrite filter_cons.
  destruct (is_mark e); [rewrite decide_True by done|rewrite decide_False by done]; simpl; lia.
Qed.

Lemma boot_armed fresh now timeout : armed (boot fresh now timeout).
Proof. unfold armed, boot, init. simpl. by autorewrite with timer. Qed.

End with_timer.
End Watchdog.

(** A timer as a record of its expiry and its waits. *)
Module SimpleTimer.

Record state : Type := mk { st_expiry : Z; st_waiting : nat }.

Definition simple_timer : Timer := {|
  timer := state;
  expiry := st_expiry;
  waiting := st_waiting;
  expires_at _ e := mk e 0;
  async_wait s := mk (st_expiry s) (S (st_waiting s));
  cancel s := mk (st_expiry s) 0;
  complete s := mk (st_expiry s) 0
|}.

Lemma simple_timer_laws : TimerLaws simple_timer.
Proof. by split. Qed.

End SimpleTimer.
Import SimpleTimer.

(** Calls that do not start a stopped repeater. *)
Definition quiet (e : Repeater.event) : bool :=
  match e with Repeater.EvCall (Repeater.CallStart _) => false | _ => true end.

(** Calls that do not stop a repeater or change its interval. *)
Definition no_stop (e : Repeater.event) : bool :=
  match e with
  | Repeater.EvCall Repeater.CallStop | Repeater.EvCall (Repeater.CallSetInterval _ _) => false
  | _ => true
  end.

(** Every look at the clock comes less than a time-out after the last mark. *)
Fixpoint kept_alive (timeout last : Z) (es : list Watchdog.event) : Prop :=
  match es with
  | [] => True
  | Watchdog.EvMark now :: es' => kept_alive timeout now es'
  | Watchdog.EvExpire now :: es' => (now < last + timeout)%Z ∧ kept_alive timeout last es'
  | _ :: es' => kept_alive timeout last es'
  end.

(** ** Properties *)

(** C34. A running repeater never stalls and never doubles: whatever calls are made on it, also by
    the operation itself, and however completions, cancellations and late handlers are
    interleaved, at most one wait is in progress, and while it is running a wait is in
    progress or a handler is due. *)
Theorem repeater_keeps_running `{TimerLaws} fresh now interval auto_start es :
  let y := foldl Repeater.exec (Repeater.boot fresh now interval auto_start) es in
  waiting (Repeater.timer_ (Repeater.rep y)) <= 1 ∧
  (Repeater.is_running_ (Repeater.rep y) = true →
   0 < waiting (Repeater.timer_ (Repeater.rep y)) + Repeater.due y).
Proof. apply Repeater.run_ok, Repeater.boot_ok. Qed.

(** The schedule does not drift and does not rush: when every tick is handled at most half an
    interval late, the expiries are exactly an interval apart however late each one was;
    and a tick handled at any later time sets the next expiry between half an interval and
    a whole interval ahead, so missed ticks are not made up for in a burst. *)
Theorem repeater_schedule `{TimerLaws} r lateness :
  Repeater.is_running_ r = true → (0 < Repeater.interval_ r)%Z →
  Forall (λ l, (l <= Z.quot (Repeater.interval_ r) 2)%Z) lateness →
  expiry (Repeater.timer_ (Repeater.ticks r lateness))
    = (expiry (Repeater.timer_ r) + Z.of_nat (length lateness) * Repeater.interval_ r)%Z ∧
  (∀ now, (expiry (Repeater.timer_ r) <= now)%Z →
     let r' := (Repeater.repeat r false now [] true).1 in
     (now + (Repeater.interval_ r - Z.quot (Repeater.interval_ r) 2) <= expiry (Repeater.timer_ r')
        <= now + Repeater.interval_ r)%Z).
Proof.
  intros Hr Hi Hl. split.
  - revert r Hr Hi Hl. induction lateness as [|l ls IH]; intros r Hr Hi Hl; simpl; [lia|].
    apply Forall_cons in Hl as [Hl Hls].
    destruct (Repeater.tick_expiry r l Hr Hl) as (He & Hr' & Hi').
    rewrite IH by (rewrite ?Hi'; done). rewrite He, Hi'. lia.
  - intros now Hn. unfold Repeater.repeat. rewrite Hr. simpl. autorewrite with timer.
    destruct (Z.ltb_spec (Z.quot (Repeater.interval_ r) 2) (now - expiry (Repeater.timer_ r)));
      pose proof (Z.quot_pos (Repeater.interval_ r) 2); lia.
Qed.

(** An operation that throws ends the repetition, but the repeater still counts as running: no wait
    is in progress, so the operation is not called again, and [start] does nothing; only
    [stop] or a new interval gets it going. *)
Theorem throwing_operation_stalls `{TimerLaws} r n es :
  Repeater.is_running_ r = true → waiting (Repeater.timer_ r) = 0 → Forall (λ e, no_stop e = true) es →
  let y := foldl Repeater.exec (Repeater.Sys (Repeater.repeat_throws r false []).1 0 n) es in
  Repeater.is_running_ (Repeater.rep y) = true ∧ Repeater.ops y = n ∧
  waiting (Repeater.timer_ (Repeater.rep y)) = 0 ∧ Repeater.due y = 0.
Proof.
  intros Hr Hw Hes. unfold Repeater.repeat_throws. rewrite Hr. cbn [negb andb fst foldl]. revert r Hr Hw.
  induction Hes as [|e es He _ IH]; intros r Hr Hw; [done|]. cbn [foldl].
  assert (∃ r', Repeater.exec (Repeater.Sys r 0 n) e = Repeater.Sys r' 0 n ∧ Repeater.is_running_ r' = true ∧
            waiting (Repeater.timer_ r') = 0) as (r' & -> & Hr' & Hw'); [|by apply IH].
  destruct e as [[now| |]| | |now calls again]; try done; simpl.
  - unfold Repeater.start. rewrite Hr. by exists r.
  - rewrite Hw. eexists. split; [done|]. simpl. by autorewrite with timer.
  - by exists r.
  - by exists r.
Qed.

(** A stopped repeater is silent: after [stop], handlers that were already due do nothing, and
    no operation is called until [start]. *)
Theorem repeater_stopped_silent `{TimerLaws} y es :
  Repeater.is_running_ (Repeater.rep y) = false → Forall (λ e, quiet e = true) es →
  Repeater.ops (foldl Repeater.exec y es) = Repeater.ops y.
Proof.
  intros Hr Hq. revert y Hr. induction Hq as [|e es He _ IH]; intros y Hr; [done|]. simpl.
  assert (Repeater.is_running_ (Repeater.rep (Repeater.exec y e)) = false ∧
          Repeater.ops (Repeater.exec y e) = Repeater.ops y) as [H1 H2]; [|by rewrite IH].
  destruct e as [[| |]| | |now calls again]; simpl; try done.
  - unfold Repeater.setInterval. simpl. by rewrite Hr.
  - destruct (Repeater.due y); [done|]. unfold Repeater.repeat. by rewrite Hr.
Qed.

(** A watchdog calls back once per mark at most, and never before it has been marked: the
    constructor starts no wait, so a watchdog that is never marked never calls back. *)
Theorem watchdog_once_per_mark `{TimerLaws} fresh now timeout es :
  Watchdog.callbacks (foldl Watchdog.exec (Watchdog.boot fresh now timeout) es) <= Watchdog.marks es.
Proof.
  destruct (Watchdog.run_budget _ es (Watchdog.boot_armed fresh now timeout)) as [_ Hb].
  revert Hb. unfold Watchdog.boot at 4 5 6, Watchdog.init. simpl. autorewrite with timer. lia.
Qed.

(** A watchdog watches: marked often enough it stays silent, and left alone for the time-out
    after a mark it calls back. *)
Theorem watchdog_watches `{TimerLaws} y m es now :
  Watchdog.due y = 0 →
  kept_alive (Watchdog.timeout_ (Watchdog.dog y)) m es →
  let y1 := foldl Watchdog.exec (Watchdog.exec y (Watchdog.EvMark m)) es in
  Watchdog.callbacks y1 = Watchdog.callbacks y ∧
  (∀ m', (m' + Watchdog.timeout_ (Watchdog.dog y) <= now)%Z →
     Watchdog.callbacks (foldl Watchdog.exec y1 [Watchdog.EvMark m'; Watchdog.EvExpire now; Watchdog.EvRun])
     = S (Watchdog.callbacks y)).
Proof.
  intros Hd Hk.
  assert (∀ es z last, Watchdog.due z = 0 → kept_alive (Watchdog.timeout_ (Watchdog.dog z)) last es →
            expiry (Watchdog.timer_ (Watchdog.dog z)) = (last + Watchdog.timeout_ (Watchdog.dog z))%Z →
            Watchdog.callbacks (foldl Watchdog.exec z es) = Watchdog.callbacks z ∧
            Watchdog.due (foldl Watchdog.exec z es) = 0 ∧
            Watchdog.timeout_ (Watchdog.dog (foldl Watchdog.exec z es)) = Watchdog.timeout_ (Watchdog.dog z)) as Hrun.
  { clear -H. intros es. induction es as [|e es IH]; intros z last Hd Hk He; [done|].
    destruct e as [t|t| |]; simpl in *.
    - apply (IH (Watchdog.exec z (Watchdog.EvMark t)) t); [done|done|]. simpl. by autorewrite with timer.
    - destruct Hk as [Hlt Hk]. destruct (Z.leb_spec (expiry (Watchdog.timer_ (Watchdog.dog z))) t); [lia|].
      by apply (IH z last).
    - by apply (IH (Watchdog.exec z Watchdog.EvAborted) last).
    - rewrite Hd. by apply (IH z last). }
  destruct (Hrun es (Watchdog.exec y (Watchdog.EvMark m)) m) as (H1 & H2 & H3); [done|done|simpl; by autorewrite with timer|].
  intros y1. split; [exact H1|]. intros m' Hm'. cbn [foldl Watchdog.exec Watchdog.mark Watchdog.dog Watchdog.timer_ Watchdog.timeout_].
  fold y1 in H1, H2, H3. simpl in H1, H3. autorewrite with timer.
  destruct (Z.leb_spec (m' + Watchdog.timeout_ (Watchdog.dog y1)) now); [|lia].
  simpl. autorewrite with timer. simpl. rewrite H2. simpl. by rewrite H1.
Qed.

(** ** Witnesses *)

Definition demo_repeater : Repeater.t (T := simple_timer) :=
  Repeater.init (T := simple_timer) (SimpleTimer.mk 0 0) 100 10 true.

Lemma repeater_schedule_witness :
  expiry (Timer := simple_timer) (Repeater.timer_ (Repeater.ticks (T := simple_timer) demo_repeater [0; 5; 2]%Z)) = 140%Z.
Proof.
  destruct (repeater_schedule (T := simple_timer) (H := simple_timer_laws) demo_repeater [0; 5; 2]%Z) as [H _].
  - reflexivity.
  - reflexivity.
  - repeat constructor; vm_compute; discriminate.
  - exact H.
Defined.

(** A due handler whose operation throws; later calls of [start] and expiries change nothing. *)
Lemma throwing_operation_stalls_witness :
  let r := Repeater.mk (T := simple_timer) true (SimpleTimer.mk 110 0) 10 in
  let y := foldl (Repeater.exec (T := simple_timer))
             (Repeater.Sys (Repeater.repeat_throws (T := simple_timer) r false []).1 0 1)
             [Repeater.EvCall (Repeater.CallStart 200); Repeater.EvExpire; Repeater.EvFire 300 [] true] in
  Repeater.is_running_ (Repeater.rep y) = true ∧ Repeater.ops y = 1.
Proof.
  intros r y. destruct (throwing_operation_stalls (T := simple_timer) (H := simple_timer_laws) r 1
    [Repeater.EvCall (Repeater.CallStart 200); Repeater.EvExpire; Repeater.EvFire 300 [] true]) as (H1 & H2 & _).
  - reflexivity.
  - reflexivity.
  - repeat constructor.
  - split; [exact H1|exact H2].
Defined.

Lemma repeater_stopped_silent_witness :
  Repeater.ops (foldl (Repeater.exec (T := simple_timer))
    (Repeater.Sys (Repeater.stop (T := simple_timer) demo_repeater) 1 7)
    [Repeater.EvFire 120 [] true; Repeater.EvExpire]) = 7.
Proof.
  apply (repeater_stopped_silent (T := simple_timer) (H := simple_timer_laws)
           (Repeater.Sys (Repeater.stop (T := simple_timer) demo_repeater) 1 7)).
  - reflexivity.
  - repeat constructor.
Defined.

Lemma watchdog_watches_witness :
  let y := Watchdog.boot (T := simple_timer) (SimpleTimer.mk 0 0) 0 10 in
  let y1 := foldl (Watchdog.exec (T := simple_timer)) (Watchdog.exec (T := simple_timer) y (Watchdog.EvMark 3))
              [Watchdog.EvExpire 12; Watchdog.EvMark 12; Watchdog.EvExpire 20] in
  Watchdog.callbacks y1 = 0.
Proof.
  apply (watchdog_watches (T := simple_timer) (H := simple_timer_laws)
           (Watchdog.boot (T := simple_timer) (SimpleTimer.mk 0 0) 0 10) 3
           [Watchdog.EvExpire 12; Watchdog.EvMark 12; Watchdog.EvExpire 20] 50).
  - reflexivity.
  - repeat split; vm_compute; reflexivity.
Defined.

Lemma repeater_keeps_running_witness :
  let y := foldl (Repeater.exec (T := simple_timer)) (Repeater.boot (T := simple_timer) (SimpleTimer.mk 0 0) 100 10 true)
             [Repeater.EvExpire; Repeater.EvCall Repeater.CallStop; Repeater.EvCall (Repeater.CallStart 105);
              Repeater.EvFire 106 [] true] in
  waiting (Timer := simple_timer) (Repeater.timer_ (Repeater.rep y)) <= 1 ∧
  (Repeater.is_running_ (Repeater.rep y) = true →
   0 < waiting (Timer := simple_timer) (Repeater.timer_ (Repeater.rep y)) + Repeater.due y).
Proof. apply (repeater_keeps_running (T := simple_timer) (H := simple_timer_laws)). Defined.

Lemma watchdog_once_per_mark_witness :
  Watchdog.callbacks (foldl (Watchdog.exec (T := simple_timer))
    (Watchdog.boot (T := simple_timer) (SimpleTimer.mk 0 0) 0 10)
    [Watchdog.EvExpire 100; Watchdog.EvRun]) <= 0.
Proof.
  apply (watchdog_once_per_mark (T := simple_timer) (H := simple_timer_laws) (SimpleTimer.mk 0 0) 0 10
           [Watchdog.EvExpire 100; Watchdog.EvRun]).
Defined.
