(* ===== verification/Logging.v ===== *)
(** * Log levels (src/a17/utils/spdlog.cpp)

    [SpdlogLevelFromString] is compiled in one of two versions.  For spdlog 1.x it asks the
    library's [from_str], a parameter; for spdlog 0.x it compares with the library's tables of
    names, parameters too. *)

From S2P Require Import Prelude.

Inductive level_enum : Set := trace | debug | info | warn | err | critical | off.

Global Instance level_enum_eq_dec : EqDecision level_enum.
Proof. solve_decision. Defined.

(** The levels in the order of their values. *)
Definition levels : list level_enum := [trace; debug; info; warn; err; critical; off].

Definition invalid_level {A} (log_level_str : string) : outcome A :=
  Throw (invalid_argument ("Invalid log level: " +:+ log_level_str)).

(** spdlog 1.x *)
Definition SpdlogLevelFromString (from_str : string → level_enum) (log_level_str : string) : outcome level_enum :=
  let level := from_str log_level_str in
  if bool_decide (level = off) && bool_decide (log_level_str ≠ "off") && bool_decide (log_level_str ≠ "O")
  then invalid_level log_level_str
  else Ret level.

(** [strncasecmp(a, b, n) == 0] on C strings without their terminators; [strcasecmp] compares
    beyond the end of both. *)
Definition lower (c : ascii) : ascii :=
  let n := N_of_ascii c in
  if (65 <=? n)%N && (n <=? 90)%N then ascii_of_N (n + 32) else c.

Fixpoint ncase_eq (n : nat) (a b : list ascii) : bool :=
  match n with
  | O => true
  | S n' =>
      match a, b with
      | [], [] => true
      | x :: a', y :: b' => Ascii.eqb (lower x) (lower y) && ncase_eq n' a' b'
      | _, _ => false
      end
  end.

Definition case_eq (a b : list ascii) : bool := ncase_eq (S (length a)) a b.

(** spdlog 0.x: the loop over the levels. *)
Fixpoint level_loop (names : list (string * string * level_enum)) (log_level_str : string) : outcome level_enum :=
  match names with
  | [] => invalid_level log_level_str
  | (name, short, level) :: names' =>
      let s := chars (c_str log_level_str) in
      if ncase_eq (String.length log_level_str) s (chars name) || case_eq s (chars short) then Ret level
      else level_loop names' log_level_str
  end.

Definition SpdlogLevelFromString_0x (level_names short_level_names : list string) (log_level_str : string)
    : outcome level_enum :=
  level_loop (zip (zip level_names short_level_names) levels) log_level_str.

(** ** Properties *)

(** What spdlog 1.x documents of [from_str]: the full names give their levels, "warn" and "err" are
    understood too, and anything else gives [off]. *)
Definition full_names : list (string * level_enum) :=
  [("trace", trace); ("debug", debug); ("info", info); ("warning", warn); ("error", err);
   ("critical", critical); ("off", off); ("warn", warn); ("err", err)].

Definition from_str_documented (from_str : string → level_enum) : Prop :=
  ∀ s, from_str s = default off (snd <$> list_find (λ p : string * level_enum, p.1 = s) full_names ≫= λ r, Some r.2).

(** With spdlog 1.x the full names are accepted, and of the short names in the documentation only
    the one for [off]: the others are refused. *)
Theorem level_short_names_refused from_str :
  from_str_documented from_str →
  Forall (λ p, SpdlogLevelFromString from_str p.1 = Ret p.2) full_names ∧
  SpdlogLevelFromString from_str "O" = Ret off ∧
  Forall (λ s, SpdlogLevelFromString from_str s = invalid_level s) ["T"; "D"; "I"; "W"; "E"; "C"; ""].
Proof.
  intros Hd. unfold SpdlogLevelFromString. split_and!.
  - repeat (constructor; [rewrite Hd; vm_compute; reflexivity|]). constructor.
  - rewrite Hd. vm_compute. reflexivity.
  - repeat (constructor; [rewrite Hd; vm_compute; reflexivity|]). constructor.
Qed.

Lemma ncase_eq_prefix a b : ncase_eq (length a) a (a ++ b) = true.
Proof. induction a as [|x a IH]; cbn; [done|]. by rewrite Ascii.eqb_refl, IH. Qed.

(** With spdlog 0.x a name is compared only as far as the text goes: the empty text, and any prefix of
    the name of the first level, is accepted as the first level. *)
Theorem level_prefix_accepted s name short names shorts :
  nul_free s = true → chars s `prefix_of` chars name →
  SpdlogLevelFromString_0x (name :: names) (short :: shorts) s = Ret trace.
Proof.
  intros Hs [k Hk]. unfold SpdlogLevelFromString_0x. cbn [zip zip_with levels level_loop].
  by rewrite c_str_nul_free, Hk, <-length_chars, ncase_eq_prefix by done.
Qed.

(** ** Witnesses *)

Definition demo_from_str (s : string) : level_enum :=
  default off (snd <$> list_find (λ p : string * level_enum, p.1 = s) full_names ≫= λ r, Some r.2).

Lemma level_short_names_refused_witness : SpdlogLevelFromString demo_from_str "O" = Ret off.
Proof. apply (level_short_names_refused demo_from_str). intros s. reflexivity. Defined.

Lemma level_prefix_accepted_witness :
  SpdlogLevelFromString_0x ["trace"; "debug"] ["T"; "D"] "tr" = Ret trace.
Proof. apply level_prefix_accepted; [reflexivity|]. exists (chars "ace"). reflexivity. Defined.
