(* ===== verification/Node.v ===== *)
(** * Nodes (src/a17/dispatch/node.h, node.cpp)

    A [Node] owns a directory, a buffer pool and an event loop, and hands out publishers,
    subscribers, reply servers and request clients for typed messages.  Here its
    constructor, shutdown and registration functions, and the message handlers it wraps
    around an application's typed handlers.  The event loop, signals and threads of Boost
    and the standard library are outside: [signal] is the handler they call, and [run]
    and [start], which only enter the loop, have no state of their own. *)

From S2P Require Import Prelude BufferPool Address Topics TopicStore Wire Directory Discovery.
From S2P Require Import Messaging Messages SmartMessage Client Server Timers.

Module Node.

Record t : Type := mk {
  name_ : string;
  pool_ : BufferPool.t;
  directory_ : Directory.t;
  signaled_shutdown_ : bool
}.

(** The constructor: [base] and [dir_base] are the addresses of the two pools' memory, the
    other arguments are those of the directory's constructor. *)
Definition init (own : OwnAddress.t) (name uuid : string) (base dir_base : Z) (garbage : list ascii)
    (address_ok open_ok join_ok : bool) (next_directory_port : option Z) : outcome (t * option Z) :=
  let name_ := if decide (name ≠ "") then name else "Node" in
  '(d, port) ← Directory.init own name_ uuid dir_base garbage address_ok open_ok join_ok next_directory_port;
  if decide (SPC ∈ chars name_) then Throw (runtime_error "Process name must not contain spaces")
  else Ret (mk name_ (BufferPool.init base BufferPool.DEFAULT_POOL_BUFFER_SIZE
                        BufferPool.DEFAULT_POOL_BUFFER_COUNT false) d false, port).

Definition stop (n : t) : t := mk (name_ n) (pool_ n) (directory_ n) true.

Definition signal (n : t) (ec : bool) : t := if ec then n else stop n.

(** [topic(topic)]; [device] is [DeviceName()]. *)
Definition topic (n : t) (device sub : string) : Topic.t := Topic.mk device (name_ n) sub.

Definition newCapnpMessageBuilder (n : t) : SmartCapnpBuilder.t := SmartCapnpBuilder.init (pool_ n).

(** [typeOf<T>()] of the struct type with identifier [id]. *)
Definition typeOf (id : Z) : string := to_string id.

Definition set_directory (n : t) (d : Directory.t) : t := mk (name_ n) (pool_ n) d (signaled_shutdown_ n).

Definition registerCapnpPublisher (zbind : string → option (option string)) (sys : gset Z → Z)
    (fresh : list ascii) (own : OwnAddress.t) (n : t) (now id : Z) (tp : Topic.t) : outcome (Server.t * t) :=
  '(s, d) ← Server.publisher zbind sys fresh (directory_ n) now (Topic.to_str tp) {[typeOf id]}
              (Address.of_port own 0);
  Ret (s, set_directory n d).

(** The subscriber, with the default filter; [ref] is what observing the topic returned and
    [handler] the wrapped message handler. *)
Definition registerCapnpSubscriber (tp : Topic.t) (ref : string) (handler self : nat)
    : outcome (Client.result * (Listener.t * (Socket.t * list sock_effect)) * list (list ascii)) :=
  Server.subscriber (Topic.to_str tp) ref handler self None {[""]}.

(** [registerCapnpReplyServerAsync]: the server on the topic and its listening socket; [handler]
    is the wrapped request handler ([on_request] below). *)
Definition registerCapnpReplyServerAsync (zbind : string → option (option string)) (sys : gset Z → Z)
    (fresh : list ascii) (own : OwnAddress.t) (n : t) (now request_id reply_id : Z) (tp : Topic.t)
    (self handler : nat) : outcome (Server.t * t * (ReplyServer.t * (Socket.t * list sock_effect))) :=
  '(s, d, r) ← Server.reply_server zbind sys fresh (directory_ n) now (Topic.to_str tp)
                 {[typeOf request_id]} {[typeOf reply_id]} self handler None (Address.of_port own 0);
  Ret (s, set_directory n d, r).

(** [registerRepeater]; [fresh] is the new timer. *)
Definition registerRepeater `{Timer} (fresh : timer) (now millis : Z) (auto_start : bool) : Repeater.t :=
  Repeater.init_millis fresh now millis auto_start.

(** [newRequestClient]; [ref] is what observing the topic returned. *)
Definition newRequestClient (tp : Topic.t) (ref : string) : RequestClient.result :=
  RequestClient.init (Topic.to_str tp) None None ref.

(** What happens to the application: its typed handler, or its error handler, is called. *)
Inductive app_call (V : Type) : Type :=
  | Handled (v : V)
  | Failed (e : exn).

Arguments Handled {V} v.
Arguments Failed {V} e.

(** The handler a subscriber is given: [id] is the identifier of [T], [handler v] what the
    application's handler throws, if anything. *)
Definition on_message `{Capnp} (id : Z) (handler : value → option exn) (msg_vec : message_vector)
    : outcome (list (app_call value)) :=
  match (reader ← SmartCapnpReader.of_vector msg_vec; SmartCapnpReader.getRoot reader id) with
  | Ret request =>
      match handler request with
      | None => Ret [Handled request]
      | Some e => Ret [Handled request; Failed e]
      end
  | Throw e => Ret [Failed e]
  | Undef => Undef
  end.

(** The handler a reply server is given: the application's request handler sends these
    replies and then returns or throws; so does its error handler. *)
Definition on_request `{Capnp} (id : Z) (respond : value → list message_vector * option exn)
    (recover : exn → list message_vector * bool) (msg_vec : message_vector) : outcome ReplyServer.behaviour :=
  match (reader ← SmartCapnpReader.of_vector msg_vec; SmartCapnpReader.getRoot reader id) with
  | Ret request =>
      match respond request with
      | (ms, None) => Ret (ReplyServer.Behaviour ms false)
      | (ms, Some e) => let '(ms', th) := recover e in Ret (ReplyServer.Behaviour (ms ++ ms') th)
      end
  | Throw e => let '(ms, th) := recover e in Ret (ReplyServer.Behaviour ms th)
  | Undef => Undef
  end.

(** ** Publishing and receiving *)

Section capnp.
Context `{CapnpLaws}.

(** What a publisher sends: messages built by builders with these identifiers and segments;
    [sys] is what [::malloc] returns and [results] what ZeroMQ returns. *)
Record publication : Type := Publication {
  pub_id : Z;
  pub_segments : list (list Z);
  pub_sys : Z;
  pub_results : list (option nat)
}.

Definition publish (garbage : nat → list ascii) (pool : BufferPool.t) (p : publication)
    : outcome (BufferPool.t * list wire_frame) :=
  '(pool, ms) ← SmartCapnpBuilder.getSmartMessage
                  (SmartCapnpBuilder.set_id (SmartCapnpBuilder.init pool) (pub_id p)) pool
                  (pub_segments p) (pub_sys p) garbage;
  Ret (pool, transmitted (Socket.send (msg_data <$> ms) (pub_results p)).1.1).

Fixpoint publish_all (garbage : nat → list ascii) (pool : BufferPool.t) (ps : list publication)
    : outcome (BufferPool.t * list wire_frame) :=
  match ps with
  | [] => Ret (pool, [])
  | p :: ps' =>
      '(pool, fs) ← publish garbage pool p;
      '(pool, fs') ← publish_all garbage pool ps';
      Ret (pool, fs ++ fs')
  end.

(** The application calls for the messages a listener delivers. *)
Fixpoint dispatch (id : Z) (handler : value → option exn) (ms : list message_vector)
    : outcome (list (app_call value)) :=
  match ms with
  | [] => Ret []
  | m :: ms' =>
      cs ← on_message id handler m;
      cs' ← dispatch id handler ms';
      Ret (cs ++ cs')
  end.

(** What a subscriber to [id] should see of a publication. *)
Definition expected (id : Z) (handler : value → option exn) (p : publication) : list (app_call value) :=
  if decide (pub_id p = id) then
    match (r ← open (Framing.frame_of (pub_segments p)); root r id) with
    | Ret v => match handler v with None => [Handled v] | Some e => [Handled v; Failed e] end
    | Throw e => [Failed e]
    | Undef => []
    end
  else
    match open (Framing.frame_of (pub_segments p)) with
    | Throw e => [Failed e]
    | _ => [Failed (runtime_error ("Type in getRoot<> (" +:+ to_string id +:+
              ") doesn't match id in message (" +:+ to_string (pub_id p) +:+ ")"))]
    end.

Definition publishable (lo hi : Z) (p : publication) : Prop :=
  (0 <= pub_id p < 2 ^ 64)%Z ∧ pub_segments p ≠ [] ∧ ¬ BufferPool.in_range lo hi (pub_sys p) ∧
  send_succeeds [[]; []] (pub_results p) ∧
  ∃ r, (open (Framing.frame_of (pub_segments p)) = Ret r ∧ defined (root r (pub_id p)) = true).

Definition smart_frames (p : publication) : message_vector :=
  [le_bytes 8 (pub_id p); Framing.frame_of (pub_segments p)].

Lemma smart_frames_nonempty p : nonempty_frames (smart_frames p) = smart_frames p.
Proof.
  unfold smart_frames. rewrite !nonempty_cons.
  rewrite !decide_True; [done| |by rewrite length_le_bytes; lia].
  rewrite length_frame_of. lia.
Qed.

Lemma publish_spec lo hi garbage pool out p :
  (∀ n, length (garbage n) = n) → publishable lo hi p →
  BufferPool.wf pool out → BufferPool.pool_ pool = lo → BufferPool.poolEnd_ pool = hi →
  ∃ pool' out', publish garbage pool p = Ret (pool', frames_of (smart_frames p)) ∧
    BufferPool.wf pool' out' ∧ BufferPool.pool_ pool' = lo ∧ BufferPool.poolEnd_ pool' = hi.
Proof.
  intros Hg (Hid & Hne & Hsys & (sizes & Hres & Hlen) & _) Hwf Hlo Hhi. unfold publish, SmartCapnpBuilder.getSmartMessage.
  assert (send_succeeds (smart_frames p) (pub_results p)) as Hsend by (by exists sizes).
  pose proof (send_succeeds_spec _ _ Hsend) as Ht.
  destruct (build_spec pool out (pub_segments p) (pub_sys p) garbage Hwf Hg Hne) as (pool' & buf & Hb).
  rewrite Hb, !bind_Ret. cbn [SmartCapnpBuilder.id_ SmartCapnpBuilder.set_id fmap list_fmap msg_data].
  exists pool'. revert Hb. unfold SmartCapnpBuilder.build. rewrite (size_spec _ Hne), bind_Ret.
  destruct (BufferPool.malloc_wf lo hi pool out (pub_sys p) Hwf Hlo Hhi Hsys) as (p' & x & Hm & Hlo' & Hhi' & _ & Hwf' & _).
  rewrite Hm. destruct (Z.leb _ _).
  - intros Hb. apply bind_Ret_inv in Hb as ([q y] & [= <- <-] & Hb).
    apply bind_Ret_inv in Hb as (data & _ & [= -> _ _]). eexists. split_and!; [do 2 f_equal; exact Ht|done..].
  - intros Hb. apply bind_Ret_inv in Hb as (data & _ & [= -> _ _]). eexists. split_and!; [do 2 f_equal; exact Ht|done..].
Qed.

Lemma publish_all_spec lo hi garbage pool out ps :
  (∀ n, length (garbage n) = n) → Forall (publishable lo hi) ps →
  BufferPool.wf pool out → BufferPool.pool_ pool = lo → BufferPool.poolEnd_ pool = hi →
  ∃ pool', publish_all garbage pool ps = Ret (pool', (smart_frames <$> ps) ≫= frames_of).
Proof.
  intros Hg Hf. revert pool out. induction Hf as [|p ps Hp _ IH]; intros pool out Hwf Hlo Hhi; [by exists pool|].
  destruct (publish_spec lo hi garbage pool out p Hg Hp Hwf Hlo Hhi) as (pool1 & out1 & H1 & Hwf1 & Hlo1 & Hhi1).
  destruct (IH pool1 out1 Hwf1 Hlo1 Hhi1) as (pool2 & H2).
  exists pool2. cbn [publish_all]. by rewrite H1, bind_Ret, H2.
Qed.

Lemma on_message_spec lo hi id handler p :
  publishable lo hi p → on_message id handler (smart_frames p) = Ret (expected id handler p).
Proof.
  intros (Hid & _ & _ & _ & r & Hopen & Hdef). unfold on_message, expected, SmartCapnpReader.of_vector, smart_frames.
  unfold idFromSmartMessage. rewrite decide_True by (by rewrite length_le_bytes).
  rewrite take_ge by (by rewrite length_le_bytes). rewrite le_val_le_bytes, bind_Ret by (simpl; lia).
  cbn [lookup list_lookup]. unfold SmartCapnpReader.of_message, SmartCapnpReader.CapnpBufferFromAzmqMessage.
  rewrite length_frame_of, take_ge by (rewrite length_frame_of, Nat.mul_comm, Nat.div_mul by lia; lia).
  rewrite Hopen, !bind_Ret. unfold SmartCapnpReader.getRoot. cbn [SmartCapnpReader.id_ SmartCapnpReader.reader_].
  destruct (Z.eqb_spec (pub_id p) id) as [<-|Hn].
  - rewrite decide_True by done. destruct (root r (pub_id p)) as [v|e|]; [by destruct (handler v)|done|done].
  - rewrite decide_False by done. done.
Qed.

Lemma dispatch_spec lo hi id handler ps :
  Forall (publishable lo hi) ps → dispatch id handler (smart_frames <$> ps) = Ret (ps ≫= expected id handler).
Proof.
  induction 1 as [|p ps Hp _ IH]; [done|]. cbn [fmap list_fmap dispatch].
  by rewrite (on_message_spec lo hi) by done; rewrite bind_Ret, IH.
Qed.

End capnp.

(** ** Requests and replies *)

(** What a behaviour of the application's handler comes to on the socket. *)
Definition answers_of (b : ReplyServer.behaviour) : list message_vector :=
  ReplyServer.replies b ++ (if ReplyServer.throws b then [[]] else []).

Lemma recover_answers (recover : exn → list message_vector * bool) e :
  length (recover e).1 + (if (recover e).2 then 1 else 0) = 1 →
  ∃ b reply, (let '(ms, th) := recover e in Ret (ReplyServer.Behaviour ms th)) = Ret b ∧ answers_of b = [reply].
Proof.
  intros Hrec. unfold answers_of.
  destruct (recover e) as [[|m [|m' ms]] th]; simpl in Hrec; destruct th; try lia; by eexists _, _.
Qed.

Lemma on_request_answers {C : Capnp} id (respond : value → list message_vector * option exn)
    (recover : exn → list message_vector * bool) f g rest :
  (∀ bs, defined (open bs) = true) → (∀ (x : reader) k, defined (root x k) = true) → 8 <= length f →
  (∀ v, match respond v with (ms, None) => length ms = 1 | (ms, Some _) => ms = [] end) →
  (∀ e, length (recover e).1 + (if (recover e).2 then 1 else 0) = 1) →
  ∃ b reply, on_request id respond recover (f :: g :: rest) = Ret b ∧ answers_of b = [reply].
Proof.
  intros Hop Hroot Hf Hresp Hrec. unfold on_request.
  assert (defined (reader ← SmartCapnpReader.of_vector (f :: g :: rest); SmartCapnpReader.getRoot reader id) = true) as Hdef.
  { apply bind_defined.
    - unfold SmartCapnpReader.of_vector, idFromSmartMessage. rewrite decide_True by done. rewrite bind_Ret. simpl.
      unfold SmartCapnpReader.of_message. apply bind_defined; done.
    - intros a _. unfold SmartCapnpReader.getRoot. destruct (Z.eqb _ _); [apply Hroot|done]. }
  destruct (reader ← _; _) as [v|e|]; [|by apply recover_answers|done].
  specialize (Hresp v). destruct (respond v) as [ms [e|]].
  - subst ms. destruct (recover_answers recover e (Hrec e)) as (b & reply & H1 & H2). exists b, reply.
    by destruct (recover e).
  - destruct ms as [|m [|m' ms]]; simpl in Hresp; try lia. by eexists _, _.
Qed.

(** A behaviour with one answer transmits it and re-arms the socket once. *)
Lemma answers_once r b results s m reply :
  answers_of b = [reply] → Forall2 send_succeeds [reply] results →
  ∃ s' es, ReplyServer.onRequest r b results s m = Ret (s', es) ∧
    transmitted es = frames_of reply ∧ armed es = 1.
Proof.
  intros Hr HF. rewrite <- Hr in HF.
  destruct (onRequest_spec r b results s m HF) as (s' & es & H1 & H2 & H3 & _).
  exists s', es. split; [done|]. unfold answers_of in Hr. rewrite H2, Hr. split; [cbn; by rewrite app_nil_r|].
  rewrite H3. apply (f_equal length) in Hr. rewrite length_app in Hr. by destruct (ReplyServer.throws b).
Qed.

(** ** Properties *)

(** C5. Publishing reaches subscribers: for any sequence of typed messages built and published on
    one node whose frames arrive, a subscriber to a type calls its typed handler with the
    root of each message of that type, in order, and its error handler for each message
    of another type or that does not parse; nothing is lost, duplicated or handed on with
    the wrong type, and the subscriber is listening again. *)
Theorem publish_subscribe `{CapnpLaws} garbage n out ps id handler l s :
  (∀ k, length (garbage k) = k) → BufferPool.wf (pool_ n) out →
  Forall (publishable (BufferPool.pool_ (pool_ n)) (BufferPool.poolEnd_ (pool_ n))) ps →
  ∃ pool' fs es,
    publish_all garbage (pool_ n) ps = Ret (pool', fs) ∧
    Listener.listen l (listening l s []) fs = Ret (listening l s [], es) ∧
    dispatch id handler (delivered es) = Ret (ps ≫= expected id handler).
Proof.
  intros Hg Hwf Hf.
  destruct (publish_all_spec _ _ garbage (pool_ n) out ps Hg Hf Hwf eq_refl eq_refl) as (pool' & Hp).
  destruct (listen_messages l s (smart_frames <$> ps)) as (es & Hl & Hd & _).
  exists pool', ((smart_frames <$> ps) ≫= frames_of), es. split_and!; [done|done|].
  rewrite Hd, <- (dispatch_spec _ _ id handler ps Hf), <- list_fmap_compose. f_equal.
Qed.

(** One request, one reply: when the application answers a request once, or throws without
    answering and its error handler answers once, a reply server transmits exactly that
    reply for every request that can be opened and is ready for the next one. *)
Theorem one_reply_per_request {C : Capnp} id (respond : value → list message_vector * option exn)
    (recover : exn → list message_vector * bool) r s f g rest :
  (∀ bs, defined (open bs) = true) → (∀ (x : reader) k, defined (root x k) = true) → 8 <= length f →
  (∀ v, match respond v with (ms, None) => length ms = 1 | (ms, Some _) => ms = [] end) →
  (∀ e, length (recover e).1 + (if (recover e).2 then 1 else 0) = 1) →
  ∃ b reply, on_request id respond recover (f :: g :: rest) = Ret b ∧
    ∀ results, Forall2 send_succeeds [reply] results →
    ∃ s' es, ReplyServer.onRequest r b results s (f :: g :: rest) = Ret (s', es) ∧
      transmitted es = frames_of reply ∧ armed es = 1.
Proof.
  intros Hop Hroot Hf Hresp Hrec.
  destruct (on_request_answers id respond recover f g rest Hop Hroot Hf Hresp Hrec) as (b & reply & Hb & Hr).
  exists b, reply. split; [done|]. intros results HF. by apply answers_once.
Qed.

(** ** Witnesses *)

Definition demo_garbage (k : nat) : list ascii := replicate k NUL.

Definition demo_publications : list publication :=
  [Publication 77 [[1; 2]; [7]]%Z 0 (Some <$> [8; 40; 0]);
   Publication 78 [[3]]%Z 0 (Some <$> [8; 16; 0])].

Lemma demo_publishable : Forall (publishable (C := demo_capnp) 4096 4224) demo_publications.
Proof.
  assert (∀ a b c : nat, send_succeeds [[]; []] (Some <$> [a; b; c])) as Hs.
  { intros a b c. exists [a; b; c]. split; [reflexivity|simpl; lia]. }
  repeat apply Forall_cons_2; [| |constructor]; (split; [simpl; lia|]); (split; [discriminate|]);
    (split; [vm_compute; intuition congruence|]); (split; [apply Hs|by eexists]).
Qed.

Lemma publish_subscribe_witness :
  ∃ pool' fs es,
    publish_all (C := demo_capnp) demo_garbage demo_pool demo_publications = Ret (pool', fs) ∧
    Listener.listen (Listener.mk 1 None 0) (listening (Listener.mk 1 None 0) (Socket.init "Subscriber") []) fs
      = Ret (listening (Listener.mk 1 None 0) (Socket.init "Subscriber") [], es) ∧
    dispatch (C := demo_capnp) 77 (λ _, None) (delivered es)
      = Ret (demo_publications ≫= expected (C := demo_capnp) 77 (λ _, None)).
Proof.
  apply (publish_subscribe (C := demo_capnp) (H := demo_laws) demo_garbage
           (mk "n" demo_pool (Directory.mk "" (TopicStore.init "") demo_pool ∅ ∅ [] [] false 0 0 []) false)
           [] demo_publications 77 (λ _, None) (Listener.mk 1 None 0) (Socket.init "Subscriber")).
  - intros k. apply length_replicate.
  - apply demo_pool_wf.
  - apply demo_publishable.
Defined.

Lemma one_reply_per_request_witness :
  ∃ b reply, on_request (H := demo_capnp) 77 (λ v, ([[v]], None)) (λ _, ([], true)) [le_bytes 8 77; le_bytes 8 0] = Ret b ∧
    ∀ results, Forall2 send_succeeds [reply] results →
    ∃ s' es, ReplyServer.onRequest (ReplyServer.mk 0 1 None) b results (Socket.init "ReplyServer")
               [le_bytes 8 77; le_bytes 8 0] = Ret (s', es) ∧
      transmitted es = frames_of reply ∧ armed es = 1.
Proof.
  apply (one_reply_per_request (C := demo_capnp) 77 (λ v, ([[v]], None)) (λ _, ([], true))
           (ReplyServer.mk 0 1 None) (Socket.init "ReplyServer") (le_bytes 8 77) (le_bytes 8 0) []);
    try reflexivity; vm_compute; lia.
Defined.

End Node.
