(* ===== verification/EndToEnd.v ===== *)
(** * From one application to another (src/a17/dispatch/)

    The components composed along the two paths an application uses: a publisher created on
    one node is found by a subscriber on another and its messages reach the subscriber's
    handler; a reply server is found by a request client and requests are answered like
    calls.  No code is modelled here: the constructors, handlers and sockets of the
    other files are put together the way the effects they return say, over a transport that
    keeps the order of messages and may lose any of them, but not parts of one ([carried],
    [fate]), and a timer whose completed wait cannot be cancelled. *)

From S2P Require Import Prelude BufferPool Address Topics TopicStore Wire Directory Discovery Protocol.
From S2P Require Import Messaging Messages SmartMessage Client Server Node.

Module EndToEnd.
Import Discovery.

(** ** Finding each other *)

(** The first provider of an observed topic: its advertisement calls the observers with it, and
    then the next datagram is awaited. *)
Lemma advertised_to `{Inet} own sys fresh lo hi d now g n ty a ins outs info o :
  malloc_fresh sys lo hi → length fresh = EVENT_BUFFER_SIZE → inv lo hi d →
  wire_word g → g ≠ Directory.my_guid_ d → describable n ty a ins outs →
  buildTopicInfo n ty a ins outs = Ret info →
  OwnAddress.onNetwork own (Address.ip_ (Address.parse a)) = true →
  length (Directory.message g DISCOVERY_AVAILABLE info) <= EVENT_BUFFER_SIZE →
  TopicStore.network_topics_ (Directory.topics_ d) !! n = None →
  (n, o) ∈ TopicStore.observers (Directory.topics_ d) →
  ∃ d' ns, Directory.event own sys fresh d now false (Directory.message g DISCOVERY_AVAILABLE info) = Ret d' ∧
    Directory.calls d' = Directory.calls d ++ (Directory.Handler <$> ns) ++ [Directory.AsyncReceive] ∧
    TopicStore.Notify (TopicStore.handler o) n {[g := mkDirectoryTopic n now ty a ins outs g info]} ∈ ns.
Proof.
  intros Hsys Hfr Hi Hg Hne Hd Hinfo Hnet Hl Hnone Ho.
  destruct (available_received own sys fresh lo hi Hfr d now g n ty a ins outs info Hi Hg Hne Hd Hinfo Hnet Hl)
    as (d' & st & ns & He & _ & Hadd & _ & Hc).
  destruct (Protocol.add_first _ _ _ _ _ Hadd Hnone) as [_ Hcalls].
  exists d', ns. split; [done|]. split; [done|]. by apply Hcalls.
Qed.

(** Observing a topic: the observer is on record and the table is as before. *)
Lemma observed `{Inet} (own : OwnAddress.t) sys (fresh : list ascii) lo hi d n h uuid :
  malloc_fresh sys lo hi → length fresh = EVENT_BUFFER_SIZE → inv lo hi d →
  name_fits (Directory.my_guid_ d) n →
  let d' := (Directory.observe d n h uuid).2 in
  inv lo hi d' ∧ Directory.my_guid_ d' = Directory.my_guid_ d ∧
  TopicStore.network_topics_ (Directory.topics_ d') = TopicStore.network_topics_ (Directory.topics_ d) ∧
  (n, TopicStore.mkObserver h uuid) ∈ TopicStore.observers (Directory.topics_ d').
Proof.
  intros Hsys Hfr Hi Hn d'.
  destruct (step_ok sys fresh lo hi Hsys Hfr own d (Observe n h uuid) Hi Hn)
    as [(d2 & Hs & Hi2 & _)|[(m & _ & Hs)|(m & l & ? & _)]]; [|done|done].
  cbn [step] in Hs. fold d' in Hs. injection Hs as <-. split; [done|].
  unfold d', Directory.observe, Directory.startQueryTimer. cbn [TopicStore.observe].
  destruct (Directory.queryTimerActive_ _); cbn; (split; [done|]; split; [done|];
    apply elem_of_app; right; by apply list_elem_of_singleton).
Qed.

(** A client that is not connected connects to the one provider. *)
Lemma client_connects zok c g y :
  Client.addresses_ c = ∅ → zok (dt_address y) = true →
  ∃ c' es, Client.onDirectoryTopicsChanged zok c {[g := y]} = Ret (c', es, None) ∧
    Client.addresses_ c' = {[dt_address y]} ∧ Client.connected es = [dt_address y].
Proof.
  intros Hc Hz. unfold Client.onDirectoryTopicsChanged. rewrite map_iter_singleton. cbn [fmap list_fmap snd].
  cbn [Client.connect_all]. rewrite decide_False by (rewrite Hc; set_solver).
  unfold Client.connect. rewrite decide_False by (rewrite Hc; set_solver). rewrite Hz. cbn [negb].
  match goal with |- context [Client.disconnect_all zok ?x _ _] => set (s1 := x) end.
  assert (Client.addresses_ s1 = {[dt_address y]}) as Ha by (unfold s1; simpl; rewrite Hc; set_solver).
  rewrite Client.disconnect_all_spec by (intros a; by rewrite elem_of_set_iter).
  rewrite decide_True.
  - rewrite bind_Ret. do 2 eexists. split; [done|]. split; [done|]. rewrite !app_nil_r.
    cbn. by destruct (Client.on_connect_ c).
  - apply Forall_forall. intros a Hin%elem_of_set_iter. rewrite Ha in Hin. set_solver.
Qed.

Lemma request_client_connects zok tp ref g y :
  zok (dt_address y) = true →
  ∃ c, RequestClient.onDirectoryTopicsChanged zok (Node.newRequestClient tp ref).1.1 {[g := y]}
         = Ret (c, [RequestClient.ROpen; RequestClient.RConnect (dt_address y)], None) ∧
       RequestClient.socket_ c = true ∧ RequestClient.waiting_for_receive_ c = false ∧
       RequestClient.connected_topic_ c = y.
Proof.
  intros Hz. unfold RequestClient.onDirectoryTopicsChanged.
  rewrite decide_False by apply map_non_empty_singleton.
  unfold RequestClient.NewestTopic. rewrite map_iter_singleton, bind_Ret. cbn [foldl snd].
  rewrite Z.ltb_irrefl. unfold RequestClient.connect. cbn. rewrite Hz. by eexists.
Qed.

(** ** Observers that throw

    The observers run inside [Directory::event], before it starts the next receive: an exception
    of one skips the rest and leaves [io_service::run]. *)

(** The calls of an event that take place, given which calls of an observer throw. *)
Fixpoint performed (throws : TopicStore.notification → option exn) (es : list Directory.effect)
    : list Directory.effect * option exn :=
  match es with
  | [] => ([], None)
  | Directory.Handler n :: es' =>
      match throws n with
      | Some x => ([Directory.Handler n], Some x)
      | None => let '(done, x) := performed throws es' in (Directory.Handler n :: done, x)
      end
  | e :: es' => let '(done, x) := performed throws es' in (e :: done, x)
  end.

(** The observers of clients. *)
Definition client_throws (zok : string → bool) (clients : nat → Client.t) (n : TopicStore.notification)
    : option exn :=
  let 'TopicStore.Notify h _ m := n in
  match Client.onDirectoryTopicsChanged zok (clients h) m with
  | Ret (_, _, x) => x
  | Throw e => Some e
  | Undef => None
  end.

Lemma performed_all throws es :
  (∀ n, Directory.Handler n ∈ es → throws n = None) → performed throws es = (es, None).
Proof.
  induction es as [|e es IH]; intros H; [done|]. simpl. rewrite IH by (intros n Hn; apply H; by right).
  destruct e; try done. by rewrite H by left.
Qed.

(** An exception of an observer, and nothing but observers up to it. *)
Lemma performed_stops throws ns es n :
  n ∈ ns → throws n ≠ None →
  ∃ x, (performed throws ((Directory.Handler <$> ns) ++ es)).2 = Some x ∧
    ∀ e, e ∈ (performed throws ((Directory.Handler <$> ns) ++ es)).1 → e ∈ Directory.Handler <$> ns.
Proof.
  intros Hn Ht. induction ns as [|n' ns IH]; [by apply not_elem_of_nil in Hn|]. simpl.
  destruct (throws n') as [x|] eqn:E; [exists x; split; [done|]; simpl; set_solver|].
  apply elem_of_cons in Hn as [->|Hn]; [congruence|]. destruct (IH Hn) as (x & Hx & Hes).
  destruct (performed throws _) as [done y]. exists x. split; [done|]. simpl in *. set_solver.
Qed.

(** A client that is not connected throws when ZeroMQ refuses the one provider. *)
Lemma client_refuses zok clients h n g y :
  Client.addresses_ (clients h) = ∅ → zok (dt_address y) = false →
  client_throws zok clients (TopicStore.Notify h n {[g := y]}) = Some system_error.
Proof.
  intros Hc Hz. unfold client_throws, Client.onDirectoryTopicsChanged. rewrite map_iter_singleton.
  cbn [fmap list_fmap snd Client.connect_all]. rewrite decide_False by (rewrite Hc; set_solver).
  unfold Client.connect. rewrite decide_False by (rewrite Hc; set_solver). by rewrite Hz.
Qed.

(** ** Published messages on their way

    ZeroMQ carries the frames of a message all or none, in order and at most once; a publisher
    drops messages for a subscriber it is not yet connected to, or whose queue has reached the
    high-water mark the socket sets.  [up] says which messages get through. *)

(** The frames sent, one list for each message; an unfinished message is not carried. *)
Fixpoint multiparts (part : list wire_frame) (fs : list wire_frame) : list (list wire_frame) :=
  match fs with
  | [] => []
  | f :: fs' =>
      if wf_more f then multiparts (part ++ [f]) fs' else (part ++ [f]) :: multiparts [] fs'
  end.

Definition arriving {A} (up : nat → bool) (l : list A) : list A :=
  omap (λ e, if up e.1 then Some e.2 else None) (imap pair l).

Definition carried (up : nat → bool) (fs : list wire_frame) : list wire_frame :=
  concat (arriving up (multiparts [] fs)).

Lemma multiparts_parts part ps l fs :
  multiparts part (((λ p, WireFrame p true) <$> ps) ++ WireFrame l false :: fs) =
  (part ++ ((λ p, WireFrame p true) <$> ps) ++ [WireFrame l false]) :: multiparts [] fs.
Proof.
  revert part. induction ps as [|p ps IH]; intros part; [done|]. cbn [fmap list_fmap app multiparts wf_more].
  rewrite IH. by rewrite <- !app_assoc.
Qed.

Lemma multiparts_frames ms : multiparts [] (ms ≫= frames_of) = frames_of <$> ms.
Proof.
  induction ms as [|m ms IH]; [done|]. cbn [mbind list_bind fmap list_fmap].
  destruct m as [|p m]; [cbn; by rewrite IH|]. unfold frames_of at 1 3.
  rewrite <- app_assoc. cbn [app]. rewrite multiparts_parts. by rewrite IH.
Qed.

Lemma arriving_imap {A B} (f : A → B) up (l : list A) : arriving up (f <$> l) = f <$> arriving up l.
Proof.
  unfold arriving. rewrite imap_fmap. revert up.
  assert (∀ (g : nat → nat) (up : nat → bool),
    omap (λ e : nat * B, if up e.1 then Some e.2 else None) (imap (λ i (x : A), (g i, f x)) l) =
    f <$> omap (λ e : nat * A, if up e.1 then Some e.2 else None) (imap (λ i (x : A), (g i, x)) l)) as H; [|apply (H id)].
  induction l as [|x l IH]; intros g up; [done|]. cbn. destruct (up (g 0)); cbn; by rewrite (IH (g ∘ S)).
Qed.

(** What gets through are the frames of the messages that get through. *)
Lemma carried_frames up ms : carried up (ms ≫= frames_of) = arriving up ms ≫= frames_of.
Proof.
  unfold carried. rewrite multiparts_frames, arriving_imap. by induction (arriving up ms) as [|m l IH]; cbn; [|rewrite IH].
Qed.

Lemma arriving_Forall {A} (P : A → Prop) up l : Forall P l → Forall P (arriving up l).
Proof.
  rewrite !Forall_forall. intros H x ([i y] & Hin & Heq)%list_elem_of_omap. cbn in Heq. destruct (up i); [|done].
  injection Heq as ->. apply H. apply list_elem_of_lookup_1 in Hin as [j Hj]. rewrite list_lookup_imap in Hj.
  apply fmap_Some in Hj as (z & Hz & [= -> ->]). by eapply list_elem_of_lookup_2.
Qed.

(** ** Requests and replies *)
Section requests.
Context `{C : Capnp} (id : Z) (respond : value → list message_vector * option exn).
Context (recover : exn → list message_vector * bool) (r : ReplyServer.t) (zok : string → bool).

(** What the network does to a request and its reply.  [AnsweredLate]: the wait of the timer has
    already completed when the handler of the reply runs. *)
Inductive fate : Type :=
  | Answered
  | AnsweredLate
  | RequestLost
  | ReplyLost.

(** One call of [request], with what ZeroMQ returns for its frames and for the reply's. *)
Record call : Type := Call {
  c_fate : fate;
  c_msg : message_vector;
  c_handler : nat;
  c_error : option nat;
  c_timeout : Z;
  c_sent : list (option nat);
  c_results : list (list (option nat))
}.

(** The reply server's socket: each message is handed to [onRequest], the application behaving
    as its typed handlers do. *)
Definition serve (results : list (list (option nat))) (s : Socket.t) (fs : list wire_frame)
    : outcome (Socket.t * list sock_effect) :=
  receive_all (λ s m, b ← Node.on_request id respond recover m; ReplyServer.onRequest r b results s m) s fs.

(** The calls of the application's handlers. *)
Inductive ending : Type :=
  | Replied (h : nat) (m : message_vector)
  | Failed (h : nat) (e : RequestClient.error_code).

Definition endings (es : list RequestClient.req_effect) : list ending :=
  omap (λ e, match e with
             | RequestClient.RReply h m => Some (Replied h m)
             | RequestClient.RError h e => Some (Failed h e)
             | _ => None
             end) es.

(** The messages a request client's socket hands to [sendReplyToHandler]. *)
Fixpoint hand_over (c : RequestClient.t) (ms : list message_vector) : RequestClient.result :=
  match ms with
  | [] => (c, [], None)
  | m :: ms' => RequestClient.andthen (RequestClient.sendReplyToHandler c m) (λ c, hand_over c ms')
  end.

(** An exception of a handler leaves the event loop. *)
Definition returned (x : RequestClient.result) : outcome (RequestClient.t * list RequestClient.req_effect) :=
  match x with
  | (c, es, None) => Ret (c, es)
  | (_, _, Some e) => Throw e
  end.

(** The handler of the timer, if the call set it.  When it is not called with [operation_aborted]
    the client makes a new socket, which hears nothing of what was sent to the old one. *)
Definition timer_handler (c : RequestClient.t) (cs : Socket.t) (k : call) (aborted : bool)
    : outcome (RequestClient.t * Socket.t * list RequestClient.req_effect) :=
  if (0 <? c_timeout k)%Z then
    '(c, tes) ← returned (RequestClient.timeout zok c aborted (c_error k));
    Ret (c, if aborted then cs else Socket.init "RequestClient", tes)
  else Ret (c, cs, []).

(** A request, its frames at the server, the frames of the reply back at the client.  The handler
    of a reply cancels the timer, whose handler is then called with [operation_aborted]; but a
    wait that has completed can no longer be cancelled, and its handler is called with success
    all the same.  Without a reply the timer fires, if it was set. *)
Definition exchange (c : RequestClient.t) (cs s : Socket.t) (k : call)
    : outcome (RequestClient.t * Socket.t * Socket.t * list ending) :=
  let '(fs, _, failed) := Socket.send (c_msg k) (c_sent k) in
  let '(c, es, code) := RequestClient.request c (c_msg k) (c_handler k) (c_error k) (c_timeout k) (negb failed) in
  match code with
  | RequestClient.success =>
      let cs := (Socket.receive cs (Some (c_handler k)) (c_error k)).1 in
      '(s, ses) ← match c_fate k with
                  | RequestLost => Ret (s, [])
                  | _ => serve (c_results k) s (transmitted fs)
                  end;
      match c_fate k with
      | Answered | AnsweredLate =>
          '(cs, ces) ← receive_all Socket.call_handler cs (transmitted ses);
          '(c, res) ← returned (hand_over c (delivered ces));
          '(c, cs, tes) ← timer_handler c cs k (match c_fate k with Answered => true | _ => false end);
          Ret (c, cs, s, endings (res ++ tes))
      | _ =>
          '(c, cs, tes) ← timer_handler c cs k false;
          Ret (c, cs, s, endings tes)
      end
  | _ => Ret (c, cs, s, [])
  end.

Fixpoint session (c : RequestClient.t) (cs s : Socket.t) (ks : list call)
    : outcome (RequestClient.t * Socket.t * Socket.t * list ending) :=
  match ks with
  | [] => Ret (c, cs, s, [])
  | k :: ks' =>
      '(c, cs, s, rs) ← exchange c cs s k;
      '(c, cs, s, rs') ← session c cs s ks';
      Ret (c, cs, s, rs ++ rs')
  end.

(** The reply the application gives to a request. *)
Definition reply_to (m : message_vector) : message_vector :=
  match Node.on_request id respond recover m with
  | Ret b => default [] (head (Node.answers_of b))
  | _ => []
  end.

(** The handlers a call ends in. *)
Definition ends (k : call) : list ending :=
  let replied := Replied (c_handler k) (nonempty_frames (reply_to (c_msg k))) in
  let failed := Failed (default 0 (c_error k)) RequestClient.timed_out in
  match c_fate k with
  | Answered => [replied]
  | AnsweredLate => [replied; failed]
  | _ => [failed]
  end.

(** The application answers every request exactly once. *)
Definition answers_each_once : Prop :=
  (∀ bs, defined (open bs) = true) ∧ (∀ (x : reader) k, defined (root x k) = true) ∧
  (∀ v, match respond v with (ms, None) => length ms = 1 | (ms, Some _) => ms = [] end) ∧
  (∀ e, length (recover e).1 + (if (recover e).2 then 1 else 0) = 1).

(** A smart message, all of whose frames, and those of its reply, are sent; a call whose
    timer may fire has a time-out and an error handler. *)
Definition proper (k : call) : Prop :=
  (∃ f g rest, c_msg k = f :: g :: rest ∧ 8 <= length f) ∧ Forall (λ p, p ≠ []) (c_msg k) ∧
  send_succeeds (c_msg k) (c_sent k) ∧ Forall2 send_succeeds [reply_to (c_msg k)] (c_results k) ∧
  (c_fate k = Answered ∨ (0 < c_timeout k)%Z ∧ is_Some (c_error k)).

(** Connected, and not waiting for a reply. *)
Definition connected (c : RequestClient.t) : Prop :=
  RequestClient.socket_ c = true ∧ zok (dt_address (RequestClient.connected_topic_ c)) = true.
Definition idle (c : RequestClient.t) : Prop := connected c ∧ RequestClient.waiting_for_receive_ c = false.

Context (Happ : answers_each_once).

Lemma nonempty_all (m : message_vector) : Forall (λ p, p ≠ []) m → nonempty_frames m = m.
Proof.
  induction 1 as [|p m Hp _ IH]; [done|]. rewrite nonempty_cons, IH.
  by rewrite decide_True by (destruct p; [done|simpl; lia]).
Qed.

Lemma transmitted_replicate n : transmitted (replicate n AsyncReceive) = [].
Proof. by induction n. Qed.

Lemma delivered_replicate n : delivered (replicate n AsyncReceive) = [].
Proof. by induction n. Qed.

(** The server transmits the reply and is ready again. *)
Lemma serve_request k s :
  proper k → Socket.received_message_ s = [] →
  ∃ s' es, serve (c_results k) s (frames_of (c_msg k)) = Ret (s', es) ∧
    transmitted es = frames_of (reply_to (c_msg k)) ∧ Socket.received_message_ s' = [].
Proof.
  intros ((f & g & rest & Hm & Hf) & Hne & _ & Hr & _) Hs. destruct Happ as (Hop & Hroot & Hresp & Hrec).
  destruct (Node.on_request_answers id respond recover f g rest Hop Hroot Hf Hresp Hrec) as (b & reply & Hb & Ha).
  unfold reply_to in *. rewrite <- Hm in Hb. rewrite Hb, Ha in *. cbn [head default from_option Datatypes.id] in *.
  unfold serve. rewrite receive_frames. cbv zeta. cbn [Socket.received_message_ Socket.set_received].
  rewrite Hs, nonempty_all by done. cbn [app]. rewrite Hb, bind_Ret.
  destruct (Node.answers_once r b (c_results k) (Socket.set_received s (c_msg k)) (c_msg k) reply Ha Hr)
    as (s' & es & -> & Ht & _). rewrite bind_Ret. do 2 eexists. split; [done|]. split; [|done].
  by rewrite transmitted_app, transmitted_replicate.
Qed.

(** The client's socket hands over the reply. *)
Lemma receive_reply h e cs m :
  Socket.received_message_ cs = [] →
  ∃ cs' es, receive_all Socket.call_handler (Socket.receive cs (Some h) e).1 (frames_of m) = Ret (cs', es) ∧
    delivered es = [nonempty_frames m] ∧ Socket.received_message_ cs' = [].
Proof.
  intros Hcs. rewrite receive_frames. cbv zeta. cbn [Socket.receive fst Socket.set_received Socket.received_message_].
  rewrite Hcs. unfold Socket.call_handler. cbn [Socket.smart_message_handler_ Socket.set_received app].
  cbn beta iota. rewrite bind_Ret. do 2 eexists. split; [done|]. split; [|done].
  by rewrite delivered_app, delivered_replicate.
Qed.

(** After a time-out the client is connected and ready again. *)
Lemma timeout_recovers c h :
  connected c →
  ∃ c' es, returned (RequestClient.timeout zok c false (Some h)) = Ret (c', es) ∧
    endings es = [Failed h RequestClient.timed_out] ∧ idle c'.
Proof.
  unfold connected, idle, RequestClient.timeout, RequestClient.cleanupRequest, RequestClient.reconnect,
    RequestClient.connect, RequestClient.disconnect, RequestClient.isConnected.
  destruct c as [tn oc od so rh wt ct rf]. simpl. intros [-> Hz]. simpl. rewrite Hz.
  by do 2 eexists.
Qed.

(** The timer's handler when it is aborted, and when it is not. *)
Lemma timer_aborted c cs k : timer_handler c cs k true = Ret (c, cs, []).
Proof. unfold timer_handler. by destruct (0 <? c_timeout k)%Z. Qed.

Lemma timer_fires c cs k :
  connected c → (0 < c_timeout k)%Z → is_Some (c_error k) →
  ∃ c' es, timer_handler c cs k false = Ret (c', Socket.init "RequestClient", es) ∧
    endings es = [Failed (default 0 (c_error k)) RequestClient.timed_out] ∧ idle c'.
Proof.
  intros Hc Hto%Z.ltb_lt [h Hh]. unfold timer_handler. rewrite Hto, Hh.
  destruct (timeout_recovers c h Hc) as (c' & es & -> & He & Hi). rewrite bind_Ret. by exists c', es.
Qed.

Lemma endings_reply h m es :
  endings (RequestClient.RTimerCancel :: RequestClient.RReply h m :: es) = Replied h m :: endings es.
Proof. done. Qed.

Lemma exchange_ends c cs s k :
  idle c → Socket.received_message_ cs = [] → Socket.received_message_ s = [] → proper k →
  ∃ c' cs' s', exchange c cs s k = Ret (c', cs', s', ends k) ∧
    idle c' ∧ Socket.received_message_ cs' = [] ∧ Socket.received_message_ s' = [].
Proof.
  intros [[Hsock Hz] Hwait] Hcs Hs Hk. pose proof Hk as (_ & _ & (sizes & Hsz & Hlen) & _ & Hfate).
  pose proof (send_all_ok (c_msg k) sizes Hlen) as Hsend. rewrite <- Hsz in Hsend. unfold exchange.
  destruct (Socket.send (c_msg k) (c_sent k)) as [[fs n] failed]. destruct Hsend as [-> ->]. cbn [negb].
  unfold RequestClient.request, RequestClient.isConnected.
  cbn [RequestClient.waiting_for_receive_ RequestClient.set_reply RequestClient.socket_].
  rewrite Hwait. cbn [RequestClient.socket_]. rewrite Hsock. cbn [negb].
  set (c1 := RequestClient.set_waiting _ true).
  assert (connected c1) as Hc1 by done.
  destruct (serve_request k s Hk Hs) as (s' & ses & Hserve & Ht & Hs').
  destruct (receive_reply (c_handler k) (c_error k) cs (reply_to (c_msg k)) Hcs) as (cs' & ces & Hrecv & Hd & Hcs').
  unfold ends. destruct (c_fate k); (destruct Hfate as [|[Hto Herr]]; [try done|]);
    rewrite ?Hserve, bind_Ret, ?Ht, ?Hrecv, ?bind_Ret, ?Hd; cbn [hand_over RequestClient.sendReplyToHandler];
    cbn -[timer_handler Socket.init endings idle].
  all: try (rewrite timer_aborted, bind_Ret; by do 3 eexists).
  all: match goal with |- context [timer_handler ?c ?cs ?j false] =>
         destruct (timer_fires c cs j) as (c' & es & -> & He & Hi); [done..|] end;
       rewrite bind_Ret, ?endings_reply, He; by do 3 eexists.
Qed.

Lemma session_ends ks : ∀ c cs s,
  idle c → Socket.received_message_ cs = [] → Socket.received_message_ s = [] → Forall proper ks →
  ∃ c' cs' s', session c cs s ks = Ret (c', cs', s', ks ≫= ends) ∧ idle c'.
Proof.
  induction ks as [|k ks IH]; intros c cs s Hc Hcs Hs Hks; [by exists c, cs, s|].
  apply Forall_cons in Hks as [Hk Hks].
  destruct (exchange_ends c cs s k Hc Hcs Hs Hk) as (c1 & cs1 & s1 & He & Hc1 & Hcs1 & Hs1).
  destruct (IH c1 cs1 s1 Hc1 Hcs1 Hs1 Hks) as (c2 & cs2 & s2 & Hss & Hc2).
  exists c2, cs2, s2. cbn [session]. by rewrite He, bind_Ret, Hss.
Qed.
End requests.

(** ** Properties *)

(** A node that provides [n] at [ep], and a node that observes it and has no provider yet. *)
Record meeting `{Inet} (own_a : OwnAddress.t) (sys_a sys_b : gset Z → Z) (fresh : list ascii)
    (lo_a hi_a lo_b hi_b : Z) (da db : Directory.t) (now : Z) (n : string) (ty : Z) (ep : string)
    (ins outs : gset string) : Prop := {
  meet_sys_a : malloc_fresh sys_a lo_a hi_a;
  meet_sys_b : malloc_fresh sys_b lo_b hi_b;
  meet_fresh : length fresh = EVENT_BUFFER_SIZE;
  meet_a : inv lo_a hi_a da;
  meet_b : inv lo_b hi_b db;
  meet_guid : wire_word (Directory.my_guid_ db);
  meet_distinct : Directory.my_guid_ db ≠ Directory.my_guid_ da;
  meet_describable : describable n ty ep ins outs;
  meet_network : OwnAddress.onNetwork own_a (Address.ip_ (Address.parse ep)) = true;
  meet_fits : admissible db (Add now n ty ep ins outs);
  meet_observable : name_fits (Directory.my_guid_ da) n;
  meet_unknown : TopicStore.network_topics_ (Directory.topics_ da) !! n = None;
  meet_free : TopicStore.local_topics_ (Directory.topics_ db) !! n = None
}.

Section meet.
Context `{Inet} (own_a : OwnAddress.t) (sys_a sys_b : gset Z → Z) (fresh : list ascii).
Context (lo_a hi_a lo_b hi_b : Z) (da db : Directory.t) (now : Z) (n : string) (ty : Z) (ep : string).
Context (ins outs : gset string).
Context (Hmeet : meeting own_a sys_a sys_b fresh lo_a hi_a lo_b hi_b da db now n ty ep ins outs).

(** A server bound at [ep] and an observer: the advertisement brings the observer the server's
    address. *)
Lemma server_found zbind c a h uuid now_a :
  Server.endpoint zbind db a = Some (Some ep) →
  ∃ srv db' m da' y,
    Server.of_directory zbind sys_b fresh c db now n ty ins outs a = Ret (srv, db') ∧
    sent_between db db' [m] ∧
    Directory.event own_a sys_a fresh (Directory.observe da n h uuid).2 now_a false m = Ret da' ∧
    Directory.Handler (TopicStore.Notify h n {[Directory.my_guid_ db := y]}) ∈ Directory.calls da' ∧
    dt_address y = ep ∧ Server.address_ srv = ep.
Proof.
  intros He. destruct Hmeet as [HsA HsB Hfr Ha Hb Hg Hne Hd Hnet Hadm Hname Hunk Hfree].
  destruct (Server.of_directory_ok zbind sys_b fresh lo_b hi_b c db now n ty ins outs a ep HsB Hfr Hb He Hadm Hfree)
    as (db' & info & ns & Hsrv & Hinfo & Hlen & _ & _ & _ & Hsent).
  destruct (observed own_a sys_a fresh lo_a hi_a da n h uuid HsA Hfr Ha Hname) as (Ha' & Hga & Hnta & Hobs).
  destruct (advertised_to own_a sys_a fresh lo_a hi_a _ now_a (Directory.my_guid_ db) n ty ep ins outs info
              (TopicStore.mkObserver h uuid) HsA Hfr Ha' Hg) as (da' & calls & Hev & Hcalls & Hcall);
    [by rewrite Hga|done|done|done|lia|by rewrite Hnta|done|].
  do 5 eexists. split; [exact Hsrv|]. split; [exact Hsent|]. split; [exact Hev|].
  split; [rewrite Hcalls; apply elem_of_app; right; apply elem_of_app; left; exact (list_elem_of_fmap_2 _ _ _ Hcall)|done].
Qed.
End meet.

(** C1. From publisher to subscriber: on two nodes that can hear each other, registering a publisher
    and a subscriber of the same topic is enough: the publisher's advertisement calls the
    subscriber's observer with the address the publisher is bound to, the subscriber connects
    to that address and no other and subscribes to everything.  Of the messages published
    afterwards, built in the node's pool and sent as frames, those ZeroMQ carries to the
    subscriber, whichever they are ([up]: it may drop messages, but not parts of them), reach
    its typed handler in order, once each, or its error handler if they are of another type. *)
Theorem publishing_end_to_end `{Inet} `{CapnpLaws} own_a own_b sys_a sys_b fresh lo_a hi_a lo_b hi_b da nb now_a now_b
    ep tp id zbind zok h uuid hnd self garbage out ps handler up :
  meeting own_a sys_a sys_b fresh lo_a hi_a lo_b hi_b da (Node.directory_ nb) now_b (Topic.to_str tp)
    SocketTypes.ZMQ_PUB ep ∅ {[Node.typeOf id]} →
  Server.endpoint zbind (Node.directory_ nb) (Address.of_port own_b 0) = Some (Some ep) → zok ep = true →
  (∀ k, length (garbage k) = k) → BufferPool.wf (Node.pool_ nb) out →
  Forall (Node.publishable (BufferPool.pool_ (Node.pool_ nb)) (BufferPool.poolEnd_ (Node.pool_ nb))) ps →
  ∃ srv nb' m da' y c ces l s ses c' es pool' fs es',
    Node.registerCapnpPublisher zbind sys_b fresh own_b nb now_b id tp = Ret (srv, nb') ∧
    sent_between (Node.directory_ nb) (Node.directory_ nb') [m] ∧
    Directory.event own_a sys_a fresh (Directory.observe da (Topic.to_str tp) h uuid).2 now_a false m = Ret da' ∧
    Directory.Handler (TopicStore.Notify h (Topic.to_str tp) {[Directory.my_guid_ (Node.directory_ nb) := y]})
      ∈ Directory.calls da' ∧
    Node.registerCapnpSubscriber tp uuid hnd self = Ret ((c, ces, None), (l, (s, ses)), [[]]) ∧
    Client.onDirectoryTopicsChanged zok c {[Directory.my_guid_ (Node.directory_ nb) := y]} = Ret (c', es, None) ∧
    Client.connected es = [Server.address_ srv] ∧ Client.addresses_ c' = {[Server.address_ srv]} ∧
    Node.publish_all garbage (Node.pool_ nb') ps = Ret (pool', fs) ∧
    Listener.listen l s (carried up fs) = Ret (s, es') ∧
    Node.dispatch id handler (delivered es') = Ret (arriving up ps ≫= Node.expected id handler).
Proof.
  intros Hm He Hz Hg Hwf Hf.
  destruct (server_found _ _ _ _ _ _ _ _ _ _ _ _ _ _ _ _ Hm zbind "Publisher" _ h uuid now_a He)
    as (srv & db' & m & da' & y & Hsrv & Hsent & Hev & Hcall & Hy & Hep).
  destruct (client_connects zok (Client.mk ∅ None None (Topic.to_str tp) "Subscriber"
              ("Subscriber" +:+ " [" +:+ Topic.to_str tp +:+ "]") uuid true)
              (Directory.my_guid_ (Node.directory_ nb)) y) as (c' & es & Hc & Hca & Hcc); [done|by rewrite Hy|].
  destruct (Node.publish_all_spec _ _ garbage (Node.pool_ nb) out ps Hg Hf Hwf eq_refl eq_refl) as (pool' & Hp).
  set (l := Listener.mk hnd None self).
  destruct (listen_messages l (Socket.init "Subscriber") (Node.smart_frames <$> arriving up ps)) as (es' & Hl & Hd & _).
  exists srv, (Node.set_directory nb db'), m, da', y.
  do 2 eexists. exists l, (listening l (Socket.init "Subscriber") []), [AsyncReceive], c', es, pool'.
  exists ((Node.smart_frames <$> ps) ≫= frames_of), es'. split_and!; try done.
  - unfold Node.registerCapnpPublisher, Server.publisher. by rewrite Hsrv, bind_Ret.
  - by rewrite Hcc, Hy, Hep.
  - by rewrite Hca, Hy, Hep.
  - by rewrite carried_frames, arriving_imap.
  - rewrite Hd, <- (Node.dispatch_spec _ _ id handler _ (arriving_Forall _ up ps Hf)), <- list_fmap_compose. f_equal.
Qed.

(** C3. From request to reply: on two nodes that can hear each other, a request client finds the
    reply server of its topic and connects to it.  From then on, requests each made when the
    handlers of the one before have run end in calls of handlers, in order: an answered one in
    one call of the reply handler given with it, with the application's answer (or its error
    handler's); one whose request or reply is lost in one call of its error handler with
    [timed_out]; and one whose timer had already run out when its reply is handled in both,
    because a completed wait cannot be cancelled.  Each leaves the client ready for the next. *)
Theorem requests_end_to_end `{Inet} `{C : Capnp} own_a own_b sys_a sys_b fresh lo_a hi_a lo_b hi_b da nb now_a now_b
    ep tp id reply_id zbind zok h uuid self hnd respond recover ks :
  meeting own_a sys_a sys_b fresh lo_a hi_a lo_b hi_b da (Node.directory_ nb) now_b (Topic.to_str tp)
    SocketTypes.ZMQ_REP ep {[Node.typeOf id]} {[Node.typeOf reply_id]} →
  Server.endpoint zbind (Node.directory_ nb) (Address.of_port own_b 0) = Some (Some ep) →
  zok ep = true → answers_each_once respond recover → Forall (proper id respond recover) ks →
  ∃ srv nb' r s ses m da' y c c' cs' s',
    Node.registerCapnpReplyServerAsync zbind sys_b fresh own_b nb now_b id reply_id tp self hnd
      = Ret (srv, nb', (r, (s, ses))) ∧
    sent_between (Node.directory_ nb) (Node.directory_ nb') [m] ∧
    Directory.event own_a sys_a fresh (Directory.observe da (Topic.to_str tp) h uuid).2 now_a false m = Ret da' ∧
    Directory.Handler (TopicStore.Notify h (Topic.to_str tp) {[Directory.my_guid_ (Node.directory_ nb) := y]})
      ∈ Directory.calls da' ∧
    RequestClient.onDirectoryTopicsChanged zok (Node.newRequestClient tp uuid).1.1 {[Directory.my_guid_ (Node.directory_ nb) := y]}
      = Ret (c, [RequestClient.ROpen; RequestClient.RConnect (Server.address_ srv)], None) ∧
    session id respond recover r zok c (Socket.init "RequestClient") s ks
      = Ret (c', cs', s', ks ≫= ends id respond recover) ∧
    idle zok c'.
Proof.
  intros Hm He Hz Happ Hks.
  destruct (server_found _ _ _ _ _ _ _ _ _ _ _ _ _ _ _ _ Hm zbind "ReplyServer" _ h uuid now_a He)
    as (srv & db' & m & da' & y & Hsrv & Hsent & Hev & Hcall & Hy & Hep).
  destruct (request_client_connects zok tp uuid (Directory.my_guid_ (Node.directory_ nb)) y)
    as (c & Hc & Hso & Hwa & Hct); [by rewrite Hy|].
  set (r := ReplyServer.mk self hnd None). set (s := (Socket.receive (Socket.init "ReplyServer") (Some self) None).1).
  destruct (session_ends id respond recover r zok Happ ks c (Socket.init "RequestClient") s)
    as (c' & cs' & s' & Hss & Hidle); [split; [by split; [|rewrite Hct, Hy]|done]|done|done|done|].
  exists srv, (Node.set_directory nb db'), r, s, [AsyncReceive], m, da', y, c, c', cs', s'. split_and!; try done.
  - unfold Node.registerCapnpReplyServerAsync, Server.reply_server. by rewrite Hsrv, !bind_Ret.
  - by rewrite Hc, Hy, Hep.
Qed.

(** C21. One advertisement can end a node: a datagram that describes a topic observed by a client, not
    yet provided by anyone, at an address of the own network that ZeroMQ refuses, makes the
    client's observer throw out of [Directory::event]; the next receive is not started.  As
    long as no observer throws, every datagram is followed by the next receive. *)
Theorem bad_address_ends_node `{Inet} own sys fresh lo hi d now g n ty a ins outs info h uuid zok clients :
  malloc_fresh sys lo hi → length fresh = EVENT_BUFFER_SIZE → inv lo hi d →
  wire_word g → g ≠ Directory.my_guid_ d → describable n ty a ins outs →
  buildTopicInfo n ty a ins outs = Ret info →
  OwnAddress.onNetwork own (Address.ip_ (Address.parse a)) = true →
  length (Directory.message g DISCOVERY_AVAILABLE info) <= EVENT_BUFFER_SIZE →
  TopicStore.network_topics_ (Directory.topics_ d) !! n = None →
  (n, TopicStore.mkObserver h uuid) ∈ TopicStore.observers (Directory.topics_ d) →
  Client.addresses_ (clients h) = ∅ →
  ∃ d' es, Directory.event own sys fresh d now false (Directory.message g DISCOVERY_AVAILABLE info) = Ret d' ∧
    Directory.calls d' = Directory.calls d ++ es ∧
    (zok a = false →
       ∃ x, (performed (client_throws zok clients) es).2 = Some x ∧
         Directory.AsyncReceive ∉ (performed (client_throws zok clients) es).1) ∧
    ((∀ m, client_throws zok clients m = None) →
       last (performed (client_throws zok clients) es).1 = Some Directory.AsyncReceive).
Proof.
  intros Hsys Hfr Hi Hg Hne Hd Hinfo Hnet Hl Hnone Ho Hc.
  destruct (advertised_to own sys fresh lo hi d now g n ty a ins outs info _ Hsys Hfr Hi Hg Hne Hd Hinfo Hnet Hl Hnone Ho)
    as (d' & ns & He & Hcalls & Hn). simpl in Hn.
  exists d', ((Directory.Handler <$> ns) ++ [Directory.AsyncReceive]). split_and!; [done|done| |].
  - intros Hz. destruct (performed_stops (client_throws zok clients) ns [Directory.AsyncReceive] _ Hn) as (x & Hx & Hes);
      [by rewrite client_refuses|].
    exists x. split; [done|]. intros Hin%Hes%list_elem_of_fmap. by destruct Hin as (m & ? & _).
  - intros Hall. rewrite performed_all by done. cbn [fst]. apply last_snoc.
Qed.

(** ** Witnesses *)
Import Protocol.
#[local] Existing Instance quad_inet.

Definition demo_tp : Topic.t := Topic.mk "dev" "b" "imu".
Definition demo_nb : Node.t := Node.mk "b" demo_pool node_b false.
Definition demo_ep : string := "tcp://127.0.0.1:5000".
Definition demo_bind (_ : string) : option (option string) := Some (Some demo_ep).

(** Two nodes that can hear each other. *)
Lemma demo_meeting ty ins outs info :
  describable (Topic.to_str demo_tp) ty demo_ep ins outs →
  buildTopicInfo (Topic.to_str demo_tp) ty demo_ep ins outs = Ret info →
  (length (Directory.message "b_127.0.0.1_2" DISCOVERY_AVAILABLE info) <? EVENT_BUFFER_SIZE) = true →
  meeting demo_own demo_malloc demo_malloc demo_fresh demo_base (pool_end demo_base) demo_base (pool_end demo_base)
    node_a node_b 5 (Topic.to_str demo_tp) ty demo_ep ins outs.
Proof.
  intros Hd Hinfo Hlen%Nat.ltb_lt.
  split; [apply demo_malloc_fresh|apply demo_malloc_fresh|apply demo_fresh_length|apply node_a_inv|apply node_b_inv| | |done|..].
  - split_and!; [done|done|decide_now].
  - vm_compute. discriminate.
  - vm_compute. reflexivity.
  - exists info. split; [done|]. split; [exact Hlen|apply Nat.ltb_lt; vm_compute; reflexivity].
  - split; [done|]. apply Nat.ltb_lt. vm_compute. reflexivity.
  - reflexivity.
  - reflexivity.
Qed.

Lemma demo_describable_at ty nm ins outs :
  SocketTypes.fromType ty = Ret nm →
  types_ok ins ∧ set_Forall (λ x, forallb isprint (chars x) = true) ins →
  types_ok outs ∧ set_Forall (λ x, forallb isprint (chars x) = true) outs →
  describable (Topic.to_str demo_tp) ty demo_ep ins outs.
Proof.
  intros Hty Hi Ho.
  split; [split_and!; [done|done|decide_now]|split_and!; [done|done|decide_now]|by exists nm|done|done].
Qed.

Lemma publishing_end_to_end_witness :
  ∃ srv nb' c' es fs pool' es' s,
    Node.registerCapnpPublisher demo_bind demo_malloc demo_fresh demo_own demo_nb 5 77 demo_tp = Ret (srv, nb') ∧
    Client.connected es = [Server.address_ srv] ∧ Client.addresses_ c' = {[Server.address_ srv]} ∧
    Node.publish_all (C := demo_capnp) Node.demo_garbage (Node.pool_ nb') Node.demo_publications = Ret (pool', fs) ∧
    Listener.listen (Listener.mk 4 None 3) s (carried (λ i, negb (i =? 0)) fs) = Ret (s, es') ∧
    Node.dispatch (C := demo_capnp) 77 (λ _, None) (delivered es')
      = Ret (tail Node.demo_publications ≫= Node.expected (C := demo_capnp) 77 (λ _, None)).
Proof.
  destruct (publishing_end_to_end (C := demo_capnp) (H0 := demo_laws) demo_own demo_own demo_malloc demo_malloc
              demo_fresh demo_base (pool_end demo_base) demo_base (pool_end demo_base) node_a demo_nb 9 5 demo_ep
              demo_tp 77 demo_bind (λ _, true) 7 "u" 4 3 Node.demo_garbage [] Node.demo_publications (λ _, None) (λ i, negb (i =? 0)))
    as (srv & nb' & m & da' & y & c & ces & l & s & ses & c' & es & pool' & fs & es' & H1 & _ & _ & _ & H2 & _ & H3 & H4 & H5 & H6 & H7).
  - apply (demo_meeting _ _ _ "dev/b/imu PUB tcp://127.0.0.1:5000 . 77"); [|vm_compute; reflexivity..].
    apply (demo_describable_at _ "PUB"); [reflexivity|apply no_types_ok|by apply one_type_ok].
  - vm_compute. reflexivity.
  - reflexivity.
  - intros k. apply length_replicate.
  - apply demo_pool_wf.
  - apply Node.demo_publishable.
  - assert (l = Listener.mk 4 None 3) as -> by (by injection H2).
    exists srv, nb', c', es, fs, pool', es', s. split_and!; assumption.
Defined.

(** An advertisement with a protocol ZeroMQ does not know. *)
Definition demo_bad : string := "foo://127.0.0.1:5000".
Definition demo_info : string := "dev/b/imu PUB foo://127.0.0.1:5000 . .".
Definition demo_idle (_ : nat) : Client.t := Client.mk ∅ None None "dev/b/imu" "Subscriber" "Subscriber" "u" true.

Lemma bad_address_ends_node_witness :
  ∃ d' es x,
    Directory.event demo_own demo_malloc demo_fresh (Directory.observe node_a "dev/b/imu" 7 "u").2 9 false
      (Directory.message "x_127.0.0.1_9" DISCOVERY_AVAILABLE demo_info) = Ret d' ∧
    (performed (client_throws (λ a, bool_decide (a ≠ demo_bad)) demo_idle) es).2 = Some x.
Proof.
  destruct (observed demo_own demo_malloc demo_fresh demo_base (pool_end demo_base) node_a "dev/b/imu" 7 "u")
    as (Hi & Hg & Hnt & Ho);
    [apply demo_malloc_fresh|apply demo_fresh_length|apply node_a_inv|
     split; [reflexivity|apply Nat.ltb_lt; vm_compute; reflexivity]|].
  destruct (bad_address_ends_node demo_own demo_malloc demo_fresh demo_base (pool_end demo_base)
              (Directory.observe node_a "dev/b/imu" 7 "u").2 9 "x_127.0.0.1_9" "dev/b/imu" SocketTypes.ZMQ_PUB demo_bad
              ∅ ∅ demo_info 7 "u" (λ a, bool_decide (a ≠ demo_bad)) demo_idle) as (d' & es & He & _ & Hx & _).
  - apply demo_malloc_fresh.
  - apply demo_fresh_length.
  - exact Hi.
  - split_and!; [done|done|decide_now].
  - rewrite Hg. vm_compute. discriminate.
  - split; [split_and!; [done|done|decide_now]|split_and!; [done|done|decide_now]|
            by exists "PUB"|apply no_types_ok|apply no_types_ok].
  - vm_compute. reflexivity.
  - vm_compute. reflexivity.
  - apply Nat.leb_le. vm_compute. reflexivity.
  - rewrite Hnt. vm_compute. reflexivity.
  - exact Ho.
  - reflexivity.
  - destruct Hx as (x & Hx & _); [by rewrite bool_decide_eq_false_2 by tauto|]. exists d', es, x. split; [exact He|exact Hx].
Defined.

Definition demo_respond (v : list ascii) : list message_vector * option exn := ([[v]], None).
Definition demo_recover (e : exn) : list message_vector * bool := ([], true).
Definition demo_call (f : fate) (h : nat) : call :=
  Call f [le_bytes 8 77; le_bytes 8 (Z.of_nat h)] h (Some 9) 2000 (Some <$> [8; 8; 0]) [Some <$> [8; 0]].

Lemma demo_proper f h : proper (C := demo_capnp) 77 demo_respond demo_recover (demo_call f h).
Proof.
  assert (∀ n k, le_bytes (S n) k ≠ []) as Hne by done.
  split; [by eexists _, _, []|]. split; [repeat constructor; apply Hne|]. split_and!; [| |right; split; [done|by eexists]].
  - exists [8; 8; 0]. split; [done|simpl; lia].
  - constructor; [|constructor]. exists [8; 0]. split; [done|].
    unfold reply_to. destruct (Node.on_request_answers (C := demo_capnp) 77 demo_respond demo_recover (le_bytes 8 77)
                                 (le_bytes 8 (Z.of_nat h)) []) as (b & reply & Hb & Hr); [done|done|done|done|done|].
    cbn [c_msg demo_call]. rewrite Hb, Hr. cbn [head default from_option Datatypes.id].
    unfold Node.on_request in Hb. cbn in Hb. injection Hb as <-. injection Hr as <-. simpl. lia.
Qed.

Lemma requests_end_to_end_witness :
  ∃ srv nb' r s ses c c' cs' s',
    Node.registerCapnpReplyServerAsync demo_bind demo_malloc demo_fresh demo_own demo_nb 5 77 78 demo_tp 3 4
      = Ret (srv, nb', (r, (s, ses))) ∧
    session (C := demo_capnp) 77 demo_respond demo_recover r (λ _, true) c (Socket.init "RequestClient") s
        [demo_call Answered 1; demo_call ReplyLost 2; demo_call AnsweredLate 3]
      = Ret (c', cs', s', [Replied 1 [le_bytes 8 1]; Failed 9 RequestClient.timed_out;
                           Replied 3 [le_bytes 8 3]; Failed 9 RequestClient.timed_out]).
Proof.
  destruct (requests_end_to_end (C := demo_capnp) demo_own demo_own demo_malloc demo_malloc
              demo_fresh demo_base (pool_end demo_base) demo_base (pool_end demo_base) node_a demo_nb 9 5 demo_ep
              demo_tp 77 78 demo_bind (λ _, true) 7 "u" 3 4 demo_respond demo_recover
              [demo_call Answered 1; demo_call ReplyLost 2; demo_call AnsweredLate 3])
    as (srv & nb' & r & s & ses & m & da' & y & c & c' & cs' & s' & H1 & _ & _ & _ & _ & H2 & _).
  - apply (demo_meeting _ _ _ "dev/b/imu REP tcp://127.0.0.1:5000 77 78"); [|vm_compute; reflexivity..].
    apply (demo_describable_at _ "REP"); [reflexivity|by apply one_type_ok|by apply one_type_ok].
  - vm_compute. reflexivity.
  - reflexivity.
  - split_and!; [reflexivity|reflexivity|reflexivity|reflexivity].
  - do 3 (apply Forall_cons_2; [apply demo_proper|]). apply Forall_nil_2.
  - exists srv, nb', r, s, ses, c, c', cs', s'. split; [exact H1|]. rewrite H2. vm_compute. reflexivity.
Defined.

End EndToEnd.
