(* ===== verification/Lifecycle.v ===== *)
(** * The life of a node (src/a17/dispatch/node.h, node.cpp)

    [start] runs the event loop on a thread of its own, [stop] and the handler of signals end it,
    and the destructor waits for the thread.  The model interleaves the actions of the client's
    thread and of every thread that runs the event loop.  A loop takes any handler that is ready
    ([post], and the completions of sockets and timers), performs its actions one by one and
    takes the next; a stopped loop takes none, also when it is started again, as nothing resets
    it.  The wait for signals is set up once, by the constructor, so one signal at most is
    heard; it is outstanding work, so a loop does not return before it is stopped.  An
    exception of a handler leaves the loop and ends the thread; it stays in the future, which
    is only waited for.

    [start] assigns the future of [std::async]: the new thread is there at once, and only then
    does the assignment wait for the old one, so two threads can run the loop ([restart_overlaps]).
    [start] and the destructor are called by one client thread, and not by handlers; a handler
    that blocks is not modelled. *)

From S2P Require Import Prelude BufferPool TopicStore Directory Node.

Module Lifecycle.

(** What a handler may do to the node it runs on; a throw is the last thing it does. *)
Inductive action : Set := APost (op : nat) | AStop | AThrow | ASignal (ec : bool).

(** What is handed to the loop: handlers, and the completion of the wait for signals. *)
Inductive task : Set := Handler (op : nat) | SignalHandler (ec : bool).

(** A thread that runs the loop. *)
Inductive loop : Set := Waiting | Busy (h : task) (todo : list action) | Over.

Global Instance action_eq_dec : EqDecision action.
Proof. solve_decision. Defined.
Global Instance task_eq_dec : EqDecision task.
Proof. solve_decision. Defined.
Global Instance loop_eq_dec : EqDecision loop.
Proof. solve_decision. Defined.

Record t : Type := mk {
  node : Node.t;
  stopped : bool;          (* ios_.stopped() *)
  armed : bool;            (* signals_ waits *)
  pending : list task;     (* handed to the loop, not begun *)
  loops : list loop;       (* the threads, the last one is future_'s *)
  assigning : option nat;  (* the thread that the assignment in start() waits for *)
  finished : list task;
  posted : list task;      (* everything handed to the loop *)
  destroyed : bool
}.

(** The constructor; it sets up the wait for signals. *)
Definition init (n : Node.t) : t := mk n false true [] [] None [] [] false.

Definition enqueue (s : t) (h : task) : t :=
  mk (node s) (stopped s) (armed s) (pending s ++ [h]) (loops s) (assigning s) (finished s) (posted s ++ [h]) (destroyed s).

Definition post (s : t) (op : nat) : t := enqueue s (Handler op).

(** [Node::stop] sets the flag and stops the loop. *)
Definition stop (s : t) : t :=
  mk (Node.stop (node s)) true (armed s) (pending s) (loops s) (assigning s) (finished s) (posted s) (destroyed s).

(** [Node::signal] *)
Definition signal (s : t) (ec : bool) : t := if ec then s else stop s.

Definition set_loop (s : t) (i : nat) (l : loop) : t :=
  mk (node s) (stopped s) (armed s) (pending s) (<[i := l]> (loops s)) (assigning s) (finished s) (posted s) (destroyed s).

(** [Node::start] up to the assignment: the new thread runs the loop, the old one is waited for. *)
Definition start (s : t) : t :=
  mk (node s) (stopped s) (armed s) (pending s) (loops s ++ [Waiting])
     (match loops s with [] => None | _ => Some (length (loops s) - 1) end) (finished s) (posted s) (destroyed s).

Definition started (s : t) : t :=
  mk (node s) (stopped s) (armed s) (pending s) (loops s) None (finished s) (posted s) (destroyed s).

(** A signal, or an error of the wait, completes the wait. *)
Definition disarm (s : t) : t :=
  mk (node s) (stopped s) false (pending s) (loops s) (assigning s) (finished s) (posted s) (destroyed s).

Definition take_from (s : t) (rest : list task) : t :=
  mk (node s) (stopped s) (armed s) rest (loops s) (assigning s) (finished s) (posted s) (destroyed s).

Definition finish (s : t) (h : task) : t :=
  mk (node s) (stopped s) (armed s) (pending s) (loops s) (assigning s) (finished s ++ [h]) (posted s) (destroyed s).

Definition destroy (s : t) : t :=
  mk (node s) (stopped s) (armed s) (pending s) (loops s) (assigning s) (finished s) (posted s) true.

Definition act (s : t) (a : action) : t :=
  match a with
  | APost op => post s op
  | AStop => stop s
  | ASignal ec => signal s ec
  | AThrow => s
  end.

Section Steps.

(** What each handler does when it runs. *)
Context (body : nat → list action).

Definition task_body (h : task) : list action :=
  match h with Handler op => body op | SignalHandler ec => [ASignal ec] end.

Inductive step : t → t → Prop :=
  (** The client. *)
  | step_start s : destroyed s = false → assigning s = None → step s (start s)
  | step_started s i : assigning s = Some i → loops s !! i = Some Over → step s (started s)
  | step_post s op : destroyed s = false → step s (post s op)
  | step_stop s : destroyed s = false → step s (stop s)
  (** The destructor: [stop()], then waiting for the thread of the future if there is one. *)
  | step_destroy s :
      destroyed s = false → stopped s = true → assigning s = None →
      match last (loops s) with Some l => l = Over | None => True end → step s (destroy s)
  (** The operating system. *)
  | step_signal s ec : destroyed s = false → armed s = true → step s (enqueue (disarm s) (SignalHandler ec))
  (** The threads of the loop. *)
  | step_begin s i p h q :
      stopped s = false → loops s !! i = Some Waiting → pending s = p ++ h :: q →
      step s (set_loop (take_from s (p ++ q)) i (Busy h (task_body h)))
  | step_act s i h a l :
      loops s !! i = Some (Busy h (a :: l)) → a ≠ AThrow → step s (act (set_loop s i (Busy h l)) a)
  | step_throw s i h l : loops s !! i = Some (Busy h (AThrow :: l)) → step s (finish (set_loop s i Over) h)
  | step_end s i h : loops s !! i = Some (Busy h []) → step s (finish (set_loop s i Waiting) h)
  | step_return s i : loops s !! i = Some Waiting → stopped s = true → step s (set_loop s i Over).

Abbreviation steps := (rtc step).

(** The handlers that are running, and those that were begun. *)
Definition busy (l : loop) : list task := match l with Busy h _ => [h] | _ => [] end.
Definition running (s : t) : list task := loops s ≫= busy.
Definition begun (s : t) : list task := running s ++ finished s.

Definition is_signal (h : task) : bool := match h with SignalHandler _ => true | _ => false end.
Definition signals (s : t) : nat := length (List.filter is_signal (posted s)).

(** ** Invariant *)

Record good (s : t) : Prop := {
  good_once : pending s ++ begun s ≡ₚ posted s;
  good_flag : Node.signaled_shutdown_ (node s) = stopped s;
  good_signals : signals s = if armed s then 0 else 1;
  good_signalled : SignalHandler false ∈ finished s → stopped s = true;
  good_signalling : ∀ i l, loops s !! i = Some (Busy (SignalHandler false) l) → l = [ASignal false] ∨ stopped s = true ∧ l = [];
  good_assigning : ∀ i, assigning s = Some i → i < length (loops s);
  good_live : ∀ i l, loops s !! i = Some l → l ≠ Over → S i = length (loops s) ∨ assigning s = Some i;
  good_destroyed : destroyed s = true → stopped s = true ∧ ∀ i l, loops s !! i = Some l → l = Over
}.

Lemma loop_split (ls : list loop) i l0 :
  ls !! i = Some l0 → ∃ a b, ls = a ++ l0 :: b ∧ ∀ l, <[i := l]> ls = a ++ l :: b.
Proof.
  intros Hi. destruct (list_elem_of_split_length ls i l0 Hi) as (a & b & -> & ->). exists a, b. split; [done|].
  intros l. by rewrite insert_app_r_alt, Nat.sub_diag by done.
Qed.

(** The running handlers when the loop [i] changes. *)
Lemma running_change s i l0 l :
  loops s !! i = Some l0 → ∃ r, running s ≡ₚ busy l0 ++ r ∧ running (set_loop s i l) ≡ₚ busy l ++ r.
Proof.
  intros Hi. destruct (loop_split _ _ _ Hi) as (a & b & E & Hins). exists ((a ≫= busy) ++ (b ≫= busy)).
  unfold running. cbn [loops set_loop]. rewrite Hins, E, !bind_app, !bind_cons. split; solve_Permutation.
Qed.

(** A live loop goes on or ends: the threads that may run are still the newest and the one waited for. *)
Lemma live_change s i l0 l :
  good s → loops s !! i = Some l0 → l0 ≠ Over →
  (∀ k, assigning s = Some k → k < length (<[i := l]> (loops s))) ∧
  (∀ j l', <[i := l]> (loops s) !! j = Some l' → l' ≠ Over → S j = length (<[i := l]> (loops s)) ∨ assigning s = Some j) ∧
  destroyed s = false.
Proof.
  intros Hg Hi H0. rewrite length_insert. split; [apply (good_assigning _ Hg)|]. split.
  - intros j l' [[<- _]|[_ Hj]]%list_lookup_insert_Some Hl'; by eapply (good_live _ Hg).
  - destruct (destroyed s) eqn:E; [|done]. destruct (good_destroyed _ Hg E) as [_ Ho]. by apply Ho in Hi.
Qed.

Lemma signals_enqueue s h : signals (enqueue s h) = signals s + if is_signal h then 1 else 0.
Proof. unfold signals. cbn. rewrite List.filter_app, length_app. cbn. by destruct (is_signal h). Qed.

Lemma enqueue_good s h b :
  good s → (if is_signal h then b = false ∧ armed s = true else b = armed s) →
  good (mk (node s) (stopped s) b (pending s ++ [h]) (loops s) (assigning s) (finished s) (posted s ++ [h]) (destroyed s)).
Proof.
  intros [G1 G2 G3 G4 G5 G6 G7 G8] Hb. split; try done.
  - cbn. rewrite <-G1. unfold begun, running. cbn. solve_Permutation.
  - pose proof (signals_enqueue s h) as H. unfold signals in *. cbn in *. rewrite H, G3.
    destruct (is_signal h); [destruct Hb as [-> ->]|rewrite Hb, Nat.add_0_r]; done.
Qed.

Lemma post_good s op : good s → good (post s op).
Proof. intros Hg. by apply (enqueue_good s (Handler op) (armed s)). Qed.

Lemma stop_good s : good s → good (stop s).
Proof.
  intros [G1 G2 G3 G4 G5 G6 G7 G8]. split; try done.
  - intros i l [->|[_ ->]]%G5; [by left|by right].
  - intros Hd. split; [done|apply (G8 Hd)].
Qed.

Lemma act_good s a : good s → good (act s a).
Proof. destruct a as [op| | |[]]; cbn; auto using post_good, stop_good. Qed.

(** What a loop does: the handler it runs stays, and is finished when the loop is done with it. *)
Lemma loop_good s i l0 l s' :
  good s → loops s !! i = Some l0 → l0 ≠ Over →
  loops s' = <[i := l]> (loops s) → node s' = node s → stopped s' = stopped s → armed s' = armed s →
  assigning s' = assigning s → posted s' = posted s → destroyed s' = destroyed s →
  (∀ r, pending s ++ (busy l0 ++ r) ++ finished s ≡ₚ pending s' ++ (busy l ++ r) ++ finished s') →
  (SignalHandler false ∈ finished s' → stopped s = true) →
  (∀ k, l = Busy (SignalHandler false) k → k = [ASignal false] ∨ stopped s = true ∧ k = []) → good s'.
Proof.
  intros Hg Hi H0 E1 E2 E3 E4 E5 E6 E7 Hp Hf Hs. destruct (live_change s i l0 l Hg Hi H0) as (L1 & L2 & L3).
  pose proof Hg as [G1 G2 G3 G4 G5 G6 G7 G8].
  split; unfold signals; rewrite ?E1, ?E2, ?E3, ?E4, ?E5, ?E6, ?E7; try done.
  - rewrite <-G1. destruct (running_change s i l0 l Hi) as (r & R1 & R2). unfold begun. rewrite R1, Hp.
    replace (running s') with (running (set_loop s i l)) by (unfold running; by rewrite E1). by rewrite R2.
  - intros j k [(_ & E & _)|[_ Hj]]%list_lookup_insert_Some; [by apply Hs|by eapply G5].
  - congruence.
Qed.

Lemma act_set_loop s i l a : act (set_loop s i l) a = set_loop (act s a) i l.
Proof. by destruct a as [op| | |[]]. Qed.

Lemma act_loops s a : loops (act s a) = loops s.
Proof. by destruct a as [op| | |[]]. Qed.

Lemma step_good s s' : step s s' → good s → good s'.
Proof.
  intros Hs Hg. pose proof Hg as [G1 G2 G3 G4 G5 G6 G7 G8].
  destruct Hs as [s Hd Ha|s i Ha Hi|s op Hd|s Hd|s Hd Hst Ha Hl|s ec Hd Har|s i p h q Hst Hi Hp|s i h a l Hi Ha|s i h l Hi|s i h Hi|s i Hi Hst].
  - split; try done; cbn.
    + rewrite <-G1. unfold begun, running. cbn. rewrite bind_app. cbn. by rewrite app_nil_r.
    + intros i l [Hi|[_ Hi]]%lookup_app_Some; [by eapply G5|]. by apply list_lookup_singleton_Some in Hi as [_ ?].
    + destruct (loops s) as [|l0 ls] eqn:E; [done|]. intros i [= <-]. rewrite length_app. simpl. lia.
    + intros i l [Hi|[Hlt Hi]]%lookup_app_Some Hne.
      * right. destruct (G7 i l Hi Hne) as [E|E]; [|congruence]. destruct (loops s); [done|]. f_equal. lia.
      * left. apply list_lookup_singleton_Some in Hi as [Hi _]. rewrite length_app. simpl. lia.
    + congruence.
  - split; try done; cbn. intros j l Hj Hne. destruct (G7 j l Hj Hne) as [E|E]; [by left|]. congruence.
  - by apply post_good.
  - by apply stop_good.
  - split; try done; cbn. intros _. split; [done|]. intros i l Hi. destruct (decide (l = Over)) as [|Hne]; [done|].
    destruct (G7 i l Hi Hne) as [E|E]; [|congruence]. rewrite last_lookup in Hl.
    replace (pred (length (loops s))) with i in Hl by lia. by rewrite Hi in Hl.
  - by apply (enqueue_good s (SignalHandler ec) false).
  - eapply (loop_good s i Waiting (Busy h (task_body h))); try done.
    + intros r. cbn. rewrite Hp. solve_Permutation.
    + intros k [= -> <-]. by left.
  - rewrite act_set_loop.
    eapply (loop_good (act s a) i (Busy h (a :: l)) (Busy h l)); try done; [by apply act_good|by rewrite act_loops| |].
    + exact (good_signalled _ (act_good _ a Hg)).
    + intros k [= -> ->]. right. destruct (G5 i _ Hi) as [[= -> ->]|[_ ?]]; done.
  - eapply (loop_good s i (Busy h (AThrow :: l)) Over); try done; cbn.
    + intros r. solve_Permutation.
    + intros [Hf|Hf%list_elem_of_singleton]%elem_of_app; [by apply G4|]. subst h.
      by destruct (G5 i _ Hi) as [|[_ ?]].
  - eapply (loop_good s i (Busy h []) Waiting); try done; cbn.
    + intros r. solve_Permutation.
    + intros [Hf|Hf%list_elem_of_singleton]%elem_of_app; [by apply G4|]. subst h.
      by destruct (G5 i _ Hi) as [|[? _]].
  - by eapply (loop_good s i Waiting Over).
Qed.

Lemma steps_good s s' : steps s s' → good s → good s'.
Proof. induction 1; eauto using step_good. Qed.

Lemma init_good n : Node.signaled_shutdown_ n = false → good (init n).
Proof. intros Hn. split; try done; cbn; try set_solver. Qed.

(** ** After a stop *)







(** As long as it is not started, a node without a live thread begins nothing. *)
Lemma not_started_idle s s' :
  rtc (λ a b, step a b ∧ length (loops b) = length (loops a)) s s' →
  (∀ i l, loops s !! i = Some l → l = Over) → begun s' = begun s ∧ ∀ i l, loops s' !! i = Some l → l = Over.
Proof.
  induction 1 as [|x y z [Hxy Hy] _ IH]; [done|]. intros Hx.
  assert (loops y = loops x ∧ finished y = finished x) as [El Ef].
  { destruct Hxy as [x Hd Ha|x i Ha Hi|x op Hd|x Hd|x Hd Hst' Ha Hl|x ec Hd Har|x i p h q Hst' Hi Hp|x i h a l Hi Ha|x i h l Hi|x i h Hi|x i Hi Hst'];
      try done; try (by apply Hx in Hi). cbn in Hy. rewrite length_app in Hy. simpl in Hy. lia. }
  destruct IH as [-> Hz]; [by rewrite El|]. unfold begun, running. by rewrite El, Ef.
Qed.

(** ** Properties *)


(** Starting a running node runs the loop twice: the new thread is there before the assignment of its
    future waits for the old one, so the handlers of one node can run at the same time. *)
Theorem restart_overlaps n h1 h2 :
  ∃ s, steps (init n) s ∧ stopped s = false ∧ assigning s = Some 0 ∧
    loops s = [Busy (Handler h1) (body h1); Busy (Handler h2) (body h2)].
Proof.
  set (s0 := start (post (post (init n) h1) h2)).
  set (s1 := set_loop (take_from s0 [Handler h2]) 0 (Busy (Handler h1) (body h1))).
  exists (set_loop (take_from (start s1) []) 1 (Busy (Handler h2) (body h2))).
  split; [|done].
  eapply rtc_l; [by apply (step_post (init n) h1)|]. eapply rtc_l; [by apply step_post|].
  eapply rtc_l; [by apply step_start|]. fold s0.
  eapply rtc_l; [by apply (step_begin s0 0 [] (Handler h1) [Handler h2])|]. fold s1.
  eapply rtc_l; [by apply (step_start s1)|].
  apply rtc_once. by apply (step_begin (start s1) 1 [] (Handler h2) []).
Qed.

(** An exception ends a node silently: when the handler that the only live thread runs throws, no
    thread runs the loop any more, with the other handlers not run and the shutdown flag not
    set; and nothing is begun, whatever is called, until the node is started again. *)
Theorem exception_ends_silently n s i h l :
  Node.signaled_shutdown_ n = false → steps (init n) s → stopped s = false →
  loops s !! i = Some (Busy h (AThrow :: l)) → (∀ j k, loops s !! j = Some k → j ≠ i → k = Over) →
  ∃ s', step s s' ∧ (∀ j k, loops s' !! j = Some k → k = Over) ∧
    Node.signaled_shutdown_ (node s') = false ∧ pending s' = pending s ∧
    ∀ s'', rtc (λ a b, step a b ∧ length (loops b) = length (loops a)) s' s'' → begun s'' = begun s'.
Proof.
  intros Hn H1 Hst Hi Hot. assert (good s) as Hg by (eapply steps_good; [done|by apply init_good]).
  exists (finish (set_loop s i Over) h).
  assert (∀ j k, loops (finish (set_loop s i Over) h) !! j = Some k → k = Over) as Ho.
  { cbn. intros j k [(_ & E & _)|[Hne Hj]]%list_lookup_insert_Some; [done|]. eapply Hot; [exact Hj|congruence]. }
  split; [by eapply step_throw|]. split; [exact Ho|]. split; [cbn; by rewrite (good_flag _ Hg)|]. split; [done|].
  intros s'' Hr. by apply not_started_idle.
Qed.

End Steps.
(** ** Witnesses *)

Definition demo_life : Node.t :=
  Node.mk "demo" (BufferPool.init 0 16 2 false)
    (Directory.mk "" (TopicStore.init "") (BufferPool.init 0 16 2 false) ∅ ∅ [] [] false 0 0 []) false.




(** The first of two handlers throws. *)
Definition demo_thrower : t :=
  set_loop (take_from (start (post (post (init demo_life) 1) 2)) [Handler 2]) 0 (Busy (Handler 1) [AThrow]).

Lemma exception_ends_silently_witness :
  ∃ s', step (λ _, [AThrow]) demo_thrower s' ∧ Node.signaled_shutdown_ (node s') = false ∧ pending s' = [Handler 2].
Proof.
  destruct (exception_ends_silently (λ _, [AThrow]) demo_life demo_thrower 0 (Handler 1) [])
    as (s' & H1 & _ & H2 & H3 & _).
  - reflexivity.
  - eapply rtc_l; [by apply (step_post _ (init demo_life) 1)|]. eapply rtc_l; [by apply (step_post _ _ 2)|].
    eapply rtc_l; [by apply step_start|].
    apply rtc_once. by apply (step_begin (λ _, [AThrow]) (start (post (post (init demo_life) 1) 2)) 0 [] (Handler 1) [Handler 2]).
  - reflexivity.
  - reflexivity.
  - intros [|[|j]] k Hj Hne; [by destruct Hne|done|done].
  - exists s'. split; [exact H1|]. split; [exact H2|exact H3].
Defined.

End Lifecycle.
