(* ===== verification/Floats.v ===== *)
(** * Floating point

    [double] and [float] are the IEEE formats binary64 and binary32, with the arithmetic of
    the standard library's [SpecFloat] (rounding to nearest, ties to even), and the
    comparisons and the functions [std::min], [std::max] and [std::fabs] of C++ on them. *)

From Stdlib Require Import SpecFloat.
From S2P Require Import Prelude.

Definition of_Z (z : Z) : spec_float := binary_normalize 53 1024 z 0 false.
Definition fadd (a b : spec_float) : spec_float := SFadd 53 1024 a b.
Definition fsub (a b : spec_float) : spec_float := SFsub 53 1024 a b.
Definition fdiv (a b : spec_float) : spec_float := SFdiv 53 1024 a b.
Definition fmul (a b : spec_float) : spec_float := SFmul 53 1024 a b.
Definition fopp (a : spec_float) : spec_float := SFopp a.
Definition fabs (a : spec_float) : spec_float := SFabs a.
Definition fdist (a b : spec_float) : spec_float := fabs (fsub a b).

(** [float] *)
Definition of_Z32 (z : Z) : spec_float := binary_normalize 24 128 z 0 false.
Definition fdiv32 (a b : spec_float) : spec_float := SFdiv 24 128 a b.

(** [std::numeric_limits<double>::max()] and [lowest()] *)
Definition DBL_MAX : spec_float := S754_finite false 9007199254740991 971.
Definition DBL_LOWEST : spec_float := S754_finite true 9007199254740991 971.

(** [M_PI], the double nearest to pi. *)
Definition M_PI : spec_float := S754_finite false 7074237752028440 (-51).

Definition flt (a b : spec_float) : bool := SFltb a b.
Definition fle (a b : spec_float) : bool := SFleb a b.
Definition is_nan (a : spec_float) : bool := match a with S754_nan => true | _ => false end.

(** [std::min(a, b)] is [b < a ? b : a], [std::max(a, b)] is [a < b ? b : a]. *)
Definition std_min (a b : spec_float) : spec_float := if flt b a then b else a.
Definition std_max (a b : spec_float) : spec_float := if flt a b then b else a.

(** ** Order *)

Lemma SFcompare_sym a b : SFcompare b a = option_map CompOpp (SFcompare a b).
Proof.
  destruct a as [[]|[]| |[] m e], b as [[]|[]| |[] m' e']; try done; simpl;
    rewrite (Z.compare_antisym e e'); destruct (Z.compare e e'); try done; simpl;
    change (Pos.compare_cont Eq ?x ?y) with (Pos.compare x y); rewrite (Pos.compare_antisym m m');
    by destruct (Pos.compare m m').
Qed.

Lemma SFcompare_refl a : is_nan a = false → SFcompare a a = Some Eq.
Proof.
  intros Ha. destruct a as [[]|[]| |[] m e]; try done; simpl;
    rewrite Z.compare_refl; change (Pos.compare_cont Eq m m) with (Pos.compare m m);
    by rewrite Pos.compare_refl.
Qed.

Lemma SFcompare_some a b : is_nan a = false → is_nan b = false → ∃ c, SFcompare a b = Some c.
Proof.
  intros Ha Hb. destruct a as [[]|[]| |[] m e], b as [[]|[]| |[] m' e']; try done; try (by eexists); simpl;
    destruct (Z.compare e e'); by eexists.
Qed.

Lemma fle_refl a : is_nan a = false → fle a a = true.
Proof. intros Ha. unfold fle, SFleb. by rewrite SFcompare_refl. Qed.

(** Not less is greater or equal, apart from not-a-number. *)
Lemma flt_false_fle a b : is_nan a = false → is_nan b = false → flt a b = false → fle b a = true.
Proof.
  intros Ha Hb. unfold flt, fle, SFltb, SFleb. rewrite (SFcompare_sym a b).
  destruct (SFcompare_some a b Ha Hb) as [[] ->]; done.
Qed.

Lemma fle_nan a b : fle a b = true → is_nan a = false ∧ is_nan b = false.
Proof. destruct a as [[]|[]| |[] m e], b as [[]|[]| |[] m' e']; done. Qed.

Lemma flt_fle a b : flt a b = true → fle a b = true.
Proof. unfold flt, fle, SFltb, SFleb. by destruct (SFcompare a b) as [[]|]. Qed.

(** Clamping to [lo, hi]. *)
Lemma clamp_range lo hi x :
  fle lo hi = true → is_nan x = false →
  fle lo (std_max (std_min x hi) lo) = true ∧ fle (std_max (std_min x hi) lo) hi = true.
Proof.
  intros Hlh Hx. destruct (fle_nan _ _ Hlh) as [Hl Hh]. unfold std_max, std_min.
  destruct (flt hi x) eqn:E1.
  - destruct (flt hi lo) eqn:E2; split; auto using fle_refl, flt_false_fle.
  - destruct (flt x lo) eqn:E2; split; auto using fle_refl, flt_false_fle.
Qed.
