(* ===== verification/FloatExact.v ===== *)
(** * Exact arithmetic in floating point

    Where a result needs no rounding the operations of [SpecFloat] give it: numbers whose
    binary digits fit the format are represented exactly ([binary_round_exact]), and sums,
    differences and products of integers below [2 ^ 53] in absolute value are the integer
    results as long as these stay below [2 ^ 53] too. *)

From Stdlib Require Import SpecFloat.
From S2P Require Import Prelude Floats.

Section Digits.
Local Open Scope Z_scope.

Lemma digits2_pos_spec p : 2 ^ (Z.pos (digits2_pos p) - 1) ≤ Z.pos p < 2 ^ Z.pos (digits2_pos p).
Proof.
  induction p as [p IH|p IH|]; cbn [digits2_pos]; [..|done];
    rewrite Pos2Z.inj_succ; unfold Z.succ; rewrite Z.add_simpl_r, Z.pow_add_r by lia;
    replace (2 ^ Z.pos (digits2_pos p)) with (2 * 2 ^ (Z.pos (digits2_pos p) - 1)) in *
      by (rewrite <-Z.pow_succ_r by lia; f_equal; lia); lia.
Qed.

(** The number of digits is determined by the powers of two around the number. *)
Lemma digits2_unique p d : 0 < d → 2 ^ (d - 1) ≤ Z.pos p < 2 ^ d → Z.pos (digits2_pos p) = d.
Proof.
  intros Hd Hp. pose proof (digits2_pos_spec p) as Hs.
  destruct (Z.lt_trichotomy (Z.pos (digits2_pos p)) d) as [H|[H|H]]; [|done|].
  - assert (2 ^ Z.pos (digits2_pos p) ≤ 2 ^ (d - 1)) by (apply Z.pow_le_mono_r; lia). lia.
  - assert (2 ^ d ≤ 2 ^ (Z.pos (digits2_pos p) - 1)) by (apply Z.pow_le_mono_r; lia). lia.
Qed.

Lemma digits2_le p d : 0 ≤ d → Z.pos p < 2 ^ d → Z.pos (digits2_pos p) ≤ d.
Proof.
  intros Hd Hp. destruct (digits2_pos_spec p) as [Hs _].
  apply Z.nlt_ge. intros H. assert (2 ^ d ≤ 2 ^ (Z.pos (digits2_pos p) - 1)) by (apply Z.pow_le_mono_r; lia). lia.
Qed.

Lemma digits2_shift p n q : 0 ≤ n → Z.pos q = Z.pos p * 2 ^ n → Z.pos (digits2_pos q) = Z.pos (digits2_pos p) + n.
Proof.
  intros Hn Hq. apply digits2_unique; [lia|]. rewrite Hq. destruct (digits2_pos_spec p) as [H1 H2].
  replace (Z.pos (digits2_pos p) + n - 1) with (Z.pos (digits2_pos p) - 1 + n) by lia.
  rewrite !Z.pow_add_r by lia. assert (0 < 2 ^ n) by (by apply Z.pow_pos_nonneg). nia.
Qed.

Lemma digits2_mul p q : Z.pos (digits2_pos p) + Z.pos (digits2_pos q) - 1 ≤ Z.pos (digits2_pos (p * q)).
Proof.
  destruct (digits2_pos_spec p) as [Hp _], (digits2_pos_spec q) as [Hq _], (digits2_pos_spec (p * q)) as [_ H].
  apply Z.nlt_ge. intros Hlt.
  assert (2 ^ Z.pos (digits2_pos (p * q)) ≤ 2 ^ (Z.pos (digits2_pos p) - 1 + (Z.pos (digits2_pos q) - 1)))
    as Hle by (apply Z.pow_le_mono_r; lia).
  rewrite (Z.pow_add_r 2 (Z.pos (digits2_pos p) - 1)) in Hle by lia. rewrite Pos2Z.inj_mul in H.
  assert (0 < 2 ^ (Z.pos (digits2_pos p) - 1)) by (apply Z.pow_pos_nonneg; lia).
  assert (0 < 2 ^ (Z.pos (digits2_pos q) - 1)) by (apply Z.pow_pos_nonneg; lia). nia.
Qed.

Lemma iter_xO m k : Z.pos (Pos.iter xO m k) = Z.pos m * 2 ^ Z.pos k.
Proof.
  revert m. induction k as [|k IH] using Pos.peano_ind; intros m; [simpl; lia|].
  rewrite Pos.iter_succ, Pos2Z.inj_xO, IH, Pos2Z.inj_succ, Z.pow_succ_r by lia. lia.
Qed.

Lemma shl_align_spec m e e' : e' ≤ e → ∃ q, shl_align m e e' = (q, e') ∧ Z.pos q = Z.pos m * 2 ^ (e - e').
Proof.
  intros He. unfold shl_align. destruct (e' - e) as [|k|k] eqn:E.
  - exists m. replace (e - e') with 0 by lia. split; [f_equal; lia|lia].
  - lia.
  - eexists. split; [done|]. rewrite iter_xO. do 2 f_equal. lia.
Qed.

Lemma shl_align_ge m e e' : e ≤ e' → shl_align m e e' = (m, e).
Proof. intros He. unfold shl_align. by destruct (e' - e) eqn:E; [| |lia]. Qed.

(** Dropping zero bits loses nothing. *)
Lemma iter_shr_exact k m : 0 < m →
  SpecFloat.iter_pos shr_1 k (Build_shr_record (m * 2 ^ Z.pos k) false false) = Build_shr_record m false false.
Proof.
  revert m. induction k as [k IH|k IH|]; intros m Hm; cbn [SpecFloat.iter_pos].
  - assert (0 < 2 ^ Z.pos k) as Hk by (by apply Z.pow_pos_nonneg).
    replace (m * 2 ^ Z.pos k~1) with (2 * (m * 2 ^ Z.pos k * 2 ^ Z.pos k)).
    2: { rewrite (Pos2Z.inj_xI k), Z.pow_add_r, Z.pow_twice_r, Z.pow_1_r by lia. ring. }
    assert (0 < m * 2 ^ Z.pos k * 2 ^ Z.pos k) by nia.
    destruct (m * 2 ^ Z.pos k * 2 ^ Z.pos k) as [|q|q] eqn:E; [lia| |lia].
    change (shr_1 _) with (Build_shr_record (Z.pos q) false false). rewrite <-E, IH, IH by nia. done.
  - assert (0 < 2 ^ Z.pos k) as Hk by (by apply Z.pow_pos_nonneg).
    replace (m * 2 ^ Z.pos k~0) with (m * 2 ^ Z.pos k * 2 ^ Z.pos k).
    2: { rewrite (Pos2Z.inj_xO k), Z.pow_twice_r. ring. }
    rewrite IH, IH by nia. done.
  - destruct m as [|q|q]; [lia| |lia]. by rewrite Z.pow_1_r, Z.mul_comm.
Qed.

End Digits.

(** ** Rounding what fits *)

Section Exact.
Context (prec emax : Z).
Local Open Scope Z_scope.

(** The exponent at which [q * 2 ^ e] is stored. *)
Definition cexp (q : positive) (e : Z) : Z := fexp prec emax (Z.pos (digits2_pos q) + e).

(** [q * 2 ^ e] is a number of the format. *)
Definition fits (q : positive) (e : Z) : Prop :=
  Z.pos (digits2_pos q) ≤ prec ∧ emin prec emax ≤ e ∧ Z.pos (digits2_pos q) + e ≤ emax ∧
  emin prec emax ≤ emax - prec.

Lemma cexp_le q e : fits q e → cexp q e ≤ e ∧ cexp q e ≤ emax - prec.
Proof. unfold fits, cexp, fexp. lia. Qed.

Lemma shr_fexp_exact m e c :
  0 ≤ cexp m e - e → Z.pos m = Z.pos c * 2 ^ (cexp m e - e) →
  shr_fexp prec emax (Z.pos m) e loc_Exact = (Build_shr_record (Z.pos c) false false, cexp m e).
Proof.
  intros Hle Hm. unfold shr_fexp. cbn [shr_record_of_loc Zdigits2]. fold (cexp m e). rewrite Hm. unfold shr.
  destruct (cexp m e - e) as [|k|k] eqn:E.
  - rewrite Z.mul_1_r. f_equal. lia.
  - rewrite iter_shr_exact by lia. f_equal. lia.
  - lia.
Qed.

(** Rounding gives the number stored at its exponent, whatever way it is written. *)
Lemma round_aux_exact s m e q e0 :
  fits q e0 → e ≤ e0 → Z.pos m = Z.pos q * 2 ^ (e0 - e) → e ≤ cexp q e0 →
  ∃ c, Z.pos c = Z.pos q * 2 ^ (e0 - cexp q e0) ∧
       binary_round_aux prec emax s (Z.pos m) e loc_Exact = S754_finite s c (cexp q e0).
Proof.
  intros Hf Hk Hm He. destruct (cexp_le _ _ Hf) as [H1 H2].
  assert (0 < 2 ^ (e0 - cexp q e0)) as Hp by (apply Z.pow_pos_nonneg; lia).
  destruct (Z.pos q * 2 ^ (e0 - cexp q e0)) as [|c|c] eqn:Ec; [nia| |nia].
  exists c. split; [done|].
  pose proof (digits2_shift q (e0 - e) m ltac:(lia) Hm) as Hd.
  assert (cexp m e = cexp q e0) as Hc by (unfold cexp; f_equal; lia).
  pose proof (digits2_shift q (e0 - cexp q e0) c ltac:(lia) (eq_sym Ec)) as Hdc.
  assert (cexp c (cexp q e0) = cexp q e0) as Hcc by (unfold cexp at 1 3; f_equal; lia).
  unfold binary_round_aux. rewrite (shr_fexp_exact m e c), Hc.
  - cbn [loc_of_shr_record round_nearest_even shr_m].
    rewrite (shr_fexp_exact c _ c); rewrite Hcc; cbn [shr_m]; [|lia|rewrite Z.sub_diag; lia].
    by rewrite (proj2 (Z.leb_le _ _) H2).
  - rewrite Hc. lia.
  - rewrite Hc, Hm, <-Ec, <-Z.mul_assoc, <-Z.pow_add_r by lia. do 2 f_equal. lia.
Qed.

Lemma binary_round_exact s m e q e0 :
  fits q e0 → e ≤ e0 → Z.pos m = Z.pos q * 2 ^ (e0 - e) →
  ∃ c, Z.pos c = Z.pos q * 2 ^ (e0 - cexp q e0) ∧
       binary_round prec emax s m e = S754_finite s c (cexp q e0).
Proof.
  intros Hf Hk Hm. unfold binary_round. fold (cexp m e).
  pose proof (digits2_shift q (e0 - e) m ltac:(lia) Hm) as Hd. destruct (cexp_le _ _ Hf) as [H1 _].
  assert (cexp m e = cexp q e0) as -> by (unfold cexp; f_equal; lia).
  destruct (Z.le_gt_cases e (cexp q e0)) as [Hle|Hgt].
  - rewrite shl_align_ge by done. by apply round_aux_exact.
  - destruct (shl_align_spec m e (cexp q e0) ltac:(lia)) as (m' & -> & Hm').
    apply round_aux_exact; [done|done| |done].
    rewrite Hm', Hm, <-Z.mul_assoc, <-Z.pow_add_r by lia. do 2 f_equal. lia.
Qed.

End Exact.

(** ** Integers in binary64 *)

Section Integers.
Local Open Scope Z_scope.

Definition small (z : Z) : Prop := Z.abs z < 2 ^ 53.

(** [x] is the integer [z]; a product may be a negative zero. *)
Definition represents (x : spec_float) (z : Z) : Prop := x = of_Z z ∨ (z = 0 ∧ x = S754_zero true).

Abbreviation cexp64 := (cexp 53 1024).

Lemma small_fits q : small (Z.pos q) → fits 53 1024 q 0 ∧ cexp64 q 0 = Z.pos (digits2_pos q) - 53.
Proof.
  intros Hs. pose proof (digits2_le q 53 ltac:(lia) ltac:(unfold small in Hs; lia)).
  split; [by repeat split; try lia|]. unfold cexp, fexp, emin. lia.
Qed.

(** The number stored for an integer. *)
Definition rep (s : bool) (q : positive) (x : spec_float) : Prop :=
  ∃ c, Z.pos c = Z.pos q * 2 ^ (0 - cexp64 q 0) ∧ x = S754_finite s c (cexp64 q 0).

Lemma rep_unique s q x y : rep s q x → rep s q y → x = y.
Proof. intros (c & Hc & ->) (d & Hd & ->). rewrite <-Hd in Hc. by injection Hc as ->. Qed.

Lemma of_Z_rep s q : small (Z.pos q) → rep s q (of_Z (cond_Zopp s (Z.pos q))).
Proof.
  intros Hs. destruct (small_fits q Hs) as [Hf _].
  destruct (binary_round_exact 53 1024 s q 0 q 0 Hf ltac:(lia) ltac:(lia)) as (c & Hc & Hr).
  exists c. split; [done|]. destruct s; exact Hr.
Qed.

(** A number written [m * 2 ^ e] with [e <= 0] that is the integer [z] rounds to [z]. *)
Lemma normalize_exact m e z :
  small z → e ≤ 0 → m = z * 2 ^ (- e) → binary_normalize 53 1024 m e false = of_Z z.
Proof.
  intros Hs He Hm. assert (0 < 2 ^ (- e)) as Hp by (apply Z.pow_pos_nonneg; lia).
  assert (∀ s q, z = cond_Zopp s (Z.pos q) → binary_normalize 53 1024 m e false = of_Z z) as H.
  { intros s q ->. assert (small (Z.pos q)) as Hq by (by destruct s). destruct (small_fits q Hq) as [Hf _].
    assert (∃ p, m = cond_Zopp s (Z.pos p) ∧ Z.pos p = Z.pos q * 2 ^ (0 - e)) as (p & -> & Hp').
    { destruct (Z.pos q * 2 ^ (- e)) as [|p|p] eqn:E; [nia| |nia].
      exists p. split; [destruct s; cbn [cond_Zopp] in *; lia|]. by rewrite Z.sub_0_l. }
    apply (rep_unique s q); [|by apply of_Z_rep].
    destruct (binary_round_exact 53 1024 s p e q 0 Hf He Hp') as (c & Hc & Hr).
    exists c. split; [done|]. destruct s; exact Hr. }
  destruct z as [|q|q]; [by subst|by apply (H false q)|by apply (H true q)].
Qed.

Lemma sign_cases z : z = 0 ∨ ∃ s q, z = cond_Zopp s (Z.pos q).
Proof. destruct z as [|q|q]; [by left|right; by exists false, q|right; by exists true, q]. Qed.

Lemma small_sign s q : small (cond_Zopp s (Z.pos q)) → small (Z.pos q).
Proof. by destruct s. Qed.

Lemma fmul_nonzero s q t r :
  small (Z.pos q) → small (Z.pos r) → small (Z.pos (q * r)) →
  fmul (of_Z (cond_Zopp s (Z.pos q))) (of_Z (cond_Zopp t (Z.pos r)))
  = of_Z (cond_Zopp (xorb s t) (Z.pos (q * r))).
Proof.
  intros Hq Hr Hqr.
  destruct (small_fits _ Hq) as [Hfq Hcq], (small_fits _ Hr) as [Hfr Hcr], (small_fits _ Hqr) as [Hf Hc].
  destruct (cexp_le _ _ _ _ Hfq), (cexp_le _ _ _ _ Hfr).
  destruct (of_Z_rep s q Hq) as (cq & Eq & ->), (of_Z_rep t r Hr) as (cr & Er & ->).
  apply (rep_unique (xorb s t) (q * r)); [|by apply of_Z_rep].
  unfold fmul, SFmul. pose proof (digits2_mul q r) as Hd.
  destruct (round_aux_exact 53 1024 (xorb s t) (cq * cr) (cexp64 q 0 + cexp64 r 0) (q * r) 0 Hf)
    as (c & Hc' & Hr').
  - lia.
  - rewrite !Pos2Z.inj_mul, Eq, Er.
    replace (0 - (cexp64 q 0 + cexp64 r 0)) with (0 - cexp64 q 0 + (0 - cexp64 r 0)) by lia.
    rewrite Z.pow_add_r by lia. ring.
  - lia.
  - by exists c.
Qed.

Lemma fmul_int a b : small a → small b → small (a * b) → represents (fmul (of_Z a) (of_Z b)) (a * b).
Proof.
  intros Ha Hb Hab. destruct (sign_cases a) as [->|(s & q & ->)], (sign_cases b) as [->|(t & r & ->)].
  - by left.
  - destruct (of_Z_rep t r (small_sign _ _ Hb)) as (c & _ & ->). destruct t; [by right|by left].
  - destruct (of_Z_rep s q (small_sign _ _ Ha)) as (c & _ & ->). rewrite Z.mul_0_r. destruct s; [by right|by left].
  - left. assert (cond_Zopp s (Z.pos q) * cond_Zopp t (Z.pos r) = cond_Zopp (xorb s t) (Z.pos (q * r))) as E
      by (destruct s, t; cbn [xorb cond_Zopp]; lia).
    rewrite E in *. apply fmul_nonzero; eauto using small_sign.
Qed.

Lemma fadd_int a b : small a → small b → small (a + b) → fadd (of_Z a) (of_Z b) = of_Z (a + b).
Proof.
  intros Ha Hb Hab. destruct (sign_cases a) as [->|(s & q & ->)], (sign_cases b) as [->|(t & r & ->)].
  - done.
  - rewrite Z.add_0_l. by destruct (of_Z_rep t r (small_sign _ _ Hb)) as (c & _ & ->).
  - rewrite Z.add_0_r. by destruct (of_Z_rep s q (small_sign _ _ Ha)) as (c & _ & ->).
  - destruct (small_fits _ (small_sign _ _ Ha)) as [Hfq _], (small_fits _ (small_sign _ _ Hb)) as [Hfr _].
    destruct (cexp_le _ _ _ _ Hfq) as [Hq _], (cexp_le _ _ _ _ Hfr) as [Hr _].
    destruct (of_Z_rep s q (small_sign _ _ Ha)) as (cq & Eq & ->), (of_Z_rep t r (small_sign _ _ Hb)) as (cr & Er & ->).
    unfold fadd, SFadd. set (ez := Z.min _ _).
    destruct (shl_align_spec cq (cexp64 q 0) ez ltac:(lia)) as (mq & -> & Mq).
    destruct (shl_align_spec cr (cexp64 r 0) ez ltac:(lia)) as (mr & -> & Mr). cbn [fst].
    apply normalize_exact; [done|lia|].
    assert (Z.pos mq = Z.pos q * 2 ^ (- ez)) as ->.
    { rewrite Mq, Eq, <-Z.mul_assoc, <-Z.pow_add_r by lia. do 2 f_equal. lia. }
    assert (Z.pos mr = Z.pos r * 2 ^ (- ez)) as ->.
    { rewrite Mr, Er, <-Z.mul_assoc, <-Z.pow_add_r by lia. do 2 f_equal. lia. }
    destruct s, t; cbn [cond_Zopp]; lia.
Qed.

(** The operations on integers, up to the sign of zero. *)
Lemma represents_mul x y a b :
  represents x a → represents y b → small a → small b → small (a * b) → represents (fmul x y) (a * b).
Proof.
  intros [->|[-> ->]] [->|[-> ->]] Ha Hb Hab.
  - by apply fmul_int.
  - rewrite Z.mul_0_r. destruct (sign_cases a) as [->|(s & q & ->)]; [by right|].
    destruct (of_Z_rep s q (small_sign _ _ Ha)) as (c & _ & ->). destruct s; [by left|by right].
  - rewrite Z.mul_0_l. destruct (sign_cases b) as [->|(s & q & ->)]; [by right|].
    destruct (of_Z_rep s q (small_sign _ _ Hb)) as (c & _ & ->). destruct s; [by left|by right].
  - by left.
Qed.

Lemma represents_add x y a b :
  represents x a → represents y b → small a → small b → small (a + b) → represents (fadd x y) (a + b).
Proof.
  intros [->|[-> ->]] [->|[-> ->]] Ha Hb Hab.
  - left. by apply fadd_int.
  - rewrite Z.add_0_r. left. destruct (sign_cases a) as [->|(s & q & ->)]; [done|].
    by destruct (of_Z_rep s q (small_sign _ _ Ha)) as (c & _ & ->).
  - rewrite Z.add_0_l. left. destruct (sign_cases b) as [->|(s & q & ->)]; [done|].
    by destruct (of_Z_rep s q (small_sign _ _ Hb)) as (c & _ & ->).
  - by right.
Qed.

Lemma represents_opp x a : represents x a → small a → represents (fopp x) (- a).
Proof.
  intros [->|[-> ->]] Ha; [|by left]. destruct (sign_cases a) as [->|(s & q & ->)]; [by right|]. left.
  destruct (of_Z_rep s q (small_sign _ _ Ha)) as (c & Hc & Ec). rewrite Ec.
  apply (rep_unique (negb s) q); [by exists c|].
  replace (- cond_Zopp s (Z.pos q)) with (cond_Zopp (negb s) (Z.pos q)) by (by destruct s).
  apply of_Z_rep. by eapply small_sign.
Qed.

Lemma fsub_opp x y : fsub x y = fadd x (fopp y).
Proof. destruct x as [[]|[]| |[] m e], y as [[]|[]| |[] m' e']; done. Qed.

Lemma represents_sub x y a b :
  represents x a → represents y b → small a → small b → small (a - b) → represents (fsub x y) (a - b).
Proof.
  intros Hx Hy Ha Hb Hab. rewrite fsub_opp. rewrite <-Z.add_opp_r in *.
  apply represents_add; [done|by apply represents_opp|done| |done].
  unfold small in *. by rewrite Z.abs_opp.
Qed.

(** Comparing equal is being the same integer. *)
Lemma represents_eqb x z : represents x z → small z → SFeqb x (of_Z z) = true.
Proof.
  intros [->|[-> ->]] Hz; [|done]. unfold SFeqb. rewrite SFcompare_refl; [done|].
  destruct (sign_cases z) as [->|(s & q & ->)]; [done|].
  by destruct (of_Z_rep s q (small_sign _ _ Hz)) as (c & _ & ->).
Qed.

End Integers.
