(* ===== verification/Rounding.v ===== *)
(** * Rounding in binary64

    The value of a finite number in units of the smallest one, [2 ^ -1074], is an integer
    ([units]).  Sums and differences are the integer results rounded to 53 bits: the error is
    at most half a unit in the last place, and a bound that is itself a number of the format
    is not crossed.  Products are the exact products rounded, with half of the smallest unit more
    where they underflow.  Comparisons are comparisons of the integers. *)

From Stdlib Require Import SpecFloat.
From S2P Require Import Prelude Floats FloatExact.

Local Open Scope Z_scope.

(** ** Shifting right *)

Lemma iter_pos_nat {A} (f : A → A) p x : SpecFloat.iter_pos f p x = Nat.iter (Pos.to_nat p) f x.
Proof.
  revert x. induction p as [p IH|p IH|]; intros x; cbn [SpecFloat.iter_pos]; [..|done].
  - rewrite !IH, <-Nat.iter_add, Pos2Nat.inj_xI. rewrite (Nat.iter_succ_r). f_equal. lia.
  - rewrite !IH, <-Nat.iter_add, Pos2Nat.inj_xO. f_equal. lia.
Qed.

(** What is left of [m] after [k] bits: the quotient, the last bit out and whether any other bit
    out was set. *)
Definition shifted (m : Z) (k : Z) (r : shr_record) : Prop :=
  shr_m r = m / 2 ^ k ∧
  (shr_r r = true ↔ 2 ^ (k - 1) ≤ m mod 2 ^ k) ∧
  (shr_s r = true ↔ (m mod 2 ^ k) mod 2 ^ (k - 1) ≠ 0).

Lemma shr_1_spec m r s :
  0 ≤ m → shr_1 (Build_shr_record m r s) = Build_shr_record (m / 2) (Z.odd m) (r || s).
Proof.
  intros Hm. destruct m as [|p|p]; [done| |lia]. rewrite <-Z.div2_div. by destruct p.
Qed.

Lemma shifted_first m : 0 ≤ m → shifted m 1 (shr_1 (Build_shr_record m false false)).
Proof.
  intros Hm. rewrite shr_1_spec by done. unfold shifted. cbn [shr_m shr_r shr_s].
  change (2 ^ 1) with 2. change (2 ^ (1 - 1)) with 1. rewrite Zmod_odd, Z.mod_1_r.
  split_and!; [done| |done]. destruct (Z.odd m); split; intros; done || lia.
Qed.

Lemma shifted_next m k r : 0 ≤ m → 0 < k → shifted m k r → shifted m (k + 1) (shr_1 r).
Proof.
  intros Hm Hk (Hq & Hr & Hs). destruct r as [q b c]. cbn [shr_m shr_r shr_s] in *. subst q.
  assert (0 < 2 ^ k) as Hp by (apply Z.pow_pos_nonneg; lia).
  assert (0 < 2 ^ (k - 1)) as Hp1 by (apply Z.pow_pos_nonneg; lia).
  assert (2 ^ (k + 1) = 2 ^ k * 2) as E by (rewrite Z.pow_add_r by lia; done).
  rewrite shr_1_spec by (apply Z.div_pos; lia). unfold shifted. cbn [shr_m shr_r shr_s].
  rewrite Z.add_simpl_r, E, <-Z.div_div by lia.
  rewrite (Z.rem_mul_r m (2 ^ k) 2) by lia. rewrite Zmod_odd.
  pose proof (Z.mod_pos_bound m (2 ^ k) Hp) as Hb. split_and!; [done|..].
  - destruct (Z.odd (m / 2 ^ k)); split; intros; done || lia.
  - assert ((m mod 2 ^ k + 2 ^ k * (if Z.odd (m / 2 ^ k) then 1 else 0)) mod 2 ^ k = m mod 2 ^ k) as ->.
    { rewrite Z.mul_comm, Z.mod_add by lia. apply Z.mod_mod. lia. }
    rewrite orb_true_iff, Hr, Hs. split; [intros [?|?]; [lia|]|].
    + intros E0. rewrite E0, Z.mod_0_l in *; lia.
    + intros Hne. destruct (decide (2 ^ (k - 1) ≤ m mod 2 ^ k)); [by left|right]. rewrite Z.mod_small; lia.
Qed.

Lemma iter_shr_shifted m n : 0 ≤ m → (0 < n)%nat →
  shifted m (Z.of_nat n) (Nat.iter n shr_1 (Build_shr_record m false false)).
Proof.
  intros Hm. induction n as [|[|n] IH]; intros Hn; [lia|by apply shifted_first|].
  change (Nat.iter (S (S n)) shr_1 ?x) with (shr_1 (Nat.iter (S n) shr_1 x)).
  replace (Z.of_nat (S (S n))) with (Z.of_nat (S n) + 1) by lia. apply shifted_next; [done|lia|apply IH; lia].
Qed.

(** ** Rounding to the nearest *)

(** Rounding keeps the quotient or the next integer, whichever is nearer. *)
Lemma round_near m k r :
  0 ≤ m → 0 < k → shifted m k r →
  let R := round_nearest_even (shr_m r) (loc_of_shr_record r) in
  (R = m / 2 ^ k ∨ (R = m / 2 ^ k + 1 ∧ m mod 2 ^ k ≠ 0)) ∧ 2 * Z.abs (R * 2 ^ k - m) ≤ 2 ^ k.
Proof.
  intros Hm Hk (Hq & Hr & Hs). destruct r as [q b c]. cbn [shr_m shr_r shr_s] in *. subst q.
  assert (0 < 2 ^ (k - 1)) as Hp1 by (apply Z.pow_pos_nonneg; lia).
  assert (2 ^ k = 2 * 2 ^ (k - 1)) as E by (rewrite <-Z.pow_succ_r by lia; f_equal; lia).
  assert (0 < 2 ^ k) as Hp by lia.
  pose proof (Z.mod_pos_bound m (2 ^ k) Hp) as Hb. pose proof (Z.div_mod m (2 ^ k) ltac:(lia)) as Hdm.
  set (q := m / 2 ^ k) in *. set (t := m mod 2 ^ k) in *. set (h := 2 ^ (k - 1)) in *.
  assert (b = true → h ≤ t) as Hr1 by apply Hr. assert (b = false → t < h) as Hr2.
  { intros ->. destruct (decide (h ≤ t)) as [H|H]; [apply Hr in H; done|lia]. }
  assert (c = false → t mod h = 0) as Hs1.
  { intros ->. destruct (decide (t mod h = 0)) as [H|H]; [done|apply Hs in H; done]. }
  assert (t mod h = if b then t - h else t) as Ht.
  { destruct b.
    - rewrite <-(Z.mod_add t (-1) h), Z.mod_small by lia. lia.
    - apply Z.mod_small. specialize (Hr2 eq_refl). lia. }
  destruct b, c; cbn [loc_of_shr_record round_nearest_even]; cbv zeta;
    try specialize (Hr1 eq_refl); try specialize (Hr2 eq_refl); try specialize (Hs1 eq_refl);
    try (destruct (Z.even q)); split; try (by left); try (right; split; [done|lia]); nia.
Qed.

(** ** binary64 *)

(** Numbers of 53 bits, in units. *)
Definition representable (f : Z) : Prop := ∃ m j, 0 ≤ m < 2 ^ 53 ∧ 0 ≤ j ∧ f = m * 2 ^ j.

(** [R] is [U] rounded to 53 bits. *)
Definition rounds (U R : Z) : Prop :=
  2 ^ 53 * Z.abs (R - U) ≤ U ∧
  (∀ f, representable f → U ≤ f → R ≤ f) ∧ (∀ f, representable f → f ≤ U → f ≤ R).

Lemma rounds_exact U : 0 ≤ U → rounds U U.
Proof. intros HU. split_and!; [rewrite Z.sub_diag; lia|done|done]. Qed.

(** A representable number at least as large as [q * 2 ^ n], with [q] of 53 bits, is a multiple
    of [2 ^ n]. *)
Lemma representable_multiple f q n :
  representable f → 0 ≤ n → 2 ^ 52 ≤ q → q * 2 ^ n ≤ f → ∃ m, f = m * 2 ^ n.
Proof.
  intros (m & j & Hm & Hj & ->) Hn Hq Hf.
  destruct (Z.le_gt_cases n j) as [Hle|Hgt].
  - exists (m * 2 ^ (j - n)). rewrite <-Z.mul_assoc, <-Z.pow_add_r by lia. do 2 f_equal. lia.
  - assert (0 < 2 ^ j) by (by apply Z.pow_pos_nonneg).
    assert (2 ^ n = 2 ^ (n - j) * 2 ^ j) as E by (rewrite <-Z.pow_add_r by lia; f_equal; lia).
    assert (2 ≤ 2 ^ (n - j)) by (change 2 with (2 ^ 1) at 1; apply Z.pow_le_mono_r; lia).
    rewrite E in Hf. change (2 ^ 53) with (2 * 2 ^ 52) in Hm. nia.
Qed.

Lemma rounds_near M R k h :
  0 < k → 0 ≤ h → 2 ^ (52 + k) ≤ M < 2 ^ (53 + k) →
  (R = M / 2 ^ k ∨ (R = M / 2 ^ k + 1 ∧ M mod 2 ^ k ≠ 0)) → 2 * Z.abs (R * 2 ^ k - M) ≤ 2 ^ k →
  rounds (M * 2 ^ h) (R * 2 ^ (k + h)).
Proof.
  intros Hk Hh HM HR He.
  assert (0 < 2 ^ k) as Hpk by (apply Z.pow_pos_nonneg; lia).
  assert (0 < 2 ^ h) as Hph by (by apply Z.pow_pos_nonneg).
  assert (0 < 2 ^ (k + h)) as Hpkh by (apply Z.pow_pos_nonneg; lia).
  assert (2 ^ (k + h) = 2 ^ k * 2 ^ h) as E by (apply Z.pow_add_r; lia).
  rewrite !Z.pow_add_r in HM by lia.
  pose proof (Z.div_mod M (2 ^ k) ltac:(lia)) as Hdm. pose proof (Z.mod_pos_bound M (2 ^ k) Hpk) as Hb.
  set (q := M / 2 ^ k) in *. set (t := M mod 2 ^ k) in *.
  assert (2 ^ 52 ≤ q < 2 ^ 53) as Hq by (split; [apply Z.lt_succ_r|]; nia).
  assert (q * 2 ^ (k + h) ≤ M * 2 ^ h) as HqM by (rewrite E; nia).
  assert (t ≠ 0 → q * 2 ^ (k + h) < M * 2 ^ h) as HqM' by (intros Ht; rewrite E; nia).
  assert (M * 2 ^ h < (q + 1) * 2 ^ (k + h)) as HMq by (rewrite E; nia).
  split_and!.
  - rewrite E. replace (R * (2 ^ k * 2 ^ h) - M * 2 ^ h) with ((R * 2 ^ k - M) * 2 ^ h) by ring.
    rewrite Z.abs_mul, (Z.abs_eq (2 ^ h)) by lia. change (2 ^ 53) with (2 * 2 ^ 52). nia.
  - intros f Hf HU.
    destruct (representable_multiple f q (k + h) Hf ltac:(lia) ltac:(lia) ltac:(lia)) as [m ->].
    destruct HR as [->|[-> Ht]]; [lia|]. specialize (HqM' Ht).
    assert (q * 2 ^ (k + h) < m * 2 ^ (k + h)) as Hlt by lia.
    apply Z.mul_lt_mono_pos_r in Hlt; [|done]. apply Z.mul_le_mono_nonneg_r; lia.
  - intros f Hf HU. assert (f ≤ q * 2 ^ (k + h)); [|destruct HR as [->|[-> _]]; lia].
    destruct (Z.le_gt_cases (q * 2 ^ (k + h)) f) as [Hle|Hgt]; [|lia].
    destruct (representable_multiple f q (k + h) Hf ltac:(lia) ltac:(lia) Hle) as [m ->].
    assert (m < q + 1) by (apply (Z.mul_lt_mono_pos_r (2 ^ (k + h))); lia).
    apply Z.mul_le_mono_nonneg_r; lia.
Qed.

(** A finite number of the format. *)
Definition valid (x : spec_float) : Prop := valid_binary 53 1024 x = true.

Lemma valid_finite s m e :
  valid (S754_finite s m e) ↔ cexp 53 1024 m e = e ∧ e ≤ 971.
Proof.
  unfold valid, valid_binary, bounded, canonical_mantissa.
  rewrite andb_true_iff, Z.eqb_eq, Z.leb_le. done.
Qed.

(** What is left to do once a mantissa is rounded: one that has grown to 54 bits loses its last,
    which is zero. *)
Lemma finish_rounding s e' R :
  -1074 <= e' → e' ≤ 970 → 2 ^ 52 ≤ Z.pos R ≤ 2 ^ 53 →
  ∃ c e'', (let '(mrs, e) := shr_fexp 53 1024 (Z.pos R) e' loc_Exact in
            match shr_m mrs with
            | Z0 => S754_zero s
            | Zpos m => if Z.leb e (1024 - 53) then S754_finite s m e else S754_infinity s
            | _ => S754_nan
            end) = S754_finite s c e'' ∧ valid (S754_finite s c e'') ∧
           Z.pos c * 2 ^ (e'' + 1074) = Z.pos R * 2 ^ (e' + 1074).
Proof.
  intros He Hmax HR. destruct (Z.eq_dec (Z.pos R) (2 ^ 53)) as [EQ|NE].
  - assert (Z.pos (digits2_pos R) = 54) as Hd by (apply digits2_unique; lia).
    assert (cexp 53 1024 R e' = e' + 1) as Hc by (unfold cexp, fexp, emin; lia).
    rewrite (shr_fexp_exact 53 1024 R e' 4503599627370496); rewrite Hc; [|lia|].
    2: { replace (e' + 1 - e') with 1 by lia. rewrite EQ. reflexivity. }
    cbn [shr_m]. rewrite (proj2 (Z.leb_le _ _)) by lia. eexists _, _. split; [done|]. split.
    + apply valid_finite. split; [unfold cexp, fexp, emin; simpl digits2_pos; lia|lia].
    + rewrite EQ. replace (e' + 1 + 1074) with (1 + (e' + 1074)) by lia.
      rewrite (Z.pow_add_r 2 1) by lia. by rewrite Z.mul_assoc.
  - assert (Z.pos (digits2_pos R) = 53) as Hd by (apply digits2_unique; lia).
    assert (cexp 53 1024 R e' = e') as Hc by (unfold cexp, fexp, emin; lia).
    rewrite (shr_fexp_exact 53 1024 R e' R); rewrite Hc; [|lia|rewrite Z.sub_diag; lia].
    cbn [shr_m]. rewrite (proj2 (Z.leb_le _ _)) by lia.
    eexists _, _. split; [done|]. split; [|done]. apply valid_finite. split; [done|lia].
Qed.

(** A number of at most 53 bits is kept. *)
Lemma binary_round_short s M e :
  -1074 ≤ e → Z.pos (digits2_pos M) + e ≤ 1023 → Z.pos (digits2_pos M) ≤ 53 →
  ∃ c e', binary_round 53 1024 s M e = S754_finite s c e' ∧ valid (S754_finite s c e') ∧
          Z.pos c * 2 ^ (e' + 1074) = Z.pos M * 2 ^ (e + 1074).
Proof.
  intros He Hmax Hd. assert (fits 53 1024 M e) as Hf by (unfold fits, emin; lia).
  destruct (cexp_le _ _ _ _ Hf) as [H1 H2].
  destruct (binary_round_exact 53 1024 s M e M e Hf ltac:(lia)) as (c & Hc & Hr); [rewrite Z.sub_diag; lia|].
  exists c, (cexp 53 1024 M e). split; [done|].
  pose proof (digits2_shift M (e - cexp 53 1024 M e) c ltac:(lia) Hc) as Hdc.
  assert (-1074 ≤ cexp 53 1024 M e) as Hmin by (unfold cexp, fexp, emin; lia). split.
  - apply valid_finite. split; [|lia]. unfold cexp at 1 3. f_equal. lia.
  - rewrite Hc, <-Z.mul_assoc, <-Z.pow_add_r by lia. do 2 f_equal. lia.
Qed.

(** Rounding a positive number, in units. *)
Lemma binary_round_units s M e :
  -1074 ≤ e → Z.pos (digits2_pos M) + e ≤ 1023 →
  ∃ c e', binary_round 53 1024 s M e = S754_finite s c e' ∧ valid (S754_finite s c e') ∧
          rounds (Z.pos M * 2 ^ (e + 1074)) (Z.pos c * 2 ^ (e' + 1074)).
Proof.
  intros He Hmax. destruct (Z.le_gt_cases (Z.pos (digits2_pos M)) 53) as [Hd|Hd].
  { destruct (binary_round_short s M e He Hmax Hd) as (c & e' & Hr & Hv & Hu). exists c, e'. split_and!; [done|done|].
    rewrite Hu. apply rounds_exact, Z.mul_nonneg_nonneg; [lia|]. apply Z.pow_nonneg. lia. }
  set (k := Z.pos (digits2_pos M) - 53). assert (0 < k) as Hk by lia.
  assert (cexp 53 1024 M e = e + k) as Hcexp by (unfold cexp, fexp, emin; lia).
  unfold binary_round. fold (cexp 53 1024 M e). rewrite shl_align_ge by lia.
  unfold binary_round_aux, shr_fexp at 1. cbn [shr_record_of_loc Zdigits2]. fold (cexp 53 1024 M e).
  rewrite Hcexp, Z.add_simpl_l. unfold shr at 1. destruct k as [|kp|kp] eqn:Ek; [lia| |lia].
  rewrite iter_pos_nat. set (r := Nat.iter _ _ _).
  assert (shifted (Z.pos M) (Z.pos kp) r) as Hsh.
  { unfold r. rewrite <-(positive_nat_Z kp). apply iter_shr_shifted; lia. }
  destruct (round_near (Z.pos M) (Z.pos kp) r ltac:(lia) ltac:(lia) Hsh) as [HR Herr].
  set (R := round_nearest_even _ _) in *.
  assert (2 ^ (52 + Z.pos kp) ≤ Z.pos M < 2 ^ (53 + Z.pos kp)) as HM.
  { pose proof (digits2_pos_spec M) as Hs.
    replace (52 + Z.pos kp) with (Z.pos (digits2_pos M) - 1) by lia.
    replace (53 + Z.pos kp) with (Z.pos (digits2_pos M)) by lia. done. }
  pose proof (rounds_near (Z.pos M) R (Z.pos kp) (e + 1074) ltac:(lia) ltac:(lia) HM HR Herr) as Hround.
  replace (Z.pos kp + (e + 1074)) with (e + Z.pos kp + 1074) in Hround by lia.
  assert (2 ^ 52 ≤ R ≤ 2 ^ 53) as HRb.
  { rewrite !Z.pow_add_r in HM by lia. assert (0 < 2 ^ Z.pos kp) by (by apply Z.pow_pos_nonneg).
    assert (2 ^ 52 ≤ Z.pos M / 2 ^ Z.pos kp < 2 ^ 53); [|destruct HR as [->|[-> _]]; lia].
    split; [apply Z.div_le_lower_bound|apply Z.div_lt_upper_bound]; lia. }
  destruct R as [|Rp|Rp] eqn:ER; [lia| |lia].
  destruct (finish_rounding s (e + Z.pos kp) Rp ltac:(lia) ltac:(lia) HRb) as (c & e' & Hr & Hv & Hu).
  exists c, e'. rewrite Hu. done.
Qed.

(** ** The value in units *)

Definition units (x : spec_float) : Z :=
  match x with S754_finite s m e => cond_Zopp s (Z.pos m * 2 ^ (e + 1074)) | _ => 0 end.

(** A number that is neither infinite nor not-a-number, in the format. *)
Definition number (x : spec_float) : Prop :=
  valid x ∧ match x with S754_zero _ | S754_finite _ _ _ => True | _ => False end.

Lemma valid_bounds s m e :
  valid (S754_finite s m e) →
  -1074 ≤ e ≤ 971 ∧ Z.pos m < 2 ^ 53 ∧ (-1074 < e → 2 ^ 52 ≤ Z.pos m).
Proof.
  intros [Hc He]%valid_finite. unfold cexp, fexp, emin in Hc. pose proof (digits2_pos_spec m) as Hd.
  assert (Z.pos (digits2_pos m) ≤ 53) as Hle by lia. split_and!; [lia|lia|..].
  - eapply Z.lt_le_trans; [apply Hd|]. apply Z.pow_le_mono_r; lia.
  - intros Hgt. replace (Z.pos (digits2_pos m)) with 53 in Hd by lia. apply Hd.
Qed.

Lemma units_representable x : valid x → representable (Z.abs (units x)).
Proof.
  intros Hv. destruct x as [s|s| |s m e]; try (exists 0, 0; repeat split; lia).
  destruct (valid_bounds s m e Hv) as (He & Hm & _). exists (Z.pos m), (e + 1074). split_and!; [lia|lia|lia|].
  assert (0 < 2 ^ (e + 1074)) by (apply Z.pow_pos_nonneg; lia).
  cbn [units]. destruct s; cbn [cond_Zopp]; lia.
Qed.

Lemma compare_magnitude s1 m1 e1 s2 m2 e2 :
  valid (S754_finite s1 m1 e1) → valid (S754_finite s2 m2 e2) →
  match Z.compare e1 e2 with Lt => Lt | Gt => Gt | Eq => Pos.compare m1 m2 end
  = Z.compare (Z.pos m1 * 2 ^ (e1 + 1074)) (Z.pos m2 * 2 ^ (e2 + 1074)).
Proof.
  intros V1 V2. destruct (valid_bounds _ _ _ V1) as (He1 & Hm1 & Hn1), (valid_bounds _ _ _ V2) as (He2 & Hm2 & Hn2).
  assert (∀ m m' e e', -1074 ≤ e → Z.pos m < 2 ^ 53 → 2 ^ 52 ≤ Z.pos m' → e < e' →
    Z.pos m * 2 ^ (e + 1074) < Z.pos m' * 2 ^ (e' + 1074)) as Hlt.
  { intros m m' e e' He Hm Hm' Hee. assert (0 < 2 ^ (e + 1074)) by (apply Z.pow_pos_nonneg; lia).
    replace (e' + 1074) with (1 + (e' - e - 1) + (e + 1074)) by lia.
    rewrite (Z.pow_add_r 2 (1 + (e' - e - 1))), (Z.pow_add_r 2 1) by lia.
    assert (1 ≤ 2 ^ (e' - e - 1)) by (apply Z.lt_pred_le, Z.pow_pos_nonneg; lia).
    rewrite Z.mul_assoc. apply Z.mul_lt_mono_pos_r; [done|]. change (2 ^ 53) with (2 ^ 52 * 2) in Hm. nia. }
  destruct (Z.compare_spec e1 e2) as [->|Hc|Hc].
  - rewrite Pos2Z.inj_compare. apply Zmult_compare_compat_r.
    apply Z.lt_gt, Z.pow_pos_nonneg; lia.
  - symmetry. apply Z.compare_lt_iff. apply Hlt; [lia|done|apply Hn2; lia|done].
  - symmetry. apply Z.compare_gt_iff. apply Hlt; [lia|done|apply Hn1; lia|done].
Qed.

(** Comparing numbers is comparing their units. *)
Lemma SFcompare_units x y : number x → number y → SFcompare x y = Some (Z.compare (units x) (units y)).
Proof.
  intros [Vx Hx] [Vy Hy].
  assert (∀ s m e, valid (S754_finite s m e) → 0 < Z.pos m * 2 ^ (e + 1074)) as Hpos.
  { intros s m e V. destruct (valid_bounds _ _ _ V) as (He & _). apply Z.mul_pos_pos; [lia|].
    apply Z.pow_pos_nonneg; lia. }
  destruct x as [sx|sx| |sx m1 e1], y as [sy|sy| |sy m2 e2]; try done; cbn [SFcompare units].
  - specialize (Hpos _ _ _ Vy). destruct sy; cbn [cond_Zopp]; f_equal; symmetry;
      [apply Z.compare_gt_iff|apply Z.compare_lt_iff]; lia.
  - specialize (Hpos _ _ _ Vx). destruct sx; cbn [cond_Zopp]; f_equal; symmetry;
      [apply Z.compare_lt_iff|apply Z.compare_gt_iff]; lia.
  - pose proof (compare_magnitude _ _ _ _ _ _ Vx Vy) as Hc.
    pose proof (Hpos _ _ _ Vx) as Px. pose proof (Hpos _ _ _ Vy) as Py.
    change (Pos.compare_cont Eq m1 m2) with (Pos.compare m1 m2). f_equal.
    destruct sx, sy; cbn [cond_Zopp]; [|symmetry; apply Z.compare_lt_iff; lia|symmetry; apply Z.compare_gt_iff; lia|done].
    rewrite Z.compare_opp. etrans; [|symmetry; apply Z.compare_antisym]. rewrite <-Hc.
    by destruct (Z.compare e1 e2).
Qed.

Lemma flt_units x y : number x → number y → flt x y = true ↔ units x < units y.
Proof.
  intros Hx Hy. unfold flt, SFltb. rewrite SFcompare_units by done.
  destruct (Z.compare_spec (units x) (units y)); split; done || lia.
Qed.

(** As a case analysis on the test. *)
Lemma flt_units_b x y b : number x → number y → flt x y = b → if b then units x < units y else units y ≤ units x.
Proof.
  intros Hx Hy <-. pose proof (flt_units x y Hx Hy) as H. destruct (flt x y); [by apply H|].
  apply Z.nlt_ge. intros Hlt. by apply H in Hlt.
Qed.

Lemma fle_units x y : number x → number y → fle x y = true ↔ units x ≤ units y.
Proof.
  intros Hx Hy. unfold fle, SFleb. rewrite SFcompare_units by done.
  destruct (Z.compare_spec (units x) (units y)); split; done || lia.
Qed.

Lemma fopp_number x : number x → number (fopp x) ∧ units (fopp x) = - units x.
Proof.
  intros [Hv Hx]. destruct x as [s|s| |s m e]; try done. split; [done|]. destruct s; cbn; lia.
Qed.

(** ** Sums *)

Lemma normalize_units S e :
  -1074 ≤ e → Z.abs S * 2 ^ (e + 1074) < 2 ^ 2097 →
  number (binary_normalize 53 1024 S e false) ∧
  rounds (Z.abs (S * 2 ^ (e + 1074))) (Z.abs (units (binary_normalize 53 1024 S e false))) ∧
  (0 ≤ S → 0 ≤ units (binary_normalize 53 1024 S e false)) ∧
  (S ≤ 0 → units (binary_normalize 53 1024 S e false) ≤ 0).
Proof.
  intros He Hb. assert (0 < 2 ^ (e + 1074)) as Hp by (apply Z.pow_pos_nonneg; lia).
  assert (∀ s p, Z.abs S = Z.pos p → ∃ c e', binary_round 53 1024 s p e = S754_finite s c e' ∧
    valid (S754_finite s c e') ∧ rounds (Z.pos p * 2 ^ (e + 1074)) (Z.pos c * 2 ^ (e' + 1074)) ∧
    0 < Z.pos c * 2 ^ (e' + 1074)) as Hr.
  { intros s p Ep. rewrite Ep in Hb. destruct (binary_round_units s p e He) as (c & e' & Hr & Hv & Hrd).
    - pose proof (digits2_pos_spec p) as [Hd _].
      assert (Z.pos (digits2_pos p) - 1 + (e + 1074) < 2097) as Hlt; [|lia].
      apply (Z.pow_lt_mono_r_iff 2); [lia|lia|]. rewrite Z.pow_add_r by lia. nia.
    - exists c, e'. split_and!; [done|done|done|]. destruct (valid_bounds _ _ _ Hv) as ((? & _) & _).
      apply Z.mul_pos_pos; [lia|]. apply Z.pow_pos_nonneg; lia. }
  destruct S as [|p|p]; cbn [binary_normalize].
  - split_and!; [done|by apply rounds_exact|done|done].
  - destruct (Hr false p eq_refl) as (c & e' & -> & Hv & Hrd & Hc). cbn [units cond_Zopp].
    split_and!; [done| |lia|lia]. rewrite !Z.abs_eq by nia. done.
  - destruct (Hr true p eq_refl) as (c & e' & -> & Hv & Hrd & Hc). cbn [units cond_Zopp].
    split_and!; [done| |lia|lia]. rewrite Z.abs_opp, (Z.abs_eq (Z.pos c * _)) by lia.
    rewrite <-Pos2Z.opp_pos, Z.mul_opp_l, Z.abs_opp, Z.abs_eq by nia. done.
Qed.

(** The sum of two numbers is the rounded sum of their units. *)
Lemma fadd_units x y :
  number x → number y → Z.abs (units x + units y) < 2 ^ 2097 →
  number (fadd x y) ∧ rounds (Z.abs (units x + units y)) (Z.abs (units (fadd x y))) ∧
  (0 ≤ units x + units y → 0 ≤ units (fadd x y)) ∧ (units x + units y ≤ 0 → units (fadd x y) ≤ 0).
Proof.
  intros [Vx Hx] [Vy Hy] Hb.
  destruct x as [sx|sx| |sx m1 e1], y as [sy|sy| |sy m2 e2]; try done.
  - split_and!; [by destruct sx, sy|destruct sx, sy; by apply rounds_exact|by destruct sx, sy|by destruct sx, sy].
  - change (fadd _ _) with (S754_finite sy m2 e2). change (units (S754_zero sx)) with 0. rewrite Z.add_0_l.
    split_and!; [done|apply rounds_exact; lia|done|done].
  - change (fadd _ _) with (S754_finite sx m1 e1). change (units (S754_zero sy)) with 0. rewrite Z.add_0_r.
    split_and!; [done|apply rounds_exact; lia|done|done].
  - destruct (valid_bounds _ _ _ Vx) as ((He1 & _) & _), (valid_bounds _ _ _ Vy) as ((He2 & _) & _).
    unfold fadd, SFadd. set (ez := Z.min e1 e2).
    destruct (shl_align_spec m1 e1 ez ltac:(lia)) as (p & -> & Hp).
    destruct (shl_align_spec m2 e2 ez ltac:(lia)) as (q & -> & Hq). cbn [fst].
    set (S := cond_Zopp sx (Z.pos p) + cond_Zopp sy (Z.pos q)).
    assert (units (S754_finite sx m1 e1) + units (S754_finite sy m2 e2) = S * 2 ^ (ez + 1074)) as ES.
    { cbn [units]. unfold S. replace (e1 + 1074) with (e1 - ez + (ez + 1074)) by lia.
      replace (e2 + 1074) with (e2 - ez + (ez + 1074)) by lia. rewrite (Z.pow_add_r 2 (e1 - ez)), (Z.pow_add_r 2 (e2 - ez)), !Z.mul_assoc, <-Hp, <-Hq by lia.
      destruct sx, sy; cbn [cond_Zopp]; ring. }
    assert (0 < 2 ^ (ez + 1074)) as Hpz by (apply Z.pow_pos_nonneg; lia). rewrite ES in Hb |- *.
    destruct (normalize_units S ez ltac:(lia)) as (H1 & H2 & H3 & H4).
    { by rewrite Z.abs_mul, (Z.abs_eq (2 ^ _)) in Hb by lia. }
    split_and!; [done|done|intros; apply H3; nia|intros; apply H4; nia].
Qed.

(** Bounds on a sum: the relative error, and the numbers of the format it does not cross. *)
Lemma fadd_bounds x y :
  number x → number y → Z.abs (units x + units y) < 2 ^ 2097 →
  number (fadd x y) ∧ 2 ^ 53 * Z.abs (units (fadd x y) - (units x + units y)) ≤ Z.abs (units x + units y) ∧
  (∀ f, number f → 0 ≤ units f → units x + units y ≤ units f → units (fadd x y) ≤ units f) ∧
  (∀ f, number f → 0 ≤ units f → - units f ≤ units x + units y → - units f ≤ units (fadd x y)).
Proof.
  intros Hx Hy Hb. destruct (fadd_units x y Hx Hy Hb) as (Hn & (He & Hu & Hl) & Hpos & Hneg).
  set (T := units x + units y) in *. set (Z' := units (fadd x y)) in *. split_and!; [done|..].
  - destruct (Z.le_gt_cases 0 T) as [H|H]; [specialize (Hpos H)|specialize (Hneg ltac:(lia))]; lia.
  - intros f [Vf _] Hf HT. pose proof (units_representable f Vf) as Hr. rewrite Z.abs_eq in Hr by done.
    destruct (Z.le_gt_cases 0 T) as [H|H]; [|specialize (Hneg ltac:(lia)); lia].
    specialize (Hpos H). specialize (Hu _ Hr ltac:(lia)). lia.
  - intros f [Vf _] Hf HT. pose proof (units_representable f Vf) as Hr. rewrite Z.abs_eq in Hr by done.
    destruct (Z.le_gt_cases 0 T) as [H|H]; [specialize (Hpos H); lia|].
    specialize (Hneg ltac:(lia)). specialize (Hu _ Hr ltac:(lia)). lia.
Qed.

(** ** Products *)

(** What is left to do once a mantissa is rounded, at the least exponent or not. *)
Lemma finish_rounding_small s e' R :
  -1074 ≤ e' ≤ 970 → 0 ≤ R ≤ 2 ^ 53 → (2 ^ 52 ≤ R ∨ e' = -1074) →
  ∃ x, (let '(mrs, e) := shr_fexp 53 1024 R e' loc_Exact in
        match shr_m mrs with
        | Z0 => S754_zero s
        | Zpos m => if Z.leb e (1024 - 53) then S754_finite s m e else S754_infinity s
        | _ => S754_nan
        end) = x ∧ number x ∧ units x = cond_Zopp s (R * 2 ^ (e' + 1074)).
Proof.
  intros He HR Hc. destruct (Z.le_gt_cases (2 ^ 52) R) as [Hb|Hb].
  { destruct R as [|R|R]; [lia| |lia].
    destruct (finish_rounding s e' R) as (c & e'' & Hr & Hv & Hu); [lia|lia|lia|].
    eexists. split; [exact Hr|]. split; [by split|]. cbn [units]. by rewrite Hu. }
  destruct Hc as [?| ->]; [lia|]. destruct R as [|R|R]; [|  |lia].
  - eexists. split; [reflexivity|]. split; [by split|]. by destruct s.
  - assert (Z.pos (digits2_pos R) ≤ 52) as Hd by (apply digits2_le; lia).
    assert (cexp 53 1024 R (-1074) = -1074) as E by (unfold cexp, fexp, emin; lia).
    rewrite (shr_fexp_exact 53 1024 R (-1074) R); rewrite E; [|lia|rewrite Z.sub_diag; lia].
    cbn [shr_m]. rewrite (proj2 (Z.leb_le _ _)) by lia. eexists. split; [done|].
    split; [|done]. split; [|done]. apply valid_finite. split; [done|lia].
Qed.

(** The product of two mantissas, rounded: a relative error, or half of the smallest unit. *)
Lemma round_product s M E :
  -2148 ≤ E → Z.pos (digits2_pos M) + E ≤ 1023 → (-1074 ≤ E → 53 ≤ Z.pos (digits2_pos M)) →
  let x := binary_round_aux 53 1024 s (Z.pos M) E loc_Exact in
  let U := Z.pos M * 2 ^ (E + 2148) in
  number x ∧ ∃ D, units x * 2 ^ 1074 = cond_Zopp s D ∧ (2 ^ 53 * Z.abs (D - U) ≤ U ∨ 2 * Z.abs (D - U) ≤ 2 ^ 1074).
Proof.
  intros HE Hmax Hd x U. set (d := Z.pos (digits2_pos M)) in *.
  pose proof (digits2_pos_spec M) as HM. fold d in HM.
  set (c := cexp 53 1024 M E). assert (c = Z.max (d + E - 53) (-1074)) as Hc by done.
  set (k := c - E). assert (0 ≤ k) as Hk by lia.
  set (r := shr (shr_record_of_loc (Z.pos M) loc_Exact) E k).
  set (R := round_nearest_even (shr_m r.1) (loc_of_shr_record r.1)).
  assert (2 * Z.abs (R * 2 ^ k - Z.pos M) ≤ 2 ^ k ∧ (R = Z.pos M / 2 ^ k ∨ R = Z.pos M / 2 ^ k + 1) ∧
          (k = 0 → R = Z.pos M)) as (Herr & HR & H0).
  { unfold R, r, shr. cbn [shr_record_of_loc]. destruct k as [|p|p]; [| |lia].
    - cbn. rewrite Z.div_1_r, Z.mul_1_r, Z.sub_diag. cbn. lia.
    - cbn [fst]. rewrite iter_pos_nat.
      pose proof (iter_shr_shifted (Z.pos M) (Pos.to_nat p) ltac:(lia) ltac:(lia)) as Hsh.
      rewrite positive_nat_Z in Hsh. destruct (round_near (Z.pos M) (Z.pos p) _ ltac:(lia) ltac:(lia) Hsh) as [Hq He].
      split_and!; [exact He| |lia]. destruct Hq as [Hq|[Hq _]]; [left|right]; exact Hq. }
  assert (0 < 2 ^ k) as Hpk by (by apply Z.pow_pos_nonneg).
  assert (0 ≤ R ≤ 2 ^ 53 ∧ (2 ^ 52 ≤ R ∨ c = -1074)) as [HRb Hcase].
  { assert (Z.pos M < 2 ^ (53 + k)) as Hlt.
    { eapply Z.lt_le_trans; [apply HM|]. apply Z.pow_le_mono_r; lia. }
    rewrite Z.pow_add_r in Hlt by lia.
    assert (0 ≤ Z.pos M / 2 ^ k) by (apply Z.div_pos; lia).
    assert (Z.pos M / 2 ^ k < 2 ^ 53) by (apply Z.div_lt_upper_bound; lia).
    split; [lia|]. destruct (Z.eq_dec c (-1074)) as [->|Hne]; [by right|left].
    assert (2 ^ 52 ≤ Z.pos M / 2 ^ k); [|lia]. apply Z.div_le_lower_bound; [done|].
    rewrite <-Z.pow_add_r by lia. etrans; [|apply HM]. apply Z.pow_le_mono_r; lia. }
  destruct (finish_rounding_small s c R) as (y & Hy & Hn & Hu); [lia|done|done|].
  assert (x = y) as ->.
  { rewrite <-Hy. unfold x, binary_round_aux, shr_fexp at 1. cbn [Zdigits2].
    fold d. change (fexp 53 1024 (d + E) - E) with k. fold r. unfold R.
    assert (r.2 = c) as Hr2 by (unfold r, shr; destruct k eqn:Ek; cbn [snd]; lia).
    destruct r as [mrs e]. cbn [fst snd] in *. by rewrite Hr2. }
  split; [done|]. exists (R * 2 ^ (c + 2148)). split.
  { rewrite Hu. replace (c + 2148) with (c + 1074 + 1074) by lia. rewrite (Z.pow_add_r 2 (c + 1074)) by lia.
    destruct s; cbn [cond_Zopp]; ring. }
  assert (2 ^ (c + 2148) = 2 ^ k * 2 ^ (E + 2148)) as Ec by (rewrite <-Z.pow_add_r by lia; f_equal; lia).
  assert (0 < 2 ^ (E + 2148)) as HpE by (apply Z.pow_pos_nonneg; lia).
  rewrite Ec. unfold U.
  replace (R * (2 ^ k * 2 ^ (E + 2148)) - Z.pos M * 2 ^ (E + 2148)) with ((R * 2 ^ k - Z.pos M) * 2 ^ (E + 2148)) by ring.
  rewrite Z.abs_mul, (Z.abs_eq (2 ^ _)) by lia. destruct (Z.eq_dec c (-1074)) as [Hc1|Hc1].
  - right. replace (2 ^ 1074) with (2 ^ k * 2 ^ (E + 2148)); [nia|]. rewrite <-Ec, Hc1. done.
  - left. assert (2 ^ 52 * 2 ^ k ≤ Z.pos M).
    { rewrite <-Z.pow_add_r by lia. etrans; [|apply HM]. apply Z.pow_le_mono_r; lia. }
    change (2 ^ 53) with (2 * 2 ^ 52). nia.
Qed.

(** The product of two numbers is the product of their values, rounded: the error is relative, or
    half of the smallest unit. *)
Lemma fmul_units x y :
  number x → number y → Z.abs (units x * units y) < 2 ^ 3170 →
  number (fmul x y) ∧
  (2 ^ 53 * Z.abs (units (fmul x y) * 2 ^ 1074 - units x * units y) ≤ Z.abs (units x * units y) ∨
   2 * Z.abs (units (fmul x y) * 2 ^ 1074 - units x * units y) ≤ 2 ^ 1074).
Proof.
  intros [Vx Hx] [Vy Hy] Hb.
  destruct x as [sx|sx| |sx m1 e1], y as [sy|sy| |sy m2 e2]; try done;
    [split; [by split|]; left; cbn [units fmul SFmul]; rewrite ?Z.mul_0_r, ?Z.mul_0_l; done..|].
  destruct (valid_bounds _ _ _ Vx) as ((He1 & _) & _ & Hn1), (valid_bounds _ _ _ Vy) as ((He2 & _) & _ & Hn2).
  assert (units (S754_finite sx m1 e1) * units (S754_finite sy m2 e2)
          = cond_Zopp (xorb sx sy) (Z.pos (m1 * m2) * 2 ^ (e1 + e2 + 2148))) as EU.
  { cbn [units]. replace (e1 + e2 + 2148) with (e1 + 1074 + (e2 + 1074)) by lia.
    rewrite (Z.pow_add_r 2 (e1 + 1074)), Pos2Z.inj_mul by lia. destruct sx, sy; cbn [cond_Zopp xorb]; ring. }
  change (fmul _ _) with (binary_round_aux 53 1024 (xorb sx sy) (Z.pos (m1 * m2)) (e1 + e2) loc_Exact).
  rewrite EU in Hb |- *. set (U := Z.pos (m1 * m2) * _) in *.
  pose proof (digits2_pos_spec (m1 * m2)) as [Hd _].
  assert (0 < 2 ^ (e1 + e2 + 2148)) as Hp by (apply Z.pow_pos_nonneg; lia).
  assert (0 ≤ U) as HU by (unfold U; lia).
  assert (Z.abs (cond_Zopp (xorb sx sy) U) = U) as EA by (destruct (xorb sx sy); cbn [cond_Zopp]; lia).
  rewrite EA in *.
  destruct (round_product (xorb sx sy) (m1 * m2) (e1 + e2)) as (Hn & D & HD & He).
  - lia.
  - assert (Z.pos (digits2_pos (m1 * m2)) - 1 + (e1 + e2 + 2148) < 3170) as Hlt; [|lia].
    apply (Z.pow_lt_mono_r_iff 2); [lia|lia|]. rewrite Z.pow_add_r by lia. eapply Z.le_lt_trans; [|exact Hb]. apply Z.mul_le_mono_nonneg_r; lia.
  - intros Hge. destruct (digits2_pos_spec (m1 * m2)) as [_ Hlt].
    assert (2 ^ 52 ≤ Z.pos (m1 * m2)).
    { rewrite Pos2Z.inj_mul. destruct (decide (-1074 < e1)); [specialize (Hn1 ltac:(lia)); nia|].
      specialize (Hn2 ltac:(lia)). nia. }
    apply Z.nlt_ge. intros Hlt'. assert (2 ^ Z.pos (digits2_pos (m1 * m2)) ≤ 2 ^ 52) by (apply Z.pow_le_mono_r; lia). lia.
  - split; [done|]. rewrite HD. fold U in He. destruct (xorb sx sy); cbn [cond_Zopp]; lia.
Qed.

(** ** Full turns *)

Definition TURN : spec_float := fmul (of_Z 2) M_PI.

(** The number one, in units. *)
Definition one : Z := 2 ^ 1074.

Lemma turn_units : number TURN ∧ number M_PI ∧ units TURN = 2 * units M_PI ∧ 6 * one < units TURN < 7 * one.
Proof. vm_compute. repeat split. Qed.

(** The numbers between minus and plus [2 ^ 53]. *)
Definition bounded53 (x : spec_float) : Prop := number x ∧ Z.abs (units x) ≤ 2 ^ 53 * one.

(** Taking a turn off a number above pi, or adding one to a number below minus pi, changes it by
    more than five and does not pass the other end. *)
Lemma turn_down x c :
  bounded53 x → units M_PI ≤ c → c < units x →
  bounded53 (fsub x TURN) ∧ units (fsub x TURN) ≤ units x - 5 * one ∧ - units M_PI ≤ units (fsub x TURN).
Proof.
  intros [Hx Hb] Hc Hlt. destruct turn_units as (Ht & Hp & E & Hr).
  destruct (fopp_number TURN Ht) as [Hn En]. rewrite fsub_opp.
  assert (0 < units M_PI) as Hpos by (change one with (2 ^ 1074) in Hr; lia).
  assert (0 < one) as Hone by (by apply Z.pow_pos_nonneg).
  destruct (fadd_bounds x (fopp TURN) Hx Hn) as (H1 & H2 & H3 & H4).
  { rewrite En. apply (Z.le_lt_trans _ (2 ^ 53 * one)); [lia|]. reflexivity. }
  rewrite En in *. specialize (H4 M_PI Hp ltac:(lia) ltac:(lia)).
  assert (Z.abs (units (fadd x (fopp TURN)) - (units x + - units TURN)) ≤ one) as He.
  { apply (Z.mul_le_mono_pos_l _ _ (2 ^ 53)); [done|]. lia. }
  split_and!; [split; [done|lia]|lia|done].
Qed.

Lemma turn_up x c :
  bounded53 x → units M_PI ≤ c → units x < - c →
  bounded53 (fadd x TURN) ∧ units x + 5 * one ≤ units (fadd x TURN) ∧ units (fadd x TURN) ≤ units M_PI.
Proof.
  intros [Hx Hb] Hc Hlt. destruct turn_units as (Ht & Hp & E & Hr).
  assert (0 < one) as Hone by (by apply Z.pow_pos_nonneg).
  destruct (fadd_bounds x TURN Hx Ht) as (H1 & H2 & H3 & H4).
  { apply (Z.le_lt_trans _ (2 ^ 53 * one)); [lia|]. reflexivity. }
  specialize (H3 M_PI Hp ltac:(lia) ltac:(lia)).
  assert (Z.abs (units (fadd x TURN) - (units x + units TURN)) ≤ one) as He.
  { apply (Z.mul_le_mono_pos_l _ _ (2 ^ 53)); [done|]. lia. }
  split_and!; [split; [done|lia]|lia|done].
Qed.

Lemma bounded53_fle x :
  valid x → fle (fopp (of_Z (2 ^ 53))) x = true → fle x (of_Z (2 ^ 53)) = true → bounded53 x.
Proof.
  intros Hv H1 H2.
  assert (number x) as Hx.
  { split; [done|]. destruct x as [s|[]| |s m e]; [done|vm_compute in H1; done|vm_compute in H2; done| |done].
    vm_compute in H1. done. }
  assert (number (of_Z (2 ^ 53)) ∧ units (of_Z (2 ^ 53)) = 2 ^ 53 * one) as [Hn Eu]
    by (vm_compute; repeat split).
  destruct (fopp_number _ Hn) as [Hno Eo].
  apply fle_units in H1, H2; try done. split; [done|]. lia.
Qed.
