(* ===== verification/Quotients.v ===== *)
(** * Rounding of quotients

    What rounding to nearest does to a quotient of integers, in any binary format: the bits that
    are dropped, their location, and the error of the result against the real number.
    Division and the conversion of integers are instances. *)

From Stdlib Require Import SpecFloat Reals Lra Lia.
From S2P Require Import Prelude Floats FloatExact Rounding.

Local Open Scope Z_scope.

(** ** The bits of a quotient *)

(** [r] holds the integer part of [n / b], the first bit after the point and whether any other bit
    after it is set. *)
Definition fraction (n b : Z) (r : shr_record) : Prop :=
  shr_m r = n / b ∧ (shr_r r = true ↔ b ≤ 2 * (n mod b)) ∧ (shr_s r = true ↔ (2 * (n mod b)) mod b ≠ 0).

Lemma double_mod b t : 0 ≤ t < b → (2 * t) mod b = if decide (b ≤ 2 * t) then 2 * t - b else 2 * t.
Proof.
  intros Ht. destruct (decide _) as [Hd|Hd].
  - rewrite <-(Z.mod_add (2 * t) (-1) b), Z.mod_small; lia.
  - apply Z.mod_small. lia.
Qed.

Lemma fraction_location n b :
  0 < b → fraction n b (shr_record_of_loc (n / b) (new_location b (n mod b))).
Proof.
  intros Hb. pose proof (Z.mod_pos_bound n b Hb) as Ht. unfold fraction. rewrite double_mod by done.
  set (t := n mod b) in *. unfold new_location, new_location_even, new_location_odd.
  assert (Z.even b = false → 2 * t ≠ b) as He by (intros He E'; by rewrite <-E', Z.even_mul in He).
  destruct (Z.even b); destruct (Z.eqb_spec t 0) as [E|E];
    [|destruct (Z.compare_spec (2 * t) b)| |specialize (He eq_refl); destruct (Z.compare_spec (2 * t + 1) b)];
    cbn [shr_record_of_loc shr_m shr_r shr_s]; case_decide; repeat split; intros; done || lia.
Qed.

Lemma fraction_half n b r : 0 ≤ n → 0 < b → fraction n b r → fraction n (b * 2) (shr_1 r).
Proof.
  intros Hn Hb (Hq & Hr & Hs). destruct r as [q x y]. cbn [shr_m shr_r shr_s] in *. subst q.
  rewrite shr_1_spec by (by apply Z.div_pos). unfold fraction. cbn [shr_m shr_r shr_s].
  pose proof (Z.mod_pos_bound n b Hb) as Ht. pose proof (Z.mod_pos_bound n (b * 2) ltac:(lia)) as Ht2.
  rewrite double_mod in * by done. rewrite <-Z.div_div by lia. rewrite (Z.rem_mul_r n b 2), Zmod_odd in * by lia.
  rewrite orb_true_iff, Hr, Hs. destruct (Z.odd (n / b)); repeat split; repeat case_decide; intros; done || lia.
Qed.

Lemma fraction_shift n b r k : 0 ≤ n → 0 < b → fraction n b r → fraction n (b * 2 ^ Z.of_nat k) (Nat.iter k shr_1 r).
Proof.
  intros Hn Hb Hr. induction k as [|k IH]; [by rewrite Z.mul_1_r|].
  change (Nat.iter (S k) shr_1 r) with (shr_1 (Nat.iter k shr_1 r)).
  rewrite Nat2Z.inj_succ, Z.pow_succ_r, (Z.mul_comm 2), Z.mul_assoc by lia.
  apply fraction_half; [done|apply Z.mul_pos_pos; [done|apply Z.pow_pos_nonneg; lia]|done].
Qed.

(** Rounding to nearest. *)
Lemma fraction_round n b r :
  0 < b → fraction n b r →
  let R := round_nearest_even (shr_m r) (loc_of_shr_record r) in
  n / b ≤ R ≤ n / b + 1 ∧ 2 * Z.abs (R * b - n) ≤ b.
Proof.
  intros Hb (Hq & Hr & Hs). destruct r as [q x y]. cbn [shr_m shr_r shr_s] in *. subst q.
  pose proof (Z.mod_pos_bound n b Hb) as Ht. pose proof (Z.div_mod n b ltac:(lia)) as Hdm.
  rewrite double_mod in Hs by done. set (q := n / b) in *. set (t := n mod b) in *.
  assert (2 * Z.abs (q * b - n) = 2 * t) as E0 by lia.
  assert (2 * Z.abs ((q + 1) * b - n) = 2 * (b - t)) as E1 by lia.
  assert (if x then b ≤ 2 * t else 2 * t < b) as Hx.
  { destruct x; [by apply Hr|]. apply Z.nle_gt. intros Hle. by apply Hr in Hle. }
  assert (y = false → (if decide (b ≤ 2 * t) then 2 * t - b else 2 * t) = 0) as Hy.
  { intros ->. destruct (Z.eq_dec (if decide (b ≤ 2 * t) then 2 * t - b else 2 * t) 0) as [E|E]; [done|].
    by apply Hs in E. }
  assert (y = false → if x then 2 * t = b else t = 0) as Hz by (intros E; specialize (Hy E); destruct x; case_decide; lia).
  destruct x, y; cbn [loc_of_shr_record round_nearest_even]; cbv zeta; try specialize (Hz eq_refl);
    try destruct (Z.even q); rewrite ?E0, ?E1; lia.
Qed.

(** ** Rounding in a format *)

Section Format.
Context (prec emax : Z).
Hypothesis Hprec : 0 < prec.
Hypothesis Hemax : 2 ≤ emax.

Definition format_number (x : spec_float) : Prop :=
  valid_binary prec emax x = true ∧ match x with S754_zero _ | S754_finite _ _ _ => True | _ => False end.

(** [x] is [R * 2 ^ e], with its sign. *)
Definition is_scaled (s : bool) (R e : Z) (x : spec_float) : Prop :=
  match x with
  | S754_zero s' => s' = s ∧ R = 0
  | S754_finite s' m e' => s' = s ∧ e ≤ e' ∧ R = Z.pos m * 2 ^ (e' - e)
  | _ => False
  end.

Lemma format_finite s m e : cexp prec emax m e = e → e ≤ emax - prec → format_number (S754_finite s m e).
Proof.
  intros Hc He. split; [|done]. apply andb_true_iff.
  split; [by apply Z.eqb_eq|by apply Z.leb_le].
Qed.

Definition finish (s : bool) (R e : Z) : spec_float :=
  let '(mrs, e) := shr_fexp prec emax R e loc_Exact in
  match shr_m mrs with
  | Z0 => S754_zero s
  | Zpos m => if Z.leb e (emax - prec) then S754_finite s m e else S754_infinity s
  | _ => S754_nan
  end.

Lemma finish_spec s R e :
  emin prec emax ≤ e → e < emax - prec → 0 ≤ R ≤ 2 ^ prec → (2 ^ (prec - 1) ≤ R ∨ e = emin prec emax) →
  format_number (finish s R e) ∧ is_scaled s R e (finish s R e).
Proof.
  intros Hmin Hmax HR Hc. destruct R as [|R|R]; [|  |lia].
  { unfold finish, shr_fexp. cbn [shr_record_of_loc Zdigits2]. unfold shr, fexp.
    destruct (_ - e) as [|k|k] eqn:Ek; [by repeat split| |by repeat split]. lia. }
  assert (2 ^ prec = 2 * 2 ^ (prec - 1)) as Ep by (rewrite <-Z.pow_succ_r by lia; f_equal; lia).
  destruct (Z.eq_dec (Z.pos R) (2 ^ prec)) as [EQ|NE].
  - assert (Z.pos (digits2_pos R) = prec + 1) as Hd.
    { apply digits2_unique; [lia|]. rewrite Z.add_simpl_r, Z.pow_add_r by lia. lia. }
    assert (cexp prec emax R e = e + 1) as Hce by (unfold cexp, fexp; lia).
    assert (0 < 2 ^ (prec - 1)) as Hpos by (apply Z.pow_pos_nonneg; lia).
    destruct (2 ^ (prec - 1)) as [|c|c] eqn:Ec; [lia| |lia].
    assert (Z.pos (digits2_pos c) = prec) as Hdc.
    { apply digits2_unique; [lia|]. rewrite Ep, Ec. lia. }
    unfold finish. rewrite (shr_fexp_exact prec emax R e c); rewrite Hce, ?Z.add_simpl_l; [|lia|lia].
    cbn [shr_m]. rewrite (proj2 (Z.leb_le _ _)) by lia. split.
    + apply format_finite; [unfold cexp, fexp|]; lia.
    + split_and!; [done|lia|]. rewrite Z.add_simpl_l. lia.
  - assert (Z.pos (digits2_pos R) ≤ prec) as Hd by (apply digits2_le; lia).
    assert (cexp prec emax R e = e) as Hce.
    { destruct Hc as [Hc| ->]; [|unfold cexp, fexp; lia].
      assert (Z.pos (digits2_pos R) = prec) by (apply digits2_unique; lia). unfold cexp, fexp. lia. }
    unfold finish. rewrite (shr_fexp_exact prec emax R e R); rewrite Hce, ?Z.sub_diag; [|lia|lia].
    cbn [shr_m]. rewrite (proj2 (Z.leb_le _ _)) by lia. split; [by apply format_finite; [|lia]|].
    split_and!; [done|lia|]. rewrite Z.sub_diag. lia.
Qed.

Lemma Zdigits2_spec q : 0 ≤ q → 0 ≤ Zdigits2 q ∧ q < 2 ^ Zdigits2 q ∧ (q ≠ 0 → 2 ^ (Zdigits2 q - 1) ≤ q).
Proof.
  intros Hq. destruct q as [|q|q]; [done| |lia]. pose proof (digits2_pos_spec q). cbn [Zdigits2]. split_and!; lia.
Qed.

(** The quotient [n / b] at the exponent [e], rounded: [R] at the exponent [c] that the format
    gives it, the nearest. *)
Lemma round_quotient s n b e :
  0 ≤ n → 0 < b →
  let d := Zdigits2 (n / b) in
  let c := fexp prec emax (d + e) in
  e ≤ c → d + e < emax →
  ∃ R, let x := binary_round_aux prec emax s (n / b) e (new_location b (n mod b)) in
    format_number x ∧ is_scaled s R c x ∧ 2 * Z.abs (R * (b * 2 ^ (c - e)) - n) ≤ b * 2 ^ (c - e).
Proof.
  intros Hn Hb d c Hec Hmax. destruct (Zdigits2_spec (n / b)) as (Hd0 & Hd1 & Hd2); [by apply Z.div_pos|].
  fold d in Hd0, Hd1, Hd2. assert (c = Z.max (d + e - prec) (emin prec emax)) as Hc by done.
  set (k := c - e). assert (0 < 2 ^ k) as Hpk by (apply Z.pow_pos_nonneg; lia).
  set (r0 := shr_record_of_loc (n / b) (new_location b (n mod b))).
  assert (fraction n (b * 2 ^ k) (shr r0 e k).1 ∧ (shr r0 e k).2 = c) as [Hfr He].
  { pose proof (fraction_location n b Hb) as H0. fold r0 in H0. unfold shr. destruct k as [|p|p] eqn:Ek; [| |lia].
    - split; [by rewrite Z.mul_1_r|]. cbn [snd]. lia.
    - cbn [fst snd]. split; [|lia]. rewrite iter_pos_nat, <-(positive_nat_Z p). by apply fraction_shift. }
  destruct (fraction_round n (b * 2 ^ k) _ ltac:(lia) Hfr) as [HR Herr].
  set (R := round_nearest_even _ _) in *. exists R. cbv zeta.
  assert (binary_round_aux prec emax s (n / b) e (new_location b (n mod b)) = finish s R c) as ->.
  { unfold binary_round_aux, shr_fexp at 1. fold d c k r0. rewrite <-He. unfold R. by destruct (shr r0 e k). }
  rewrite <-Z.div_div in HR by lia. assert (0 ≤ n / b / 2 ^ k) by (apply Z.div_pos; [by apply Z.div_pos|done]).
  destruct (finish_spec s R c) as [H1 H2]; [lia|unfold emin in *; lia| |  |done].
  - assert (n / b / 2 ^ k < 2 ^ prec); [|lia]. apply Z.div_lt_upper_bound; [done|].
    rewrite <-Z.pow_add_r by lia. eapply Z.lt_le_trans; [exact Hd1|]. apply Z.pow_le_mono_r; lia.
  - destruct (Z.eq_dec c (emin prec emax)) as [|Hne]; [by right|left]. assert (n / b ≠ 0) as Hq.
    { intros Hq. assert (d = 0) by (unfold d; by rewrite Hq). lia. }
    assert (2 ^ (prec - 1) ≤ n / b / 2 ^ k); [|lia]. apply Z.div_le_lower_bound; [done|].
    rewrite <-Z.pow_add_r by lia. etrans; [|by apply Hd2]. apply Z.pow_le_mono_r; lia.
Qed.

End Format.
