(* ===== verification/RealValue.v ===== *)
(** * The real value of floating-point numbers

    The real number a number of a binary format stands for, and the error of the operations:
    relative, or half of the smallest positive number where they underflow.  Quotients and
    integers in any format ([SFdiv_real], [normalize_real]); sums, products and quotients in
    [binary64] ([fadd_val], [fmul_val], [fdiv_val]). *)

From Stdlib Require Import SpecFloat Reals Lra Lia.
From S2P Require Import Prelude Floats FloatExact Rounding Quotients.

Local Open Scope R_scope.

(** ** Powers of two *)

Definition p2 (e : Z) : R := powerRZ 2 e.

Lemma p2_pos e : 0 < p2 e.
Proof. apply powerRZ_lt. lra. Qed.

Lemma p2_add a b : p2 (a + b) = p2 a * p2 b.
Proof. apply powerRZ_add. lra. Qed.

Lemma p2_IZR k : (0 <= k)%Z → IZR (2 ^ k) = p2 k.
Proof.
  intros Hk. unfold p2. rewrite <-(Z2Nat.id k Hk), <-pow_powerRZ. generalize (Z.to_nat k) as n. intros n.
  induction n as [|n IH]; [done|]. rewrite Nat2Z.inj_succ, Z.pow_succ_r, mult_IZR, IH by lia. done.
Qed.

Lemma p2_le a b : (a <= b)%Z → p2 a <= p2 b.
Proof.
  intros Hab. replace b with (a + (b - a))%Z by lia. rewrite p2_add, <-(p2_IZR (b - a)) by lia.
  pose proof (p2_pos a). assert (1 <= IZR (2 ^ (b - a))); [|nra]. apply IZR_le.
  assert (0 < 2 ^ (b - a))%Z by (apply Z.pow_pos_nonneg; lia). lia.
Qed.

Lemma p2_lt_inv a b : p2 a < p2 b → (a < b)%Z.
Proof. intros Hlt. apply Z.nle_gt. intros Hle. pose proof (p2_le _ _ Hle). lra. Qed.

(** ** Values *)

Definition rval (x : spec_float) : R :=
  match x with S754_finite s m e => IZR (cond_Zopp s (Z.pos m)) * p2 e | _ => 0 end.

Definition sign (s : bool) : R := if s then -1 else 1.

Lemma cond_Zopp_IZR s z : IZR (cond_Zopp s z) = sign s * IZR z.
Proof. destruct s; cbn [cond_Zopp sign]; [rewrite opp_IZR|]; lra. Qed.

Lemma Rabs_sign s x : Rabs (sign s * x) = Rabs x.
Proof. rewrite Rabs_mult. destruct s; cbn [sign]; rewrite ?Rabs_R1, ?Rabs_Ropp; [|lra]. rewrite Rabs_left; lra. Qed.

Lemma scaled_rval s Q c x : is_scaled s Q c x → rval x = sign s * (IZR Q * p2 c).
Proof.
  destruct x as [s'|s'| |s' m e']; try done.
  - intros [-> ->]. cbn [rval]. lra.
  - intros (-> & He & ->). cbn [rval]. rewrite cond_Zopp_IZR, mult_IZR, p2_IZR by lia.
    replace e' with (e' - c + c)%Z at 1 by lia. rewrite p2_add. ring.
Qed.

(** The error of rounding [v] to [w] with [prec] bits. *)
Definition rounded (prec emax : Z) (v w : R) : Prop :=
  Rabs (w - v) <= p2 (- prec) * Rabs v ∨
  (Rabs v < p2 (emin prec emax + prec - 1) ∧ Rabs (w - v) <= p2 (emin prec emax - 1)).

(** A quotient and the bits of its integer part. *)
Lemma quotient_bounds n b e :
  (0 <= n)%Z → (0 < b)%Z →
  let d := Zdigits2 (n / b) in let X := IZR n / IZR b * p2 e in
  0 <= X < p2 (d + e) ∧ ((n / b)%Z ≠ 0%Z → p2 (d - 1 + e) <= X).
Proof.
  intros Hn Hb d X. set (q := (n / b)%Z) in *. assert (0 <= q)%Z as Hq by (by apply Z.div_pos).
  destruct (Zdigits2_spec q Hq) as (Hd0 & Hd1 & Hd2). fold d in Hd0, Hd1, Hd2.
  assert (0 < IZR b) as HbR by (by apply IZR_lt). pose proof (p2_pos e) as Hpe.
  assert (0 <= IZR q) as HqR by (by apply (IZR_le 0)).
  assert (IZR q * p2 e <= X < (IZR q + 1) * p2 e) as [HqX HXq].
  { pose proof (Z.div_mod n b ltac:(lia)) as Hdm. pose proof (Z.mod_pos_bound n b Hb) as Ht. fold q in Hdm.
    assert (IZR q * IZR b <= IZR n < (IZR q + 1) * IZR b) as [H1 H2].
    { rewrite <-(plus_IZR q 1), <-!mult_IZR. split; [apply IZR_le|apply IZR_lt]; lia. }
    assert (IZR n = IZR n / IZR b * IZR b) as En by (field; lra). rewrite En in H1, H2.
    apply Rmult_le_reg_r in H1; [|done]. apply Rmult_lt_reg_r in H2; [|done].
    split; [apply Rmult_le_compat_r|apply Rmult_lt_compat_r]; lra. }
  split; [split; [pose proof (Rmult_le_pos _ _ HqR (Rlt_le _ _ Hpe)); lra|]|].
  - eapply Rlt_le_trans; [exact HXq|]. rewrite p2_add. apply Rmult_le_compat_r; [lra|].
    rewrite <-p2_IZR, <-(plus_IZR q 1) by done. apply IZR_le. lia.
  - intros Hq0. rewrite p2_add. etrans; [|exact HqX]. apply Rmult_le_compat_r; [lra|].
    rewrite <-p2_IZR; [by apply IZR_le, Hd2|].
    assert (d ≠ 0%Z); [|lia]. intros E. rewrite E in Hd1. lia.
Qed.

(** The nearest multiple of [2 ^ c] is at most half of it away. *)
Lemma nearest_real s n b e c Q :
  (0 < b)%Z → (e <= c)%Z → (2 * Z.abs (Q * (b * 2 ^ (c - e)) - n) <= b * 2 ^ (c - e))%Z →
  Rabs (sign s * (IZR Q * p2 c) - sign s * (IZR n / IZR b * p2 e)) <= p2 (c - 1).
Proof.
  intros Hb Hc He. assert (0 < IZR b) as HbR by (by apply IZR_lt). pose proof (p2_pos e) as Hpe.
  rewrite <-Rmult_minus_distr_l, Rabs_sign. apply IZR_le in He. rewrite mult_IZR, abs_IZR, minus_IZR, !mult_IZR in He.
  rewrite p2_IZR in He by lia. set (k := p2 (c - e)) in *.
  assert (p2 c = k * p2 e) as -> by (unfold k; rewrite <-p2_add; f_equal; lia).
  assert (p2 (c - 1) = k * p2 e * / 2) as ->.
  { unfold k. rewrite <-p2_add. replace (c - 1)%Z with (c - e + e + -1)%Z by lia. rewrite (p2_add _ (-1)). f_equal.
    change (p2 (-1)) with (/ (2 * 1)). by rewrite Rmult_1_r. }
  replace (IZR Q * (k * p2 e) - IZR n / IZR b * p2 e) with ((IZR Q * (IZR b * k) - IZR n) * (p2 e * / IZR b))
    by (field; lra).
  assert (0 < p2 e * / IZR b) as Hpos by (apply Rmult_lt_0_compat; [done|by apply Rinv_0_lt_compat]).
  rewrite Rabs_mult, (Rabs_pos_eq (p2 e * / IZR b)) by lra.
  replace (k * p2 e * / 2) with (IZR b * k * / 2 * (p2 e * / IZR b)) by (field; lra).
  apply Rmult_le_compat_r; lra.
Qed.

Section Format.
Context (prec emax : Z).
Hypothesis Hprec : (0 < prec)%Z.
Hypothesis Hemax : (2 <= emax)%Z.

Lemma round_quotient_real s n b e :
  (0 <= n)%Z → (0 < b)%Z → (e <= fexp prec emax (Zdigits2 (n / b) + e))%Z →
  IZR n / IZR b * p2 e < p2 (emax - 1) →
  let x := binary_round_aux prec emax s (n / b) e (new_location b (n mod b)) in
  format_number prec emax x ∧ rounded prec emax (sign s * (IZR n / IZR b * p2 e)) (rval x).
Proof.
  intros Hn Hb Hec HX. destruct (quotient_bounds n b e Hn Hb) as [[HX0 Hhigh] Hlow].
  set (d := Zdigits2 (n / b)) in *. set (c := fexp prec emax (d + e)) in *. set (X := IZR n / IZR b * p2 e) in *.
  assert ((n / b)%Z = 0%Z → d = 0%Z) as Hd3 by (unfold d; by intros ->).
  assert (c = Z.max (d + e - prec) (emin prec emax)) as Hc by done.
  destruct (round_quotient prec emax Hprec Hemax s n b e Hn Hb Hec) as (Q & Hf & Hs & He).
  { fold d. destruct (Z.eq_dec (n / b)%Z 0%Z) as [Hq0|Hq0].
    - specialize (Hd3 Hq0). unfold emin in *. lia.
    - specialize (Hlow Hq0). pose proof (p2_lt_inv (d - 1 + e) (emax - 1) ltac:(lra)). lia. }
  fold d c in Hf, Hs, He. split; [done|]. apply scaled_rval in Hs. rewrite Hs.
  pose proof (nearest_real s n b e c Q Hb Hec He) as Herr. fold X in Herr.
  unfold rounded. rewrite Rabs_sign, (Rabs_pos_eq X) by done.
  destruct (Z.le_gt_cases (d + e - prec) (emin prec emax - 1)) as [Hgt|Hle];
    [|destruct (Z.eq_dec (n / b)%Z 0%Z) as [Hq0|Hq0]].
  - right. assert (c = emin prec emax) as Ece by lia. rewrite <-Ece. split; [|done].
    eapply Rlt_le_trans; [exact Hhigh|]. apply p2_le. lia.
  - specialize (Hd3 Hq0). lia.
  - left. etrans; [exact Herr|]. specialize (Hlow Hq0). replace (c - 1)%Z with (- prec + (d - 1 + e))%Z by lia.
    rewrite p2_add. apply Rmult_le_compat_l; [|done]. apply Rlt_le, p2_pos.
Qed.

End Format.

Section Division.
Context (prec emax : Z).
Hypothesis Hprec : (0 < prec)%Z.
Hypothesis Hemax : (2 <= emax)%Z.

(** The bits of a quotient that [SFdiv] computes are those the format keeps. *)
Lemma div_exponent m1 m2 e1 e2 :
  let e' := Z.min (fexp prec emax (Z.pos (digits2_pos m1) + e1 - (Z.pos (digits2_pos m2) + e2))) (e1 - e2) in
  (e' <= fexp prec emax (Zdigits2 (Z.pos m1 * 2 ^ (e1 - e2 - e') / Z.pos m2) + e'))%Z.
Proof.
  intros e'. set (d1 := Z.pos (digits2_pos m1)) in *. set (d2 := Z.pos (digits2_pos m2)) in *.
  set (k := (e1 - e2 - e')%Z). set (q := (Z.pos m1 * 2 ^ k / Z.pos m2)%Z).
  destruct (digits2_pos_spec m1) as [H1 _], (digits2_pos_spec m2) as [_ H2]. fold d1 in H1. fold d2 in H2.
  assert (0 <= k)%Z as Hk by lia. assert (0 < 2 ^ k)%Z by (by apply Z.pow_pos_nonneg).
  assert (0 <= q)%Z as Hq by (apply Z.div_pos; lia). destruct (Zdigits2_spec q Hq) as (Hd0 & Hd1 & _).
  assert (d1 + k - d2 <= Zdigits2 q)%Z as Hd; [|unfold fexp in *; lia].
  destruct (Z.le_gt_cases (d1 + k - d2) 0) as [Hle|Hgt]; [lia|].
  assert (2 ^ (d1 + k - d2 - 1) <= q)%Z as Hlow.
  { apply Z.div_le_lower_bound; [lia|].
    assert (0 < 2 ^ (d1 + k - d2 - 1))%Z by (apply Z.pow_pos_nonneg; lia).
    etrans; [apply (Z.mul_le_mono_nonneg_r _ (2 ^ d2)); lia|]. rewrite <-Z.pow_add_r by lia.
    replace (d2 + (d1 + k - d2 - 1))%Z with (d1 - 1 + k)%Z by lia. rewrite Z.pow_add_r by lia.
    apply Z.mul_le_mono_nonneg_r; lia. }
  apply Z.nlt_ge. intros Hlt. assert (2 ^ Zdigits2 q <= 2 ^ (d1 + k - d2 - 1))%Z by (apply Z.pow_le_mono_r; lia). lia.
Qed.

(** Rounding a number written with any exponent. *)
Lemma binary_round_real s m e :
  IZR (Z.pos m) * p2 e < p2 (emax - 1) →
  format_number prec emax (binary_round prec emax s m e) ∧
  rounded prec emax (sign s * (IZR (Z.pos m) * p2 e)) (rval (binary_round prec emax s m e)).
Proof.
  intros HX. unfold binary_round. fold (cexp prec emax m e). set (c := cexp prec emax m e).
  assert (∃ mz ez, shl_align m e c = (mz, ez) ∧ (ez <= e)%Z ∧ (ez <= c)%Z ∧ Z.pos mz = (Z.pos m * 2 ^ (e - ez))%Z)
    as (mz & ez & -> & He & Hc & Hm).
  { destruct (Z.le_gt_cases e c) as [Hle|Hgt].
    - exists m, e. rewrite shl_align_ge, Z.sub_diag by done. repeat split; lia.
    - destruct (shl_align_spec m e c ltac:(lia)) as (q & Hq & Hqm). exists q, c. repeat split; [done|lia|lia|done]. }
  pose proof (digits2_shift m (e - ez) mz ltac:(lia) Hm) as Hd.
  assert (IZR (Z.pos m) * p2 e = IZR (Z.pos mz) / IZR 1 * p2 ez) as E.
  { rewrite Hm, mult_IZR, p2_IZR by lia. replace (p2 e) with (p2 (e - ez) * p2 ez) by (rewrite <-p2_add; f_equal; lia).
    field. }
  rewrite E in *. pose proof (round_quotient_real prec emax Hprec Hemax s (Z.pos mz) 1 ez) as Hr.
  rewrite Z.div_1_r, Z.mod_1_r in Hr. apply Hr; [done|done| |done]. cbn [Zdigits2].
  replace (Z.pos (digits2_pos mz) + ez)%Z with (Z.pos (digits2_pos m) + e)%Z by lia. done.
Qed.

Lemma normalize_real z e :
  IZR (Z.abs z) * p2 e < p2 (emax - 1) →
  format_number prec emax (binary_normalize prec emax z e false) ∧
  rounded prec emax (IZR z * p2 e) (rval (binary_normalize prec emax z e false)).
Proof.
  intros HX. destruct z as [|p|p]; cbn [binary_normalize].
  - split; [by repeat split|]. left. cbn [rval]. rewrite Rmult_0_l, Rminus_diag, Rabs_R0. lra.
  - destruct (binary_round_real false p e HX) as [H1 H2]. split; [done|]. cbn [sign] in H2. by rewrite Rmult_1_l in H2.
  - destruct (binary_round_real true p e HX) as [H1 H2]. split; [done|]. cbn [sign] in H2.
    replace (IZR (Z.neg p) * p2 e) with (-1 * (IZR (Z.pos p) * p2 e)); [done|].
    change (IZR (Z.neg p)) with (IZR (- Z.pos p)). rewrite opp_IZR. ring.
Qed.

Lemma SFdiv_real x y :
  format_number prec emax x → format_number prec emax y → rval y ≠ 0 → Rabs (rval x / rval y) < p2 (emax - 1) →
  format_number prec emax (SFdiv prec emax x y) ∧ rounded prec emax (rval x / rval y) (rval (SFdiv prec emax x y)).
Proof.
  intros [_ Fx] [_ Fy] Hy HX. destruct y as [sy|sy| |sy m2 e2]; try done.
  destruct x as [sx|sx| |sx m1 e1]; try done.
  { cbn [SFdiv rval]. split; [by repeat split|]. left. unfold Rdiv. rewrite Rmult_0_l, Rminus_diag, Rabs_R0. lra. }
  unfold SFdiv, SFdiv_core_binary. cbn [Zdigits2]. pose proof (div_exponent m1 m2 e1 e2) as He. cbv zeta in He.
  set (e' := Z.min _ _) in *. set (k := (e1 - e2 - e')%Z) in *.
  assert (0 <= k)%Z as Hk by lia.
  assert ((match k with Z0 => Z.pos m1 | Z.pos _ => Z.shiftl (Z.pos m1) k | Z.neg _ => 0 end)%Z = (Z.pos m1 * 2 ^ k)%Z) as ->.
  { destruct k as [|p|p]; [by rewrite Z.mul_1_r| |lia]. by rewrite Z.shiftl_mul_pow2. }
  set (n := (Z.pos m1 * 2 ^ k)%Z) in *.
  pose proof (Z.div_eucl_eq n (Z.pos m2)) as _. unfold Z.div, Z.modulo in *.
  assert (0 <= n)%Z as Hn by (apply Z.mul_nonneg_nonneg; [lia|by apply Z.pow_nonneg]).
  assert (rval (S754_finite sx m1 e1) / rval (S754_finite sy m2 e2) = sign (xorb sx sy) * (IZR n / IZR (Z.pos m2) * p2 e')) as E.
  { cbn [rval]. rewrite !cond_Zopp_IZR. unfold n. rewrite mult_IZR, p2_IZR by done.
    pose proof (p2_pos e2) as H2. assert (0 < IZR (Z.pos m2)) as Hm by (by apply IZR_lt).
    replace (p2 e1) with (p2 k * p2 e' * p2 e2) by (rewrite <-!p2_add; f_equal; lia).
    destruct sx, sy; cbn [sign xorb]; field; lra. }
  rewrite E in *. rewrite Rabs_sign in HX.
  destruct (Z.div_eucl n (Z.pos m2)) as [q r] eqn:Eq.
  pose proof (round_quotient_real prec emax Hprec Hemax (xorb sx sy) n (Z.pos m2) e' Hn ltac:(lia)) as Hr.
  unfold Z.div, Z.modulo in Hr. rewrite Eq in Hr. apply Hr; [exact He|].
  eapply Rle_lt_trans; [apply Rle_abs|exact HX].
Qed.

End Division.

(** ** Values in binary64 *)

(** The relative error of an operation, the smallest positive [double], and a bound below
    overflow. *)
Definition epsilon : R := / IZR (2 ^ 53).
Definition smallest : R := / IZR one.
Definition ceiling : R := IZR (2 ^ 1000).

Definition val (x : spec_float) : R := IZR (units x) * smallest.

Lemma epsilon_p2 : p2 (-53) = epsilon.
Proof. unfold epsilon. rewrite p2_IZR by lia. apply (powerRZ_neg' 2 53). Qed.

Lemma smallest_p2 : p2 (-1075) = smallest / 2.
Proof.
  change (-1075)%Z with (- (1074) + -1)%Z. rewrite p2_add. change (p2 (-1)) with (/ (2 * 1)).
  rewrite Rmult_1_r. unfold smallest, one, Rdiv. rewrite p2_IZR by lia. f_equal.
Qed.

Lemma one_positive : 0 < IZR one.
Proof. by apply IZR_lt, Z.pow_pos_nonneg. Qed.

#[local] Opaque units one.

Lemma smallest_bounds : 0 < smallest <= 1 / 1125899906842624.
Proof.
  unfold smallest. split; [apply Rinv_0_lt_compat, one_positive|]. unfold Rdiv. rewrite Rmult_1_l.
  apply Rinv_le_contravar; [lra|]. apply IZR_le. by vm_compute.
Qed.

Lemma epsilon_value : epsilon = 1 / 9007199254740992.
Proof. unfold epsilon. change (2 ^ 53)%Z with 9007199254740992%Z. lra. Qed.

Lemma ceiling_ge : 1 <= ceiling.
Proof. apply IZR_le. by vm_compute. Qed.

Lemma smallest_one : smallest * IZR one = 1.
Proof. pose proof one_positive. unfold smallest. apply Rinv_l. lra. Qed.

Lemma ceiling_smallest : smallest * ceiling <= 1.
Proof.
  destruct smallest_bounds as [Hs _]. rewrite <-smallest_one. apply Rmult_le_compat_l; [lra|]. apply IZR_le. by vm_compute.
Qed.

#[local] Opaque epsilon smallest ceiling.

(** Inequalities of reals scaled to units. *)
Lemma units_le (a b : Z) : Rabs (IZR a * smallest) <= IZR b → (Z.abs a <= b * one)%Z.
Proof.
  intros Hle. destruct smallest_bounds as [Hs _]. pose proof one_positive as Ho. pose proof smallest_one as E.
  apply le_IZR. rewrite abs_IZR, mult_IZR. rewrite Rabs_mult, (Rabs_pos_eq smallest) in Hle by lra.
  replace (Rabs (IZR a)) with (Rabs (IZR a) * smallest * IZR one) by (rewrite Rmult_assoc, E; lra).
  apply Rmult_le_compat_r; lra.
Qed.

Lemma val_le x (b : Z) : (Z.abs (units x) <= b * one)%Z → Rabs (val x) <= IZR b.
Proof.
  intros Hle%IZR_le. destruct smallest_bounds as [Hs _]. unfold val.
  rewrite Rabs_mult, (Rabs_pos_eq smallest), <-abs_IZR by lra.
  replace (IZR b) with (IZR b * IZR one * smallest) by (rewrite Rmult_assoc, (Rmult_comm (IZR one)), smallest_one; lra).
  rewrite mult_IZR in Hle. apply Rmult_le_compat_r; lra.
Qed.

Lemma val_ge x (b : Z) : (b * one <= units x)%Z → IZR b <= val x.
Proof.
  intros Hle%IZR_le. destruct smallest_bounds as [Hs _]. unfold val. rewrite mult_IZR in Hle.
  replace (IZR b) with (IZR b * IZR one * smallest) by (rewrite Rmult_assoc, (Rmult_comm (IZR one)), smallest_one; lra).
  apply Rmult_le_compat_r; lra.
Qed.

Lemma scaled_error (d u : Z) (s : R) :
  0 < s → (2 ^ 53 * Z.abs d <= Z.abs u)%Z → Rabs (IZR d * s) <= epsilon * Rabs (IZR u * s).
Proof.
  intros Hs Hle%IZR_le. rewrite mult_IZR, !abs_IZR in Hle. rewrite !Rabs_mult, (Rabs_pos_eq s) by lra.
  rewrite epsilon_value. change (IZR (2 ^ 53)) with 9007199254740992 in Hle. nra.
Qed.

Lemma fadd_val x y :
  number x → number y → Rabs (val x + val y) <= 16 * ceiling →
  number (fadd x y) ∧ Rabs (val (fadd x y) - (val x + val y)) <= epsilon * Rabs (val x + val y).
Proof.
  intros Hx Hy Hb. destruct smallest_bounds as [Hs _].
  assert (val x + val y = IZR (units x + units y) * smallest) as E by (unfold val; rewrite plus_IZR; lra).
  rewrite E in *. destruct (fadd_bounds x y Hx Hy) as (Hn & He & _).
  { eapply Z.le_lt_trans; [apply (units_le _ (2 ^ 4 * 2 ^ 1000))|by vm_compute]. by rewrite mult_IZR. }
  split; [done|]. unfold val.
  rewrite <-Rmult_minus_distr_r, <-minus_IZR. by apply scaled_error.
Qed.

Lemma fmul_val x y :
  number x → number y → Rabs (val x * val y) <= 16 * ceiling →
  number (fmul x y) ∧ Rabs (val (fmul x y) - val x * val y) <= epsilon * Rabs (val x * val y) + smallest / 2.
Proof.
  intros Hx Hy Hb. destruct smallest_bounds as [Hs _]. pose proof smallest_one as E1. pose proof one_positive as Ho.
  assert (val x * val y = IZR (units x * units y) * smallest * smallest) as E by (unfold val; rewrite mult_IZR; lra).
  rewrite E in *. assert (0 < smallest * smallest) as Hs2 by (by apply Rmult_lt_0_compat).
  destruct (fmul_units x y Hx Hy) as (Hn & He).
  { assert (Z.abs (units x * units y) <= 2 ^ 4 * 2 ^ 1000 * one * one)%Z as Hle.
    { apply le_IZR. rewrite abs_IZR, !mult_IZR. change (IZR (2 ^ 1000)) with ceiling. change (IZR (2 ^ 4)) with 16.
      rewrite mult_IZR in Hb. rewrite !Rabs_mult, (Rabs_pos_eq smallest), <-Rabs_mult in Hb by lra.
      set (A := Rabs _) in *. replace A with (A * smallest * smallest * IZR one * IZR one).
      - apply Rmult_le_compat_r; [lra|]. apply Rmult_le_compat_r; lra.
      - transitivity (A * (smallest * IZR one) * (smallest * IZR one)); [ring|]. rewrite E1. ring. }
    eapply Z.le_lt_trans; [exact Hle|by vm_compute]. }
  split; [done|]. change (2 ^ 1074)%Z with one in He. set (Z0 := units (fmul x y)) in *.
  assert (val (fmul x y) = IZR (Z0 * one) * smallest * smallest) as ->.
  { unfold val. fold Z0. rewrite mult_IZR. transitivity (IZR Z0 * (smallest * IZR one) * smallest); [rewrite E1|]; ring. }
  rewrite !Rmult_assoc, <-Rmult_minus_distr_r, <-minus_IZR.
  pose proof (Rabs_pos (IZR (units x * units y) * (smallest * smallest))). rewrite epsilon_value in *.
  destruct He as [He|He].
  - apply scaled_error with (s := smallest * smallest) in He; [|done]. rewrite epsilon_value in He. lra.
  - apply IZR_le in He. rewrite mult_IZR, abs_IZR in He. rewrite Rabs_mult, (Rabs_pos_eq (smallest * smallest)) by lra.
    assert (2 * Rabs (IZR (Z0 * one - units x * units y)) * (smallest * smallest) <= IZR one * (smallest * smallest)) as Hm
      by (apply Rmult_le_compat_r; lra).
    replace (IZR one * (smallest * smallest)) with smallest in Hm; [lra|].
    transitivity (smallest * (smallest * IZR one)); [rewrite E1|]; ring.
Qed.

(** The two values agree on [binary64]. *)
Lemma val_rval x : number x → val x = rval x.
Proof.
  intros [Hv Hx]. destruct x as [s|s| |s m e]; try done; unfold val.
  - replace (units (S754_zero s)) with 0%Z by done. cbn [rval]. lra.
  - destruct (valid_bounds _ _ _ Hv) as ((He & _) & _).
    replace (units (S754_finite s m e)) with (cond_Zopp s (Z.pos m * 2 ^ (e + 1074))) by done. cbn [rval].
    rewrite !cond_Zopp_IZR, mult_IZR, p2_IZR, p2_add by lia. pose proof smallest_one as E.
    assert (IZR one = p2 1074) as Eo by (by apply (p2_IZR 1074)). rewrite Eo in E.
    transitivity (sign s * (IZR (Z.pos m) * p2 e) * (smallest * p2 1074)); [ring|]. rewrite E. ring.
Qed.

Lemma fdiv_val x y :
  number x → number y → val y ≠ 0 → Rabs (val x / val y) <= 16 * ceiling →
  number (fdiv x y) ∧ Rabs (val (fdiv x y) - val x / val y) <= epsilon * Rabs (val x / val y) + smallest / 2.
Proof.
  intros Hx Hy Hne Hb. rewrite !val_rval in * by done.
  destruct (SFdiv_real 53 1024 ltac:(lia) ltac:(lia) x y Hx Hy Hne) as [Hn Hr].
  { eapply Rle_lt_trans; [exact Hb|]. replace (16 * ceiling) with (IZR (2 ^ 4 * 2 ^ 1000)) by (by rewrite mult_IZR).
    rewrite <-p2_IZR by lia. apply IZR_lt. by vm_compute. }
  split; [done|]. rewrite !val_rval by done. fold (fdiv x y) in Hr.
  destruct smallest_bounds as [Hs _]. pose proof (Rabs_pos (rval x / rval y)).
  destruct Hr as [Hr|[_ Hr]].
  - change (- (53))%Z with (-53)%Z in Hr. rewrite epsilon_p2 in Hr. lra.
  - change (emin 53 1024 - 1)%Z with (-1075)%Z in Hr. rewrite smallest_p2 in Hr. rewrite epsilon_value. lra.
Qed.

(** Order, opposites and differences, and the error of numbers that do not underflow. *)
Lemma val_lt x y : (units x < units y)%Z ↔ val x < val y.
Proof.
  destruct smallest_bounds as [Hs _]. unfold val. split; intros H.
  - apply Rmult_lt_compat_r; [done|by apply IZR_lt].
  - apply lt_IZR. by apply (Rmult_lt_reg_r smallest).
Qed.

Lemma fopp_val x : number x → number (fopp x) ∧ val (fopp x) = - val x.
Proof. intros Hx. destruct (fopp_number x Hx) as [Hn En]. split; [done|]. unfold val. rewrite En, opp_IZR. lra. Qed.

Lemma fsub_val x y :
  number x → number y → Rabs (val x - val y) <= 16 * ceiling →
  number (fsub x y) ∧ Rabs (val (fsub x y) - (val x - val y)) <= epsilon * Rabs (val x - val y).
Proof.
  intros Hx Hy Hb. destruct (fopp_val y Hy) as [Hn En]. rewrite fsub_opp.
  pose proof (fadd_val x (fopp y) Hx Hn) as H. rewrite En in H. by apply H.
Qed.

Lemma rounded_relative prec emax v w k :
  rounded prec emax v w → p2 k <= Rabs v → (emin prec emax + prec - 1 <= k)%Z → Rabs (w - v) <= p2 (- prec) * Rabs v.
Proof. intros [H|[H _]] Hk Hle; [done|]. pose proof (p2_le _ _ Hle). lra. Qed.
