(* ===== verification/FloatUtils.v ===== *)
(** * Comparison of floats (src/a17/maths/float_utils.h)

    The functions take [float]: a [double] argument is rounded to binary32 by the call
    ([to_float]), and a [float] is widened to [double] without loss. *)

From Stdlib Require Import SpecFloat.
From S2P Require Import Prelude Floats FloatExact.

(** ** binary32 *)

(** The conversion of a [double] to [float], to nearest. *)
Definition to_float (x : spec_float) : spec_float :=
  match x with
  | S754_finite s m e => binary_normalize 24 128 (cond_Zopp s (Z.pos m)) e s
  | _ => x
  end.

(** The conversion of a [float] to [double] is exact. *)
Definition to_double (x : spec_float) : spec_float :=
  match x with
  | S754_finite s m e => binary_normalize 53 1024 (cond_Zopp s (Z.pos m)) e s
  | _ => x
  end.

Definition fsub32 (a b : spec_float) : spec_float := SFsub 24 128 a b.
Definition fmul32 (a b : spec_float) : spec_float := SFmul 24 128 a b.

(** [std::numeric_limits<float>::max()], [lowest()] and [min()]. *)
Definition FLT_MAX : spec_float := S754_finite false 16777215 104.
Definition FLT_LOWEST : spec_float := S754_finite true 16777215 104.
Definition FLT_MIN : spec_float := S754_finite false 8388608 (-149).

Definition feqb (a b : spec_float) : bool := SFeqb a b.

(** [std::nexttoward] on [float]. *)
Definition nexttoward (x y : spec_float) : spec_float :=
  if is_nan x || is_nan y then S754_nan
  else if feqb x y then y
  else if flt x y then SFsucc 24 128 x else SFpred 24 128 x.

(** ** The functions *)

Definition FloatEpsilon (left right : spec_float) : spec_float :=
  std_max (fmul32 (fabs (fsub32 (nexttoward left right) left)) (of_Z32 2)) FLT_MIN.

Definition FloatAbsDiff (left right : spec_float) : spec_float :=
  fabs (fsub (to_double left) (to_double right)).

Definition kFloatMin : spec_float := nexttoward FLT_LOWEST (of_Z32 0).
Definition kFloatMax : spec_float := nexttoward FLT_MAX (of_Z32 0).

(** [epsilon] defaults to -1. *)
Definition FloatEq_eps (left right epsilon : spec_float) : bool :=
  if fle left kFloatMin then fle right kFloatMin
  else if fle kFloatMax left then fle kFloatMax right
  else if fle right kFloatMin || fle kFloatMax right then false
  else
    let epsilon := if flt epsilon (of_Z 0) then to_double (FloatEpsilon left right) else epsilon in
    flt (FloatAbsDiff left right) epsilon.

Definition FloatEq (left right : spec_float) : bool := FloatEq_eps left right (of_Z (-1)).

Definition FloatLt (left right : spec_float) : bool := flt left right && negb (FloatEq left right).
Definition FloatLtEq (left right : spec_float) : bool := flt left right || FloatEq left right.
Definition FloatGt (left right : spec_float) : bool := flt right left && negb (FloatEq left right).
Definition FloatGtEq (left right : spec_float) : bool := flt right left || FloatEq left right.

(** [std::floor] and [std::round] (halves away from zero) of a finite number, as integers. *)
Definition Zfloor (m e : Z) : Z := Z.shiftl m e.

Definition Zround (s : bool) (m : positive) (e : Z) : Z :=
  cond_Zopp s (Z.shiftl (Z.shiftl (Z.pos m) (e + 1) + 1) (-1)).

Definition std_round (x : spec_float) : spec_float :=
  match x with
  | S754_finite s m e => if 0 <=? e then x else binary_normalize 53 1024 (Zround s m e) 0 s
  | _ => x
  end%Z.

(** The conversion of a [double] to [int] drops the fraction; it is undefined when the
    result does not fit. *)
Definition to_int (x : spec_float) : outcome Z :=
  match x with
  | S754_zero _ => Ret 0
  | S754_finite s m e =>
      let z := cond_Zopp s (Z.shiftl (Z.pos m) e) in
      if (- 2 ^ 31 <=? z) && (z <? 2 ^ 31) then Ret z else Undef
  | _ => Undef
  end%Z.

Definition std_floor (x : spec_float) : spec_float :=
  match x with
  | S754_finite s m e =>
      if 0 <=? e then x else binary_normalize 53 1024 (Zfloor (cond_Zopp s (Z.pos m)) e) 0 s
  | _ => x
  end%Z.

Definition FloatFloor (value : spec_float) : outcome Z :=
  let rounded_value := std_round value in
  if flt (FloatAbsDiff (to_float value) (to_float rounded_value))
         (to_double (FloatEpsilon (to_float value) (to_float rounded_value)))
  then to_int rounded_value
  else to_int (std_floor value).

(** ** Lemmas *)

Lemma SFcompare_eq_finite s m e y :
  SFcompare (S754_finite s m e) y = Some Eq → y = S754_finite s m e.
Proof.
  destruct y as [[]|[]| |[] m' e'], s; try done; simpl; destruct (Z.compare_spec e e') as [->|?|?]; try done;
    change (Pos.compare_cont Eq m m') with (Pos.compare m m');
    destruct (Pos.compare_spec m m') as [->|?|?]; done.
Qed.

Lemma shl_align_same m e : fst (shl_align m e e) = m.
Proof. unfold shl_align. by rewrite Z.sub_diag. Qed.

(** A number less itself is zero, in every format. *)
Lemma SFsub_diag prec emax s m e : SFsub prec emax (S754_finite s m e) (S754_finite s m e) = S754_zero false.
Proof. simpl. by rewrite Z.min_id, shl_align_same, Z.sub_diag. Qed.

(** A number of the format [float]. *)
Definition is_float (x : spec_float) : bool := valid_binary 24 128 x.

Lemma float_fits s m e : is_float (S754_finite s m e) = true → fits 53 1024 m e.
Proof.
  unfold is_float, valid_binary, bounded, canonical_mantissa, fits. rewrite Bool.andb_true_iff.
  intros [H1%Z.eqb_eq H2%Z.leb_le]. unfold fexp, emin in *. lia.
Qed.

(** Widening is exact. *)
Lemma to_double_finite s m e :
  is_float (S754_finite s m e) = true →
  ∃ c, Z.pos c = (Z.pos m * 2 ^ (e - cexp 53 1024 m e))%Z ∧
       to_double (S754_finite s m e) = S754_finite s c (cexp 53 1024 m e).
Proof.
  intros Hf%float_fits.
  destruct (binary_round_exact 53 1024 s m e m e Hf ltac:(lia)) as (c & Hc & Hr); [rewrite Z.sub_diag; lia|].
  exists c. split; [done|]. destruct s; exact Hr.
Qed.

Lemma nexttoward_same x : is_nan x = false → nexttoward x x = x.
Proof. intros Hx. unfold nexttoward, feqb, SFeqb. by rewrite Hx, SFcompare_refl by done. Qed.

(** Floats that compare equal are equal for [FloatEq]. *)
Lemma FloatEq_of_eq l r : is_float l = true → SFcompare l r = Some Eq → FloatEq l r = true.
Proof.
  intros Hl Hc. destruct l as [s|s| |s m e].
  - destruct s, r as [[]|[]| |[] m' e']; try done; vm_compute; reflexivity.
  - destruct s, r as [[]|[]| |[] m' e']; try done; vm_compute; reflexivity.
  - done.
  - apply SFcompare_eq_finite in Hc as ->. unfold FloatEq, FloatEq_eps.
    destruct (fle _ kFloatMin); [done|]. destruct (fle kFloatMax _); [done|]. cbn [orb].
    change (flt (of_Z (-1)) (of_Z 0)) with true. cbv iota.
    unfold FloatEpsilon, FloatAbsDiff. rewrite nexttoward_same by done. unfold fsub32, fsub.
    destruct (to_double_finite s m e Hl) as (c & _ & ->). rewrite !SFsub_diag. vm_compute. reflexivity.
Qed.

Lemma FloatAbsDiff_nan l r : is_nan l || is_nan r = true → FloatAbsDiff l r = S754_nan.
Proof.
  unfold FloatAbsDiff. destruct l, r; try done; intros _; by destruct (to_double _).
Qed.

Lemma FloatEq_nan l r : is_nan l || is_nan r = true → FloatEq l r = false.
Proof.
  intros Hn. unfold FloatEq, FloatEq_eps. rewrite FloatAbsDiff_nan by done.
  destruct (fle l kFloatMin) eqn:E1; [|destruct (fle kFloatMax l) eqn:E2].
  - destruct (fle_nan _ _ E1) as [Hl _]. rewrite Hl in Hn. by destruct r.
  - destruct (fle_nan _ _ E2) as [_ Hl]. rewrite Hl in Hn. by destruct r.
  - destruct (fle r kFloatMin || fle kFloatMax r); reflexivity.
Qed.

Lemma flt_compare a b : flt a b = match SFcompare a b with Some Lt => true | _ => false end.
Proof. done. Qed.

(** ** Properties *)

(** The comparisons form an order test: on numbers, exactly one of less, equal and greater
    holds, less-or-equal is not greater, and greater-or-equal is not less; not-a-number is
    neither equal to, less than nor greater than anything. *)
Theorem float_compare_total l r :
  is_float l = true →
  (is_nan l = false → is_nan r = false →
   length (filter (λ b, b = true) [FloatLt l r; FloatEq l r; FloatGt l r]) = 1 ∧
   FloatLtEq l r = negb (FloatGt l r) ∧ FloatGtEq l r = negb (FloatLt l r)) ∧
  (is_nan l || is_nan r = true →
   FloatLtEq l r = false ∧ FloatGtEq l r = false ∧ FloatLt l r = false ∧ FloatGt l r = false).
Proof.
  intros Hl. split.
  - intros Hn Hr. unfold FloatLtEq, FloatGtEq, FloatLt, FloatGt. rewrite !flt_compare, (SFcompare_sym l r).
    destruct (SFcompare_some l r Hn Hr) as [c Hc]. rewrite Hc.
    destruct (FloatEq l r) eqn:E; destruct c; try done. by rewrite (FloatEq_of_eq l r Hl Hc) in E.
  - intros Hn.
    assert (flt l r = false ∧ flt r l = false ∧ FloatEq l r = false) as (H1 & H2 & H3).
    { split_and!; [..|by apply FloatEq_nan];
        destruct l as [[]|[]| |[] m e], r as [[]|[]| |[] m' e']; done. }
    unfold FloatLtEq, FloatGtEq, FloatLt, FloatGt. by rewrite H1, H2, H3.
Qed.

(** [FloatEq] is not symmetric: the tolerance is twice the distance from the first argument to its
    neighbour, which changes at a power of two.  Of the floats next to one, the larger is equal
    to the smaller but not the other way round. *)
Theorem FloatEq_asymmetric :
  FloatEq (SFsucc 24 128 (of_Z32 1)) (SFpred 24 128 (of_Z32 1)) = true ∧
  FloatEq (SFpred 24 128 (of_Z32 1)) (SFsucc 24 128 (of_Z32 1)) = false.
Proof. vm_compute. done. Qed.

(** [FloatFloor] compares in [float]: 16777217.5 and the integer above it are the same [float], so
    the integer above is returned. *)
Theorem FloatFloor_rounds_up :
  FloatFloor (fadd (of_Z 16777217) (fdiv (of_Z 1) (of_Z 2))) = Ret 16777218%Z.
Proof. vm_compute. done. Qed.

Lemma float_compare_total_witness :
  FloatLtEq (of_Z32 1) (of_Z32 2) = negb (FloatGt (of_Z32 1) (of_Z32 2)).
Proof. apply (float_compare_total (of_Z32 1) (of_Z32 2)); vm_compute; reflexivity. Defined.
