(* ===== verification/Scalar.v ===== *)
(** * Scalars of the mathematics library

    The templates and classes of src/a17/maths compute with [double].  Their models take the
    arithmetic as a class, so that one definition runs in binary64 (the program) and in exact
    arithmetic (the integers, the real numbers), where it has the algebraic properties the
    code is written for. *)

From Stdlib Require Import SpecFloat Ring.
From S2P Require Import Prelude Floats FloatUtils.

Declare Scope scalar_scope.
Delimit Scope scalar_scope with scalar.

(** Conversion from integers, the ring operations, and [FloatEq(x, 0.0)]. *)
Class Scalar (T : Type) : Type := {
  s_of_Z : Z → T;
  s_add : T → T → T;
  s_sub : T → T → T;
  s_mul : T → T → T;
  s_feq0 : T → bool
}.

Infix "+" := s_add : scalar_scope.
Infix "-" := s_sub : scalar_scope.
Infix "*" := s_mul : scalar_scope.

(** Exact arithmetic: a commutative ring with the integers, and an exact test for zero. *)
Class ScalarLaws (T : Type) `{Scalar T} : Prop := {
  s_ring : ring_theory (s_of_Z 0) (s_of_Z 1) s_add s_mul s_sub (λ x, s_sub (s_of_Z 0) x) (@eq T);
  s_of_Z_add a b : s_of_Z (a + b) = s_add (s_of_Z a) (s_of_Z b);
  s_of_Z_mul a b : s_of_Z (a * b) = s_mul (s_of_Z a) (s_of_Z b);
  s_feq0_spec x : s_feq0 x = true ↔ x = s_of_Z 0
}.

(** Division, roots and comparisons. *)
Class RealScalar (T : Type) `{Scalar T} : Type := {
  s_div : T → T → T;
  s_opp : T → T;
  s_sqrt : T → T;
  s_lt : T → T → bool;
  s_eq : T → T → bool
}.

Infix "/" := s_div : scalar_scope.

(** The program's arithmetic: the argument of [FloatEq] is a [float]. *)
#[export] Instance binary64 : Scalar spec_float := {
  s_of_Z := of_Z;
  s_add := fadd;
  s_sub := fsub;
  s_mul := fmul;
  s_feq0 x := FloatEq (to_float x) (of_Z32 0)
}.

#[export] Instance binary64_real : RealScalar spec_float := {
  s_div := fdiv;
  s_opp := fopp;
  s_sqrt := SFsqrt 53 1024;
  s_lt := flt;
  s_eq := feqb
}.

#[export] Instance Z_scalar : Scalar Z := {
  s_of_Z z := z;
  s_add := Z.add;
  s_sub := Z.sub;
  s_mul := Z.mul;
  s_feq0 z := Z.eqb z 0
}.

#[export] Instance Z_scalar_laws : ScalarLaws Z.
Proof.
  split; try done.
  - split; intros; cbn [s_of_Z s_add s_sub s_mul Z_scalar]; ring.
  - intros x. apply Z.eqb_eq.
Qed.
