(* ===== verification/IntervalBins.v ===== *)
(** * Interval bins (src/a17/utils/nearest_interval_bin.cpp)

    [NearestIntervalBin] maps an interval to the nearest of ten usual ones, scaled by a power
    of ten.  The distances it compares are of [double]s; the search is shown to end at the
    bin nearest to the interval, or outside the table of bins. *)

From Stdlib Require Import SpecFloat Reals Lra.
From S2P Require Import Prelude Floats FloatExact Rounding Quotients RealValue.

(** [static_cast<uint64_t>] of a [double]. *)
Definition to_u64 (d : spec_float) : outcome Z :=
  match d with
  | S754_zero _ => Ret 0%Z
  | S754_finite s m e =>
      let v := (if (0 <=? e)%Z then Z.pos m * 2 ^ e else Z.pos m / 2 ^ (- e))%Z in
      let v := if s then (- v)%Z else v in
      if (0 <=? v)%Z && (v <? 2 ^ 64)%Z then Ret v else Undef
  | _ => Undef
  end.

(** ** [NearestIntervalBin] *)

Definition kIntervalBinsSize : nat := 10.

Definition kIntervalBins : list spec_float :=
  [of_Z 1; fdiv (of_Z 1) (fdiv (of_Z 75) (of_Z 100)); fdiv (of_Z 1) (fdiv (of_Z 6) (of_Z 10));
   of_Z 2; fdiv (of_Z 25) (of_Z 10); of_Z 3; of_Z 4; of_Z 5;
   fdiv (of_Z 1) (fdiv (of_Z 15) (of_Z 100)); of_Z 10].

Definition kTenToThe : list Z :=
  [1; 10; 100; 1000; 10000; 100000; 1000000; 10000000; 100000000; 1000000000; 10000000000;
   100000000000; 1000000000000; 10000000000000; 100000000000000; 1000000000000000;
   10000000000000000; 100000000000000000; 1000000000000000000; 18446744073709551615]%Z.

(** [__builtin_clz] of a non-zero 32-bit value. *)
Definition clz32 (x : Z) : Z := (31 - Z.log2 x)%Z.

Definition baseTwoDigits (x : Z) : Z :=
  let hi := u32 (Z.shiftr x 32) in
  let lo := u32 (Z.land x 4294967295) in
  if (hi =? 0)%Z then if (lo =? 0)%Z then 0%Z else (32 - clz32 lo)%Z
  else (64 - clz32 hi)%Z.

Definition guess : list nat :=
  [0; 0; 0; 0; 1; 1; 1; 2; 2; 2; 3; 3; 3; 3; 4; 4; 4; 5; 5; 5; 6; 6; 6; 6; 7; 7; 7; 8; 8; 8; 9; 9; 9; 9;
   10; 10; 10; 11; 11; 11; 12; 12; 12; 12; 13; 13; 13; 14; 14; 14; 15; 15; 15; 15; 16; 16; 16; 17; 17; 17;
   18; 18; 18; 18; 19].

Definition at_ {A} (l : list A) (i : nat) : outcome A :=
  match l !! i with Some x => Ret x | None => Undef end.

Definition baseTenDigits (x : Z) : outcome nat :=
  digits ← at_ guess (Z.to_nat (baseTwoDigits x));
  limit ← at_ kTenToThe digits;
  Ret (digits + (if (limit <=? x)%Z then 1 else 0)).

(** The two search loops, on the current index, its distance and that of its neighbour. *)
Fixpoint left_loop (x : spec_float) (index : nat) (diff diff_left : spec_float) : outcome nat :=
  if SFltb diff_left diff then
    match index with
    | O => Ret O
    | S i =>
        match i with
        | O => Undef
        | S i' => b ← at_ kIntervalBins i'; left_loop x i diff_left (fdist x b)
        end
    end
  else Ret index.

Fixpoint right_loop (fuel : nat) (x : spec_float) (index : nat) (diff diff_right : spec_float) : outcome nat :=
  if SFltb diff_right diff && bool_decide (index < kIntervalBinsSize - 1) then
    match fuel with
    | O => Undef
    | S fuel' => b ← at_ kIntervalBins (index + 2); right_loop fuel' x (index + 1) diff_right (fdist x b)
    end
  else Ret index.

(** The bin and the new value of [index]. *)
Definition NearestIntervalBin (interval : Z) (index : nat) : outcome (Z * nat) :=
  if (interval =? 0)%Z then Ret (0%Z, index)
  else
    digits ← baseTenDigits interval;
    exp ← (match digits with O => Undef | S k => at_ kTenToThe k end);
    let x := fdiv (of_Z interval) (of_Z exp) in
    b ← at_ kIntervalBins index;
    let diff := fdist x b in
    diff_left ← (match index with O => Ret DBL_MAX | S i => b ← at_ kIntervalBins i; Ret (fdist x b) end);
    diff_right ← (if decide (index < kIntervalBinsSize - 1)
                  then b ← at_ kIntervalBins (index + 1); Ret (fdist x b) else Ret DBL_MAX);
    index ← (if SFltb diff_left diff then left_loop x index diff diff_left
             else if SFltb diff_right diff then right_loop kIntervalBinsSize x index diff diff_right
             else Ret index);
    b ← at_ kIntervalBins index;
    v ← to_u64 (fmul b (of_Z exp));
    Ret (v, index).

(** ** Digits *)

Lemma baseTwoDigits_log2 x : (0 < x < 2 ^ 64)%Z → baseTwoDigits x = (Z.log2 x + 1)%Z.
Proof.
  intros Hx. unfold baseTwoDigits, clz32.
  assert (u32 (Z.shiftr x 32) = Z.shiftr x 32) as ->.
  { unfold u32. apply Z.mod_small. rewrite Z.shiftr_div_pow2 by lia.
    split; [apply Z.div_pos; lia|apply Z.div_lt_upper_bound; lia]. }
  assert (u32 (Z.land x 4294967295) = (x mod 2 ^ 32)%Z) as ->.
  { change 4294967295%Z with (Z.ones 32). rewrite Z.land_ones by lia. unfold u32. apply Z.mod_mod. lia. }
  destruct (Z.eqb_spec (Z.shiftr x 32) 0) as [Hh|Hh].
  - assert (x < 2 ^ 32)%Z as Hl.
    { rewrite Z.shiftr_div_pow2 in Hh by lia. pose proof (Z.div_mod x (2 ^ 32)).
      pose proof (Z.mod_pos_bound x (2 ^ 32)). lia. }
    rewrite Z.mod_small by lia. destruct (Z.eqb_spec x 0); lia.
  - pose proof (Z.log2_shiftr x 32 ltac:(lia)) as Hs.
    assert (0 <= Z.log2 x - 32)%Z.
    { destruct (decide (Z.log2 x < 32)%Z) as [Hl|]; [|lia]. exfalso. apply Hh.
      apply Z.shiftr_eq_0; lia. }
    lia.
Qed.

(** What makes the table of guesses right for numbers with [k + 1] binary digits. *)
Definition guess_ok (k : nat) : bool :=
  match guess !! (k + 1) with
  | Some g =>
      (2 ^ (Z.of_nat k + 1) <=? 10 ^ (Z.of_nat g + 1))%Z &&
      (if decide (g = 0) then true else (10 ^ (Z.of_nat g - 1) <=? 2 ^ Z.of_nat k)%Z) &&
      bool_decide (kTenToThe !! g = Some (if decide (g = 19) then 18446744073709551615%Z else (10 ^ Z.of_nat g)%Z)) &&
      bool_decide (g <= 19)
  | None => false
  end.

Lemma guess_ok_all k : k < 64 → guess_ok k = true.
Proof.
  intros Hk. assert (forallb guess_ok (seq 0 64) = true) as H by (vm_compute; reflexivity).
  rewrite forallb_forall in H. apply H, list_elem_of_In, elem_of_seq. lia.
Qed.

Lemma baseTenDigits_digits x :
  (0 < x < 10 ^ 19)%Z →
  ∃ d, baseTenDigits x = Ret d ∧ 0 < d ∧ (10 ^ (Z.of_nat d - 1) <= x < 10 ^ Z.of_nat d)%Z.
Proof.
  intros Hx. unfold baseTenDigits. rewrite baseTwoDigits_log2 by lia.
  set (k := Z.to_nat (Z.log2 x)).
  pose proof (Z.log2_spec x ltac:(lia)) as [Hlo Hhi]. pose proof (Z.log2_nonneg x).
  assert (k < 64) as Hk by (assert (Z.log2 x < 64)%Z by (apply Z.log2_lt_pow2; lia); lia).
  assert (Z.log2 x = Z.of_nat k) as Hz by lia. rewrite Hz in *.
  replace (Z.to_nat (Z.of_nat k + 1)) with (k + 1) by lia.
  pose proof (guess_ok_all k Hk) as Hg. unfold guess_ok in Hg. unfold at_.
  destruct (guess !! (k + 1)) as [g|]; [|done].
  apply andb_true_iff in Hg as [Hg H4%bool_decide_eq_true]. apply andb_true_iff in Hg as [Hg H3%bool_decide_eq_true].
  apply andb_true_iff in Hg as [H1%Z.leb_le H2]. rewrite bind_Ret, H3, bind_Ret.
  rewrite <- Z.add_1_r in Hhi.
  destruct (decide (g = 19)) as [->|Hn].
  - rewrite decide_False in H2 by done. apply Z.leb_le in H2. simpl (Z.of_nat 19 - 1)%Z in H2.
    exists 19. rewrite (proj2 (Z.leb_gt _ _)) by lia. split_and!; [done|lia|lia|lia].
  - destruct (Z.leb_spec (10 ^ Z.of_nat g) x).
    + exists (g + 1). split_and!; [done|lia| |].
      * replace (Z.of_nat (g + 1) - 1)%Z with (Z.of_nat g) by lia. done.
      * replace (Z.of_nat (g + 1)) with (Z.of_nat g + 1)%Z by lia. lia.
    + exists g. rewrite Nat.add_0_r. destruct (decide (g = 0)) as [->|]; [simpl in *; lia|].
      apply Z.leb_le in H2. split_and!; [done|lia|lia|done].
Qed.

(** ** The nearest bin

    The search moves to a neighbouring bin as long as that is nearer, and reads outside the table
    when it gets to the first or the last bin by moving. *)

Definition bin (k : nat) : spec_float := nth k kIntervalBins S754_nan.
Definition far (x : spec_float) (k : nat) : spec_float := fdist x (bin k).

Lemma at_bin k : k < 10 → at_ kIntervalBins k = Ret (bin k).
Proof. intros Hk. do 10 (destruct k as [|k]; [done|]). lia. Qed.

(** No neighbour is nearer. *)
Definition settled (x : spec_float) (m : nat) : Prop :=
  m < 10 ∧ (∀ k, S k = m → flt (far x k) (far x m) = false) ∧
  (S m < 10 → flt (far x (S m)) (far x m) = false).

(** Where a search that moves ends. *)
Definition moved_to (m : nat) : outcome nat := if decide (m = 0 ∨ m = 9) then Undef else Ret m.

Lemma flt_asym a b : flt a b = true → flt b a = false.
Proof. unfold flt, SFltb. rewrite (SFcompare_sym a b). by destruct (SFcompare a b) as [[]|]. Qed.

Lemma left_loop_S x i diff diff_left :
  left_loop x (S i) diff diff_left =
  if flt diff_left diff then
    match i with
    | O => Undef
    | S i' => b ← at_ kIntervalBins i'; left_loop x i diff_left (fdist x b)
    end
  else Ret (S i).
Proof. done. Qed.

Lemma left_loop_spec x i :
  S i < 10 → flt (far x i) (far x (S i)) = true →
  ∃ m, settled x m ∧ m ≠ S i ∧ left_loop x (S i) (far x (S i)) (far x i) = moved_to m.
Proof.
  induction i as [|i IH]; intros Hi Hf; rewrite left_loop_S, Hf.
  - exists 0. split; [|done]. split; [lia|]. split; [done|]. intros _. by apply flt_asym.
  - rewrite at_bin, bind_Ret by lia. change (fdist x (bin i)) with (far x i).
    destruct (flt (far x i) (far x (S i))) eqn:E.
    + destruct IH as (m & Hm & Hne & ->); [lia|done|]. exists m. split; [done|]. split; [|done].
      intros ->. destruct Hm as (_ & Hm & _). specialize (Hm (S i) eq_refl). congruence.
    + exists (S i). split; [|split; [lia|]].
      * split; [lia|]. split; [intros k [= ->]; done|]. intros _. by apply flt_asym.
      * rewrite left_loop_S, E. unfold moved_to. by rewrite decide_False by lia.
Qed.

Lemma right_loop_spec x f : ∀ i,
  S i < 10 → 9 <= i + f → flt (far x (S i)) (far x i) = true →
  ∃ m, settled x m ∧ m ≠ i ∧ right_loop f x i (far x i) (far x (S i)) = moved_to m.
Proof.
  induction f as [|f IH]; intros i Hi Hfu Hf; [lia|]. cbn [right_loop]. change SFltb with flt. rewrite Hf.
  rewrite bool_decide_eq_true_2 by (unfold kIntervalBinsSize; lia). cbn [andb].
  assert (settled x (S i) ∨ S (S i) < 10 ∧ flt (far x (S (S i))) (far x (S i)) = true) as Hcase.
  { destruct (decide (S (S i) < 10)); [destruct (flt (far x (S (S i))) (far x (S i))) eqn:E; [by right|]|];
      left; (split; [lia|]); (split; [intros k [= ->]; by apply flt_asym|done || lia]). }
  destruct (decide (i = 8)) as [->|Hne].
  { exists 9. destruct Hcase as [Hs|[? _]]; [|lia]. split; [exact Hs|]. split; [lia|]. done. }
  replace (i + 2) with (S (S i)) by lia. rewrite at_bin, bind_Ret by lia.
  change (fdist x (bin (S (S i)))) with (far x (S (S i))). rewrite Nat.add_1_r.
  destruct (flt (far x (S (S i))) (far x (S i))) eqn:E.
  - destruct (IH (S i)) as (m & Hm & Hni & ->); [lia|lia|done|]. exists m. split; [done|]. split; [|done].
    intros ->. destruct Hm as (_ & _ & Hm). rewrite Hm in Hf by lia. done.
  - destruct Hcase as [Hs|[_ ?]]; [|congruence]. exists (S i). split; [done|]. split; [lia|].
    unfold moved_to. rewrite decide_False by lia. destruct f; cbn [right_loop]; change SFltb with flt; by rewrite E.
Qed.

(** *** Distances *)

Section Distances.
Local Open Scope R_scope.
Lemma ceiling_big : 1000 <= ceiling.
Proof. apply IZR_le. by vm_compute. Qed.

#[local] Opaque units one epsilon smallest ceiling.

Lemma flt_val x y : number x → number y → flt x y = true ↔ val x < val y.
Proof. intros Hx Hy. rewrite flt_units by done. apply val_lt. Qed.

Lemma flt_val_false x y : number x → number y → flt x y = false → val y <= val x.
Proof. intros Hx Hy E. apply Rnot_lt_le. rewrite <-flt_val by done. congruence. Qed.

Lemma fabs_val x : number x → number (fabs x) ∧ val (fabs x) = Rabs (val x).
Proof.
  intros Hx. pose proof Hx as [Hv Hf]. destruct x as [s|s| |s m e]; try done.
  - split; [by repeat split|]. rewrite !val_rval by (by repeat split). cbn [fabs SFabs rval]. by rewrite Rabs_R0.
  - assert (number (fabs (S754_finite s m e))) as Ha by done. split; [done|]. rewrite !val_rval by done.
    pose proof (p2_pos e). assert (0 < IZR (Z.pos m)) by (by apply IZR_lt).
    assert (0 < IZR (Z.pos m) * p2 e) by nra. unfold fabs, SFabs, rval. rewrite !cond_Zopp_IZR.
    replace (sign s * IZR (Z.pos m) * p2 e) with (sign s * (IZR (Z.pos m) * p2 e)) by ring.
    rewrite Rabs_sign, Rabs_pos_eq by lra. cbn [sign]. lra.
Qed.

Definition bins_checked : bool :=
  forallb (λ j, valid_binary 53 1024 (bin j) && (Z.abs (units (bin j)) <=? 10 * one)%Z &&
                match bin j with S754_finite _ _ _ => true | _ => false end &&
                forallb (λ i, if decide (i < j)%nat then (one <=? 4 * (units (bin j) - units (bin i)))%Z else true) (seq 0 10))
          (seq 0 10).

Lemma bins_check : bins_checked = true.
Proof. vm_compute. reflexivity. Qed.

Lemma bin_number k : (k < 10)%nat → number (bin k) ∧ Rabs (val (bin k)) <= 10.
Proof.
  intros Hk. pose proof bins_check as H. unfold bins_checked in H. rewrite forallb_forall in H.
  specialize (H k). apply andb_true_iff in H as [H _]; [|apply in_seq; lia].
  apply andb_true_iff in H as [[Hv Hu%Z.leb_le]%andb_true_iff Hf].
  split; [|by apply val_le]. split; [exact Hv|]. by destruct (bin k).
Qed.

Lemma bin_gap i j : (i < j < 10)%nat → val (bin i) + 1 / 4 <= val (bin j).
Proof.
  intros Hij. pose proof bins_check as H. unfold bins_checked in H. rewrite forallb_forall in H.
  specialize (H j). apply andb_true_iff in H as [_ H]; [|apply in_seq; lia].
  rewrite forallb_forall in H. specialize (H i). rewrite decide_True in H by lia.
  assert (one <= 4 * (units (bin j) - units (bin i)))%Z as Hle%IZR_le by (apply Z.leb_le, H, in_seq; lia).
  destruct smallest_bounds as [Hs _]. rewrite mult_IZR, minus_IZR in Hle. unfold val.
  apply (Rmult_le_compat_r smallest) in Hle; [|lra]. pose proof smallest_one. lra.
Qed.

(** How far off a computed distance is. *)
Definition slack : R := 1 / 100000000000000.

Lemma far_near x k :
  number x → Rabs (val x) <= 16 → (k < 10)%nat →
  number (far x k) ∧ Rabs (val (far x k) - Rabs (val x - val (bin k))) <= slack.
Proof.
  intros Hx Hb Hk. destruct (bin_number k Hk) as [Hn Hu]. pose proof ceiling_ge.
  assert (Rabs (val x - val (bin k)) <= 26) as Hd.
  { unfold Rabs in *. repeat destruct (Rcase_abs _); lra. }
  destruct (fsub_val x (bin k) Hx Hn) as [Hs He].
  { eapply Rle_trans; [exact Hd|]. pose proof ceiling_big. lra. }
  destruct (fabs_val _ Hs) as [Ha Ea]. split; [exact Ha|]. unfold far, fdist. rewrite Ea.
  eapply Rle_trans; [apply Rabs_triang_inv2|]. eapply Rle_trans; [exact He|]. rewrite epsilon_value. unfold slack. lra.
Qed.

(** Where the search settles no bin is nearer, up to rounding. *)
Lemma settled_nearest x m j :
  number x → Rabs (val x) <= 16 → settled x m → (j < 10)%nat →
  Rabs (val x - val (bin m)) <= Rabs (val x - val (bin j)) + 2 * slack.
Proof.
  intros Hx Hb (Hm & Hl & Hr) Hj. assert (0 < slack <= 1 / 100) as Hs by (unfold slack; lra).
  assert (∀ k, (k < 10)%nat → flt (far x k) (far x m) = false →
            Rabs (val x - val (bin m)) <= Rabs (val x - val (bin k)) + 2 * slack) as Hnb.
  { intros k Hk E. destruct (far_near x k Hx Hb Hk) as [Nk Ek], (far_near x m Hx Hb Hm) as [Nm Em].
    apply flt_val_false in E; [|done..]. unfold Rabs in *. repeat destruct (Rcase_abs _); lra. }
  destruct (lt_eq_lt_dec j m) as [[Hlt| ->]|Hgt]; [|lra|].
  - destruct m as [|k]; [lia|]. specialize (Hnb k ltac:(lia) (Hl k eq_refl)). pose proof (bin_gap k (S k) ltac:(lia)) as Hg.
    assert (val (bin j) <= val (bin k)) as Hjk.
    { destruct (decide (j = k)) as [->|Hne]; [lra|]. pose proof (bin_gap j k ltac:(lia)). lra. }
    revert Hnb. unfold Rabs. repeat destruct (Rcase_abs _); lra.
  - specialize (Hnb (S m) ltac:(lia) (Hr ltac:(lia))). pose proof (bin_gap m (S m) ltac:(lia)) as Hg.
    assert (val (bin (S m)) <= val (bin j)) as Hjk.
    { destruct (decide (j = S m)) as [->|Hne]; [lra|]. pose proof (bin_gap (S m) j ltac:(lia)). lra. }
    revert Hnb. unfold Rabs. repeat destruct (Rcase_abs _); lra.
Qed.

(** Integers below [10^19] as doubles, and their quotients. *)
Lemma of_Z_near z : (0 < z < 10 ^ 19)%Z → number (of_Z z) ∧ Rabs (val (of_Z z) - IZR z) <= epsilon * IZR z.
Proof.
  intros Hz. assert (1 <= IZR z) as H1 by (apply (IZR_le 1); lia). assert (Rabs (IZR z) = IZR z) as Ea by (apply Rabs_pos_eq; lra).
  destruct (normalize_real 53 1024 ltac:(lia) ltac:(lia) z 0) as [Hf Hr].
  { change (p2 0) with 1. rewrite Rmult_1_r, <-p2_IZR by lia. apply IZR_lt. lia. }
  fold (of_Z z) in Hf, Hr. split; [exact Hf|]. change (p2 0) with 1 in Hr. rewrite Rmult_1_r in Hr.
  apply (rounded_relative _ _ _ _ 0) in Hr; [|change (p2 0) with 1; by rewrite Ea|by vm_compute].
  rewrite val_rval, <-epsilon_p2 by exact Hf. by rewrite Ea in Hr.
Qed.

Lemma scaled_near interval e :
  (10 ^ Z.of_nat e <= interval < 10 ^ (Z.of_nat e + 1))%Z → (interval < 10 ^ 19)%Z →
  let x := fdiv (of_Z interval) (of_Z (10 ^ Z.of_nat e)) in
  number x ∧ Rabs (val x - IZR interval / IZR (10 ^ Z.of_nat e)) <= slack ∧ Rabs (val x) <= 16.
Proof.
  intros Hi Hmax x. rewrite Z.pow_add_r in Hi by lia. set (b := (10 ^ Z.of_nat e)%Z) in *.
  assert (0 < b)%Z as Hb by (apply Z.pow_pos_nonneg; lia).
  destruct (of_Z_near interval ltac:(lia)) as [Na Ea], (of_Z_near b ltac:(lia)) as [Nb Eb].
  set (A := IZR interval) in *. set (B := IZR b) in *. set (a := val (of_Z interval)) in *. set (c := val (of_Z b)) in *.
  assert (0 < B) as HB by (by apply IZR_lt).
  assert (B <= A <= 10 * B) as HA by (unfold A, B; rewrite <-mult_IZR; split; apply IZR_le; lia).
  rewrite epsilon_value in Ea, Eb. set (u := 1 / 9007199254740992) in *. assert (0 < u <= 1 / 1000000000000000) as Hu by (unfold u; lra).
  assert (B / 2 <= c) as Hc by (unfold u in Eb; unfold Rabs in Eb; destruct (Rcase_abs _); lra).
  assert (A / B <= 10) as HQ by (apply (Rmult_le_reg_r B); [done|]; unfold Rdiv; rewrite Rmult_assoc, Rinv_l, Rmult_1_r; lra).
  assert (0 <= A / B) as HQ0 by (apply Rmult_le_pos; [lra|apply Rlt_le, Rinv_0_lt_compat; lra]).
  assert (Rabs (a / c - A / B) <= 4 * u * (A / B)) as Hq.
  { assert (0 < c * B) as HcB by nra.
    replace (a / c - A / B) with ((B * (a - A) - A * (c - B)) / (c * B)) by (field; lra).
    unfold Rdiv at 1. rewrite Rabs_mult, (Rabs_pos_eq (/ (c * B))) by (by apply Rlt_le, Rinv_0_lt_compat).
    apply (Rmult_le_reg_r (c * B)); [done|]. rewrite Rmult_assoc, Rinv_l, Rmult_1_r by lra.
    replace (4 * u * (A / B) * (c * B)) with (4 * u * A * c) by (field; lra).
    assert (B * Rabs (a - A) <= B * (u * A)) by (apply Rmult_le_compat_l; lra).
    assert (A * Rabs (c - B) <= A * (u * B)) by (apply Rmult_le_compat_l; lra).
    assert (u * A * (B / 2) <= u * A * c) by (apply Rmult_le_compat_l; [apply Rmult_le_pos|]; lra).
    eapply Rle_trans; [apply Rabs_triang|]. rewrite Rabs_Ropp, !Rabs_mult, (Rabs_pos_eq B), (Rabs_pos_eq A) by lra. lra. }
  assert (4 * u * (A / B) <= 4 * u * 10) as HuQ by (apply Rmult_le_compat_l; lra).
  assert (Rabs (a / c) <= 11) as H11 by (unfold Rabs in *; repeat destruct (Rcase_abs _); lra).
  pose proof ceiling_big. destruct (fdiv_val (of_Z interval) (of_Z b) Na Nb) as [Nx Ex]; [fold c; lra|fold a c; lra|]. fold a c in Ex.
  destruct smallest_bounds as [Hs1 Hs2]. fold x in Nx, Ex. split; [exact Nx|].
  assert (Rabs (val x - A / B) <= slack) as H1.
  { rewrite epsilon_value in Ex. fold u in Ex. unfold slack. unfold u in *.
    assert (Rabs (val x - A / B) <= Rabs (val x - a / c) + Rabs (a / c - A / B)) as Ht; [|lra].
    replace (val x - A / B) with ((val x - a / c) + (a / c - A / B)) by ring. apply Rabs_triang. }
  split; [exact H1|]. unfold slack in H1. unfold Rabs in *. repeat destruct (Rcase_abs _); lra.
Qed.

(** No bin is nearer to [X], up to rounding. *)
Definition nearest (X : R) (m : nat) : Prop :=
  (m < 10)%nat ∧ ∀ j, (j < 10)%nat → Rabs (X - val (bin m)) <= Rabs (X - val (bin j)) + 1 / 10000000000000.
End Distances.

(** *** The search *)

Definition values_checked : bool :=
  forallb (λ m, forallb (λ e,
    match to_u64 (fmul (bin m) (of_Z (10 ^ Z.of_nat e))) with
    | Ret v => (10 ^ Z.of_nat e <=? v)%Z && (v <=? 10 ^ (Z.of_nat e + 1))%Z
    | _ => false
    end) (seq 0 19)) (seq 0 10).

Lemma values_check : values_checked = true.
Proof. vm_compute. reflexivity. Qed.

Lemma bin_value m e :
  m < 10 → e < 19 →
  ∃ v, to_u64 (fmul (bin m) (of_Z (10 ^ Z.of_nat e))) = Ret v ∧ (10 ^ Z.of_nat e <= v <= 10 ^ (Z.of_nat e + 1))%Z.
Proof.
  intros Hm He. pose proof values_check as H. unfold values_checked in H. rewrite forallb_forall in H.
  specialize (H m ltac:(apply in_seq; lia)). rewrite forallb_forall in H. specialize (H e ltac:(apply in_seq; lia)).
  destruct (to_u64 _) as [v| |]; [|done..]. exists v. split; [done|].
  by apply andb_true_iff in H as [H1%Z.leb_le H2%Z.leb_le].
Qed.

Lemma ten_to_the e : e < 19 → at_ kTenToThe e = Ret (10 ^ Z.of_nat e)%Z.
Proof. intros He. do 19 (destruct e as [|e]; [done|]). lia. Qed.

(** No distance is above the largest [double]. *)
Lemma far_finite x k : number x → (Rabs (val x) <= 16)%R → k < 10 → flt DBL_MAX (far x k) = false.
Proof.
  intros Hx Hb Hk. destruct (far_near x k Hx Hb Hk) as [Hn He]. destruct (bin_number k Hk) as [_ Hu].
  assert (number DBL_MAX) as HM by (by repeat split).
  destruct (flt DBL_MAX (far x k)) eqn:E; [|done]. apply flt_val in E; [|done..].
  assert (1000 <= val DBL_MAX)%R as HD by (apply (val_ge _ 1000), Z.leb_le; vm_compute; reflexivity).
  unfold slack in He. unfold Rabs in *. repeat destruct (Rcase_abs _); lra.
Qed.

(** The search with the first distances computed, and where it ends. *)
Lemma search_spec x index :
  number x → (Rabs (val x) <= 16)%R → index < 10 →
  ∃ dl dr m, settled x m ∧
    (match index with O => Ret DBL_MAX | S i => b ← at_ kIntervalBins i; Ret (fdist x b) end) = Ret dl ∧
    (if decide (index < kIntervalBinsSize - 1)
     then b ← at_ kIntervalBins (index + 1); Ret (fdist x b) else Ret DBL_MAX) = Ret dr ∧
    (if flt dl (far x index) then left_loop x index (far x index) dl
     else if flt dr (far x index) then right_loop kIntervalBinsSize x index (far x index) dr
     else Ret index) = if decide (m ≠ index) then moved_to m else Ret m.
Proof.
  intros Hx Hb Hi.
  assert (∃ dl, (match index with O => Ret DBL_MAX | S i => b ← at_ kIntervalBins i; Ret (fdist x b) end) = Ret dl ∧
            match index with O => flt dl (far x index) = false | S i => dl = far x i end) as (dl & El0 & Hdl).
  { destruct index as [|i]; [exists DBL_MAX; split; [done|by apply far_finite]|exists (far x i)].
    by rewrite at_bin, bind_Ret by lia. }
  assert (∃ dr, (if decide (index < kIntervalBinsSize - 1)
                 then b ← at_ kIntervalBins (index + 1); Ret (fdist x b) else Ret DBL_MAX) = Ret dr ∧
            if decide (S index < 10) then dr = far x (S index) else flt dr (far x index) = false) as (dr & Er0 & Hdr).
  { unfold kIntervalBinsSize. destruct (decide (index < 10 - 1)).
    - exists (far x (S index)). rewrite at_bin, bind_Ret, Nat.add_1_r by lia. by rewrite decide_True by lia.
    - exists DBL_MAX. rewrite decide_False by lia. split; [done|by apply far_finite]. }
  exists dl, dr. destruct (flt dl (far x index)) eqn:El.
  { destruct index as [|i]; [congruence|]. subst dl. destruct (left_loop_spec x i Hi El) as (m & Hm & Hne & El').
    exists m. split; [exact Hm|]. split; [exact El0|]. split; [exact Er0|]. by rewrite El', decide_True. }
  destruct (flt dr (far x index)) eqn:Er.
  { destruct (decide (S index < 10)) as [Hlt|]; [|congruence]. subst dr.
    destruct (right_loop_spec x kIntervalBinsSize index) as (m & Hm & Hne & Er'); [done|unfold kIntervalBinsSize; lia|done|].
    exists m. split; [exact Hm|]. split; [exact El0|]. split; [exact Er0|]. by rewrite Er', decide_True. }
  exists index. split; [|split; [exact El0|]; split; [exact Er0|by rewrite decide_False by tauto]]. split; [done|]. split.
  - intros k <-. by subst dl.
  - intros Hk. rewrite decide_True in Hdr by done. by subst dr.
Qed.

(** The bin of an interval: the nearest one, scaled by the power of ten of the interval. *)
Definition bin_of (interval : Z) (m : nat) (v : Z) : Prop :=
  ∃ e, (10 ^ Z.of_nat e <= interval < 10 ^ (Z.of_nat e + 1))%Z ∧
    nearest (IZR interval / IZR (10 ^ Z.of_nat e)) m ∧
    to_u64 (fmul (bin m) (of_Z (10 ^ Z.of_nat e))) = Ret v ∧ (10 ^ Z.of_nat e <= v <= 10 ^ (Z.of_nat e + 1))%Z.

(** The search finds the nearest bin; it is undefined when that is the first or the last and not the
    one it starts from. *)
Theorem NearestIntervalBin_nearest interval index :
  (0 < interval < 10 ^ 19)%Z → index < 10 →
  ∃ m v, bin_of interval m v ∧
    NearestIntervalBin interval index = if decide (m ≠ index ∧ (m = 0 ∨ m = 9)) then Undef else Ret (v, m).
Proof.
  intros Hi Hx. destruct (baseTenDigits_digits interval Hi) as (d & Hd & Hd0 & Hr). destruct d as [|e]; [lia|].
  replace (Z.of_nat (S e) - 1)%Z with (Z.of_nat e) in Hr by lia.
  replace (Z.of_nat (S e)) with (Z.of_nat e + 1)%Z in Hr by lia.
  assert (e < 19) as He.
  { assert (Z.of_nat e < 19)%Z; [|lia]. apply (Z.pow_lt_mono_r_iff 10); lia. }
  unfold NearestIntervalBin. rewrite (proj2 (Z.eqb_neq _ _)), Hd, bind_Ret, ten_to_the, bind_Ret by lia.
  destruct (scaled_near interval e Hr ltac:(lia)) as (Hn & Hnear & Hb). set (x := fdiv _ _) in *.
  rewrite (at_bin index), bind_Ret by done. change (fdist x (bin index)) with (far x index).
  destruct (search_spec x index Hn Hb Hx) as (dl & dr & m & Hm & Hdl & Hdr & Hs). destruct (bin_value m e (proj1 Hm) He) as (v & Hv & Hvr).
  exists m, v. split.
  - exists e. split; [done|]. split; [|done]. split; [apply Hm|]. intros j Hj.
    pose proof (settled_nearest x m j Hn Hb Hm Hj) as Hj'. unfold slack in *. unfold Rabs in *.
    repeat destruct (Rcase_abs _); lra.
  - rewrite Hdl, bind_Ret, Hdr, bind_Ret. change SFltb with flt. rewrite Hs. unfold moved_to.
    destruct (decide (m ≠ index)) as [Hne|He'].
    + destruct (decide (m = 0 ∨ m = 9)) as [He9|He9]; [by rewrite decide_True|].
      rewrite decide_False, bind_Ret, (at_bin m), bind_Ret, Hv, bind_Ret by (apply Hm || tauto). done.
    + rewrite decide_False, bind_Ret, (at_bin m), bind_Ret, Hv, bind_Ret by (apply Hm || tauto). done.
Qed.

(** ** Properties *)

(** Decimal digits from binary digits: for every interval below [10^19] the table of guesses
    and one comparison give the number of its decimal digits. *)
Theorem baseTenDigits_spec x :
  (0 < x < 10 ^ 19)%Z →
  ∃ d, baseTenDigits x = Ret d ∧ (10 ^ (Z.of_nat d - 1) <= x < 10 ^ Z.of_nat d)%Z.
Proof. intros Hx. destruct (baseTenDigits_digits x Hx) as (d & ? & _ & ?). eauto. Qed.

(** ** Witnesses *)

Lemma baseTenDigits_spec_witness :
  ∃ d, baseTenDigits 1234567 = Ret d ∧ (10 ^ (Z.of_nat d - 1) <= 1234567 < 10 ^ Z.of_nat d)%Z.
Proof. apply (baseTenDigits_spec 1234567). lia. Defined.
