(* ===== verification/Rates.v ===== *)
(** * Rate measurement (src/a17/utils/rate_measure.h, rate_measure.cpp)

    [RateMeasure] keeps a sliding window of intervals, their deviation from
    the nearest bin and message sizes.  [double] is IEEE binary64 ([SpecFloat]); a
    [double] that only ever holds integers is the integer, rounded to 53 bits by [rn53]
    after every operation.  [int64_t] arithmetic that overflows, conversions of values out
    of range and reads outside an array are undefined. *)

From Stdlib Require Import SpecFloat.
From S2P Require Import Prelude Floats IntervalBins.

(** ** Integers and doubles *)

Definition to_i64 (z : Z) : outcome Z :=
  if (- 2 ^ 63 <=? z)%Z && (z <? 2 ^ 63)%Z then Ret z else Undef.

Definition add64 (a b : Z) : outcome Z := to_i64 (a + b).
Definition sub64 (a b : Z) : outcome Z := to_i64 (a - b).

(** The nearest integer with 53 significant bits, ties to even. *)
Definition rn53 (z : Z) : Z :=
  let a := Z.abs z in
  if (a <? 2 ^ 53)%Z then z
  else
    let e := (Z.log2 a - 52)%Z in
    let q := Z.shiftr a e in
    let r := (a - Z.shiftl q e)%Z in
    let half := Z.shiftl 1 (e - 1) in
    let q := if (half <? r)%Z || ((r =? half)%Z && Z.odd q) then (q + 1)%Z else q in
    (Z.sgn z * Z.shiftl q e)%Z.

(** ** [class RateMeasure] *)
Module RateMeasure.

Record t : Type := mk {
  sample_window_ : Z;
  target_interval_ : Z;
  current_target_index_ : nat;
  intervals_ : list Z;
  jitters_ : list Z;
  sizes_ : list Z;
  ticks_ : Z;
  last_time_ : Z;
  interval_acc_ : Z;
  jitter_acc_ : Z;
  size_acc_ : Z;
  avg_interval_ : Z;
  max_jitter_ : Z
}.

Definition init (sample_window : Z) : t := mk sample_window 0 0 [] [] [] 0 0 0 0 0 0 0.

(** [reset()]: the queues and their accumulators are kept. *)
Definition reset (r : t) : t :=
  mk (sample_window_ r) 0 0 (intervals_ r) (jitters_ r) (sizes_ r) (ticks_ r) 0
     (interval_acc_ r) (jitter_acc_ r) (size_acc_ r) 0 0.

Definition resetMaxJitter (r : t) : t :=
  mk (sample_window_ r) (target_interval_ r) (current_target_index_ r) (intervals_ r) (jitters_ r) (sizes_ r)
     (ticks_ r) (last_time_ r) (interval_acc_ r) (jitter_acc_ r) (size_acc_ r) (avg_interval_ r) 0.

(** [while (interval_acc_ > sample_window_)]: the oldest intervals go. *)
Fixpoint trim_window (q : list Z) (acc window : Z) : outcome (list Z * Z) :=
  if (window <? acc)%Z then
    match q with
    | [] => Undef
    | x :: q' => acc ← sub64 acc x; trim_window q' acc window
    end
  else Ret (q, acc).

(** [while (jitters_.size() > intervals_.size())] and the same loop for sizes: [sub] is the
    subtraction of the accumulator's type. *)
Fixpoint trim_count (sub : Z → Z → outcome Z) (q : list Z) (acc : Z) (n : nat) : outcome (list Z * Z) :=
  if decide (n < length q) then
    match q with
    | [] => Undef
    | x :: q' => acc ← sub acc x; trim_count sub q' acc n
    end
  else Ret (q, acc).

Definition sub_size (a b : Z) : outcome Z := Ret (u64 (a - b)).

Definition markSize (r : t) (size now : Z) : outcome t :=
  let ticks := u64 (ticks_ r + 1) in
  if (last_time_ r =? 0)%Z then
    Ret (mk (sample_window_ r) (target_interval_ r) (current_target_index_ r) (intervals_ r) (jitters_ r)
            (sizes_ r) ticks now (interval_acc_ r) (jitter_acc_ r) (size_acc_ r) (avg_interval_ r) (max_jitter_ r))
  else
    interval ← sub64 now (last_time_ r);
    acc ← add64 (interval_acc_ r) interval;
    '(intervals, acc) ← trim_window (intervals_ r ++ [interval]) acc (sample_window_ r);
    '(avg, target, index) ←
      (match intervals with
       | [] => Ret (avg_interval_ r, target_interval_ r, current_target_index_ r)
       | _ =>
           let avg := i64 (u64 acc / Z.of_nat (length intervals)) in
           '(v, index) ← NearestIntervalBin (u64 avg) (current_target_index_ r);
           Ret (avg, i64 v, index)
       end);
    d ← sub64 interval target;
    let jitter := rn53 (Z.abs d) in
    maxj ← (if (rn53 (max_jitter_ r) <? jitter)%Z then to_i64 jitter else Ret (max_jitter_ r));
    j ← to_i64 jitter;
    jacc ← to_i64 (rn53 (rn53 (jitter_acc_ r) + jitter));
    '(jitters, jacc) ← trim_count sub64 (jitters_ r ++ [j]) jacc (length intervals);
    '(sizes, sacc) ← trim_count sub_size (sizes_ r ++ [size]) (u64 (size_acc_ r + size)) (length intervals);
    Ret (mk (sample_window_ r) target index intervals jitters sizes ticks now acc jacc sacc avg maxj).

Definition mark (r : t) (now : Z) : outcome t := markSize r 0 now.

Definition sampleCount (r : t) : nat := length (intervals_ r).

Definition size (r : t) : Z :=
  match sizes_ r with [] => 0%Z | _ => (size_acc_ r / Z.of_nat (length (sizes_ r)))%Z end.

Definition frequency (r : t) : spec_float :=
  if (avg_interval_ r =? 0)%Z then of_Z 0 else fdiv (of_Z 1000000000) (of_Z (avg_interval_ r)).

Definition targetFrequency (r : t) : Z :=
  if (target_interval_ r =? 0)%Z then 0%Z else Z.quot 1000000000 (target_interval_ r).

Definition jitter (r : t) : spec_float :=
  match jitters_ r with
  | [] => of_Z 0
  | _ => fdiv (fdiv (of_Z (jitter_acc_ r)) (of_Z (Z.of_nat (length (jitters_ r))))) (of_Z 1000)
  end.

Definition jitterPercent (r : t) : spec_float :=
  if (target_interval_ r =? 0)%Z then of_Z 0
  else fdiv (fmul (of_Z 100) (fmul (jitter r) (of_Z 1000))) (of_Z (target_interval_ r)).

Definition maxJitter (r : t) : spec_float := fdiv (of_Z (max_jitter_ r)) (of_Z 1000).

(** The remainder by [sample_window_ / target_interval_], which may be zero; both operands
    are converted to [uint64_t]. *)
Definition isAtWindow (r : t) : outcome bool :=
  if (target_interval_ r =? 0)%Z then Ret false
  else
    let n := u64 (Z.quot (sample_window_ r) (target_interval_ r)) in
    if (n =? 0)%Z then Undef else Ret (ticks_ r mod n =? 0)%Z.

End RateMeasure.

(** ** The sliding window *)

Definition sum (l : list Z) : Z := foldr Z.add 0%Z l.

Lemma sum_app l l' : sum (l ++ l') = (sum l + sum l')%Z.
Proof. induction l; simpl in *; lia. Qed.

Lemma sum_nonneg l : Forall (λ x, 0 <= x)%Z l → (0 <= sum l)%Z.
Proof. induction 1; simpl in *; lia. Qed.

Lemma suffix_nonneg l l' : suffix l l' → Forall (λ x, 0 <= x)%Z l' → Forall (λ x, 0 <= x)%Z l.
Proof. intros [k ->] H. by apply Forall_app in H as [_ ?]. Qed.

Lemma to_i64_ok z : (- 2 ^ 63 <= z < 2 ^ 63)%Z → to_i64 z = Ret z.
Proof.
  intros H. unfold to_i64. destruct (Z.leb_spec (- 2 ^ 63) z), (Z.ltb_spec z (2 ^ 63)); try lia. done.
Qed.

(** The window keeps the longest run of latest intervals that fits. *)
Lemma trim_window_spec q window :
  Forall (λ x, 0 <= x)%Z q → (0 <= window)%Z → (sum q < 2 ^ 63)%Z →
  ∃ q', RateMeasure.trim_window q (sum q) window = Ret (q', sum q') ∧ suffix q' q ∧ (sum q' <= window)%Z ∧
        (∀ q'', suffix q'' q → (sum q'' <= window)%Z → suffix q'' q').
Proof.
  intros Hq Hw. induction Hq as [|x q Hx Hq IH]; intros Hs; cbn [RateMeasure.trim_window].
  { exists []. change (sum []) with 0%Z. rewrite (proj2 (Z.ltb_ge _ _)) by lia. by split_and!. }
  pose proof (sum_nonneg q Hq). simpl in Hs. destruct (Z.ltb_spec window (sum (x :: q))) as [Hlt|Hge].
  - simpl in Hlt. unfold sub64. replace (sum (x :: q) - x)%Z with (sum q) by (simpl; lia).
    rewrite to_i64_ok, bind_Ret by lia. destruct IH as (q' & -> & Hsuf & Hle & Hmax); [lia|].
    exists q'. split_and!; [done|by apply suffix_cons_r|done|].
    intros q'' [[|y k] E] Hle''; [simpl in E; subst q''; simpl in Hle''; lia|].
    injection E as -> E. apply Hmax; [by exists k|done].
  - exists (x :: q). split_and!; [done|done|done|]. intros q'' ? _. done.
Qed.

Lemma trim_count_i64 q n :
  Forall (λ x, 0 <= x)%Z q → (sum q < 2 ^ 63)%Z →
  RateMeasure.trim_count sub64 q (sum q) n = Ret (drop (length q - n) q, sum (drop (length q - n) q)).
Proof.
  intros Hq. induction Hq as [|x q Hx Hq IH]; intros Hs; cbn [RateMeasure.trim_count].
  { rewrite decide_False by (simpl; lia). done. }
  pose proof (sum_nonneg q Hq). simpl in Hs. destruct (decide (n < length (x :: q))) as [Hlt|Hge].
  - assert (sub64 (sum (x :: q)) x = Ret (sum q)) as ->.
    { unfold sub64. replace (sum (x :: q) - x)%Z with (sum q) by (simpl; lia). apply to_i64_ok. lia. }
    rewrite bind_Ret, IH by lia. simpl in Hlt.
    by replace (length (x :: q) - n) with (S (length q - n)) by (simpl; lia).
  - replace (length (x :: q) - n) with 0 by lia. done.
Qed.

Lemma trim_count_size q n :
  RateMeasure.trim_count RateMeasure.sub_size q (u64 (sum q)) n =
  Ret (drop (length q - n) q, u64 (sum (drop (length q - n) q))).
Proof.
  induction q as [|x q IH]; cbn [RateMeasure.trim_count].
  { rewrite decide_False by (simpl; lia). done. }
  destruct (decide (n < length (x :: q))) as [Hlt|Hge].
  - assert (RateMeasure.sub_size (u64 (sum (x :: q))) x = Ret (u64 (sum q))) as ->.
    { unfold RateMeasure.sub_size, u64. rewrite Zminus_mod_idemp_l. do 2 f_equal. simpl. lia. }
    rewrite bind_Ret, IH. simpl in Hlt.
    by replace (length (x :: q) - n) with (S (length q - n)) by (simpl; lia).
  - replace (length (x :: q) - n) with 0 by lia. done.
Qed.

Lemma rn53_small z : (0 <= z < 2 ^ 53)%Z → rn53 z = z.
Proof. intros H. unfold rn53. by rewrite (proj2 (Z.ltb_lt _ _)) by lia. Qed.

Lemma sub64_ok a b : (- 2 ^ 63 <= a - b < 2 ^ 63)%Z → sub64 a b = Ret (a - b)%Z.
Proof. apply to_i64_ok. Qed.

Lemma add64_ok a b : (- 2 ^ 63 <= a + b < 2 ^ 63)%Z → add64 a b = Ret (a + b)%Z.
Proof. apply to_i64_ok. Qed.

Lemma i64_u64_small z : (0 <= z < 2 ^ 63)%Z → i64 z = z ∧ u64 z = z.
Proof. intros H. unfold i64, u64. rewrite !Z.mod_small by lia. lia. Qed.

(** The accumulators are the sums of the queues, which have the same length; the index is one of the
    bins, and the target one of their values. *)
Definition rate_ok (r : RateMeasure.t) : Prop :=
  RateMeasure.interval_acc_ r = sum (RateMeasure.intervals_ r) ∧
  RateMeasure.jitter_acc_ r = sum (RateMeasure.jitters_ r) ∧
  RateMeasure.size_acc_ r = u64 (sum (RateMeasure.sizes_ r)) ∧
  length (RateMeasure.jitters_ r) = length (RateMeasure.intervals_ r) ∧
  length (RateMeasure.sizes_ r) = length (RateMeasure.intervals_ r) ∧
  Forall (λ x, 0 <= x)%Z (RateMeasure.intervals_ r) ∧ Forall (λ x, 0 <= x)%Z (RateMeasure.jitters_ r) ∧
  (sum (RateMeasure.intervals_ r) <= RateMeasure.sample_window_ r)%Z ∧
  (0 <= RateMeasure.max_jitter_ r < 2 ^ 53)%Z ∧
  RateMeasure.current_target_index_ r < 10 ∧ (0 <= RateMeasure.target_interval_ r < 2 ^ 52)%Z.

(** The intervals in the window after one more. *)
Definition in_window (r : RateMeasure.t) (interval : Z) (q : list Z) : Prop :=
  suffix q (RateMeasure.intervals_ r ++ [interval]) ∧ (sum q <= RateMeasure.sample_window_ r)%Z ∧
  ∀ q', suffix q' (RateMeasure.intervals_ r ++ [interval]) → (sum q' <= RateMeasure.sample_window_ r)%Z → suffix q' q.

Definition average (q : list Z) : Z := (sum q / Z.of_nat (length q))%Z.

(** The target interval after a sample that leaves [q] in the window, as the code computes it, and
    what it should be: the nearest bin of the average, unless there is none. *)
Definition new_target (r : RateMeasure.t) (q : list Z) : outcome (Z * nat) :=
  match q with
  | [] => Ret (RateMeasure.target_interval_ r, RateMeasure.current_target_index_ r)
  | _ => '(v, i) ← NearestIntervalBin (average q) (RateMeasure.current_target_index_ r); Ret (i64 v, i)
  end.

Definition chosen (r : RateMeasure.t) (q : list Z) (m : nat) (target : Z) : Prop :=
  match q with
  | [] => m = RateMeasure.current_target_index_ r ∧ target = RateMeasure.target_interval_ r
  | _ =>
      if decide (average q = 0%Z) then m = RateMeasure.current_target_index_ r ∧ target = 0%Z
      else bin_of (average q) m target
  end.

Lemma average_range q B : Forall (λ x, 0 <= x)%Z q → (sum q <= B)%Z → (0 <= average q <= B)%Z.
Proof.
  intros Hq Hs. pose proof (sum_nonneg q Hq). unfold average. destruct q as [|x q]; [change (0 <= 0 <= B)%Z; simpl in *; lia|].
  set (n := Z.of_nat (length (x :: q))). assert (1 <= n)%Z by (unfold n; simpl length; lia).
  split; [apply Z.div_pos; lia|]. apply Z.div_le_upper_bound; [lia|nia].
Qed.

Lemma chosen_target r q :
  rate_ok r → Forall (λ x, 0 <= x)%Z q → (sum q <= 10 ^ 14)%Z →
  ∃ m target, chosen r q m target ∧ m < 10 ∧ (0 <= target < 2 ^ 52)%Z ∧
    new_target r q = if decide (m ≠ RateMeasure.current_target_index_ r ∧ (m = 0 ∨ m = 9)) then Undef else Ret (target, m).
Proof.
  intros Hr Hq Hs. assert (RateMeasure.current_target_index_ r < 10 ∧ (0 <= RateMeasure.target_interval_ r < 2 ^ 52)%Z)
    as [Hidx Htgt] by apply Hr.
  pose proof (average_range q _ Hq Hs) as Ha. destruct q as [|x q].
  { do 2 eexists. split; [by split|]. split; [done|]. split; [done|]. by rewrite decide_False by tauto. }
  unfold chosen, new_target. set (avg := average _) in *. destruct (decide (avg = 0%Z)) as [E|Hne].
  { do 2 eexists. split; [by split|]. split; [done|]. split; [lia|]. rewrite decide_False by tauto.
    by rewrite E. }
  destruct (NearestIntervalBin_nearest avg (RateMeasure.current_target_index_ r)) as (m & v & Hb & ->); [lia|done|].
  exists m, v. split; [done|]. destruct Hb as (e & He & [Hm _] & _ & Hv). split; [done|].
  assert (v < 2 ^ 52)%Z as Hv52.
  { assert (Z.of_nat e < 15)%Z by (apply (Z.pow_lt_mono_r_iff 10); lia).
    eapply Z.le_lt_trans; [apply Hv|]. eapply Z.le_lt_trans; [apply (Z.pow_le_mono_r 10 _ 15); lia|done]. }
  assert (0 <= v)%Z by (eapply Z.le_trans; [|apply Hv]; apply Z.pow_nonneg; lia).
  split; [done|]. case_decide; [done|]. rewrite bind_Ret. by rewrite (proj1 (i64_u64_small v ltac:(lia))).
Qed.

Lemma target_step r q :
  (0 <= sum q < 2 ^ 63)%Z → Forall (λ x, 0 <= x)%Z q →
  (match q with
   | [] => Ret (RateMeasure.avg_interval_ r, RateMeasure.target_interval_ r, RateMeasure.current_target_index_ r)
   | _ =>
       '(v, index) ← NearestIntervalBin (u64 (i64 (u64 (sum q) / Z.of_nat (length q))))
                       (RateMeasure.current_target_index_ r);
       Ret (i64 (u64 (sum q) / Z.of_nat (length q)), i64 v, index)
   end) = ('(target, index) ← new_target r q;
           Ret (match q with [] => RateMeasure.avg_interval_ r | _ => average q end, target, index)).
Proof.
  intros Hs Hq. pose proof (average_range q _ Hq (Z.le_refl _)) as Ha.
  unfold new_target. destruct q as [|x q]; [done|].
  destruct (i64_u64_small (sum (x :: q)) Hs) as [_ ->]. fold (average (x :: q)) in *.
  destruct (i64_u64_small (average (x :: q)) ltac:(lia)) as [-> Hu]. rewrite Hu.
  by destruct (NearestIntervalBin _ _) as [[v i]|e|].
Qed.

(** A sample on a running measurement. *)
Lemma markSize_spec r sz now q m target :
  rate_ok r → m < 10 → (0 <= RateMeasure.sample_window_ r < 2 ^ 52)%Z →
  (0 < RateMeasure.last_time_ r <= now)%Z → (now < 2 ^ 52)%Z →
  in_window r (now - RateMeasure.last_time_ r) q →
  (0 <= target < 2 ^ 52)%Z →
  (RateMeasure.jitter_acc_ r < 2 ^ 52)%Z →
  (new_target r q = Undef → RateMeasure.markSize r sz now = Undef) ∧
  (new_target r q = Ret (target, m) →
  ∃ r', RateMeasure.markSize r sz now = Ret r' ∧ rate_ok r' ∧ RateMeasure.intervals_ r' = q ∧
    RateMeasure.target_interval_ r' = target ∧ RateMeasure.current_target_index_ r' = m ∧
    (q ≠ [] → RateMeasure.avg_interval_ r' = average q) ∧
    RateMeasure.max_jitter_ r' = Z.max (RateMeasure.max_jitter_ r) (Z.abs (now - RateMeasure.last_time_ r - target))).
Proof.
  intros (Hia & Hja & Hsa & Hlj & Hls & Hni & Hnj & Hwin & Hmj & Hidx & Htgt) Hm Hw Hlast Hnow (Hsuf & Hle & Hmax) Htr Hj.
  set (interval := (now - RateMeasure.last_time_ r)%Z) in *. set (j := Z.abs (interval - target)) in *.
  assert (Forall (λ x, 0 <= x)%Z (RateMeasure.intervals_ r ++ [interval])) as Hn'.
  { apply Forall_app. split; [done|]. apply Forall_singleton. unfold interval. lia. }
  assert (sum (RateMeasure.intervals_ r ++ [interval]) = RateMeasure.interval_acc_ r + interval)%Z as Hsum.
  { rewrite sum_app, Hia. simpl. lia. }
  destruct (trim_window_spec _ (RateMeasure.sample_window_ r) Hn') as (q0 & Htrim & Hsuf0 & Hle0 & Hmax0); [lia|lia|].
  assert (q0 = q) as ->.
  { specialize (Hmax0 q Hsuf Hle). specialize (Hmax q0 Hsuf0 Hle0).
    destruct Hmax0 as [k1 E1], Hmax as [k2 E2]. rewrite E2 in E1. apply (f_equal length) in E1 as E3.
    rewrite !length_app in E3. destruct k2; [by rewrite E2|simpl in E3; lia]. }
  pose proof (suffix_nonneg _ _ Hsuf Hn') as Hnq. pose proof (sum_nonneg q Hnq).
  pose proof (sum_nonneg _ Hni). pose proof (sum_nonneg _ Hnj).
  assert (length q <= S (length (RateMeasure.intervals_ r))) as Hlen.
  { apply suffix_length in Hsuf. rewrite length_app in Hsuf. simpl in Hsuf. lia. }
  unfold RateMeasure.markSize. rewrite (proj2 (Z.eqb_neq _ _)) by lia.
  rewrite sub64_ok, bind_Ret by (unfold interval; lia). fold interval.
  rewrite add64_ok, bind_Ret by (unfold interval in *; lia).
  rewrite <- Hsum, Htrim, bind_Ret. cbv beta iota. rewrite target_step by (done || lia).
  split; [by intros ->|intros ->]. rewrite !bind_Ret, sub64_ok, bind_Ret by (unfold interval; lia). fold j.
  assert (0 <= j < 2 ^ 53)%Z as Hjr by (unfold j in *; lia).
  rewrite (rn53_small j), (rn53_small (RateMeasure.max_jitter_ r)) by lia.
  assert ((if (RateMeasure.max_jitter_ r <? j)%Z then to_i64 j else Ret (RateMeasure.max_jitter_ r))
          = Ret (Z.max (RateMeasure.max_jitter_ r) j)) as ->.
  { destruct (Z.ltb_spec (RateMeasure.max_jitter_ r) j); [rewrite to_i64_ok by lia|]; f_equal; lia. }
  rewrite bind_Ret, (to_i64_ok j), bind_Ret by lia.
  rewrite (rn53_small (RateMeasure.jitter_acc_ r)), rn53_small, to_i64_ok, bind_Ret by lia.
  assert (RateMeasure.jitter_acc_ r + j = sum (RateMeasure.jitters_ r ++ [j]))%Z as ->
    by (rewrite sum_app, Hja; simpl; lia).
  assert (Forall (λ x, 0 <= x)%Z (RateMeasure.jitters_ r ++ [j])) as Hnj'
    by (apply Forall_app; split; [done|apply Forall_singleton; lia]).
  rewrite trim_count_i64, bind_Ret by (done || (rewrite sum_app; simpl; lia)).
  assert (u64 (RateMeasure.size_acc_ r + sz) = u64 (sum (RateMeasure.sizes_ r ++ [sz]))) as ->.
  { rewrite Hsa, sum_app. unfold u64. rewrite Zplus_mod_idemp_l. simpl. f_equal. lia. }
  rewrite trim_count_size, bind_Ret. eexists. split; [done|]. split; [|split_and!; try done; intros Hq; by destruct q].
  unfold rate_ok. cbn -[sum Z.pow Z.max]. split_and!; try done.
  - rewrite length_drop, length_app. simpl. lia.
  - rewrite length_drop, length_app. simpl. lia.
  - by apply Forall_drop.
  - lia.
  - lia.
  - lia.
  - lia.
Qed.

(** ** Properties *)

(** C35. The measurement is over the window: after a sample the queue holds the longest run of
    latest intervals whose sum is within the sample window, the accumulators are the sums of
    the queues, which stay equally long, the target interval is the bin nearest to the average
    interval, scaled by its power of ten, and the maximal jitter is the largest distance of an
    interval from the target of its time.  One kind of sample is undefined behaviour: when the
    nearest bin becomes the first or the last one, the search for it reads outside the table.
    (Times are below [2^52] ns, the window at most [10^14].) *)
Theorem rate_window r sz now :
  rate_ok r → (0 <= RateMeasure.sample_window_ r <= 10 ^ 14)%Z →
  (0 < RateMeasure.last_time_ r <= now)%Z → (now < 2 ^ 52)%Z → (RateMeasure.jitter_acc_ r < 2 ^ 52)%Z →
  ∃ q m target, in_window r (now - RateMeasure.last_time_ r) q ∧ chosen r q m target ∧
    if decide (m ≠ RateMeasure.current_target_index_ r ∧ (m = 0 ∨ m = 9)) then
      RateMeasure.markSize r sz now = Undef
    else
      ∃ r', RateMeasure.markSize r sz now = Ret r' ∧ rate_ok r' ∧ RateMeasure.intervals_ r' = q ∧
        RateMeasure.target_interval_ r' = target ∧ RateMeasure.current_target_index_ r' = m ∧
        (q ≠ [] → RateMeasure.avg_interval_ r' = average q) ∧
        RateMeasure.max_jitter_ r' =
          Z.max (RateMeasure.max_jitter_ r) (Z.abs (now - RateMeasure.last_time_ r - target)).
Proof.
  intros Hok Hw Hl Hn Hj. pose proof Hok as (_ & _ & _ & _ & _ & Hni & _ & Hwin & _).
  assert (Forall (λ x, 0 <= x)%Z (RateMeasure.intervals_ r ++ [(now - RateMeasure.last_time_ r)%Z])) as Hf
    by (apply Forall_app; split; [done|]; apply Forall_singleton; lia).
  destruct (trim_window_spec _ (RateMeasure.sample_window_ r) Hf) as (q & _ & H1 & H2 & H3);
    [lia|rewrite sum_app; simpl; lia|].
  destruct (chosen_target r q Hok (suffix_nonneg _ _ H1 Hf) ltac:(lia)) as (m & target & Hc & Hm & Ht & Hnew).
  exists q, m, target. split; [done|]. split; [done|].
  destruct (markSize_spec r sz now q m target Hok Hm) as [Hu Hr]; [lia|done|done|done|done|done|].
  rewrite Hnew in *. case_decide; [by apply Hu|by apply Hr].
Qed.

(** A steady 10 Hz signal makes the search read outside the table of bins when it follows a
    7.5 Hz one: the loop reads the bin before the first one before it checks the index. *)
Theorem nearest_bin_reads_outside :
  NearestIntervalBin 133000000 0 = Ret (133333333%Z, 1) ∧
  NearestIntervalBin 100000000 1 = Undef ∧ NearestIntervalBin 900000000 8 = Undef ∧
  (r ← RateMeasure.mark (RateMeasure.init 200000000) 1000000000;
   r ← RateMeasure.mark r 1133000000;
   r ← RateMeasure.mark r 1233000000;
   RateMeasure.mark r 1333000000) = Undef.
Proof. split_and!; vm_compute; reflexivity. Qed.

(** [isAtWindow] divides by zero when the nearest bin is above the window: two samples 127 ms apart in a
    window of 128 ms. *)
Theorem window_below_bin :
  ∃ r, (r ← RateMeasure.mark (RateMeasure.init 128000000) 1000000000; RateMeasure.mark r 1127000000) = Ret r ∧
    RateMeasure.target_interval_ r = 133333333%Z ∧ RateMeasure.isAtWindow r = Undef.
Proof. eexists. split_and!; [vm_compute; reflexivity|reflexivity|vm_compute; reflexivity]. Qed.

(** Samples from before [reset] count after it: the average of one interval of 20 ms after a reset is
    60 ms when an interval of 100 ms was measured before. *)
Theorem reset_keeps_samples :
  ∃ r r', (r ← RateMeasure.mark (RateMeasure.init 1000000000) 1000000000; RateMeasure.mark r 1100000000) = Ret r ∧
    (r ← RateMeasure.mark (RateMeasure.reset r) 5000000000; RateMeasure.mark r 5020000000) = Ret r' ∧
    RateMeasure.avg_interval_ r' = 60000000%Z.
Proof. eexists _, _. split_and!; [vm_compute; reflexivity..|reflexivity]. Qed.

(** ** Witnesses *)

Definition demo_rate : RateMeasure.t := RateMeasure.mk 2000000000 20000000 3 [20000000%Z] [0%Z] [7%Z] 2 1000000 20000000 0 7 20000000 0.

Lemma rate_window_witness :
  ∃ r', RateMeasure.markSize demo_rate 9 21000000 = Ret r' ∧ rate_ok r' ∧
    RateMeasure.intervals_ r' = [20000000; 20000000]%Z ∧ RateMeasure.target_interval_ r' = 20000000%Z.
Proof.
  destruct (rate_window demo_rate 9 21000000) as (q & m & target & _ & _ & H).
  - unfold rate_ok. simpl. split_and!; try reflexivity; try lia; repeat constructor; lia.
  - simpl. lia.
  - simpl. lia.
  - lia.
  - simpl. lia.
  - assert (∃ r', RateMeasure.markSize demo_rate 9 21000000 = Ret r' ∧
              RateMeasure.intervals_ r' = [20000000; 20000000]%Z ∧ RateMeasure.target_interval_ r' = 20000000%Z)
      as (r' & Hr & Hq & Ht) by (eexists; split_and!; [vm_compute; reflexivity|reflexivity|reflexivity]).
    exists r'. split; [exact Hr|]. case_decide; [congruence|]. destruct H as (r2 & Hr2 & Hok & _).
    rewrite Hr in Hr2. injection Hr2 as ->. by split_and!.
Defined.
