(* ===== verification/Pid.v ===== *)
(** * The PID controller (src/a17/utils/pid.h, pid.cpp)

    Values are binary64 numbers; [now] is what the clock returns, in nanoseconds.  The loops
    that reduce an angular error run on fuel: a loop that does not end, which in C++ is
    undefined behaviour, runs out of every amount of it. *)

From Stdlib Require Import SpecFloat.
From S2P Require Import Prelude Floats FloatExact Rounding.

Module PID.

Inductive Type_ : Set := LINEAR | ANGULAR.

Definition kDefaultType : Type_ := LINEAR.

Record t : Type := mk {
  kP_ : spec_float;
  kI_ : spec_float;
  kD_ : spec_float;
  min_output_ : spec_float;
  max_output_ : spec_float;
  antiwindup_damping_ : spec_float;
  integral_error_limit_ : spec_float;
  type_ : Type_;
  first_sample_computed_ : bool;
  integral_error_ : spec_float;
  last_error_ : spec_float;
  last_timepoint_ : Z
}.

Definition init (kp ki kd : spec_float) (now : Z) : t :=
  mk kp ki kd DBL_LOWEST DBL_MAX (of_Z 1) DBL_MAX kDefaultType false (of_Z 0) (of_Z 0) now.

Definition setGains (p : t) (kp ki kd : spec_float) : t :=
  mk kp ki kd (min_output_ p) (max_output_ p) (antiwindup_damping_ p) (integral_error_limit_ p) (type_ p)
     (first_sample_computed_ p) (integral_error_ p) (last_error_ p) (last_timepoint_ p).

Definition setKP (p : t) (kp : spec_float) : t := setGains p kp (kI_ p) (kD_ p).
Definition setKI (p : t) (ki : spec_float) : t := setGains p (kP_ p) ki (kD_ p).
Definition setKD (p : t) (kd : spec_float) : t := setGains p (kP_ p) (kI_ p) kd.

Definition set_limits (p : t) (min max : spec_float) : t :=
  mk (kP_ p) (kI_ p) (kD_ p) min max (antiwindup_damping_ p) (integral_error_limit_ p) (type_ p)
     (first_sample_computed_ p) (integral_error_ p) (last_error_ p) (last_timepoint_ p).

Definition setMaxOutput (p : t) (max : spec_float) : t := set_limits p (min_output_ p) max.
Definition setMinOutput (p : t) (min : spec_float) : t := set_limits p min (max_output_ p).

Definition setAntiWindup (p : t) (damping integral_error_limit : spec_float) : outcome t :=
  if fle (of_Z 0) damping && fle damping (of_Z 1) then
    Ret (mk (kP_ p) (kI_ p) (kD_ p) (min_output_ p) (max_output_ p) damping (fabs integral_error_limit) (type_ p)
            (first_sample_computed_ p) (integral_error_ p) (last_error_ p) (last_timepoint_ p))
  else Throw assertion_failed.

Definition setType (p : t) (type : Type_) : t :=
  mk (kP_ p) (kI_ p) (kD_ p) (min_output_ p) (max_output_ p) (antiwindup_damping_ p) (integral_error_limit_ p) type
     (first_sample_computed_ p) (integral_error_ p) (last_error_ p) (last_timepoint_ p).

(** The fields a computation changes. *)
Definition set_state (p : t) (first : bool) (integral last : spec_float) (now : Z) : t :=
  mk (kP_ p) (kI_ p) (kD_ p) (min_output_ p) (max_output_ p) (antiwindup_damping_ p) (integral_error_limit_ p)
     (type_ p) first integral last now.

Definition restartController (p : t) (now : Z) : t := set_state p false (of_Z 0) (of_Z 0) now.

Definition clip (value limit : spec_float) : outcome spec_float :=
  if fle (of_Z 0) limit then Ret (std_min limit (std_max (fopp limit) value)) else Throw assertion_failed.

Definition TWO_PI : spec_float := fmul (of_Z 2) M_PI.

Fixpoint reduce_down (fuel : nat) (error : spec_float) : outcome spec_float :=
  if flt TWO_PI error then
    match fuel with O => Undef | S fuel' => reduce_down fuel' (fsub error TWO_PI) end
  else Ret error.

Fixpoint reduce_up (fuel : nat) (error : spec_float) : outcome spec_float :=
  if flt error (fopp TWO_PI) then
    match fuel with O => Undef | S fuel' => reduce_up fuel' (fadd error TWO_PI) end
  else Ret error.

Definition handleAngularDiscontinuity (fuel : nat) (p : t) (error : spec_float) : outcome spec_float :=
  match type_ p with
  | LINEAR => Ret error
  | ANGULAR =>
      error ← reduce_down fuel error;
      error ← reduce_up fuel error;
      Ret (if flt M_PI error then fsub error TWO_PI
           else if flt error (fopp M_PI) then fadd error TWO_PI else error)
  end.

(** [computeP]: the error is remembered before it is reduced. *)
Definition computeP (fuel : nat) (p : t) (now : Z) (reference signal : spec_float) : outcome (t * spec_float) :=
  let error := fsub reference signal in
  let p := set_state p (first_sample_computed_ p) (integral_error_ p) error now in
  error ← (match type_ p with ANGULAR => handleAngularDiscontinuity fuel p error | LINEAR => Ret error end);
  Ret (p, fmul (kP_ p) error).

(** The elapsed time: nanoseconds to seconds in [float], widened to [double]. *)
Definition widen (x : spec_float) : spec_float :=
  match x with
  | S754_finite s m e => binary_normalize 53 1024 (if s then Z.neg m else Z.pos m) e s
  | _ => x
  end.

Definition elapsed (p : t) (now : Z) : spec_float :=
  widen (fdiv32 (of_Z32 (now - last_timepoint_ p)) (of_Z32 1000000000)).

Definition compute (fuel : nat) (p : t) (now : Z) (reference signal : spec_float) : outcome (t * spec_float) :=
  if negb (first_sample_computed_ p)
  then computeP fuel (set_state p true (integral_error_ p) (last_error_ p) (last_timepoint_ p)) now reference signal
  else
    let elapsed_time_secs := elapsed p now in
    let error := fsub reference signal in
    error ← (match type_ p with ANGULAR => handleAngularDiscontinuity fuel p error | LINEAR => Ret error end);
    let integral := fmul (integral_error_ p) (antiwindup_damping_ p) in
    let integral := fadd integral (fmul error elapsed_time_secs) in
    integral ← clip integral (integral_error_limit_ p);
    let derivative_error :=
      if flt (of_Z 0) elapsed_time_secs then fdiv (fsub error (last_error_ p)) elapsed_time_secs else of_Z 0 in
    let p := set_state p true integral error now in
    let output := fadd (fadd (fmul (kP_ p) error) (fmul (kI_ p) integral)) (fmul (kD_ p) derivative_error) in
    let output := std_min output (max_output_ p) in
    let output := std_max output (min_output_ p) in
    Ret (p, output).

(** ** Lemmas *)

(** Clipping gives a value in range, also for not-a-number. *)
Lemma clip_range v l : fle (of_Z 0) l = true →
  ∃ c, clip v l = Ret c ∧ fle (fopp l) c = true ∧ fle c l = true.
Proof.
  intros Hl. unfold clip. rewrite Hl. eexists. split; [done|].
  assert (is_nan l = false ∧ is_nan (fopp l) = false ∧ fle (fopp l) l = true) as (Hn & Hno & Hol).
  { destruct l as [[]|[]| |[] m e]; done. }
  unfold std_min, std_max. destruct (flt (fopp l) v) eqn:E1.
  - assert (is_nan v = false) as Hv by (by destruct v as [[]|[]| |[] m e], l as [[]|[]| |[] m' e']).
    destruct (flt v l) eqn:E2; split; auto using fle_refl, flt_fle.
  - destruct (flt (fopp l) l) eqn:E2; split; auto using fle_refl.
Qed.

(** A fixed point of the loop body above the bound. *)
Lemma reduce_down_stuck e fuel :
  flt TWO_PI e = true → fsub e TWO_PI = e → reduce_down fuel e = Undef.
Proof. intros H1 H2. induction fuel as [|fuel IH]; simpl; rewrite H1; [done|]. by rewrite H2. Qed.

Lemma angular_stuck p e fuel :
  type_ p = ANGULAR → flt TWO_PI e = true → fsub e TWO_PI = e →
  handleAngularDiscontinuity fuel p e = Undef.
Proof.
  intros Ht H1 H2. unfold handleAngularDiscontinuity. rewrite Ht. by rewrite (reduce_down_stuck e fuel H1 H2).
Qed.

Lemma compute_stuck fuel p now reference signal :
  type_ p = ANGULAR → flt TWO_PI (fsub reference signal) = true →
  fsub (fsub reference signal) TWO_PI = fsub reference signal →
  compute fuel p now reference signal = Undef.
Proof.
  intros Ht H1 H2. unfold compute, computeP.
  destruct (first_sample_computed_ p); cbn [negb type_ set_state]; rewrite Ht, angular_stuck by done; done.
Qed.

(** ** Reducing an angular error in binary64 *)

Lemma reduce_down_mono n m e r : reduce_down n e = Ret r → (n ≤ m)%nat → reduce_down m e = Ret r.
Proof.
  revert m e. induction n as [|n IH]; intros [|m] e; cbn [reduce_down]; destruct (flt TWO_PI e); try done; [lia|].
  intros Hr Hm. apply IH; [done|lia].
Qed.

Lemma reduce_up_mono n m e r : reduce_up n e = Ret r → (n ≤ m)%nat → reduce_up m e = Ret r.
Proof.
  revert m e. induction n as [|n IH]; intros [|m] e; cbn [reduce_up]; destruct (flt e (fopp TWO_PI)); try done; [lia|].
  intros Hr Hm. apply IH; [done|lia].
Qed.

Lemma reduce_down_ends n e :
  bounded53 e → (units e ≤ units TURN + Z.of_nat n * (5 * one))%Z →
  ∃ r, reduce_down n e = Ret r ∧ bounded53 r ∧ (units r ≤ units TURN)%Z ∧ (Z.min (units e) (- units TURN) ≤ units r)%Z.
Proof.
  destruct turn_units as (Ht & Hp & E & Hr).
  revert e. induction n as [|n IH]; intros e He Hf; cbn [reduce_down]; destruct (flt TWO_PI e) eqn:Elt;
    apply (flt_units_b TURN e _ Ht (proj1 He)) in Elt; cbv iota in Elt.
  - lia.
  - exists e. split_and!; [done|done|lia|lia].
  - destruct (turn_down e (units TURN) He ltac:(lia) Elt) as (H1 & H2 & H3).
    destruct (IH (fsub e TURN) H1 ltac:(lia)) as (r & Hw & Hb & H4 & H5).
    exists r. split_and!; [done|done|done|lia].
  - exists e. split_and!; [done|done|lia|lia].
Qed.

Lemma reduce_up_ends n e :
  bounded53 e → (units e ≤ units TURN)%Z → (- units TURN - Z.of_nat n * (5 * one) ≤ units e)%Z →
  ∃ r, reduce_up n e = Ret r ∧ bounded53 r ∧ (- units TURN ≤ units r ≤ units TURN)%Z.
Proof.
  destruct turn_units as (Ht & Hp & E & Hr). destruct (fopp_number TURN Ht) as [Hn En].
  revert e. induction n as [|n IH]; intros e He Hle Hf; cbn [reduce_up]; destruct (flt e (fopp TWO_PI)) eqn:Elt;
    apply (flt_units_b e (fopp TURN) _ (proj1 He) Hn) in Elt; rewrite En in Elt; cbv iota in Elt.
  - lia.
  - exists e. split_and!; [done|done|lia|lia].
  - destruct (turn_up e (units TURN) He ltac:(lia) Elt) as (H1 & H2 & H3).
    apply IH; [done|change (fadd e TWO_PI) with (fadd e TURN); lia|change (fadd e TWO_PI) with (fadd e TURN); lia].
  - exists e. split_and!; [done|done|lia|lia].
Qed.

(** The last correction brings the error within half a turn. *)
Lemma half_turn e :
  bounded53 e → (- units TURN ≤ units e ≤ units TURN)%Z →
  ∃ r, (if flt M_PI e then fsub e TWO_PI else if flt e (fopp M_PI) then fadd e TWO_PI else e) = r ∧
       number r ∧ (- units M_PI ≤ units r ≤ units M_PI)%Z.
Proof.
  intros He Hb. destruct turn_units as (Ht & Hp & E & Hr). destruct (fopp_number M_PI Hp) as [Hn En].
  eexists. split; [done|].
  destruct (flt M_PI e) eqn:E1; apply (flt_units_b M_PI e _ Hp (proj1 He)) in E1; cbv iota in E1.
  - destruct (turn_down e (units M_PI) He ltac:(lia) E1) as ([H1 _] & H2 & H3).
    change (fsub e TWO_PI) with (fsub e TURN). split; [done|lia].
  - destruct (flt e (fopp M_PI)) eqn:E2; apply (flt_units_b e (fopp M_PI) _ (proj1 He) Hn) in E2;
      rewrite En in E2; cbv iota in E2.
    + destruct (turn_up e (units M_PI) He ltac:(lia) E2) as ([H1 _] & H2 & H3).
      change (fadd e TWO_PI) with (fadd e TURN). split; [done|lia].
    + split; [apply He|lia].
Qed.

Lemma angular_ends p e :
  bounded53 e → ∃ r n, (∀ fuel, (n ≤ fuel)%nat → type_ p = ANGULAR → handleAngularDiscontinuity fuel p e = Ret r) ∧
    fle (fopp M_PI) r = true ∧ fle r M_PI = true.
Proof.
  intros He. destruct turn_units as (Ht & Hp & E & Hr). destruct (fopp_number M_PI Hp) as [Hn En].
  assert (0 < one)%Z as Hone by (by apply Z.pow_pos_nonneg).
  set (n := Z.to_nat (2 ^ 53)). assert (Z.of_nat n = 2 ^ 53)%Z as Hnz by (unfold n; apply Z2Nat.id; lia).
  destruct (reduce_down_ends n e He) as (b & Hb & Hbb & B1 & B2); [destruct He; lia|].
  destruct (reduce_up_ends n b Hbb B1) as (c & Hc & Hcb & C1); [destruct He; lia|].
  destruct (half_turn c Hcb C1) as (r & Er & Hrn & Hrb).
  exists r, n. split_and!.
  - intros fuel Hf Hty. unfold handleAngularDiscontinuity. rewrite Hty.
    rewrite (reduce_down_mono _ _ _ _ Hb Hf), bind_Ret, (reduce_up_mono _ _ _ _ Hc Hf), bind_Ret. by rewrite Er.
  - apply fle_units; [done|done|]. rewrite En. lia.
  - apply fle_units; [done|done|]. lia.
Qed.

Lemma fabs_nonneg l : is_nan l = false → fle (of_Z 0) (fabs l) = true.
Proof. by destruct l as [[]|[]| |[] m e]. Qed.

(** ** Properties *)

(** The output stays in range: from the second sample on, a controller whose limits are ordered
    returns a value between them, unless the control law itself gives not-a-number, and
    keeps its integral error within the anti-windup limit. *)
Theorem pid_output_in_range fuel p now reference signal p' out :
  first_sample_computed_ p = true → fle (min_output_ p) (max_output_ p) = true →
  compute fuel p now reference signal = Ret (p', out) →
  fle (fopp (integral_error_limit_ p)) (integral_error_ p') = true ∧
  fle (integral_error_ p') (integral_error_limit_ p) = true ∧
  (is_nan out = false → fle (min_output_ p) out = true ∧ fle out (max_output_ p) = true).
Proof.
  intros Hf Hl. unfold compute. rewrite Hf. simpl. intros Hc.
  apply bind_Ret_inv in Hc as (error & _ & Hc). apply bind_Ret_inv in Hc as (integral & Hclip & Hc).
  assert (fle (of_Z 0) (integral_error_limit_ p) = true) as Hlim.
  { unfold clip in Hclip. by destruct (fle (of_Z 0) (integral_error_limit_ p)). }
  destruct (clip_range (fadd (fmul (integral_error_ p) (antiwindup_damping_ p)) (fmul error (elapsed p now))) _ Hlim)
    as (c & Hc' & H1 & H2). rewrite Hc' in Hclip. injection Hclip as <-.
  injection Hc as <- <-. split_and!; [done|done|]. cbn [kP_ kI_ kD_ min_output_ max_output_ set_state].
  set (x := fadd _ _). intros Hn. apply clamp_range; [done|].
  destruct (is_nan x) eqn:E; [|done]. destruct (fle_nan _ _ Hl) as [Hln Hhn].
  assert (x = S754_nan) as Hx by (by destruct x). rewrite Hx in Hn. unfold std_min, std_max in Hn.
  assert (flt (max_output_ p) S754_nan = false) as E1 by (by destruct (max_output_ p) as [[]|[]| |[] ? ?]).
  rewrite E1 in Hn. assert (flt S754_nan (min_output_ p) = false) as E2 by done. by rewrite E2 in Hn.
Qed.

(** A linear controller always returns: [compute] has no undefined behaviour and its assertion
    holds whenever the limit of the integral error is a number set by [setAntiWindup] or
    the constructor. *)
Theorem pid_linear_returns fuel p now reference signal damping limit p0 :
  type_ p0 = LINEAR → is_nan limit = false → setAntiWindup p0 damping limit = Ret p →
  ∃ p' out, compute fuel p now reference signal = Ret (p', out) ∧ first_sample_computed_ p' = true.
Proof.
  intros Ht Hn Hs. unfold setAntiWindup in Hs. destruct (_ && _); [|done]. injection Hs as <-.
  unfold compute, computeP. cbn [first_sample_computed_ type_ set_state integral_error_limit_]. rewrite Ht.
  destruct (first_sample_computed_ p0); cbn [negb].
  - rewrite bind_Ret. unfold clip. rewrite fabs_nonneg, bind_Ret by done. by eexists _, _.
  - rewrite bind_Ret. by eexists _, _.
Qed.

(** C37. An angular controller returns too while the error is at most [2 ^ 53]: the loops that take off
    full turns end, rounding included, the error that is controlled is between minus and plus
    [M_PI], and [compute] returns. *)
Theorem pid_angular_returns p now reference signal :
  type_ p = ANGULAR → fle (of_Z 0) (integral_error_limit_ p) = true → valid (fsub reference signal) →
  fle (fopp (of_Z (2 ^ 53))) (fsub reference signal) = true → fle (fsub reference signal) (of_Z (2 ^ 53)) = true →
  ∃ error n, fle (fopp M_PI) error = true ∧ fle error M_PI = true ∧
    ∀ fuel, (n ≤ fuel)%nat →
      handleAngularDiscontinuity fuel p (fsub reference signal) = Ret error ∧
      ∃ p' out, compute fuel p now reference signal = Ret (p', out) ∧
        (if first_sample_computed_ p then last_error_ p' = error else out = fmul (kP_ p) error).
Proof.
  intros Ht Hl Hv H1 H2. pose proof (bounded53_fle _ Hv H1 H2) as He.
  destruct (angular_ends p _ He) as (error & n & Hd & E1 & E2).
  exists error, n. split_and!; [done|done|]. intros fuel Hf. split; [by apply Hd|].
  unfold compute, computeP. destruct (first_sample_computed_ p) eqn:Efs; cbn [negb].
  - rewrite Ht, Hd, bind_Ret by done. unfold clip. rewrite Hl, bind_Ret. by eexists _, _.
  - cbn [type_ set_state]. rewrite Ht.
    assert (∀ q, type_ q = ANGULAR → handleAngularDiscontinuity fuel q (fsub reference signal) = Ret error) as Hq.
    { intros q Hq. rewrite <-(Hd fuel Hf Ht). unfold handleAngularDiscontinuity. by rewrite Hq, Ht. }
    rewrite Hq, bind_Ret by (by cbn). by eexists _, _.
Qed.

(** An angular controller hangs on a large error: where subtracting [2 * M_PI] no longer changes
    the error, the reduction loop never ends, whatever the fuel. *)
Theorem pid_angular_hangs fuel p now :
  type_ p = ANGULAR →
  compute fuel p now (of_Z (2 ^ 60)) (of_Z 0) = Undef ∧
  compute fuel p now (S754_infinity false) (of_Z 0) = Undef.
Proof.
  intros Ht. split; apply compute_stuck; try done; vm_compute; reflexivity.
Qed.

(** The first output is not limited: with a limit of one, an error of one and a gain of ten the
    first computation returns ten. *)
Theorem pid_first_unlimited :
  ∃ p', compute 0 (setMaxOutput (init (of_Z 10) (of_Z 0) (of_Z 0) 0) (of_Z 1)) 5 (of_Z 1) (of_Z 0) = Ret (p', of_Z 10) ∧
        flt (max_output_ p') (of_Z 10) = true.
Proof. eexists. split; [vm_compute; reflexivity|vm_compute; reflexivity]. Qed.

(** An angular controller with a derivative gain kicks on its second sample: the first remembers the
    error before it is reduced, so with nothing changed in a second the derivative is a full turn. *)
Theorem pid_angular_kick :
  let p := setType (init (of_Z 0) (of_Z 0) (of_Z 1) 0) ANGULAR in
  ∃ p1 p2 out, compute 1 p 0 (of_Z 3) (of_Z (-3)) = Ret (p1, fopp (of_Z 0)) ∧
    compute 1 p1 1000000000 (of_Z 3) (of_Z (-3)) = Ret (p2, out) ∧ fdist out (fopp TWO_PI) = of_Z 0.
Proof. eexists _, _, _. split_and!; [vm_compute; reflexivity..|]. vm_compute. reflexivity. Qed.

(** ** Witnesses *)

Definition demo_pid : t :=
  mk (of_Z 2) (of_Z 1) (of_Z 1) (of_Z (-5)) (of_Z 5) (of_Z 1) (of_Z 3) LINEAR true (of_Z 0) (of_Z 0) 0.

Lemma pid_output_in_range_witness :
  ∃ p' out, compute 0 demo_pid 500000000 (of_Z 4) (of_Z 0) = Ret (p', out) ∧
            fle (of_Z (-5)) out = true ∧ fle out (of_Z 5) = true.
Proof.
  destruct (compute 0 demo_pid 500000000 (of_Z 4) (of_Z 0)) as [[p' out]|e|] eqn:E;
    [|vm_compute in E; discriminate E..].
  exists p', out. split; [reflexivity|].
  apply (pid_output_in_range 0 demo_pid 500000000 (of_Z 4) (of_Z 0) p' out).
  - reflexivity.
  - vm_compute. reflexivity.
  - exact E.
  - revert E. vm_compute. intros [= <- <-]. reflexivity.
Defined.

Lemma pid_linear_returns_witness :
  ∃ p' out, compute 0 (mk (of_Z 2) (of_Z 1) (of_Z 1) (of_Z (-5)) (of_Z 5) (of_Z 1) (of_Z 3) LINEAR true (of_Z 0) (of_Z 0) 0)
              7 (of_Z 4) (of_Z 0) = Ret (p', out) ∧ first_sample_computed_ p' = true.
Proof.
  apply (pid_linear_returns 0 _ 7 (of_Z 4) (of_Z 0) (of_Z 1) (of_Z 3) demo_pid); vm_compute; reflexivity.
Defined.

Lemma pid_angular_returns_witness :
  ∃ error n, ∀ fuel, (n ≤ fuel)%nat →
    handleAngularDiscontinuity fuel (setType demo_pid ANGULAR) (fsub (of_Z 100) (of_Z 1)) = Ret error.
Proof.
  destruct (pid_angular_returns (setType demo_pid ANGULAR) 7 (of_Z 100) (of_Z 1)) as (error & n & _ & _ & H);
    [reflexivity|vm_compute; reflexivity..|].
  exists error, n. intros fuel Hf. exact (proj1 (H fuel Hf)).
Defined.

Lemma pid_angular_hangs_witness :
  compute 1000 (setType demo_pid ANGULAR) 7 (of_Z (2 ^ 60)) (of_Z 0) = Undef.
Proof. apply (pid_angular_hangs 1000 (setType demo_pid ANGULAR) 7). reflexivity. Defined.

End PID.
