(* ===== verification/PidRounding.v ===== *)
(** * The control law of the PID controller (src/a17/utils/pid.cpp)

    What [PID::compute] promises, over the real numbers ([law]), and how far the [double] it
    returns is from that.  The error is dominated by the elapsed time, which the clock's
    integer nanoseconds reach as a [float]. *)

From Stdlib Require Import SpecFloat Reals Lra Lia.
From S2P Require Import Prelude Floats FloatExact Rounding Quotients RealValue Pid.

Module PidRounding.
Import PID.
Local Open Scope R_scope.

(** ** The law *)

Definition clip_real (value limit : R) : R := Rmin limit (Rmax (- limit) value).

Section Law.
Context (p : t) (e secs : R).

Definition law_integral : R :=
  clip_real (val (integral_error_ p) * val (antiwindup_damping_ p) + e * secs) (val (integral_error_limit_ p)).

Definition law_derivative : R := if Rlt_dec 0 secs then (e - val (last_error_ p)) / secs else 0.

(** The output for the controlled error [e] and the elapsed seconds [secs]. *)
Definition law : R :=
  Rmax (Rmin (val (kP_ p) * e + val (kI_ p) * law_integral + val (kD_ p) * law_derivative) (val (max_output_ p)))
       (val (min_output_ p)).

(** The terms in absolute value. *)
Definition integral_size : R := Rabs (val (integral_error_ p) * val (antiwindup_damping_ p)) + Rabs e * secs.

Definition derivative_size : R := if Rlt_dec 0 secs then (Rabs e + Rabs (val (last_error_ p))) / secs else 0.

Definition size : R :=
  Rabs (val (kP_ p) * e) + Rabs (val (kI_ p)) * integral_size + Rabs (val (kD_ p)) * derivative_size.

(** No term comes near to overflow. *)
Definition moderate : Prop :=
  Rabs e + Rabs (val (last_error_ p)) <= ceiling ∧ integral_size <= ceiling ∧ derivative_size <= ceiling ∧
  size <= ceiling ∧ Rabs (val (kI_ p)) <= ceiling ∧ Rabs (val (kD_ p)) <= ceiling.

End Law.

(** All fields are finite. *)
Definition numbers (p : t) : Prop :=
  number (kP_ p) ∧ number (kI_ p) ∧ number (kD_ p) ∧ number (min_output_ p) ∧ number (max_output_ p) ∧
  number (antiwindup_damping_ p) ∧ number (integral_error_limit_ p) ∧ number (integral_error_ p) ∧
  number (last_error_ p).

#[local] Opaque units one epsilon smallest ceiling.

(** ** Comparisons and clipping *)

Lemma std_min_val x y : number x → number y → number (std_min x y) ∧ val (std_min x y) = Rmin (val x) (val y).
Proof.
  intros Hx Hy. unfold std_min. destruct (flt y x) eqn:E; apply (flt_units_b y x _ Hy Hx) in E; cbv iota in E.
  - apply val_lt in E. split; [done|]. rewrite Rmin_right; lra.
  - split; [done|]. rewrite Rmin_left; [done|]. apply Rnot_lt_le. rewrite <-val_lt. lia.
Qed.

Lemma std_max_val x y : number x → number y → number (std_max x y) ∧ val (std_max x y) = Rmax (val x) (val y).
Proof.
  intros Hx Hy. unfold std_max. destruct (flt x y) eqn:E; apply (flt_units_b x y _ Hx Hy) in E; cbv iota in E.
  - apply val_lt in E. split; [done|]. rewrite Rmax_right; lra.
  - split; [done|]. rewrite Rmax_left; [done|]. apply Rnot_lt_le. rewrite <-val_lt. lia.
Qed.

Lemma zero_val : number (of_Z 0) ∧ val (of_Z 0) = 0.
Proof. assert (number (of_Z 0)) by (by split). split; [done|]. rewrite val_rval by done. done. Qed.

Lemma clip_val v l :
  number v → number l → fle (of_Z 0) l = true →
  ∃ c, clip v l = Ret c ∧ number c ∧ val c = clip_real (val v) (val l) ∧ 0 <= val l.
Proof.
  intros Hv Hl H0. unfold clip. rewrite H0. destruct (fopp_val l Hl) as [Ho Eo].
  destruct (std_max_val (fopp l) v Ho Hv) as [Hm Em]. destruct (std_min_val l _ Hl Hm) as [Hc Ec].
  eexists. split_and!; [done|done|by rewrite Ec, Em, Eo|]. destruct zero_val as [Hz Ez]. rewrite <-Ez.
  apply Rnot_lt_le. rewrite <-val_lt. apply (fle_units _ _ Hz Hl) in H0. lia.
Qed.

Lemma Rmin_near a b l : Rabs (Rmin a l - Rmin b l) <= Rabs (a - b).
Proof. unfold Rmin, Rabs. repeat case_decide || destruct (Rle_dec _ _); repeat destruct (Rcase_abs _); lra. Qed.

Lemma Rmax_near a b l : Rabs (Rmax a l - Rmax b l) <= Rabs (a - b).
Proof. unfold Rmax, Rabs. repeat destruct (Rle_dec _ _); repeat destruct (Rcase_abs _); lra. Qed.

(** Clipping does not move values apart, nor away from zero. *)
Lemma clip_near a b l : Rabs (clip_real a l - clip_real b l) <= Rabs (a - b).
Proof.
  unfold clip_real. rewrite !(Rmin_comm l), !(Rmax_comm (- l)). etrans; [apply Rmin_near|apply Rmax_near].
Qed.

Lemma clip_size a l : 0 <= l → Rabs (clip_real a l) <= Rabs a.
Proof.
  intros Hl. unfold clip_real, Rmin, Rmax, Rabs. repeat destruct (Rle_dec _ _); repeat destruct (Rcase_abs _); lra.
Qed.

(** The error of a linear controller. *)
Lemma linear_error reference signal :
  number reference → number signal → Rabs (val reference - val signal) <= ceiling →
  number (fsub reference signal) ∧
  Rabs (val (fsub reference signal) - (val reference - val signal)) <= epsilon * Rabs (val reference - val signal).
Proof. intros Hr Hs Hb. pose proof ceiling_ge. apply fsub_val; [done|done|lra]. Qed.

(** ** The elapsed time *)

(** The relative error of the elapsed time. *)
Definition clock_error : R := 1 / 4194304.

Definition seconds (p : t) (now : Z) : R := IZR (now - last_timepoint_ p) / 1000000000.

Lemma p2_m24 : p2 (-24) = 1 / 16777216.
Proof. transitivity (/ 2 ^ 24); [apply (powerRZ_neg' 2 24)|lra]. Qed.

Lemma billion : format_number 24 128 (of_Z32 1000000000) ∧ rval (of_Z32 1000000000) = 1000000000.
Proof.
  assert (of_Z32 1000000000 = S754_finite false 15625000 6) as -> by (by vm_compute).
  split; [by split|]. cbn [rval cond_Zopp]. change (p2 6) with (2 ^ 6). lra.
Qed.

Lemma nanoseconds_near d :
  (0 < d < 2 ^ 62)%Z → format_number 24 128 (of_Z32 d) ∧ Rabs (rval (of_Z32 d) - IZR d) <= 1 / 16777216 * IZR d.
Proof.
  intros Hd. assert (1 <= IZR d) as H1 by (apply (IZR_le 1); lia).
  destruct (normalize_real 24 128 ltac:(lia) ltac:(lia) d 0) as [Hf Hr].
  { change (p2 0) with 1. rewrite Rmult_1_r, <-p2_IZR by lia. apply IZR_lt. lia. }
  fold (of_Z32 d) in Hf, Hr. split; [done|]. change (p2 0) with 1 in Hr. rewrite Rmult_1_r in Hr.
  apply (rounded_relative _ _ _ _ 0) in Hr; [|change (p2 0) with 1; rewrite Rabs_pos_eq; lra|by vm_compute].
  change (- (24))%Z with (-24)%Z in Hr. rewrite p2_m24, (Rabs_pos_eq (IZR d)) in Hr by lra. done.
Qed.

(** Widening a number of [float] rounds nothing away that matters. *)
Lemma widen_val x :
  format_number 24 128 x → Rabs (rval x) < p2 200 → rval x = 0 ∨ p2 (-200) <= Rabs (rval x) →
  number (widen x) ∧ Rabs (val (widen x) - rval x) <= epsilon * Rabs (rval x).
Proof.
  intros [Hv Hx] Hb Hlow. destruct x as [s|s| |s m e]; try done.
  - assert (number (S754_zero s)) as Hz by (by split). split; [done|]. cbn [widen]. rewrite val_rval by done. cbn [rval].
    rewrite Rminus_diag, Rabs_R0. lra.
  - destruct Hlow as [H0|Hlow].
    { cbn [rval] in H0. rewrite cond_Zopp_IZR in H0. pose proof (p2_pos e). assert (0 < IZR (Z.pos m)) by (by apply IZR_lt).
      destruct s; cbn [sign] in H0; nra. }
    cbn [rval] in Hb, Hlow. rewrite cond_Zopp_IZR, Rmult_assoc, Rabs_sign in Hb, Hlow.
    assert (0 < IZR (Z.pos m) * p2 e) as Hpos by (apply Rmult_lt_0_compat; [by apply IZR_lt|apply p2_pos]).
    rewrite Rabs_pos_eq in Hb, Hlow by lra.
    assert (widen (S754_finite s m e) = binary_round 53 1024 s m e) as -> by (by destruct s).
    destruct (binary_round_real 53 1024 ltac:(lia) ltac:(lia) s m e) as [Hn Hr].
    { eapply Rlt_le_trans; [exact Hb|]. by apply p2_le. }
    split; [done|]. rewrite val_rval by done. apply (rounded_relative _ _ _ _ (-200)) in Hr; [|by rewrite Rabs_sign, Rabs_pos_eq; [|lra]|by vm_compute].
    change (- (53))%Z with (-53)%Z in Hr. rewrite epsilon_p2 in Hr. cbn [rval]. by rewrite cond_Zopp_IZR, Rmult_assoc.
Qed.

(** The elapsed time in seconds is accurate to four in sixteen million. *)
Lemma elapsed_near p now :
  (0 <= now - last_timepoint_ p < 2 ^ 62)%Z →
  number (elapsed p now) ∧ Rabs (val (elapsed p now) - seconds p now) <= clock_error * seconds p now.
Proof.
  intros Hd. unfold elapsed, seconds, clock_error. set (d := (now - last_timepoint_ p)%Z) in *.
  destruct (Z.eq_dec d 0%Z) as [->|Hne].
  { assert (widen (fdiv32 (of_Z32 0) (of_Z32 1000000000)) = of_Z 0) as -> by (by vm_compute).
    destruct zero_val as [Hz ->]. split; [done|]. unfold Rdiv. rewrite Rmult_0_l, Rminus_diag, Rabs_R0. lra. }
  destruct (nanoseconds_near d) as [Hf Hn]; [lia|]. destruct billion as [Hg Eg].
  assert (1 <= IZR d) as H1 by (apply (IZR_le 1); lia). assert (IZR d <= 4611686018427387904) as H2.
  { apply (IZR_le _ 4611686018427387904). change (2 ^ 62)%Z with 4611686018427387904%Z in Hd. lia. }
  set (a := rval (of_Z32 d)) in *. assert (Rabs (a - IZR d) <= 1 / 16777216 * IZR d) as Ha by done.
  assert (1 / 2 <= a <= 2 * 4611686018427387904) as Hab by (unfold Rabs in Ha; destruct (Rcase_abs _); lra).
  assert (p2 (-40) <= a / 1000000000 < p2 40) as [Hl Hh].
  { assert (p2 40 = 1099511627776) as -> by (change (p2 40) with (2 ^ 40); lra).
    assert (p2 (-40) = 1 / 1099511627776) as -> by (transitivity (/ 2 ^ 40); [apply (powerRZ_neg' 2 40)|lra]). lra. }
  assert (Rabs (a / 1000000000) = a / 1000000000) as Eab by (apply Rabs_pos_eq; lra).
  destruct (SFdiv_real 24 128 ltac:(lia) ltac:(lia) (of_Z32 d) (of_Z32 1000000000) Hf Hg) as [Hq Hr];
    rewrite Eg in *; [lra|fold a; rewrite Eab; eapply Rlt_le_trans; [exact Hh|by apply p2_le]|].
  fold (fdiv32 (of_Z32 d) (of_Z32 1000000000)) in Hq, Hr. fold a in Hr.
  apply (rounded_relative _ _ _ _ (-40)) in Hr; [|by rewrite Eab|by vm_compute].
  change (- (24))%Z with (-24)%Z in Hr. rewrite p2_m24, Eab in Hr. set (q := rval (fdiv32 _ _)) in *.
  assert (1 / 2 * (a / 1000000000) <= q <= 2 * (a / 1000000000)) as [Hq1 Hq2] by (unfold Rabs in Hr; destruct (Rcase_abs _); lra).
  assert (Rabs q = q) as Eq by (apply Rabs_pos_eq; lra).
  assert (p2 (-41) = p2 (-40) * (1 / 2)) as E41.
  { change (-41)%Z with (-40 + -1)%Z. rewrite p2_add. f_equal. change (p2 (-1)) with (/ (2 * 1)). lra. }
  destruct (widen_val _ Hq) as [Hw Ew]; fold q; rewrite ?Eq.
  - pose proof (p2_le 41 200 ltac:(lia)). change 41%Z with (40 + 1)%Z in *. rewrite p2_add in *.
    change (p2 1) with (2 * 1) in *. lra.
  - right. etrans; [by apply (p2_le _ (-41))|]. lra.
  - split; [done|]. fold q in Ew. rewrite Eq, epsilon_value in Ew. set (w := val _) in *.
    unfold Rabs in *. repeat destruct (Rcase_abs _); lra.
Qed.

(** ** The terms *)

Ltac triangle := unfold Rabs in *; repeat destruct (Rcase_abs _); lra.

(** A product, a sum and their errors, with numerals for the relative ones. *)
Lemma fmul_near x y B :
  number x → number y → Rabs (val x * val y) <= B → B <= 16 * ceiling →
  number (fmul x y) ∧ Rabs (val (fmul x y) - val x * val y) <= 1 / 9007199254740992 * B + smallest / 2.
Proof.
  intros Hx Hy Hb HB. destruct (fmul_val x y Hx Hy) as [Hn He]; [lra|]. split; [done|].
  rewrite epsilon_value in He. lra.
Qed.

Lemma fadd_near_val x y B :
  number x → number y → Rabs (val x + val y) <= B → B <= 16 * ceiling →
  number (fadd x y) ∧ Rabs (val (fadd x y) - (val x + val y)) <= 1 / 9007199254740992 * B.
Proof.
  intros Hx Hy Hb HB. destruct (fadd_val x y Hx Hy) as [Hn He]; [lra|]. split; [done|].
  rewrite epsilon_value in He. lra.
Qed.

Lemma near_size v w b c : Rabs v <= b → Rabs (w - v) <= c → Rabs w <= b + c.
Proof. intros. replace w with (v + (w - v)) by lra. pose proof (Rabs_triang v (w - v)). lra. Qed.

Lemma near_trans u v w b c : Rabs (v - u) <= b → Rabs (w - v) <= c → Rabs (w - u) <= b + c.
Proof. intros. replace (w - u) with (v - u + (w - v)) by lra. pose proof (Rabs_triang (v - u) (w - v)). lra. Qed.

Lemma near_sum u v a b c d : Rabs (v - u) <= c → Rabs (b - a) <= d → Rabs (v + b - (u + a)) <= c + d.
Proof. intros. replace (v + b - (u + a)) with (v - u + (b - a)) by lra. pose proof (Rabs_triang (v - u) (b - a)). lra. Qed.

Lemma small_sizes : smallest * ceiling <= 1 ∧ smallest <= 1 / 1125899906842624 ∧ 0 < smallest ∧ 1 <= ceiling.
Proof.
  destruct smallest_bounds as [Hs Hs']. pose proof ceiling_ge. pose proof ceiling_smallest. done.
Qed.

(** The integral before it is clipped. *)
Lemma integral_near i a e T secs :
  number i → number a → number e → number T → 0 <= secs → Rabs (val T - secs) <= clock_error * secs →
  let B := Rabs (val i * val a) + Rabs (val e) * secs in
  B <= ceiling →
  let s := fadd (fmul i a) (fmul e T) in
  number s ∧ Rabs (val s - (val i * val a + val e * secs)) <= 2 * clock_error * B + 2 * smallest.
Proof.
  intros Hi Ha He HT H0 HTs B HB s. destruct small_sizes as (_ & Hs' & Hs & Hc). unfold clock_error in *.
  set (x := Rabs (val i * val a)) in *. set (y := Rabs (val e) * secs) in *.
  pose proof (Rabs_pos (val i * val a)) as Hx. fold x in Hx.
  pose proof (Rmult_le_pos _ _ (Rabs_pos (val e)) H0) as Hy. fold y in Hy.
  assert (Rabs (val e * val T - val e * secs) <= 1 / 4194304 * y) as HeT.
  { rewrite <-Rmult_minus_distr_l, Rabs_mult. unfold y. rewrite <-Rmult_assoc, (Rmult_comm (1 / 4194304)), Rmult_assoc.
    apply Rmult_le_compat_l; [apply Rabs_pos|done]. }
  assert (Rabs (val e * secs) = y) as Ey by (unfold y; by rewrite Rabs_mult, (Rabs_pos_eq secs)).
  pose proof (near_size _ _ _ _ (Req_le _ _ Ey) HeT) as HeTs.
  destruct (fmul_near i a x Hi Ha) as [Hn1 E1]; [apply Rle_refl|unfold B in *; lra|].
  destruct (fmul_near e T (2 * y) He HT) as [Hn2 E2]; [lra|unfold B in *; lra|].
  pose proof (near_size _ _ x _ (Rle_refl _) E1) as S1. pose proof (near_size _ _ _ _ HeTs E2) as S2.
  destruct (fadd_near_val (fmul i a) (fmul e T) (4 * B + 2 * smallest) Hn1 Hn2) as [Hn3 E3].
  { etrans; [apply Rabs_triang|]. unfold B. lra. }
  { lra. }
  split; [done|]. pose proof (near_trans _ _ _ _ _ (near_sum _ _ _ _ _ _ E1 (near_trans _ _ _ _ _ HeT E2)) E3) as Hf.
  etrans; [exact Hf|]. unfold B. lra.
Qed.

(** The derivative. *)
Lemma derivative_near e l T secs :
  number e → number l → number T → 0 < secs → Rabs (val T - secs) <= clock_error * secs →
  let B := (Rabs (val e) + Rabs (val l)) / secs in
  Rabs (val e) + Rabs (val l) <= ceiling → B <= ceiling →
  let d := fdiv (fsub e l) T in
  number d ∧ Rabs (val d - (val e - val l) / secs) <= 2 * clock_error * B + smallest.
Proof.
  intros He Hl HT H0 HTs B HS HB d. destruct small_sizes as (_ & Hs' & Hs & Hc). unfold clock_error in *.
  set (S := Rabs (val e) + Rabs (val l)) in *.
  assert (Rabs (val e - val l) <= S) as Hel.
  { unfold Rminus. etrans; [apply Rabs_triang|]. rewrite Rabs_Ropp. apply Rle_refl. }
  destruct (fsub_val e l He Hl) as [Hn1 E1]; [lra|]. rewrite epsilon_value in E1.
  assert (0 <= S) as HS0 by (pose proof (Rabs_pos (val e - val l)); lra).
  assert (3 / 4 * secs <= val T) as HTlow by triangle. assert (0 < val T) as HTpos by lra.
  set (f := val (fsub e l)) in *.
  assert (S = B * secs) as ES by (unfold B; field; lra).
  assert (0 <= B) as HB0 by (unfold B; apply Rmult_le_pos; [done|by apply Rlt_le, Rinv_0_lt_compat]).
  assert (Rabs (f - (val e - val l)) <= 1 / 9007199254740992 * S) as Ef by lra.
  assert (Rabs (f / val T - (val e - val l) / secs) <= 1.5 * (1 / 4194304) * B) as Eq.
  { replace (f / val T - (val e - val l) / secs)
      with ((f - (val e - val l) - (val e - val l) / secs * (val T - secs)) * / val T) by (field; lra).
    rewrite Rabs_mult, (Rabs_pos_eq (/ val T)) by (by apply Rlt_le, Rinv_0_lt_compat).
    apply (Rmult_le_reg_r (val T)); [done|]. rewrite Rmult_assoc, Rinv_l, Rmult_1_r by lra.
    assert (Rabs ((val e - val l) / secs * (val T - secs)) <= B * (1 / 4194304 * secs)) as Hm.
    { rewrite Rabs_mult. apply Rmult_le_compat; [apply Rabs_pos|apply Rabs_pos| |done].
      unfold Rdiv. rewrite Rabs_mult, (Rabs_pos_eq (/ secs)) by (by apply Rlt_le, Rinv_0_lt_compat).
      apply Rmult_le_compat_r; [by apply Rlt_le, Rinv_0_lt_compat|done]. }
    unfold Rminus at 1. etrans; [apply Rabs_triang|]. rewrite Rabs_Ropp. rewrite ES in Ef.
    assert (B * (3 / 4 * secs) <= B * val T) by (by apply Rmult_le_compat_l). lra. }
  assert (Rabs ((val e - val l) / secs) <= B) as Hw.
  { unfold Rdiv. rewrite Rabs_mult, (Rabs_pos_eq (/ secs)) by (by apply Rlt_le, Rinv_0_lt_compat).
    apply Rmult_le_compat_r; [by apply Rlt_le, Rinv_0_lt_compat|done]. }
  pose proof (near_size _ _ _ _ Hw Eq) as Hq.
  destruct (fdiv_val (fsub e l) T Hn1 HT) as [Hn2 E2]; [lra|fold f; lra|]. fold f in E2. rewrite epsilon_value in E2.
  split; [done|]. etrans; [apply (near_trans _ _ _ _ _ Eq E2)|]. lra.
Qed.

(** A gain times a term that is known up to an error. *)
Lemma gain_near k x u B b :
  number k → number x → Rabs u <= B → Rabs (val x - u) <= 2 * clock_error * B + b * smallest → 0 <= b <= 2 →
  Rabs (val k) <= ceiling → Rabs (val k) * B <= ceiling →
  let K := Rabs (val k) in
  number (fmul k x) ∧
  Rabs (val (fmul k x) - val k * u) <= 9 / 4 * clock_error * (K * B) + 3 * smallest * K + smallest / 2.
Proof.
  intros Hk Hx Hu Hxu Hb Hkc HkB K. destruct small_sizes as (Hsc & Hs' & Hs & Hc). unfold clock_error in *.
  assert (0 <= K) as HK by apply Rabs_pos. assert (0 <= B) as HB by (pose proof (Rabs_pos u); lra).
  assert (0 <= K * B) as HKB by (by apply Rmult_le_pos).
  assert (0 <= smallest * K <= 1) as [Hg0 Hg1].
  { split; [apply Rmult_le_pos; lra|]. etrans; [|exact Hsc]. apply Rmult_le_compat_l; [lra|done]. }
  assert (b * (smallest * K) <= 2 * (smallest * K)) as Hbs by (apply Rmult_le_compat_r; lra).
  assert (Rabs (val k * val x - val k * u) <= 2 * (1 / 4194304) * (K * B) + 2 * (smallest * K)) as E0.
  { rewrite <-Rmult_minus_distr_l, Rabs_mult. fold K.
    etrans; [apply Rmult_le_compat_l; [done|exact Hxu]|]. lra. }
  assert (Rabs (val k * u) <= K * B) as Hku by (rewrite Rabs_mult; by apply Rmult_le_compat_l).
  pose proof (near_size _ _ _ _ Hku E0) as Hkx.
  destruct (fmul_near k x (2 * (K * B) + 2 * (smallest * K)) Hk Hx) as [Hn E]; [lra|fold K in HkB; lra|].
  split; [done|]. etrans; [apply (near_trans _ _ _ _ _ E0 E)|]. lra.
Qed.

(** The sum of the three terms. *)
Lemma output_near kp ki kd e i d ui ud I D :
  number kp → number ki → number kd → number e → number i → number d →
  Rabs ui <= I → Rabs (val i - ui) <= 2 * clock_error * I + 2 * smallest →
  Rabs ud <= D → Rabs (val d - ud) <= 2 * clock_error * D + 1 * smallest →
  Rabs (val ki) <= ceiling → Rabs (val kd) <= ceiling →
  let S := Rabs (val kp * val e) + Rabs (val ki) * I + Rabs (val kd) * D in
  S <= ceiling →
  let y := fadd (fadd (fmul kp e) (fmul ki i)) (fmul kd d) in
  number y ∧
  Rabs (val y - (val kp * val e + val ki * ui + val kd * ud))
    <= 3 * clock_error * S + 4 * smallest * (1 + Rabs (val ki) + Rabs (val kd)).
Proof.
  intros Hkp Hki Hkd He Hi Hd Hui Ei Hud Ed Hkic Hkdc S HS y. destruct small_sizes as (Hsc & Hs' & Hs & Hc).
  set (a := Rabs (val kp * val e)) in *. set (b := Rabs (val ki) * I) in *. set (c := Rabs (val kd) * D) in *.
  assert (0 <= a) as Ha by apply Rabs_pos.
  assert (0 <= b) as Hb by (apply Rmult_le_pos; [apply Rabs_pos|pose proof (Rabs_pos ui); lra]).
  assert (0 <= c) as Hc0 by (apply Rmult_le_pos; [apply Rabs_pos|pose proof (Rabs_pos ud); lra]).
  destruct (fmul_near kp e a Hkp He (Rle_refl _)) as [N1 E1]; [unfold S in *; lra|].
  destruct (gain_near ki i ui I 2 Hki Hi Hui Ei) as [N2 E2]; [lra|done|fold b; unfold S in *; lra|]. fold b in E2.
  destruct (gain_near kd d ud D 1 Hkd Hd Hud Ed) as [N3 E3]; [lra|done|fold c; unfold S in *; lra|]. fold c in E3.
  assert (∀ k, Rabs k <= ceiling → 0 <= smallest * Rabs k <= 1) as Hk.
  { intros k Hk. split; [apply Rmult_le_pos; [lra|apply Rabs_pos]|]. etrans; [|exact Hsc]. apply Rmult_le_compat_l; [lra|done]. }
  pose proof (Hk _ Hkic) as G2. pose proof (Hk _ Hkdc) as G3. clear Hk. unfold clock_error in *.
  assert (Rabs (val ki * ui) <= b) as U2 by (rewrite Rabs_mult; apply Rmult_le_compat_l; [apply Rabs_pos|done]).
  assert (Rabs (val kd * ud) <= c) as U3 by (rewrite Rabs_mult; apply Rmult_le_compat_l; [apply Rabs_pos|done]).
  pose proof (near_sum _ _ _ _ _ _ E1 E2) as E12.
  pose proof (Rabs_triang (val kp * val e) (val ki * ui)) as T12. fold a in T12.
  assert (Rabs (val kp * val e + val ki * ui) <= a + b) as V12 by lra.
  pose proof (near_size _ _ _ _ V12 E12) as S12.
  destruct (fadd_near_val _ _ _ N1 N2 S12) as [N4 E4]; [unfold S in *; lra|].
  pose proof (near_trans _ _ _ _ _ E12 E4) as E124. pose proof (near_sum _ _ _ _ _ _ E124 E3) as E123.
  pose proof (Rabs_triang (val kp * val e + val ki * ui) (val kd * ud)) as T123.
  assert (Rabs (val kp * val e + val ki * ui + val kd * ud) <= a + b + c) as V123 by lra.
  pose proof (near_size _ _ _ _ V123 E123) as S123.
  destruct (fadd_near_val _ _ _ N4 N3 S123) as [N5 E5]; [unfold S in *; lra|].
  split; [done|]. etrans; [apply (near_trans _ _ _ _ _ E123 E5)|]. unfold S. lra.
Qed.

(** The derivative is zero where no time has passed. *)
Lemma derivative_term p error T secs :
  number (last_error_ p) → number error → number T → 0 <= secs → Rabs (val T - secs) <= clock_error * secs →
  let e := val error in
  Rabs e + Rabs (val (last_error_ p)) <= ceiling → derivative_size p e secs <= ceiling →
  let d := if flt (of_Z 0) T then fdiv (fsub error (last_error_ p)) T else of_Z 0 in
  number d ∧ Rabs (law_derivative p e secs) <= derivative_size p e secs ∧
  Rabs (val d - law_derivative p e secs) <= 2 * clock_error * derivative_size p e secs + 1 * smallest.
Proof.
  intros NL He HT H0 ET e HS HD. destruct zero_val as [N0 E0]. unfold law_derivative, derivative_size in *.
  assert (0 < val T ↔ 0 < secs) as HTs by (unfold clock_error in ET; split; intros; triangle).
  destruct small_sizes as (_ & _ & Hs & _).
  destruct (flt (of_Z 0) T) eqn:E; apply (flt_units_b _ _ _ N0 HT) in E; cbv iota zeta in E |- *;
    destruct (Rlt_dec 0 secs) as [Hp|Hn].
  - destruct (derivative_near error (last_error_ p) T secs He NL HT Hp ET HS HD) as [Hd Ed].
    split; [done|]. split; [|fold e in Ed; lra]. unfold Rdiv. rewrite Rabs_mult, (Rabs_pos_eq (/ secs)) by (by apply Rlt_le, Rinv_0_lt_compat).
    apply Rmult_le_compat_r; [by apply Rlt_le, Rinv_0_lt_compat|]. unfold Rminus. etrans; [apply Rabs_triang|].
    rewrite Rabs_Ropp. apply Rle_refl.
  - apply val_lt in E. rewrite E0 in E. by apply HTs in E.
  - apply HTs in Hp. rewrite <-E0 in Hp. apply val_lt in Hp. lia.
  - split; [done|]. rewrite E0, Rminus_diag, Rabs_R0. split; lra.
Qed.

(** ** The controller *)

(** C33. The controller computes the documented law, as exactly as its clock allows: from the second
    sample on, the new integral is the clipped sum of the damped integral and the error times the
    elapsed seconds, and the output the sum of the proportional, integral and derivative terms
    between its limits.  The [double] results differ from these real numbers by at most two
    and three parts in four million of the terms' sizes, from the [float] the elapsed time is
    converted through, and a few of the smallest positive numbers, from underflow. *)
Theorem pid_control_law fuel p now reference signal error :
  numbers p → fle (of_Z 0) (integral_error_limit_ p) = true → first_sample_computed_ p = true →
  (0 <= now - last_timepoint_ p < 2 ^ 62)%Z → number error →
  (match type_ p with
   | ANGULAR => handleAngularDiscontinuity fuel p (fsub reference signal)
   | LINEAR => Ret (fsub reference signal)
   end) = Ret error →
  let e := val error in
  let secs := seconds p now in
  moderate p e secs →
  ∃ p' out, compute fuel p now reference signal = Ret (p', out) ∧ numbers p' ∧ number out ∧
    last_error_ p' = error ∧ last_timepoint_ p' = now ∧
    Rabs (val (integral_error_ p') - law_integral p e secs) <= 2 * clock_error * integral_size p e secs + 2 * smallest ∧
    Rabs (val out - law p e secs)
      <= 3 * clock_error * size p e secs + 4 * smallest * (1 + Rabs (val (kI_ p)) + Rabs (val (kD_ p))).
Proof.
  intros Hp Hl Hf Hd He Herr e secs (M1 & M2 & M3 & M4 & M5 & M6).
  destruct Hp as (Np & Ni & Nd & Nmin & Nmax & Na & Nl & NI & NL).
  destruct (elapsed_near p now Hd) as [HT ET]. fold secs in ET.
  assert (0 <= secs) as Hs0 by (unfold secs, seconds; apply Rmult_le_pos; [apply (IZR_le 0); lia|lra]).
  destruct (integral_near _ _ _ _ secs NI Na He HT Hs0 ET M2) as [Ns Es].
  destruct (clip_val _ _ Ns Nl Hl) as (c & Hc & Nc & Ec & Hl0).
  set (s := fadd _ _) in *.
  assert (Rabs (val c - law_integral p e secs) <= 2 * clock_error * integral_size p e secs + 2 * smallest) as Eci.
  { rewrite Ec. unfold law_integral. etrans; [apply clip_near|exact Es]. }
  assert (Rabs (law_integral p e secs) <= integral_size p e secs) as Sci.
  { etrans; [by apply clip_size|]. unfold integral_size. etrans; [apply Rabs_triang|].
    rewrite (Rabs_mult e secs), (Rabs_pos_eq secs) by done. apply Rle_refl. }
  set (d := if flt (of_Z 0) (elapsed p now) then fdiv (fsub error (last_error_ p)) (elapsed p now) else of_Z 0).
  assert (number d ∧ Rabs (law_derivative p e secs) <= derivative_size p e secs ∧
          Rabs (val d - law_derivative p e secs) <= 2 * clock_error * derivative_size p e secs + 1 * smallest)
    as (Ndd & Sd & Ed).
  { by apply derivative_term. }
  destruct (output_near _ _ _ _ _ _ _ _ _ _ Np Ni Nd He Nc Ndd Sci Eci Sd Ed M5 M6 M4) as [No Eo].
  set (y := fadd _ (fmul (kD_ p) d)) in *.
  destruct (std_min_val y (max_output_ p) No Nmax) as [N1 E1].
  destruct (std_max_val _ (min_output_ p) N1 Nmin) as [N2 E2].
  assert (compute fuel p now reference signal
          = Ret (set_state p true c error now, std_max (std_min y (max_output_ p)) (min_output_ p))) as ->.
  { unfold compute. rewrite Hf. cbn [negb].
    cbv zeta. rewrite Herr, bind_Ret. unfold s in Hc. by rewrite Hc, bind_Ret. }
  eexists _, _. split; [done|]. split_and!; [unfold numbers; cbn; by split_and!|done|done|done|exact Eci|].
  rewrite E2, E1. unfold law. etrans; [apply Rmax_near|]. etrans; [apply Rmin_near|exact Eo].
Qed.

Lemma val_integer x z : units x = (z * one)%Z → val x = IZR z.
Proof. intros E. unfold val. rewrite E, mult_IZR, Rmult_assoc, (Rmult_comm (IZR one)), smallest_one. lra. Qed.

Lemma demo_values :
  numbers demo_pid ∧ val (kP_ demo_pid) = 2 ∧ val (kI_ demo_pid) = 1 ∧ val (kD_ demo_pid) = 1 ∧
  val (min_output_ demo_pid) = -5 ∧ val (max_output_ demo_pid) = 5 ∧ val (antiwindup_damping_ demo_pid) = 1 ∧
  val (integral_error_limit_ demo_pid) = 3 ∧ val (integral_error_ demo_pid) = 0 ∧ val (last_error_ demo_pid) = 0 ∧
  val (of_Z 1) = 1 ∧ seconds demo_pid 500000000 = 1 / 2.
Proof.
  split_and!; try (by split); try (apply val_integer; by vm_compute).
  unfold seconds.
  change (500000000 - last_timepoint_ demo_pid)%Z with 500000000%Z. lra.
Qed.

Lemma demo_sizes :
  moderate demo_pid 1 (1 / 2) ∧ size demo_pid 1 (1 / 2) = 4.5 ∧ law demo_pid 1 (1 / 2) = 4.5.
Proof.
  destruct demo_values as (_ & Ep & Ei & Ed & Emin & Emax & Ea & El & EI & EL & _).
  assert (8 <= ceiling) as Hc by (apply (IZR_le 8 (2 ^ 1000)); by vm_compute).
  unfold moderate, law, size, integral_size, derivative_size, law_integral, law_derivative, clip_real.
  rewrite Ep, Ei, Ed, Emin, Emax, Ea, El, EI, EL. destruct (Rlt_dec 0 (1 / 2)); [|lra].
  repeat rewrite (Rabs_pos_eq 0), ?(Rabs_pos_eq 1) by lra. rewrite (Rabs_pos_eq (0 * 1)), (Rabs_pos_eq (2 * 1)) by lra.
  split_and!; try lra. unfold Rmin, Rmax. repeat destruct (Rle_dec _ _); lra.
Qed.

Lemma pid_control_law_witness :
  ∃ p' out, compute 0 demo_pid 500000000 (of_Z 1) (of_Z 0) = Ret (p', out) ∧ Rabs (val out - 4.5) <= 1 / 200000.
Proof.
  destruct demo_values as (Hn & _ & Ei & Ed & _ & _ & _ & _ & _ & _ & E1 & Es). destruct demo_sizes as (Hm & Hs & Hl).
  destruct small_sizes as (_ & Hsm & _).
  destruct (pid_control_law 0 demo_pid 500000000 (of_Z 1) (of_Z 0) (of_Z 1)) as (p' & out & Hc & _ & _ & _ & _ & _ & Hout).
  - exact Hn.
  - by vm_compute.
  - done.
  - cbn. lia.
  - by split.
  - by vm_compute.
  - rewrite E1, Es. exact Hm.
  - exists p', out. split; [exact Hc|]. rewrite E1, Es, Hs, Hl, Ei, Ed in Hout. rewrite Rabs_R1 in Hout.
    unfold clock_error in Hout. lra.
Defined.

End PidRounding.
