(* ===== verification/Devices.v ===== *)
(** * Serial ports and UDP sockets (src/a17/utils/serial_port.h, serial_port.cpp,
      udp_socket.h, udp_socket.cpp)

    [SerialPort] is a [CharacterDevice] that writes to a serial port; when the port cannot be
    opened the pointer to it stays null, and using it is undefined.  [GenericUdp] sends and
    receives arrays of doubles in datagrams; a double is its 64-bit word.  The port, the
    socket and the timer belong to Boost.Asio: calls on them are effects, completions are
    operations. *)

From S2P Require Import Prelude BufferPool CharacterDevice.

(** ** [class SerialPort] *)
Module SerialPort.

(** [port_]: whether the pointer is set, and then whether the port is open. *)
Record t : Type := mk { dev : CharacterDevice.t; port_ : option bool }.

(** The constructor: [opened] is whether constructing the port succeeded, [option_ok]
    whether setting the bit rate did. *)
Definition init (base : Z) (receiveBuffer : list ascii) (device : string) (handler error : option nat)
    (opened option_ok : bool) : outcome (t * list dev_effect) :=
  let d := CharacterDevice.init base receiveBuffer device handler error in
  if opened then
    if option_ok then Ret (mk d (Some true), [AsyncReceive]) else Throw system_error
  else Ret (mk d None, []).

(** Calls of [asyncSend] and [asyncReceive] go through [port_]. *)
Definition uses_port (e : dev_effect) : bool :=
  match e with AsyncSend _ => true | AsyncReceive => true | _ => false end.

Definition through_port (s : t) (r : outcome (CharacterDevice.t * list dev_effect)) : outcome (t * list dev_effect) :=
  '(d, es) ← r;
  if existsb uses_port es && bool_decide (port_ s = None) then Undef
  else Ret (mk d (port_ s), es).

Definition send (s : t) (sys : nat → Z) (garbage : nat → list ascii) (buffer : list ascii) (bytes : nat)
    : outcome (t * list dev_effect) :=
  through_port s (CharacterDevice.send (dev s) sys garbage buffer bytes).

Definition onSend (s : t) (ec : bool) (bytes : nat) : outcome (t * list dev_effect) :=
  through_port s (CharacterDevice.onSend (dev s) ec bytes).

Definition onReceive (s : t) (ec : bool) (bytes : nat) : outcome (t * list dev_effect) :=
  through_port s (Ret (CharacterDevice.onReceive (dev s) ec bytes)).

Definition isOpen (s : t) : bool := match port_ s with Some b => b | None => false end.

End SerialPort.

(** ** [class GenericUdp] *)
Module GenericUdp.

Inductive udp_effect : Type :=
  | ReceiveFrom (max : nat)
  | SendTo (target : string) (bytes : list ascii)
  | RecoverIn (seconds : Z)
  | CallUdp (v : list Z).

(** [receiveBuffer_]: the bytes of 1024 doubles. *)
Record t : Type := mk {
  target_ : string;
  receiveBuffer_ : list ascii;
  firstMessage_ : bool
}.

(** [receive()]: the buffer is limited to 1024 bytes. *)
Definition receive (s : t) : list udp_effect := [ReceiveFrom 1024].

(** [open_ok], [bind_ok]: whether opening and binding the socket succeeded. *)
Definition init (garbage : list ascii) (open_ok bind_ok : bool) : outcome (t * list udp_effect) :=
  if open_ok && bind_ok
  then let s := mk "0.0.0.0:0" garbage false in Ret (s, receive s)
  else Throw system_error.

(** [parser(bytes)] *)
Definition parser (s : t) (bytes : nat) : outcome (list udp_effect) :=
  if decide (bytes < 8) then Ret []
  else if decide (8 * (bytes / 8) <= length (receiveBuffer_ s))
  then Ret [CallUdp (read_words (bytes / 8) (receiveBuffer_ s))] else Undef.

(** [onReceive(ec, bytes)]: a datagram from [source] has been written to the front of the
    receive buffer, or an error reported. *)
Definition onReceive (s : t) (ec : bool) (source : string) (datagram : list ascii) : outcome (t * list udp_effect) :=
  let s := mk (if ec then target_ s else source)
              (if ec then receiveBuffer_ s else datagram ++ drop (length datagram) (receiveBuffer_ s)) true in
  if ec then Ret (s, [RecoverIn 1])
  else es ← parser s (length datagram); Ret (s, es ++ receive s).

(** The handler of the recovery timer. *)
Definition recovered (s : t) : list udp_effect := receive s.

(** [send(v)]: the buffer starts at the vector's data and is [v.size()] bytes long. *)
Definition send (s : t) (v : list Z) : list udp_effect :=
  let buf := take (length v) (word_bytes v) in
  if firstMessage_ s then [SendTo (target_ s) buf] else [].

Definition connected (s : t) : bool := firstMessage_ s.

End GenericUdp.

(** ** Lemmas *)

(** The whole words at the front of a memory image. *)
Lemma read_words_prefix ws k rest :
  Forall (λ w, (0 <= w < 2 ^ 64)%Z) ws → k <= length ws →
  read_words k (take (8 * k) (word_bytes ws) ++ rest) = take k ws.
Proof.
  intros Hws Hk. rewrite <- (take_drop k ws) at 1. rewrite word_bytes_app.
  rewrite take_app_length' by (rewrite length_word_bytes, length_take; lia).
  rewrite <- (length_take_le ws k Hk) at 1. apply read_words_bytes. by apply Forall_take.
Qed.

Lemma writes_existsb es bs : Stream.writes es = [bs] → existsb SerialPort.uses_port es = true.
Proof.
  intros H. apply existsb_exists. exists (AsyncSend bs). split; [|done].
  assert (bs ∈ Stream.writes es) as Hin by (rewrite H; set_solver).
  unfold Stream.writes in Hin. apply list_elem_of_omap in Hin as (e & He & Hb).
  destruct e; try done. injection Hb as ->. by apply list_elem_of_In.
Qed.

(** ** Properties *)

(** UDP sends an eighth: of a vector of doubles sent to a peer, the peer's handler gets only the
    first [n / 8] values, and is not called at all for fewer than eight, because the send
    buffer is measured in elements instead of bytes. *)
Theorem udp_sends_an_eighth a b v source :
  GenericUdp.connected a = true → length v <= 1024 → Forall (λ w, (0 <= w < 2 ^ 64)%Z) v →
  1024 <= length (GenericUdp.receiveBuffer_ b) →
  ∃ datagram b' es,
    GenericUdp.send a v = [GenericUdp.SendTo (GenericUdp.target_ a) datagram] ∧
    GenericUdp.onReceive b false source datagram = Ret (b', es) ∧
    es = (if decide (length v < 8) then [] else [GenericUdp.CallUdp (take (length v / 8) v)])
         ++ [GenericUdp.ReceiveFrom 1024] ∧
    GenericUdp.target_ b' = source.
Proof.
  intros Hc Hn Hv Hb. unfold GenericUdp.send. unfold GenericUdp.connected in Hc. rewrite Hc.
  set (n := length v) in *. set (datagram := take n (word_bytes v)).
  assert (length datagram = n) as Hd by (unfold datagram; rewrite length_take, length_word_bytes; fold n; lia).
  exists datagram. unfold GenericUdp.onReceive, GenericUdp.parser. cbn [GenericUdp.receiveBuffer_]. rewrite Hd.
  destruct (decide (n < 8)) as [Hlt|Hge]; [by do 2 eexists|].
  pose proof (Nat.div_mod_eq n 8). pose proof (Nat.mod_upper_bound n 8 ltac:(lia)).
  rewrite decide_True by (rewrite length_app, Hd; lia). rewrite bind_Ret.
  do 2 eexists. split; [done|]. split; [done|]. split; [|done].
  do 3 f_equal. unfold datagram. replace n with (8 * (n / 8) + (n - 8 * (n / 8))) at 2 by lia.
  rewrite <- take_take_drop, <- app_assoc. apply read_words_prefix; [done|fold n; lia].
Qed.

(** A serial port is a character device while it is open, and a trap when it is not: with an
    opened port every operation is the device's; when opening failed, the constructor
    returns as if nothing had happened and the first [send] uses the null pointer. *)
Theorem serial_port_null lo hi s alloc garbage m :
  (∀ n, length (garbage n) = n) → Stream.inv lo hi (SerialPort.dev s) →
  0 < Stream.buffer_size (SerialPort.dev s) →
  (∀ k, ¬ BufferPool.in_range lo hi (alloc k) ∧ alloc k ≠ 0%Z) →
  CharacterDevice.sendBuffers_ (SerialPort.dev s) = [] → 0 < Stream.room (SerialPort.dev s) → m ≠ [] →
  match SerialPort.port_ s with
  | None => SerialPort.send s alloc garbage m (length m) = Undef
  | Some _ =>
      ∃ d' es, CharacterDevice.send (SerialPort.dev s) alloc garbage m (length m) = Ret (d', es) ∧
        SerialPort.send s alloc garbage m (length m) = Ret (SerialPort.mk d' (SerialPort.port_ s), es)
  end.
Proof.
  intros Hg Hi Hk Ha Hq Hr Hm.
  destruct (Stream.dev_send_spec lo hi garbage _ alloc m Hg Hi Hk Ha)
    as (d' & q & es & Hs & _ & Hq' & Hqd & _ & _ & _ & Hw).
  unfold SerialPort.send, SerialPort.through_port. rewrite Hs, bind_Ret.
  destruct (SerialPort.port_ s) as [b|]; [rewrite andb_false_r; by exists d', es|].
  rewrite decide_True in Hw by done.
  assert (∃ b q', q = b :: q') as (b & q' & ->).
  { destruct q as [|b q']; [|by eauto]. exfalso. unfold Stream.queued in Hqd. rewrite Hq', Hq in Hqd.
    unfold Stream.accepts in Hqd. simpl in Hqd. symmetry in Hqd. apply take_nil_inv in Hqd as [?|?]; [nia|done]. }
  by rewrite (writes_existsb _ _ Hw).
Qed.

(** A receive error on a new socket makes it [connected], and what is sent then goes to the target no
    datagram has set. *)
Theorem udp_error_connects garbage source datagram v :
  ∃ s s' es, GenericUdp.init garbage true true = Ret (s, [GenericUdp.ReceiveFrom 1024]) ∧
    GenericUdp.send s v = [] ∧ GenericUdp.onReceive s true source datagram = Ret (s', es) ∧
    GenericUdp.connected s' = true ∧
    GenericUdp.send s' v = [GenericUdp.SendTo "0.0.0.0:0" (take (length v) (word_bytes v))].
Proof. eexists _, _, _. split; [done|]. split; [done|]. split; [done|]. done. Qed.

(** ** Witnesses *)

Lemma udp_sends_an_eighth_witness :
  ∃ datagram b' es,
    GenericUdp.send (GenericUdp.mk "10.0.0.2:9" [] true) (replicate 9 5%Z) = [GenericUdp.SendTo "10.0.0.2:9" datagram] ∧
    GenericUdp.onReceive (GenericUdp.mk "" (replicate 2048 NUL) false) false "10.0.0.1:9" datagram = Ret (b', es) ∧
    es = [GenericUdp.CallUdp [5%Z]] ++ [GenericUdp.ReceiveFrom 1024] ∧
    GenericUdp.target_ b' = "10.0.0.1:9".
Proof.
  apply (udp_sends_an_eighth (GenericUdp.mk "10.0.0.2:9" [] true) (GenericUdp.mk "" (replicate 2048 NUL) false)
           (replicate 9 5%Z) "10.0.0.1:9").
  - reflexivity.
  - rewrite length_replicate. lia.
  - apply Forall_replicate. lia.
  - cbn [GenericUdp.receiveBuffer_]. rewrite length_replicate. lia.
Defined.

Lemma serial_port_null_witness :
  SerialPort.send (SerialPort.mk (Stream.dev (Stream.start 4096 8 [] None None)) None) demo_alloc demo_garbage
    demo_message (length demo_message) = Undef.
Proof.
  apply (serial_port_null 4096 (Stream.pool_end 4096)
           (SerialPort.mk (Stream.dev (Stream.start 4096 8 [] None None)) None) demo_alloc demo_garbage demo_message).
  - intros n. apply length_replicate.
  - apply (Stream.start_inv 4096 8 [] None None). lia.
  - vm_compute. lia.
  - pose proof demo_admissible as Hd. apply Forall_cons in Hd as [Hd _]. exact Hd.
  - reflexivity.
  - vm_compute. lia.
  - discriminate.
Defined.
