(* ===== verification/Polynomial.v ===== *)
(** * Polynomials (src/a17/maths/polynomial.h)

    A [VectorXd] is the list of its elements; an access or a [head] outside it, which Eigen
    checks only in debug builds, is undefined behaviour.  The elements of a vector that is
    not initialized are given and arbitrary ([fresh]).  Eigen's product of a matrix and a
    vector is a parameter ([matvec]), and so is the vendored root finder.

    The definitions run in any [Scalar]: in [binary64] they are the program, over a
    commutative ring they compute what the comments of the class say. *)

From Stdlib Require Import SpecFloat Ring.
From S2P Require Import Prelude Floats FloatExact FloatUtils Scalar Messages.

Module Polynomial.

Section Operations.
Context {T : Type} `{Scalar T}.
Local Open Scope scalar_scope.

Record t : Type := mk { coefficients_ : list T }.

(** [v[i]] and [v[i] = x]. *)
Definition vget (v : list T) (i : nat) : outcome T :=
  match v !! i with Some x => Ret x | None => Undef end.

Definition vset (v : list T) (i : nat) (x : T) : outcome (list T) :=
  if decide (i < length v)%nat then Ret (<[i := x]> v) else Undef.

(** The default constructor. *)
Definition empty : t := mk [].

(** The loop of [setCoefficients], from [k] down to one. *)
Fixpoint reduced_order (coefficients : list T) (k : nat) : outcome nat :=
  match k with
  | O => Ret 0
  | S k' =>
      x ← vget coefficients k;
      if negb (s_feq0 x) then Ret k else reduced_order coefficients k'
  end.

Definition setCoefficients (coefficients : list T) : outcome t :=
  order ← reduced_order coefficients (pred (length coefficients));
  if decide (order + 1 ≤ length coefficients)%nat then Ret (mk (take (order + 1) coefficients)) else Undef.

Definition coefficients (p : t) : list T := coefficients_ p.

(** [operator()]: the loop over the indices below [idx]. *)
Fixpoint eval_loop (cs : list T) (x : T) (idx : nat) (value : T) : outcome T :=
  match idx with
  | O => Ret value
  | S i =>
      c ← vget cs i;
      eval_loop cs x i (value * x + c)
  end.

Definition eval (p : t) (x : T) : outcome T :=
  let cs := coefficients_ p in
  match length cs with
  | O => Undef
  | S idx => value ← vget cs idx; eval_loop cs x idx value
  end.

(** [k * (k - 1) * ...], [order] factors. *)
Fixpoint derivative_coefficient (order : nat) (k : Z) (acc : T) : T :=
  match order with
  | O => acc
  | S order' => derivative_coefficient order' (k - 1) (acc * s_of_Z k)
  end.

(** The loop that fills the elements of the derivative below [n]. *)
Fixpoint derivative_loop (cs : list T) (order n : nat) (new_coefficients : list T) : outcome (list T) :=
  match n with
  | O => Ret new_coefficients
  | S n' =>
      let coeff_idx := (order + n')%nat in
      c ← vget cs coeff_idx;
      new_coefficients ← vset new_coefficients n' (c * derivative_coefficient order (Z.of_nat coeff_idx) (s_of_Z 1));
      derivative_loop cs order n' new_coefficients
  end.

(** [derivative(order)]; [fresh] gives the elements of the new vector before they are set. *)
Definition derivative (p : t) (order : Z) (fresh : nat → T) : outcome t :=
  if (order <? 0)%Z then Throw (runtime_error "Derivative order must be positive") else
  if (order =? 0)%Z then setCoefficients (coefficients_ p) else
  let cs := coefficients_ p in
  let new_size := (Z.of_nat (length cs) - order)%Z in
  if (new_size <=? 0)%Z then setCoefficients [s_of_Z 0] else
  let order := Z.to_nat order in
  let new_size := Z.to_nat new_size in
  let coeff_idx := pred (length cs) in
  let new_coefficients := map fresh (seq 0 new_size) in
  c ← vget cs coeff_idx;
  new_coefficients ← vset new_coefficients (pred new_size)
                          (c * derivative_coefficient order (Z.of_nat coeff_idx) (s_of_Z 1));
  new_coefficients ← derivative_loop cs order (pred new_size) new_coefficients;
  setCoefficients new_coefficients.

(** [derivative(t, order)]. *)
Definition derivative_at (p : t) (x : T) (order : Z) (fresh : nat → T) : outcome T :=
  derivative_polynomial ← derivative p order fresh;
  eval derivative_polynomial x.

(** ** Reversal *)

(** [m(r, c)] and [m(r, c) = x], rows first. *)
Definition mget (m : list (list T)) (r c : nat) : outcome T :=
  match m !! r with Some row => vget row c | None => Undef end.

Definition mset (m : list (list T)) (r c : nat) (x : T) : outcome (list (list T)) :=
  match m !! r with
  | Some row => row ← vset row c x; Ret (<[r := row]> m)
  | None => Undef
  end.

(** The first row, [n] columns from [col] on. *)
Fixpoint first_row (c : T) (m : list (list T)) (col n : nat) : outcome (list (list T)) :=
  match n with
  | O => Ret m
  | S n' =>
      x ← mget m 0 (col - 1);
      m ← mset m 0 col (c * x);
      first_row c m (S col) n'
  end.

(** A row below, [n] columns from [col] on. *)
Fixpoint fill_row (c : T) (m : list (list T)) (row col n : nat) : outcome (list (list T)) :=
  match n with
  | O => Ret m
  | S n' =>
      x ← mget m row (col - 1);
      y ← mget m (row - 1) (col - 1);
      m ← mset m row col (c * x - y);
      fill_row c m row (S col) n'
  end.

(** [n] rows from [row] on, each from its diagonal. *)
Fixpoint fill_rows (c : T) (m : list (list T)) (size row n : nat) : outcome (list (list T)) :=
  match n with
  | O => Ret m
  | S n' =>
      m ← fill_row c m row row (size - row);
      fill_rows c m size (S row) n'
  end.

Definition conversion_matrix (c : T) (size : nat) : outcome (list (list T)) :=
  let m := replicate size (replicate size (s_of_Z 0)) in
  m ← mset m 0 0 (s_of_Z 1);
  m ← first_row c m 1 (size - 1);
  fill_rows c m size 1 (size - 1).

Definition reverse (matvec : list (list T) → list T → list T) (p : t) (t0 t1 : T) : outcome t :=
  let size := length (coefficients_ p) in
  let c := t0 + t1 in
  m ← conversion_matrix c size;
  setCoefficients (matvec m (coefficients_ p)).

(** [toString]; [show] is the stream's text of a number. *)
Fixpoint toString_loop (show : T → string) (cs : list T) (k : nat) : string :=
  match cs with
  | [] => ""
  | [c] => show c +:+ "t^" +:+ to_string (Z.of_nat k)
  | c :: cs' => show c +:+ "t^" +:+ to_string (Z.of_nat k) +:+ " + " +:+ toString_loop show cs' (S k)
  end.

Definition toString (show : T → string) (p : t) : string := toString_loop show (coefficients_ p) 0.

End Operations.
Arguments t : clear implicits.

(** ** Level sets *)

Section LevelSet.
Context {T : Type} `{RealScalar T}.
Local Open Scope scalar_scope.

(** [QuadraticRealRoots] (src/a17/maths/polynomial_utils.h). *)
Definition QuadraticRealRoots (a b c : T) : list T :=
  let discriminant := b * b - s_of_Z 4 * a * c in
  if s_eq discriminant (s_of_Z 0) then [s_opp b / (s_of_Z 2 * a)]
  else if s_lt (s_of_Z 0) discriminant then
    let droot := s_sqrt discriminant in
    [(s_opp b + droot) / (s_of_Z 2 * a); (s_opp b - droot) / (s_of_Z 2 * a)]
  else [].

(** [levelSet]; [findRoots] is the vendored root finder: the real and imaginary parts of the
    roots, or failure. *)
Definition levelSet (findRoots : list T → option (list (T * T))) (p : t T) (level : T) : outcome (list T) :=
  let cs := coefficients_ p in
  if decide (length cs ≤ 1)%nat then Ret [] else
  c0 ← vget cs 0;
  level_poly ← vset cs 0 (c0 - level);
  match length level_poly with
  | 2%nat =>
      x0 ← vget level_poly 0;
      x1 ← vget level_poly 1;
      Ret [s_opp x0 / x1]
  | 3%nat =>
      x2 ← vget level_poly 2;
      x1 ← vget level_poly 1;
      x0 ← vget level_poly 0;
      Ret (QuadraticRealRoots x2 x1 x0)
  | _ =>
      match findRoots level_poly with
      | Some roots => Ret (map fst (filter (λ r : T * T, s_feq0 r.2 = true) roots))
      | None => Ret []
      end
  end.

End LevelSet.

(** The program's text of a polynomial. *)
Definition toString_double : t spec_float → string := toString show_double.

(** ** Well-formed polynomials

    A polynomial that was given coefficients has some, and its highest one is not zero (for
    [FloatEq]) unless it is the only one. *)
Section WellFormed.
Context {T : Type} `{Scalar T}.
Local Open Scope scalar_scope.

Definition wf (p : t T) : Prop :=
  ∃ l c, coefficients_ p = l ++ [c] ∧ (l = [] ∨ s_feq0 c = false).

Lemma vget_lookup (v : list T) i x : v !! i = Some x → vget v i = Ret x.
Proof. unfold vget. by intros ->. Qed.

Lemma vset_lt (v : list T) i x : (i < length v)%nat → vset v i x = Ret (<[i := x]> v).
Proof. intros Hi. unfold vset. by rewrite decide_True by done. Qed.

Lemma reduced_order_spec (cs : list T) k :
  (k < length cs)%nat →
  ∃ r, reduced_order cs k = Ret r ∧ (r ≤ k)%nat ∧
       (r = 0%nat ∨ ∃ c, cs !! r = Some c ∧ s_feq0 c = false) ∧
       ∀ i c, (r < i ≤ k)%nat → cs !! i = Some c → s_feq0 c = true.
Proof.
  induction k as [|k IH]; intros Hk.
  - exists 0%nat. split_and!; [done|lia|by left|lia].
  - destruct (lookup_lt_is_Some_2 cs (S k) Hk) as [c Hc]. cbn [reduced_order].
    rewrite (vget_lookup _ _ _ Hc), bind_Ret. destruct (s_feq0 c) eqn:E; cbn [negb].
    + destruct (IH ltac:(lia)) as (r & -> & Hr & H1 & H2). exists r. split_and!; [done|lia|done|].
      intros i c' Hi Hc'. destruct (decide (i = S k)) as [->|]; [congruence|]. apply (H2 i); [lia|done].
    + exists (S k). split_and!; [done|lia|right; by exists c|lia].
Qed.

(** Setting coefficients keeps a prefix of them and drops only zeros. *)
Lemma setCoefficients_spec (cs : list T) :
  cs ≠ [] →
  ∃ l z, setCoefficients cs = Ret (mk l) ∧ wf (mk l) ∧ cs = l ++ z ∧ Forall (λ c, s_feq0 c = true) z.
Proof.
  intros Hne. assert (0 < length cs)%nat as Hlen by (destruct cs; [done|simpl; lia]).
  destruct (reduced_order_spec cs (pred (length cs)) ltac:(lia)) as (r & Hr & Hle & Hlast & Hz).
  unfold setCoefficients. rewrite Hr, bind_Ret, decide_True by lia.
  exists (take (r + 1) cs), (drop (r + 1) cs). split_and!; [done| |by rewrite take_drop|].
  - destruct (lookup_lt_is_Some_2 cs r ltac:(lia)) as [c Hc]. exists (take r cs), c. cbn [coefficients_].
    rewrite Nat.add_1_r. split; [by apply take_S_r|].
    destruct Hlast as [->|(c' & Hc' & ?)]; [by left|right]. congruence.
  - apply Forall_lookup. intros i c. rewrite lookup_drop. intros Hc. apply (Hz (r + 1 + i)%nat); [|done].
    apply lookup_lt_Some in Hc. lia.
Qed.

Lemma wf_nonempty (p : t T) : wf p → coefficients_ p ≠ [].
Proof. intros (l & c & -> & _). by destruct l. Qed.

(** Well-formed coefficients are kept as they are. *)
Lemma setCoefficients_wf (p : t T) : wf p → setCoefficients (coefficients_ p) = Ret p.
Proof.
  intros (l & c & Hp & Hc). unfold setCoefficients. rewrite Hp, length_app. cbn [length].
  replace (pred (length l + 1)) with (length l) by lia.
  assert (reduced_order (l ++ [c]) (length l) = Ret (length l)) as ->.
  { destruct l as [|x l]; [done|]. destruct Hc as [|Hc]; [done|]. cbn [length reduced_order].
    rewrite (vget_lookup _ _ c); [|apply list_lookup_middle; done]. by rewrite bind_Ret, Hc. }
  rewrite bind_Ret, decide_True by lia. f_equal. rewrite take_ge; [by destruct p; simpl in *; subst|].
  rewrite length_app. simpl. lia.
Qed.

(** ** The coefficients of a derivative *)

Definition deriv_at (cs : list T) (order i : nat) : option T :=
  (λ c, c * derivative_coefficient order (Z.of_nat (order + i)) (s_of_Z 1)) <$> cs !! (order + i)%nat.

Lemma derivative_loop_spec (cs : list T) order n new :
  (n ≤ length new)%nat → (order + n ≤ length cs)%nat →
  ∃ new', derivative_loop cs order n new = Ret new' ∧ length new' = length new ∧
          (∀ i, (i < n)%nat → new' !! i = deriv_at cs order i) ∧ ∀ i, (n ≤ i)%nat → new' !! i = new !! i.
Proof.
  revert new. induction n as [|n IH]; intros new Hn Hcs.
  - exists new. split_and!; [done|done|lia|done].
  - destruct (lookup_lt_is_Some_2 cs (order + n) ltac:(lia)) as [c Hc]. cbn [derivative_loop].
    rewrite (vget_lookup _ _ _ Hc), bind_Ret, vset_lt, bind_Ret by lia. cbv beta.
    set (x := c * _). destruct (IH (<[n := x]> new)) as (new' & -> & Hl & H1 & H2);
      [rewrite length_insert; lia|lia|].
    exists new'. rewrite Hl, length_insert. split_and!; [done|done| |].
    + intros i Hi. destruct (decide (i = n)) as [->|]; [|apply H1; lia].
      rewrite H2, list_lookup_insert_eq by lia. unfold deriv_at. by rewrite Hc.
    + intros i Hi. rewrite H2, list_lookup_insert_ne by lia. done.
Qed.

(** The vector [derivative] builds, whatever was in it before. *)
Definition deriv_list (cs : list T) (order : nat) : list T :=
  imap (λ i c, c * derivative_coefficient order (Z.of_nat (order + i)) (s_of_Z 1)) (drop order cs).

Lemma deriv_list_lookup cs order i : deriv_list cs order !! i = deriv_at cs order i.
Proof. unfold deriv_list, deriv_at. by rewrite list_lookup_imap, lookup_drop. Qed.

Lemma deriv_list_length cs order : length (deriv_list cs order) = (length cs - order)%nat.
Proof. unfold deriv_list. by rewrite length_imap, length_drop. Qed.

(** [derivative] gives the derivative's coefficients, or the zero polynomial. *)
Lemma derivative_eq (p : t T) order fresh :
  wf p → (0 ≤ order)%Z →
  derivative p order fresh =
    if decide (Z.to_nat order = 0)%nat then Ret p
    else setCoefficients (match deriv_list (coefficients_ p) (Z.to_nat order) with [] => [s_of_Z 0] | l => l end).
Proof.
  intros Hp Ho. unfold derivative. rewrite (proj2 (Z.ltb_ge _ _) Ho).
  destruct (Z.eqb_spec order 0) as [->|Hne]; [by rewrite setCoefficients_wf|].
  rewrite decide_False by lia. pose proof (deriv_list_length (coefficients_ p) (Z.to_nat order)) as Hlen.
  destruct (Z.leb_spec (Z.of_nat (length (coefficients_ p)) - order) 0) as [Hs|Hs].
  { destruct (deriv_list _ _); [done|]. simpl in Hlen. lia. }
  set (cs := coefficients_ p) in *. set (n := Z.to_nat (Z.of_nat (length cs) - order)).
  destruct (lookup_lt_is_Some_2 cs (pred (length cs)) ltac:(lia)) as [c Hc].
  rewrite (vget_lookup _ _ _ Hc), bind_Ret.
  assert (length (map fresh (seq 0 n)) = n) as Hm by (by rewrite length_map, length_seq).
  rewrite vset_lt, bind_Ret by lia. set (x := c * _).
  destruct (derivative_loop_spec cs (Z.to_nat order) (pred n) (<[pred n := x]> (map fresh (seq 0 n))))
    as (new' & -> & Hl & H1 & H2); [rewrite length_insert; lia|lia|].
  rewrite bind_Ret. assert (new' = deriv_list cs (Z.to_nat order)) as ->.
  { apply list_eq. intros i. rewrite deriv_list_lookup. rewrite length_insert in Hl.
    destruct (Nat.lt_trichotomy i (pred n)) as [Hi|[->|Hi]]; [by apply H1| |].
    - rewrite H2, list_lookup_insert_eq by lia. unfold deriv_at.
      replace (Z.to_nat order + pred n)%nat with (pred (length cs)) by lia. by rewrite Hc.
    - unfold deriv_at. rewrite !lookup_ge_None_2 by lia. done. }
  destruct (deriv_list _ _) eqn:E; [|done]. simpl in Hlen. lia.
Qed.

End WellFormed.

(** In binary64 a highest coefficient that is not zero but smaller than the smallest normal [float] is
    removed. *)
Theorem small_leading_dropped :
  setCoefficients [of_Z 1; S754_finite false 4503599627370496 (-192)] = Ret (mk [of_Z 1]).
Proof. vm_compute. reflexivity. Qed.

End Polynomial.
