(* ===== verification/PolynomialRing.v ===== *)
(** * What the polynomial class computes, in exact arithmetic

    Over a commutative ring ([ScalarLaws]) the operations of [Polynomial] are those of
    polynomials: evaluation is the sum of the powers, [derivative] the formal derivative and
    [reverse] the substitution of [t0 + t1 - t].  In binary64 they agree with the integers as
    long as no intermediate result needs more than 53 bits. *)

From Stdlib Require Import SpecFloat Ring.
From S2P Require Import Prelude Floats FloatExact FloatUtils Scalar Polynomial.

Module PolynomialRing.
Import Polynomial.

(** ** Reference definitions *)

Section Reference.
Context {T : Type} `{Scalar T}.
Local Open Scope scalar_scope.

Fixpoint pow (x : T) (n : nat) : T :=
  match n with O => s_of_Z 1 | S n' => x * pow x n' end.

Definition sum (l : list T) : T := foldr s_add (s_of_Z 0) l.

(** P(x) = c[0] + c[1] * x + c[2] * x^2 + ... *)
Definition peval (cs : list T) (x : T) : T := sum (imap (λ i c, c * pow x i) cs).

(** The coefficients of P'. *)
Definition deriv (cs : list T) : list T := imap (λ i c, c * s_of_Z (Z.of_nat (S i))) (tail cs).

(** The coefficient of [x ^ row] in [(c - x) ^ col]. *)
Fixpoint entry (c : T) (col row : nat) : T :=
  match col, row with
  | O, O => s_of_Z 1
  | O, S _ => s_of_Z 0
  | S col', O => c * entry c col' 0
  | S col', S row' => c * entry c col' row - entry c col' row'
  end.

(** The square matrix with given elements. *)
Definition mat (n : nat) (f : nat → nat → T) : list (list T) :=
  map (λ r, map (f r) (seq 0 n)) (seq 0 n).

(** The product of a matrix and a vector. *)
Definition mul_vector (m : list (list T)) (v : list T) : list T :=
  map (λ row, sum (zip_with s_mul row v)) m.

End Reference.

(** ** Matrices by their elements *)

Section Matrix.
Context {T : Type} `{Scalar T}.
Local Open Scope scalar_scope.

Lemma mat_ext n (f g : nat → nat → T) :
  (∀ r c, (r < n)%nat → (c < n)%nat → f r c = g r c) → mat n f = mat n g.
Proof.
  intros Hfg. apply map_ext_in. intros r Hr%in_seq. apply map_ext_in. intros c Hc%in_seq. apply Hfg; lia.
Qed.

Lemma map_seq_lookup {A} (f : nat → A) n i : (i < n)%nat → map f (seq 0 n) !! i = Some (f i).
Proof.
  intros Hi. change (map f (seq 0 n)) with (f <$> seq 0 n). rewrite list_lookup_fmap, lookup_seq_lt by done. done.
Qed.

Lemma map_seq_insert {A} (f : nat → A) n i x :
  <[i := x]> (map f (seq 0 n)) = map (λ j, if decide (j = i) then x else f j) (seq 0 n).
Proof.
  apply list_eq. intros j. destruct (decide (j < n)%nat) as [Hj|Hj].
  - rewrite map_seq_lookup by done. destruct (decide (j = i)) as [->|].
    + rewrite list_lookup_insert_eq; [done|]. by rewrite length_map, length_seq.
    + rewrite list_lookup_insert_ne by done. by apply map_seq_lookup.
  - rewrite !lookup_ge_None_2; [done|..]; rewrite ?length_insert, length_map, length_seq; lia.
Qed.

Lemma mget_mat n (f : nat → nat → T) r c : (r < n)%nat → (c < n)%nat → mget (mat n f) r c = Ret (f r c).
Proof.
  intros Hr Hc. unfold mget, mat, vget. by rewrite map_seq_lookup, map_seq_lookup.
Qed.

Lemma mset_mat n (f : nat → nat → T) r c x :
  (r < n)%nat → (c < n)%nat →
  mset (mat n f) r c x = Ret (mat n (λ r' c', if decide (r' = r ∧ c' = c) then x else f r' c')).
Proof.
  intros Hr Hc. unfold mset. unfold mat at 1. rewrite map_seq_lookup by done.
  rewrite vset_lt, bind_Ret by (by rewrite length_map, length_seq). f_equal.
  unfold mat. rewrite map_seq_insert. rewrite map_seq_insert. apply map_ext_in. intros r' Hr'%in_seq.
  destruct (decide (r' = r)) as [->|]; apply map_ext_in; intros c' Hc'%in_seq; repeat case_decide; naive_solver.
Qed.

(** The first row is filled from the left, the others from their diagonal. *)
Lemma first_row_mat (a : T) n k col (f : nat → nat → T) :
  (0 < col)%nat → (col + k ≤ n)%nat → (∀ c, (c < col)%nat → f 0%nat c = entry a c 0) →
  first_row a (mat n f) col k
  = Ret (mat n (λ r c, if decide (r = 0 ∧ c < col + k)%nat then entry a c 0 else f r c)).
Proof.
  revert col f. induction k as [|k IH]; intros col f Hcol Hn Hf; cbn [first_row].
  - f_equal. apply mat_ext. intros r c _ _. case_decide as Hd; [|done]. destruct Hd as [-> ?]. apply Hf. lia.
  - rewrite mget_mat, bind_Ret, mset_mat, bind_Ret by lia. rewrite IH; [|lia|lia|].
    + f_equal. apply mat_ext. intros r c _ _. repeat case_decide; done || lia.
    + intros c Hc. case_decide as Hd; [|apply Hf; lia]. destruct Hd as [_ ->].
      rewrite Hf by lia. destruct col as [|col]; [lia|]. cbn [entry]. by replace (S col - 1)%nat with col by lia.
Qed.

Lemma fill_row_mat (a : T) n k row col (f : nat → nat → T) :
  (0 < row ≤ col)%nat → (col + k ≤ n)%nat →
  (∀ c, (c < n)%nat → f (row - 1)%nat c = entry a c (row - 1)) →
  (∀ c, (c < col)%nat → f row c = entry a c row) →
  fill_row a (mat n f) row col k
  = Ret (mat n (λ r c, if decide (r = row ∧ c < col + k)%nat then entry a c row else f r c)).
Proof.
  revert col f. induction k as [|k IH]; intros col f Hcol Hn Hp Hf; cbn [fill_row].
  - f_equal. apply mat_ext. intros r c _ _. case_decide as Hd; [|done]. destruct Hd as [-> ?]. apply Hf. lia.
  - rewrite !mget_mat by lia. rewrite !bind_Ret, mset_mat, bind_Ret by lia. rewrite IH; [|lia|lia|..].
    + f_equal. apply mat_ext. intros r c _ _. repeat case_decide; done || lia.
    + intros c Hc. case_decide; [lia|]. by apply Hp.
    + intros c Hc. case_decide as Hd; [|apply Hf; lia]. destruct Hd as [_ ->].
      rewrite Hf, Hp by lia. destruct col as [|col]; [lia|]. destruct row as [|row]; [lia|]. cbn [entry].
      by replace (S col - 1)%nat with col by lia; replace (S row - 1)%nat with row by lia.
Qed.

Lemma fill_rows_mat (a : T) n k row (f : nat → nat → T) :
  (0 < row)%nat → (row + k ≤ n)%nat →
  (∀ r c, (r < row)%nat → (c < n)%nat → f r c = entry a c r) →
  (∀ r c, (c < r)%nat → f r c = entry a c r) →
  fill_rows a (mat n f) n row k
  = Ret (mat n (λ r c, if decide (r < row + k)%nat then entry a c r else f r c)).
Proof.
  revert row f. induction k as [|k IH]; intros row f Hrow Hn Hp Hf; cbn [fill_rows].
  - f_equal. apply mat_ext. intros r c _ Hc. case_decide as Hd; [|done]. apply Hp; lia.
  - rewrite fill_row_mat, bind_Ret; [|lia|lia|intros; apply Hp; lia|intros; apply Hf; lia].
    rewrite IH; [|lia|lia|..].
    + f_equal. apply mat_ext. intros r c _ Hc. repeat case_decide; done || lia.
    + intros r c Hr Hc. case_decide as Hd; [by destruct Hd as [-> _]|]. apply Hp; lia.
    + intros r c Hr. case_decide as Hd; [by destruct Hd as [-> _]|]. by apply Hf.
Qed.

(** In any arithmetic the loops stay inside the matrix. *)
Lemma first_row_mat_ex (a : T) n k col (f : nat → nat → T) :
  (0 < col)%nat → (col + k ≤ n)%nat → ∃ g, first_row a (mat n f) col k = Ret (mat n g).
Proof.
  revert col f. induction k as [|k IH]; intros col f Hcol Hn; cbn [first_row]; [by eexists|].
  rewrite mget_mat, bind_Ret, mset_mat, bind_Ret by lia. apply IH; lia.
Qed.

Lemma fill_row_mat_ex (a : T) n k row col (f : nat → nat → T) :
  (0 < row ≤ col)%nat → (col + k ≤ n)%nat → ∃ g, fill_row a (mat n f) row col k = Ret (mat n g).
Proof.
  revert col f. induction k as [|k IH]; intros col f Hcol Hn; cbn [fill_row]; [by eexists|].
  rewrite !mget_mat by lia. rewrite !bind_Ret, mset_mat, bind_Ret by lia. apply IH; lia.
Qed.

Lemma fill_rows_mat_ex (a : T) n k row (f : nat → nat → T) :
  (0 < row)%nat → (row + k ≤ n)%nat → ∃ g, fill_rows a (mat n f) n row k = Ret (mat n g).
Proof.
  revert row f. induction k as [|k IH]; intros row f Hrow Hn; cbn [fill_rows]; [by eexists|].
  destruct (fill_row_mat_ex a n (n - row) row row f) as [g ->]; [lia..|]. rewrite bind_Ret. apply IH; lia.
Qed.

Lemma replicate_mat n (x : T) : replicate n (replicate n x) = mat n (λ _ _, x).
Proof.
  assert (∀ {A} (y : A) k n, replicate n y = map (λ _, y) (seq k n)) as Hr.
  { intros A y k m. revert k. induction m as [|m IH]; intros k; cbn; [done|]. f_equal. apply IH. }
  unfold mat. rewrite (Hr _ (replicate n x) 0%nat). apply map_ext. intros _. apply Hr.
Qed.

Lemma conversion_matrix_ex (a : T) n : (0 < n)%nat → ∃ g, conversion_matrix a n = Ret (mat n g).
Proof.
  intros Hn. unfold conversion_matrix. rewrite replicate_mat, mset_mat, bind_Ret by lia. set (f := λ _ _, _).
  destruct (first_row_mat_ex a n (n - 1) 1 f) as [g ->]; [lia..|]. rewrite bind_Ret. apply fill_rows_mat_ex; lia.
Qed.

Lemma eval_loop_ex (cs : list T) x idx v : (idx ≤ length cs)%nat → ∃ y, eval_loop cs x idx v = Ret y.
Proof.
  revert v. induction idx as [|i IH]; intros v Hi; cbn [eval_loop]; [by eexists|].
  destruct (lookup_lt_is_Some_2 cs i ltac:(lia)) as [c Hc].
  rewrite (vget_lookup _ _ _ Hc), bind_Ret. apply IH. lia.
Qed.

Lemma eval_ex (p : t T) x : coefficients_ p ≠ [] → ∃ y, eval p x = Ret y.
Proof.
  intros Hne. unfold eval. set (cs := coefficients_ p) in *.
  destruct (length cs) as [|n] eqn:En; [by apply nil_length_inv in En|].
  destruct (lookup_lt_is_Some_2 cs n ltac:(lia)) as [c Hc].
  rewrite (vget_lookup _ _ _ Hc), bind_Ret. apply eval_loop_ex. lia.
Qed.

Lemma derivative_ex (p : t T) order fresh : wf p → (0 ≤ order)%Z → ∃ q, derivative p order fresh = Ret q ∧ wf q.
Proof.
  intros Hp Ho. rewrite derivative_eq by done. case_decide; [by exists p|].
  destruct (setCoefficients_spec (match deriv_list (coefficients_ p) (Z.to_nat order) with [] => [s_of_Z 0] | l => l end))
    as (l & z & -> & Hw & _); [by destruct (deriv_list _ _)|]. by exists (mk l).
Qed.

Lemma reverse_ex matvec (p : t T) t0 t1 :
  wf p → (∀ m v, length (matvec m v) = length m) → ∃ q, reverse matvec p t0 t1 = Ret q ∧ wf q.
Proof.
  intros Hp Hmv. pose proof (wf_nonempty _ Hp) as Hne. unfold reverse.
  assert (0 < length (coefficients_ p))%nat as Hl by (destruct (coefficients_ p); [done|simpl; lia]).
  destruct (conversion_matrix_ex (t0 + t1) _ Hl) as [g ->]. rewrite bind_Ret.
  destruct (setCoefficients_spec (matvec (mat (length (coefficients_ p)) g) (coefficients_ p)))
    as (l & z & -> & Hw & _); [|by exists (mk l)].
  intros E. apply (f_equal length) in E. rewrite Hmv in E. unfold mat in E. rewrite length_map, length_seq in E.
  simpl in E. lia.
Qed.

End Matrix.

(** ** Evaluation *)

Section Ring.
Context {T : Type} `{ScalarLaws T}.
Local Open Scope scalar_scope.
Add Ring scalar_ring : (s_ring (T := T)).

Local Notation "0" := (s_of_Z 0) : scalar_scope.
Local Notation "1" := (s_of_Z 1) : scalar_scope.

Lemma pow_add (x : T) m n : pow x (m + n) = pow x m * pow x n.
Proof. induction m as [|m IH]; cbn [pow Nat.add]; [|rewrite IH]; ring. Qed.

Lemma sum_nil : sum [] = (0 : T).
Proof. done. Qed.

Lemma sum_cons (a : T) l : sum (a :: l) = a + sum l.
Proof. done. Qed.

Lemma sum_concat (l k : list T) : sum (l ++ k) = sum l + sum k.
Proof. induction l as [|a l IH]; cbn [app]; [rewrite sum_nil|rewrite !sum_cons, IH]; ring. Qed.

Lemma sum_scale {A} (a : T) (f : A → T) l : sum (map (λ i, a * f i) l) = a * sum (map f l).
Proof. induction l as [|b l IH]; cbn [map]; [rewrite sum_nil|rewrite !sum_cons, IH]; ring. Qed.

Lemma sum_add {A} (f g : A → T) l : sum (map (λ i, f i + g i) l) = sum (map f l) + sum (map g l).
Proof. induction l as [|b l IH]; cbn [map]; [rewrite sum_nil|rewrite !sum_cons, IH]; ring. Qed.

Lemma sum_zero {A} (l : list A) : sum (map (λ _, 0 : T) l) = 0.
Proof. induction l as [|b l IH]; cbn [map]; [done|rewrite sum_cons, IH]; ring. Qed.

Lemma sum_swap {A B} (f : A → B → T) l k :
  sum (map (λ a, sum (map (λ b, f a b) k)) l) = sum (map (λ b, sum (map (λ a, f a b) l)) k).
Proof.
  induction l as [|a l IH]; cbn [map]; [symmetry; apply sum_zero|].
  rewrite sum_cons, IH, <-sum_add. done.
Qed.

(** Shifting the powers by [n]. *)
Lemma sum_shift (cs : list T) x n :
  sum (imap (λ i c, c * pow x (n + i)) cs) = pow x n * peval cs x.
Proof.
  unfold peval. revert n. induction cs as [|c cs IH]; intros n; [cbn; ring|].
  rewrite !imap_cons, !sum_cons, Nat.add_0_r.
  rewrite (imap_ext _ (λ i c, c * pow x (S n + i))) by (intros; unfold compose; do 2 f_equal; lia).
  rewrite (imap_ext (_ ∘ S) (λ i c, c * pow x (1 + i)) cs) by done.
  rewrite (IH (S n)), (IH 1%nat).
  cbn [pow]. ring.
Qed.

Lemma peval_app (l k : list T) x : peval (l ++ k) x = peval l x + pow x (length l) * peval k x.
Proof. unfold peval at 1. rewrite imap_app, sum_concat. f_equal. apply sum_shift. Qed.

Lemma peval_nil (x : T) : peval [] x = 0.
Proof. done. Qed.

Lemma peval_singleton (c x : T) : peval [c] x = c.
Proof. unfold peval. cbn. ring. Qed.

Lemma peval_cons (c : T) cs x : peval (c :: cs) x = c + x * peval cs x.
Proof. change (c :: cs) with ([c] ++ cs). rewrite peval_app, peval_singleton. cbn [length pow]. ring. Qed.

Lemma peval_zeros (z : list T) x : Forall (λ c, s_feq0 c = true) z → peval z x = 0.
Proof.
  induction 1 as [|c z Hc Hz IH]; [done|]. rewrite peval_cons, IH. apply s_feq0_spec in Hc as ->. ring.
Qed.

Lemma eval_loop_spec (cs : list T) x idx v :
  (idx ≤ length cs)%nat →
  eval_loop cs x idx v = Ret (peval (take idx cs) x + pow x idx * v).
Proof.
  revert v. induction idx as [|i IH]; intros v Hi; cbn [eval_loop].
  - f_equal. rewrite take_0, peval_nil. cbn [pow]. ring.
  - destruct (lookup_lt_is_Some_2 cs i ltac:(lia)) as [c Hc].
    rewrite (vget_lookup _ _ _ Hc), bind_Ret, IH by lia. f_equal.
    rewrite (take_S_r _ _ _ Hc), peval_app, peval_singleton, length_take_le by lia. cbn [pow]. ring.
Qed.

(** Horner's rule. *)
Lemma eval_peval (p : t T) x : coefficients_ p ≠ [] → eval p x = Ret (peval (coefficients_ p) x).
Proof.
  intros Hne. unfold eval. set (cs := coefficients_ p) in *.
  destruct (length cs) as [|n] eqn:En; [by apply nil_length_inv in En|].
  destruct (lookup_lt_is_Some_2 cs n ltac:(lia)) as [c Hc].
  rewrite (vget_lookup _ _ _ Hc), bind_Ret, eval_loop_spec by lia. f_equal.
  rewrite <-(take_ge cs (S n)) at 2 by lia.
  rewrite (take_S_r _ _ _ Hc), peval_app, peval_singleton, length_take_le by lia. done.
Qed.

Lemma setCoefficients_peval (cs : list T) :
  cs ≠ [] → ∃ q, setCoefficients cs = Ret q ∧ wf q ∧ ∀ x, peval (coefficients_ q) x = peval cs x.
Proof.
  intros Hne. destruct (setCoefficients_spec cs Hne) as (l & z & Hs & Hw & -> & Hz).
  exists (mk l). split_and!; [done|done|]. intros x. rewrite peval_app, (peval_zeros z) by done. cbn [coefficients_]. ring.
Qed.

(** ** Derivatives *)

Lemma derivative_coefficient_snoc order k (acc : T) :
  derivative_coefficient (S order) k acc = derivative_coefficient order k acc * s_of_Z (k - Z.of_nat order).
Proof.
  revert k acc. induction order as [|n IH]; intros k acc.
  - cbn [derivative_coefficient]. do 2 f_equal. lia.
  - change (derivative_coefficient (S (S n)) k acc) with (derivative_coefficient (S n) (k - 1) (acc * s_of_Z k)).
    rewrite IH. cbn [derivative_coefficient]. do 2 f_equal. lia.
Qed.

(** Taking [n] derivatives one at a time. *)
Lemma deriv_list_iter (cs : list T) n : deriv_list cs n = Nat.iter n deriv cs.
Proof.
  apply list_eq. intros i. rewrite deriv_list_lookup. revert i. induction n as [|n IH]; intros i.
  - unfold deriv_at. cbn [Nat.iter nat_rect Nat.add]. destruct (cs !! i) as [c|]; [|done].
    cbn [fmap option_fmap option_map derivative_coefficient]. f_equal. ring.
  - cbn [Nat.iter nat_rect]. fold (Nat.iter n deriv cs). unfold deriv at 1.
    rewrite list_lookup_imap, lookup_tail, <-IH. unfold deriv_at.
    replace (S n + i)%nat with (n + S i)%nat by lia. destruct (cs !! (n + S i)%nat) as [c|]; [|done]. cbn [fmap option_fmap option_map].
    f_equal. rewrite derivative_coefficient_snoc.
    replace (Z.of_nat (n + S i) - Z.of_nat n)%Z with (Z.of_nat (S i)) by lia. ring.
Qed.

Lemma peval_imap_succ (cs : list T) x :
  peval (imap (λ i c, c * s_of_Z (Z.of_nat (S i))) cs) x = peval cs x + x * peval (deriv cs) x.
Proof.
  assert (∀ n cs, peval (imap (λ i c, c * s_of_Z (Z.of_nat (S (n + i)))) cs) x
    = peval cs x + peval (imap (λ i c, c * s_of_Z (Z.of_nat (n + i))) cs) x) as Hg.
  { intros n l. revert n. induction l as [|c l IH]; intros n; [rewrite !imap_nil, !peval_nil; ring|].
    rewrite !imap_cons, !peval_cons, !Nat.add_0_r.
    rewrite (imap_ext _ (λ i c, c * s_of_Z (Z.of_nat (S (S n + i))))) by (intros; unfold compose; do 3 f_equal; lia).
    rewrite (imap_ext (_ ∘ S) (λ i c, c * s_of_Z (Z.of_nat (S n + i))) l)
      by (intros; unfold compose; do 3 f_equal; lia).
    rewrite IH. replace (Z.of_nat (S n)) with (Z.of_nat n + 1)%Z by lia. rewrite s_of_Z_add. ring. }
  etrans; [apply (Hg 0%nat)|]. f_equal. destruct cs as [|c cs]; [change (deriv []) with (@nil T); rewrite !imap_nil, !peval_nil; ring|].
  rewrite imap_cons, peval_cons. cbn [Nat.add]. unfold deriv. cbn [tail]. change (Z.of_nat 0) with 0%Z.
  rewrite (imap_ext (_ ∘ S) (λ i c, c * s_of_Z (Z.of_nat (S i))) cs) by done. ring.
Qed.

(** The product rule for [c + x * P]. *)
Lemma peval_deriv_cons (c : T) cs x : peval (deriv (c :: cs)) x = peval cs x + x * peval (deriv cs) x.
Proof. unfold deriv at 1. cbn [tail]. apply peval_imap_succ. Qed.

(** The polynomial [derivative] returns, as a function. *)
Lemma derivative_peval (p : t T) order fresh :
  wf p → (0 ≤ order)%Z →
  ∃ q, derivative p order fresh = Ret q ∧ wf q ∧
       ∀ x, peval (coefficients_ q) x = peval (Nat.iter (Z.to_nat order) deriv (coefficients_ p)) x.
Proof.
  intros Hp Ho. rewrite derivative_eq by done. destruct (decide _) as [->|Hne]; [by exists p|].
  rewrite deriv_list_iter. set (l := Nat.iter _ _ _).
  destruct (setCoefficients_peval (match l with [] => [0] | _ => l end)) as (q & Hq & Hw & He); [by destruct l|].
  exists q. split_and!; [by destruct l|done|]. intros x. rewrite He.
  destruct l; [|done]. by rewrite peval_singleton.
Qed.

(** ** Reversal *)

Lemma entry_lower (a : T) col row : (col < row)%nat → entry a col row = 0.
Proof.
  revert row. induction col as [|col IH]; intros [|row] Hr; [lia|done|lia|]. cbn [entry].
  rewrite !IH by lia. ring.
Qed.

Lemma conversion_matrix_eq (a : T) n : (0 < n)%nat → conversion_matrix a n = Ret (mat n (λ r c, entry a c r)).
Proof.
  intros Hn. unfold conversion_matrix. rewrite replicate_mat, mset_mat, bind_Ret by lia.
  rewrite first_row_mat, bind_Ret; [|lia|lia|].
  - rewrite fill_rows_mat; [|lia|lia|..].
    + f_equal. apply mat_ext. intros r c Hr Hc. by rewrite decide_True by lia.
    + intros r c Hr Hc. replace r with 0%nat by lia. by rewrite decide_True by lia.
    + intros r c Hr. rewrite !decide_False by lia. by rewrite entry_lower.
  - intros c Hc. replace c with 0%nat by lia. done.
Qed.

(** The entries of a column are the coefficients of a power. *)
Lemma entry_sum (a x : T) col n :
  (col < n)%nat → sum (map (λ r, entry a col r * pow x r) (seq 0 n)) = pow (a - x) col.
Proof.
  assert (∀ col n, sum (map (λ r, entry a (S col) r * pow x r) (seq 0 (S n)))
    = a * sum (map (λ r, entry a col r * pow x r) (seq 0 (S n)))
      - x * sum (map (λ r, entry a col r * pow x r) (seq 0 n))) as Hstep.
  { clear col n. intros col n. cbn [seq map]. rewrite !sum_cons, <-!seq_shift, !map_map. cbn [entry pow].
    rewrite (map_ext _ (λ r, a * (entry a col (S r) * (x * pow x r)) + (0 - x) * (entry a col r * pow x r)))
      by (intros; ring).
    rewrite sum_add, !sum_scale. ring. }
  assert (∀ col n, (col ≤ n)%nat → sum (map (λ r, entry a col r * pow x r) (seq 0 (S n))) = pow (a - x) col) as Hg.
  { clear col n. induction col as [|col IH]; intros n Hn.
    - cbn [seq map]. rewrite sum_cons, <-seq_shift, map_map. cbn [entry pow].
      rewrite (map_ext _ (λ _, 0)) by (intros; ring). rewrite sum_zero. ring.
    - rewrite Hstep. destruct n as [|n]; [lia|]. rewrite (IH (S n)), (IH n) by lia. cbn [pow]. ring. }
  intros Hn. destruct n as [|n]; [lia|]. apply Hg. lia.
Qed.

Lemma sum_zip_seq (f : nat → T) (cs : list T) k :
  sum (zip_with s_mul (map f (seq k (length cs))) cs) = sum (imap (λ i c, f (k + i)%nat * c) cs).
Proof.
  revert k. induction cs as [|c cs IH]; intros k; [done|]. cbn [length seq map zip_with].
  rewrite imap_cons, !sum_cons, IH, Nat.add_0_r. f_equal. f_equal. apply imap_ext. intros i c' _. unfold compose.
  do 2 f_equal. lia.
Qed.

Lemma imap_map_seq {A B} (f : nat → A) (g : nat → A → B) n k :
  imap (λ i, g (k + i)%nat) (map f (seq k n)) = map (λ i, g i (f i)) (seq k n).
Proof.
  revert k. induction n as [|n IH]; intros k; [done|]. cbn [seq map]. rewrite imap_cons, Nat.add_0_r. f_equal.
  rewrite <-IH. apply imap_ext. intros i y _. unfold compose. f_equal. lia.
Qed.

Lemma imap_as_map {A B} (g : nat → A → B) (cs : list A) d :
  imap g cs = map (λ i, g i (default d (cs !! i))) (seq 0 (length cs)).
Proof.
  apply list_eq. intros i. rewrite list_lookup_imap. destruct (cs !! i) as [c|] eqn:E.
  - pose proof (lookup_lt_Some _ _ _ E). rewrite map_seq_lookup by done. by rewrite E.
  - apply lookup_ge_None in E. symmetry. apply lookup_ge_None. by rewrite length_map, length_seq.
Qed.

(** Multiplying by the conversion matrix substitutes [a - x]. *)
Lemma mul_conversion (a x : T) cs :
  peval (mul_vector (mat (length cs) (λ r c, entry a c r)) cs) x = peval cs (a - x).
Proof.
  unfold peval, mul_vector, mat. rewrite map_map.
  rewrite (imap_map_seq _ (λ i c, c * pow x i) (length cs) 0).
  rewrite (imap_as_map (λ i c, c * pow (a - x) i) cs 0).
  transitivity (sum (map (λ r, sum (map (λ i, default 0 (cs !! i) * (entry a i r * pow x r)) (seq 0 (length cs))))
    (seq 0 (length cs)))).
  - f_equal. apply map_ext. intros r. rewrite sum_zip_seq, (imap_as_map _ cs 0). cbn [Nat.add].
    rewrite (map_ext (λ i, default 0 (cs !! i) * (entry a i r * pow x r))
      (λ i, pow x r * (entry a i r * default 0 (cs !! i)))) by (intros; ring).
    rewrite sum_scale. ring.
  - rewrite sum_swap. f_equal. apply map_ext_in. intros i Hi%in_seq. rewrite sum_scale, entry_sum by lia. done.
Qed.

Lemma reverse_peval matvec (p : t T) t0 t1 :
  wf p → (∀ m v, matvec m v = mul_vector m v) →
  ∃ q, reverse matvec p t0 t1 = Ret q ∧ wf q ∧
       ∀ x, peval (coefficients_ q) x = peval (coefficients_ p) (t0 + t1 - x).
Proof.
  intros Hp Hmv. pose proof (wf_nonempty _ Hp) as Hne. unfold reverse.
  set (cs := coefficients_ p) in *.
  assert (0 < length cs)%nat by (destruct cs; [done|simpl; lia]).
  rewrite conversion_matrix_eq, bind_Ret, Hmv by done.
  destruct (setCoefficients_peval (mul_vector (mat (length cs) (λ r c, entry (t0 + t1) c r)) cs)) as (q & Hq & Hw & He).
  { unfold mul_vector, mat. rewrite map_map. destruct (length cs); [lia|done]. }
  exists q. split_and!; [done|done|]. intros x. by rewrite He, mul_conversion.
Qed.

Lemma reverse_ends (a b : T) : a + b - a = b ∧ a + b - b = a.
Proof. split; ring. Qed.

End Ring.

(** ** Integers in binary64 *)

Section Binary64.
Local Open Scope Z_scope.

(** A bound on every intermediate value of Horner's rule. *)
Definition magnitude (zs : list Z) (x : Z) : Z := peval (map Z.abs zs) (Z.max 1 (Z.abs x)).

Lemma magnitude_nonneg zs x : 0 ≤ magnitude zs x.
Proof.
  unfold magnitude. induction zs as [|z zs IH]; [done|]. cbn [map]. rewrite peval_cons. cbn [s_add s_mul Z_scalar]. nia.
Qed.

Lemma pow_Z x n : pow x n = x ^ Z.of_nat n.
Proof. induction n as [|n IH]; [done|]. cbn [pow]. rewrite IH, Nat2Z.inj_succ, Z.pow_succ_r by lia. done. Qed.

Lemma eval_loop_binary64 zs x idx v vz :
  (idx ≤ length zs)%nat → represents v vz → small x →
  magnitude (take idx zs) x + pow (Z.max 1 (Z.abs x)) idx * Z.abs vz < 2 ^ 53 →
  ∃ y z, eval_loop (map of_Z zs) (of_Z x) idx v = Ret y ∧ eval_loop zs x idx vz = Ret z ∧ represents y z ∧ small z.
Proof.
  revert v vz. induction idx as [|i IH]; intros v vz Hi Hv Hx Hb.
  - exists v, vz. split_and!; [done|done|done|]. unfold small. cbn [pow] in Hb. rewrite take_0 in Hb.
    change (magnitude [] x) with 0 in Hb. cbn [s_of_Z Z_scalar] in Hb. lia.
  - destruct (lookup_lt_is_Some_2 zs i ltac:(lia)) as [c Hc]. cbn [eval_loop].
    rewrite (vget_lookup zs _ _ Hc), bind_Ret.
    assert (map of_Z zs !! i = Some (of_Z c)) as Hc' by (rewrite list_lookup_fmap, Hc; done).
    rewrite (vget_lookup (map of_Z zs) _ _ Hc'), bind_Ret.
    set (M := Z.max 1 (Z.abs x)) in *.
    assert (magnitude (take (S i) zs) x = magnitude (take i zs) x + pow M i * Z.abs c) as Hm.
    { unfold magnitude. rewrite (take_S_r _ _ _ Hc), map_app, peval_app, length_map, length_take_le by lia.
      cbn [map]. by rewrite peval_singleton. }
    assert (1 ≤ pow M i) as Hp by (rewrite pow_Z; apply Z.lt_pred_le, Z.pow_pos_nonneg; lia).
    pose proof (magnitude_nonneg (take i zs) x) as Hn. rewrite Hm in Hb. cbn [pow] in Hb.
    change (s_mul M (pow M i)) with (M * pow M i) in Hb.
    assert (Z.abs (vz * x) ≤ M * Z.abs vz) as H1 by (rewrite Z.abs_mul; unfold M; nia).
    assert (M * Z.abs vz + Z.abs c < 2 ^ 53) as H2 by (assert (0 ≤ M * Z.abs vz) by (unfold M; nia); nia).
    assert (Z.abs vz ≤ M * Z.abs vz) as H3 by (unfold M; nia).
    cbn [s_add s_mul Z_scalar binary64]. apply IH; [lia| |done|].
    + apply represents_add; [apply represents_mul|by left|..]; try done; try (by left); unfold small; lia.
    + assert (Z.abs (vz * x + c) ≤ M * Z.abs vz + Z.abs c) by lia. fold M. nia.
Qed.

End Binary64.

(** ** Properties *)

(** C39. Polynomials stay well formed, in every arithmetic and so in binary64: given coefficients,
    a polynomial has a highest one that is not zero (or is constant), evaluation, derivatives
    of any order from zero on and reversal return without undefined behaviour whatever memory
    they are given, and what they return is well formed; without coefficients, construction
    and evaluation are undefined; a negative order is refused. *)
Theorem polynomial_well_formed {T} `{Scalar T} (fresh : nat → T) matvec :
  (∀ m v, length (matvec m v) = length m) →
  (∀ cs : list T, cs ≠ [] → ∃ q, setCoefficients cs = Ret q ∧ wf q) ∧
  (∀ (p : t T) x, wf p → ∃ y, eval p x = Ret y) ∧
  (∀ (p : t T) order, wf p → (0 ≤ order)%Z → ∃ q, derivative p order fresh = Ret q ∧ wf q) ∧
  (∀ (p : t T) t0 t1, wf p → ∃ q, reverse matvec p t0 t1 = Ret q ∧ wf q) ∧
  setCoefficients (T := T) [] = Undef ∧ (∀ x : T, eval empty x = Undef) ∧
  (∀ (p : t T) order, (order < 0)%Z →
     derivative p order fresh = Throw (runtime_error "Derivative order must be positive")).
Proof.
  intros Hmv. split_and!; [..|done|done|].
  - intros cs Hne. destruct (setCoefficients_spec cs Hne) as (l & z & Hs & Hw & _). by exists (mk l).
  - intros p x Hp. by apply eval_ex, wf_nonempty.
  - intros p order. apply derivative_ex.
  - intros p t0 t1 Hp. by apply reverse_ex.
  - intros p order Ho. unfold derivative. by rewrite (proj2 (Z.ltb_lt _ _) Ho).
Qed.

(** C18. Reversal substitutes: over a commutative ring, and with Eigen's product being the product,
    [reverse(t0, t1)] returns the polynomial whose value at every [x] is the value of the
    original at [t0 + t1 - x]; in particular the ends of the interval change places. *)
Theorem polynomial_reverse {T} `{ScalarLaws T} matvec (p : t T) t0 t1 :
  wf p → (∀ m v, matvec m v = mul_vector m v) →
  ∃ q, reverse matvec p t0 t1 = Ret q ∧ wf q ∧
       (∀ x, eval q x = eval p (s_sub (s_add t0 t1) x)) ∧ eval q t0 = eval p t1 ∧ eval q t1 = eval p t0.
Proof.
  intros Hp Hmv. destruct (reverse_peval matvec p t0 t1 Hp Hmv) as (q & Hq & Hw & He).
  assert (∀ x, eval q x = eval p (s_sub (s_add t0 t1) x)) as Hx.
  { intros x. rewrite !eval_peval by (by apply wf_nonempty). by rewrite He. }
  exists q. split_and!; [done|done|done|..]; rewrite Hx; f_equal; apply reverse_ends.
Qed.

(** Evaluation is exact on integers: in binary64 Horner's rule returns the integer value of a
    polynomial with integer coefficients at an integer, as long as the sum of the absolute
    values of its terms (at an argument of at least one) stays below [2 ^ 53]. *)
Theorem polynomial_eval_exact zs x :
  zs ≠ [] → FloatExact.small x → (magnitude zs x < 2 ^ 53)%Z →
  ∃ y, eval (mk (map of_Z zs)) (of_Z x) = Ret y ∧ SFeqb y (of_Z (peval zs x)) = true.
Proof.
  intros Hne Hx Hm. unfold eval. cbn [coefficients_]. rewrite length_map.
  destruct (length zs) as [|n] eqn:En; [by apply nil_length_inv in En|].
  destruct (lookup_lt_is_Some_2 zs n ltac:(lia)) as [c Hc].
  assert (map of_Z zs !! n = Some (of_Z c)) as Hc' by (rewrite list_lookup_fmap, Hc; done).
  rewrite (vget_lookup (map of_Z zs) _ _ Hc'), bind_Ret.
  destruct (eval_loop_binary64 zs x n (of_Z c) c) as (y & z & Hy & Hz & Hr & Hs); [lia|by left|done| |].
  - unfold magnitude in *. rewrite <-(take_ge zs (S n)) in Hm by lia.
    rewrite (take_S_r _ _ _ Hc), map_app, peval_app, length_map, length_take_le in Hm by lia.
    cbn [map] in Hm. rewrite peval_singleton in Hm. done.
  - exists y. split; [done|]. rewrite eval_loop_spec in Hz by lia. injection Hz as Hz.
    assert (peval zs x = z) as ->; [|by apply represents_eqb].
    rewrite <-Hz. rewrite <-(take_ge zs (S n)) at 1 by lia.
    rewrite (take_S_r _ _ _ Hc), peval_app, peval_singleton, length_take_le by lia. done.
Qed.

(** ** Witnesses *)

Lemma polynomial_well_formed_witness : ∃ q, setCoefficients [of_Z 1; of_Z 2; of_Z 0] = Ret q ∧ wf q.
Proof.
  destruct (polynomial_well_formed (λ _, of_Z 0) (λ m v, map (λ _, of_Z 0) m)) as [Hs _].
  - intros m v. apply length_map.
  - exact (Hs [of_Z 1; of_Z 2; of_Z 0] ltac:(discriminate)).
Defined.

Lemma polynomial_reverse_witness :
  ∃ q, reverse mul_vector (mk [5; -3; 2]%Z) 1%Z 4%Z = Ret q ∧ coefficients_ q = [40; -17; 2]%Z ∧
       eval q 1%Z = eval (mk [5; -3; 2]%Z) 4%Z.
Proof.
  destruct (polynomial_reverse (T := Z) mul_vector (mk [5; -3; 2]%Z) 1%Z 4%Z) as (q & Hq & _ & _ & He & _).
  - by exists [5; -3]%Z, 2%Z; split; [|right].
  - done.
  - exists q. split; [exact Hq|]. split; [|exact He]. vm_compute in Hq. by injection Hq as <-.
Defined.

Lemma polynomial_eval_exact_witness :
  peval [5; -3; 2]%Z (-7)%Z = 124%Z ∧
  ∃ y, eval (mk (map of_Z [5; -3; 2]%Z)) (of_Z (-7)) = Ret y ∧ SFeqb y (of_Z (peval [5; -3; 2]%Z (-7)%Z)) = true.
Proof.
  split; [vm_compute; reflexivity|].
  apply (polynomial_eval_exact [5; -3; 2]%Z (-7)%Z); [discriminate|vm_compute; reflexivity|vm_compute; reflexivity].
Defined.

End PolynomialRing.
