(* ===== verification/RealScalars.v ===== *)
(** * The real numbers as scalars

    The exact instance of the classes of [Scalar] in which derivatives, square roots and
    angles have their usual meaning. *)

From Stdlib Require Import Reals Lra.
From S2P Require Import Prelude Scalar.

Definition Rltb (x y : R) : bool := if Rlt_dec x y then true else false.
Definition Reqb (x y : R) : bool := if Req_dec_T x y then true else false.

#[export] Instance R_scalar : Scalar R := {
  s_of_Z := IZR;
  s_add := Rplus;
  s_sub := Rminus;
  s_mul := Rmult;
  s_feq0 x := Reqb x 0
}.

#[export] Instance R_real : RealScalar R := {
  s_div := Rdiv;
  s_opp := Ropp;
  s_sqrt := sqrt;
  s_lt := Rltb;
  s_eq := Reqb
}.

Lemma Rltb_true x y : Rltb x y = true ↔ (x < y)%R.
Proof. unfold Rltb. by destruct (Rlt_dec x y). Qed.

Lemma Rltb_false x y : Rltb x y = false ↔ (y <= x)%R.
Proof. unfold Rltb. destruct (Rlt_dec x y); split; try done; intros; lra. Qed.

Lemma Reqb_true x y : Reqb x y = true ↔ x = y.
Proof. unfold Reqb. by destruct (Req_dec_T x y). Qed.

#[export] Instance R_scalar_laws : ScalarLaws R.
Proof.
  split.
  - split; intros; cbn [s_of_Z s_add s_sub s_mul R_scalar]; ring.
  - intros. apply plus_IZR.
  - intros. apply mult_IZR.
  - intros x. apply Reqb_true.
Qed.
