(* ===== verification/PolynomialReal.v ===== *)
(** * Polynomials over the real numbers

    [derivative] is the derivative of the function a polynomial denotes, and [levelSet], of
    degree one and two, the set of arguments where it takes a value.  The arithmetic is exact
    here: [FloatEq] against zero is equality and nothing is rounded. *)

From Stdlib Require Import Reals Lra.
From S2P Require Import Prelude Scalar RealScalars Polynomial PolynomialRing.

Module PolynomialReal.
Import Polynomial PolynomialRing.
Local Open Scope R_scope.

(** ** Derivatives *)

Lemma peval_derivable (cs : list R) x : derivable_pt_lim (peval cs) x (peval (deriv cs) x).
Proof.
  revert x. induction cs as [|c cs IH]; intros x.
  - apply (derivable_pt_lim_const 0).
  - rewrite peval_deriv_cons.
    assert (∀ y, (fct_cte c + id * peval cs)%F y = peval (c :: cs) y) as He
      by (intros y; by rewrite peval_cons).
    intros eps Heps.
    assert (derivable_pt_lim (fct_cte c + id * peval cs)%F x (0 + (1 * peval cs x + x * peval (deriv cs) x))) as Hd.
    { apply derivable_pt_lim_plus; [apply derivable_pt_lim_const|].
      apply (derivable_pt_lim_mult id); [apply derivable_pt_lim_id|apply IH]. }
    destruct (Hd eps Heps) as [delta Hdelta]. exists delta. intros h Hh Hh'.
    specialize (Hdelta h Hh Hh'). rewrite <-!He. cbn [s_add s_mul R_scalar].
    by replace (peval cs x + x * peval (deriv cs) x) with (0 + (1 * peval cs x + x * peval (deriv cs) x)) by ring.
Qed.

(** C17. [derivative] differentiates: over the real numbers, the value [derivative(t, n)] is the
    [n]-th derivative at [t] of the function that [operator()] computes. *)
Theorem polynomial_derivative (p : t R) (order : Z) fresh :
  wf p → (0 ≤ order)%Z →
  ∃ f : nat → R → R,
    (∀ x, eval p x = Ret (f 0%nat x)) ∧
    (∀ k x, derivable_pt_lim (f k) x (f (S k) x)) ∧
    (∀ x, derivative_at p x order fresh = Ret (f (Z.to_nat order) x)).
Proof.
  intros Hp Ho. exists (λ n, peval (Nat.iter n deriv (coefficients_ p))). split_and!.
  - intros x. by apply eval_peval, wf_nonempty.
  - intros k x. apply peval_derivable.
  - intros x. unfold derivative_at. destruct (derivative_peval p order fresh Hp Ho) as (q & -> & Hw & He).
    rewrite bind_Ret, eval_peval by (by apply wf_nonempty). by rewrite He.
Qed.

(** ** Roots *)

Lemma quadratic_roots a b c x :
  a ≠ 0 → x ∈ QuadraticRealRoots a b c ↔ a * x * x + b * x + c = 0.
Proof.
  intros Ha. unfold QuadraticRealRoots. cbn [s_of_Z s_sub s_mul s_add s_div s_opp s_sqrt s_lt s_eq R_scalar R_real].
  set (D := b * b - 4 * a * c).
  assert (4 * a * (a * x * x + b * x + c) = (2 * a * x + b) * (2 * a * x + b) - D) as HD by (unfold D; ring).
  assert (a * x * x + b * x + c = 0 ↔ (2 * a * x + b) * (2 * a * x + b) = D) as ->.
  { split; intros E; [rewrite E in HD; lra|]. rewrite E in HD. apply (Rmult_eq_reg_l (4 * a)); lra. }
  assert (∀ s, x = (- b + s) / (2 * a) ↔ 2 * a * x + b = s) as Hx.
  { intros s. split; [intros ->; field; lra|]. intros <-. field. lra. }
  destruct (Reqb D 0) eqn:E0.
  - apply Reqb_true in E0. rewrite E0, list_elem_of_singleton.
    replace (- b / (2 * a)) with ((- b + 0) / (2 * a)) by (field; lra). rewrite Hx.
    split; [intros ->; ring|]. intros Hs. by apply Rmult_integral in Hs as [|].
  - destruct (Rltb 0 D) eqn:E1.
    + apply Rltb_true in E1. rewrite elem_of_cons, list_elem_of_singleton.
      replace ((- b - sqrt D) / (2 * a)) with ((- b + - sqrt D) / (2 * a)) by (field; lra). rewrite !Hx.
      pose proof (sqrt_sqrt D ltac:(lra)) as Hs. rewrite <-Hs at 3. split.
      * intros [->| ->]; ring.
      * intros E. assert ((2 * a * x + b - sqrt D) * (2 * a * x + b + sqrt D) = 0) as Hm by lra.
        apply Rmult_integral in Hm as [Hm|Hm]; [left|right]; lra.
    + apply Rltb_false in E1. assert (D ≠ 0) by (intros E; apply Reqb_true in E; congruence).
      split; [intros Hn; by apply not_elem_of_nil in Hn|]. intros E.
      pose proof (Rle_0_sqr (2 * a * x + b)) as Hsq. unfold Rsqr in Hsq. lra.
Qed.

(** ** Level sets *)

Lemma wf_last (l : list R) c : wf (mk (l ++ [c])) → l ≠ [] → c ≠ 0.
Proof.
  intros (l' & c' & E & Hc) Hl. cbn [coefficients_] in E. apply app_inj_tail in E as [-> ->].
  destruct Hc as [|Hc]; [done|]. intros ->. cbn in Hc. by rewrite (proj2 (Reqb_true 0 0) eq_refl) in Hc.
Qed.

Lemma peval_level c0 cs level x : peval ((c0 - level) :: cs) x = 0 ↔ peval (c0 :: cs) x = level.
Proof. rewrite !peval_cons. cbn [s_add s_mul R_scalar]. split; lra. Qed.

Lemma level_set_linear a b level x :
  b ≠ 0 → x ∈ [- (a - level) / b] ↔ a + x * b = level.
Proof.
  intros Hb. rewrite list_elem_of_singleton. split; [intros ->; field; done|]. intros <-. field. done.
Qed.

Lemma quadratic_roots_once a b c : a ≠ 0 → NoDup (QuadraticRealRoots a b c).
Proof.
  intros Ha. unfold QuadraticRealRoots. cbn [s_of_Z s_sub s_mul s_add s_div s_opp s_sqrt s_lt s_eq R_scalar R_real].
  destruct (Reqb _ 0); [apply NoDup_singleton|]. destruct (Rltb 0 _) eqn:E; [|constructor].
  apply Rltb_true, sqrt_lt_R0 in E. apply NoDup_cons. split; [|apply NoDup_singleton].
  intros Heq%list_elem_of_singleton. apply (f_equal (Rmult (2 * a))) in Heq. field_simplify in Heq; [lra|done..].
Qed.

(** C29. [levelSet] in exact arithmetic: over the real numbers, and for polynomials of degree one and
    two, the numbers returned are the arguments where the polynomial takes the level, all of
    them and each once; for constants there are none.  (Roots of higher degree come from a
    vendored root finder, and doubles round; neither is covered.) *)
Theorem polynomial_level_set findRoots (p : t R) level :
  wf p → (length (coefficients_ p) ≤ 3)%nat →
  ∃ l, levelSet findRoots p level = Ret l ∧ NoDup l ∧
       if decide (length (coefficients_ p) = 1)%nat then l = [] else ∀ x, x ∈ l ↔ eval p x = Ret level.
Proof.
  intros Hp Hlen. pose proof (wf_nonempty _ Hp) as Hne.
  assert (∀ x, eval p x = Ret level ↔ peval (coefficients_ p) x = level) as Hev.
  { intros x. rewrite eval_peval by done. split; [by intros [=]|by intros ->]. }
  destruct p as [cs]. unfold levelSet. cbn [coefficients_] in *.
  destruct cs as [|a [|b cs]]; [done|rewrite decide_True by (simpl; lia)|rewrite decide_False by (simpl; lia)].
  { exists []. split; [done|]. split; [constructor|]. by rewrite decide_True. }
  cbn [vget lookup list_lookup]. rewrite bind_Ret, vset_lt, bind_Ret by (simpl; lia). cbn [insert list_insert length].
  cbn [s_sub R_scalar]. destruct cs as [|c cs].
  - cbn [vget lookup list_lookup]. eexists. split; [done|]. split; [apply NoDup_singleton|].
    rewrite decide_False by done. intros x. rewrite Hev, !peval_cons, peval_nil.
    cbn [s_opp s_div s_add s_mul s_of_Z R_scalar R_real].
    rewrite level_set_linear by (by apply (wf_last [a])). by rewrite Rmult_0_r, Rplus_0_r.
  - destruct cs as [|d cs]; [|simpl in Hlen; lia]. assert (c ≠ 0) as Hc by (by apply (wf_last [a; b])).
    cbn [vget lookup list_lookup]. eexists. split; [done|]. split; [by apply quadratic_roots_once|].
    rewrite decide_False by (cbn [length]; lia). intros x. rewrite Hev, !peval_cons, peval_nil.
    rewrite quadratic_roots by done. cbn [s_add s_mul s_of_Z R_scalar]. split; lra.
Qed.

(** ** Witnesses *)

Lemma wf_real (l : list R) c : c ≠ 0 → wf (mk (l ++ [c])).
Proof.
  intros Hc. exists l, c. split; [done|]. right. cbn. destruct (Reqb c 0) eqn:E; [|done].
  by apply Reqb_true in E.
Qed.

Lemma polynomial_derivative_witness :
  ∃ f : nat → R → R, (∀ k x, derivable_pt_lim (f k) x (f (S k) x)) ∧
    ∀ x, derivative_at (mk [1; 2; 3]) x 1 (λ _, 0) = Ret (f 1%nat x).
Proof.
  destruct (polynomial_derivative (mk [1; 2; 3]) 1 (λ _, 0)) as (f & _ & H1 & H2).
  - apply (wf_real [1; 2]). lra.
  - lia.
  - exists f. split; [exact H1|exact H2].
Defined.

Lemma polynomial_level_set_witness :
  ∃ l, levelSet (λ _, None) (mk [-7; 0; 2]) 1 = Ret l ∧ NoDup l ∧
       ∀ x, x ∈ l ↔ eval (mk [-7; 0; 2]) x = Ret 1.
Proof.
  destruct (polynomial_level_set (λ _, None) (mk [-7; 0; 2]) 1) as (l & Hl & Hn & H).
  - apply (wf_real [-7; 0]). lra.
  - simpl. lia.
  - exists l. split; [exact Hl|]. split; [exact Hn|exact H].
Defined.

End PolynomialReal.
