(* ===== verification/HornerRounding.v ===== *)
(** * Horner's rule in binary64 (src/a17/maths/polynomial.h)

    How far the value that [operator()] computes is from the value of the polynomial, over
    all coefficients and arguments that do not overflow: the classical bound, with the terms
    that come from underflow.  Both values are given by the one definition
    [Polynomial.eval], in [binary64] and over the real numbers. *)

From Stdlib Require Import SpecFloat Reals Lra Lia.
From S2P Require Import Prelude Floats FloatExact Rounding RealValue Scalar RealScalars Polynomial PolynomialRing.

Module HornerRounding.
Import Polynomial PolynomialRing.
Local Open Scope R_scope.

#[local] Opaque units one epsilon smallest ceiling.

(** ** One step *)

(** The error of [k] steps on a polynomial whose terms sum to [S] in absolute value, [N] being
    the sum of the powers. *)
Definition error (k S N : R) : R := k * (3 * epsilon * S + smallest * N).

Lemma error_bounds k S N :
  0 <= k → 16 * k * epsilon <= 1 → 0 <= S → 0 <= N → 0 <= error k S N <= S * (3 / 16) + N * (k * smallest).
Proof.
  intros Hk Hke HS HN. destruct smallest_bounds as [Hs _]. unfold error.
  assert (0 <= epsilon) by (rewrite epsilon_value; lra).
  assert (0 <= k * epsilon * S) by (repeat apply Rmult_le_pos; lra).
  assert (0 <= k * smallest * N) by (repeat apply Rmult_le_pos; lra).
  assert (S * (16 * k * epsilon) <= S * 1) by (apply Rmult_le_compat_l; lra). lra.
Qed.

(** A computed value is the exact one and the error, so its product with [x] is bounded. *)
Lemma product_bound k W V x S N :
  0 <= k → 16 * k * epsilon <= 1 → 0 <= S → 0 <= N → Rabs V <= S → Rabs (W - V) <= error k S N →
  Rabs (W * x) <= 19 / 16 * (S * Rabs x) + k * smallest * (N * Rabs x).
Proof.
  intros Hk Hke HS HN HV HW. destruct (error_bounds k S N) as [_ He]; [done..|].
  assert (Rabs W <= 19 / 16 * S + k * smallest * N) as HWb.
  { replace W with (V + (W - V)) by lra. pose proof (Rabs_triang V (W - V)). lra. }
  rewrite Rabs_mult. pose proof (Rabs_pos x) as Hx. apply (Rmult_le_compat_r (Rabs x)) in HWb; lra.
Qed.

Lemma horner_step k W V x c S N P Q :
  0 <= k → 16 * k * epsilon <= 1 → 0 <= S → 0 <= N → Rabs V <= S → Rabs (W - V) <= error k S N →
  Rabs (P - W * x) <= epsilon * Rabs (W * x) + smallest / 2 → Rabs (Q - (P + c)) <= epsilon * Rabs (P + c) →
  Rabs (Q - (c + x * V)) <= error (k + 1) (Rabs c + S * Rabs x) (1 + N * Rabs x).
Proof.
  intros Hk Hke HS HN HV HW HP HQ. destruct smallest_bounds as [Hs _].
  pose proof (product_bound k W V x S N Hk Hke HS HN HV HW) as Hb.
  pose proof (Rabs_pos x) as Hx. pose proof (Rabs_pos c) as Hc. pose proof (Rabs_pos (W * x)) as HWx.
  apply (Rmult_le_compat_r (Rabs x)) in HW; [|done]. rewrite <-Rabs_mult in HW.
  assert (Rabs (P + c) <= Rabs (W * x) + epsilon * Rabs (W * x) + smallest / 2 + Rabs c) as Hsum.
  { replace (P + c) with (W * x + (P - W * x) + c) by lra.
    pose proof (Rabs_triang (W * x + (P - W * x)) c). pose proof (Rabs_triang (W * x) (P - W * x)). lra. }
  assert (Rabs (Q - (c + x * V)) <= Rabs (Q - (P + c)) + Rabs (P - W * x) + Rabs ((W - V) * x)) as Ht.
  { replace (Q - (c + x * V)) with (Q - (P + c) + (P - W * x) + (W - V) * x) by ring.
    pose proof (Rabs_triang (Q - (P + c) + (P - W * x)) ((W - V) * x)).
    pose proof (Rabs_triang (Q - (P + c)) (P - W * x)). lra. }
  unfold error in *. set (a := S * Rabs x) in *. set (b := N * Rabs x) in *.
  assert (0 <= a) by (by apply Rmult_le_pos). assert (0 <= b) by (by apply Rmult_le_pos).
  assert (0 <= k * epsilon * a) by (repeat apply Rmult_le_pos; try lra; rewrite epsilon_value; lra).
  assert (0 <= k * epsilon * Rabs c) by (repeat apply Rmult_le_pos; try lra; rewrite epsilon_value; lra).
  assert (0 <= k * smallest) by (apply Rmult_le_pos; lra).
  assert (0 <= k * smallest * b) by (by apply Rmult_le_pos).
  assert (0 <= smallest * b) by (apply Rmult_le_pos; lra).
  assert (k * smallest * b * (16 * epsilon) <= smallest * b).
  { replace (k * smallest * b * (16 * epsilon)) with (16 * k * epsilon * (smallest * b)) by ring.
    rewrite <-(Rmult_1_l (smallest * b)) at 2. by apply Rmult_le_compat_r. }
  replace (k * (3 * epsilon * S + smallest * N) * Rabs x) with (k * (3 * epsilon * a + smallest * b)) in HW
    by (unfold a, b; ring).
  rewrite epsilon_value in *. lra.
Qed.

Lemma horner_range k W V x c S N :
  0 <= k → 16 * k * epsilon <= 1 → 0 <= S → 0 <= N → Rabs V <= S → Rabs (W - V) <= error k S N →
  Rabs c + S * Rabs x <= ceiling → 1 + N * Rabs x <= ceiling →
  Rabs (W * x) <= 3 * ceiling ∧
  ∀ P, Rabs (P - W * x) <= epsilon * Rabs (W * x) + smallest / 2 → Rabs (P + c) <= 16 * ceiling.
Proof.
  intros Hk Hke HS HN HV HW HSx HNx. pose proof ceiling_ge as H1. destruct smallest_bounds as [Hs Hs'].
  pose proof (product_bound k W V x S N Hk Hke HS HN HV HW) as Hb. pose proof (Rabs_pos c) as Hc.
  assert (k * smallest <= 1).
  { rewrite epsilon_value in Hke. assert (k * smallest <= k * (1 / 1125899906842624)); [|lra].
    by apply Rmult_le_compat_l. }
  assert (k * smallest * (N * Rabs x) <= 1 * (N * Rabs x)).
  { apply Rmult_le_compat_r; [|done]. apply Rmult_le_pos; [done|apply Rabs_pos]. }
  assert (Rabs (W * x) <= 3 * ceiling) as HWx by lra. split; [done|]. intros P HP.
  replace (P + c) with (W * x + (P - W * x) + c) by lra.
  pose proof (Rabs_triang (W * x + (P - W * x)) c). pose proof (Rabs_triang (W * x) (P - W * x)).
  rewrite epsilon_value in HP. lra.
Qed.

(** ** The loop *)

(** The terms of a polynomial in absolute value, and the powers of the argument. *)
Definition magnitude (cs : list spec_float) (x : spec_float) : R :=
  foldr (λ c s, Rabs (val c) + s * Rabs (val x)) 0 cs.

Definition powers (n : nat) (x : spec_float) : R := Nat.iter n (λ s, 1 + s * Rabs (val x)) 0.

Lemma magnitude_pos cs x : 0 <= magnitude cs x.
Proof.
  induction cs as [|c cs IH]; cbn [magnitude foldr]; [lra|].
  pose proof (Rabs_pos (val c)). pose proof (Rmult_le_pos _ _ IH (Rabs_pos (val x))). unfold magnitude in *. lra.
Qed.

Lemma powers_nonneg n x : 0 <= powers n x.
Proof.
  induction n as [|n IH]; [apply Rle_refl|]. change (0 <= 1 + powers n x * Rabs (val x)).
  pose proof (Rmult_le_pos _ _ IH (Rabs_pos (val x))). lra.
Qed.

Lemma powers_mono n m x : (n ≤ m)%nat → powers n x <= powers m x.
Proof.
  revert m. induction n as [|n IH]; intros [|m] Hle; [apply Rle_refl|apply powers_nonneg|lia|].
  change (1 + powers n x * Rabs (val x) <= 1 + powers m x * Rabs (val x)).
  apply Rplus_le_compat_l, Rmult_le_compat_r; [apply Rabs_pos|]. apply IH. lia.
Qed.

Definition value (cs : list spec_float) (x : spec_float) : R := peval (map val cs) (val x).

Lemma value_cons c cs x : value (c :: cs) x = val c + val x * value cs x.
Proof. unfold value. cbn [map]. by rewrite (peval_cons (T := R)). Qed.

Lemma value_le cs x : Rabs (value cs x) <= magnitude cs x.
Proof.
  induction cs as [|c cs IH].
  - unfold value. cbn [map]. rewrite (peval_nil (T := R)). cbn. rewrite Rabs_R0. lra.
  - rewrite value_cons. change (magnitude (c :: cs) x) with (Rabs (val c) + magnitude cs x * Rabs (val x)).
    etrans; [apply Rabs_triang|]. rewrite Rabs_mult, (Rmult_comm (Rabs (val x))).
    apply Rplus_le_compat_l, Rmult_le_compat_r; [apply Rabs_pos|done].
Qed.

Section Loop.
Context (cs : list spec_float) (x : spec_float).
Hypothesis Hcs : Forall number cs.
Hypothesis Hx : number x.
Hypothesis Hlen : (Z.of_nat (length cs) ≤ 2 ^ 49)%Z.
Hypothesis Hmag : ∀ i, magnitude (drop i cs) x <= ceiling.
Hypothesis Hpow : powers (length cs) x <= ceiling.

(** What is left when the loop has reached the index [idx]. *)
Definition near (idx : nat) (w : spec_float) : Prop :=
  number w ∧ Rabs (val w - value (drop idx cs) x)
    <= error (INR (length cs - S idx)) (magnitude (drop idx cs) x) (powers (length cs - idx) x).

Lemma near_step i c w :
  cs !! i = Some c → (S i < length cs)%nat → near (S i) w → near i (fadd (fmul w x) c).
Proof.
  intros Hc Hi [Hw Hn]. pose proof (Forall_lookup_1 _ _ _ _ Hcs Hc) as Hnc.
  set (k := INR (length cs - S (S i))) in *.
  assert (0 <= k) as Hk by apply pos_INR.
  assert (16 * k * epsilon <= 1) as Hke.
  { assert (k <= 562949953421312); [|rewrite epsilon_value; lra]. unfold k. rewrite INR_IZR_INZ.
    apply (IZR_le _ 562949953421312). change (2 ^ 49)%Z with 562949953421312%Z in Hlen. lia. }
  pose proof (Hmag i) as Hmi. assert (powers (length cs - i) x <= ceiling) as Hpi.
  { etrans; [|exact Hpow]. apply powers_mono. lia. }
  unfold near. rewrite (drop_S _ _ _ Hc) in Hmi |- *.
  replace (length cs - i)%nat with (S (length cs - S i)) in Hpi |- * by lia.
  replace (length cs - S i)%nat with (S (length cs - S (S i))) at 1 by lia. rewrite S_INR, value_cons. fold k.
  set (tl := drop (S i) cs) in *. set (n := (length cs - S i)%nat) in *.
  change (magnitude (c :: tl) x) with (Rabs (val c) + magnitude tl x * Rabs (val x)) in Hmi |- *.
  change (powers (S n) x) with (1 + powers n x * Rabs (val x)) in Hpi |- *.
  pose proof (magnitude_pos tl x) as HS. pose proof (powers_nonneg n x) as HN. pose proof (value_le tl x) as HV.
  destruct (horner_range k (val w) (value tl x) (val x) (val c) (magnitude tl x) (powers n x)) as [H1 H2]; [done..|].
  pose proof ceiling_ge. destruct (fmul_val w x) as [Hp Ep]; [done|done|lra|].
  destruct (fadd_val (fmul w x) c) as [Hq Eq]; [done|done|by apply H2|].
  split; [done|]. by apply (horner_step k (val w) _ _ _ _ _ (val (fmul w x))).
Qed.

Lemma eval_loop_near idx w :
  (idx < length cs)%nat → near idx w → ∃ y, eval_loop cs x idx w = Ret y ∧ near 0 y.
Proof.
  revert w. induction idx as [|i IH]; intros w Hi Hw; cbn [eval_loop]; [by exists w|].
  destruct (lookup_lt_is_Some_2 cs i ltac:(lia)) as [c Hc]. rewrite (vget_lookup _ _ _ Hc), bind_Ret.
  apply IH; [lia|]. by apply near_step.
Qed.

End Loop.

(** C32. Horner's rule in binary64 is as accurate as it can be expected: for finite coefficients and
    argument, if no partial sum of the absolute values of the terms is above [2 ^ 1000], the value
    [operator()] returns is a number and differs from the exact value of the polynomial by at most three
    rounding errors per coefficient, relative to the sum of the absolute values of the terms, and one
    smallest [double] per coefficient, times the sum of the powers, for underflow. *)
Theorem polynomial_eval_rounding (cs : list spec_float) (x : spec_float) :
  cs ≠ [] → Forall number cs → number x → (Z.of_nat (length cs) ≤ 2 ^ 49)%Z →
  (∀ i, magnitude (drop i cs) x <= ceiling) → powers (length cs) x <= ceiling →
  ∃ y v, eval (mk cs) x = Ret y ∧ number y ∧ eval (mk (map val cs)) (val x) = Ret v ∧
    Rabs (val y - v) <= INR (length cs - 1) * (3 * epsilon * magnitude cs x + smallest * powers (length cs) x).
Proof.
  intros Hne Hcs Hx Hlen Hmag Hpow. destruct (length cs) as [|n] eqn:El; [by destruct cs|].
  destruct (lookup_lt_is_Some_2 cs n ltac:(lia)) as [c Hc]. pose proof (Forall_lookup_1 _ _ _ _ Hcs Hc) as Hnc.
  assert (near cs x n c) as Hw.
  { split; [done|]. rewrite (drop_S _ _ _ Hc), drop_ge, value_cons, El, Nat.sub_diag by lia. unfold value.
    cbn [map]. rewrite (peval_nil (T := R)). unfold error. cbn [s_of_Z R_scalar INR].
    rewrite Rmult_0_r, Rplus_0_r, Rminus_diag, Rabs_R0. lra. }
  rewrite <-El in Hlen, Hpow.
  destruct (eval_loop_near cs x Hcs Hx Hlen Hmag Hpow n c) as (y & Hy & Hn & He); [lia|done|].
  exists y, (value cs x). split_and!.
  - unfold eval. cbn [coefficients_]. by rewrite El, (vget_lookup _ _ _ Hc), bind_Ret.
  - done.
  - rewrite (eval_peval (T := R)); [done|]. cbn [coefficients_]. by destruct cs.
  - rewrite drop_0, Nat.sub_0_r, El in He. exact He.
Qed.

(** Bounds for arguments of at most one. *)
Lemma magnitude_unit cs x b :
  Rabs (val x) <= 1 → Forall (λ c, Rabs (val c) <= b) cs → magnitude cs x <= INR (length cs) * b.
Proof.
  intros Hx Hcs. induction Hcs as [|c cs Hc Hcs IH]; [cbn; lra|]. cbn [length]. rewrite S_INR.
  change (magnitude (c :: cs) x) with (Rabs (val c) + magnitude cs x * Rabs (val x)).
  pose proof (magnitude_pos cs x). assert (magnitude cs x * Rabs (val x) <= magnitude cs x * 1); [|lra].
  by apply Rmult_le_compat_l.
Qed.

Lemma powers_unit n x : Rabs (val x) <= 1 → powers n x <= INR n.
Proof.
  intros Hx. induction n as [|n IH]; [apply Rle_refl|]. rewrite S_INR.
  change (powers (S n) x) with (1 + powers n x * Rabs (val x)).
  pose proof (powers_nonneg n x). assert (powers n x * Rabs (val x) <= powers n x * 1); [|lra].
  by apply Rmult_le_compat_l.
Qed.

(** The number nearest to one tenth. *)
Definition tenth : spec_float := S754_finite false 7205759403792794 (-56).

Lemma tenth_number : number tenth ∧ Rabs (val tenth) <= 1.
Proof. split; [by split|]. apply (val_le _ 1). by vm_compute. Qed.

Lemma polynomial_eval_rounding_witness :
  ∃ y v, eval (mk [tenth; tenth; tenth]) tenth = Ret y ∧ number y ∧
    eval (mk (map val [tenth; tenth; tenth])) (val tenth) = Ret v ∧
    Rabs (val y - v) <= INR 2 * (3 * epsilon * magnitude [tenth; tenth; tenth] tenth + smallest * powers 3 tenth).
Proof.
  destruct tenth_number as [Hn Hv].
  assert (8 <= ceiling) as Hc by (apply (IZR_le 8 (2 ^ 1000)); by vm_compute).
  assert (∀ n, (n ≤ 3)%nat → INR n <= 3) as H3 by (intros n Hle; change 3 with (IZR (Z.of_nat 3)); rewrite <-INR_IZR_INZ; by apply le_INR).
  apply (polynomial_eval_rounding [tenth; tenth; tenth] tenth); [done|by repeat constructor|done|by vm_compute|..].
  - intros i. etrans; [apply (magnitude_unit _ _ 1 Hv)|].
    + apply Forall_drop. do 3 (constructor; [exact Hv|]); by constructor.
    + rewrite length_drop. pose proof (H3 (length [tenth; tenth; tenth] - i)%nat ltac:(cbn; lia)). lra.
  - etrans; [by apply powers_unit|]. pose proof (H3 3%nat ltac:(lia)). cbn [length]. lra.
Defined.

End HornerRounding.
