(* ===== verification/Angles.v ===== *)
(** * Angles (src/a17/maths/angle_utils.cpp, angle_unroller.cpp, constants.cpp)

    The loops of [WrapToPi] run on fuel; a loop that does not end, which in C++ is undefined
    behaviour, runs out of every amount of it.  Over the real numbers they end, and
    [wrap_fuel] says after how many turns. *)

From Stdlib Require Import SpecFloat Reals Lra Lia.
From S2P Require Import Prelude Floats FloatExact Rounding FloatUtils Scalar RealScalars.

(** ** What the code uses of [cmath] *)

Class AngleScalar (T : Type) `{RealScalar T} : Type := {
  s_abs : T → T;
  s_fmod : T → T → T;
  s_le : T → T → bool;
  kPi : T
}.

(** [std::fmod] is exact: the remainder of the mantissas at the smaller exponent. *)
Definition fmod (x y : spec_float) : spec_float :=
  match x, y with
  | S754_nan, _ | _, S754_nan | S754_infinity _, _ | _, S754_zero _ => S754_nan
  | S754_zero _, _ | _, S754_infinity _ => x
  | S754_finite sx mx ex, S754_finite _ my ey =>
      let e := Z.min ex ey in
      let r := (Z.shiftl (Z.pos mx) (ex - e) mod Z.shiftl (Z.pos my) (ey - e))%Z in
      binary_normalize 53 1024 (cond_Zopp sx r) e sx
  end.

#[export] Instance binary64_angle : AngleScalar spec_float := {
  s_abs := fabs;
  s_fmod := fmod;
  s_le := fle;
  kPi := M_PI
}.

(** Over the real numbers the quotient of [fmod] is rounded towards zero. *)
Definition Rtrunc (x : R) : Z := if Rltb x 0 then (- Int_part (- x))%Z else Int_part x.

#[export] Instance R_angle : AngleScalar R := {
  s_abs := Rabs;
  s_fmod x y := (x - IZR (Rtrunc (x / y)) * y)%R;
  s_le x y := negb (Rltb y x);
  kPi := PI
}.

(** ** Operations *)

Section Operations.
Context {T : Type} `{AngleScalar T}.
Local Open Scope scalar_scope.

Fixpoint wrap_down (fuel : nat) (angle : T) : outcome T :=
  if s_lt kPi angle then
    match fuel with O => Undef | S fuel' => wrap_down fuel' (angle - s_of_Z 2 * kPi) end
  else Ret angle.

Fixpoint wrap_up (fuel : nat) (angle : T) : outcome T :=
  if s_lt angle (s_opp kPi) then
    match fuel with O => Undef | S fuel' => wrap_up fuel' (angle + s_of_Z 2 * kPi) end
  else Ret angle.

Definition WrapToPi (fuel : nat) (angle : T) : outcome T :=
  angle ← wrap_down fuel angle;
  wrap_up fuel angle.

Definition AngleDiff (angle1 angle2 : T) : T :=
  kPi - s_abs (s_fmod (s_abs (angle1 - angle2)) (kPi * s_of_Z 2) - kPi).

Definition DegreesToRadians (degrees : T) : T := degrees * kPi / s_of_Z 180.

Definition RadiansToDegrees (radians : T) : T := radians * s_of_Z 180 / kPi.

(** [AngleUnroller]: the state is the unrolled angle. *)
Record unroller : Type := mk_unroller { unrolled_angle_ : T }.

Definition AngleUnroller (initial_angle : T) : unroller := mk_unroller initial_angle.

Definition unrolledAngle (u : unroller) : T := unrolled_angle_ u.

Definition unrollAngle (fuel : nat) (u : unroller) (angle : T) : outcome (unroller * T) :=
  previous_angle ← WrapToPi fuel (unrolled_angle_ u);
  angle ← WrapToPi fuel angle;
  let diff := angle - previous_angle in
  let unrolled :=
    if s_le (s_abs diff) kPi then unrolled_angle_ u + diff
    else if s_lt (s_of_Z 0) diff then unrolled_angle_ u - (s_of_Z 2 * kPi - diff)
    else unrolled_angle_ u + (s_of_Z 2 * kPi + diff) in
  Ret (mk_unroller unrolled, unrolled).

(** A sequence of angles, and the unrolled angles returned. *)
Fixpoint unroll_all (fuel : nat) (u : unroller) (angles : list T) : outcome (list T) :=
  match angles with
  | [] => Ret []
  | a :: angles' =>
      '(u, r) ← unrollAngle fuel u a;
      rs ← unroll_all fuel u angles';
      Ret (r :: rs)
  end.

End Operations.
Arguments unroller : clear implicits.

(** More fuel does not change a result. *)
Section Fuel.
Context {T : Type} `{AngleScalar T}.

Lemma wrap_down_mono n m (a r : T) : wrap_down n a = Ret r → (n ≤ m)%nat → wrap_down m a = Ret r.
Proof.
  revert m a. induction n as [|n IH]; intros [|m] a; cbn [wrap_down]; destruct (s_lt kPi a); try done; [lia|].
  intros Hr Hm. apply IH; [done|lia].
Qed.

Lemma wrap_up_mono n m (a r : T) : wrap_up n a = Ret r → (n ≤ m)%nat → wrap_up m a = Ret r.
Proof.
  revert m a. induction n as [|n IH]; intros [|m] a; cbn [wrap_up]; destruct (s_lt a (s_opp kPi)); try done; [lia|].
  intros Hr Hm. apply IH; [done|lia].
Qed.

Lemma WrapToPi_mono n m (a r : T) : WrapToPi n a = Ret r → (n ≤ m)%nat → WrapToPi m a = Ret r.
Proof.
  intros (b & Hb & Hr)%bind_Ret_inv Hm. unfold WrapToPi.
  rewrite (wrap_down_mono _ _ _ _ Hb Hm), bind_Ret. by eapply wrap_up_mono.
Qed.

Lemma unroll_fuel n m (u u1 u2 : unroller T) (a r1 r2 : T) :
  unrollAngle n u a = Ret (u1, r1) → unrollAngle m u a = Ret (u2, r2) → (n ≤ m)%nat → r2 = r1.
Proof.
  intros (p & Hp & (w & Hw & [= _ <-])%bind_Ret_inv)%bind_Ret_inv H2 Hm. revert H2. unfold unrollAngle.
  rewrite (WrapToPi_mono _ _ _ _ Hp Hm), bind_Ret, (WrapToPi_mono _ _ _ _ Hw Hm), bind_Ret. by intros [= _ <-].
Qed.

End Fuel.

(** ** The real numbers *)

Section Real.
Local Open Scope R_scope.

(** Two angles that differ by full turns. *)
Definition congruent (x y : R) : Prop := ∃ k : Z, x = y + IZR k * (2 * PI).

Lemma congruent_refl x : congruent x x.
Proof. exists 0%Z. ring. Qed.

Lemma congruent_trans x y z : congruent x y → congruent y z → congruent x z.
Proof. intros [j ->] [k ->]. exists (j + k)%Z. rewrite plus_IZR. ring. Qed.

Lemma congruent_step x y k : congruent (x + IZR k * (2 * PI)) y → congruent x y.
Proof. intros [j E]. exists (j - k)%Z. rewrite minus_IZR. lra. Qed.

Lemma wrap_down_spec fuel a :
  a < PI + INR fuel * (2 * PI) →
  ∃ r, wrap_down fuel a = Ret r ∧ congruent r a ∧ r <= PI ∧ (- PI <= a → - PI <= r) ∧ (a <= PI → r = a).
Proof.
  pose proof PI_RGT_0 as Hpi.
  revert a. induction fuel as [|n IH]; intros a Ha; cbn [wrap_down s_lt s_of_Z s_sub s_mul kPi R_scalar R_real R_angle].
  - cbn [INR] in Ha. rewrite (proj2 (Rltb_false PI a)) by lra. exists a. split_and!; [done|apply congruent_refl|lra|done|done].
  - destruct (Rltb PI a) eqn:E.
    + apply Rltb_true in E. rewrite S_INR in Ha.
      destruct (IH (a - 2 * PI)) as (r & -> & Hc & H1 & H2 & H3); [lra|].
      exists r. split_and!; [done| |lra| |intros; lra].
      * eapply congruent_trans; [exact Hc|]. exists (-1)%Z. lra.
      * intros _. apply H2. lra.
    + apply Rltb_false in E. exists a. split_and!; [done|apply congruent_refl|lra|done|done].
Qed.

Lemma wrap_up_spec fuel a :
  - PI - INR fuel * (2 * PI) < a → a <= PI →
  ∃ r, wrap_up fuel a = Ret r ∧ congruent r a ∧ - PI <= r <= PI.
Proof.
  pose proof PI_RGT_0 as Hpi.
  revert a. induction fuel as [|n IH]; intros a Ha Hle; cbn [wrap_up s_lt s_of_Z s_add s_mul s_opp kPi R_scalar R_real R_angle].
  - cbn [INR] in Ha. rewrite (proj2 (Rltb_false a (- PI))) by lra. exists a. split_and!; [done|apply congruent_refl|lra..].
  - destruct (Rltb a (- PI)) eqn:E.
    + apply Rltb_true in E. rewrite S_INR in Ha.
      destruct (IH (a + 2 * PI)) as (r & -> & Hc & H1); [lra|lra|].
      exists r. split_and!; [done| |lra|lra]. eapply congruent_trans; [exact Hc|]. exists 1%Z. lra.
    + apply Rltb_false in E. exists a. split_and!; [done|apply congruent_refl|lra..].
Qed.

(** Enough turns for an angle. *)
Definition wrap_fuel (a : R) : nat := Z.to_nat (up (Rabs a / (2 * PI))).

Lemma wrap_fuel_enough fuel a : (wrap_fuel a ≤ fuel)%nat → Rabs a < INR fuel * (2 * PI).
Proof.
  intros Hf. pose proof PI_RGT_0 as Hpi. unfold wrap_fuel in Hf.
  destruct (archimed (Rabs a / (2 * PI))) as [Hup _].
  assert (0 <= Rabs a / (2 * PI)) by (apply Rle_mult_inv_pos; [apply Rabs_pos|lra]).
  assert (IZR (up (Rabs a / (2 * PI))) <= INR fuel) as Hle.
  { rewrite INR_IZR_INZ. apply IZR_le. lia. }
  apply (Rmult_lt_reg_r (/ (2 * PI))); [apply Rinv_0_lt_compat; lra|].
  rewrite Rmult_assoc, Rinv_r, Rmult_1_r by lra. unfold Rdiv in *. lra.
Qed.

Lemma WrapToPi_real fuel a :
  (wrap_fuel a ≤ fuel)%nat → ∃ r, WrapToPi fuel a = Ret r ∧ congruent r a ∧ - PI <= r <= PI.
Proof.
  intros Hf%wrap_fuel_enough. pose proof PI_RGT_0 as Hpi. unfold WrapToPi.
  pose proof (Rle_abs a). pose proof (Rle_abs (- a)). rewrite Rabs_Ropp in *.
  destruct (wrap_down_spec fuel a) as (r & -> & Hc & H1 & H2 & H3); [lra|]. rewrite bind_Ret.
  destruct (wrap_up_spec fuel r) as (r' & -> & Hc' & Hr); [|lra|].
  - destruct (Rle_dec (- PI) a) as [Ha|Ha]; [specialize (H2 Ha); pose proof (pos_INR fuel); nra|].
    rewrite H3; lra.
  - exists r'. split_and!; [done|by eapply congruent_trans|lra..].
Qed.

(** An angle in range is kept, without a turn of the loops. *)
Lemma WrapToPi_id fuel a : - PI <= a <= PI → WrapToPi fuel a = Ret a.
Proof.
  intros Ha. unfold WrapToPi.
  assert (wrap_down fuel a = Ret a) as ->.
  { destruct fuel; cbn [wrap_down s_lt kPi R_real R_angle]; by rewrite (proj2 (Rltb_false _ _)) by lra. }
  destruct fuel; cbn; by rewrite (proj2 (Rltb_false _ _)) by lra.
Qed.

(** Congruent angles less than a turn apart are equal. *)
Lemma congruent_close x y : congruent x y → Rabs (x - y) < 2 * PI → x = y.
Proof.
  intros [k E] Hd. pose proof PI_RGT_0 as Hpi. apply Rabs_def2 in Hd.
  assert (k = 0%Z) as ->; [|lra].
  assert (-1 < IZR k < 1) as [H1 H2] by (split; nra).
  apply (lt_IZR (-1)) in H1. apply (lt_IZR k 1) in H2. lia.
Qed.

(** The remainder of a positive number. *)
Lemma fmod_real d : 0 <= d → ∃ m, s_fmod d (PI * 2) = m ∧ congruent m d ∧ 0 <= m < 2 * PI.
Proof.
  intros Hd. pose proof PI_RGT_0 as Hpi. eexists. split; [reflexivity|].
  cbn [s_fmod R_angle]. unfold Rtrunc.
  assert (0 <= d / (PI * 2)) as Hq by (apply Rle_mult_inv_pos; lra).
  rewrite (proj2 (Rltb_false _ _)) by lra.
  destruct (base_Int_part (d / (PI * 2))) as [H1 H2].
  assert (d = d / (PI * 2) * (PI * 2)) as Ed by (field; lra). split.
  - exists (- Int_part (d / (PI * 2)))%Z. rewrite opp_IZR. ring.
  - rewrite Ed at 1 3. split; nra.
Qed.

(** The smaller of the two arcs is determined by its end up to sign. *)
Lemma arc_unique u v : 0 <= u <= PI → 0 <= v <= PI → congruent u v ∨ congruent u (- v) → u = v.
Proof.
  intros Hu Hv [Hc|Hc]; pose proof PI_RGT_0 as Hpi.
  - apply congruent_close; [done|]. apply Rabs_def1; lra.
  - destruct Hc as [k E]. assert (IZR k < 2 ∧ -1 < IZR k) as [H1 H2] by (split; nra).
    apply (lt_IZR k 2) in H1. apply (lt_IZR (-1)) in H2.
    assert (k = 0 ∨ k = 1)%Z as [->| ->] by lia; lra.
Qed.

Lemma congruent_opp x y : congruent x y → congruent (- x) (- y).
Proof. intros [k ->]. exists (- k)%Z. rewrite opp_IZR. ring. Qed.

Lemma congruent_sym x y : congruent x y → congruent y x.
Proof. intros [k ->]. exists (- k)%Z. rewrite opp_IZR. ring. Qed.

(** The absolute value is the number up to sign. *)
Lemma congruent_abs x y : congruent x y → congruent (Rabs x) (Rabs y) ∨ congruent (Rabs x) (- Rabs y).
Proof.
  intros Hc. unfold Rabs. destruct (Rcase_abs x), (Rcase_abs y); rewrite ?Ropp_involutive.
  - left. by apply congruent_opp.
  - right. by apply congruent_opp.
  - by right.
  - by left.
Qed.

(** ** Properties *)

(** [WrapToPi] ends and wraps: over the real numbers its loops end after at most as many turns
    as the angle has, and it returns the angle up to full turns, between minus pi and pi;
    an angle that is in this range already is returned as it is. *)
Theorem wrap_to_pi fuel a :
  (wrap_fuel a ≤ fuel)%nat →
  ∃ r, WrapToPi fuel a = Ret r ∧ congruent r a ∧ - PI <= r <= PI ∧ (- PI <= a <= PI → r = a).
Proof.
  intros Hf. destruct (WrapToPi_real fuel a Hf) as (r & Hr & Hc & Hb). exists r. split_and!; [done|done|lra|lra|].
  intros Ha. rewrite WrapToPi_id in Hr by done. by injection Hr as ->.
Qed.

(** [AngleDiff] is the size of the wrapped difference: over the real numbers the closed formula
    with [fmod] and the loops of [WrapToPi] agree, and the result is between zero and pi. *)
Theorem angle_diff_is_wrapped fuel a b :
  (wrap_fuel (a - b) ≤ fuel)%nat →
  ∃ r, WrapToPi fuel (a - b) = Ret r ∧ AngleDiff a b = Rabs r ∧ 0 <= AngleDiff a b <= PI.
Proof.
  intros Hf. pose proof PI_RGT_0 as Hpi. destruct (WrapToPi_real fuel _ Hf) as (r & Hr & Hc & Hb).
  exists r. split; [done|].
  destruct (fmod_real (Rabs (a - b)) (Rabs_pos _)) as (m & Hm & Hcm & Hmb).
  unfold AngleDiff. cbn [s_sub s_abs kPi s_mul s_of_Z R_scalar R_angle] in *. rewrite Hm.
  assert (0 <= PI - Rabs (m - PI) <= PI) as Hbound.
  { pose proof (Rabs_pos (m - PI)). split; [|lra]. assert (Rabs (m - PI) <= PI) by (apply Rabs_le; lra). lra. }
  split; [|done]. apply arc_unique; [done|split; [apply Rabs_pos|apply Rabs_le; lra]|].
  assert (congruent (PI - Rabs (m - PI)) m ∨ congruent (PI - Rabs (m - PI)) (- m)) as Harc.
  { unfold Rabs. destruct (Rcase_abs (m - PI)); [left|right]; [exists 0%Z|exists 1%Z]; lra. }
  assert (congruent m (Rabs r) ∨ congruent m (- Rabs r)) as Hmr.
  { destruct (congruent_abs _ _ (congruent_sym _ _ Hc)) as [H|H]; [left|right]; by eapply congruent_trans. }
  destruct Harc as [H1|H1], Hmr as [H2|H2].
  - left. by eapply congruent_trans.
  - right. by eapply congruent_trans.
  - right. eapply congruent_trans; [done|]. by apply congruent_opp.
  - left. eapply congruent_trans; [done|]. rewrite <-(Ropp_involutive (Rabs r)). by apply congruent_opp.
Qed.

Lemma unrollAngle_real fuel u a :
  (wrap_fuel (unrolled_angle_ u) ≤ fuel)%nat → (wrap_fuel a ≤ fuel)%nat →
  ∃ r, unrollAngle fuel u a = Ret (mk_unroller r, r) ∧ congruent r a ∧ Rabs (r - unrolled_angle_ u) <= PI.
Proof.
  intros Hu Ha. pose proof PI_RGT_0 as Hpi. unfold unrollAngle.
  destruct (WrapToPi_real fuel _ Hu) as (p & -> & Hcp & Hbp). rewrite bind_Ret.
  destruct (WrapToPi_real fuel _ Ha) as (w & -> & Hcw & Hbw). rewrite bind_Ret.
  cbn [s_le s_abs s_lt s_sub s_add s_mul s_of_Z kPi R_scalar R_real R_angle].
  set (st := unrolled_angle_ u) in *. eexists. split; [reflexivity|].
  destruct Hcp as [j Hj], Hcw as [k Hk].
  destruct (Rltb PI (Rabs (w - p))) eqn:E; cbn [negb].
  - apply Rltb_true in E. destruct (Rltb 0 (w - p)) eqn:E1.
    + apply Rltb_true in E1. rewrite Rabs_pos_eq in E by lra. split.
      * exists (k - j - 1)%Z. rewrite !minus_IZR. lra.
      * apply Rabs_le. lra.
    + apply Rltb_false in E1. rewrite Rabs_left1 in E by lra. split.
      * exists (k - j + 1)%Z. rewrite plus_IZR, minus_IZR. lra.
      * apply Rabs_le. lra.
  - apply Rltb_false in E. split.
    + exists (k - j)%Z. rewrite minus_IZR. lra.
    + replace (st + (w - p) - st) with (w - p) by ring. done.
Qed.

(** C27. Unrolling has no jumps in exact arithmetic: over the real numbers, with the exact pi,
    whatever sequence of angles is added, the loops end and every angle returned equals the one
    added up to full turns and is at most half a turn from the one returned before.  This is no
    statement about doubles: for those see [unroller_binary64], which bounds the angles, and
    [wrap_to_pi_hangs], why a bound is needed. *)
Theorem unroller_continuous (angles : list R) u :
  ∃ fuel rs, unroll_all fuel u angles = Ret rs ∧ Forall2 congruent rs angles ∧
    ∀ i x y, (unrolledAngle u :: rs) !! i = Some x → rs !! i = Some y → Rabs (y - x) <= PI.
Proof.
  assert (∀ angles u, ∃ n, ∀ fuel, (n ≤ fuel)%nat → ∃ rs, unroll_all fuel u angles = Ret rs ∧
    Forall2 congruent rs angles ∧
    ∀ i x y, (unrolledAngle u :: rs) !! i = Some x → rs !! i = Some y → Rabs (y - x) <= PI) as Hg.
  { clear angles u. induction angles as [|a angles IH]; intros u.
    - exists 0%nat. intros fuel _. exists []. split_and!; [done|constructor|done].
    - set (m := Nat.max (wrap_fuel (unrolled_angle_ u)) (wrap_fuel a)).
      destruct (unrollAngle_real m u a) as (r & Hr & _ & _); [lia..|].
      destruct (IH (mk_unroller r)) as [n Hn]. exists (Nat.max m n). intros fuel Hf.
      destruct (unrollAngle_real fuel u a) as (r' & Hr' & Hc & Hd); [lia..|].
      assert (r' = r) as ->.
      { by eapply unroll_fuel; [exact Hr|exact Hr'|lia]. }
      destruct (Hn fuel ltac:(lia)) as (rs & Hrs & H2 & H3). exists (r :: rs). cbn [unroll_all].
      rewrite Hr', bind_Ret. cbv beta iota. rewrite Hrs, bind_Ret. split_and!; [done|by constructor|].
      intros [|i] x y; cbn [lookup list_lookup]; [by intros [= <-] [= <-]|]. apply H3. }
  destruct (Hg angles u) as [n Hn]. destruct (Hn n ltac:(lia)) as (rs & Hrs). by exists n, rs.
Qed.

End Real.

(** ** The program's arithmetic *)

Lemma wrap_down_fixed {T} `{AngleScalar T} fuel (a : T) :
  s_lt kPi a = true → s_sub a (s_mul (s_of_Z 2) kPi) = a → wrap_down fuel a = Undef.
Proof. intros Hlt Hsub. induction fuel as [|fuel IH]; cbn [wrap_down]; rewrite Hlt; [done|]. by rewrite Hsub. Qed.

(** In binary64 [WrapToPi] does not end on large angles: from about [2 ^ 55] on, taking off a turn
    is lost in rounding, and the loop runs out of any fuel. *)
Theorem wrap_to_pi_hangs fuel :
  WrapToPi fuel (of_Z (2 ^ 60)) = Undef ∧ WrapToPi fuel (S754_infinity false) = Undef.
Proof. split; unfold WrapToPi; rewrite wrap_down_fixed; try reflexivity; vm_compute; reflexivity. Qed.

(** Degrees and radians, over the real numbers. *)
Lemma degrees_radians (x : R) :
  RadiansToDegrees (DegreesToRadians x) = x ∧ DegreesToRadians (RadiansToDegrees x) = x ∧
  DegreesToRadians 180%R = PI.
Proof.
  pose proof PI_RGT_0. unfold RadiansToDegrees, DegreesToRadians.
  cbn [s_mul s_div s_of_Z kPi R_scalar R_real R_angle]. split_and!; field; lra.
Qed.

Lemma wrap_down_binary64 fuel a :
  bounded53 a → (units a ≤ units M_PI + Z.of_nat fuel * (5 * one))%Z →
  ∃ r, wrap_down fuel a = Ret r ∧ bounded53 r ∧ (units r ≤ units M_PI)%Z ∧
       ((units M_PI < units a)%Z → (- units M_PI ≤ units r)%Z) ∧ ((units a ≤ units M_PI)%Z → r = a).
Proof.
  destruct turn_units as (Ht & Hp & E & Hr).
  revert a. induction fuel as [|n IH]; intros a Ha Hf; cbn [wrap_down];
    destruct (s_lt kPi a) eqn:Elt; apply (flt_units_b M_PI a _ Hp (proj1 Ha)) in Elt; cbv iota in Elt.
  - lia.
  - exists a. split_and!; [done|done|lia|lia|done].
  - destruct (turn_down a (units M_PI) Ha ltac:(lia) Elt) as (H1 & H2 & H3).
    destruct (IH (fsub a TURN) H1 ltac:(lia)) as (r & Hw & Hb & H4 & H5 & H6).
    exists r. split_and!; [done|done|done| |lia].
    intros _. destruct (Z.le_gt_cases (units (fsub a TURN)) (units M_PI)) as [Hle|Hgt]; [by rewrite (H6 Hle)|].
    by apply H5.
  - exists a. split_and!; [done|done|lia|lia|done].
Qed.

Lemma wrap_up_binary64 fuel a :
  bounded53 a → (units a ≤ units M_PI)%Z → (- units M_PI - Z.of_nat fuel * (5 * one) ≤ units a)%Z →
  ∃ r, wrap_up fuel a = Ret r ∧ number r ∧ (- units M_PI ≤ units r ≤ units M_PI)%Z.
Proof.
  destruct turn_units as (Ht & Hp & E & Hr). destruct (fopp_number M_PI Hp) as [Hn En].
  revert a. induction fuel as [|n IH]; intros a Ha Hle Hf; cbn [wrap_up];
    destruct (s_lt a (s_opp kPi)) eqn:Elt; apply (flt_units_b a (fopp M_PI) _ (proj1 Ha) Hn) in Elt; rewrite En in Elt; cbv iota in Elt.
  - lia.
  - exists a. split_and!; [done|apply Ha|lia|lia].
  - destruct (turn_up a (units M_PI) Ha ltac:(lia) Elt) as (H1 & H2 & H3).
    apply IH; [done|done|]. change (s_add a (s_mul (s_of_Z 2) kPi)) with (fadd a TURN). lia.
  - exists a. split_and!; [done|apply Ha|lia|lia].
Qed.

(** C38. In binary64 [WrapToPi] ends on every angle up to [2 ^ 53]: the loops take off or add a turn at
    most so many times, rounding included, and the result is between [-kPi] and [kPi]. *)
Theorem wrap_to_pi_binary64 (a : spec_float) :
  valid a → fle (fopp (of_Z (2 ^ 53))) a = true → fle a (of_Z (2 ^ 53)) = true →
  ∃ r n, (∀ fuel, (n ≤ fuel)%nat → WrapToPi fuel a = Ret r) ∧ fle (fopp kPi) r = true ∧ fle r kPi = true.
Proof.
  intros Hv H1 H2. pose proof (bounded53_fle a Hv H1 H2) as Ha.
  destruct turn_units as (Ht & Hp & E & Hr). destruct (fopp_number M_PI Hp) as [Hn En].
  assert (0 < one)%Z as Hone by (by apply Z.pow_pos_nonneg).
  set (n := Z.to_nat (2 ^ 53)). assert (Z.of_nat n = 2 ^ 53)%Z as Hnz by (unfold n; apply Z2Nat.id; lia).
  destruct (wrap_down_binary64 n a Ha) as (b & Hb & Hbb & B1 & B2 & B3); [destruct Ha; lia|].
  destruct (wrap_up_binary64 n b Hbb B1) as (r & Hrw & Hrn & Hrb).
  { destruct (Z.le_gt_cases (units a) (units M_PI)) as [Hle|Hgt]; [rewrite (B3 Hle); destruct Ha; lia|].
    specialize (B2 Hgt). lia. }
  exists r, n. split_and!.
  - intros fuel Hf. eapply WrapToPi_mono; [|exact Hf]. unfold WrapToPi. by rewrite Hb, bind_Ret.
  - apply fle_units; [done|done|]. cbn [kPi binary64_angle]. rewrite En. lia.
  - apply fle_units; [done|done|]. cbn [kPi binary64_angle]. lia.
Qed.

(** ** Witnesses *)

Lemma wrap_to_pi_witness :
  ∃ r, WrapToPi (wrap_fuel 7) 7%R = Ret r ∧ congruent r 7 ∧ (- PI <= r <= PI)%R.
Proof.
  destruct (wrap_to_pi (wrap_fuel 7) 7%R) as (r & H1 & H2 & H3 & _); [apply Nat.le_refl|].
  exists r. split; [exact H1|]. split; [exact H2|exact H3].
Defined.

Lemma angle_diff_is_wrapped_witness :
  ∃ r, WrapToPi (wrap_fuel (1 - 6)) (1 - 6)%R = Ret r ∧ AngleDiff 1%R 6%R = Rabs r.
Proof.
  destruct (angle_diff_is_wrapped (wrap_fuel (1 - 6)) 1%R 6%R) as (r & H1 & H2 & _); [apply Nat.le_refl|].
  exists r. split; [exact H1|exact H2].
Defined.

Lemma wrap_to_pi_binary64_witness :
  ∃ r n, (∀ fuel, (n ≤ fuel)%nat → WrapToPi fuel (of_Z 1000) = Ret r) ∧ fle (fopp kPi) r = true ∧ fle r kPi = true.
Proof. apply (wrap_to_pi_binary64 (of_Z 1000)); vm_compute; reflexivity. Defined.
