(* ===== verification/AngleRounding.v ===== *)
(** * Angles in binary64 (src/a17/maths/angle_utils.cpp, angle_unroller.cpp)

    What rounding does to [WrapToPi] and to the angle unroller: how many turns the loops
    take, how far the result is from the angle up to full turns, and how far an unrolled
    angle can be from the one before.  Numbers are measured in units of the smallest
    positive [double], so that [units x] is an integer and [one] is the number one. *)

From Stdlib Require Import SpecFloat Lia.
From S2P Require Import Prelude Floats FloatExact Rounding FloatUtils Scalar RealScalars Angles.
Local Open Scope Z_scope.

(** ** Sums, with their error *)

Lemma one_pos : 0 < one.
Proof. by apply Z.pow_pos_nonneg. Qed.

Lemma fadd_near x y :
  number x → number y → Z.abs (units x + units y) ≤ 2 ^ 60 * one →
  number (fadd x y) ∧ 2 ^ 53 * Z.abs (units (fadd x y) - (units x + units y)) ≤ Z.abs (units x + units y) ∧
  (∀ f, number f → 0 ≤ units f → Z.abs (units x + units y) ≤ units f → Z.abs (units (fadd x y)) ≤ units f).
Proof.
  intros Hx Hy Hb. destruct (fadd_bounds x y Hx Hy) as (H1 & H2 & H3 & H4).
  { eapply Z.le_lt_trans; [exact Hb|]. reflexivity. }
  split_and!; [done|done|]. intros f Hf H0 Hle. specialize (H3 f Hf H0). specialize (H4 f Hf H0). lia.
Qed.

Lemma fsub_near x y :
  number x → number y → Z.abs (units x - units y) ≤ 2 ^ 60 * one →
  number (fsub x y) ∧ 2 ^ 53 * Z.abs (units (fsub x y) - (units x - units y)) ≤ Z.abs (units x - units y) ∧
  (∀ f, number f → 0 ≤ units f → Z.abs (units x - units y) ≤ units f → Z.abs (units (fsub x y)) ≤ units f).
Proof.
  intros Hx Hy Hb. destruct (fopp_number y Hy) as [Hn En]. rewrite fsub_opp.
  pose proof (fadd_near x (fopp y) Hx Hn) as H. rewrite En, Z.add_opp_r in H. by apply H.
Qed.

Lemma fabs_number x : number x → number (fabs x) ∧ units (fabs x) = Z.abs (units x).
Proof.
  intros [Hv Hx]. destruct x as [s|s| |s m e]; try done. split; [done|].
  assert (0 ≤ Z.pos m * 2 ^ (e + 1074)) by (apply Z.mul_nonneg_nonneg; [lia|by apply Z.pow_nonneg]).
  destruct s; cbn [fabs SFabs units cond_Zopp]; lia.
Qed.

#[local] Opaque units one.

(** ** The loops of [WrapToPi] *)

(** [x] is [a] up to [k] full turns and an error of [e], in units of [2 ^ -53]. *)
Definition turns_off (x a k e : Z) : Prop := 2 ^ 53 * Z.abs (x - (a + k * units TURN)) ≤ e.

Lemma turns_off_step x b a k e e' j :
  turns_off x b k e → 2 ^ 53 * Z.abs (b - (a + j * units TURN)) ≤ e' → turns_off x a (k + j) (e + e').
Proof. unfold turns_off. nia. Qed.

Lemma wrap_down_near fuel a :
  bounded53 a → units a ≤ units M_PI + Z.of_nat fuel * (5 * one) →
  ∃ r k, wrap_down fuel a = Ret r ∧ 0 ≤ k ∧ 5 * one * k ≤ Z.max 0 (units a + units M_PI) ∧
         turns_off (units r) (units a) (- k) (k * Z.abs (units a)).
Proof.
  destruct turn_units as (Ht & Hp & E & Hr). pose proof one_pos as Hone.
  revert a. induction fuel as [|n IH]; intros a Ha Hf; cbn [wrap_down];
    destruct (s_lt kPi a) eqn:Elt; apply (flt_units_b M_PI a _ Hp (proj1 Ha)) in Elt; cbv iota in Elt.
  - lia.
  - exists a, 0. split_and!; [done|lia|lia|]. unfold turns_off. lia.
  - destruct (turn_down a (units M_PI) Ha ltac:(lia) Elt) as (H1 & H2 & H3). destruct Ha as [Ha Hab].
    destruct (fsub_near a TURN Ha Ht) as (_ & He & _); [lia|].
    destruct (IH (fsub a TURN) H1 ltac:(lia)) as (r & k & Hw & Hk & Hk5 & Hn).
    exists r, (k + 1). split_and!; [done|lia|lia|].
    assert (k * Z.abs (units (fsub a TURN)) ≤ k * Z.abs (units a)) by (apply Z.mul_le_mono_nonneg_l; lia).
    unfold turns_off in *. lia.
  - exists a, 0. split_and!; [done|lia|lia|]. unfold turns_off. lia.
Qed.

Lemma wrap_up_near fuel a :
  bounded53 a → - units M_PI - Z.of_nat fuel * (5 * one) ≤ units a →
  ∃ r k, wrap_up fuel a = Ret r ∧ 0 ≤ k ∧ 5 * one * k ≤ Z.max 0 (units M_PI - units a) ∧
         turns_off (units r) (units a) k (k * Z.abs (units a)) ∧ (- units M_PI ≤ units a → r = a ∧ k = 0).
Proof.
  destruct turn_units as (Ht & Hp & E & Hr). pose proof one_pos as Hone.
  destruct (fopp_number M_PI Hp) as [Hn En].
  revert a. induction fuel as [|n IH]; intros a Ha Hf; cbn [wrap_up];
    destruct (s_lt a (s_opp kPi)) eqn:Elt; apply (flt_units_b a (fopp M_PI) _ (proj1 Ha) Hn) in Elt;
    rewrite En in Elt; cbv iota in Elt.
  - lia.
  - exists a, 0. split_and!; [done|lia|lia| |intros _; split; reflexivity]. unfold turns_off. lia.
  - destruct (turn_up a (units M_PI) Ha ltac:(lia) Elt) as (H1 & H2 & H3). destruct Ha as [Ha Hab].
    destruct (fadd_near a TURN Ha Ht) as (_ & He & _); [lia|].
    destruct (IH (fadd a TURN) H1 ltac:(lia)) as (r & k & Hw & Hk & Hk5 & Hnr & _).
    exists r, (k + 1). split_and!; [done|lia|lia| |lia].
    assert (k * Z.abs (units (fadd a TURN)) ≤ k * Z.abs (units a)) by (apply Z.mul_le_mono_nonneg_l; lia).
    unfold turns_off in *. lia.
  - exists a, 0. split_and!; [done|lia|lia| |intros _; split; reflexivity]. unfold turns_off. lia.
Qed.

(** Enough for every number up to [2 ^ 53]. *)
Definition turns53 : nat := Z.to_nat (2 ^ 53).

Lemma turns53_Z : Z.of_nat turns53 = 2 ^ 53.
Proof. unfold turns53. by rewrite Z2Nat.id. Qed.

#[local] Opaque turns53.

Lemma WrapToPi_near a :
  bounded53 a →
  ∃ r k, WrapToPi turns53 a = Ret r ∧ number r ∧ Z.abs (units r) ≤ units M_PI ∧
         5 * one * Z.abs k ≤ Z.abs (units a) + units M_PI ∧
         turns_off (units r) (units a) k (Z.abs k * Z.abs (units a)).
Proof.
  intros Ha. destruct turn_units as (Ht & Hp & E & Hr). pose proof one_pos as Hone. pose proof turns53_Z as Hn.
  assert (units a ≤ units M_PI + Z.of_nat turns53 * (5 * one)) as Hf by (destruct Ha; lia).
  destruct (wrap_down_binary64 turns53 a Ha Hf) as (b & Hb & Hbb & B1 & B2 & B3).
  destruct (wrap_down_near turns53 a Ha Hf) as (b' & k & Hb' & Hk & Hk5 & Hkn).
  rewrite Hb in Hb'. injection Hb' as <-.
  assert (- units M_PI - Z.of_nat turns53 * (5 * one) ≤ units b) as Hf2.
  { destruct (Z.le_gt_cases (units a) (units M_PI)) as [Hle|Hgt]; [rewrite (B3 Hle); destruct Ha; lia|].
    specialize (B2 Hgt). lia. }
  destruct (wrap_up_binary64 turns53 b Hbb B1 Hf2) as (r & Hrw & Hrn & Hrb).
  destruct (wrap_up_near turns53 b Hbb Hf2) as (r' & j & Hr' & Hj & Hj5 & Hjn & Hid).
  rewrite Hrw in Hr'. injection Hr' as <-. unfold WrapToPi.
  destruct (Z.le_gt_cases (units a) (units M_PI)) as [Hle|Hgt].
  - rewrite (B3 Hle) in *. exists r, j. rewrite Hb, bind_Ret. replace (Z.abs j) with j by lia.
    split_and!; [done|done|lia|lia|done].
  - specialize (B2 Hgt). destruct (Hid B2) as [-> ->]. exists b, (- k). rewrite Hb, bind_Ret. replace (Z.abs (- k)) with k by lia.
    split_and!; [done|done|lia|lia|done].
Qed.

(** ** The angle unroller *)

(** The error of an unrolled angle up to full turns, for angles up to [B]: less than
    [(B * B + 3 * B + 14) / 2 ^ 53]. *)
Definition unroll_error (B : Z) : Z := (B * B + 3 * B + 14) * one.

(** How far an unrolled angle can be from the one before: half a turn, and the rounding of the sum. *)
Definition half_turn_at (u : Z) : Z := (2 ^ 53 + 1) * units M_PI + Z.abs u.

Definition within (B : Z) (x : spec_float) : Prop := number x ∧ Z.abs (units x) ≤ B * one.

(** The turns of an angle up to [B], and the error they make. *)
Lemma turns_within B k a :
  0 ≤ B → Z.abs a ≤ B * one → 5 * one * Z.abs k ≤ Z.abs a + units M_PI →
  5 * (Z.abs k * Z.abs a) ≤ (B + 4) * B * one.
Proof.
  intros HB Ha Hk. destruct turn_units as (_ & _ & E & Hr). pose proof one_pos as Hone.
  assert (5 * Z.abs k ≤ B + 4) as Hk5.
  { apply (Z.mul_le_mono_pos_l _ _ one); [done|]. lia. }
  assert (Z.abs k * Z.abs a ≤ Z.abs k * (B * one)) by (apply Z.mul_le_mono_nonneg_l; lia).
  assert (5 * Z.abs k * (B * one) ≤ (B + 4) * (B * one)) by (apply Z.mul_le_mono_nonneg_r; [by apply Z.mul_nonneg_nonneg; [|lia]|done]).
  lia.
Qed.

(** The difference of two angles in range, brought to at most half a turn. *)
Lemma wrapped_difference p w :
  number p → number w → Z.abs (units p) ≤ units M_PI → Z.abs (units w) ≤ units M_PI →
  let diff := fsub w p in
  ∃ (minus : bool) t j,
    (if fle (fabs diff) M_PI then false = minus ∧ t = diff
     else if flt (of_Z 0) diff then true = minus ∧ t = fsub TURN diff else false = minus ∧ t = fadd TURN diff) ∧
    number t ∧ Z.abs (units t) ≤ units M_PI ∧
    turns_off (if minus then - units t else units t) (units w - units p) j (3 * units M_PI).
Proof.
  intros Hp Hw Bp Bw diff. destruct turn_units as (Ht & HP & E & Hr). pose proof one_pos as Hone.
  destruct (fsub_near w p Hw Hp) as (Hd & He & Hm); [lia|]. specialize (Hm TURN Ht ltac:(lia) ltac:(lia)).
  fold diff in Hd, He, Hm. destruct (fabs_number diff Hd) as [Ha Ea].
  assert (number (of_Z 0) ∧ units (of_Z 0) = 0) as [H0 E0] by (vm_compute; repeat split).
  destruct (fle (fabs diff) M_PI) eqn:Ele.
  { exists false, diff, 0. apply fle_units in Ele; [|done|done]. rewrite Ea in Ele.
    split_and!; [done|done|done|done|]. unfold turns_off. lia. }
  assert (units M_PI < Z.abs (units diff)) as Hgt.
  { apply Z.nle_gt. intros Hle. rewrite <-Ea in Hle. apply fle_units in Hle; [congruence|done|done]. }
  destruct (flt (of_Z 0) diff) eqn:Elt; apply (flt_units_b _ _ _ H0 Hd) in Elt; rewrite E0 in Elt; cbv iota in Elt.
  - destruct (fsub_near TURN diff Ht Hd) as (Hs & He2 & Hm2); [lia|]. specialize (Hm2 M_PI HP ltac:(lia) ltac:(lia)).
    exists true, (fsub TURN diff), (-1). split_and!; [done|done|done|done|]. unfold turns_off. lia.
  - destruct (fadd_near TURN diff Ht Hd) as (Hs & He2 & Hm2); [lia|]. specialize (Hm2 M_PI HP ltac:(lia) ltac:(lia)).
    exists false, (fadd TURN diff), 1. split_and!; [done|done|done|done|]. unfold turns_off. lia.
Qed.

Lemma within_bounded53 B x : B ≤ 2 ^ 50 → within B x → bounded53 x.
Proof. intros HB [Hx Hb]. pose proof one_pos. split; [done|]. etrans; [exact Hb|]. apply Z.mul_le_mono_nonneg_r; lia. Qed.

(** Four errors add up. *)
Lemma errors_add x1 x2 x3 x4 e1 e2 e3 e4 :
  2 ^ 53 * Z.abs x1 ≤ e1 → 2 ^ 53 * Z.abs x2 ≤ e2 → 2 ^ 53 * Z.abs x3 ≤ e3 → 2 ^ 53 * Z.abs x4 ≤ e4 →
  2 ^ 53 * Z.abs (x1 + x2 + x3 - x4) ≤ e1 + e2 + e3 + e4.
Proof. lia. Qed.

Lemma unrollAngle_near fuel B u a :
  (turns53 ≤ fuel)%nat → 0 ≤ B ≤ 2 ^ 50 → within B (unrolled_angle_ u) → within B a →
  ∃ r k, unrollAngle fuel u a = Ret (mk_unroller r, r) ∧ number r ∧
    2 ^ 53 * Z.abs (units r - units (unrolled_angle_ u)) ≤ half_turn_at (units (unrolled_angle_ u)) ∧
    turns_off (units r) (units a) k (unroll_error B).
Proof.
  intros Hfuel HB Hu Ha. set (st := unrolled_angle_ u) in *.
  destruct turn_units as (Ht & HP & E & Hr). pose proof one_pos as Hone.
  destruct (WrapToPi_near st) as (p & kp & Hp & Np & Bp & K1 & Tp); [by eapply within_bounded53; [apply HB|]|].
  destruct (WrapToPi_near a) as (w & kw & Hw & Nw & Bw & K2 & Tw); [by eapply within_bounded53; [apply HB|]|].
  destruct (wrapped_difference p w Np Nw Bp Bw) as (minus & t & j & Hcase & Hnt & Bt & Tt).
  destruct Hu as [Nu Bu], Ha as [Na Ba].
  pose proof (turns_within B kp (units st) (proj1 HB) Bu K1) as Ep.
  pose proof (turns_within B kw (units a) (proj1 HB) Ba K2) as Ew.
  assert (Z.abs (units st) ≤ 2 ^ 50 * one) as Hbig.
  { etrans; [exact Bu|]. apply Z.mul_le_mono_nonneg_r; lia. }
  set (r := if minus then fsub st t else fadd st t).
  set (s := if minus then - units t else units t).
  assert (number r ∧ 2 ^ 53 * Z.abs (units r - (units st + s)) ≤ Z.abs (units st + s)) as [Nr Er].
  { unfold r, s. destruct minus.
    - destruct (fsub_near st t Nu Hnt) as (H1 & H2 & _); [lia|]. rewrite Z.add_opp_r. split; assumption.
    - destruct (fadd_near st t Nu Hnt) as (H1 & H2 & _); [lia|]. split; assumption. }
  assert (Z.abs s ≤ units M_PI) as Bs by (unfold s; destruct minus; lia).
  exists r, (kw - kp + j). split_and!; [|exact Nr|unfold half_turn_at; lia|].
  - unfold unrollAngle. fold st.
    rewrite (WrapToPi_mono _ _ _ _ Hp Hfuel), bind_Ret, (WrapToPi_mono _ _ _ _ Hw Hfuel), bind_Ret.
    cbn [s_le s_abs s_lt s_sub s_add s_mul s_of_Z kPi binary64 binary64_real binary64_angle] in *.
    change (fmul (of_Z 2) M_PI) with TURN. unfold r.
    destruct (fle (fabs (fsub w p)) M_PI); [by destruct Hcase as [<- ->]|].
    destruct (flt (of_Z 0) (fsub w p)); by destruct Hcase as [<- ->].
  - assert (0 ≤ B * one) as H1 by (apply Z.mul_nonneg_nonneg; lia).
    assert (0 ≤ B * B * one) as H2 by (rewrite <-Z.mul_assoc; apply Z.mul_nonneg_nonneg; lia).
    assert (Z.abs (units st + s) ≤ B * one + units M_PI) as Bst by lia.
    pose proof (errors_add _ _ _ _ _ _ _ _ Er Tt Tw Tp) as Hsum. unfold turns_off, unroll_error.
    fold s in Hsum. etrans; [|etrans; [exact Hsum|]].
    + apply Z.eq_le_incl. do 2 f_equal. ring.
    + clear -Ep Ew Bst E Hr Hone H1 H2. lia.
Qed.

(** ** Properties *)

(** C28. In binary64 unrolling has no jumps and keeps the angle: for angles up to [B], and as long as
    the unrolled angle stays below [B], the loops end, every unrolled angle is at most half a
    turn, and the rounding of one sum, from the one before, and equals the angle added up to
    full turns and less than [(B * B + 3 * B + 14) / 2 ^ 53], rounding of the loops included. *)
Theorem unroller_binary64 fuel B u angles :
  (turns53 ≤ fuel)%nat → 0 ≤ B ≤ 2 ^ 50 → number u →
  Z.abs (units u) + 4 * Z.of_nat (length angles) * one ≤ B * one → Forall (within B) angles →
  ∃ rs, unroll_all fuel (AngleUnroller u) angles = Ret rs ∧
    Forall2 (λ r a, ∃ k, turns_off (units r) (units a) k (unroll_error B)) rs angles ∧
    ∀ i x y, (u :: rs) !! i = Some x → rs !! i = Some y → 2 ^ 53 * Z.abs (units y - units x) ≤ half_turn_at (units x).
Proof.
  intros Hfuel HB. pose proof one_pos as Hone. destruct turn_units as (_ & _ & E & Hr).
  revert u. induction angles as [|a angles IH]; intros u Hu Hb Hs.
  { exists []. split; [reflexivity|]. split; [constructor|]. intros i x y _ Hy. rewrite lookup_nil in Hy. discriminate. }
  apply Forall_cons in Hs as [Ha Hs]. cbn [length] in Hb.
  assert (Z.abs (units u) ≤ B * one) as Hub by lia.
  assert (B * one ≤ 2 ^ 50 * one) as HB1 by (apply Z.mul_le_mono_nonneg_r; lia).
  destruct (unrollAngle_near fuel B (mk_unroller u) a Hfuel HB) as (r & k & Hun & Hn & Hj & Ht); [by split|done|].
  cbn [unrolled_angle_] in Hj. destruct (IH r Hn) as (rs & Hrs & Hcong & Hjumps); [|done|].
  { unfold half_turn_at in Hj. lia. }
  exists (r :: rs). unfold AngleUnroller in *. cbn [unroll_all]. rewrite Hun, bind_Ret. cbv beta iota.
  rewrite Hrs, bind_Ret. split; [done|]. split; [constructor; [by exists k|done]|].
  intros [|i] x y; cbn [lookup list_lookup]; [by intros [= <-] [= <-]|apply Hjumps].
Qed.

(** ** Witnesses *)

Lemma unroller_binary64_witness :
  ∃ rs, unroll_all turns53 (AngleUnroller (of_Z 3)) [of_Z 3; of_Z (-3); of_Z 40] = Ret rs ∧ length rs = 3%nat.
Proof.
  destruct (unroller_binary64 turns53 64 (of_Z 3) [of_Z 3; of_Z (-3); of_Z 40]) as (rs & Hrs & Hf & _).
  - apply Nat.le_refl.
  - split; discriminate.
  - vm_compute. repeat split.
  - vm_compute. discriminate.
  - repeat (apply Forall_cons_2; [split; [vm_compute; repeat split|vm_compute; discriminate]|]). apply Forall_nil_2.
  - exists rs. split; [exact Hrs|]. exact (Forall2_length _ _ _ Hf).
Defined.
