(* ===== verification/Geometry.v ===== *)
(** * Quaternions and rotations (src/a17/maths/quaternion_utils.h, rotations.cpp, matrix_utils.h)

    Vectors and quaternions are their components.  Eigen's operations on them and the inverse
    trigonometric functions of the C library are parameters ([EigenGeometry], [Trigonometry]);
    over the real numbers [EigenLaws] states Eigen's documentation of them, and the
    properties are proved for every implementation that satisfies it. *)

From Stdlib Require Import Reals Lra.
From S2P Require Import Prelude Scalar RealScalars Angles PolynomialRing.
Import PolynomialRing.

Record vec3 (T : Type) : Type := V3 { vx : T; vy : T; vz : T }.
Arguments V3 {T} vx vy vz.
Arguments vx {T} v. Arguments vy {T} v. Arguments vz {T} v.

Record quaternion (T : Type) : Type := Q4 { qw : T; qx : T; qy : T; qz : T }.
Arguments Q4 {T} qw qx qy qz.
Arguments qw {T} q. Arguments qx {T} q. Arguments qy {T} q. Arguments qz {T} q.

(** [std::atan2], [std::asin] and [std::copysign]. *)
Class Trigonometry (T : Type) : Type := {
  s_atan2 : T → T → T;
  s_asin : T → T;
  s_copysign : T → T → T
}.

(** [Quaternion(AngleAxis(angle, axis))], the product, [inverse()] and [_transformVector]. *)
Class EigenGeometry (T : Type) : Type := {
  angle_axis : T → vec3 T → quaternion T;
  qmul : quaternion T → quaternion T → quaternion T;
  qinverse : quaternion T → quaternion T;
  transformVector : quaternion T → vec3 T → vec3 T
}.

Section Operations.
Context {T : Type} `{AngleScalar T} `{!Trigonometry T} `{!EigenGeometry T}.
Local Open Scope scalar_scope.

Definition M_PI_2 : T := kPi / s_of_Z 2.

Definition YawFromQuaternion (q : quaternion T) : T :=
  let siny := s_of_Z 2 * (qw q * qz q + qx q * qy q) in
  let cosy := s_of_Z 1 - s_of_Z 2 * (qy q * qy q + qz q * qz q) in
  s_atan2 siny cosy.

Definition RollFromQuaternion (q : quaternion T) : T :=
  let sinr := s_of_Z 2 * (qw q * qx q + qy q * qz q) in
  let cosr := s_of_Z 1 - s_of_Z 2 * (qx q * qx q + qy q * qy q) in
  s_atan2 sinr cosr.

(** 1e-10 *)
Definition kPrecision : T := s_of_Z 1 / s_of_Z 10000000000.

Definition PitchFromQuaternion (q : quaternion T) : T :=
  let sinp := s_of_Z 2 * (qw q * qy q - qx q * qz q) in
  if s_le (s_of_Z 1 - kPrecision) sinp then M_PI_2
  else if s_le sinp (s_opp (s_of_Z 1) + kPrecision) then s_opp M_PI_2
  else s_asin sinp.

(** The result is [roll, pitch, yaw]. *)
Definition QuaternionToEuler (fuel : nat) (q : quaternion T) : outcome (vec3 T) :=
  let pitch := PitchFromQuaternion q in
  let '(roll, yaw) :=
    if s_eq pitch M_PI_2 || s_eq pitch (s_opp M_PI_2) then
      let sign := s_copysign (s_of_Z 1) pitch in
      (s_of_Z 0, sign * s_opp (s_of_Z 2) * s_atan2 (qx q) (qw q))
    else (RollFromQuaternion q, YawFromQuaternion q) in
  roll ← WrapToPi fuel roll;
  pitch ← WrapToPi fuel pitch;
  yaw ← WrapToPi fuel yaw;
  Ret (V3 roll pitch yaw).

Definition UnitX : vec3 T := V3 (s_of_Z 1) (s_of_Z 0) (s_of_Z 0).
Definition UnitY : vec3 T := V3 (s_of_Z 0) (s_of_Z 1) (s_of_Z 0).
Definition UnitZ : vec3 T := V3 (s_of_Z 0) (s_of_Z 0) (s_of_Z 1).

Definition EulerToQuaternion (euler : vec3 T) : quaternion T :=
  qmul (qmul (angle_axis (vz euler) UnitZ) (angle_axis (vy euler) UnitY)) (angle_axis (vx euler) UnitX).

(** [Rotations]: the constant members, and the two functions. *)
Definition q_pi_x_ : quaternion T := angle_axis kPi UnitX.
Definition q_pi_2_z_ : quaternion T := angle_axis M_PI_2 UnitZ.
Definition q_ned_to_enu_ : quaternion T := qmul q_pi_2_z_ q_pi_x_.
Definition q_enu_to_ned_ : quaternion T := qinverse q_ned_to_enu_.

Definition pointEnuToNed (enu : vec3 T) : vec3 T := transformVector q_enu_to_ned_ enu.

Definition rotEnuToNed (enu : quaternion T) : quaternion T :=
  qmul (qmul q_ned_to_enu_ enu) q_enu_to_ned_.

(** [SkewSymmetricMatrix], by rows. *)
Definition SkewSymmetricMatrix (vec : vec3 T) : list (list T) :=
  [[s_of_Z 0; s_opp (vz vec); vy vec];
   [vz vec; s_of_Z 0; s_opp (vx vec)];
   [s_opp (vy vec); vx vec; s_of_Z 0]].

End Operations.

(** ** The real numbers *)

Section Real.
Local Open Scope R_scope.

Definition Ratan2 (y x : R) : R :=
  if Rltb 0 x then atan (y / x)
  else if Rltb x 0 then (if Rltb y 0 then atan (y / x) - PI else atan (y / x) + PI)
  else if Rltb 0 y then PI / 2
  else if Rltb y 0 then - (PI / 2) else 0.

#[export] Instance R_trigonometry : Trigonometry R := {
  s_atan2 := Ratan2;
  s_asin := asin;
  s_copysign x y := if Rltb y 0 then - Rabs x else Rabs x
}.

(** Quaternions: the product, the conjugate, the squared norm, and the rotation of a vector. *)
Definition hamilton (p q : quaternion R) : quaternion R :=
  Q4 (qw p * qw q - qx p * qx q - qy p * qy q - qz p * qz q)
     (qw p * qx q + qx p * qw q + qy p * qz q - qz p * qy q)
     (qw p * qy q - qx p * qz q + qy p * qw q + qz p * qx q)
     (qw p * qz q + qx p * qy q - qy p * qx q + qz p * qw q).

Definition conjugate (q : quaternion R) : quaternion R := Q4 (qw q) (- qx q) (- qy q) (- qz q).
Definition norm2 (q : quaternion R) : R := qw q * qw q + qx q * qx q + qy q * qy q + qz q * qz q.

Definition rotate (q : quaternion R) (v : vec3 R) : vec3 R :=
  let r := hamilton (hamilton q (Q4 0 (vx v) (vy v) (vz v))) (conjugate q) in
  V3 (qx r) (qy r) (qz r).

(** What Eigen documents: the half-angle quaternion of an angle and an axis, the product of
    quaternions, the inverse of a quaternion that is not zero, and the rotation by a unit
    quaternion. *)
Class EigenLaws `{EigenGeometry R} : Prop := {
  angle_axis_spec a n :
    angle_axis a n = Q4 (cos (a / 2)) (sin (a / 2) * vx n) (sin (a / 2) * vy n) (sin (a / 2) * vz n);
  qmul_spec p q : qmul p q = hamilton p q;
  qinverse_spec q : norm2 q ≠ 0 →
    qinverse q = Q4 (qw q / norm2 q) (- qx q / norm2 q) (- qy q / norm2 q) (- qz q / norm2 q);
  transformVector_spec q v : norm2 q = 1 → transformVector q v = rotate q v
}.

(** ** Trigonometry *)

Lemma Ratan2_polar k θ : 0 < k → - PI < θ <= PI → Ratan2 (k * sin θ) (k * cos θ) = θ.
Proof.
  intros Hk Hθ. pose proof PI_RGT_0 as Hpi. unfold Ratan2.
  assert (cos θ ≠ 0 → k * sin θ / (k * cos θ) = tan θ) as Htan by (intros; unfold tan; field; lra).
  destruct (Rlt_dec θ (- (PI / 2))) as [H1|H1]; [|destruct (Rlt_dec (PI / 2) θ) as [H2|H2];
    [|destruct (Req_dec_T θ (PI / 2)) as [->|H3]; [|destruct (Req_dec_T θ (- (PI / 2))) as [->|H4]]]].
  - assert (cos θ < 0) as Hc by (rewrite <-cos_neg; apply cos_lt_0; lra).
    assert (sin θ < 0) as Hs by (apply sin_lt_0_var; lra).
    rewrite (proj2 (Rltb_false 0 (k * cos θ))), (proj2 (Rltb_true _ _)), (proj2 (Rltb_true _ _)) by nra.
    rewrite Htan by lra. rewrite <-(Rtrigo_facts.tan_pi_plus θ) by lra. rewrite atan_tan; lra.
  - assert (cos θ < 0) as Hc by (apply cos_lt_0; lra).
    assert (0 <= sin θ) as Hs by (apply sin_ge_0; lra).
    rewrite (proj2 (Rltb_false 0 (k * cos θ))), (proj2 (Rltb_true _ _)), (proj2 (Rltb_false _ _)) by nra.
    rewrite Htan by lra. replace θ with (PI + (θ - PI)) at 1 by ring.
    rewrite Rtrigo_facts.tan_pi_plus; [rewrite atan_tan; lra|].
    intros E. rewrite cos_minus, cos_PI, sin_PI in E. lra.
  - rewrite cos_PI2, sin_PI2, Rmult_0_r, Rmult_1_r.
    by rewrite (proj2 (Rltb_false 0 0)), (proj2 (Rltb_true 0 k)) by lra.
  - rewrite cos_neg, sin_neg, cos_PI2, sin_PI2, Rmult_0_r.
    by rewrite (proj2 (Rltb_false 0 0)), (proj2 (Rltb_false _ _)), (proj2 (Rltb_true _ _)) by lra.
  - assert (0 < cos θ) as Hc by (apply cos_gt_0; lra).
    rewrite (proj2 (Rltb_true _ _)) by nra. rewrite Htan by lra. apply atan_tan. lra.
Qed.

(** ** Euler angles *)

Section Euler.
Context `{EigenLaws}.

(** The quaternion of Euler angles, in half angles. *)
Lemma EulerToQuaternion_eq r p y :
  EulerToQuaternion (V3 r p y) =
  Q4 (cos (r / 2) * cos (p / 2) * cos (y / 2) + sin (r / 2) * sin (p / 2) * sin (y / 2))
     (sin (r / 2) * cos (p / 2) * cos (y / 2) - cos (r / 2) * sin (p / 2) * sin (y / 2))
     (cos (r / 2) * sin (p / 2) * cos (y / 2) + sin (r / 2) * cos (p / 2) * sin (y / 2))
     (cos (r / 2) * cos (p / 2) * sin (y / 2) - sin (r / 2) * sin (p / 2) * cos (y / 2)).
Proof.
  unfold EulerToQuaternion. rewrite !qmul_spec, !angle_axis_spec. unfold hamilton.
  cbn [vx vy vz qw qx qy qz UnitX UnitY UnitZ s_of_Z R_scalar]. f_equal; ring.
Qed.

Lemma half_sin a : sin a = 2 * sin (a / 2) * cos (a / 2).
Proof. replace a with (2 * (a / 2)) at 1 by field. apply sin_2a. Qed.

Lemma half_cos a : cos a = cos (a / 2) * cos (a / 2) - sin (a / 2) * sin (a / 2).
Proof. replace a with (2 * (a / 2)) at 1 by field. apply cos_2a. Qed.

Lemma half_one a : cos (a / 2) * cos (a / 2) + sin (a / 2) * sin (a / 2) = 1.
Proof. pose proof (sin2_cos2 (a / 2)) as Hs. unfold Rsqr in Hs. lra. Qed.

(** What the three functions compute on it. *)
Lemma euler_sines r p y :
  let q := EulerToQuaternion (V3 r p y) in
  2 * (qw q * qy q - qx q * qz q) = sin p ∧
  2 * (qw q * qx q + qy q * qz q) = cos p * sin r ∧
  1 - 2 * (qx q * qx q + qy q * qy q) = cos p * cos r ∧
  2 * (qw q * qz q + qx q * qy q) = cos p * sin y ∧
  1 - 2 * (qy q * qy q + qz q * qz q) = cos p * cos y.
Proof.
  intros q. unfold q. rewrite EulerToQuaternion_eq. cbn [qw qx qy qz].
  rewrite (half_sin r), (half_cos r), (half_sin p), (half_cos p), (half_sin y), (half_cos y).
  pose proof (half_one r) as Hr. pose proof (half_one p) as Hp. pose proof (half_one y) as Hy.
  set (cr := cos (r / 2)) in *. set (sr := sin (r / 2)) in *. set (cp := cos (p / 2)) in *.
  set (sp := sin (p / 2)) in *. set (cy := cos (y / 2)) in *. set (sy := sin (y / 2)) in *.
  assert (1 = (cr * cr + sr * sr) * (cp * cp + sp * sp) * (cy * cy + sy * sy)) as H1 by (rewrite Hr, Hp, Hy; ring).
  split_and!.
  - transitivity (2 * sp * cp * ((cr * cr + sr * sr) * (cy * cy + sy * sy))); [ring|rewrite Hr, Hy; ring].
  - transitivity ((cp * cp - sp * sp) * (2 * sr * cr) * (cy * cy + sy * sy)); [ring|rewrite Hy; ring].
  - rewrite H1.
    transitivity ((cp * cp - sp * sp) * (cr * cr - sr * sr) * (cy * cy + sy * sy)); [ring|rewrite Hy; ring].
  - transitivity ((cp * cp - sp * sp) * (2 * sy * cy) * (cr * cr + sr * sr)); [ring|rewrite Hr; ring].
  - rewrite H1.
    transitivity ((cp * cp - sp * sp) * (cy * cy - sy * sy) * (cr * cr + sr * sr)); [ring|rewrite Hr; ring].
Qed.

Lemma Rle_b_false x y : x < y → s_le y x = false.
Proof. intros Hxy. cbn. by rewrite (proj2 (Rltb_true _ _)). Qed.

Lemma Rle_b_true x y : x <= y → s_le x y = true.
Proof. intros Hxy. cbn. by rewrite (proj2 (Rltb_false _ _)). Qed.

Lemma Reqb_neq x y : x ≠ y → Reqb x y = false.
Proof. intros Hne. destruct (Reqb x y) eqn:E; [|done]. by apply Reqb_true in E. Qed.

(** C26. Euler angles are recovered: over the real numbers, for a pitch whose sine is away from one
    by more than the code's tolerance and roll and yaw above minus pi and up to pi, converting
    to a quaternion and back gives the same angles, without a turn of the wrapping loops. *)
Theorem euler_roundtrip fuel r p y :
  - PI < r <= PI → - PI < y <= PI → - (PI / 2) < p < PI / 2 → Rabs (sin p) < 1 - / 10000000000 →
  QuaternionToEuler fuel (EulerToQuaternion (V3 r p y)) = Ret (V3 r p y).
Proof.
  intros Hr Hy Hp Hs. pose proof PI_RGT_0 as Hpi. apply Rabs_def2 in Hs.
  destruct (euler_sines r p y) as (E1 & E2 & E3 & E4 & E5). set (q := EulerToQuaternion _) in *.
  assert (0 < cos p) as Hc by (apply cos_gt_0; lra).
  assert (PitchFromQuaternion q = p) as Ep.
  { unfold PitchFromQuaternion, kPrecision. cbn [s_of_Z s_add s_mul s_sub s_div s_opp s_asin R_scalar R_real R_trigonometry].
    rewrite E1, !Rle_b_false by lra. apply asin_sin. lra. }
  unfold QuaternionToEuler. rewrite Ep. unfold M_PI_2. cbn [s_eq s_opp s_div s_of_Z kPi R_scalar R_real R_angle].
  rewrite !Reqb_neq by lra. cbn [orb].
  assert (RollFromQuaternion q = r) as ->.
  { unfold RollFromQuaternion. cbn [s_of_Z s_add s_mul s_sub s_atan2 R_scalar R_trigonometry].
    rewrite E2, E3. by apply Ratan2_polar. }
  assert (YawFromQuaternion q = y) as ->.
  { unfold YawFromQuaternion. cbn [s_of_Z s_add s_mul s_sub s_atan2 R_scalar R_trigonometry].
    rewrite E4, E5. by apply Ratan2_polar. }
  rewrite !WrapToPi_id by lra. by rewrite !bind_Ret.
Qed.

(** ** Gimbal lock *)

Definition qneg (q : quaternion R) : quaternion R := Q4 (- qw q) (- qx q) (- qy q) (- qz q).

(** A quaternion is determined up to sign by twice the angle between two of its components. *)
Lemma half_turns a b k : a = b + IZR k * (2 * PI) →
  (cos (a / 2) = cos (b / 2) ∧ sin (a / 2) = sin (b / 2)) ∨
  (cos (a / 2) = - cos (b / 2) ∧ sin (a / 2) = - sin (b / 2)).
Proof.
  intros ->. replace ((b + IZR k * (2 * PI)) / 2) with (b / 2 + IZR k * PI) by field.
  rewrite cos_plus, sin_plus.
  assert (sin (IZR k * PI) = 0) as -> by (apply sin_eq_0_1; by exists k).
  assert (cos (IZR k * PI) = 1 ∨ cos (IZR k * PI) = -1) as [->| ->].
  { pose proof (sin2_cos2 (IZR k * PI)) as Hs. rewrite (sin_eq_0_1 (IZR k * PI)) in Hs by (by exists k).
    unfold Rsqr in Hs. assert ((cos (IZR k * PI) - 1) * (cos (IZR k * PI) + 1) = 0) as Hm by lra.
    apply Rmult_integral in Hm as [|]; [left|right]; lra. }
  - left. split; ring.
  - right. split; ring.
Qed.

Lemma cos_turns j : cos (IZR j * (2 * PI)) = 1.
Proof.
  replace (IZR j * (2 * PI)) with (2 * (IZR j * PI)) by ring. rewrite cos_2a_sin.
  rewrite (sin_eq_0_1 (IZR j * PI)) by (by exists j). ring.
Qed.

(** The inverse tangent of a direction, up to full turns. *)
Lemma Ratan2_turns k θ : 0 < k → ∃ j, Ratan2 (k * sin θ) (k * cos θ) = θ + IZR j * (2 * PI).
Proof.
  intros Hk. pose proof PI_RGT_0 as Hpi.
  assert (∃ j, - PI < θ + IZR j * (2 * PI) <= PI) as [j Hj].
  { set (x := (θ - PI) / (2 * PI)). destruct (base_Int_part x) as [H1 H2].
    assert (θ - PI = x * (2 * PI)) as Ex by (unfold x; field; lra).
    destruct (Req_dec_T (IZR (Int_part x)) x) as [E|E].
    - exists (- Int_part x)%Z. rewrite opp_IZR, E. lra.
    - exists (- Int_part x - 1)%Z. rewrite minus_IZR, opp_IZR. nra. }
  exists j. rewrite <-(Ratan2_polar k _ Hk Hj). f_equal; f_equal.
  - rewrite sin_plus, (sin_eq_0_1 (IZR j * (2 * PI))), cos_turns; [ring|]. exists (j * 2)%Z. rewrite mult_IZR. ring.
  - rewrite cos_plus, (sin_eq_0_1 (IZR j * (2 * PI))), cos_turns; [ring|]. exists (j * 2)%Z. rewrite mult_IZR. ring.
Qed.

(** At a pitch of plus or minus a quarter turn only the sum or difference of roll and yaw matters. *)
Lemma gimbal_quaternion σ r y :
  σ = 1 ∨ σ = -1 →
  let k := cos (PI / 4) in let φ := (r - σ * y) / 2 in
  EulerToQuaternion (V3 r (σ * (PI / 2)) y) = Q4 (k * cos φ) (k * sin φ) (σ * (k * cos φ)) (- σ * (k * sin φ)).
Proof.
  intros Hσ k φ. rewrite EulerToQuaternion_eq.
  assert (cos (σ * (PI / 2) / 2) = k ∧ sin (σ * (PI / 2) / 2) = σ * k) as [-> ->].
  { unfold k. destruct Hσ as [->| ->].
    - replace (1 * (PI / 2) / 2) with (PI / 4) by field. rewrite sin_cos_PI4. split; ring.
    - replace (-1 * (PI / 2) / 2) with (- (PI / 4)) by field. rewrite cos_neg, sin_neg, sin_cos_PI4. split; ring. }
  assert (cos φ = cos (r / 2) * cos (y / 2) + σ * (sin (r / 2) * sin (y / 2)) ∧
          sin φ = sin (r / 2) * cos (y / 2) - σ * (cos (r / 2) * sin (y / 2))) as [-> ->].
  { unfold φ. destruct Hσ as [->| ->].
    - replace ((r - 1 * y) / 2) with (r / 2 - y / 2) by field. rewrite cos_minus, sin_minus. split; ring.
    - replace ((r - -1 * y) / 2) with (r / 2 + y / 2) by field. rewrite cos_plus, sin_plus. split; ring. }
  destruct Hσ as [->| ->]; f_equal; ring.
Qed.

(** The yaw the code chooses with a roll of zero. *)
Lemma gimbal_same_rotation σ r y yaw m :
  σ = 1 ∨ σ = -1 → yaw = - σ * (r - σ * y) + IZR m * (2 * PI) →
  let q := EulerToQuaternion (V3 r (σ * (PI / 2)) y) in
  EulerToQuaternion (V3 0 (σ * (PI / 2)) yaw) = q ∨ EulerToQuaternion (V3 0 (σ * (PI / 2)) yaw) = qneg q.
Proof.
  intros Hσ Hyaw q. unfold q. rewrite !gimbal_quaternion by done.
  set (φ := (r - σ * y) / 2).
  assert ((cos ((0 - σ * yaw) / 2) = cos φ ∧ sin ((0 - σ * yaw) / 2) = sin φ) ∨
          (cos ((0 - σ * yaw) / 2) = - cos φ ∧ sin ((0 - σ * yaw) / 2) = - sin φ)) as [[-> ->]|[-> ->]].
  { unfold φ. destruct Hσ as [->| ->].
    - apply (half_turns _ _ (- m)). rewrite Hyaw, opp_IZR. ring.
    - apply (half_turns _ _ m). rewrite Hyaw. ring. }
  - by left.
  - right. unfold qneg. cbn [qw qx qy qz]. f_equal; ring.
Qed.

(** Gimbal lock is resolved: when the nose points straight up or down, whatever roll and yaw were,
    the Euler angles returned have a roll of zero, the same pitch, and a yaw that makes them
    the same rotation (the quaternion or its negative). *)
Theorem gimbal_lock_resolved r y p :
  p = PI / 2 ∨ p = - (PI / 2) →
  ∃ fuel yaw,
    QuaternionToEuler fuel (EulerToQuaternion (V3 r p y)) = Ret (V3 0 p yaw) ∧
    (EulerToQuaternion (V3 0 p yaw) = EulerToQuaternion (V3 r p y) ∨
     EulerToQuaternion (V3 0 p yaw) = qneg (EulerToQuaternion (V3 r p y))).
Proof.
  intros Hp. pose proof PI_RGT_0 as Hpi.
  assert (∃ σ, (σ = 1 ∨ σ = -1) ∧ p = σ * (PI / 2) ∧ sin p = σ ∧ s_copysign 1 p = σ) as (σ & Hσ & Ep & Es & Ec).
  { cbn [s_copysign R_trigonometry]. rewrite Rabs_R1. destruct Hp as [->| ->].
    - exists 1. rewrite sin_PI2, (proj2 (Rltb_false _ _)) by lra. split_and!; [by left|lra|done|done].
    - exists (-1). rewrite sin_neg, sin_PI2, (proj2 (Rltb_true _ _)) by lra. split_and!; [by right|lra|lra|lra]. }
  destruct (euler_sines r p y) as (E1 & _). set (q := EulerToQuaternion (V3 r p y)) in *.
  assert (PitchFromQuaternion q = p) as Hpitch.
  { unfold PitchFromQuaternion, kPrecision, M_PI_2.
    cbn [s_of_Z s_add s_mul s_sub s_div s_opp kPi R_scalar R_real R_angle]. rewrite E1, Es, Ep.
    destruct Hσ as [->| ->].
    - rewrite Rle_b_true by lra. lra.
    - rewrite Rle_b_false, Rle_b_true by lra. lra. }
  set (φ := (r - σ * y) / 2).
  assert (∃ j, Ratan2 (qx q) (qw q) = φ + IZR j * (2 * PI)) as [j Hj].
  { unfold q. rewrite Ep, gimbal_quaternion by done. cbn [qx qw]. apply Ratan2_turns.
    apply cos_gt_0; lra. }
  set (yaw0 := σ * - (2) * (φ + IZR j * (2 * PI))).
  destruct (WrapToPi_real (wrap_fuel yaw0) yaw0 (Nat.le_refl _)) as (yaw & Hw & [m Hm] & _).
  exists (wrap_fuel yaw0), yaw. split.
  - unfold QuaternionToEuler. rewrite Hpitch. unfold M_PI_2.
    cbn [s_eq s_opp s_div s_mul s_of_Z s_atan2 kPi R_scalar R_real R_angle R_trigonometry].
    assert (Reqb p (PI / 2) || Reqb p (- (PI / 2)) = true) as ->.
    { apply orb_true_iff. rewrite !Reqb_true. destruct Hσ as [E|E]; rewrite E in Ep; [left|right]; lra. }
    rewrite Hj, Ec. fold yaw0. cbv beta iota.
    rewrite (WrapToPi_id _ 0), bind_Ret by lra. rewrite (WrapToPi_id _ p), bind_Ret by (destruct Hp; lra).
    by rewrite Hw, bind_Ret.
  - unfold q. rewrite Ep.
    apply (gimbal_same_rotation _ _ _ _ (m + (if Rltb σ 0 then 2 * j else - 2 * j))); [done|].
    rewrite Hm. unfold yaw0, φ. rewrite plus_IZR.
    destruct Hσ as [->| ->].
    + rewrite (proj2 (Rltb_false _ _)), mult_IZR by lra. field.
    + rewrite (proj2 (Rltb_true _ _)), mult_IZR by lra. field.
Qed.

(** ** East-north-up and north-east-down *)

Lemma q_ned_to_enu_eq : q_ned_to_enu_ = Q4 0 (cos (PI / 4)) (cos (PI / 4)) 0.
Proof.
  unfold q_ned_to_enu_, q_pi_2_z_, q_pi_x_, M_PI_2. rewrite qmul_spec, !angle_axis_spec.
  cbn [kPi s_div s_of_Z R_scalar R_real R_angle UnitX UnitZ vx vy vz]. unfold hamilton. cbn [qw qx qy qz].
  rewrite cos_PI2, sin_PI2. replace (PI / 2 / 2) with (PI / 4) by field. rewrite sin_cos_PI4. f_equal; ring.
Qed.

Lemma cos_PI4_square : cos (PI / 4) * cos (PI / 4) = / 2.
Proof. pose proof (sin2_cos2 (PI / 4)) as Hs. unfold Rsqr in Hs. rewrite sin_cos_PI4 in Hs. lra. Qed.

Lemma q_enu_to_ned_eq : q_enu_to_ned_ = Q4 0 (- cos (PI / 4)) (- cos (PI / 4)) 0.
Proof.
  unfold q_enu_to_ned_. pose proof cos_PI4_square as Hc.
  assert (norm2 q_ned_to_enu_ = 1) as Hn by (rewrite q_ned_to_enu_eq; unfold norm2; cbn [qw qx qy qz]; lra).
  rewrite qinverse_spec, Hn by lra. rewrite q_ned_to_enu_eq. cbn [qw qx qy qz]. f_equal; field.
Qed.

Lemma pointEnuToNed_eq v : pointEnuToNed v = V3 (vy v) (vx v) (- vz v).
Proof.
  unfold pointEnuToNed. pose proof cos_PI4_square as Hc.
  assert (norm2 q_enu_to_ned_ = 1) as Hn by (rewrite q_enu_to_ned_eq; unfold norm2; cbn [qw qx qy qz]; lra).
  rewrite transformVector_spec by done. rewrite q_enu_to_ned_eq. unfold rotate, hamilton, conjugate.
  cbn [qw qx qy qz]. set (c := cos (PI / 4)) in *. destruct v as [x y z]. cbn [vx vy vz].
  f_equal; [transitivity (2 * (c * c) * y)|transitivity (2 * (c * c) * x)|transitivity (- (2 * (c * c) * z))];
    try ring; rewrite Hc; field.
Qed.

Lemma rotEnuToNed_eq q : rotEnuToNed q = Q4 (qw q) (qy q) (qx q) (- qz q).
Proof.
  unfold rotEnuToNed. pose proof cos_PI4_square as Hc. rewrite !qmul_spec, q_ned_to_enu_eq, q_enu_to_ned_eq.
  unfold hamilton. cbn [qw qx qy qz]. set (c := cos (PI / 4)) in *. destruct q as [w x y z]. cbn [qw qx qy qz].
  f_equal; [transitivity (2 * (c * c) * w)|transitivity (2 * (c * c) * y)|transitivity (2 * (c * c) * x)
    |transitivity (- (2 * (c * c) * z))]; try ring; rewrite Hc; field.
Qed.

(** The change of frame is right: over the real numbers a point given east, north, up is returned
    north, east, down; an orientation keeps its angle and has its axis changed likewise; both
    changes undo themselves; and rotating a point in the new frame by the new orientation is
    the old rotation seen from the new frame. *)
Theorem enu_ned_change (q : quaternion R) (v : vec3 R) :
  norm2 q = 1 →
  pointEnuToNed v = V3 (vy v) (vx v) (- vz v) ∧
  rotEnuToNed q = Q4 (qw q) (qy q) (qx q) (- qz q) ∧
  pointEnuToNed (pointEnuToNed v) = v ∧ rotEnuToNed (rotEnuToNed q) = q ∧
  transformVector (rotEnuToNed q) (pointEnuToNed v) = pointEnuToNed (transformVector q v).
Proof.
  intros Hq.
  assert (norm2 (rotEnuToNed q) = 1) as Hr.
  { rewrite <-Hq, rotEnuToNed_eq. unfold norm2. cbn [qw qx qy qz]. ring. }
  rewrite !transformVector_spec by done. rewrite !pointEnuToNed_eq, !rotEnuToNed_eq.
  destruct v as [x y z], q as [w i j k]. cbn [vx vy vz qw qx qy qz].
  split_and!; [done|done|f_equal; ring|f_equal; ring|].
  unfold rotate, hamilton, conjugate. cbn [qw qx qy qz vx vy vz]. f_equal; ring.
Qed.

(** Multiplying by the skew-symmetric matrix is the cross product. *)
Lemma skew_symmetric_cross (a b : vec3 R) :
  mul_vector (SkewSymmetricMatrix a) [vx b; vy b; vz b] =
  [vy a * vz b - vz a * vy b; vz a * vx b - vx a * vz b; vx a * vy b - vy a * vx b].
Proof.
  unfold mul_vector, SkewSymmetricMatrix, sum. cbn. repeat f_equal; ring.
Qed.

End Euler.

End Real.

(** ** An implementation *)

Section Witnesses.
Local Open Scope R_scope.

Local Instance R_eigen : EigenGeometry R := {
  angle_axis a n := Q4 (cos (a / 2)) (sin (a / 2) * vx n) (sin (a / 2) * vy n) (sin (a / 2) * vz n);
  qmul := hamilton;
  qinverse q := Q4 (qw q / norm2 q) (- qx q / norm2 q) (- qy q / norm2 q) (- qz q / norm2 q);
  transformVector := rotate
}.

Local Instance R_eigen_laws : EigenLaws.
Proof. by split. Qed.

Lemma euler_roundtrip_witness :
  QuaternionToEuler 0 (EulerToQuaternion (V3 1 0 2)) = Ret (V3 1 0 2).
Proof.
  pose proof PI2_3_2 as Hpi. apply euler_roundtrip; [lra..|]. rewrite sin_0, Rabs_R0. lra.
Defined.

Lemma gimbal_lock_resolved_witness :
  ∃ fuel yaw, QuaternionToEuler fuel (EulerToQuaternion (V3 1 (PI / 2) 2)) = Ret (V3 0 (PI / 2) yaw).
Proof.
  destruct (gimbal_lock_resolved 1 2 (PI / 2)) as (fuel & yaw & H & _); [left; reflexivity|].
  exists fuel, yaw. exact H.
Defined.

Lemma enu_ned_change_witness :
  transformVector (rotEnuToNed (Q4 0 1 0 0)) (pointEnuToNed (V3 1 2 3)) =
  pointEnuToNed (transformVector (Q4 0 1 0 0) (V3 1 2 3)).
Proof. apply (enu_ned_change (Q4 0 1 0 0) (V3 1 2 3)). unfold norm2. cbn. lra. Defined.

End Witnesses.
