(* ===== verification/Matrices.v ===== *)
(** * The adjugate matrix (src/a17/maths/matrix_utils.h)

    A matrix is its size and its elements by index.  Eigen's determinant and inverse are
    parameters; assigning blocks is element by element, and a block outside its matrix, which
    Eigen's assertions refuse, is the result [Asserted].  The elements of matrices that are
    not initialized are given and arbitrary ([fresh]).  Arithmetic is that of a field. *)

From mathcomp Require Import ssreflect ssrfun ssrbool eqtype ssrnat seq choice fintype.
From mathcomp Require Import bigop finalg zmodp nmodule ssralg matrix.
From Stdlib Require Import String.

Set Implicit Arguments.
Unset Strict Implicit.
Unset Printing Implicit Defensive.

Import GRing.Theory.
Local Open Scope ring_scope.

Module Matrices.

Section Model.
Variable F : fieldType.

Record matrix : Type := Matrix { rows : nat; cols : nat; coeff : nat -> nat -> F }.

(** What a call does: return a matrix, throw [std::invalid_argument], or fail an assertion. *)
Inductive result : Type := Returned of matrix | Threw of string | Asserted.

Definition bind (m : result) (k : matrix -> result) : result :=
  if m is Returned a then k a else m.

Definition set_coeff (m : matrix) (r c : nat) (x : F) : matrix :=
  Matrix (rows m) (cols m) (fun i j => if (i == r) && (j == c) then x else coeff m i j).

(** [dst.block(i0, j0, h, w) = src.block(k0, l0, h, w)] *)
Definition copy_block (dst : matrix) (i0 j0 : nat) (src : matrix) (k0 l0 h w : nat) : result :=
  if [&& i0 + h <= rows dst, j0 + w <= cols dst, k0 + h <= rows src & l0 + w <= cols src]%N then
    Returned (Matrix (rows dst) (cols dst) (fun i j =>
      if [&& i0 <= i, i < i0 + h, j0 <= j & j < j0 + w]%N
      then coeff src (k0 + (i - i0)) (l0 + (j - j0)) else coeff dst i j))
  else Asserted.

Section Operations.
Variable determinant : matrix -> F.
Variable inverse : matrix -> matrix.
Variable fresh : nat -> nat -> F.

(** The matrix without row [r] and column [c], put together from four blocks. *)
Definition submatrix (mat : matrix) (r c : nat) : result :=
  let temp := Matrix (rows mat - 1) (cols mat - 1) fresh in
  let br_rows := (rows mat - r.+1)%N in
  let br_cols := (cols mat - c.+1)%N in
  bind (copy_block temp 0 0 mat 0 0 r c) (fun temp =>
  bind (copy_block temp 0 c mat 0 c.+1 r br_cols) (fun temp =>
  bind (copy_block temp r 0 mat r.+1 0 br_rows c) (fun temp =>
  copy_block temp r c mat r.+1 c.+1 br_rows br_cols))).

(** The loop over [n] columns from [c] on. *)
Fixpoint cofactor_cols (mat cofactors : matrix) (r c n : nat) : result :=
  if n is n'.+1 then
    bind (submatrix mat r c) (fun temp =>
      let even_row := ~~ odd r in
      let even_col := ~~ odd c in
      let sign : F := if even_row == even_col then 1 else - 1 in
      cofactor_cols mat (set_coeff cofactors r c (sign * determinant temp)) r c.+1 n')
  else Returned cofactors.

(** The loop over [n] rows from [r] on. *)
Fixpoint cofactor_rows (mat cofactors : matrix) (r n : nat) : result :=
  if n is n'.+1 then
    bind (cofactor_cols mat cofactors r 0 (cols mat)) (fun cofactors =>
      cofactor_rows mat cofactors r.+1 n')
  else Returned cofactors.

Definition transpose (m : matrix) : matrix := Matrix (cols m) (rows m) (fun i j => coeff m j i).

Definition scale (a : F) (m : matrix) : matrix := Matrix (rows m) (cols m) (fun i j => a * coeff m i j).

Definition Adjugate (mat : matrix) : result :=
  if rows mat != cols mat then Threw "Input must be a square matrix" else
  let det := determinant mat in
  if det != 0 then Returned (scale det (inverse mat)) else
  bind (cofactor_rows mat (Matrix (rows mat) (cols mat) fresh) 0 (rows mat)) (fun cofactors =>
  Returned (transpose cofactors)).

(** ** Correctness *)

(** The square matrix with the same elements. *)
Definition to_mx (n : nat) (m : matrix) : 'M[F]_n := \matrix_(i, j) coeff m i j.

Definition square (n : nat) (m : matrix) : Prop := rows m = n /\ cols m = n.

(** Eigen's determinant and inverse are the determinant and the inverse. *)
Hypothesis determinantE : forall n m, square n m -> determinant m = \det (to_mx n m).
Hypothesis inverseE : forall n m, square n m -> \det (to_mx n m) != 0 ->
  square n (inverse m) /\ to_mx n (inverse m) = invmx (to_mx n m).

Lemma submatrixE n m r c : square n.+1 m -> (r <= n)%N -> (c <= n)%N ->
  exists2 t, submatrix m r c = Returned t & square n t /\
    forall i j, (i < n)%N -> (j < n)%N -> coeff t i j = coeff m (bump r i) (bump c j).
Proof.
case=> Hr Hc ler lec.
have Er : (r + (n.+1 - r.+1) = n)%N by rewrite subSS subnKC.
have Ec : (c + (n.+1 - c.+1) = n)%N by rewrite subSS subnKC.
have Er' : (r.+1 + (n.+1 - r.+1) = n.+1)%N by rewrite subnKC.
have Ec' : (c.+1 + (n.+1 - c.+1) = n.+1)%N by rewrite subnKC.
rewrite /submatrix /copy_block Hr Hc /= subn1 /= !add0n Er Ec Er' Ec' !(leqW ler) !(leqW lec).
do 4! rewrite ?ler ?lec ?leqnn /=.
eexists; first by [].
split=> // i j lti ltj /=.
rewrite lti ltj /= !andbT /bump.
case: (leqP r i) => Hi; case: (leqP c j) => Hj /=; rewrite ?andbF ?subn0 ?add1n ?add0n //.
- by rewrite !addSn !subnKC.
- by rewrite !addSn !subnKC.
- by rewrite !addSn !subnKC.
Qed.

(** The signed determinant of a submatrix is the cofactor. *)
Lemma cofactorE n m r c : square n.+1 m -> (r <= n)%N -> (c <= n)%N ->
  exists2 t, submatrix m r c = Returned t &
    (if ~~ odd r == ~~ odd c then 1 else - 1) * determinant t =
    cofactor (to_mx n.+1 m) (inord r) (inord c).
Proof.
move=> sqm ler lec; have [t -> [sqt Et]] := submatrixE sqm ler lec.
exists t => //; rewrite (determinantE sqt) /cofactor !inordK //.
have -> : to_mx n t = row' (inord r) (col' (inord c) (to_mx n.+1 m)).
  by apply/matrixP=> i j; rewrite !mxE Et //= !inordK.
by rewrite -signr_odd oddD; case: (odd r); case: (odd c).
Qed.

Lemma cofactor_colsE n m cof r c k : square n.+1 m -> square n.+1 cof -> (r <= n)%N -> (c + k = n.+1)%N ->
  exists2 cof', cofactor_cols m cof r c k = Returned cof' & square n.+1 cof' /\
    forall i j, (i <= n)%N -> (j <= n)%N -> coeff cof' i j =
      if (i == r) && (c <= j)%N then cofactor (to_mx n.+1 m) (inord i) (inord j) else coeff cof i j.
Proof.
move=> sqm sqc ler; elim: k c cof sqc => [|k IH] c cof sqc /=.
  rewrite addn0 => ->; exists cof => //; split=> // i j lei lej.
  by rewrite leqNgt ltnS lej andbF.
move=> Eck; have lec : (c <= n)%N by rewrite -ltnS -Eck addnS ltnS leq_addr.
have [t -> Et] := cofactorE sqm ler lec; rewrite /= Et.
have [|cof' -> [sqc' Ecof]] := IH c.+1 (set_coeff cof r c (cofactor (to_mx n.+1 m) (inord r) (inord c))) sqc.
  by rewrite addSn -addnS.
exists cof' => //; split=> // i j lei lej; rewrite Ecof //=.
case: (i =P r) => [->|] //=; rewrite [(c <= j)%N]leq_eqVlt eq_sym.
by case: (c =P j) => [->|] //=; rewrite ?ltnn.
Qed.

Lemma cofactor_rowsE n m cof r k : square n.+1 m -> square n.+1 cof -> (r + k = n.+1)%N ->
  exists2 cof', cofactor_rows m cof r k = Returned cof' & square n.+1 cof' /\
    forall i j, (i <= n)%N -> (j <= n)%N -> coeff cof' i j =
      if (r <= i)%N then cofactor (to_mx n.+1 m) (inord i) (inord j) else coeff cof i j.
Proof.
move=> sqm; elim: k r cof => [|k IH] r cof sqc /=.
  rewrite addn0 => ->; exists cof => //; split=> // i j lei lej.
  by rewrite leqNgt ltnS lei.
move=> Erk; have ler : (r <= n)%N by rewrite -ltnS -Erk addnS ltnS leq_addr.
have [|cof1 -> [sq1 E1]] := @cofactor_colsE n m cof r 0 (cols m) sqm sqc ler; first by rewrite (proj2 sqm).
have [|cof' /= -> [sqc' Ecof]] := IH r.+1 cof1 sq1; first by rewrite addSn -addnS.
exists cof' => //; split=> // i j lei lej; rewrite Ecof // E1 //= leq0n andbT [(r <= i)%N]leq_eqVlt eq_sym.
by case: (r == i); case: (r < i)%N.
Qed.

(** C16. [Adjugate] returns the adjugate: of a square matrix over a field it is the transposed matrix of
    cofactors, whether the matrix is invertible (the determinant times the inverse) or not (the
    loops over submatrices, which stay inside the matrices and depend on no uninitialized
    element), so that multiplying by it gives the determinant; other matrices are refused. *)
Theorem adjugate_correct n m : square n m ->
  (exists2 a, Adjugate m = Returned a & square n a /\ to_mx n a = \adj (to_mx n m) /\
     to_mx n m *m to_mx n a = (\det (to_mx n m))%:M) /\
  forall m', rows m' <> cols m' -> Adjugate m' = Threw "Input must be a square matrix".
Proof.
move=> sqm; split; last by move=> m' /eqP ne; rewrite /Adjugate ne.
suff [a -> [sqa Ea]] : exists2 a, Adjugate m = Returned a & square n a /\ to_mx n a = \adj (to_mx n m).
  by exists a => //; rewrite Ea mul_mx_adj.
rewrite /Adjugate (proj1 sqm) (proj2 sqm) eqxx /= (determinantE sqm).
have [d0|/negbNE/eqP d0] := boolP (\det (to_mx n m) != 0).
  have [sqi Ei] := inverseE sqm d0; eexists; first by [].
  split; first by case: sqi.
  have -> : to_mx n (scale (\det (to_mx n m)) (inverse m)) = \det (to_mx n m) *: to_mx n (inverse m).
    by apply/matrixP=> i j; rewrite !mxE.
  by rewrite Ei /invmx unitmxE unitfE d0 scalerA divff // scale1r.
case: n sqm d0 => [|n] sqm d0; first by move/eqP: d0; rewrite det_mx00 oner_eq0.
have [//|//|cof -> [sqc Ec]] := @cofactor_rowsE n m (Matrix n.+1 n.+1 fresh) 0 n.+1 sqm.
exists (transpose cof) => //; split; first by case: sqc.
by apply/matrixP=> i j; rewrite !mxE /= Ec ?leq_ord //= !inord_val.
Qed.

End Operations.

(** ** A determinant and an inverse *)

Definition of_mx (n : nat) (A : 'M[F]_n) : matrix :=
  Matrix n n (fun i j => if (insub i, insub j) is (Some i', Some j') then A i' j' else 0).

Definition mx_determinant (m : matrix) : F := \det (to_mx (rows m) m).
Definition mx_inverse (m : matrix) : matrix := of_mx (invmx (to_mx (rows m) m)).

Lemma of_mxK n (A : 'M[F]_n) : to_mx n (of_mx A) = A.
Proof. by apply/matrixP=> i j; rewrite mxE /= !valK. Qed.

Lemma mx_determinantE n m : square n m -> mx_determinant m = \det (to_mx n m).
Proof. by case=> <-. Qed.

Lemma mx_inverseE n m : square n m -> \det (to_mx n m) != 0 ->
  square n (mx_inverse m) /\ to_mx n (mx_inverse m) = invmx (to_mx n m).
Proof. by case=> <- _ _; split; last exact: of_mxK. Qed.

End Model.

(** The matrix [[1, 2], [2, 4]] over the field of five elements, which is not invertible. *)
Definition demo_matrix : matrix 'F_5 := Matrix 2 2 (fun i j => (i.+1 * j.+1)%:R).

Lemma adjugate_correct_witness :
  exists2 a, Adjugate (@mx_determinant _) (@mx_inverse _) (fun _ _ => 0) demo_matrix = Returned a &
    to_mx 2 a = \adj (to_mx 2 demo_matrix).
Proof.
have [[a H1 [_ [H2 _]]] _] := @adjugate_correct 'F_5 (@mx_determinant _) (@mx_inverse _) (fun _ _ => 0)
  (@mx_determinantE _) (@mx_inverseE _) 2 demo_matrix (conj erefl erefl).
by exists a.
Defined.

End Matrices.
